(* ===== verification/_CoqProject ===== *)
-Q . S2P
Prelude.v
Memory.v
RangeList.v
PriorityQ.v
HandleTable.v
GlobusList.v
Fifo.v
Hashtable.v
Chars.v
Stdio.v
Radix.v
FtpControl.v
Url.v
RestartMarker.v
GramPack.v
GramFrame.v
CertName.v
Gridmap.v
GridmapDir.v
SshBuf.v
RwMutex.v
RMutex.v
Symboltable.v
Rsl.v
RslScan.v
RslYacc.v
RslComplete.v
RslUnparse.v
RslOps.v
