(* ===== verification/Prelude.v ===== *)
(** * Grid Community Toolkit: a verification development

    The toolkit (src/) is a set of C libraries and programs for moving data and
    running jobs on a grid. At its base is the common library
    (src/common/source/library): memory pools, lists, fifos, hash tables, handle
    tables, priority queues, range lists, URLs and locks, which every other part
    uses. On top of it are the security library (src/gsi), the extensible I/O
    library (src/xio), GridFTP (src/gridftp: control and data channel, client,
    server), GRAM (src/gram: job submission), GASS (src/gass: remote files),
    MyProxy (src/myproxy) and the patched OpenSSH (src/gsi_openssh).

    This development is a shallow embedding of the data structures and locks of
    the common library, and of the parts of GridFTP, GRAM, the security library
    and GSI-OpenSSH that compute on their own: each C function is a Rocq function
    of the same name, and the theorems are about these functions.

    ** The model

    - Outcomes. A computation is a [result]: it returns ([Ok]) or leaves defined
      behaviour ([Fault]): it dereferences NULL or a dead node, fails an assert,
      accesses memory outside an array, overflows a signed integer, or exhausts the
      fuel of a loop. "Does not fault" thus includes memory safety and termination.
    - Integers are in Z, with [s32] and [s64] where signed arithmetic could
      overflow and [uwrap], [swrap] where it wraps.
    - Pointers are locations of a finite map from locations to nodes where the code
      links nodes (lists, hash tables, heaps of entries, buffers, waiters); NULL is
      [None]. A block that is freed leaves the map, so that a use after free is a
      fault.
    - Allocation. [cmd] is the monad of code whose calls of malloc may fail: a plan
      says which do, and [live] counts the blocks in use. Theorems are for every
      plan ([runs], or the plan quantified in the statement) or for plans without a
      failure ([ample], [gives]). A file where allocation does not fail says so.
    - Output parameters are results; a pointer argument that the code compares with
      NULL is an [option], or a boolean when only that comparison matters.
    - Constants (error codes, sizes, token numbers) have the names and values of the
      source.
    - Concurrency. The data structures are protected by their users or hold a lock
      from start to end, so that their operations are atomic. The locks
      (RwMutex.v, RMutex.v) and the leases of accounts (GridmapDir.v) are step
      relations: what the threads or processes do in any order, at the grain of the
      sections under a mutex or of the system calls.
    - Fuel. A loop over a linked structure gets the number of nodes plus one, a scan
      of a string its length plus one, a loop over the digits of a 64-bit number
      20. The scanner of job descriptions gets twice the characters left plus two,
      the parser twenty steps for a character plus one: every token is shifted once
      and allows a bounded number of reductions. The theorems show that this is
      enough: they state what is returned, and running out of fuel is a fault. Where
      the code does not terminate (Url.parse_loose_hangs), the model faults for
      every amount of fuel. The stack of the parser holds 10000 states, as in the
      source (YYMAXDEPTH).

    ** The files

    The common library:
    - Prelude.v: outcomes, integers, allocation, the interface of node pools
      ([NodePool] with [NodePoolLaws]), tactics and shared lemmas.
    - Memory.v (globus_memory.c): pools of nodes of one size. State: the chunks, the
      free list threaded through the nodes, the counters. It is an instance of
      [NodePoolLaws], against which PriorityQ.v and Hashtable.v are proved.
    - RangeList.v (globus_range_list.c): sorted lists of byte ranges.
    - PriorityQ.v (globus_priority_q.c): an array heap of entries from a pool.
    - HandleTable.v (globus_handle_table.c): reference-counted handles.
    - GlobusList.v (globus_list.c): linked lists in a heap with the two allocators of
      the module ([ListAlloc]).
    - Fifo.v (globus_fifo.c): queues on these lists.
    - Hashtable.v (globus_hashtable.c): buckets that are segments of one doubly
      linked list.
    - Symboltable.v (globus_symboltable.c): stacks of hash tables, an instance of the
      interface [SymbolTable] that Rsl.v uses.
    - Chars.v, Stdio.v: C strings, <ctype.h>, decimal numbers, sscanf, sprintf.
    - Url.v (globus_url.c): the three parsers, escaping, copy and destruction.
    - RwMutex.v (globus_thread_rw_mutex.c): reader-writer locks with their queue of
      waiters, and the threads that use them.
    - RMutex.v (globus_thread_rmutex.c): recursive locks and their threads.

    GridFTP:
    - Radix.v (globus_ftp_control_client.c, and its copy in
      globus_xio_gssapi_ftp.c): the base64 encoding of protected tokens.
    - FtpControl.v (globus_ftp_control_client.c, globus_ftp_control_server.c):
      protected commands, and the search for the end of a reply. The GSS-API is a
      parameter of the model with the law that unwrap undoes wrap.
    - RestartMarker.v (globus_ftp_client_restart_marker.c): the bytes of a transfer
      that have arrived.

    GRAM:
    - GramPack.v (globus_gram_protocol_pack.c): messages and their extensions.
    - GramFrame.v (globus_gram_protocol_frame.c, globus_gram_protocol_io.c): messages
      in HTTP requests and replies, and the callbacks that read them in portions.
    - Rsl.v (globus_rsl.c): job descriptions as trees, and their evaluation.
    - RslScan.v (globus_rsl_scanner.l): the scanner, rule by rule.
    - RslYacc.v (globus_rsl_parser.c): the generated tables and the driver of the
      parser; RslComplete.v: what it accepts.
    - RslUnparse.v (globus_rsl.c): printing, and the round trip with the parser.
    - RslOps.v (globus_rsl.c, globus_rsl_assist.c): the values of attributes, copies,
      canonical names.

    Security and OpenSSH:
    - CertName.v (globus_gsi_cert_utils.c): comparison of distinguished names.
    - Gridmap.v (gridmap.c): the grid map file, from its lines to the decision whether
      a user may use an account; GridmapDir.v: accounts leased from a directory.
    - SshBuf.v (sshbuf.c, sshbuf-getput-basic.c): buffers that own or share blocks.

    ** The theorems

    - Refinement. A hash table, a handle table and a fifo answer every sequence of
      operations as an association list, a map of counted values and a queue do
      (hashtable_refines, handle_table_refines, fifo_refines); a handle lives for as
      many decrements as it has references (handle_lifetime). The system of a
      reader-writer lock refines a queue with sets of readers and writers, from which
      exclusion and fairness follow (rw_mutex_exclusive, rw_mutex_fair).
    - Languages. The parser of job descriptions accepts exactly the grammar, with the
      tree of the text (rsl_parse_correct), every value on its stack has the type of
      its symbol and is read as that type or, in two rules, as another pointer
      (parser_values_typed), and printing and parsing gives the description
      back (rsl_unparse_parse). Evaluation is substitution (rsl_eval_correct), lookup
      returns the strings of the attribute (rsl_param_get_correct).
    - Authorization. Whether a user may use an account is decided by the first line of
      the map file with their name (authorization_correct, dn_cmp_correct); no two
      holders lease an account, alone or concurrently where the code is right
      (leases_exclusive, concurrent_exclusive), and a lease names its holder
      (lease_traced).
    - Order. A priority queue returns its data in order of priority whatever is
      enqueued, removed or modified (pq_dequeue_correct and the lemmas beside it); the
      destructive merge sort of lists is a stable sort that loses no cell
      (list_sort_correct).
    - Sets of bytes. Inserting, removing and merging ranges covers the union or the
      difference where the code is right (insert_correct, marker_insert_correct and
      the lemmas beside them).
    - Memory. Pools never hand out overlapping nodes (memory_pop_correct); nothing
      leaks and nothing is accessed out of bounds under any pattern of allocation
      failures (url_parse_safe, unpack_message_safe); every sequence of operations on
      buffers that share blocks is safe, under two conditions on appends and resets
      that the code needs and does not check (sessions_safe, put_overflows).
    - Round trips: base64 (radix_roundtrip), protected commands (command_roundtrip),
      URLs (url_parse_print), messages and their fields (update_extensions_roundtrip,
      message_roundtrip), and a job request from the sender through any split of the
      bytes to the receiver (job_request_delivered).
    - Equivalence of an optimisation: looking for the end of a reply from where the
      last read ended finds the same end (end_of_reply_hint).
    - Defects: what the code does where it does not do what it means to
      (put_overflows, rsl_error_overflow, rsl_parse_ignores_rest,
      rw_cond_wait_unlocked, lease_race, parse_loose_hangs, rfc1738_overflow and the
      lemmas beside them).

    ** Not modelled

    - Windows branches of the sources (the WIN32 paths of globus_url.c).
    - Code that is mostly calls of the operating system, of OpenSSL or of the GSS-API:
      most of src/gsi, src/xio, the data channel and the event loop of GridFTP, the
      GRAM gatekeeper and job manager, GASS, MyProxy. What it computes is determined by
      these libraries.
    - The creation of threads and the dispatch of callbacks (globus_thread*.c other
      than the locks, globus_callback*.c).
    - The error objects that are built for messages (globus_error*.c,
      globus_object*.c); the models return which error it is.
    - The tables that flex generates for the scanner of job descriptions: the rules are
      modelled instead. Freeing of descriptions and their output to a terminal.
    - The parts of src/gsi_openssh that are OpenSSH itself, other than its buffers.
    - String processing of the other libraries that could be modelled as Url.v and
      RestartMarker.v are, and is not: the layouts of striped transfers
      (globus_ftp_control_layout.c), the command line (globus_args.c). *)
From stdpp Require Export base gmap list strings.
From Stdlib Require Export ZArith Lia.

Declare Scope gct_scope.
Delimit Scope gct_scope with gct.
Open Scope gct_scope.
Open Scope Z_scope.

(** ** Return codes shared by every component (globus_types.h) *)

Definition GLOBUS_TRUE : Z := 1.
Definition GLOBUS_FALSE : Z := 0.
Definition GLOBUS_SUCCESS : Z := 0.
Definition GLOBUS_FAILURE : Z := -1.

(** ** Outcomes of a C computation

    A computation either returns or leaves defined behaviour: it dereferences
    NULL or a dead node, fails an [assert], reads outside an array, overflows a
    signed integer, or runs out of the fuel of its loop. *)

Inductive fault : Set :=
| NullDeref
| AssertFail
| OutOfBounds
| SignedOverflow
| OutOfFuel.

Inductive result (A : Type) : Type :=
| Ok (a : A)
| Fault (f : fault).
Arguments Ok {A} a.
Arguments Fault {A} f.

#[export] Instance fault_eq_dec : EqDecision fault.
Proof. solve_decision. Defined.
#[export] Instance result_eq_dec `{EqDecision A} : EqDecision (result A).
Proof. solve_decision. Defined.

#[export] Instance result_ret : MRet result := fun _ a => Ok a.
#[export] Instance result_bind : MBind result := fun _ _ k m =>
  match m with Ok a => k a | Fault f => Fault f end.
#[export] Instance result_fmap : FMap result := fun _ _ g m =>
  match m with Ok a => Ok (g a) | Fault f => Fault f end.

(** [assert(b)] *)
Definition c_assert (b : bool) : result unit := if b then Ok tt else Fault AssertFail.

(** Reading through a pointer that may be NULL. *)
Definition deref {A} (p : option A) : result A :=
  match p with Some a => Ok a | None => Fault NullDeref end.

(** Reading slot [i] of an array. *)
Definition c_index {A} (l : list A) (i : Z) : result A :=
  if i <? 0 then Fault OutOfBounds
  else match l !! Z.to_nat i with Some a => Ok a | None => Fault OutOfBounds end.

(** Writing slot [i] of an array. *)
Definition c_update {A} (l : list A) (i : Z) (a : A) : result (list A) :=
  if (i <? 0) || (Z.of_nat (length l) <=? i) then Fault OutOfBounds
  else Ok (<[Z.to_nat i := a]> l).

(** ** Machine integers *)

Definition INT_MAX : Z := 2 ^ 31 - 1.
Definition INT_MIN : Z := - 2 ^ 31.
Definition INT64_MAX : Z := 2 ^ 63 - 1.
Definition INT64_MIN : Z := - 2 ^ 63.

(** The value of a conversion to a [w]-bit unsigned, resp. two's complement
    signed, integer. *)
Definition uwrap (w z : Z) : Z := z mod 2 ^ w.
Definition swrap (w z : Z) : Z := (z + 2 ^ (w - 1)) mod 2 ^ w - 2 ^ (w - 1).

(** Signed arithmetic whose result does not fit is a fault. *)
Definition s64 (z : Z) : result Z :=
  if (INT64_MIN <=? z) && (z <=? INT64_MAX) then Ok z else Fault SignedOverflow.
Definition s32 (z : Z) : result Z :=
  if (INT_MIN <=? z) && (z <=? INT_MAX) then Ok z else Fault SignedOverflow.

(** ** Computations on a shared state *)

Definition prog (S A : Type) : Type := S -> result (A * S).

#[export] Instance prog_ret {S} : MRet (prog S) := fun _ a s => Ok (a, s).
#[export] Instance prog_bind {S} : MBind (prog S) := fun _ _ k m s =>
  match m s with Ok (a, s') => k a s' | Fault f => Fault f end.

(** Reading and replacing the state, and running a computation without one. *)
Definition get {S} : prog S S := fun s => Ok (s, s).
Definition put {S} (s : S) : prog S unit := fun _ => Ok (tt, s).
Definition run {S A} (r : result A) : prog S A := fun s =>
  match r with Ok a => Ok (a, s) | Fault f => Fault f end.

(** ** The C heap, seen by a component that only allocates and frees

    [live] counts the blocks allocated and not freed. [plan] scripts the future
    outcomes of [malloc]: [false] is a call that returns NULL; past the end of
    the script every call succeeds. A theorem over every [plan] is a theorem
    over every pattern of allocation failures. *)

Record cmem := CMem { live : Z; plan : list bool }.

Definition cmd (A : Type) : Type := cmem -> result (A * cmem).

#[export] Instance cmd_ret : MRet cmd := fun _ a s => Ok (a, s).
#[export] Instance cmd_bind : MBind cmd := fun _ _ k m s =>
  match m s with Ok (a, s') => k a s' | Fault f => Fault f end.

Definition lift {A} (r : result A) : cmd A := fun s =>
  match r with Ok a => Ok (a, s) | Fault f => Fault f end.

(** [malloc] : true when the returned pointer is not NULL. *)
Definition malloc : cmd bool := fun s =>
  match plan s with
  | [] => Ok (true, CMem (live s + 1) [])
  | true :: p => Ok (true, CMem (live s + 1) p)
  | false :: p => Ok (false, CMem (live s) p)
  end.

Definition free : cmd unit := fun s => Ok (tt, CMem (live s - 1) (plan s)).

(** An allocation whose result is used without a test. *)
Definition must_malloc : cmd unit := ok ← malloc; if (ok : bool) then mret tt else lift (Fault NullDeref).

(** The next [malloc] succeeds; the heap after it, and after a [free]. *)
Definition malloc_ok (s : cmem) : Prop := hd true (plan s) = true.
Definition after_malloc (s : cmem) : cmem := CMem (live s + 1) (tl (plan s)).
Definition after_free (s : cmem) : cmem := CMem (live s - 1) (plan s).

(** ** Linked lists in a heap

    [chain nx p ls]: following the links [nx] from the pointer [p] visits the
    nodes [ls] and ends at NULL. *)

Abbreviation loc := positive (only parsing).
Abbreviation ptr := (option positive) (only parsing).

Fixpoint chain (nx : gmap loc ptr) (p : ptr) (ls : list loc) : Prop :=
  match ls with
  | [] => p = None
  | l :: ls => p = Some l /\ exists q, nx !! l = Some q /\ chain nx q ls
  end.

(** ** Pool interface

    What [globus_memory] (Memory.v) promises to the containers that draw their
    nodes from a pool: a popped node is not in use, and stays reserved until it
    is pushed back. [np_live] is the set of the nodes handed out. [np_pop]
    returns NULL from a pool that has been destroyed, and faults where the pool
    cannot grow. *)

Class NodePool (P : Type) := {
  np_pop : P -> result (option loc * P);
  np_push : loc -> P -> P;
  np_live : P -> gset loc;
  np_ok : P -> Prop;
}.

Class NodePoolLaws (P : Type) `{NodePool P} : Prop := {
  np_pop_some p l p' :
    np_ok p -> np_pop p = Ok (Some l, p') ->
    np_ok p' /\ (l ∉ np_live p) /\ np_live p' = ({[l]} ∪ np_live p);
  np_pop_none p p' :
    np_ok p -> np_pop p = Ok (None, p') -> np_ok p' /\ np_live p' = np_live p;
  np_push_ok p l :
    np_ok p -> l ∈ np_live p ->
    np_ok (np_push l p) /\ np_live (np_push l p) = (np_live p ∖ {[l]});
}.

(** ** Automation *)

Create HintDb gct discriminated.

(** Split every [if] on an integer comparison in the goal into its two cases
    and decide the impossible ones. *)
Ltac zbool :=
  repeat match goal with
  | H : context [?a <? ?b] |- _ => destruct (Z.ltb_spec a b)
  | H : context [?a <=? ?b] |- _ => destruct (Z.leb_spec a b)
  | H : context [?a =? ?b] |- _ => destruct (Z.eqb_spec a b)
  | |- context [?a <? ?b] => destruct (Z.ltb_spec a b)
  | |- context [?a <=? ?b] => destruct (Z.leb_spec a b)
  | |- context [?a =? ?b] => destruct (Z.eqb_spec a b)
  end.

(** Decide every integer comparison of the goal by [lia], without splitting. *)
Ltac zdecide :=
  repeat match goal with
  | |- context [?a <? ?b] =>
      first [ rewrite (proj2 (Z.ltb_lt a b)) by lia
            | rewrite (proj2 (Z.ltb_ge a b)) by lia ]
  | |- context [?a <=? ?b] =>
      first [ rewrite (proj2 (Z.leb_le a b)) by lia
            | rewrite (proj2 (Z.leb_gt a b)) by lia ]
  | |- context [?a =? ?b] =>
      first [ rewrite (proj2 (Z.eqb_eq a b)) by lia
            | rewrite (proj2 (Z.eqb_neq a b)) by lia ]
  end.

(** Split on the integer comparisons of the goal, dropping the cases that the
    hypotheses refute. *)
Ltac zcase :=
  repeat (match goal with
  | |- context [?a <? ?b] => destruct (Z.ltb_spec a b)
  | |- context [?a <=? ?b] => destruct (Z.leb_spec a b)
  | |- context [?a =? ?b] => destruct (Z.eqb_spec a b)
  end; try (exfalso; lia); cbn [andb orb negb]).

(** Invert a [bind] that returned. *)
Lemma result_bind_Ok {A B} (m : result A) (k : A -> result B) b :
  m ≫= k = Ok b <-> exists a, m = Ok a /\ k a = Ok b.
Proof. destruct m; cbn; naive_solver. Qed.

Lemma cmd_bind_Ok {A B} (m : cmd A) (k : A -> cmd B) s b s' :
  (m ≫= k) s = Ok (b, s') <-> exists a s1, m s = Ok (a, s1) /\ k a s1 = Ok (b, s').
Proof.
  unfold mbind, cmd_bind. destruct (m s) as [[a s1]|]; naive_solver.
Qed.

Lemma prog_bind_run {S A B} (m : prog S A) (k : A -> prog S B) s a s' :
  m s = Ok (a, s') -> (m ≫= k) s = k a s'.
Proof. unfold mbind, prog_bind. by intros ->. Qed.

Lemma prog_bind_Ok {S A B} (m : prog S A) (k : A -> prog S B) s b s' :
  (m ≫= k) s = Ok (b, s') <-> exists a s1, m s = Ok (a, s1) /\ k a s1 = Ok (b, s').
Proof. unfold mbind, prog_bind. destruct (m s) as [[a s1]|]; naive_solver. Qed.

(** Total correctness of a computation on a state: it does not fault, and what it
    returns satisfies [Q]. *)
Definition wp {S A} (m : prog S A) (s : S) (Q : A -> S -> Prop) : Prop :=
  match m s with Ok (a, s') => Q a s' | Fault _ => False end.

Lemma wp_ret {S A} (a : A) (s : S) (Q : A -> S -> Prop) : Q a s -> wp (mret a) s Q.
Proof. done. Qed.

Lemma wp_bind {S A B} (m : prog S A) (k : A -> prog S B) s Q : wp m s (fun a s' => wp (k a) s' Q) -> wp (m ≫= k) s Q.
Proof. unfold wp, mbind, prog_bind. by destruct (m s) as [[a s']|]. Qed.

Lemma wp_mono {S A} (m : prog S A) s (P Q : A -> S -> Prop) : wp m s P -> (forall a s', P a s' -> Q a s') -> wp m s Q.
Proof. unfold wp. destruct (m s) as [[a s']|]; auto. Qed.

Lemma wp_step {S A B} (m : prog S A) (k : A -> prog S B) s P Q :
  wp m s P -> (forall a s', P a s' -> wp (k a) s' Q) -> wp (m ≫= k) s Q.
Proof. intros Hm Hk. apply wp_bind. by eapply wp_mono. Qed.

Lemma wp_run {S A} (r : result A) (a : A) (s : S) (Q : A -> S -> Prop) : r = Ok a -> Q a s -> wp (run r) s Q.
Proof. by intros ->. Qed.

Lemma wp_get {S} (s : S) (Q : S -> S -> Prop) : Q s s -> wp get s Q.
Proof. done. Qed.

Lemma wp_put {S} (s s' : S) (Q : unit -> S -> Prop) : Q tt s' -> wp (put s') s Q.
Proof. done. Qed.

Lemma wp_Ok {S A} (m : prog S A) s Q : wp m s Q <-> exists a s', m s = Ok (a, s') /\ Q a s'.
Proof. unfold wp. destruct (m s) as [[a s']|]; naive_solver. Qed.

Lemma malloc_run s : malloc_ok s -> malloc s = Ok (true, after_malloc s).
Proof. unfold malloc_ok, malloc, after_malloc. destruct (plan s) as [|[] ?]; naive_solver. Qed.

Lemma malloc_fail s : ~ malloc_ok s -> malloc s = Ok (false, CMem (live s) (tl (plan s))).
Proof. unfold malloc_ok, malloc. destruct (plan s) as [|[] ?]; naive_solver. Qed.

(** *** Accounting for the heap

    [runs m Q]: from every heap, [m] returns; [Q] holds of its result and of the
    number of blocks it allocated and did not free. *)
Definition runs {A} (m : cmd A) (Q : A -> Z -> Prop) : Prop :=
  forall s, exists a s', m s = Ok (a, s') /\ Q a (live s' - live s).

Lemma runs_ret {A} (a : A) (Q : A -> Z -> Prop) : Q a 0 -> runs (mret a) Q.
Proof. intros HQ s. exists a, s. split; [done|]. by rewrite Z.sub_diag. Qed.

Lemma runs_bind {A B} (m : cmd A) (k : A -> cmd B) Q R :
  runs m Q -> (forall a d, Q a d -> runs (k a) (fun b d' => R b (d + d'))) -> runs (m ≫= k) R.
Proof.
  intros Hm Hk s. destruct (Hm s) as (a & s1 & H1 & HQ). destruct (Hk a _ HQ s1) as (b & s2 & H2 & HR).
  exists b, s2. split; [apply cmd_bind_Ok; eauto|]. by replace (live s2 - live s) with (live s1 - live s + (live s2 - live s1)) by lia.
Qed.

Lemma runs_mono {A} (m : cmd A) (Q R : A -> Z -> Prop) : runs m Q -> (forall a d, Q a d -> R a d) -> runs m R.
Proof. intros Hm HR s. destruct (Hm s) as (a & s' & ? & ?). eauto. Qed.

Lemma runs_malloc : runs malloc (fun ok d => d = if (ok : bool) then 1 else 0).
Proof. intros s. unfold malloc. destruct (plan s) as [|[] p]; eexists _, _; (split; [done|]); cbn; lia. Qed.

Lemma runs_free : runs free (fun _ d => d = -1).
Proof. intros s. eexists _, _. split; [done|]. cbn. lia. Qed.

Lemma runs_lift {A} (r : result A) (Q : A -> Z -> Prop) a : r = Ok a -> Q a 0 -> runs (lift r) Q.
Proof. intros -> HQ s. exists a, s. split; [done|]. by rewrite Z.sub_diag. Qed.

(** [gives m a d]: where no allocation fails, [m] returns [a] and [d] more
    blocks. *)
Definition ample (s : cmem) : Prop := Forall (fun b => b = true) (plan s).
Definition gives {A} (m : cmd A) (a : A) (d : Z) : Prop :=
  forall s, ample s -> exists s', m s = Ok (a, s') /\ ample s' /\ live s' = live s + d.

Lemma gives_ret {A} (a : A) : gives (mret a) a 0.
Proof. intros s Hs. exists s. split_and!; [done|done|lia]. Qed.

Lemma gives_bind {A B} (m : cmd A) (k : A -> cmd B) a b d d' e :
  gives m a d -> gives (k a) b d' -> e = d + d' -> gives (m ≫= k) b e.
Proof.
  intros Hm Hk -> s Hs. destruct (Hm s Hs) as (s1 & H1 & Hs1 & L1). destruct (Hk s1 Hs1) as (s2 & H2 & Hs2 & L2).
  exists s2. split_and!; [apply cmd_bind_Ok; eauto|done|lia].
Qed.

Lemma gives_malloc : gives malloc true 1.
Proof.
  intros [l [|b p]] Hs; [|apply Forall_cons in Hs as [-> Hs]]; eexists; (split; [reflexivity|]); by split.
Qed.

Lemma gives_free : gives free tt (-1).
Proof. intros s Hs. eexists. split_and!; [done|done|cbn; lia]. Qed.

Lemma gives_lift {A} (r : result A) a : r = Ok a -> gives (lift r) a 0.
Proof. intros -> s Hs. exists s. split_and!; [done|done|lia]. Qed.

Lemma gives_eq {A} (m : cmd A) a d e : gives m a d -> d = e -> gives m a e.
Proof. by intros ? <-. Qed.

(** One command, with the blocks that the others still have to give. *)
Lemma gives_step {A B} (m : cmd A) (k : A -> cmd B) a b d e :
  gives m a d -> gives (k a) b (e - d) -> gives (m ≫= k) b e.
Proof. intros Hm Hk. eapply (gives_bind _ _ _ _ d (e - d)); [done|done|lia]. Qed.

(** [ends m Q]: where no allocation fails, [m] returns; [Q] is as in [runs]. *)
Definition ends {A} (m : cmd A) (Q : A -> Z -> Prop) : Prop :=
  forall s, ample s -> exists a s', m s = Ok (a, s') /\ ample s' /\ Q a (live s' - live s).

Lemma gives_ends {A} (m : cmd A) a d (Q : A -> Z -> Prop) : gives m a d -> Q a d -> ends m Q.
Proof. intros Hm HQ s Hs. destruct (Hm s Hs) as (s' & ? & ? & L). exists a, s'. rewrite L. split_and!; [done..|]. by replace (live s + d - live s) with d by lia. Qed.

Lemma ends_bind {A B} (m : cmd A) (k : A -> cmd B) Q R :
  ends m Q -> (forall a d, Q a d -> ends (k a) (fun b d' => R b (d + d'))) -> ends (m ≫= k) R.
Proof.
  intros Hm Hk s Hs. destruct (Hm s Hs) as (a & s1 & H1 & Hs1 & HQ). destruct (Hk a _ HQ s1 Hs1) as (b & s2 & H2 & Hs2 & HR).
  exists b, s2. split_and!; [apply cmd_bind_Ok; eauto|done|]. by replace (live s2 - live s) with (live s1 - live s + (live s2 - live s1)) by lia.
Qed.

Lemma ends_step {A B} (m : cmd A) (k : A -> cmd B) a d R :
  gives m a d -> ends (k a) (fun b d' => R b (d + d')) -> ends (m ≫= k) R.
Proof. intros Hm Hk. eapply (ends_bind _ _ (fun a' d' => a' = a /\ d' = d)); [by eapply gives_ends|]. by intros ? ? [-> ->]. Qed.

(** Run the next command of a sequence. *)
Ltac gmalloc := eapply gives_step; [apply gives_malloc|cbv beta iota zeta; cbn [negb]; cbv iota].
Ltac gfree := eapply gives_step; [apply gives_free|cbv beta iota zeta].
Ltac gret := eapply gives_eq; [apply gives_ret|lia].

Lemma gives_must_malloc : gives must_malloc tt 1.
Proof. unfold must_malloc. gmalloc. gret. Qed.

#[export] Instance malloc_ok_dec s : Decision (malloc_ok s).
Proof. unfold malloc_ok. apply _. Defined.

Lemma s64_ok z : INT64_MIN <= z <= INT64_MAX -> s64 z = Ok z.
Proof. intros. unfold s64. zdecide. done. Qed.

Lemma s32_ok z : INT_MIN <= z <= INT_MAX -> s32 z = Ok z.
Proof. intros. unfold s32. zdecide. done. Qed.

Lemma swrap_small w z : 0 < w -> - 2 ^ (w - 1) <= z < 2 ^ (w - 1) -> swrap w z = z.
Proof.
  intros Hw Hz. unfold swrap.
  assert (2 ^ w = 2 * 2 ^ (w - 1)) by (rewrite <- Z.pow_succ_r by lia; f_equal; lia).
  rewrite Z.mod_small; lia.
Qed.

Lemma c_index_ok {A} (l : list A) i a :
  0 <= i -> l !! Z.to_nat i = Some a -> c_index l i = Ok a.
Proof. intros Hi Hl. unfold c_index. zdecide. by rewrite Hl. Qed.

Lemma c_index_inv {A} (l : list A) i a :
  c_index l i = Ok a -> 0 <= i < Z.of_nat (length l) /\ l !! Z.to_nat i = Some a.
Proof.
  unfold c_index. destruct (Z.ltb_spec i 0); [done|].
  destruct (l !! Z.to_nat i) eqn:E; [|done]. intros [= ->].
  apply lookup_lt_Some in E as ?. split; [lia|done].
Qed.

Lemma c_update_ok {A} (l : list A) i a :
  0 <= i < Z.of_nat (length l) -> c_update l i a = Ok (<[Z.to_nat i := a]> l).
Proof. intros. unfold c_update. zdecide. done. Qed.

#[export] Hint Resolve s64_ok s32_ok c_index_ok c_update_ok : gct.

Lemma snoc_cons {A} (pre : list A) x suf : pre ++ x :: suf = (pre ++ [x]) ++ suf.
Proof. by rewrite <- app_assoc. Qed.

(** Reading and writing the slot after a prefix. *)
Lemma c_index_app {A} (pre : list A) x suf j :
  j = Z.of_nat (length pre) -> c_index (pre ++ x :: suf) j = Ok x.
Proof. intros ->. apply c_index_ok; [lia|]. by rewrite Nat2Z.id, list_lookup_middle. Qed.

Lemma c_update_app {A} (pre : list A) x suf j y :
  j = Z.of_nat (length pre) -> c_update (pre ++ x :: suf) j y = Ok (pre ++ y :: suf).
Proof.
  intros ->. rewrite c_update_ok by (rewrite length_app; cbn; lia). f_equal.
  by rewrite Nat2Z.id, insert_app_r_alt, Nat.sub_diag.
Qed.

(** Bit operations as arithmetic. *)
Lemma lor_add hi lo k : 0 <= k -> 0 <= lo < 2 ^ k -> Z.lor (hi * 2 ^ k) lo = hi * 2 ^ k + lo.
Proof.
  intros Hk Hlo. rewrite <- Z.shiftl_mul_pow2 by done.
  rewrite <- (Z.add_lor_land (Z.shiftl hi k) lo). replace (Z.land (Z.shiftl hi k) lo) with 0; [lia|].
  apply Z.bits_inj'. intros n Hn. rewrite Z.bits_0, Z.land_spec.
  destruct (Z.lt_ge_cases n k) as [Hlt|Hge].
  - by rewrite Z.shiftl_spec_low.
  - destruct (Z.eq_dec lo 0) as [->|Hne]; [by rewrite Z.bits_0, andb_false_r|].
    rewrite (Z.bits_above_log2 lo n), andb_false_r; [done|lia|].
    apply Z.log2_lt_pow2; [lia|]. pose proof (Z.pow_le_mono_r 2 k n). lia.
Qed.

Lemma land_ones_mod z k : 0 <= k -> Z.land z (2 ^ k - 1) = z mod 2 ^ k.
Proof. intros Hk. by rewrite <- Z.land_ones, Z.ones_equiv, <- Z.sub_1_r. Qed.

(** ** Lists *)

(** Replacing an element, as a permutation. *)
Lemma insert_Permutation {A} (l : list A) i x y :
  l !! i = Some x -> y :: l ≡ₚ x :: <[i := y]> l.
Proof.
  revert i. induction l as [|z l IH]; intros [|i]; cbn; intros Hi; [done..|by simplify_eq; constructor|].
  etrans; [apply Permutation_swap|]. rewrite (IH i Hi). apply Permutation_swap.
Qed.

(** Exchanging two elements is a permutation. *)
Lemma swap_Permutation {A} (l : list A) i j x y :
  l !! i = Some x -> l !! j = Some y -> <[i := y]> (<[j := x]> l) ≡ₚ l.
Proof.
  intros Hi Hj. destruct (decide (i = j)) as [->|Hne].
  { rewrite list_insert_insert_eq. simplify_eq. by rewrite list_insert_id. }
  apply (Permutation_cons_inv (a := x)).
  rewrite <- (insert_Permutation (<[j := x]> l) i x y) by (by rewrite list_lookup_insert_ne).
  by rewrite <- (insert_Permutation l j y x).
Qed.

(** Filters that keep nothing, or everything. *)
Lemma filter_none {A} (P : A -> Prop) `{!forall x, Decision (P x)} (l : list A) :
  (forall x, x ∈ l -> ~ P x) -> filter P l = [].
Proof.
  induction l as [|x l IH]; intros Hl; [done|].
  rewrite filter_cons_False by (apply Hl; by left). apply IH. intros y Hy. apply Hl. by right.
Qed.

Lemma filter_all {A} (P : A -> Prop) `{!forall x, Decision (P x)} (l : list A) :
  (forall x, x ∈ l -> P x) -> filter P l = l.
Proof.
  induction l as [|x l IH]; intros Hl; [done|].
  rewrite filter_cons_True by (apply Hl; by left). f_equal. apply IH. intros y Hy. apply Hl. by right.
Qed.

Lemma chain_frame nx nx' p ls :
  chain nx p ls -> (forall l, l ∈ ls -> nx' !! l = nx !! l) -> chain nx' p ls.
Proof.
  revert p. induction ls as [|l ls IH]; intros p; cbn; [done|].
  intros (-> & q & Hl & Hc) Hnx. split; [done|]. exists q.
  rewrite Hnx by set_solver. split; [done|]. apply IH; set_solver.
Qed.

(** The list a chain visits is determined by its links. *)
Lemma chain_fun nx p ls ls' : chain nx p ls -> chain nx p ls' -> ls = ls'.
Proof.
  revert p ls'. induction ls as [|l ls IH]; intros p [|l' ls']; cbn; naive_solver.
Qed.
