(* ===== verification/Memory.v ===== *)
(** * Memory pools (common/source/library/globus_memory.c)

    A pool hands out nodes of one size. It carves them out of chunks of
    [node_count_per_malloc] nodes and threads the nodes that are not handed out
    on a list whose links are stored in the nodes themselves. The containers
    that draw from a pool are proved against the interface [NodePool] of
    Prelude.v, which the last section discharges.

    Addresses are positive numbers. [next] is the memory of the free nodes (the
    [globus_l_memory_header_t] at each address): a node that is handed out
    belongs to its user, so its header leaves [next]. The results of the coming
    calls to [malloc] for a chunk are the list [mallocs] (NULL past its end), of
    [realloc] for the table of chunks the list [reallocs] (true past its end);
    the theorems hold for any of them in which the chunks do not overlap. A table
    that is NULL is one without slots. The
    locks are left out: each operation holds the pool's lock throughout. *)
From S2P Require Import Prelude.
Local Open Scope Z_scope.

Module Memory.

Definition I_ALIGN_SIZE : Z := 8.
Definition DEFAULT_FREE_PTRS_SIZE : Z := 16.

Record memory := Mem {
  total_size : Z;
  node_size : Z;
  nodes_used : Z;
  node_count : Z;
  node_count_per_malloc : Z;
  destroyed : bool;
  first : ptr;
  free_ptrs : list ptr;
  free_ptrs_size : Z;
  free_ptrs_offset : Z;
  next : gmap loc ptr;
  mallocs : list ptr;
  reallocs : list bool;
}.

(** The loop of [create_list] that links the nodes of a chunk: [k] links are left
    and [buf] is the current node. *)
Fixpoint link_nodes (k : nat) (step : positive) (buf : loc) (nx : gmap loc ptr) : gmap loc ptr :=
  match k with
  | O => <[buf := None]> nx
  | S k => link_nodes k step (buf + step)%positive (<[buf := Some (buf + step)%positive]> nx)
  end.

(** [realloc] of the table keeps its slots and adds unset ones. *)
Definition globus_l_memory_create_list (m : memory) : result (bool * memory) :=
  _ ← s32 (node_size m * node_count_per_malloc m);
  let first' := hd None (mallocs m) in
  off ← s32 (free_ptrs_offset m + 1);
  '(table, sz, rs) ←
    (if off =? free_ptrs_size m then
       tmp_size ← s32 (free_ptrs_size m + DEFAULT_FREE_PTRS_SIZE);
       if hd true (reallocs m)
       then Ok (free_ptrs m ++ replicate (Z.to_nat DEFAULT_FREE_PTRS_SIZE) None, tmp_size, tl (reallocs m))
       else Ok ([], tmp_size, tl (reallocs m))
     else Ok (free_ptrs m, free_ptrs_size m, reallocs m));
  table' ← c_update table off first';
  let m' nx := Mem (total_size m) (node_size m) (nodes_used m) (node_count m)
                 (node_count_per_malloc m) (destroyed m) first' table' sz off nx
                 (tl (mallocs m)) rs in
  match first' with
  | None => Ok (false, m' (next m))
  | Some buf =>
      Ok (true, m' (link_nodes (Z.to_nat (node_count_per_malloc m - 1))
                      (Z.to_pos (node_size m)) buf (next m)))
  end.

(** [struct_ok] and [table_ok] are whether the two unchecked [malloc]s of
    [globus_memory_init] return memory. *)
Definition globus_memory_init (struct_ok table_ok : bool) (mallocs : list ptr)
    (reallocs : list bool) (node_size node_count : Z) : result (bool * memory) :=
  let pad := Z.rem (I_ALIGN_SIZE - Z.rem node_size I_ALIGN_SIZE) I_ALIGN_SIZE in
  if struct_ok then
    sz ← s32 (node_size + pad);
    total ← s32 (node_count * sz);
    globus_l_memory_create_list
      (Mem total sz 0 node_count node_count false None
         (if table_ok then replicate (Z.to_nat DEFAULT_FREE_PTRS_SIZE) None else [])
         DEFAULT_FREE_PTRS_SIZE (-1) ∅ mallocs reallocs)
  else Fault NullDeref.

(** Reading the header of [first] faults when the pool could not grow. *)
Definition globus_memory_pop_node (m : memory) : result (ptr * memory) :=
  if destroyed m then Ok (None, m)
  else
    m ← (match first m with
         | None =>
             n ← s32 (node_count m + node_count_per_malloc m);
             '(_, m') ← globus_l_memory_create_list
               (Mem (total_size m) (node_size m) (nodes_used m) n (node_count_per_malloc m)
                  (destroyed m) (first m) (free_ptrs m) (free_ptrs_size m) (free_ptrs_offset m)
                  (next m) (mallocs m) (reallocs m));
             Ok m'
         | Some _ => Ok m
         end);
    header ← deref (first m);
    nx ← deref (next m !! header);
    used ← s32 (nodes_used m + 1);
    Ok (Some header,
        Mem (total_size m) (node_size m) used (node_count m) (node_count_per_malloc m)
          (destroyed m) nx (free_ptrs m) (free_ptrs_size m) (free_ptrs_offset m)
          (delete header (next m)) (mallocs m) (reallocs m)).

Definition globus_memory_push_node (m : memory) (buf : loc) : bool * memory :=
  if destroyed m then (false, m)
  else
    (true,
     Mem (total_size m) (node_size m) (nodes_used m - 1) (node_count m)
       (node_count_per_malloc m) (destroyed m) (Some buf) (free_ptrs m) (free_ptrs_size m)
       (free_ptrs_offset m) (<[buf := first m]> (next m)) (mallocs m) (reallocs m)).

(** The loop of [destroy]: slots 0 to [free_ptrs_offset] are freed, in order. *)
Fixpoint free_chunks (k : nat) (table : list ptr) (ctr : Z) : result (list ptr) :=
  match k with
  | O => Ok []
  | S k => p ← c_index table ctr; ps ← free_chunks k table (ctr + 1); Ok (p :: ps)
  end.

(** The chunks passed to [free]. *)
Definition globus_memory_destroy (m : memory) : result (bool * list ptr) :=
  ps ← free_chunks (Z.to_nat (free_ptrs_offset m + 1)) (free_ptrs m) 0;
  Ok (true, ps).

(** ** The pool invariant *)

(** The addresses of the [n] nodes of the chunk at [b]. *)
Fixpoint nodes (step : positive) (b : loc) (n : nat) : list loc :=
  match n with
  | O => []
  | S n => b :: nodes step (b + step)%positive n
  end.

(** The chunks of the pool, and their nodes. *)
Definition chunks (m : memory) : list loc :=
  omap id (take (Z.to_nat (free_ptrs_offset m + 1)) (free_ptrs m)).

Definition step_of (m : memory) : positive := Z.to_pos (node_size m).
Definition per_chunk (m : memory) : nat := Z.to_nat (node_count_per_malloc m).

Definition all_nodes (m : memory) : gset loc :=
  list_to_set (chunks m ≫= fun b => nodes (step_of m) b (per_chunk m)).

(** The nodes handed out: those without a header. *)
Definition in_use (m : memory) : gset loc := all_nodes m ∖ dom (next m).

(** Two chunks that do not overlap. *)
Definition apart (m : memory) (b b' : loc) : Prop :=
  node_size m * node_count_per_malloc m <= Z.abs (Z.pos b - Z.pos b').

(** What [malloc] guarantees of the chunks: no two of the chunks allocated and
    of those to come overlap. *)
Definition disjoint_chunks (m : memory) : Prop :=
  forall i j b b', (chunks m ++ omap id (mallocs m)) !! i = Some b ->
    (chunks m ++ omap id (mallocs m)) !! j = Some b' -> i <> j -> apart m b b'.

Record mem_ok (m : memory) : Prop := {
  ok_node : 0 < node_size m /\ node_size m mod I_ALIGN_SIZE = 0;
  ok_destroyed : destroyed m = false;
  ok_count : 1 <= node_count_per_malloc m;
  ok_table : Z.of_nat (length (free_ptrs m)) = free_ptrs_size m;
  ok_offset : -1 <= free_ptrs_offset m < free_ptrs_size m;
  ok_chunks : disjoint_chunks m;
  ok_free : exists ls, chain (next m) (first m) ls /\ NoDup ls /\ dom (next m) = list_to_set ls;
  ok_dom : dom (next m) ⊆ all_nodes m;
  ok_used : nodes_used m = Z.of_nat (size (in_use m));
}.

(** ** Chunks and chains *)

Lemma elem_of_nodes step b n x :
  x ∈ nodes step b n <-> exists i, 0 <= i < Z.of_nat n /\ Z.pos x = Z.pos b + i * Z.pos step.
Proof.
  revert b. induction n as [|n IH]; intros b; cbn.
  { rewrite elem_of_nil. split; [done|]. intros (i & Hi & _). lia. }
  rewrite elem_of_cons, IH. split.
  - intros [->|(i & Hi & Hx)]; [exists 0; lia|]. exists (i + 1). lia.
  - intros (i & Hi & Hx). destruct (decide (i = 0)) as [->|]; [left; lia|].
    right. exists (i - 1). lia.
Qed.

Lemma nodes_NoDup step b n : NoDup (nodes step b n).
Proof.
  revert b. induction n as [|n IH]; intros b; cbn; constructor; [|done].
  rewrite elem_of_nodes. intros (i & Hi & Hx). lia.
Qed.

Lemma length_nodes step b n : length (nodes step b n) = n.
Proof. revert b. induction n as [|n IH]; intros b; cbn; [done|by rewrite IH]. Qed.

(** The loop links the nodes of the chunk in order of address. *)
Lemma link_nodes_spec k step b nx :
  chain (link_nodes k step b nx) (Some b) (nodes step b (S k)) /\
  dom (link_nodes k step b nx) = (dom nx ∪ list_to_set (nodes step b (S k))) /\
  forall x, x ∉ nodes step b (S k) -> link_nodes k step b nx !! x = nx !! x.
Proof.
  revert b nx. induction k as [|k IH]; intros b nx.
  - cbn. rewrite lookup_insert_eq. split_and!; [done|by eexists|set_solver|].
    intros x Hx. apply lookup_insert_ne. set_solver.
  - pose proof (nodes_NoDup step b (S (S k))) as [Hb _]%NoDup_cons.
    destruct (IH (b + step)%positive (<[b := Some (b + step)%positive]> nx)) as (Hc & Hd & Hf).
    cbn [link_nodes]. split_and!.
    + cbn [chain nodes]. split; [done|]. eexists. rewrite Hf, lookup_insert_eq by done. done.
    + rewrite Hd, dom_insert_L. cbn. set_solver.
    + intros x Hx. cbn in Hx. rewrite Hf, lookup_insert_ne by set_solver. done.
Qed.

Lemma nodes_apart m b b' x :
  0 < node_size m -> apart m b b' ->
  x ∈ nodes (step_of m) b (per_chunk m) -> x ∈ nodes (step_of m) b' (per_chunk m) -> False.
Proof.
  unfold apart, step_of, per_chunk. intros Hn Ha.
  rewrite !elem_of_nodes. intros (i & Hi & Hx) (j & Hj & Hx').
  rewrite Z2Pos.id in Hx, Hx' by done.
  assert (Z.pos b - Z.pos b' = (j - i) * node_size m) as E by lia.
  rewrite E, Z.abs_mul, (Z.abs_eq (node_size m)) in Ha by lia.
  assert (Z.abs (j - i) < node_count_per_malloc m) by lia. nia.
Qed.

Lemma omap_id_app {A} (l : list (option A)) x :
  omap id (l ++ [x]) = omap id l ++ match x with Some a => [a] | None => [] end.
Proof. induction l as [|[] l IH]; cbn; [by destruct x|by rewrite IH|done]. Qed.

(** ** The operations *)

(** Adding a chunk, or NULL, to the table. *)
Lemma chunks_add m table off p :
  take (Z.to_nat off) table = take (Z.to_nat off) (free_ptrs m) ->
  off = free_ptrs_offset m + 1 -> 0 <= off < Z.of_nat (length table) ->
  omap id (take (Z.to_nat (off + 1)) (<[Z.to_nat off := p]> table)) =
  chunks m ++ match p with Some b => [b] | None => [] end.
Proof.
  intros Ht -> Hoff. set (off := free_ptrs_offset m + 1) in *.
  replace (Z.to_nat (off + 1)) with (S (Z.to_nat off)) by lia.
  rewrite (take_S_r _ _ p) by (apply list_lookup_insert_eq; lia).
  by rewrite take_insert_ge, Ht, omap_id_app by lia.
Qed.

(** The fields [create_list] changes, when it returns. *)
Lemma create_list_inv m r m' :
  mem_ok m -> globus_l_memory_create_list m = Ok (r, m') ->
  exists table off rs, r = bool_decide (is_Some (hd None (mallocs m))) /\
    0 <= off < Z.of_nat (length table) /\
    off = free_ptrs_offset m + 1 /\
    omap id (take (Z.to_nat (off + 1)) table) =
      chunks m ++ match hd None (mallocs m) with Some b => [b] | None => [] end /\
    m' = Mem (total_size m) (node_size m) (nodes_used m) (node_count m)
           (node_count_per_malloc m) (destroyed m) (hd None (mallocs m)) table
           (Z.of_nat (length table)) off
           match hd None (mallocs m) with
           | None => next m
           | Some b => link_nodes (per_chunk m - 1) (step_of m) b (next m)
           end (tl (mallocs m)) rs.
Proof.
  intros Hok. unfold globus_l_memory_create_list. rewrite !result_bind_Ok.
  intros (_ & _ & Hrun). apply result_bind_Ok in Hrun as (off & Hoff & Hrun).
  apply result_bind_Ok in Hrun as ([[table sz] rs] & Htab & Hrun).
  apply result_bind_Ok in Hrun as (table' & Hup & Hrun).
  assert (off = free_ptrs_offset m + 1) as Eoff.
  { unfold s32 in Hoff. by destruct (_ && _); simplify_eq. }
  destruct Hok as [_ _ _ Hlen Hofs _ _ _ _].
  assert (0 <= off < Z.of_nat (length table) /\ table' = <[Z.to_nat off := hd None (mallocs m)]> table)
    as [Hr ->].
  { unfold c_update in Hup. destruct (_ || _) eqn:E; simplify_eq.
    apply orb_false_iff in E as [? ?]. split; [zbool; lia|done]. }
  assert (take (Z.to_nat off) table = take (Z.to_nat off) (free_ptrs m) /\
          sz = Z.of_nat (length table)) as [Ht ->].
  { destruct (Z.eqb_spec off (free_ptrs_size m)) as [E|E]; [|by simplify_eq].
    apply result_bind_Ok in Htab as (tmp & Htmp & Htab).
    unfold s32 in Htmp. destruct (_ && _); [|done]. destruct (hd true (reallocs m)); simplify_eq; [|cbn in Hr; lia].
    split; [apply take_app_le; lia|]. rewrite length_app.
    unfold DEFAULT_FREE_PTRS_SIZE. cbn [length]. lia. }
  exists (<[Z.to_nat off := hd None (mallocs m)]> table), off, rs.
  rewrite length_insert. split; [|split; [done|split; [done|split]]].
  - by destruct (hd None (mallocs m)); simplify_eq.
  - by apply chunks_add.
  - replace (per_chunk m - 1)%nat with (Z.to_nat (node_count_per_malloc m - 1))
      by (unfold per_chunk; lia).
    by destruct (hd None (mallocs m)); simplify_eq.
Qed.

Lemma all_nodes_add m m' :
  node_size m' = node_size m -> node_count_per_malloc m' = node_count_per_malloc m ->
  forall bs, chunks m' = chunks m ++ bs ->
  all_nodes m' = (all_nodes m ∪ list_to_set (bs ≫= fun b => nodes (step_of m) b (per_chunk m))).
Proof.
  intros Hn Hc bs Hbs. unfold all_nodes, step_of, per_chunk. rewrite Hbs, Hn, Hc.
  by rewrite bind_app, list_to_set_app_L.
Qed.

Lemma elem_of_all_nodes m x :
  x ∈ all_nodes m <-> exists b, b ∈ chunks m /\ x ∈ nodes (step_of m) b (per_chunk m).
Proof.
  unfold all_nodes. rewrite elem_of_list_to_set, list_elem_of_bind. naive_solver.
Qed.

(** A chunk to come overlaps none of the pool's. *)
Lemma fresh_chunk m b ms x :
  mem_ok m -> mallocs m = Some b :: ms -> x ∈ nodes (step_of m) b (per_chunk m) -> x ∉ all_nodes m.
Proof.
  intros [[Hn _] _ _ _ _ Hd _ _ _] Hms Hx (b' & Hb' & Hx')%elem_of_all_nodes.
  apply list_elem_of_lookup in Hb' as (i & Hi). apply lookup_lt_Some in Hi as Hlt.
  eapply (nodes_apart m b' b x); [done| |done|done].
  apply (Hd i (length (chunks m))); [by apply lookup_app_l_Some| |lia].
  rewrite Hms. cbn. by apply list_lookup_middle.
Qed.

(** Growing a pool that has no free node. *)
Lemma create_list_ok m r m' :
  mem_ok m -> first m = None -> globus_l_memory_create_list m = Ok (r, m') ->
  mem_ok m' /\ in_use m' = in_use m.
Proof.
  intros Hok Hfirst Hrun.
  apply create_list_inv in Hrun as (table & off & rs & _ & Hoff & Eoff & Hch & ->); [|done].
  pose proof Hok as [Hn Hdes Hcnt Hlen Hofs Hdis (ls & Hls & _ & Hdom) Hsub Hused].
  destruct ls as [|l ls]; [|destruct Hls as [Hls _]; congruence].
  assert (next m = ∅) as Hnext by by apply dom_empty_inv_L.
  destruct (mallocs m) as [|[b|] ms] eqn:Hms; cbn [hd tl] in *.
  1, 3: match goal with |- mem_ok ?m' /\ _ =>
      assert (all_nodes m' = all_nodes m) as Hall
        by (rewrite (all_nodes_add m m' eq_refl eq_refl [] Hch); cbn; set_solver) end;
    unfold in_use in *; cbn [next] in *; rewrite Hall; split; [|done];
    split; cbn; try done; try lia;
    [unfold disjoint_chunks, chunks, apart in *; cbn; rewrite Hch, app_nil_r; rewrite Hms in Hdis; exact Hdis
    |exists []; rewrite Hnext, dom_empty_L; split_and!; [done|constructor|done]
    |rewrite Hnext, dom_empty_L; apply empty_subseteq
    |by unfold in_use; cbn; rewrite Hall].
  match goal with |- mem_ok ?m' /\ _ =>
    pose proof (all_nodes_add m m' eq_refl eq_refl [b] Hch) as Hall; set (m1 := m') in * end.
  assert (S (per_chunk m - 1) = per_chunk m) as Hpc by (unfold per_chunk; lia).
  destruct (link_nodes_spec (per_chunk m - 1) (step_of m) b (next m)) as (Hc & Hd & _).
  rewrite Hpc in Hc, Hd. rewrite Hnext, dom_empty_L, union_empty_l_L in Hd.
  cbn in Hall. rewrite app_nil_r in Hall.
  assert (in_use m1 = in_use m) as Hin.
  { unfold in_use. rewrite Hall. cbn [next m1]. rewrite Hnext, Hd.
    pose proof (fresh_chunk m b ms) as Hf. set_solver. }
  split; [|done]. split; try done; cbn; try lia.
  - unfold disjoint_chunks, chunks, apart in *. unfold m1. cbn [free_ptrs free_ptrs_offset mallocs].
    rewrite Hch, <- app_assoc. rewrite Hms in Hdis. exact Hdis.
  - eexists. split; [exact Hc|]. split; [apply nodes_NoDup|]. by rewrite Hnext, Hd.
  - rewrite Hnext, Hd, Hall. set_solver.
  - by rewrite Hin.
Qed.

(** Handing out the first free node. *)
Lemma take_node_ok m h nx :
  mem_ok m -> first m = Some h -> next m !! h = Some nx ->
  let m' := Mem (total_size m) (node_size m) (nodes_used m + 1) (node_count m)
              (node_count_per_malloc m) (destroyed m) nx (free_ptrs m) (free_ptrs_size m)
              (free_ptrs_offset m) (delete h (next m)) (mallocs m) (reallocs m) in
  mem_ok m' /\ h ∉ in_use m /\ in_use m' = ({[h]} ∪ in_use m).
Proof.
  intros [Hn Hdes Hcnt Hlen Hofs Hdis (ls & Hls & Hnd & Hdom) Hsub Hused] Hfirst Hnx m'.
  destruct ls as [|l ls]; cbn in Hls; [congruence|].
  destruct Hls as (E & q & Hq & Hch). rewrite Hfirst in E. simplify_eq.
  apply NoDup_cons in Hnd as [Hl Hnd]. cbn in Hdom.
  assert (l ∉ in_use m) as Hni by (unfold in_use; set_solver).
  assert (in_use m' = ({[l]} ∪ in_use m)) as Hin.
  { unfold in_use, m'. cbn [next]. rewrite dom_delete_L. change (all_nodes _) with (all_nodes m).
    apply set_eq. intros x. destruct (decide (x = l)) as [->|]; set_solver. }
  split_and!; [|done|done]. split; cbn; try done.
  - exists ls. split_and!; [|done|rewrite dom_delete_L; set_solver].
    eapply chain_frame; [done|]. intros k Hk. apply lookup_delete_ne. set_solver.
  - rewrite dom_delete_L. change (all_nodes _) with (all_nodes m). set_solver.
  - change (Mem _ _ _ _ _ _ _ _ _ _ _ _ _) with m'. rewrite Hin, size_union, size_singleton by set_solver.
    lia.
Qed.

(** [node_count] only counts. *)
Definition with_count (m : memory) (n : Z) : memory :=
  Mem (total_size m) (node_size m) (nodes_used m) n (node_count_per_malloc m) (destroyed m)
    (first m) (free_ptrs m) (free_ptrs_size m) (free_ptrs_offset m) (next m) (mallocs m) (reallocs m).

Lemma mem_ok_count m n : mem_ok m -> mem_ok (with_count m n).
Proof. intros []. split; assumption. Qed.

(** When [pop_node] returns. *)
Lemma pop_node_inv m p m' :
  mem_ok m -> globus_memory_pop_node m = Ok (p, m') ->
  exists l, p = Some l /\ mem_ok m' /\ l ∉ in_use m /\ in_use m' = ({[l]} ∪ in_use m).
Proof.
  intros Hok. pose proof (ok_destroyed m Hok) as Hdes. unfold globus_memory_pop_node. rewrite Hdes.
  rewrite result_bind_Ok. intros (m1 & Hgrow & Hrun).
  assert (mem_ok m1 /\ in_use m1 = in_use m) as [Hok1 Hin].
  { destruct (first m) eqn:Hf; [by simplify_eq|].
    apply result_bind_Ok in Hgrow as (n & Hn & Hgrow).
    apply result_bind_Ok in Hgrow as ([r m2] & Hrun' & [= <-]).
    eapply create_list_ok in Hrun'; [exact Hrun'| |done].
    apply (mem_ok_count _ n) in Hok. unfold with_count in Hok. by rewrite Hdes, Hf in Hok. }
  apply result_bind_Ok in Hrun as (h & Hh & Hrun). apply result_bind_Ok in Hrun as (nx & Hnx & Hrun).
  apply result_bind_Ok in Hrun as (used & Hused & [= <- <-]).
  destruct (first m1) as [h'|] eqn:Hf; cbn in Hh; simplify_eq.
  destruct (next m1 !! h) as [nx'|] eqn:Hx; cbn in Hnx; simplify_eq.
  assert (used = nodes_used m1 + 1) as -> by (unfold s32 in Hused; by destruct (_ && _); simplify_eq).
  destruct (take_node_ok m1 h nx Hok1 Hf Hx) as (? & ? & E). rewrite Hin in *. eauto 6.
Qed.

(** All the nodes the pool has or will have. *)
Definition space (m : memory) : gset loc :=
  list_to_set ((chunks m ++ omap id (mallocs m)) ≫= fun b => nodes (step_of m) b (per_chunk m)).

Lemma in_use_space m : in_use m ⊆ space m.
Proof. unfold in_use, all_nodes, space. rewrite bind_app, list_to_set_app_L. set_solver. Qed.

Lemma create_list_space m r m' :
  mem_ok m -> globus_l_memory_create_list m = Ok (r, m') -> space m' = space m.
Proof.
  intros Hok Hrun. apply create_list_inv in Hrun as (table & off & rs & _ & _ & _ & Hch & ->); [|done].
  unfold space, chunks at 1, step_of, per_chunk. cbn [free_ptrs free_ptrs_offset mallocs node_size node_count_per_malloc].
  rewrite Hch, <- app_assoc. by destruct (mallocs m) as [|[b|] ms].
Qed.

Lemma pop_node_space m p m' :
  mem_ok m -> globus_memory_pop_node m = Ok (p, m') -> space m' = space m.
Proof.
  intros Hok. pose proof (ok_destroyed m Hok) as Hdes. unfold globus_memory_pop_node. rewrite Hdes.
  rewrite result_bind_Ok. intros (m1 & Hgrow & Hrun).
  assert (space m1 = space m) as <-.
  { destruct (first m) eqn:Hf; [by simplify_eq|].
    apply result_bind_Ok in Hgrow as (n & Hn & Hgrow).
    apply result_bind_Ok in Hgrow as ([r m2] & Hrun' & [= <-]).
    apply create_list_space in Hrun'; [done|].
    apply (mem_ok_count _ n) in Hok. unfold with_count in Hok. by rewrite Hdes, Hf in Hok. }
  apply result_bind_Ok in Hrun as (h & Hh & Hrun). apply result_bind_Ok in Hrun as (nx & Hnx & Hrun).
  by apply result_bind_Ok in Hrun as (used & Hused & [= <- <-]).
Qed.

Lemma push_node_ok m l :
  mem_ok m -> l ∈ in_use m ->
  exists m', globus_memory_push_node m l = (true, m') /\ mem_ok m' /\ in_use m' = (in_use m ∖ {[l]}).
Proof.
  intros [Hn Hdes Hcnt Hlen Hofs Hdis (ls & Hls & Hnd & Hdom) Hsub Hused] Hl.
  unfold globus_memory_push_node. rewrite Hdes. eexists. split; [reflexivity|].
  match goal with |- mem_ok ?m' /\ _ => set (m1 := m') end.
  assert (l ∈ all_nodes m /\ l ∉ dom (next m)) as [Hall Hfree] by (unfold in_use in Hl; set_solver).
  assert (in_use m1 = (in_use m ∖ {[l]})) as Hin.
  { unfold in_use, m1. cbn [next]. rewrite dom_insert_L. change (all_nodes _) with (all_nodes m) at 1.
    set_solver. }
  split; [|done]. split; try done.
  - exists (l :: ls). split_and!.
    + split; [done|]. exists (first m). cbn. rewrite lookup_insert_eq. split; [done|].
      eapply chain_frame; [done|]. intros k Hk. apply lookup_insert_ne. set_solver.
    + constructor; [set_solver|done].
    + cbn. rewrite dom_insert_L. set_solver.
  - cbn. rewrite dom_insert_L. change (all_nodes m1) with (all_nodes m). set_solver.
  - rewrite Hin, size_difference, size_singleton by set_solver. cbn.
    assert (size (in_use m) <> 0%nat) by (intros ?%size_empty_inv; set_solver). lia.
Qed.

(** The pool can hand out a node: there is a free one, or [malloc] and [realloc]
    give the memory for more and the counters do not overflow. *)
Definition has_room (m : memory) : Prop :=
  nodes_used m < INT_MAX /\
  (is_Some (first m) \/
   is_Some (hd None (mallocs m)) /\
   (free_ptrs_offset m + 1 = free_ptrs_size m -> hd true (reallocs m) = true) /\
   node_count m <= INT_MAX - node_count_per_malloc m /\
   INT_MIN <= node_count m /\
   node_size m * node_count_per_malloc m <= INT_MAX /\
   free_ptrs_size m + DEFAULT_FREE_PTRS_SIZE <= INT_MAX).

Lemma create_list_runs m :
  mem_ok m -> is_Some (hd None (mallocs m)) ->
  (free_ptrs_offset m + 1 = free_ptrs_size m -> hd true (reallocs m) = true) ->
  node_size m * node_count_per_malloc m <= INT_MAX ->
  free_ptrs_size m + DEFAULT_FREE_PTRS_SIZE <= INT_MAX ->
  exists m', globus_l_memory_create_list m = Ok (true, m').
Proof.
  intros [[Hn _] _ Hcnt Hlen Hofs _ _ _ _] [b Hb] Hr Hsz Htab.
  unfold globus_l_memory_create_list, mbind, result_bind, DEFAULT_FREE_PTRS_SIZE in *.
  assert (INT_MIN < 0) by done.
  rewrite (s32_ok (node_size m * _)), (s32_ok (free_ptrs_offset m + 1)), Hb by nia.
  destruct (Z.eqb_spec (free_ptrs_offset m + 1) (free_ptrs_size m)) as [E|E].
  - rewrite s32_ok, Hr by (done || lia).
    rewrite c_update_ok by (rewrite length_app, length_replicate; lia). by eexists.
  - rewrite c_update_ok by lia. by eexists.
Qed.

Lemma create_list_first m m' :
  globus_l_memory_create_list m = Ok (true, m') -> is_Some (first m') /\ nodes_used m' = nodes_used m /\ node_size m' = node_size m.
Proof.
  unfold globus_l_memory_create_list. rewrite !result_bind_Ok.
  intros (_ & _ & Hrun). repeat (apply result_bind_Ok in Hrun as (? & ? & Hrun)).
  destruct x0 as [[??]?]. apply result_bind_Ok in Hrun as (? & ? & Hrun).
  destruct (hd None (mallocs m)); simplify_eq. split; [by eexists|done].
Qed.

(** The node size is the requested one rounded up to the alignment. *)
Lemma pad_spec n :
  0 <= n -> let sz := n + Z.rem (I_ALIGN_SIZE - Z.rem n I_ALIGN_SIZE) I_ALIGN_SIZE in
  n <= sz < n + I_ALIGN_SIZE /\ sz mod I_ALIGN_SIZE = 0.
Proof.
  intros Hn. cbn zeta. unfold I_ALIGN_SIZE. pose proof (Z.rem_bound_pos n 8 Hn ltac:(lia)).
  rewrite !Z.rem_mod_nonneg by lia.
  pose proof (Z.mod_pos_bound n 8 ltac:(lia)). pose proof (Z.mod_pos_bound (8 - n mod 8) 8 ltac:(lia)).
  split; [lia|]. rewrite Zplus_mod_idemp_r. replace (n + (8 - n mod 8)) with (n - n mod 8 + 1 * 8) by lia.
  rewrite Z_mod_plus_full, Zminus_mod_idemp_r, Z.sub_diag. done.
Qed.

(** Two nodes of the pool do not overlap. *)
Lemma all_nodes_spaced m x y :
  mem_ok m -> x ∈ all_nodes m -> y ∈ all_nodes m -> x <> y ->
  node_size m <= Z.abs (Z.pos x - Z.pos y).
Proof.
  intros [[Hn _] _ _ _ _ Hd _ _ _] (b & Hb & Hx)%elem_of_all_nodes (b' & Hb' & Hy)%elem_of_all_nodes Hne.
  apply elem_of_nodes in Hx as (i & Hi & Hx), Hy as (j & Hj & Hy).
  unfold step_of, per_chunk in *. rewrite Z2Pos.id in Hx, Hy by done.
  apply list_elem_of_lookup in Hb as (k & Hk), Hb' as (k' & Hk').
  destruct (decide (k = k')) as [->|Hkk].
  - simplify_eq. replace (Z.pos x - Z.pos y) with ((i - j) * node_size m) by lia.
    rewrite Z.abs_mul, (Z.abs_eq (node_size m)) by lia.
    assert (i <> j) by (intros ->; apply Hne; lia). nia.
  - assert (apart m b b') as Ha.
    { eapply (Hd k k'); [by apply lookup_app_l_Some..|done]. }
    unfold apart in Ha.
    assert (Z.abs ((i - j) * node_size m) <= (node_count_per_malloc m - 1) * node_size m).
    { rewrite Z.abs_mul, (Z.abs_eq (node_size m)) by lia. nia. }
    lia.
Qed.

(** The tail of [pop_node], on a pool with a free node. *)
Lemma take_runs m h :
  mem_ok m -> first m = Some h -> nodes_used m < INT_MAX ->
  exists nx, next m !! h = Some nx /\ s32 (nodes_used m + 1) = Ok (nodes_used m + 1).
Proof.
  intros [_ _ _ _ _ _ (ls & Hls & _) _ Hused] Hf Hlt. destruct ls as [|l ls]; cbn in Hls; [congruence|].
  destruct Hls as (E & q & Hq & _). rewrite Hf in E. simplify_eq. exists q. split; [done|].
  apply s32_ok. unfold INT_MIN, INT_MAX in *. lia.
Qed.

(** C31: on a well-formed pool that has a free node, or that [malloc] lets grow,
    [globus_memory_pop_node] returns a node that is not handed out, does not
    overlap any node handed out, and stays reserved: the pool is well formed with
    exactly this node added to those in use, and [nodes_used] counts them. *)
Theorem memory_pop_correct m :
  mem_ok m -> has_room m ->
  exists l m', globus_memory_pop_node m = Ok (Some l, m') /\ mem_ok m' /\
    in_use m' = ({[l]} ∪ in_use m) /\ nodes_used m' = Z.of_nat (size (in_use m')) /\
    forall x, x ∈ in_use m -> node_size m <= Z.abs (Z.pos l - Z.pos x).
Proof.
  intros Hok [Hused Hroom].
  assert (exists l m', globus_memory_pop_node m = Ok (Some l, m') /\ node_size m' = node_size m)
    as (l & m' & Hrun & Hsz).
  { unfold globus_memory_pop_node. rewrite (ok_destroyed m Hok).
    destruct (first m) as [h|] eqn:Hf.
    - destruct (take_runs m h Hok Hf Hused) as (nx & Hnx & Hu).
      unfold mbind, result_bind. rewrite Hf. cbn [deref]. rewrite Hnx, Hu. cbn. by eexists _, _.
    - destruct Hroom as [[? ?]|(Hm & Hr & Hc & Hc' & Hsz & Htab)]; [done|].
      assert (mem_ok (with_count m (node_count m + node_count_per_malloc m))) as Hok0 by by apply mem_ok_count.
      destruct (create_list_runs _ Hok0 Hm Hr Hsz Htab) as (m1 & Hrun).
      destruct (create_list_ok _ _ _ Hok0 Hf Hrun) as [Hok1 _].
      destruct (create_list_first _ _ Hrun) as ([h Hh] & Hu1 & Hns).
      destruct (take_runs m1 h Hok1 Hh) as (nx & Hnx & Hu); [by rewrite Hu1|].
      pose proof (ok_count m Hok). unfold mbind, result_bind. rewrite s32_ok by lia.
      unfold with_count in Hrun. rewrite (ok_destroyed m Hok), Hf in Hrun. rewrite Hrun, Hh.
      cbn [deref]. rewrite Hnx, Hu. by eexists _, _. }
  destruct (pop_node_inv _ _ _ Hok Hrun) as (l' & [= <-] & Hok' & Hfresh & Hin).
  exists l, m'. split_and!; [done..|by apply ok_used|].
  intros x Hx. rewrite <- Hsz. apply all_nodes_spaced; [done| | |set_solver].
  1,2: assert (in_use m' ⊆ all_nodes m') by (unfold in_use; set_solver); set_solver.
Qed.

Lemma init_spec ms rs sz n :
  0 < sz -> 1 <= n -> n * (sz + I_ALIGN_SIZE) <= INT_MAX -> is_Some (hd None ms) ->
  (forall i j b b', omap id ms !! i = Some b -> omap id ms !! j = Some b' -> i <> j ->
     n * (sz + I_ALIGN_SIZE) <= Z.abs (Z.pos b - Z.pos b')) ->
  exists m, globus_memory_init true true ms rs sz n = Ok (true, m) /\ mem_ok m /\
    in_use m = ∅ /\ sz <= node_size m /\ is_Some (first m) /\
    size (all_nodes m) = Z.to_nat n.
Proof.
  intros Hsz Hn Hmax Hb Hdis. pose proof (pad_spec sz ltac:(lia)) as [Hpad Hal]. cbn zeta in *.
  unfold globus_memory_init. cbv zeta. set (ns := sz + Z.rem _ _) in *.
  assert (n * ns <= INT_MAX) as Hfit by (unfold INT_MAX, I_ALIGN_SIZE in *; nia).
  unfold mbind, result_bind. rewrite (s32_ok ns), (s32_ok (n * ns)) by (unfold INT_MIN, INT_MAX in *; nia).
  match goal with |- context [globus_l_memory_create_list ?m] => set (m0 := m) end.
  assert (in_use m0 = ∅) as Hin0 by (apply set_eq; intros x; unfold in_use, all_nodes; set_solver).
  assert (mem_ok m0) as Hok0.
  { split; try done; cbn; try lia.
    - intros i j b b' Hi Hj Hij. unfold apart. cbn. specialize (Hdis i j b b' Hi Hj Hij). nia.
    - exists []. rewrite dom_empty_L. split_and!; [done|constructor|done]. }
  destruct (create_list_runs m0 Hok0 Hb) as (m & Hrun); [done|cbn; lia|done|].
  exists m. split; [done|]. destruct (create_list_ok _ _ _ Hok0 eq_refl Hrun) as [Hok Hin].
  destruct (create_list_first _ _ Hrun) as (Hf & _ & Hns). rewrite Hin, Hin0, Hns.
  split_and!; [done|done|cbn; lia|done|].
  apply create_list_inv in Hrun as (table & off & rs' & _ & _ & _ & Hch & ->); [|done].
  destruct (hd None ms) as [b|] eqn:Hms; [|by destruct Hb]. cbn in Hch. rewrite Hms in Hch.
  unfold all_nodes, chunks, step_of, per_chunk. cbn [free_ptrs free_ptrs_offset]. rewrite Hch.
  change (chunks m0) with (@nil loc). rewrite app_nil_l. unfold mbind, list_bind.
  rewrite app_nil_r, size_list_to_set by apply nodes_NoDup. apply length_nodes.
Qed.

(** [globus_memory_init] with non-overlapping chunks to come returns a
    well-formed pool with no node in use, whose nodes are at least as large as
    requested. *)
Theorem memory_init_correct ms rs sz n :
  0 < sz -> 1 <= n -> n * (sz + I_ALIGN_SIZE) <= INT_MAX -> is_Some (hd None ms) ->
  (forall i j b b', omap id ms !! i = Some b -> omap id ms !! j = Some b' -> i <> j ->
     n * (sz + I_ALIGN_SIZE) <= Z.abs (Z.pos b - Z.pos b')) ->
  exists m, globus_memory_init true true ms rs sz n = Ok (true, m) /\ mem_ok m /\
    in_use m = ∅ /\ sz <= node_size m /\ is_Some (first m) /\
    size (all_nodes m) = Z.to_nat n.
Proof. exact (init_spec ms rs sz n). Qed.

Lemma free_chunks_spec k table ctr :
  0 <= ctr -> (Z.to_nat ctr + k <= length table)%nat ->
  free_chunks k table ctr = Ok (take k (drop (Z.to_nat ctr) table)).
Proof.
  revert ctr. induction k as [|k IH]; intros ctr Hc Hk; cbn; [done|].
  destruct (lookup_lt_is_Some_2 table (Z.to_nat ctr)) as [p Hp]; [lia|].
  unfold mbind, result_bind. rewrite (c_index_ok _ _ p), IH by (done || lia).
  rewrite (drop_S _ _ _ Hp). cbn. by replace (Z.to_nat (ctr + 1)) with (S (Z.to_nat ctr)) by lia.
Qed.

(** [globus_memory_destroy] frees every chunk of a well-formed pool exactly
    once, whatever nodes are still handed out; the other pointers it passes to
    [free] are NULL. *)
Theorem memory_destroy_correct m :
  mem_ok m ->
  exists ps, globus_memory_destroy m = Ok (true, ps) /\ omap id ps = chunks m /\ NoDup (chunks m).
Proof.
  intros [[Hn _] _ Hcnt Hlen Hofs Hdis _ _ _]. eexists. unfold globus_memory_destroy.
  rewrite free_chunks_spec by lia. split_and!; [done|done|].
  apply NoDup_alt. intros i j b Hi Hj. destruct (decide (i = j)) as [|Hij]; [done|exfalso].
  assert (apart m b b) as Ha by (eapply (Hdis i j); [by apply lookup_app_l_Some..|done]).
  unfold apart in Ha. nia.
Qed.

(** When the pool has no free node and [malloc] returns NULL for a new chunk,
    [globus_memory_pop_node] dereferences the NULL [first] instead of returning
    NULL. *)
Theorem memory_pop_exhausted m :
  mem_ok m -> first m = None -> hd None (mallocs m) = None ->
  forall r, globus_memory_pop_node m <> Ok r.
Proof.
  intros Hok Hf Hm [p m'] Hrun. unfold globus_memory_pop_node in Hrun.
  rewrite (ok_destroyed m Hok), Hf in Hrun. apply result_bind_Ok in Hrun as (m1 & Hgrow & Hrun).
  apply result_bind_Ok in Hgrow as (n & Hn & Hgrow).
  apply result_bind_Ok in Hgrow as ([r m2] & Hcl & [= <-]).
  assert (mem_ok (with_count m n)) as Hok0 by by apply mem_ok_count.
  unfold with_count in Hok0. rewrite (ok_destroyed m Hok), Hf in Hok0.
  apply create_list_inv in Hcl as (table & off & rs & _ & _ & _ & _ & ->); [|done].
  cbn in Hrun. rewrite Hm in Hrun. done.
Qed.

(** ** The pool implements the interface of its clients *)

#[export] Instance memory_pool : NodePool memory := {
  np_pop := globus_memory_pop_node;
  np_push l m := snd (globus_memory_push_node m l);
  np_live := in_use;
  np_ok := mem_ok;
}.

#[export] Instance memory_pool_laws : NodePoolLaws memory.
Proof.
  split; cbn.
  - intros m l m' Hok Hrun. destruct (pop_node_inv _ _ _ Hok Hrun) as (k & [= <-] & ?). done.
  - intros m m' Hok Hrun. by destruct (pop_node_inv _ _ _ Hok Hrun) as (k & [=] & _).
  - intros m l Hok Hl. destruct (push_node_ok m l Hok Hl) as (m' & -> & ?). done.
Qed.

(** ** A concrete pool: chunks of two 24-byte nodes at 1000 and 2000 *)

Definition example_mallocs : list ptr := [Some 1000%positive; Some 2000%positive].

Definition example_pool : memory :=
  match globus_memory_init true true example_mallocs [] 20 2 with
  | Ok (_, m) => m
  | Fault _ => Mem 0 0 0 0 0 true None [] 0 0 ∅ [] []
  end.

Lemma example_apart i j b b' :
  omap id example_mallocs !! i = Some b -> omap id example_mallocs !! j = Some b' -> i <> j ->
  2 * (20 + I_ALIGN_SIZE) <= Z.abs (Z.pos b - Z.pos b').
Proof.
  cbn. destruct i as [|[|[]]], j as [|[|[]]]; cbn; intros; simplify_eq; unfold I_ALIGN_SIZE; lia.
Qed.

Lemma example_pool_ok : mem_ok example_pool.
Proof.
  split; try (by vm_compute); try (unfold example_pool; vm_compute; lia).
  - intros i j b b' Hi Hj Hij. unfold apart.
    assert (node_size example_pool * node_count_per_malloc example_pool = 48) as -> by done.
    pose proof (example_apart i j b b' Hi Hj Hij). unfold I_ALIGN_SIZE in *. lia.
  - exists [1000%positive; 1024%positive]. split_and!; [|repeat constructor; set_solver|by vm_compute].
    cbn. eauto 8.
Qed.

Lemma memory_init_correct_witness :
  exists m, globus_memory_init true true example_mallocs [] 20 2 = Ok (true, m) /\ mem_ok m /\
    in_use m = ∅ /\ 20 <= node_size m /\ is_Some (first m) /\ size (all_nodes m) = Z.to_nat 2.
Proof.
  apply memory_init_correct; [lia|lia|by vm_compute|by eexists|exact example_apart].
Defined.

Lemma memory_pop_correct_witness :
  exists l m', globus_memory_pop_node example_pool = Ok (Some l, m') /\ mem_ok m' /\
    in_use m' = ({[l]} ∪ in_use example_pool) /\ nodes_used m' = Z.of_nat (size (in_use m')) /\
    forall x, x ∈ in_use example_pool -> node_size example_pool <= Z.abs (Z.pos l - Z.pos x).
Proof.
  apply memory_pop_correct; [exact example_pool_ok|]. split; [by vm_compute|]. left. by eexists.
Defined.

Lemma memory_destroy_correct_witness :
  exists ps, globus_memory_destroy example_pool = Ok (true, ps) /\
    omap id ps = chunks example_pool /\ NoDup (chunks example_pool).
Proof. apply memory_destroy_correct, example_pool_ok. Defined.

(** One chunk of one node, which is handed out. *)
Definition example_empty : memory :=
  Mem 24 24 1 1 1 false None (<[0%nat := Some 1000%positive]> (replicate 16 None)) 16 0 ∅ [] [].

Lemma memory_pop_exhausted_witness :
  (exists m l, globus_memory_init true true [Some 1000%positive] [] 20 1 = Ok (true, m) /\
     globus_memory_pop_node m = Ok (Some l, example_empty)) /\
  forall r, globus_memory_pop_node example_empty <> Ok r.
Proof.
  split; [by eexists _, _; split|].
  apply memory_pop_exhausted; [|done|done].
  split; try (by vm_compute); try (vm_compute; lia).
  - intros [|[]] [|[]] b b' Hi Hj Hij; cbn in *; done.
  - exists []. split_and!; [done|constructor|by vm_compute].
Defined.
End Memory.
