(* ===== verification/RangeList.v ===== *)
(** * Range lists (common/source/library/globus_range_list.c)

    A range list is a size counter and a linked list of [(offset, length)]
    entries kept in increasing order; a length of [GLOBUS_RANGE_LIST_MAX] is an
    open-ended range. GridFTP clients and servers describe restart markers and
    partial transfers with it. The list cells are private to the component, so
    the chain is a Rocq list; every [malloc] and [free] of the code is a step of
    the [cmd] monad, and 64-bit offset arithmetic faults when it overflows. The
    [int] counter of the entries is not bounded: a list has fewer than 2^31. *)
From S2P Require Import Prelude.
Local Open Scope Z_scope.

Module RangeList.

Definition GLOBUS_RANGE_LIST_MAX : Z := -1.
Definition GLOBUS_RANGE_LIST_ERROR_PARAMETER : Z := -1.
Definition GLOBUS_RANGE_LIST_ERROR_MEMORY : Z := -2.

Record range_ent := Ent { re_offset : Z; re_length : Z }.
Record range_list := RL { rl_size : Z; rl_head : list range_ent }.

(** ** Construction, destruction, copy *)

Definition globus_range_list_init : cmd (Z * option range_list) :=
  ok ← malloc;
  if (ok : bool) then mret (GLOBUS_SUCCESS, Some (RL 0 []))
  else mret (GLOBUS_RANGE_LIST_ERROR_MEMORY, None).

Fixpoint free_ents (ents : list range_ent) : cmd unit :=
  match ents with
  | [] => mret tt
  | _ :: rest => _ ← free; free_ents rest
  end.

Definition globus_range_list_destroy (rl : option range_list) : cmd unit :=
  match rl with
  | None => mret tt
  | Some rl => _ ← free_ents (rl_head rl); free
  end.

(** The copy loop: [dst] is what has been copied so far; the flag is false when
    an allocation failed. *)
Fixpoint copy_loop (src dst : list range_ent) : cmd (bool * list range_ent) :=
  match src with
  | [] => mret (true, dst)
  | src_ent :: rest =>
      ok ← malloc;
      if (ok : bool)
      then copy_loop rest (dst ++ [Ent (re_offset src_ent) (re_length src_ent)])
      else mret (false, dst)
  end.

Definition globus_range_list_copy (src : option range_list) :
    cmd (Z * option range_list) :=
  match src with
  | None => mret (-1, None)
  | Some src =>
      '(rc, tmp_dst) ← globus_range_list_init;
      match tmp_dst with
      | None => mret (-1, None)
      | Some tmp_dst =>
          '(ok, ents) ← copy_loop (rl_head src) [];
          if (ok : bool)
          then mret (GLOBUS_SUCCESS, Some (RL (rl_size src) ents))
          else _ ← globus_range_list_destroy (Some (RL 0 ents)); mret (-1, None)
      end
  end.

(** ** Insertion *)

(** The end offset of a range, open-ended ranges included. *)
Definition range_end (offset len : Z) : result Z :=
  if len =? GLOBUS_RANGE_LIST_MAX then Ok GLOBUS_RANGE_LIST_MAX else s64 (offset + len).

Definition new_range_ent (offset len : Z) : cmd range_ent :=
  ok ← malloc;
  if (ok : bool) then mret (Ent offset len) else lift (Fault AssertFail).

(** The first half of the merging branch: extend [ent] to [offset] on the left
    and to [end_offset] on the right. *)
Definition extend_ent (offset end_offset ent_end : Z) (ent : range_ent) :
    result range_ent :=
  ent1 ← (if offset <? re_offset ent then
            len ← (if negb (re_length ent =? GLOBUS_RANGE_LIST_MAX)
                   then d ← s64 (re_offset ent - offset); s64 (re_length ent + d)
                   else Ok (re_length ent));
            Ok (Ent offset len)
          else Ok ent);
  if (end_offset =? GLOBUS_RANGE_LIST_MAX) || (ent_end =? GLOBUS_RANGE_LIST_MAX)
  then Ok (Ent (re_offset ent1) GLOBUS_RANGE_LIST_MAX)
  else if ent_end <? end_offset
  then len ← s64 (end_offset - re_offset ent1); Ok (Ent (re_offset ent1) len)
  else Ok ent1.

(** The second half: when the range reaches the next entry, absorb that entry. *)
Definition absorb_next (end_offset : Z) (ent : range_ent) (rest : list range_ent) :
    cmd (list range_ent * Z) :=
  match rest with
  | next :: rest' =>
      if re_offset next <=? end_offset then
        len ← (if re_length next =? GLOBUS_RANGE_LIST_MAX
               then mret GLOBUS_RANGE_LIST_MAX
               else e ← lift (s64 (re_offset next + re_length next));
                    lift (s64 (e - re_offset ent)));
        _ ← free;
        mret (Ent (re_offset ent) len :: rest', -1)
      else mret (ent :: rest, 0)
  | [] => mret (ent :: rest, 0)
  end.

(** The while loop: the new chain and the change to [size]. [has_prev] is
    [prev != NULL]. *)
Fixpoint insert_loop (offset len end_offset : Z) (has_prev : bool)
    (ents : list range_ent) : cmd (list range_ent * Z) :=
  match ents with
  | [] =>
      new_ent ← new_range_ent offset len;
      _ ← lift (c_assert has_prev);
      mret ([new_ent], 1)
  | ent :: rest =>
      ent_end ← lift (range_end (re_offset ent) (re_length ent));
      if (end_offset <? re_offset ent) && negb (end_offset =? GLOBUS_RANGE_LIST_MAX)
      then
        new_ent ← new_range_ent offset len;
        mret (new_ent :: ent :: rest, 1)
      else if ((re_offset ent <=? end_offset) || (end_offset =? GLOBUS_RANGE_LIST_MAX))
           && ((offset <=? ent_end) || (ent_end =? GLOBUS_RANGE_LIST_MAX))
      then
        ent' ← lift (extend_ent offset end_offset ent_end ent);
        absorb_next end_offset ent' rest
      else
        '(rest', d) ← insert_loop offset len end_offset true rest;
        mret (ent :: rest', d)
  end.

Definition globus_range_list_insert (rl : range_list) (offset len : Z) :
    cmd (Z * range_list) :=
  if offset <? 0 then mret (GLOBUS_RANGE_LIST_ERROR_PARAMETER, rl)
  else if len =? 0 then mret (GLOBUS_SUCCESS, rl)
  else match rl_head rl with
  | [] =>
      new_ent ← new_range_ent offset len;
      mret (GLOBUS_SUCCESS, RL 1 [new_ent])
  | _ =>
      end_offset ← lift (range_end offset len);
      '(ents, d) ← insert_loop offset len end_offset false (rl_head rl);
      mret (GLOBUS_SUCCESS, RL (rl_size rl + d) ents)
  end.

(** ** Removal *)

Fixpoint remove_loop (offset end_offset : Z) (ents : list range_ent) :
    cmd (list range_ent * Z) :=
  match ents with
  | [] => mret ([], 0)
  | ent :: next =>
      ent_end ← lift (range_end (re_offset ent) (re_length ent));
      (* this range is all foul, remove it *)
      if (offset <=? re_offset ent) &&
         (((ent_end <=? end_offset) && negb (ent_end =? GLOBUS_RANGE_LIST_MAX))
          || (end_offset =? GLOBUS_RANGE_LIST_MAX))
      then
        _ ← free;
        '(ents', d) ← remove_loop offset end_offset next;
        mret (ents', d - 1)
      (* this range starts fair and extends foul, adjust length *)
      else if (re_offset ent <? offset) &&
         (((ent_end <? end_offset) && negb (ent_end =? GLOBUS_RANGE_LIST_MAX))
          || (end_offset =? GLOBUS_RANGE_LIST_MAX)) &&
         ((offset <? ent_end) || (ent_end =? GLOBUS_RANGE_LIST_MAX))
      then
        len ← lift (s64 (offset - re_offset ent));
        '(ents', d) ← remove_loop offset end_offset next;
        mret (Ent (re_offset ent) len :: ents', d)
      (* this range starts foul and extends fair, adjust offset *)
      else if (offset <=? re_offset ent) && (re_offset ent <? end_offset) &&
         (((end_offset <? ent_end) && negb (end_offset =? GLOBUS_RANGE_LIST_MAX))
          || (ent_end =? GLOBUS_RANGE_LIST_MAX))
      then mret (Ent end_offset (re_length ent) :: next, 0)
      (* this range starts fair and ends fair, but crosses foul *)
      else if (re_offset ent <? offset) &&
         (((end_offset <? ent_end) && negb (end_offset =? GLOBUS_RANGE_LIST_MAX))
          || (ent_end =? GLOBUS_RANGE_LIST_MAX))
      then
        ok ← malloc;
        _ ← lift (c_assert ok);
        len ← (if ent_end =? GLOBUS_RANGE_LIST_MAX then mret GLOBUS_RANGE_LIST_MAX
               else lift (s64 (ent_end - end_offset)));
        len' ← lift (s64 (offset - re_offset ent));
        mret ([Ent (re_offset ent) len'; Ent end_offset len], 1)
      (* this range is all fair *)
      else if (end_offset <? re_offset ent) && negb (end_offset =? GLOBUS_RANGE_LIST_MAX)
      then mret (ent :: next, 0)
      else
        '(ents', d) ← remove_loop offset end_offset next;
        mret (ent :: ents', d)
  end.

Definition globus_range_list_remove (rl : range_list) (offset len : Z) :
    cmd (Z * range_list) :=
  if offset <? 0 then mret (GLOBUS_RANGE_LIST_ERROR_PARAMETER, rl)
  else if len =? 0 then mret (GLOBUS_SUCCESS, rl)
  else
    end_offset ← lift (range_end offset len);
    '(ents, d) ← remove_loop offset end_offset (rl_head rl);
    mret (GLOBUS_SUCCESS, RL (rl_size rl + d) ents).

(** ** Inspection by index *)

Definition globus_range_list_size (rl : option range_list) : Z :=
  match rl with None => 0 | Some rl => rl_size rl end.

(** The for loop that advances [i] from the head [n] times: [None] when the
    chain ends inside the loop, else the entries before [i] and the chain at
    [i]. *)
Fixpoint walk (n : nat) (ents : list range_ent) :
    option (list range_ent * list range_ent) :=
  match n with
  | O => Some ([], ents)
  | S n =>
      match ents with
      | [] => None
      | e :: rest => '(pre, i) ← walk n rest; Some (e :: pre, i)
      end
  end.

(** [Ok (inl rc)] is an error return, [Ok (inr (offset, length))] a success. *)
Definition globus_range_list_at (rl : option range_list) (ndx : Z)
    (offset_arg length_arg : bool) : result (Z + Z * Z) :=
  match rl with
  | None => Ok (inl GLOBUS_RANGE_LIST_ERROR_PARAMETER)
  | Some rl =>
      if negb offset_arg then Ok (inl GLOBUS_RANGE_LIST_ERROR_PARAMETER)
      else if negb length_arg then Ok (inl GLOBUS_RANGE_LIST_ERROR_PARAMETER)
      else match walk (Z.to_nat ndx) (rl_head rl) with
      | None => Ok (inl GLOBUS_RANGE_LIST_ERROR_PARAMETER)
      | Some (_, i) => e ← deref (head i); Ok (inr (re_offset e, re_length e))
      end
  end.

Definition globus_range_list_remove_at (rl : option range_list) (ndx : Z)
    (offset_arg length_arg : bool) : cmd ((Z + Z * Z) * option range_list) :=
  match rl with
  | None => mret (inl GLOBUS_RANGE_LIST_ERROR_PARAMETER, rl)
  | Some r =>
      if negb offset_arg then mret (inl GLOBUS_RANGE_LIST_ERROR_PARAMETER, rl)
      else if negb length_arg then mret (inl GLOBUS_RANGE_LIST_ERROR_PARAMETER, rl)
      else match walk (Z.to_nat ndx) (rl_head r) with
      | None => mret (inl GLOBUS_RANGE_LIST_ERROR_PARAMETER, rl)
      | Some (_, []) => mret (inl GLOBUS_RANGE_LIST_ERROR_PARAMETER, rl)
      | Some (pre, i :: next) =>
          _ ← free;
          mret (inr (re_offset i, re_length i), Some (RL (rl_size r - 1) (pre ++ next)))
      end
  end.

(** ** Merging two lists *)

(** The merging branch of the inner loop. *)
Definition merge_ent (curr2 curr1 : range_ent) (curr2_end curr1_end : Z) :
    result range_ent :=
  let off := if re_offset curr2 <? re_offset curr1 then re_offset curr2
             else re_offset curr1 in
  if (curr2_end =? GLOBUS_RANGE_LIST_MAX) || (curr1_end =? GLOBUS_RANGE_LIST_MAX)
  then Ok (Ent off GLOBUS_RANGE_LIST_MAX)
  else if curr1_end <? curr2_end
  then len ← s64 (curr2_end - off); Ok (Ent off len)
  else Ok (Ent off (re_length curr1)).

(** The inner while loop, which places [curr2] in the chain at [ent1]: the
    entries skipped, the chain the next iteration starts from, and the change
    to [size]; [None] when the chain ended first. *)
Fixpoint merge_scan (curr2 : range_ent) (curr2_end : Z) (has_prev : bool)
    (ents : list range_ent) : cmd (option (list range_ent * list range_ent * Z)) :=
  match ents with
  | [] => mret None
  | curr1 :: next =>
      curr1_end ← lift (range_end (re_offset curr1) (re_length curr1));
      if (curr2_end <? re_offset curr1) && negb (curr2_end =? GLOBUS_RANGE_LIST_MAX)
      then
        if has_prev then mret (Some ([], curr2 :: curr1 :: next, 1))
        else lift (Fault NullDeref)
      else if ((re_offset curr1 <=? curr2_end) || (curr2_end =? GLOBUS_RANGE_LIST_MAX))
           && ((re_offset curr2 <=? curr1_end) || (curr1_end =? GLOBUS_RANGE_LIST_MAX))
      then
        ent ← lift (merge_ent curr2 curr1 curr2_end curr1_end);
        '(cur, d) ← absorb_next curr2_end ent next;
        _ ← free;
        mret (Some ([], cur, d))
      else
        r ← merge_scan curr2 curr2_end true next;
        mret (match r with
              | Some (before, cur, d) => Some (curr1 :: before, cur, d)
              | None => None
              end)
  end.

(** The outer while loop: the merged chain and [size_inc]. *)
Fixpoint merge_loop (ent1 ent2 : list range_ent) (ent2_size : Z) :
    cmd (list range_ent * Z) :=
  match ent2 with
  | [] => mret (ent1, 0)
  | curr2 :: rest2 =>
      curr2_end ← lift (range_end (re_offset curr2) (re_length curr2));
      r ← merge_scan curr2 curr2_end false ent1;
      match r with
      | Some (before, cur, d) =>
          '(ents, inc) ← merge_loop cur rest2 (ent2_size - 1);
          mret (before ++ ents, d + inc)
      | None =>
          match ent1 with
          | [] => lift (Fault NullDeref)
          | _ => mret (ent1 ++ curr2 :: rest2, ent2_size)
          end
      end
  end.

(** The status, [*dest], and the two emptied sources. *)
Definition globus_range_list_merge_destructive (src1 src2 : option range_list) :
    cmd (Z * option range_list * option range_list * option range_list) :=
  match src1, src2 with
  | Some s1, Some s2 =>
      '(rc, tmp_dst) ← globus_range_list_init;
      match tmp_dst with
      | None => mret (-1, None, src1, src2)
      | Some _ =>
          dst ← (match rl_head s1, rl_head s2 with
                 | [], _ => mret (RL (rl_size s2) (rl_head s2))
                 | _, [] => mret (RL (rl_size s1) (rl_head s1))
                 | e1 :: _, e2 :: _ =>
                     if re_offset e1 <=? re_offset e2 then
                       '(ents, inc) ← merge_loop (rl_head s1) (rl_head s2) (rl_size s2);
                       mret (RL (rl_size s1 + inc) ents)
                     else
                       '(ents, inc) ← merge_loop (rl_head s2) (rl_head s1) (rl_size s1);
                       mret (RL (rl_size s2 + inc) ents)
                 end);
          mret (GLOBUS_SUCCESS, Some dst, Some (RL 0 []), Some (RL 0 []))
      end
  | _, _ => mret (-1, None, src1, src2)
  end.

Definition globus_range_list_merge (src1 src2 : option range_list) :
    cmd (Z * option range_list) :=
  match src1, src2 with
  | None, None => mret (-1, None)
  | _, _ =>
      '(rc1, src1_tmp) ← globus_range_list_copy src1;
      if negb (rc1 =? 0) then mret (-1, None)
      else
        '(rc2, src2_tmp) ← globus_range_list_copy src2;
        if negb (rc2 =? 0) then _ ← globus_range_list_destroy src1_tmp; mret (-1, None)
        else
          '(rc, dest, s1, s2) ← globus_range_list_merge_destructive src1_tmp src2_tmp;
          _ ← globus_range_list_destroy s2;
          _ ← globus_range_list_destroy s1;
          if negb (rc =? 0) then mret (-1, None) else mret (GLOBUS_SUCCESS, dest)
  end.


(** ** Properties

    A chain is well formed when its ranges are nonempty, increasing, separated
    by at least one byte, end within [off_t], and only the last is open-ended. *)

Fixpoint wf_from (lo : Z) (ents : list range_ent) : Prop :=
  match ents with
  | [] => True
  | e :: rest =>
      lo <= re_offset e <= INT64_MAX /\
      ((re_length e = GLOBUS_RANGE_LIST_MAX /\ rest = []) \/
       (0 < re_length e /\ re_offset e + re_length e <= INT64_MAX /\
        wf_from (re_offset e + re_length e + 1) rest))
  end.

(** The list as a whole: a well-formed chain and an exact [size]. *)
Definition wf (rl : range_list) : Prop :=
  wf_from 0 (rl_head rl) /\ rl_size rl = Z.of_nat (length (rl_head rl)).

(** The bytes a range, a chain, cover. *)
Definition ent_covers (e : range_ent) (x : Z) : Prop :=
  re_offset e <= x /\ (re_length e = GLOBUS_RANGE_LIST_MAX \/ x < re_offset e + re_length e).
Definition covers (ents : list range_ent) (x : Z) : Prop :=
  Exists (fun e => ent_covers e x) ents.

(** Entry [e] overlaps or abuts the range [[lo, hi)]. *)
Definition touches (lo hi : Z) (e : range_ent) : Prop :=
  re_offset e <= hi /\
  (re_length e = GLOBUS_RANGE_LIST_MAX \/ lo <= re_offset e + re_length e).

(** No entry that follows a touched one ends before the range [[lo, hi)] does. *)
Definition no_swallow (lo hi : Z) (ents : list range_ent) : Prop :=
  forall pre e next post, ents = pre ++ e :: next :: post ->
    touches lo hi e -> re_offset next <= hi ->
    re_length next = GLOBUS_RANGE_LIST_MAX \/ hi <= re_offset next + re_length next.

Lemma no_swallow_tail lo hi e ents : no_swallow lo hi (e :: ents) -> no_swallow lo hi ents.
Proof. intros H pre e' next post ->. by apply (H (e :: pre) e' next post). Qed.

Lemma wf_from_weaken lo lo' ents : lo' <= lo -> wf_from lo ents -> wf_from lo' ents.
Proof. destruct ents; cbn; [done|]. intros ? [? ?]. split; [lia|done]. Qed.

Lemma covers_cons e ents x : covers (e :: ents) x <-> ent_covers e x \/ covers ents x.
Proof. apply Exists_cons. Qed.

Lemma covers_nil x : covers [] x <-> False.
Proof. apply Exists_nil. Qed.

(** Every covered byte is at or after the lower bound of the chain. *)
Lemma covers_lo lo ents x : wf_from lo ents -> covers ents x -> lo <= x.
Proof.
  revert lo. induction ents as [|e ents IH]; intros lo; cbn.
  - by rewrite covers_nil.
  - rewrite covers_cons. intros [? [[? ->]|[? [? Hwf]]]] [[? ?]|Hc]; try lia.
    + by rewrite covers_nil in Hc.
    + apply (IH _ Hwf) in Hc. lia.
Qed.

Lemma new_range_ent_run offset len s :
  malloc_ok s -> new_range_ent offset len s = Ok (Ent offset len, after_malloc s).
Proof.
  intros Hm. unfold new_range_ent, mbind, cmd_bind. by rewrite (malloc_run _ Hm).
Qed.

Lemma range_end_run o l :
  0 <= o <= INT64_MAX ->
  l = GLOBUS_RANGE_LIST_MAX \/ (0 < l /\ o + l <= INT64_MAX) ->
  range_end o l =
    Ok (if l =? GLOBUS_RANGE_LIST_MAX then GLOBUS_RANGE_LIST_MAX else o + l).
Proof.
  unfold range_end, GLOBUS_RANGE_LIST_MAX. intros H1 [->|H2]; [done|].
  zdecide. apply s64_ok. unfold INT64_MIN. lia.
Qed.

(** The merged entry spans from the smaller offset to the larger end. *)
Lemma extend_ent_run lo hi o l :
  0 <= lo < hi -> hi <= INT64_MAX -> 0 <= o <= INT64_MAX ->
  0 < l -> o + l <= INT64_MAX ->
  extend_ent lo hi (o + l) (Ent o l) =
    Ok (Ent (Z.min lo o) (Z.max hi (o + l) - Z.min lo o)).
Proof.
  intros. unfold extend_ent, GLOBUS_RANGE_LIST_MAX, mbind, result_bind.
  assert (INT64_MIN < 0) by (unfold INT64_MIN; lia). cbn [re_offset re_length].
  destruct (Z.ltb_spec lo o); zdecide; cbn.
  - rewrite !s64_ok by lia. cbn. zdecide. cbn.
    destruct (Z.ltb_spec (o + l) hi); [rewrite s64_ok by lia; cbn|]; do 2 f_equal; lia.
  - zdecide. cbn.
    destruct (Z.ltb_spec (o + l) hi); [rewrite s64_ok by lia; cbn|]; do 2 f_equal; lia.
Qed.

Lemma extend_ent_run_max lo hi e :
  0 <= lo < hi -> 0 <= re_offset e -> re_length e = GLOBUS_RANGE_LIST_MAX ->
  extend_ent lo hi GLOBUS_RANGE_LIST_MAX e =
    Ok (Ent (Z.min lo (re_offset e)) GLOBUS_RANGE_LIST_MAX).
Proof.
  intros ? ? He. unfold extend_ent, mbind, result_bind. rewrite He.
  destruct (Z.ltb_spec lo (re_offset e)); cbn; zdecide; rewrite ?orb_true_r; cbn;
    do 2 f_equal; lia.
Qed.

(** Unfold coverage of explicit entries and leave the arithmetic to [lia]. *)
Ltac cov :=
  rewrite ?covers_cons, ?covers_nil; unfold ent_covers; cbn;
  unfold GLOBUS_RANGE_LIST_MAX in *; intuition lia.

(** Close [m = Ok (ents, d, s)] when [m] computes and [d] is 1, 0 or -1. *)
Ltac okd :=
  match goal with |- _ = Ok (_, ?d, _) =>
    first [ replace d with 1 by lia | replace d with 0 by lia | replace d with (-1) by lia ];
    reflexivity
  end.

(** Absorbing the next entry, when it is not swallowed, keeps the chain well
    formed and covers what the two entries covered. *)
Lemma absorb_next_spec lo hi ent rest s :
  0 <= lo <= re_offset ent -> 0 < re_length ent ->
  re_offset ent + re_length ent <= INT64_MAX ->
  hi <= re_offset ent + re_length ent ->
  wf_from (re_offset ent + re_length ent + 1) rest \/
  (re_offset ent + re_length ent = hi /\ wf_from (re_offset ent) rest /\
   forall next post, rest = next :: post -> re_offset next <= hi ->
     re_length next = GLOBUS_RANGE_LIST_MAX \/ hi <= re_offset next + re_length next) ->
  exists ents' s',
    absorb_next hi ent rest s =
      Ok ((ents', Z.of_nat (length ents') - Z.of_nat (length (ent :: rest))), s') /\
    wf_from lo ents' /\
    live s' = live s + (Z.of_nat (length ents') - Z.of_nat (length (ent :: rest))) /\
    forall x, covers ents' x <-> covers (ent :: rest) x.
Proof.
  intros Hlo Hlen Hmax Hhi Hrest. destruct ent as [o l]; cbn in *.
  assert (INT64_MIN < 0) by (unfold INT64_MIN; lia).
  destruct rest as [|[no nl] rest].
  { exists [Ent o l], s. cbn. replace (1 - 1) with 0 by lia.
    split; [done|]. repeat split; try lia; cov. }
  cbn. destruct (Z.leb_spec no hi).
  - destruct Hrest as [[? ?]|[Heq [Hwf Hns]]]; cbn in *; [lia|].
    specialize (Hns _ _ eq_refl). cbn in Hns.
    destruct Hwf as [Hno [[-> ->]|[Hnl [Hne Hwf]]]]; cbn.
    + exists [Ent o GLOBUS_RANGE_LIST_MAX], (after_free s). cbn. split; [done|].
      repeat split; try lia; cov.
    + exists (Ent o (no + nl - o) :: rest), (after_free s).
      assert ((nl =? GLOBUS_RANGE_LIST_MAX) = false) as -> by (unfold GLOBUS_RANGE_LIST_MAX; lia).
      unfold mbind, cmd_bind. rewrite (s64_ok (no + nl)) by lia. cbn.
      rewrite s64_ok by lia. cbn. split; [okd|].
      replace (o + (no + nl - o) + 1) with (no + nl + 1) by lia.
      repeat split; try lia; [right; repeat split; (done || lia)|..]; cov.
  - exists (Ent o l :: Ent no nl :: rest), s. cbn.
    split; [okd|]. repeat split; try lia; try (cov; fail).
    right. split; [lia|]. split; [lia|].
    destruct Hrest as [Hwf|[Heq [Hwf _]]]; [done|]. cbn in *. split; [lia|]. apply Hwf.
Qed.

Lemma insert_loop_spec lo offset len ents hp s :
  0 <= lo <= offset -> 0 < len -> offset + len <= INT64_MAX ->
  wf_from lo ents -> hp = true \/ ents <> [] ->
  no_swallow offset (offset + len) ents -> malloc_ok s ->
  exists ents' s',
    insert_loop offset len (offset + len) hp ents s =
      Ok ((ents', Z.of_nat (length ents') - Z.of_nat (length ents)), s') /\
    wf_from lo ents' /\
    live s' = live s + (Z.of_nat (length ents') - Z.of_nat (length ents)) /\
    forall x, covers ents' x <-> covers ents x \/ offset <= x < offset + len.
Proof.
  revert lo hp. induction ents as [|e rest IH]; intros lo hp Hlo Hlen Hmax Hwf Hhp Hns Hm.
  - destruct Hhp as [->|?]; [|done].
    exists [Ent offset len], (after_malloc s). cbn. unfold mbind, cmd_bind.
    rewrite new_range_ent_run by done. cbn. repeat split; try lia.
    + cov.
    + cov.
  - assert (INT64_MIN < 0) by (unfold INT64_MIN; lia).
    destruct e as [o l]. destruct Hwf as [Ho Hcase]; cbn in Ho, Hcase.
    cbn [insert_loop re_offset re_length]. unfold mbind, cmd_bind.
    rewrite (range_end_run o l) by intuition lia. cbn.
    destruct (Z.ltb_spec (offset + len) o) as [Hbefore|Htouch].
    { (* in front of this entry *)
      assert ((offset + len =? GLOBUS_RANGE_LIST_MAX) = false) as ->
        by (unfold GLOBUS_RANGE_LIST_MAX; lia).
      cbn. rewrite new_range_ent_run by done.
      exists (Ent offset len :: Ent o l :: rest), (after_malloc s). cbn.
      split; [okd|]. repeat split; try lia; try (cov; fail). }
    destruct Hcase as [[-> ->]|[Hl [He Hwf]]].
    { (* this entry is open-ended and last *)
      rewrite Z.eqb_refl. rewrite (extend_ent_run_max offset (offset + len) (Ent o GLOBUS_RANGE_LIST_MAX))
        by (cbn; (done || lia)).
      rewrite !orb_true_r, (proj2 (Z.leb_le o _)) by lia.
      exists [Ent (Z.min offset o) GLOBUS_RANGE_LIST_MAX], s. cbn.
      split; [done|]. repeat split; try lia; cov. }
    assert ((l =? GLOBUS_RANGE_LIST_MAX) = false) as ->
      by (unfold GLOBUS_RANGE_LIST_MAX; lia).
    rewrite (proj2 (Z.leb_le o _)) by lia.
    assert ((o + l =? GLOBUS_RANGE_LIST_MAX) = false) as ->
      by (unfold GLOBUS_RANGE_LIST_MAX; lia).
    rewrite orb_false_r. cbn. destruct (Z.leb_spec offset (o + l)) as [Hleft|Hafter].
    { (* merging *)
      rewrite extend_ent_run by lia. cbn.
      set (lo' := Z.min offset o). set (hi' := Z.max (offset + len) (o + l)).
      destruct (absorb_next_spec lo (offset + len) (Ent lo' (hi' - lo')) rest s)
        as (ents' & s' & Hrun & Hwf' & Hlive & Hcov); cbn; try (subst lo' hi'; lia).
      - destruct (Z.le_gt_cases (offset + len) (o + l)).
        + left. replace (lo' + (hi' - lo') + 1) with (o + l + 1) by lia. done.
        + right. split; [lia|]. split.
          * apply (wf_from_weaken (o + l + 1)); [lia|done].
          * intros next post -> Hn. apply (Hns [] (Ent o l) next post); [done| |done].
            split; cbn; lia.
      - exists ents', s'. rewrite Hrun. split; [done|]. split; [done|]. split; [done|].
        intros x. rewrite Hcov. subst lo' hi'. cov. }
    (* past this entry *)
    destruct (IH (o + l + 1) true) as (ents' & s' & Hrun & Hwf' & Hlive & Hcov);
      try done; try lia; eauto using no_swallow_tail.
    exists (Ent o l :: ents'), s'. rewrite Hrun. cbn.
    replace (Z.of_nat (S (length ents')) - Z.of_nat (S (length rest)))
      with (Z.of_nat (length ents') - Z.of_nat (length rest)) by lia.
    split; [done|]. split; [split; [lia|right; done]|]. split; [lia|].
    intros x. rewrite !covers_cons, Hcov. tauto.
Qed.

(** Walking past entries that end before the inserted range starts. *)
Lemma insert_loop_skip offset len hi pre rest hp s :
  offset < hi ->
  Forall (fun p => 0 <= re_offset p /\ 0 < re_length p /\
                   re_offset p + re_length p < offset) pre ->
  offset <= INT64_MAX ->
  insert_loop offset len hi hp (pre ++ rest) s =
    match insert_loop offset len hi (match pre with [] => hp | _ => true end) rest s with
    | Ok ((ents, d), s') => Ok ((pre ++ ents, d), s')
    | Fault f => Fault f
    end.
Proof.
  intros Hhi Hpre Hmax. revert hp. induction Hpre as [|[o l] pre Hp Hpre IH]; intros hp; cbn in *.
  - by destruct (insert_loop offset len hi hp rest s) as [[[??]?]|].
  - unfold mbind, cmd_bind. rewrite range_end_run by lia. cbn.
    unfold GLOBUS_RANGE_LIST_MAX in *. zdecide. cbn. rewrite IH.
    destruct pre; by destruct (insert_loop _ _ _ _ rest s) as [[[??]?]|].
Qed.

Lemma wf_from_app lo pre rest :
  rest <> [] -> wf_from lo (pre ++ rest) ->
  Forall (fun p => lo <= re_offset p /\ 0 < re_length p) pre /\
  exists lo', lo <= lo' /\ wf_from lo' rest /\
    Forall (fun p => re_offset p + re_length p < lo') pre.
Proof.
  intros Hr. revert lo. induction pre as [|[o l] pre IH]; intros lo Hwf; cbn in *.
  - split; [constructor|]. exists lo. by split_and!; [lia|..].
  - destruct Hwf as [Ho [[_ Hnil]|[Hl [He Hwf]]]].
    { by destruct pre, rest. }
    destruct (IH _ Hwf) as [Hpre (lo' & ? & ? & ?)]. split.
    + constructor; [cbn; lia|]. eapply Forall_impl; [exact Hpre|]. cbn. lia.
    + exists lo'. split_and!; [lia|done|]. constructor; [cbn; lia|done].
Qed.

(** Removal computes a set difference exactly when every entry is cut cleanly:
    it lies outside the removed range or inside it, sticks out on the left only,
    is open-ended, or is the last entry and sticks out on both sides. *)
Definition clean_cut (lo hi : Z) (e : range_ent) (last : bool) : Prop :=
  re_length e = GLOBUS_RANGE_LIST_MAX \/
  re_offset e + re_length e <= lo \/ hi <= re_offset e \/
  (lo <= re_offset e /\ re_offset e + re_length e <= hi) \/
  (re_offset e < lo /\ re_offset e + re_length e < hi) \/
  (last = true /\ re_offset e < lo /\ hi < re_offset e + re_length e).

#[export] Instance clean_cut_dec lo hi e last : Decision (clean_cut lo hi e last).
Proof. unfold clean_cut. apply _. Defined.

Fixpoint all_clean (lo hi : Z) (ents : list range_ent) : Prop :=
  match ents with
  | [] => True
  | e :: rest => clean_cut lo hi e (bool_decide (rest = [])) /\ all_clean lo hi rest
  end.

#[export] Instance all_clean_dec lo hi ents : Decision (all_clean lo hi ents).
Proof. induction ents; cbn; apply _. Defined.

(** The bytes of the removed range. *)
Definition in_range (lo hi x : Z) : Prop :=
  lo <= x /\ (hi = GLOBUS_RANGE_LIST_MAX \/ x < hi).

(** The removal loop, one entry at a time. [prepend e r] is the result [r] of
    the rest of the loop behind [e]. *)
Definition prepend (pre : list range_ent) (dd : Z)
    (r : result (list range_ent * Z * cmem)) : result (list range_ent * Z * cmem) :=
  match r with
  | Ok ((ents, d), s) => Ok ((pre ++ ents, d + dd), s)
  | Fault f => Fault f
  end.

Definition ent_ok (o l : Z) : Prop :=
  0 <= o <= INT64_MAX /\ (l = -1 \/ (0 < l /\ o + l <= INT64_MAX)).

Lemma remove_step_cases lo hi o l rest s :
  ent_ok o l -> 0 <= lo <= INT64_MAX -> hi = -1 \/ lo < hi <= INT64_MAX ->
  remove_loop lo hi (Ent o l :: rest) s =
    if bool_decide (lo <= o /\ (hi = -1 \/ (0 < l /\ o + l <= hi)))
    then prepend [] (-1) (remove_loop lo hi rest (after_free s))
    else if bool_decide (o < lo /\ ((hi = -1 /\ (l = -1 \/ lo < o + l)) \/
                                    (0 < l /\ lo < o + l < hi)))
    then prepend [Ent o (lo - o)] 0 (remove_loop lo hi rest s)
    else if bool_decide (lo <= o < hi /\ (l = -1 \/ hi < o + l))
    then Ok ((Ent hi l :: rest, 0), s)
    else if bool_decide (o < lo < hi /\ (l = -1 \/ hi < o + l))
    then if bool_decide (malloc_ok s)
         then Ok (([Ent o (lo - o); Ent hi (if l =? -1 then -1 else o + l - hi)], 1),
                  after_malloc s)
         else Fault AssertFail
    else if bool_decide (lo < hi < o)
    then Ok ((Ent o l :: rest, 0), s)
    else prepend [Ent o l] 0 (remove_loop lo hi rest s).
Proof.
  intros [Ho Hl] Hlo Hhi. assert (INT64_MIN < 0) by (unfold INT64_MIN; lia).
  cbn [remove_loop re_offset re_length]. unfold mbind, cmd_bind, GLOBUS_RANGE_LIST_MAX.
  rewrite (range_end_run o l) by (unfold GLOBUS_RANGE_LIST_MAX; lia).
  unfold GLOBUS_RANGE_LIST_MAX; cbn [lift].
  assert (s64 (lo - o) = Ok (lo - o)) as -> by (apply s64_ok; unfold INT64_MIN, INT64_MAX in *; lia).
  repeat case_bool_decide; destruct Hl as [->|[Hl1 Hl2]];
    rewrite ?(proj2 (Z.eqb_neq l (-1))) by lia; cbn [Z.eqb Pos.eqb]; zcase; cbn;
    try (replace (s64 (o + l - hi)) with (Ok (o + l - hi)) by (symmetry; apply s64_ok; unfold INT64_MIN, INT64_MAX in *; lia));
    try (rewrite malloc_run by done); try (rewrite malloc_fail by done); try reflexivity.
  all: destruct (remove_loop lo hi rest _) as [[[??]?]|]; cbn; rewrite ?Z.add_0_r; reflexivity.
Qed.

(** What a correct run of the loop on [ents] gives. *)
Definition removal_ok (lo0 lo hi : Z) (ents : list range_ent) (s : cmem)
    (r : result (list range_ent * Z * cmem)) : Prop :=
  exists ents' s',
    r = Ok ((ents', Z.of_nat (length ents') - Z.of_nat (length ents)), s') /\
    wf_from lo0 ents' /\
    live s' = live s + (Z.of_nat (length ents') - Z.of_nat (length ents)) /\
    forall x, covers ents' x <-> covers ents x /\ ~ in_range lo hi x.

Lemma removal_ok_drop lo0 lo1 lo hi e rest s r :
  removal_ok lo1 lo hi rest (after_free s) r -> lo0 <= lo1 ->
  (forall x, ent_covers e x -> in_range lo hi x) ->
  removal_ok lo0 lo hi (e :: rest) s (prepend [] (-1) r).
Proof.
  intros (ents' & s' & -> & Hwf & Hlive & Hcov) Hlo He. exists ents', s'. cbn in *.
  split; [do 3 f_equal; lia|]. split; [by eapply wf_from_weaken|].
  split; [lia|]. intros x. rewrite Hcov, covers_cons. specialize (He x). tauto.
Qed.

Lemma removal_ok_keep lo0 lo hi o l l' rest s r :
  removal_ok (o + l' + 1) lo hi rest s r -> lo0 <= o -> o <= INT64_MAX -> 0 < l' ->
  o + l' <= INT64_MAX ->
  (forall x, ent_covers (Ent o l') x <-> ent_covers (Ent o l) x /\ ~ in_range lo hi x) ->
  removal_ok lo0 lo hi (Ent o l :: rest) s (prepend [Ent o l'] 0 r).
Proof.
  intros (ents' & s' & -> & Hwf & Hlive & Hcov) ? ? ? ? He.
  exists (Ent o l' :: ents'), s'. cbn in *.
  split; [do 3 f_equal; lia|].
  split; [split; [lia|right; split_and!; (lia || done)]|].
  split; [lia|]. intros x. rewrite !covers_cons, Hcov, He. tauto.
Qed.

Lemma removal_ok_stop lo0 lo hi e e' rest s :
  wf_from lo0 (e' :: rest) ->
  (forall x, ent_covers e' x <-> ent_covers e x /\ ~ in_range lo hi x) ->
  (forall x, covers rest x -> ~ in_range lo hi x) ->
  removal_ok lo0 lo hi (e :: rest) s (Ok ((e' :: rest, 0), s)).
Proof.
  intros Hwf He Hrest. exists (e' :: rest), s. cbn [length].
  split; [okd|]. split; [done|]. split; [lia|].
  intros x. rewrite !covers_cons, He. specialize (Hrest x). tauto.
Qed.

Lemma remove_loop_spec lo0 lo hi ents s :
  0 <= lo0 -> 0 <= lo <= INT64_MAX ->
  hi = GLOBUS_RANGE_LIST_MAX \/ (lo < hi <= INT64_MAX /\ all_clean lo hi ents) ->
  wf_from lo0 ents -> malloc_ok s ->
  removal_ok lo0 lo hi ents s (remove_loop lo hi ents s).
Proof.
  revert lo0 s. induction ents as [|[o l] rest IH]; intros lo0 s Hlo0 Hlo Hhi Hwf Hm.
  { exists [], s. cbn. split; [done|]. split_and!; [done|lia|].
    intros x. rewrite covers_nil. tauto. }
  assert (hi = -1 \/ lo < hi <= INT64_MAX /\ all_clean lo hi rest) as Hhi'
    by (destruct Hhi as [?|[? [? ?]]]; auto).
  destruct Hwf as [Ho Hcase]; cbn in Ho, Hcase.
  rewrite remove_step_cases by
    (unfold ent_ok, GLOBUS_RANGE_LIST_MAX in *; intuition lia).
  unfold in_range, ent_covers, GLOBUS_RANGE_LIST_MAX in *.
  repeat case_bool_decide.
  - (* dropped *)
    destruct Hcase as [[-> ->]|[Hl [He Hwf]]].
    + apply (removal_ok_drop lo0 lo0); [apply IH; done|lia|].
      intros x [? ?]; cbn in *. unfold in_range, GLOBUS_RANGE_LIST_MAX. lia.
    + apply (removal_ok_drop lo0 (o + l + 1)); [apply IH; (done || lia)|lia|].
      intros x [? ?]; cbn in *. unfold in_range, GLOBUS_RANGE_LIST_MAX in *. lia.
  - (* trimmed on the right *)
    apply removal_ok_keep; try lia.
    + apply IH; try (done || lia).
      destruct Hcase as [[-> ->]|[Hl [He Hwf]]]; [done|].
      eapply wf_from_weaken; [|done]. lia.
    + intros x. unfold in_range, ent_covers, GLOBUS_RANGE_LIST_MAX; cbn. lia.
  - (* trimmed on the left: only an open-ended entry is *)
    assert (l = -1 /\ rest = []) as [-> ->].
    { destruct Hcase as [?|?]; [done|]. destruct Hhi as [?|[? [Hc _]]]; [lia|].
      unfold clean_cut, GLOBUS_RANGE_LIST_MAX in Hc. cbn in Hc. lia. }
    apply removal_ok_stop; [cbn; intuition lia|..]; intros x;
      rewrite ?covers_nil; unfold in_range, ent_covers, GLOBUS_RANGE_LIST_MAX; cbn; lia.
  - (* split: only the last entry is *)
    assert (rest = []) as ->.
    { destruct Hcase as [[? ?]|[? [? ?]]]; [done|]. destruct Hhi as [?|[? [Hc _]]]; [lia|].
      unfold clean_cut, GLOBUS_RANGE_LIST_MAX in Hc. cbn in Hc.
      destruct Hc as [?|[?|[?|[?|[?|[Hb ?]]]]]]; try lia. by apply bool_decide_eq_true in Hb. }
    exists [Ent o (lo - o); Ent hi (if l =? -1 then -1 else o + l - hi)], (after_malloc s).
    split; [reflexivity|]. cbn. split; [|split; [lia|]].
    + destruct (Z.eqb_spec l (-1)); unfold GLOBUS_RANGE_LIST_MAX; intuition lia.
    + intros x. unfold in_range. destruct (Z.eqb_spec l (-1)); cov.
  - done.
  - (* the entries from here on lie after the removed range *)
    apply removal_ok_stop; [cbn; done|..]; intros x;
      unfold in_range, ent_covers, GLOBUS_RANGE_LIST_MAX; cbn; [lia|].
    destruct Hcase as [[-> ->]|[Hl [He Hwf]]]; [by rewrite covers_nil|].
    intros Hc. apply (covers_lo _ _ _ Hwf) in Hc. lia.
  - (* kept *)
    destruct Hcase as [[-> ->]|[Hl [He Hwf]]].
    { exists [Ent o (-1)], s. cbn. split; [done|]. split; [intuition lia|]. split; [lia|].
      intros x. unfold in_range. cov. }
    apply removal_ok_keep; try lia; [apply IH; (done || lia)|].
    destruct Hhi as [->|[? [Hc _]]].
    + intros x. unfold in_range, ent_covers, GLOBUS_RANGE_LIST_MAX; cbn. lia.
    + unfold clean_cut, GLOBUS_RANGE_LIST_MAX in Hc. cbn in Hc.
      intros x. unfold in_range, ent_covers, GLOBUS_RANGE_LIST_MAX; cbn. lia.
Qed.

(** ** Allocation accounting *)

Lemma free_ents_run ents s :
  free_ents ents s = Ok (tt, CMem (live s - Z.of_nat (length ents)) (plan s)).
Proof.
  revert s. induction ents as [|e ents IH]; intros s; cbn.
  - rewrite Z.sub_0_r. by destruct s.
  - unfold mbind, cmd_bind. cbn. rewrite IH. cbn. do 3 f_equal. lia.
Qed.

Lemma destroy_run rl s :
  globus_range_list_destroy (Some rl) s =
    Ok (tt, CMem (live s - Z.of_nat (length (rl_head rl)) - 1) (plan s)).
Proof. cbn. unfold mbind, cmd_bind. by rewrite free_ents_run. Qed.

(** The copy loop copies a prefix; it stops early only when [malloc] fails. *)
Lemma copy_loop_run src dst s :
  exists ok pre s', copy_loop src dst s = Ok ((ok, dst ++ pre), s') /\
    live s' = live s + Z.of_nat (length pre) /\ (ok = true -> pre = src) /\
    (plan s = [] -> ok = true /\ plan s' = []).
Proof.
  revert dst s. induction src as [|[o l] src IH]; intros dst s; cbn.
  - exists true, [], s. rewrite app_nil_r. split_and!; naive_solver lia.
  - unfold mbind, cmd_bind. destruct (decide (malloc_ok s)) as [Hm|Hm].
    + rewrite malloc_run by done. cbn.
      destruct (IH (dst ++ [Ent o l]) (after_malloc s)) as (ok & pre & s' & -> & Hl & Hpre & Hp).
      exists ok, (Ent o l :: pre), s'. rewrite <- app_assoc. cbn in *.
      split_and!; [done|lia|intros; f_equal; auto|]. intros E. rewrite E in Hp. auto.
    + rewrite malloc_fail by done. exists false, [], (CMem (live s) (tl (plan s))).
      rewrite app_nil_r. cbn. split_and!; [done|lia|done|].
      intros E. exfalso. apply Hm. unfold malloc_ok. by rewrite E.
Qed.

(** A copy is exact or, when an allocation fails, [-1] with everything it had
    allocated freed again. *)
Lemma copy_run rl s :
  exists rc d s', globus_range_list_copy (Some rl) s = Ok ((rc, d), s') /\
    ((rc = GLOBUS_SUCCESS /\ d = Some rl /\
      live s' = live s + 1 + Z.of_nat (length (rl_head rl)) /\
      (plan s = [] -> plan s' = [])) \/
     (rc = -1 /\ d = None /\ live s' = live s /\ plan s <> [])).
Proof.
  unfold globus_range_list_copy, globus_range_list_init, mbind, cmd_bind.
  destruct (decide (malloc_ok s)) as [Hm|Hm].
  - rewrite malloc_run by done. cbn.
    destruct (copy_loop_run (rl_head rl) [] (after_malloc s))
      as (ok & pre & s' & -> & Hl & Hpre & Hp). cbn in *.
    destruct ok.
    + do 3 eexists. split; [done|]. left. rewrite Hpre in * by done. destruct rl.
      split_and!; [done..|cbn in *; lia|]. intros E. rewrite E in Hp. by apply Hp.
    + pose proof (destroy_run (RL 0 pre) s') as Hd. cbn in Hd. rewrite Hd.
      do 3 eexists. split; [done|]. right. cbn. split_and!; [done..|lia|].
      intros E. rewrite E in Hp. by destruct (Hp eq_refl).
  - rewrite malloc_fail by done. cbn. do 3 eexists. split; [done|]. right.
    split_and!; [done..|]. intros E. apply Hm. unfold malloc_ok. by rewrite E.
Qed.

#[local] Arguments globus_range_list_copy : simpl never.
#[local] Arguments globus_range_list_merge_destructive : simpl never.

(** ** Sizes and blocks in a merge *)

Lemma absorb_next_count hi ent rest s ents' d s' :
  absorb_next hi ent rest s = Ok ((ents', d), s') ->
  d = Z.of_nat (length ents') - Z.of_nat (length (ent :: rest)) /\
  live s' = live s + d /\ plan s' = plan s.
Proof.
  unfold absorb_next. destruct rest as [|next rest]; [intros [= <- <- <-]; cbn; split_and!; (lia || done)|].
  destruct (re_offset next <=? hi); [|intros [= <- <- <-]; cbn; split_and!; (lia || done)].
  unfold mbind, cmd_bind. destruct (_ =? _); cbn.
  - intros [= <- <- <-]. cbn. split_and!; (lia || done).
  - destruct (s64 _); cbn; [|done]. destruct (s64 _); cbn; [|done].
    intros [= <- <- <-]. cbn. split_and!; (lia || done).
Qed.

Lemma merge_scan_count curr2 c2e hp ents s before cur d s' :
  merge_scan curr2 c2e hp ents s = Ok (Some (before, cur, d), s') ->
  d = Z.of_nat (length before) + Z.of_nat (length cur) - Z.of_nat (length ents) /\
  live s' = live s + (d - 1) /\ plan s' = plan s.
Proof.
  revert hp s before cur d s'. induction ents as [|curr1 next IH];
    intros hp s before cur d s'; cbn [merge_scan]; [done|].
  unfold mbind, cmd_bind. destruct (range_end _ _) as [c1e|]; cbn [lift]; [|done].
  destruct (_ && _).
  { destruct hp; [|done]. intros [= <- <- <- <-]. cbn. split_and!; (lia || done). }
  destruct (_ && _).
  - destruct (merge_ent _ _ _ _) as [ent|]; cbn [lift]; [|done].
    destruct (absorb_next _ _ _ _) as [[[cur1 d1] s1]|] eqn:E; [|done].
    apply absorb_next_count in E as (? & ? & ?). cbn. intros [= <- <- <- <-]. cbn in *.
    split_and!; (lia || done).
  - destruct (merge_scan _ _ _ next s) as [[[[[b c] d1]|] s1]|] eqn:E; cbn; try done.
    intros [= <- <- <- <-]. apply IH in E as (? & ? & ?). cbn. split_and!; (lia || done).
Qed.

Lemma merge_scan_None curr2 c2e hp ents s s' :
  merge_scan curr2 c2e hp ents s = Ok (None, s') -> s' = s.
Proof.
  revert hp s s'. induction ents as [|curr1 next IH]; intros hp s s'; cbn [merge_scan];
    [by intros [= <-]|].
  unfold mbind, cmd_bind. destruct (range_end _ _) as [c1e|]; cbn [lift]; [|done].
  destruct (_ && _); [by destruct hp|]. destruct (_ && _).
  - destruct (merge_ent _ _ _ _) as [ent|]; cbn [lift]; [|done].
    by destruct (absorb_next _ _ _ _) as [[[cur1 d1] s1]|].
  - destruct (merge_scan _ _ _ next s) as [[[[[b c] d1]|] s1]|] eqn:E; cbn; try done.
    intros [= <-]. eauto.
Qed.

Lemma merge_loop_count ent1 ent2 s ents inc s' :
  merge_loop ent1 ent2 (Z.of_nat (length ent2)) s = Ok ((ents, inc), s') ->
  inc = Z.of_nat (length ents) - Z.of_nat (length ent1) /\
  live s' = live s + (inc - Z.of_nat (length ent2)) /\ plan s' = plan s.
Proof.
  revert ent1 s ents inc s'. induction ent2 as [|curr2 rest2 IH];
    intros ent1 s ents inc s'; cbn [merge_loop].
  { intros [= <- <- <-]. cbn. split_and!; (lia || done). }
  unfold mbind, cmd_bind. destruct (range_end _ _) as [c2e|]; cbn [lift]; [|done].
  destruct (merge_scan _ _ _ ent1 s) as [[[[[b c] d]|] s1]|] eqn:E; [..|done].
  - apply merge_scan_count in E as (? & ? & ?).
    replace (Z.of_nat (length (curr2 :: rest2)) - 1) with (Z.of_nat (length rest2))
      by (cbn; lia).
    destruct (merge_loop c rest2 _ s1) as [[[ents1 inc1] s2]|] eqn:E2; [|done].
    apply IH in E2 as (? & ? & ?). intros [= <- <- <-]. rewrite length_app. cbn.
    split_and!; [lia|lia|congruence].
  - apply merge_scan_None in E as ->. destruct ent1; [done|].
    intros [= <- <- <-]. cbn. rewrite length_app. cbn. split_and!; (lia || done).
Qed.

(** *** A merge of well-formed lists never faults

    Only the order of the offsets is needed: [chain]. *)

Fixpoint chain (lo : Z) (ents : list range_ent) : Prop :=
  match ents with
  | [] => True
  | e :: rest =>
      lo <= re_offset e /\ ent_ok (re_offset e) (re_length e) /\ chain (re_offset e + 1) rest
  end.

Lemma chain_weaken lo lo' ents : lo' <= lo -> chain lo ents -> chain lo' ents.
Proof. destruct ents; cbn; [done|]. intros ? [? ?]. split; [lia|done]. Qed.

Lemma wf_from_chain lo ents : 0 <= lo -> wf_from lo ents -> chain lo ents.
Proof.
  revert lo. induction ents as [|[o l] ents IH]; intros lo Hlo; cbn; [done|].
  unfold GLOBUS_RANGE_LIST_MAX.
  intros [Ho [[-> ->]|[Hl [He Hwf]]]]; (split; [lia|]); (split; [unfold ent_ok; lia|]); [done|].
  apply (chain_weaken (o + l + 1)); [lia|]. apply IH; [lia|done].
Qed.

Lemma absorb_next_total hi ent rest s :
  ent_ok (re_offset ent) (re_length ent) -> chain (re_offset ent + 1) rest ->
  exists ents' d s', absorb_next hi ent rest s = Ok ((ents', d), s') /\
    chain (re_offset ent) ents' /\ exists l t, ents' = Ent (re_offset ent) l :: t.
Proof.
  destruct ent as [o l]; cbn. intros Hok Hrest.
  assert (INT64_MIN < 0) by (unfold INT64_MIN; lia).
  destruct rest as [|[no nl] rest]; cbn in *.
  { do 3 eexists. split; [done|]. split; [|eauto]. cbn. split_and!; (lia || done). }
  destruct Hrest as (? & [? Hnl] & Hrest). destruct (no <=? hi).
  - unfold mbind, cmd_bind, GLOBUS_RANGE_LIST_MAX. unfold ent_ok in Hok.
    destruct (Z.eqb_spec nl (-1)); cbn.
    + do 3 eexists. split; [done|]. split; [|eauto]. cbn.
      split_and!; [lia|unfold ent_ok; lia|]. eapply chain_weaken; [|done]. lia.
    + rewrite s64_ok by lia. cbn. rewrite s64_ok by lia. cbn.
      do 3 eexists. split; [done|]. split; [|eauto]. cbn.
      split_and!; [lia|unfold ent_ok; lia|]. eapply chain_weaken; [|done]. lia.
  - do 3 eexists. split; [done|]. split; [|eauto]. cbn.
    split_and!; try done; lia.
Qed.

Lemma merge_ent_total o2 l2 o1 l1 :
  ent_ok o2 l2 -> ent_ok o1 l1 ->
  exists l, merge_ent (Ent o2 l2) (Ent o1 l1)
      (if l2 =? -1 then -1 else o2 + l2) (if l1 =? -1 then -1 else o1 + l1) =
        Ok (Ent (Z.min o2 o1) l) /\ ent_ok (Z.min o2 o1) l.
Proof.
  intros [H2 H2'] [H1 H1']. unfold merge_ent, GLOBUS_RANGE_LIST_MAX, mbind, result_bind, ent_ok.
  assert (INT64_MIN < 0) by (unfold INT64_MIN; lia). cbn [re_offset re_length].
  replace (if o2 <? o1 then o2 else o1) with (Z.min o2 o1)
    by (destruct (Z.ltb_spec o2 o1); lia).
  destruct (Z.eqb_spec l2 (-1)), (Z.eqb_spec l1 (-1)); zcase;
    try (rewrite s64_ok by lia); eexists; (split; [reflexivity|]); lia.
Qed.

Lemma merge_scan_total lo o2 l2 hp ents s :
  chain lo ents -> 0 <= lo -> ent_ok o2 l2 ->
  hp = true \/ (exists e t, ents = e :: t /\ re_offset e <= o2) ->
  exists r s',
    merge_scan (Ent o2 l2) (if l2 =? -1 then -1 else o2 + l2) hp ents s = Ok (r, s') /\
    match r with
    | None => True
    | Some (before, cur, d) =>
        chain 0 cur /\ exists e t, cur = e :: t /\ re_offset e <= o2
    end.
Proof.
  revert lo hp s. induction ents as [|[o1 l1] next IH]; intros lo hp s Hc Hlo Hok2 Hhp;
    cbn [merge_scan re_offset re_length]; [by do 2 eexists|].
  destruct Hc as (? & Hok1 & Hc). cbn in *.
  unfold mbind, cmd_bind.
  rewrite range_end_run by (unfold ent_ok, GLOBUS_RANGE_LIST_MAX in *; lia).
  unfold GLOBUS_RANGE_LIST_MAX. cbn [lift].
  destruct (_ && _) eqn:E1.
  { destruct hp.
    - do 2 eexists. split; [done|]. split; [|do 2 eexists; split; [done|cbn; lia]].
      unfold ent_ok in *. cbn. revert E1. destruct (Z.eqb_spec l2 (-1)); zcase;
        intros E1; try done; split_and!; try done; lia.
    - destruct Hhp as [?|(e & t & [= <- <-] & Hle)]; [done|]. exfalso. cbn in Hle.
      unfold ent_ok in *. revert E1. destruct (Z.eqb_spec l2 (-1)); zcase; done. }
  clear E1. destruct (_ && _).
  - destruct (merge_ent_total o2 l2 o1 l1) as (l & -> & Hok); [done..|]. cbn [lift].
    destruct (absorb_next_total (if l2 =? -1 then -1 else o2 + l2) (Ent (Z.min o2 o1) l) next s)
      as (ents' & d & s' & -> & Hc' & l' & t & ->); [done|..].
    { cbn. eapply chain_weaken; [|done]. lia. }
    cbn in *. do 2 eexists. split; [done|]. split.
    + eapply chain_weaken; [|exact Hc']. unfold ent_ok in *. lia.
    + do 2 eexists. split; [done|]. cbn. lia.
  - destruct (IH (o1 + 1) true s) as (r & s' & -> & Hr); [done|unfold ent_ok in *; lia|done|by left|].
    do 2 eexists. split; [done|]. by destruct r as [[[??]?]|].
Qed.

Lemma merge_loop_total ent1 ent2 e t n s :
  chain 0 ent1 -> ent1 = e :: t -> chain (re_offset e) ent2 ->
  exists ents inc s', merge_loop ent1 ent2 n s = Ok ((ents, inc), s').
Proof.
  revert ent1 e t n s. induction ent2 as [|[o2 l2] rest2 IH];
    intros ent1 e t n s Hc He Hc2; cbn [merge_loop]; [eauto|].
  destruct Hc2 as (Hle & Hok2 & Hc2). cbn in *.
  unfold mbind, cmd_bind.
  rewrite range_end_run by (unfold ent_ok, GLOBUS_RANGE_LIST_MAX in *; lia).
  unfold GLOBUS_RANGE_LIST_MAX. cbn [lift].
  destruct (merge_scan_total 0 o2 l2 false ent1 s) as (r & s' & -> & Hr);
    [done|lia|done|right; eauto|].
  destruct r as [[[b c] d]|].
  - destruct Hr as (Hc' & e' & t' & -> & Hle').
    destruct (IH (e' :: t') e' t' (n - 1) s') as (ents & inc & s2 & ->); [done..| |].
    { eapply chain_weaken; [|done]. lia. }
    eauto.
  - subst ent1. eauto.
Qed.

(** *** Merging lists that do not touch *)

(** [e1] lies before [e2], at least one byte away. *)
Definition before (e1 e2 : range_ent) : Prop :=
  re_length e1 <> GLOBUS_RANGE_LIST_MAX /\ re_offset e1 + re_length e1 < re_offset e2.

Definition separate (e1 e2 : range_ent) : Prop := before e1 e2 \/ before e2 e1.

Lemma wf_from_ent_ok lo e rest :
  0 <= lo -> wf_from lo (e :: rest) -> ent_ok (re_offset e) (re_length e).
Proof.
  intros ? [? [[? _]|(? & ? & _)]]; unfold ent_ok, GLOBUS_RANGE_LIST_MAX in *; lia.
Qed.

Lemma wf_from_join lo lo' pre rest :
  wf_from lo pre -> Forall (fun e => re_length e <> GLOBUS_RANGE_LIST_MAX /\
                                     re_offset e + re_length e < lo') pre ->
  lo <= lo' -> wf_from lo' rest -> wf_from lo (pre ++ rest).
Proof.
  intros Hwf Hpre. revert lo Hwf.
  induction Hpre as [|[o l] pre [Hm Hp] Hpre IH]; intros lo Hwf Hlo Hrest; cbn in *.
  - by eapply wf_from_weaken.
  - destruct Hwf as [Ho [[? _]|(Hl & He & Hwf)]]; [done|].
    split; [done|]. right. split; [done|]. split; [done|]. apply IH; [done|lia|done].
Qed.

Lemma wf_from_prefix lo pre rest : wf_from lo (pre ++ rest) -> wf_from lo pre.
Proof.
  revert lo. induction pre as [|e pre IH]; intros lo; cbn; [done|].
  intros [Ho [[? Hn]|(? & ? & ?)]]; (split; [done|]).
  - left. by destruct pre.
  - right. eauto.
Qed.

Lemma covers_app l1 l2 x : covers (l1 ++ l2) x <-> covers l1 x \/ covers l2 x.
Proof. apply Exists_app. Qed.

Lemma wf_from_elem lo ents e : wf_from lo ents -> e ∈ ents -> lo <= re_offset e.
Proof.
  intros Hwf Hin. revert lo Hwf. induction Hin as [e ents|e e' ents Hin IH]; intros lo Hwf.
  - apply Hwf.
  - destruct Hwf as [? [[_ ->]|(? & ? & Hwf)]]; [by apply elem_of_nil in Hin|].
    apply IH in Hwf. lia.
Qed.

(** A separate range is linked in between the entries before it and after it. *)
Lemma merge_scan_separate lo o2 l2 hp ents s :
  0 <= lo -> wf_from lo ents -> ent_ok o2 l2 -> Forall (separate (Ent o2 l2)) ents ->
  hp = true \/ (exists e t, ents = e :: t /\ re_offset e <= o2) ->
  exists pre post, ents = pre ++ post /\
    Forall (fun e => before e (Ent o2 l2)) pre /\
    match post with
    | [] => merge_scan (Ent o2 l2) (if l2 =? -1 then -1 else o2 + l2) hp ents s = Ok (None, s)
    | e :: _ =>
        before (Ent o2 l2) e /\
        merge_scan (Ent o2 l2) (if l2 =? -1 then -1 else o2 + l2) hp ents s =
          Ok (Some (pre, Ent o2 l2 :: post, 1), s)
    end.
Proof.
  revert lo hp. induction ents as [|[o1 l1] next IH]; intros lo hp Hlo Hwf Hok2 Hsep Hhp.
  { exists [], []. by split_and!; [|constructor|]. }
  apply wf_from_ent_ok in Hwf as Hok1; [|done]. cbn in Hok1.
  inversion Hsep as [|?? Hs Hsep']; subst. clear Hsep.
  assert (merge_scan (Ent o2 l2) (if l2 =? -1 then -1 else o2 + l2) hp (Ent o1 l1 :: next) s =
    if bool_decide (before (Ent o2 l2) (Ent o1 l1))
    then if hp then Ok (Some ([], Ent o2 l2 :: Ent o1 l1 :: next, 1), s) else Fault NullDeref
    else match merge_scan (Ent o2 l2) (if l2 =? -1 then -1 else o2 + l2) true next s with
         | Ok (Some (b, c, d), s') => Ok (Some (Ent o1 l1 :: b, c, d), s')
         | Ok (None, s') => Ok (None, s')
         | Fault f => Fault f
         end) as Hstep.
  { cbn [merge_scan re_offset re_length]. unfold mbind, cmd_bind.
    rewrite range_end_run by (unfold ent_ok, GLOBUS_RANGE_LIST_MAX in *; lia).
    unfold separate, before, ent_ok, GLOBUS_RANGE_LIST_MAX in *. cbn [lift re_offset re_length] in *.
    destruct (Z.eqb_spec l2 (-1)), (Z.eqb_spec l1 (-1)); zcase; case_bool_decide; try lia;
      try (by destruct hp);
      destruct (merge_scan _ _ _ next s) as [[[[[??]?]|]?]|]; done. }
  rewrite Hstep. clear Hstep. case_bool_decide as Hb.
  - exists [], (Ent o1 l1 :: next). split_and!; [done|constructor|done|].
    destruct Hhp as [->|(e & t & [= <- <-] & Hle)]; [done|]. exfalso.
    unfold before, ent_ok, GLOBUS_RANGE_LIST_MAX in *. cbn in *. lia.
  - destruct Hs as [?|Hs]; [done|].
    destruct Hwf as [Ho [[Hm ->]|(Hl & He & Hwf)]]; cbn in *.
    { by destruct Hs. }
    destruct (IH (o1 + l1 + 1) true) as (pre & post & -> & Hpre & Hpost);
      [lia|done|done|done|by left|].
    exists (Ent o1 l1 :: pre), post. split; [done|]. split; [by constructor|].
    destruct post; [by rewrite Hpost|]. destruct Hpost as [? Hrun]. by rewrite Hrun.
Qed.

Lemma merge_loop_separate lo ent1 ent2 n s :
  0 <= lo -> wf_from lo ent1 -> wf_from lo ent2 ->
  (forall e1 e2, e1 ∈ ent1 -> e2 ∈ ent2 -> separate e2 e1) ->
  (forall e2 t2, ent2 = e2 :: t2 -> exists e1 t1, ent1 = e1 :: t1 /\ re_offset e1 <= re_offset e2) ->
  exists ents inc, merge_loop ent1 ent2 n s = Ok ((ents, inc), s) /\ wf_from lo ents /\
    forall x, covers ents x <-> covers ent1 x \/ covers ent2 x.
Proof.
  revert lo ent1 n. induction ent2 as [|[o2 l2] rest2 IH]; intros lo ent1 n Hlo Hwf1 Hwf2 Hsep Hhd.
  { exists ent1, 0. cbn. split_and!; [done..|]. intros x. rewrite covers_nil. tauto. }
  cbn [merge_loop re_offset re_length]. unfold mbind, cmd_bind.
  apply wf_from_ent_ok in Hwf2 as Hok2; [|done]. cbn in Hok2.
  rewrite range_end_run by (unfold ent_ok, GLOBUS_RANGE_LIST_MAX in *; lia).
  unfold GLOBUS_RANGE_LIST_MAX. cbn [lift].
  destruct (Hhd _ _ eq_refl) as (e1 & t1 & He1 & Hle).
  destruct (merge_scan_separate lo o2 l2 false ent1 s) as (pre & post & Heq & Hpre & Hpost);
    [done..| |right; eauto|].
  { apply Forall_forall. intros e ?. apply Hsep; [done|]. left. }
  assert (lo <= o2) as Hlo2 by apply Hwf2.
  assert (wf_from lo pre) as Hwfpre by (rewrite Heq in Hwf1; by eapply wf_from_prefix).
  assert (Forall (fun e => re_length e <> GLOBUS_RANGE_LIST_MAX /\
                           re_offset e + re_length e < o2) pre) as Hpre' by done.
  destruct post as [|e post].
  - rewrite app_nil_r in Heq. rewrite Hpost. exists (ent1 ++ Ent o2 l2 :: rest2), n.
    split; [by rewrite He1|]. split; [|intros x; apply covers_app].
    rewrite Heq. eapply wf_from_join; [done..|].
    destruct Hwf2 as [? ?]. split; [cbn in *; lia|done].
  - destruct Hpost as [Hb ->]. clear He1. subst ent1.
    assert (wf_from o2 (Ent o2 l2 :: e :: post)) as Hwf'.
    { destruct Hb as [Hm Hb]. cbn in *. destruct Hwf2 as [? [[? _]|(? & ? & _)]]; [done|].
      split; [lia|]. right. split; [done|]. split; [done|].
      apply wf_from_app in Hwf1 as [_ (lo' & _ & Hwfp & _)]; [|done].
      destruct Hwfp as [? ?]. split; [cbn in *; lia|done]. }
    destruct (IH o2 (Ent o2 l2 :: e :: post) (n - 1)) as (ents & inc & -> & Hwfr & Hcov).
    + destruct Hok2; lia.
    + done.
    + destruct Hwf2 as [_ [[_ ->]|(? & ? & ?)]]; [done|].
      eapply wf_from_weaken; [|done]. cbn in *. lia.
    + intros e1' e2 [->|Hin]%elem_of_cons Hin2.
      * destruct Hwf2 as [_ [[_ ->]|(? & ? & Hwf2)]]; [by apply elem_of_nil in Hin2|].
        right. split; [unfold GLOBUS_RANGE_LIST_MAX; cbn in *; lia|]. cbn in *.
        apply (wf_from_elem _ _ _ Hwf2) in Hin2. lia.
      * apply Hsep; [apply elem_of_app; by right|by right].
    + intros e2 t2 ->. do 2 eexists. split; [done|].
      destruct Hwf2 as [_ [[_ ?]|(? & ? & [? _])]]; [done|]. cbn in *. lia.
    + exists (pre ++ ents), (1 + inc). split_and!; [done|..].
      * by eapply wf_from_join.
      * intros x. rewrite !covers_app, Hcov, !covers_cons. tauto.
Qed.

(** *** The defects of [remove] *)

Lemma all_clean_after lo hi ents : lo <= hi -> wf_from hi ents -> all_clean lo hi ents.
Proof.
  intros Hlo. revert hi Hlo. assert (forall b hi, lo <= hi <= b -> wf_from b ents -> all_clean lo hi ents).
  { induction ents as [|[o l] ents IH]; intros b hi Hb Hwf; cbn; [done|].
    destruct Hwf as [Ho [[Hm ->]|(Hl & He & Hwf)]]; cbn in *.
    - split; [by left|done].
    - split; [right; right; left; cbn; lia|]. eapply IH; [|done]. lia. }
  intros hi ? ?. eapply H; [|done]. lia.
Qed.

Lemma ent_covers_below o l x : ent_covers (Ent o l) x -> l <> -1 -> x < o + l.
Proof. unfold ent_covers. cbn. intros [_ [?|?]] ?; done. Qed.

Lemma remove_loop_defect lo0 lo hi ents s :
  0 <= lo0 -> 0 <= lo < hi -> hi <= INT64_MAX -> wf_from lo0 ents ->
  ~ all_clean lo hi ents -> malloc_ok s ->
  exists ents' d s' x, remove_loop lo hi ents s = Ok ((ents', d), s') /\ lo0 <= x /\
    ~ (covers ents' x <-> covers ents x /\ ~ in_range lo hi x).
Proof.
  revert lo0 s. induction ents as [|[o l] rest IH]; intros lo0 s Hlo0 Hlo Hhi Hwf Hnc Hm.
  { by destruct Hnc. }
  destruct Hwf as [Ho [[Hl ->]|(Hl & He & Hwf)]]; cbn in Ho, Hl.
  { destruct Hnc. cbn. split; [by left|done]. }
  cbn in He, Hwf. rewrite remove_step_cases by (unfold ent_ok; lia).
  assert (forall x, covers rest x -> o + l < x) as Hrest.
  { intros x Hx. apply (covers_lo _ _ _ Hwf) in Hx. lia. }
  assert (hi <= o + l -> all_clean lo hi rest) as Hafter.
  { intros. apply all_clean_after; [lia|]. eapply wf_from_weaken; [|done]. lia. }
  destruct (decide (all_clean lo hi rest)) as [Hcr|Hcr].
  - (* the defect is in this entry *)
    assert (exists last, (rest = [] -> last = true) /\ ~ clean_cut lo hi (Ent o l) last)
      as (last & Hlast & Hc).
    { exists (bool_decide (rest = [])). split; [apply bool_decide_eq_true_2|cbn in Hnc; tauto]. }
    unfold clean_cut, GLOBUS_RANGE_LIST_MAX in Hc. cbn [re_offset re_length] in Hc.
    repeat case_bool_decide; try contradiction; try lia.
    + (* the length is not adjusted: the range grows on the right *)
      exists (Ent hi l :: rest), 0, s, (o + l). split; [done|]. split; [lia|].
      rewrite !covers_cons. intros [Hiff _]. destruct Hiff as [[Hbad|Hbad] _].
      * left. split; cbn; lia.
      * apply ent_covers_below in Hbad; lia.
      * apply Hrest in Hbad. lia.
    + (* the entries after the split are lost *)
      destruct rest as [|[no nl] rest].
      { rewrite Hlast in Hc by done. lia. }
      do 3 eexists. exists no. split; [done|]. destruct Hwf as [Hno Hnl]. cbn in Hno, Hnl.
      split; [lia|]. rewrite !covers_cons, covers_nil. unfold in_range, ent_covers; cbn.
      destruct (Z.eqb_spec l (-1)); [lia|].
      unfold GLOBUS_RANGE_LIST_MAX in *.
      intros [_ Hiff]. destruct Hiff as [Hbad|[Hbad|Hbad]]; try (done || lia).
    + (* an entry that ends where the removed range ends is kept whole *)
      destruct (remove_loop_spec (o + l + 1) lo hi rest s) as (ents' & s' & -> & _ & _ & _);
        [lia|lia|by right; split; [lia|]|done|done|].
      do 3 eexists. exists lo. split; [done|]. split; [lia|].
      cbn [app]. rewrite !covers_cons. intros [Hiff _]. destruct Hiff as [_ Hin].
      * left. split; cbn; lia.
      * apply Hin. split; lia.
  - (* the defect is further on *)
    repeat case_bool_decide; try contradiction; try lia;
      try (destruct Hcr; apply Hafter; lia);
      match goal with |- context [remove_loop lo hi rest ?s0] =>
        destruct (IH (o + l + 1) s0) as (ents' & d & s' & x & Hrun & Hx & Hbad);
          [lia|lia|lia|exact Hwf|exact Hcr|exact Hm|]
      end;
      rewrite Hrun; do 3 eexists; exists x; (split; [done|]); (split; [lia|]);
      cbn [app]; rewrite ?covers_cons;
      assert (~ ent_covers (Ent o l) x) by (intros Hc; apply ent_covers_below in Hc; lia);
      try assert (~ ent_covers (Ent o (lo - o)) x)
        by (intros Hc; apply ent_covers_below in Hc; lia);
      tauto.
Qed.

(** ** Claims *)

(** C32: inserting a finite range into a well-formed list succeeds, keeps the
    list well formed with an exact [size] and one block per entry, and makes
    it cover exactly the old bytes and the inserted ones, provided the range
    does not end beyond an entry that follows the first entry it touches. *)
Theorem insert_correct rl offset len s :
  wf rl -> 0 <= offset -> 0 < len -> offset + len <= INT64_MAX ->
  no_swallow offset (offset + len) (rl_head rl) -> malloc_ok s ->
  exists rl' s',
    globus_range_list_insert rl offset len s = Ok ((GLOBUS_SUCCESS, rl'), s') /\ wf rl' /\
    live s' - live s = rl_size rl' - rl_size rl /\
    forall x, covers (rl_head rl') x <->
              covers (rl_head rl) x \/ offset <= x < offset + len.
Proof.
  intros [Hwf Hsz] Ho Hl Hm Hns Hok. unfold globus_range_list_insert. zdecide.
  destruct (rl_head rl) as [|e ents] eqn:E; cbn in Hsz.
  - unfold mbind, cmd_bind. rewrite new_range_ent_run by done.
    exists (RL 1 [Ent offset len]), (after_malloc s). split; [done|]. cbn in *.
    split_and!; [split; [cbn; lia|done]|lia|]. intros x. cov.
  - destruct (insert_loop_spec 0 offset len (e :: ents) false s)
      as (ents' & s' & Hrun & Hwf' & Hlive & Hcov); [lia|lia|lia|done|by right|done|done|].
    unfold mbind, cmd_bind. rewrite range_end_run by lia.
    assert ((len =? GLOBUS_RANGE_LIST_MAX) = false) as -> by (unfold GLOBUS_RANGE_LIST_MAX; lia).
    cbn [lift]. rewrite Hrun. do 2 eexists. split; [done|]. cbn in *.
    split_and!; [split; [done|cbn in *; lia]|lia|done].
Qed.

Lemma insert_correct_witness :
  exists rl' s',
    globus_range_list_insert (RL 2 [Ent 0 10; Ent 20 10]) 5 20 (CMem 3 []) =
      Ok ((GLOBUS_SUCCESS, rl'), s') /\ wf rl' /\
    live s' - 3 = rl_size rl' - 2 /\
    forall x, covers (rl_head rl') x <->
              covers [Ent 0 10; Ent 20 10] x \/ 5 <= x < 5 + 20.
Proof.
  apply (insert_correct (RL 2 [Ent 0 10; Ent 20 10]) 5 20 (CMem 3 []));
    unfold INT64_MAX; try (cbn; lia); [split; [cbn; unfold INT64_MAX; lia|done]| |done].
  intros pre e next post Heq _ _. right.
  destruct pre as [|p1 [|p2 [|? ?]]]; cbn in Heq; simplify_eq. cbn. lia.
Defined.

(** [globus_range_list_insert] loses bytes when the inserted range touches
    an entry and ends beyond the entry after it: the byte at the end of that
    next entry was to be inserted and is not covered afterwards. *)
Theorem insert_swallow_loses n pre o l no nl post offset len s :
  wf_from 0 (pre ++ Ent o l :: Ent no nl :: post) ->
  0 <= offset -> 0 < len -> offset + len <= INT64_MAX ->
  Forall (fun p => re_offset p + re_length p < offset) pre ->
  o <= offset + len -> offset <= o + l ->
  nl <> GLOBUS_RANGE_LIST_MAX -> no + nl < offset + len ->
  exists rl' s',
    globus_range_list_insert (RL n (pre ++ Ent o l :: Ent no nl :: post)) offset len s =
      Ok ((GLOBUS_SUCCESS, rl'), s') /\
    offset <= no + nl < offset + len /\ ~ covers (rl_head rl') (no + nl).
Proof.
  intros Hwf Ho Hl Hm Hpre Hole Hle Hnl Hsw.
  apply wf_from_app in Hwf as [Hpre1 (lo' & Hlo' & Hwf & Hpre2)]; [|done].
  destruct Hwf as [? [[? ?]|(? & ? & Hwf)]]; [done|]. cbn in *.
  destruct Hwf as [? [[? ?]|(? & ? & Hwf)]]; [done|]. cbn in *.
  unfold globus_range_list_insert. zdecide. cbn [rl_head].
  destruct (pre ++ _) as [|e0 ents0] eqn:E; [by destruct pre|]. rewrite <- E. clear e0 ents0 E.
  unfold mbind, cmd_bind. rewrite range_end_run by lia.
  assert ((len =? GLOBUS_RANGE_LIST_MAX) = false) as -> by (unfold GLOBUS_RANGE_LIST_MAX; lia).
  cbn [lift]. rewrite insert_loop_skip by
    (try lia; apply Forall_forall; intros p Hp; rewrite Forall_forall in Hpre, Hpre1;
     specialize (Hpre p Hp); specialize (Hpre1 p Hp); cbn in *; lia).
  assert (insert_loop offset len (offset + len) (match pre with [] => false | _ => true end)
      (Ent o l :: Ent no nl :: post) s =
      Ok ((Ent (Z.min offset o) (no + nl - Z.min offset o) :: post, -1), after_free s)) as Hrun.
  { cbn [insert_loop re_offset re_length]. unfold mbind, cmd_bind.
    rewrite range_end_run by lia.
    assert ((l =? GLOBUS_RANGE_LIST_MAX) = false) as -> by (unfold GLOBUS_RANGE_LIST_MAX; lia).
    cbn [lift]. rewrite extend_ent_run by lia. cbn [lift].
    unfold absorb_next, mbind, cmd_bind, GLOBUS_RANGE_LIST_MAX in *. zdecide. cbn.
    zdecide. rewrite s64_ok by (unfold INT64_MIN; lia). cbn.
    rewrite s64_ok by (unfold INT64_MIN; lia). done. }
  rewrite Hrun. do 2 eexists. split; [done|]. split; [lia|]. cbn.
  rewrite covers_app, covers_cons. unfold GLOBUS_RANGE_LIST_MAX in *. intros [Hc|[Hc|Hc]].
  - apply Exists_exists in Hc as (p & Hin & Hp). rewrite Forall_forall in Hpre, Hpre1.
    specialize (Hpre p Hin). specialize (Hpre1 p Hin).
    unfold ent_covers, GLOBUS_RANGE_LIST_MAX in Hp. cbn in *. lia.
  - unfold ent_covers, GLOBUS_RANGE_LIST_MAX in Hc. cbn in Hc. lia.
  - apply (covers_lo _ _ _ Hwf) in Hc. lia.
Qed.

Lemma insert_swallow_loses_witness :
  exists rl' s',
    globus_range_list_insert (RL 3 [Ent 0 5; Ent 10 2; Ent 200 1]) 3 97 (CMem 4 []) =
      Ok ((GLOBUS_SUCCESS, rl'), s') /\
    3 <= 10 + 2 < 3 + 97 /\ ~ covers (rl_head rl') (10 + 2).
Proof.
  apply (insert_swallow_loses 3 [] 0 5 10 2 [Ent 200 1] 3 97 (CMem 4 []));
    unfold GLOBUS_RANGE_LIST_MAX, INT64_MAX; try lia; [cbn; unfold INT64_MAX; lia|constructor].
Defined.

(** Removing a range whose right end cuts every entry cleanly (or an
    open-ended range, whatever the entries) succeeds, keeps the list well formed
    with an exact [size] and one block per entry, and uncovers exactly the bytes
    of the range. *)
Theorem remove_correct rl offset len s :
  wf rl -> 0 <= offset <= INT64_MAX ->
  len = GLOBUS_RANGE_LIST_MAX \/
    (0 < len /\ offset + len <= INT64_MAX /\ all_clean offset (offset + len) (rl_head rl)) ->
  malloc_ok s ->
  exists rl' s',
    globus_range_list_remove rl offset len s = Ok ((GLOBUS_SUCCESS, rl'), s') /\ wf rl' /\
    live s' - live s = rl_size rl' - rl_size rl /\
    forall x, covers (rl_head rl') x <->
      covers (rl_head rl) x /\
      ~ (offset <= x /\ (len = GLOBUS_RANGE_LIST_MAX \/ x < offset + len)).
Proof.
  intros [Hwf Hsz] Ho Hlen Hok. unfold globus_range_list_remove, mbind, cmd_bind.
  assert (len <> 0) by (unfold GLOBUS_RANGE_LIST_MAX in *; lia). zdecide.
  rewrite range_end_run by (unfold GLOBUS_RANGE_LIST_MAX in *; lia). cbn [lift].
  destruct (Z.eqb_spec len GLOBUS_RANGE_LIST_MAX) as [->|Hne].
  - destruct (remove_loop_spec 0 offset GLOBUS_RANGE_LIST_MAX (rl_head rl) s)
      as (ents' & s' & -> & Hwf' & Hlive & Hcov); [lia|lia|by left|done|done|].
    do 2 eexists. split; [done|]. cbn. split; [split; [done|cbn; lia]|]. split; [lia|].
    intros x. rewrite Hcov. unfold in_range. tauto.
  - destruct Hlen as [?|(? & ? & ?)]; [done|].
    destruct (remove_loop_spec 0 offset (offset + len) (rl_head rl) s)
      as (ents' & s' & -> & Hwf' & Hlive & Hcov); [lia|lia|right; split; [lia|done]|done|done|].
    do 2 eexists. split; [done|]. cbn. split; [split; [done|cbn; lia]|]. split; [lia|].
    intros x. rewrite Hcov. unfold in_range, GLOBUS_RANGE_LIST_MAX in *. intuition lia.
Qed.

Lemma remove_correct_witness :
  exists rl' s',
    globus_range_list_remove (RL 3 [Ent 0 10; Ent 20 5; Ent 30 (-1)]) 5 30 (CMem 4 []) =
      Ok ((GLOBUS_SUCCESS, rl'), s') /\ wf rl' /\ live s' - 4 = rl_size rl' - 3 /\
    forall x, covers (rl_head rl') x <->
      covers [Ent 0 10; Ent 20 5; Ent 30 (-1)] x /\
      ~ (5 <= x /\ (30 = GLOBUS_RANGE_LIST_MAX \/ x < 5 + 30)).
Proof.
  apply (remove_correct (RL 3 [Ent 0 10; Ent 20 5; Ent 30 (-1)]) 5 30 (CMem 4 []));
    unfold INT64_MAX; [split; [cbn; unfold INT64_MAX, GLOBUS_RANGE_LIST_MAX; intuition lia|done]|lia| |done].
  right. split; [lia|]. split; [lia|]. apply (bool_decide_unpack _). vm_compute. exact I.
Defined.

(** When some entry is not cut cleanly, [globus_range_list_remove] still
    reports success but the bytes it leaves covered are not the old ones minus
    the removed ones. *)
Theorem remove_defect rl offset len s :
  wf rl -> 0 <= offset -> 0 < len -> offset + len <= INT64_MAX ->
  ~ all_clean offset (offset + len) (rl_head rl) -> malloc_ok s ->
  exists rl' s' x,
    globus_range_list_remove rl offset len s = Ok ((GLOBUS_SUCCESS, rl'), s') /\
    ~ (covers (rl_head rl') x <->
       covers (rl_head rl) x /\ ~ offset <= x < offset + len).
Proof.
  intros [Hwf Hsz] Ho Hl Hm Hnc Hok. unfold globus_range_list_remove, mbind, cmd_bind. zdecide.
  rewrite range_end_run by (unfold GLOBUS_RANGE_LIST_MAX in *; lia). cbn [lift].
  assert ((len =? GLOBUS_RANGE_LIST_MAX) = false) as -> by (unfold GLOBUS_RANGE_LIST_MAX; lia).
  destruct (remove_loop_defect 0 offset (offset + len) (rl_head rl) s)
    as (ents' & d & s' & x & -> & _ & Hbad); [lia|lia|lia|done|done|done|].
  do 2 eexists. exists x. split; [done|]. cbn. contradict Hbad. rewrite Hbad.
  unfold in_range, GLOBUS_RANGE_LIST_MAX. intuition lia.
Qed.

Lemma remove_defect_witness :
  exists rl' s' x,
    globus_range_list_remove (RL 1 [Ent 10 10]) 5 10 (CMem 2 []) =
      Ok ((GLOBUS_SUCCESS, rl'), s') /\
    ~ (covers (rl_head rl') x <-> covers [Ent 10 10] x /\ ~ 5 <= x < 5 + 10).
Proof.
  apply (remove_defect (RL 1 [Ent 10 10]) 5 10 (CMem 2 [])); unfold INT64_MAX; try lia;
    [split; [cbn; unfold INT64_MAX; lia|done]| |done].
  apply (bool_decide_unpack _). vm_compute. exact I.
Defined.

Lemma merge_destructive_run rl1 rl2 s :
  wf rl1 -> wf rl2 ->
  exists rc d s1 s2 s',
    globus_range_list_merge_destructive (Some rl1) (Some rl2) s = Ok ((rc, d, s1, s2), s') /\
    ((rc = GLOBUS_SUCCESS /\ s1 = Some (RL 0 []) /\ s2 = Some (RL 0 []) /\
      exists r, d = Some r /\ rl_size r = Z.of_nat (length (rl_head r)) /\
        live s' = live s + 1 + Z.of_nat (length (rl_head r))
                  - Z.of_nat (length (rl_head rl1)) - Z.of_nat (length (rl_head rl2))) \/
     (rc = -1 /\ d = None /\ s1 = Some rl1 /\ s2 = Some rl2 /\ live s' = live s /\
      plan s <> [])).
Proof.
  destruct rl1 as [n1 ents1], rl2 as [n2 ents2]. intros [Hwf1 Hsz1] [Hwf2 Hsz2].
  cbn in Hwf1, Hwf2, Hsz1, Hsz2. subst n1 n2.
  unfold globus_range_list_merge_destructive, globus_range_list_init, mbind, cmd_bind.
  destruct (decide (malloc_ok s)) as [Hm|Hm].
  2: { rewrite malloc_fail by done. cbn. do 5 eexists. split; [done|]. right.
       split_and!; try done. intros E. apply Hm. unfold malloc_ok. by rewrite E. }
  rewrite malloc_run by done. cbn.
  apply wf_from_chain in Hwf1 as Hc1, Hwf2 as Hc2; [|lia..].
  destruct ents1 as [|[o1 l1] t1], ents2 as [|[o2 l2] t2]; cbn [length].
  1-3: (do 5 eexists; split; [done|]; left; split_and!; [done..|]; eexists; split; [done|];
        cbn; split; lia).
  cbn [re_offset]. destruct (Z.leb_spec o1 o2).
  - destruct (merge_loop_total (Ent o1 l1 :: t1) (Ent o2 l2 :: t2) (Ent o1 l1) t1
      (Z.of_nat (S (length t2))) (after_malloc s)) as (ents & inc & s' & Hrun); [done|done| |].
    { destruct Hc2 as (? & ? & ?). split_and!; (done || cbn; lia). }
    rewrite Hrun. do 5 eexists. split; [done|]. left. split_and!; [done..|].
    apply merge_loop_count in Hrun as (? & ? & ?).
    eexists. split; [done|]. cbn in *. split; lia.
  - destruct (merge_loop_total (Ent o2 l2 :: t2) (Ent o1 l1 :: t1) (Ent o2 l2) t2
      (Z.of_nat (S (length t1))) (after_malloc s)) as (ents & inc & s' & Hrun); [done|done| |].
    { destruct Hc1 as (? & ? & ?). split_and!; (done || cbn; lia). }
    rewrite Hrun. do 5 eexists. split; [done|]. left. split_and!; [done..|].
    apply merge_loop_count in Hrun as (? & ? & ?).
    eexists. split; [done|]. cbn in *. split; lia.
Qed.

(** Merging two well-formed lists never dereferences NULL, overflows or
    fails an assertion, whatever allocations fail. On success the result's
    [size] is exact and the only blocks left allocated are the result's; on
    failure every block is freed and an allocation did fail. *)
Theorem merge_total rl1 rl2 s :
  wf rl1 -> wf rl2 ->
  exists rc d s',
    globus_range_list_merge (Some rl1) (Some rl2) s = Ok ((rc, d), s') /\
    ((rc = GLOBUS_SUCCESS /\ exists r, d = Some r /\
      rl_size r = Z.of_nat (length (rl_head r)) /\
      live s' = live s + 1 + Z.of_nat (length (rl_head r))) \/
     (rc = -1 /\ d = None /\ live s' = live s /\ plan s <> [])).
Proof.
  intros Hwf1 Hwf2. unfold globus_range_list_merge, mbind, cmd_bind.
  destruct (copy_run rl1 s) as (rc1 & d1 & s1 & -> & [(-> & -> & Hl1 & Hp1)|(-> & -> & ? & ?)]).
  2: { cbn. do 3 eexists. split; [done|]. right. done. }
  cbn. destruct (copy_run rl2 s1) as (rc2 & d2 & s2 & -> & [(-> & -> & Hl2 & Hp2)|(-> & -> & ? & ?)]).
  2: { pose proof (destroy_run rl1 s2) as Hd. cbn in Hd |- *. rewrite Hd.
       do 3 eexists. split; [done|]. right. cbn. split_and!; [done..|lia|]. auto. }
  cbn. destruct (merge_destructive_run rl1 rl2 s2)
    as (rc & d & s3 & s4 & s5 & -> & [(-> & -> & -> & r & -> & Hr & Hl)|(-> & -> & -> & -> & Hl & Hp)]);
    [done..| |].
  - cbn. do 3 eexists. split; [done|]. left. split; [done|]. exists r. cbn. split_and!; [done..|lia].
  - pose proof (destroy_run rl2 s5) as Hd2. cbn in Hd2 |- *. rewrite Hd2.
    pose proof (destroy_run rl1) as Hd1. cbn in Hd1. rewrite Hd1. cbn.
    do 3 eexists. split; [done|]. right. cbn. split_and!; [done..|lia|auto].
Qed.

Lemma merge_total_witness :
  exists rc d s',
    globus_range_list_merge (Some (RL 1 [Ent 0 10])) (Some (RL 2 [Ent 5 10; Ent 40 2]))
      (CMem 5 [true; true; true; true; false]) = Ok ((rc, d), s') /\
    ((rc = GLOBUS_SUCCESS /\ exists r, d = Some r /\
      rl_size r = Z.of_nat (length (rl_head r)) /\
      live s' = 5 + 1 + Z.of_nat (length (rl_head r))) \/
     (rc = -1 /\ d = None /\ live s' = 5 /\ [true; true; true; true; false] <> [])).
Proof.
  apply (merge_total (RL 1 [Ent 0 10]) (RL 2 [Ent 5 10; Ent 40 2])
    (CMem 5 [true; true; true; true; false]));
    (split; [cbn; unfold INT64_MAX; lia|done]).
Defined.

(** Merging two well-formed lists of which no two ranges overlap or abut
    gives a well-formed list that covers the union of their bytes. *)
Theorem merge_separate rl1 rl2 s :
  wf rl1 -> wf rl2 -> plan s = [] ->
  (forall e1 e2, e1 ∈ rl_head rl1 -> e2 ∈ rl_head rl2 -> separate e1 e2) ->
  exists r s',
    globus_range_list_merge (Some rl1) (Some rl2) s = Ok ((GLOBUS_SUCCESS, Some r), s') /\
    wf r /\
    forall x, covers (rl_head r) x <-> covers (rl_head rl1) x \/ covers (rl_head rl2) x.
Proof.
  intros Hwf1 Hwf2 Hp Hsep. unfold globus_range_list_merge, mbind, cmd_bind.
  destruct (copy_run rl1 s) as (rc1 & d1 & s1 & -> & [(-> & -> & Hl1 & Hp1)|(_ & _ & _ & ?)]);
    [|done]. cbn. specialize (Hp1 Hp).
  destruct (copy_run rl2 s1) as (rc2 & d2 & s2 & -> & [(-> & -> & Hl2 & Hp2)|(_ & _ & _ & ?)]);
    [|done]. cbn. specialize (Hp2 Hp1).
  destruct rl1 as [n1 ents1], rl2 as [n2 ents2].
  destruct Hwf1 as [Hwf1 Hsz1], Hwf2 as [Hwf2 Hsz2]. cbn in Hwf1, Hwf2, Hsz1, Hsz2, Hsep. subst n1 n2.
  unfold globus_range_list_merge_destructive, globus_range_list_init, mbind, cmd_bind.
  rewrite malloc_run by (unfold malloc_ok; by rewrite Hp2). cbn.
  destruct ents1 as [|[o1 l1] t1], ents2 as [|[o2 l2] t2]; cbn [length].
  1-3: (do 2 eexists; split; [done|]; split; [done|]; intros x; cbn [rl_head];
        rewrite ?covers_nil; tauto).
  cbn [re_offset]. destruct (Z.leb_spec o1 o2).
  - destruct (merge_loop_separate 0 (Ent o1 l1 :: t1) (Ent o2 l2 :: t2)
      (Z.of_nat (S (length t2))) (after_malloc s2)) as (ents & inc & Hrun & Hwf & Hcov);
      [lia|done|done| | |].
    { intros e1 e2 H1 H2. destruct (Hsep e1 e2 H1 H2); [by right|by left]. }
    { intros e2 t' [= <- <-]. do 2 eexists. split; [done|]. cbn. lia. }
    rewrite Hrun. apply merge_loop_count in Hrun as (? & _ & _).
    do 2 eexists. split; [done|]. cbn in *. split; [split; [done|cbn; lia]|]. done.
  - destruct (merge_loop_separate 0 (Ent o2 l2 :: t2) (Ent o1 l1 :: t1)
      (Z.of_nat (S (length t1))) (after_malloc s2)) as (ents & inc & Hrun & Hwf & Hcov);
      [lia|done|done| | |].
    { intros e1 e2 H1 H2. destruct (Hsep e2 e1 H2 H1); [by left|by right]. }
    { intros e2 t' [= <- <-]. do 2 eexists. split; [done|]. cbn. lia. }
    rewrite Hrun. apply merge_loop_count in Hrun as (? & _ & _).
    do 2 eexists. split; [done|]. cbn in *. split; [split; [done|cbn; lia]|].
    intros x. rewrite Hcov. tauto.
Qed.

Lemma merge_separate_witness :
  exists r s',
    globus_range_list_merge (Some (RL 2 [Ent 0 5; Ent 30 (-1)])) (Some (RL 1 [Ent 10 5]))
      (CMem 0 []) = Ok ((GLOBUS_SUCCESS, Some r), s') /\ wf r /\
    forall x, covers (rl_head r) x <->
              covers [Ent 0 5; Ent 30 (-1)] x \/ covers [Ent 10 5] x.
Proof.
  apply (merge_separate (RL 2 [Ent 0 5; Ent 30 (-1)]) (RL 1 [Ent 10 5]) (CMem 0 []));
    [split; [cbn; unfold INT64_MAX, GLOBUS_RANGE_LIST_MAX; intuition lia|done]..|done|].
  intros e1 e2 H1 H2. cbn in H1, H2.
  repeat (apply elem_of_cons in H1 as [->|H1] || apply elem_of_cons in H2 as [->|H2]
          || apply elem_of_nil in H1 as [] || apply elem_of_nil in H2 as []);
    unfold separate, before, GLOBUS_RANGE_LIST_MAX; cbn; lia.
Defined.
End RangeList.
