(* ===== verification/PriorityQ.v ===== *)
(** * Priority queues (common/source/library/globus_priority_q.c)

    A binary heap in an array of pointers to entries. Slot 0 is unused, slots 1
    to [next_slot - 1] are in use, the array has [max_len] slots and grows by
    chunks of 100. Entries live in a store indexed by address and are drawn from
    a node pool ([NodePool], implemented by Memory.v); the comparison function
    given to [globus_priority_q_init] is a section variable, as is the type of
    priorities. The callback scheduler orders its timed callbacks with this
    queue. Indices are naturals: the code's ints never go below zero. *)
From S2P Require Import Prelude.
From S2P Require Import Memory.
From Stdlib Require Import Permutation Sorted.
Local Open Scope nat_scope.

Module PriorityQ.

Definition GLOBUS_L_PRIORITY_Q_CHUNK_SIZE : nat := 100.
Definition GLOBUS_L_PRIORITY_Q_TOP_SLOT : nat := 1.

Section Defs.
Context {Pr D : Type} `{EqDecision D} (cmp_func : Pr -> Pr -> Z).
Context {Pool : Type} `{NodePool Pool}.

Record entry := Entry { priority : Pr; datum : D }.

Record priority_q := PQ {
  heap : list ptr;              (** the array; None is an unset slot *)
  next_slot : nat;
  max_len : nat;
  entries : gmap loc entry;     (** the entry at each address *)
  memory : Pool;
}.

(** [heap[i]] as a valid pointer, and [heap[i]->priority]. *)
Definition slot (h : list ptr) (i : nat) : result loc :=
  match h !! i with
  | None => Fault OutOfBounds
  | Some p => deref p
  end.

Definition entry_at (es : gmap loc entry) (h : list ptr) (i : nat) : result entry :=
  l ← slot h i; deref (es !! l).

(** [heap[i] = p] *)
Definition set_slot (h : list ptr) (i : nat) (l : loc) : result (list ptr) :=
  if i <? length h then Ok (<[i := Some l]> h) else Fault OutOfBounds.

Fixpoint percolate_up_loop (fuel : nat) (es : gmap loc entry) (h : list ptr)
    (hole : nat) (p : Pr) : result (list ptr * nat) :=
  match fuel with
  | O => Fault OutOfFuel
  | S fuel =>
      if GLOBUS_L_PRIORITY_Q_TOP_SLOT <? hole then
        parent ← entry_at es h (hole / 2);
        if (0 <? cmp_func (priority parent) p)%Z then
          l ← slot h (hole / 2);
          h' ← set_slot h hole l;
          percolate_up_loop fuel es h' (hole / 2) p
        else Ok (h, hole)
      else Ok (h, hole)
  end.

(** The loop halves [hole], so [hole] iterations are enough. *)
Definition globus_l_priority_q_percolate_up (es : gmap loc entry) (h : list ptr)
    (hole : nat) (p : Pr) : result (list ptr * nat) :=
  percolate_up_loop (S hole) es h hole p.

Fixpoint percolate_down_loop (fuel : nat) (es : gmap loc entry) (h : list ptr)
    (last_slot hole child : nat) (p : Pr) : result (list ptr * nat) :=
  match fuel with
  | O => Fault OutOfFuel
  | S fuel =>
      if child <=? last_slot then
        child ← (if negb (child =? last_slot) then
                   left ← entry_at es h child;
                   right ← entry_at es h (child + 1);
                   Ok (if (0 <? cmp_func (priority left) (priority right))%Z
                       then child + 1 else child)
                 else Ok child);
        c ← entry_at es h child;
        if (0 <? cmp_func p (priority c))%Z then
          l ← slot h child;
          h' ← set_slot h hole l;
          percolate_down_loop fuel es h' last_slot child (child * 2) p
        else Ok (h, hole)
      else Ok (h, hole)
  end.

(** The loop at least doubles [hole], so [next_slot] iterations are enough. *)
Definition globus_l_priority_q_percolate_down (es : gmap loc entry) (h : list ptr)
    (next_slot hole : nat) (p : Pr) : result (list ptr * nat) :=
  percolate_down_loop (S next_slot) es h (next_slot - 1) hole (hole * 2) p.

(** [malloc_result] is whether the array is allocated, [pool] the result of
    [globus_memory_init]. *)
Definition globus_priority_q_init (malloc_result : bool) (pool : option Pool) :
    Z * option priority_q :=
  if malloc_result then
    match pool with
    | None => (GLOBUS_FAILURE, None)
    | Some mem =>
        (GLOBUS_SUCCESS,
         Some (PQ (replicate GLOBUS_L_PRIORITY_Q_CHUNK_SIZE None)
                  GLOBUS_L_PRIORITY_Q_TOP_SLOT GLOBUS_L_PRIORITY_Q_CHUNK_SIZE ∅ mem))
    end
  else (GLOBUS_FAILURE, None).

(** The loop of [destroy]: push the entries of slots [i] down to 1. *)
Fixpoint push_entries (h : list ptr) (i : nat) (mem : Pool) : result Pool :=
  match i with
  | O => Ok mem
  | S i' => l ← slot h (GLOBUS_L_PRIORITY_Q_TOP_SLOT + i'); push_entries h i' (np_push l mem)
  end.

(** The status and the pool that [globus_memory_destroy] is called on. *)
Definition globus_priority_q_destroy (q : option priority_q) : result (Z * option Pool) :=
  match q with
  | None => Ok (GLOBUS_FAILURE, None)
  | Some q =>
      mem ← push_entries (heap q) (next_slot q - GLOBUS_L_PRIORITY_Q_TOP_SLOT) (memory q);
      Ok (GLOBUS_SUCCESS, Some mem)
  end.

Definition globus_priority_q_empty (q : option priority_q) : bool :=
  match q with
  | None => false
  | Some q => next_slot q =? GLOBUS_L_PRIORITY_Q_TOP_SLOT
  end.

Definition globus_priority_q_size (q : option priority_q) : Z :=
  match q with
  | None => GLOBUS_FAILURE
  | Some q => Z.of_nat (next_slot q - GLOBUS_L_PRIORITY_Q_TOP_SLOT)
  end.

(** [realloc_result] is whether [globus_libc_realloc] succeeds, if called. *)
Definition globus_priority_q_enqueue (q : option priority_q) (d : D) (p : Pr)
    (realloc_result : bool) : result (Z * option priority_q) :=
  match q with
  | None => Ok (GLOBUS_FAILURE, None)
  | Some q =>
      if (next_slot q =? max_len q) && negb realloc_result then Ok (GLOBUS_FAILURE, Some q)
      else
        let q := if next_slot q =? max_len q
                 then PQ (heap q ++ replicate GLOBUS_L_PRIORITY_Q_CHUNK_SIZE None)
                         (next_slot q) (max_len q + GLOBUS_L_PRIORITY_Q_CHUNK_SIZE)
                         (entries q) (memory q)
                 else q in
        '(p_entry, mem) ← np_pop (memory q);
        match p_entry with
        | None => Ok (GLOBUS_FAILURE, Some (PQ (heap q) (next_slot q) (max_len q) (entries q) mem))
        | Some new_entry =>
            let es := <[new_entry := Entry p d]> (entries q) in
            '(h, hole) ← globus_l_priority_q_percolate_up es (heap q) (next_slot q) p;
            h' ← set_slot h hole new_entry;
            Ok (GLOBUS_SUCCESS, Some (PQ h' (next_slot q + 1) (max_len q) es mem))
        end
  end.

(** Returning an entry to the pool frees it. *)
Definition globus_priority_q_dequeue (q : option priority_q) :
    result (option D * option priority_q) :=
  match q with
  | None => Ok (None, None)
  | Some q =>
      if next_slot q =? GLOBUS_L_PRIORITY_Q_TOP_SLOT then Ok (None, Some q)
      else
        l ← slot (heap q) GLOBUS_L_PRIORITY_Q_TOP_SLOT;
        e ← deref (entries q !! l);
        let es := delete l (entries q) in
        let mem := np_push l (memory q) in
        let last := next_slot q - 1 in
        if GLOBUS_L_PRIORITY_Q_TOP_SLOT <? last then
          le ← slot (heap q) last;
          ent ← deref (es !! le);
          '(h, hole) ← globus_l_priority_q_percolate_down es (heap q) last
                         GLOBUS_L_PRIORITY_Q_TOP_SLOT (priority ent);
          h' ← set_slot h hole le;
          Ok (Some (datum e), Some (PQ h' last (max_len q) es mem))
        else Ok (Some (datum e), Some (PQ (heap q) last (max_len q) es mem))
  end.

Definition globus_priority_q_first (q : option priority_q) : result (option D) :=
  match q with
  | None => Ok None
  | Some q =>
      if next_slot q =? GLOBUS_L_PRIORITY_Q_TOP_SLOT then Ok None
      else e ← entry_at (entries q) (heap q) GLOBUS_L_PRIORITY_Q_TOP_SLOT;
           Ok (Some (datum e))
  end.

Definition globus_priority_q_first_priority (q : option priority_q) : result (option Pr) :=
  match q with
  | None => Ok None
  | Some q =>
      if next_slot q =? GLOBUS_L_PRIORITY_Q_TOP_SLOT then Ok None
      else e ← entry_at (entries q) (heap q) GLOBUS_L_PRIORITY_Q_TOP_SLOT;
           Ok (Some (priority e))
  end.

(** The search loop of [remove] and [modify]: the first slot, in array order,
    whose datum is [d]. [n] slots are left to look at. *)
Fixpoint find_datum (n : nat) (es : gmap loc entry) (h : list ptr) (hole : nat) (d : D) :
    result (option (nat * loc)) :=
  match n with
  | O => Ok None
  | S n =>
      l ← slot h hole;
      e ← deref (es !! l);
      if decide (datum e = d) then Ok (Some (hole, l)) else find_datum n es h (hole + 1) d
  end.

Definition globus_priority_q_remove (q : option priority_q) (d : D) :
    result (option D * option priority_q) :=
  match q with
  | None => Ok (None, None)
  | Some q =>
      found ← find_datum (next_slot q - 1) (entries q) (heap q)
                GLOBUS_L_PRIORITY_Q_TOP_SLOT d;
      match found with
      | None => Ok (None, Some q)
      | Some (hole, l) =>
          e ← deref (entries q !! l);
          let old_priority := priority e in
          let es := delete l (entries q) in
          let mem := np_push l (memory q) in
          let last := next_slot q - 1 in
          if negb (last =? hole) then
            le ← slot (heap q) last;
            ent ← deref (es !! le);
            let new_priority := priority ent in
            '(h, hole) ← (if (0 <? cmp_func new_priority old_priority)%Z
                          then globus_l_priority_q_percolate_down es (heap q) last hole
                                 new_priority
                          else globus_l_priority_q_percolate_up es (heap q) hole
                                 new_priority);
            h' ← set_slot h hole le;
            Ok (Some d, Some (PQ h' last (max_len q) es mem))
          else Ok (Some d, Some (PQ (heap q) last (max_len q) es mem))
      end
  end.

Definition globus_priority_q_modify (q : option priority_q) (d : D) (new_priority : Pr) :
    result (option Pr * option priority_q) :=
  match q with
  | None => Ok (None, None)
  | Some q =>
      found ← find_datum (next_slot q - 1) (entries q) (heap q)
                GLOBUS_L_PRIORITY_Q_TOP_SLOT d;
      match found with
      | None => Ok (None, Some q)
      | Some (hole, l) =>
          e ← deref (entries q !! l);
          let es := <[l := Entry new_priority (datum e)]> (entries q) in
          '(h, hole) ← globus_l_priority_q_percolate_down es (heap q) (next_slot q) hole
                         new_priority;
          '(h, hole) ← globus_l_priority_q_percolate_up es h hole new_priority;
          h' ← set_slot h hole l;
          Ok (Some (priority e), Some (PQ h' (next_slot q) (max_len q) es (memory q)))
      end
  end.
End Defs.


(** ** Order

    What the comparison function must satisfy: a total preorder. *)
Class CmpOrder {Pr} (cmp_func : Pr -> Pr -> Z) : Prop := {
  cmp_total a b : (cmp_func a b <= 0 \/ cmp_func b a <= 0)%Z;
  cmp_trans a b c : (cmp_func a b <= 0 -> cmp_func b c <= 0 -> cmp_func a c <= 0)%Z;
}.

Section Order.
Context {Pr D : Type} (cmp_func : Pr -> Pr -> Z) `{!CmpOrder cmp_func}.
Implicit Types K : nat -> option (@entry Pr D).

(** A heap as the entry in each slot: [K i]. The order between two slots, and
    the heap order on slots 1 to [n]. *)
Definition ple K (i j : nat) : Prop :=
  forall a b, K i = Some a -> K j = Some b ->
    (cmp_func (priority a) (priority b) <= 0)%Z.

Definition ordered n K : Prop := forall i, 2 <= i <= n -> ple K (i / 2) i.

Definition full n K : Prop := forall i, 1 <= i <= n -> is_Some (K i).

(** Ordered but for the edges at slot [h]; around [h] the order still holds. *)
Definition ordered_but n K h : Prop :=
  (forall i, 2 <= i <= n -> i <> h -> i / 2 <> h -> ple K (i / 2) i) /\
  (2 <= h -> forall c, c <= n -> c / 2 = h -> ple K (h / 2) c).

Definition children_ok n K h : Prop := forall c, c <= n -> c / 2 = h -> ple K h c.

(** [K'] is [K] with slots [i] and [j] exchanged. *)
Definition swapped K K' i j : Prop :=
  K' i = K j /\ K' j = K i /\ forall k, k <> i -> k <> j -> K' k = K k.

Lemma swapped_full n K K' i j :
  swapped K K' i j -> full n K -> 1 <= i <= n -> 1 <= j <= n -> full n K'.
Proof.
  intros (Hi & Hj & Ho) Hf ?? k Hk.
  destruct (decide (k = i)) as [->|]; [rewrite Hi; by apply Hf|].
  destruct (decide (k = j)) as [->|]; [rewrite Hj; by apply Hf|].
  rewrite Ho by done. by apply Hf.
Qed.

Lemma swapped_sym K K' i j : swapped K K' i j -> swapped K K' j i.
Proof. intros (? & ? & Ho). split_and!; auto. Qed.

Lemma cmp_gt a b : (0 < cmp_func a b -> cmp_func b a <= 0)%Z.
Proof. destruct (cmp_total a b); lia. Qed.

Lemma ple_trans K i j k : is_Some (K j) -> ple K i j -> ple K j k -> ple K i k.
Proof. intros [b Hb] H1 H2 a c Ha Hc. eapply cmp_trans; eauto. Qed.

Lemma half_lt h : 2 <= h -> 1 <= h / 2 < h.
Proof. intros. pose proof (Nat.div_mod_eq h 2). pose proof (Nat.mod_upper_bound h 2). lia. Qed.

Lemma half_children c h : c / 2 = h <-> c = 2 * h \/ c = 2 * h + 1.
Proof.
  pose proof (Nat.div_mod_eq c 2). pose proof (Nat.mod_upper_bound c 2). lia.
Qed.

(** Moving the hole up one level. *)
Lemma sift_up_step n K K' h e :
  2 <= h <= n -> full n K -> ordered_but n K h -> children_ok n K h ->
  K h = Some e -> (forall a, K (h / 2) = Some a -> (0 < cmp_func (priority a) (priority e))%Z) ->
  swapped K K' (h / 2) h ->
  ordered_but n K' (h / 2) /\ children_ok n K' (h / 2).
Proof.
  intros Hh Hf [Hob Hgp] Hch He Hgt (Hp & Hhh & Ho).
  pose proof (half_lt h ltac:(lia)) as Hhalf. set (p := h / 2) in *.
  assert (forall x, K' p = Some x -> x = e) as HKp by (rewrite Hp, He; congruence).
  assert (Hpf : is_Some (K p)) by (apply Hf; lia).
  assert (Hle : forall b, K p = Some b -> (cmp_func (priority e) (priority b) <= 0)%Z)
    by (intros b Hb; apply cmp_gt; auto).
  assert (Hsib : forall c, c <= n -> c / 2 = p -> c <> h -> ple K p c).
  { intros c Hc Hcp Hne a b Ha Hb. eapply (Hob c); [..|exact Hb].
    - apply half_children in Hcp. lia.
    - done.
    - rewrite Hcp. lia.
    - by rewrite Hcp. }
  repeat split.
  - intros i Hi Hne Hne2. destruct (decide (i = h)) as [->|Hih]; [done|].
    destruct (decide (i / 2 = h)) as [Hih2|Hih2].
    + (* children of the old hole, now under its old parent *)
      rewrite Hih2. intros a b. rewrite Hhh, (Ho i) by done. apply Hgp; [lia|lia|done].
    + intros a b. rewrite !Ho by done. apply Hob; done.
  - intros Hp2 c Hc Hcp. pose proof (half_lt p Hp2) as Hpp.
    assert (ple K (p / 2) p) as Hup by (apply Hob; lia).
    assert (forall a, K' (p / 2) = Some a -> K (p / 2) = Some a) as Hpp'
      by (intros a; rewrite Ho by lia; done).
    intros a b Ha Hb. apply Hpp' in Ha. destruct (decide (c = h)) as [->|Hne].
    + rewrite Hhh in Hb. eapply Hup; eauto.
    + rewrite Ho in Hb by (try done; intros ->; lia).
      eapply (ple_trans K (p / 2) p c); eauto.
  - intros c Hc Hcp a b Ha Hb. apply HKp in Ha as ->. apply half_children in Hcp as Hcp'.
    destruct (decide (c = h)) as [->|Hne].
    + rewrite Hhh in Hb. auto.
    + rewrite Ho in Hb by lia.
      destruct Hpf as [x Hx]. eapply cmp_trans; [by apply Hle|]. eapply Hsib; eauto.
Qed.

(** Moving the hole down to its smaller child [c]. *)
Lemma sift_down_step n K K' h c e x :
  1 <= h -> c <= n -> c / 2 = h -> full n K -> ordered_but n K h ->
  K h = Some e -> K c = Some x -> (0 < cmp_func (priority e) (priority x))%Z ->
  (forall c', c' <= n -> c' / 2 = h -> ple K c c') ->
  swapped K K' h c ->
  ordered_but n K' c /\ ple K' h c.
Proof.
  intros Hh Hc Hch Hf [Hob Hgp] He Hx Hgt Hmin (H1 & H2 & Ho).
  apply half_children in Hch as Hcc.
  repeat split.
  - intros i Hi Hne Hne2. destruct (decide (i = h)) as [->|Hih].
    + pose proof (half_lt h ltac:(lia)) as Hhalf.
      intros a b. rewrite H1, (Ho (h / 2)) by lia. apply Hgp; (done || lia).
    + destruct (decide (i / 2 = h)) as [Hih2|Hih2].
      * rewrite Hih2. intros a b. rewrite H1, Ho by done. apply Hmin; [lia|done].
      * intros a b. rewrite !Ho by done. apply Hob; done.
  - intros _ d Hd Hdc. rewrite Hch. apply half_children in Hdc as Hdc'.
    intros a b. rewrite H1, Ho by lia. intros Ha Hb.
    refine (Hob d _ _ _ a b _ Hb); rewrite ?Hdc; (done || lia).
  - intros a b. rewrite H1, H2, He, Hx. intros [= <-] [= <-]. by apply cmp_gt.
Qed.

(** An element above which the order holds is below the whole heap. *)
Lemma ordered_top n K i :
  full n K -> ordered n K -> 1 <= i <= n -> ple K 1 i.
Proof.
  intros Hf Ho. induction i as [i IH] using (well_founded_induction Nat.lt_wf_0). intros Hi.
  destruct (decide (i = 1)) as [->|Hne].
  - intros a b -> [= ->]. destruct (cmp_total (priority b) (priority b)); done.
  - pose proof (half_lt i ltac:(lia)) as Hhalf.
    eapply (ple_trans K 1 (i / 2)); [apply Hf; lia|apply IH; lia|apply Ho; lia].
Qed.

(** Replacing the entry at [h] leaves the order around it. *)
Lemma ordered_replace n n' K K' h old :
  ordered n K -> n' <= n -> 1 <= h <= n -> K h = Some old ->
  (forall k, k <> h -> 1 <= k <= n' -> K' k = K k) ->
  ordered_but n' K' h /\
  (forall c a, c <= n' -> c / 2 = h -> K' c = Some a ->
     (cmp_func (priority old) (priority a) <= 0)%Z) /\
  (forall a, h <= n' -> 2 <= h -> K' (h / 2) = Some a ->
     (cmp_func (priority a) (priority old) <= 0)%Z).
Proof.
  intros Ho Hn Hh Hold HK.
  assert (forall c a, c <= n' -> c / 2 = h -> K' c = Some a ->
            (cmp_func (priority old) (priority a) <= 0)%Z) as Hc.
  { intros c a Hc Hch Ha. apply half_children in Hch as Hc2. rewrite HK in Ha by lia.
    specialize (Ho c ltac:(lia)). rewrite Hch in Ho. eauto. }
  assert (forall a, 2 <= h -> K (h / 2) = Some a ->
            (cmp_func (priority a) (priority old) <= 0)%Z) as Hp.
  { intros a H2 Ha. apply (Ho h ltac:(lia)); done. }
  split_and!; [split| |].
  - intros i Hi Hih Hih2 a b. pose proof (half_lt i ltac:(lia)). rewrite !HK by lia. apply Ho. lia.
  - intros H2 c Hcn Hch a b Ha Hb. pose proof (half_lt h H2).
    apply half_children in Hch as Hc2. eapply cmp_trans; [apply Hp; [done|]|by eapply Hc].
    rewrite <- HK; [done|lia..].
  - exact Hc.
  - intros a Hhn H2 Ha. pose proof (half_lt h H2). apply Hp; [done|]. rewrite <- HK; [done|lia..].
Qed.

Lemma ordered_but_done n K h :
  ordered_but n K h -> children_ok n K h -> (2 <= h -> ple K (h / 2) h) -> ordered n K.
Proof.
  intros [Hob _] Hch Hp i Hi. destruct (decide (i = h)) as [->|Hne]; [apply Hp; lia|].
  destruct (decide (i / 2 = h)) as [<-|Hne2]; [apply Hch; [lia|done]|by apply Hob].
Qed.
End Order.

(** ** The percolation loops on the array *)

Section Loops.
Context {Pr D : Type} (cmp_func : Pr -> Pr -> Z) `{!CmpOrder cmp_func}.
Implicit Types (es : gmap loc (@entry Pr D)) (h : list ptr).

(** The entry in each slot of an array. *)
Definition keys es h (i : nat) : option entry :=
  match h !! i with Some (Some l) => es !! l | _ => None end.

Lemma keys_insert es h i l :
  i < length h -> keys es (<[i := Some l]> h) i = es !! l.
Proof. intros. unfold keys. by rewrite list_lookup_insert_eq. Qed.

Lemma keys_insert_ne es h i j p :
  i <> j -> keys es (<[i := p]> h) j = keys es h j.
Proof. intros. unfold keys. by rewrite list_lookup_insert_ne. Qed.

Lemma keys_slot es h i e :
  keys es h i = Some e -> exists l, h !! i = Some (Some l) /\ es !! l = Some e.
Proof. unfold keys. destruct (h !! i) as [[l|]|]; naive_solver. Qed.

Lemma entry_at_run es h i e : keys es h i = Some e -> entry_at es h i = Ok e.
Proof.
  intros (l & Hl & He)%keys_slot. unfold entry_at, slot, mbind, result_bind.
  by rewrite Hl; cbn; rewrite He.
Qed.

Lemma slot_run h i l : h !! i = Some (Some l) -> slot h i = Ok l.
Proof. unfold slot. by intros ->. Qed.

Lemma set_slot_run h i l : i < length h -> set_slot h i l = Ok (<[i := Some l]> h).
Proof. unfold set_slot. by intros ->%Nat.ltb_lt. Qed.

(** Copying slot [j] into the hole at [i] exchanges the two slots of the array
    with the pending entry [l] placed in the hole. *)
Lemma move_hole es h i j l k :
  i < length h -> i <> j -> h !! j = Some (Some k) ->
  let A := <[i := Some l]> h in
  let A' := <[j := Some l]> (<[i := Some k]> h) in
  A' ≡ₚ A /\ swapped (keys es A) (keys es A') j i /\
  forall m, m <> i -> m <> j -> A' !! m = A !! m.
Proof.
  intros Hi Hne Hj A A'. apply lookup_lt_Some in Hj as Hjl.
  assert (A' = <[j := Some l]> (<[i := Some k]> A)) as E.
  { subst A A'. by rewrite list_insert_insert_eq. }
  split_and!.
  - rewrite E. apply swap_Permutation; subst A.
    + by rewrite list_lookup_insert_ne.
    + by apply list_lookup_insert_eq.
  - split_and!; subst A A'.
    + rewrite !keys_insert by (rewrite ?length_insert; lia). done.
    + rewrite keys_insert_ne, keys_insert, keys_insert_ne by done.
      unfold keys. by rewrite Hj.
    + intros m ??. by rewrite !keys_insert_ne.
  - intros m ??. subst A A'. by rewrite !list_lookup_insert_ne.
Qed.

Lemma percolate_up_spec fuel es n h hole l e :
  1 <= hole <= n -> n < length h -> hole < fuel -> es !! l = Some e ->
  full n (keys es (<[hole := Some l]> h)) ->
  ordered_but cmp_func n (keys es (<[hole := Some l]> h)) hole ->
  children_ok cmp_func n (keys es (<[hole := Some l]> h)) hole ->
  exists h' hole',
    percolate_up_loop cmp_func fuel es h hole (priority e) = Ok (h', hole') /\
    1 <= hole' <= n /\ length h' = length h /\
    <[hole' := Some l]> h' ≡ₚ <[hole := Some l]> h /\
    ordered cmp_func n (keys es (<[hole' := Some l]> h')) /\
    forall i, ~ (1 <= i <= n) -> <[hole' := Some l]> h' !! i = <[hole := Some l]> h !! i.
Proof.
  revert h hole. induction fuel as [|fuel IH]; intros h hole Hhole Hlen Hfuel He Hf Hob Hch; [lia|].
  cbn [percolate_up_loop]. unfold GLOBUS_L_PRIORITY_Q_TOP_SLOT.
  destruct (Nat.ltb_spec 1 hole) as [H2|H2].
  2: { exists h, hole. split_and!; try done; try lia.
       eapply ordered_but_done; eauto. lia. }
  pose proof (half_lt hole ltac:(lia)) as Hhalf.
  destruct (Hf (hole / 2)) as [a Ha]; [lia|].
  rewrite keys_insert_ne in Ha by lia. unfold mbind, result_bind.
  rewrite (entry_at_run _ _ _ _ Ha). apply keys_slot in Ha as Ha'.
  destruct Ha' as (k & Hk & Hek).
  destruct (Z.ltb_spec 0 (cmp_func (priority a) (priority e))) as [Hgt|Hle].
  - rewrite (slot_run _ _ _ Hk), set_slot_run by lia.
    destruct (move_hole es h hole (hole / 2) l k) as (Hperm & Hsw & Hout); [lia|lia|done|].
    assert (ordered_but cmp_func n (keys es (<[hole / 2 := Some l]> (<[hole := Some k]> h)))
              (hole / 2) /\
            children_ok cmp_func n (keys es (<[hole / 2 := Some l]> (<[hole := Some k]> h)))
              (hole / 2)) as [Hob' Hch'].
    { eapply sift_up_step; [..|exact Hsw]; try done; [lia|by rewrite keys_insert by lia|].
      intros b. rewrite keys_insert_ne by lia. rewrite Ha. by intros [= <-]. }
    destruct (IH (<[hole := Some k]> h) (hole / 2)) as (h' & hole' & Hrun & Hh' & Hl' & Hp' & Ho' & Hout');
      [lia|rewrite length_insert; lia|lia|done| |done|done|].
    { eapply swapped_full; [exact Hsw|done|lia..]. }
    exists h', hole'. rewrite length_insert in Hl'. split_and!; try done; try lia.
    + by etrans.
    + intros i Hi. rewrite Hout' by done. apply Hout; lia.
  - exists h, hole. split_and!; try done; try lia.
    eapply ordered_but_done; eauto. intros _ a' b. rewrite keys_insert_ne, keys_insert by lia.
    intros. simplify_eq. done.
Qed.

(** The choice of the child to move up: the smaller of the two. *)
Lemma choose_child es n h hole l child :
  full n (keys es (<[hole := Some l]> h)) -> child = hole * 2 -> 1 <= hole -> child <= n ->
  exists c x,
    (if negb (child =? n) then
       left ← entry_at es h child;
       right ← entry_at es h (child + 1);
       Ok (if (0 <? cmp_func (priority left) (priority right))%Z then child + 1 else child)
     else Ok child) = Ok c /\
    c <= n /\ c / 2 = hole /\ keys es h c = Some x /\
    forall c', c' <= n -> c' / 2 = hole -> ple cmp_func (keys es (<[hole := Some l]> h)) c c'.
Proof.
  intros Hf Hchild Hhole Hle.
  destruct (Hf child) as [a Ha]; [lia|]. rewrite keys_insert_ne in Ha by lia.
  assert (forall x, (cmp_func x x <= 0)%Z) as Hrefl by (intros x; destruct (cmp_total x x); done).
  destruct (Nat.eqb_spec child n) as [Heq|Hne]; cbn.
  - exists child, a. split_and!; [done|done|apply half_children; lia|done|].
    intros c' Hc' Hc'2%half_children. replace c' with child by lia.
    intros b b' Hb Hb'. simplify_eq. auto.
  - destruct (Hf (child + 1)) as [b Hb]; [lia|]. rewrite keys_insert_ne in Hb by lia.
    unfold mbind, result_bind. rewrite (entry_at_run _ _ _ _ Ha), (entry_at_run _ _ _ _ Hb).
    destruct (Z.ltb_spec 0 (cmp_func (priority a) (priority b))) as [Hgt|Hngt].
    + exists (child + 1), b. split_and!; [done|lia|apply half_children; lia|done|].
      intros c' Hc' Hc'2%half_children. intros y y'. rewrite !keys_insert_ne by lia.
      intros Hy Hy'. assert (c' = child \/ c' = child + 1) as [-> | ->] by lia; simplify_eq; auto.
      by apply cmp_gt.
    + exists child, a. split_and!; [done|lia|apply half_children; lia|done|].
      intros c' Hc' Hc'2%half_children. intros y y'. rewrite !keys_insert_ne by lia.
      intros Hy Hy'. assert (c' = child \/ c' = child + 1) as [-> | ->] by lia; simplify_eq; auto.
Qed.

Lemma percolate_down_spec fuel es n h hole l e :
  1 <= hole <= n -> n < length h -> n - hole < fuel -> es !! l = Some e ->
  full n (keys es (<[hole := Some l]> h)) ->
  ordered_but cmp_func n (keys es (<[hole := Some l]> h)) hole ->
  exists h' hole',
    percolate_down_loop cmp_func fuel es h n hole (hole * 2) (priority e) = Ok (h', hole') /\
    1 <= hole' <= n /\ length h' = length h /\
    <[hole' := Some l]> h' ≡ₚ <[hole := Some l]> h /\
    full n (keys es (<[hole' := Some l]> h')) /\
    ordered_but cmp_func n (keys es (<[hole' := Some l]> h')) hole' /\
    children_ok cmp_func n (keys es (<[hole' := Some l]> h')) hole' /\
    (h' = h /\ hole' = hole \/
     ple cmp_func (keys es (<[hole' := Some l]> h')) (hole' / 2) hole') /\
    forall i, ~ (1 <= i <= n) -> <[hole' := Some l]> h' !! i = <[hole := Some l]> h !! i.
Proof.
  revert h hole. induction fuel as [|fuel IH]; intros h hole Hhole Hlen Hfuel He Hf Hob; [lia|].
  cbn [percolate_down_loop]. destruct (Nat.leb_spec (hole * 2) n) as [Hle|Hgt].
  2: { exists h, hole. split_and!; try done; try lia; [|by left].
       intros c Hc Hc2%half_children. lia. }
  destruct (choose_child es n h hole l (hole * 2)) as (c & x & Hc & Hcn & Hch & Hx & Hmin);
    [done|done|lia|done|].
  unfold mbind at 1, result_bind at 1. rewrite Hc. unfold mbind, result_bind.
  rewrite (entry_at_run _ _ _ _ Hx). apply half_children in Hch as Hch'.
  destruct (Z.ltb_spec 0 (cmp_func (priority e) (priority x))) as [Hgt|Hle'].
  - apply keys_slot in Hx as Hx'. destruct Hx' as (k & Hk & Hek).
    rewrite (slot_run _ _ _ Hk), set_slot_run by lia.
    destruct (move_hole es h hole c l k) as (Hperm & Hsw & Hout); [lia|lia|done|].
    assert (ordered_but cmp_func n (keys es (<[c := Some l]> (<[hole := Some k]> h))) c /\
            ple cmp_func (keys es (<[c := Some l]> (<[hole := Some k]> h))) hole c)
      as [Hob' Hpl].
    { eapply sift_down_step; [..|exact (swapped_sym _ _ _ _ Hsw)]; try done;
        try lia; [by rewrite keys_insert by lia|by rewrite keys_insert_ne by lia]. }
    destruct (IH (<[hole := Some k]> h) c)
      as (h' & hole' & Hrun & Hh' & Hl' & Hp' & Hf' & Ho' & Hc' & Hor & Hout');
      [lia|rewrite length_insert; lia|lia|done| |done|].
    { eapply swapped_full; [exact Hsw|done|lia..]. }
    exists h', hole'. rewrite length_insert in Hl'. split_and!; try done; try lia.
    + by etrans.
    + right. destruct Hor as [[-> ->]|]; [by rewrite Hch|done].
    + intros i Hi. rewrite Hout' by done. apply Hout; lia.
  - exists h, hole. split_and!; try done; try lia; [|by left].
    intros c' Hc' Hc'2 a b Ha Hb. rewrite keys_insert in Ha by lia. simplify_eq.
    eapply cmp_trans; [exact Hle'|]. eapply (Hmin c'); [done|done| |exact Hb].
    rewrite keys_insert_ne by lia. done.
Qed.
End Loops.

(** ** The queue invariant *)

Section Invariant.
Context {Pr D : Type} `{EqDecision D} (cmp_func : Pr -> Pr -> Z) `{!CmpOrder cmp_func}.
Context {Pool : Type} `{NodePoolLaws Pool}.
Implicit Types (es : gmap loc (@entry Pr D)) (h : list ptr) (q : @priority_q Pr D Pool).

(** The pointers in slots 1 to [n]. *)
Definition slots (n : nat) (h : list ptr) : list ptr := take n (drop 1 h).

(** The queue's contents, in no particular order. *)
Definition contents q : list entry := snd <$> map_to_list (entries q).

(** The slots in use hold the addresses of the live entries, each once, in heap
    order; the array has [max_len] slots; the live entries are the pool's live
    nodes. *)
Record pq_inv q : Prop := {
  inv_next : 1 <= next_slot q <= max_len q;
  inv_len : length (heap q) = max_len q;
  inv_live : exists ls, slots (next_slot q - 1) (heap q) = Some <$> ls /\ NoDup ls /\
    forall l, l ∈ ls <-> is_Some (entries q !! l);
  inv_ordered : ordered cmp_func (next_slot q - 1) (keys (entries q) (heap q));
  inv_pool : np_ok (memory q);
  inv_pool_live : np_live (memory q) = dom (entries q);
}.

Lemma slots_lookup n h i : 1 <= i <= n -> slots n h !! (i - 1) = h !! i.
Proof.
  intros. unfold slots. rewrite lookup_take_lt by lia. rewrite lookup_drop. f_equal. lia.
Qed.

Lemma slots_insert n h i p : 1 <= i <= n -> slots n (<[i := p]> h) = <[i - 1 := p]> (slots n h).
Proof.
  intros. unfold slots. rewrite drop_insert_ge by lia. by rewrite take_insert_lt by lia.
Qed.

(** A permutation of the array that fixes the other slots permutes the slots. *)
Lemma slots_perm n h h' :
  h' ≡ₚ h -> (forall i, ~ (1 <= i <= n) -> h' !! i = h !! i) -> n < length h ->
  slots n h' ≡ₚ slots n h.
Proof.
  intros Hp Ho Hn.
  assert (forall g, length g = length h -> g = take 1 g ++ slots n g ++ drop (S n) g) as Hsplit.
  { intros g Hg. unfold slots. rewrite <- (take_drop 1 g) at 1. f_equal.
    rewrite <- (take_drop n (drop 1 g)) at 1. by rewrite drop_drop. }
  assert (take 1 h' = take 1 h) as E1.
  { apply list_eq. intros i. destruct (decide (i < 1)).
    - rewrite !lookup_take_lt by done. apply Ho. lia.
    - by rewrite !lookup_take_ge by lia. }
  assert (drop (S n) h' = drop (S n) h) as E2.
  { apply list_eq. intros i. rewrite !lookup_drop. apply Ho. lia. }
  apply Permutation_length in Hp as Hl.
  rewrite (Hsplit h' Hl), (Hsplit h eq_refl), E1, E2 in Hp.
  by apply Permutation_app_inv_l, Permutation_app_inv_r in Hp.
Qed.

(** Reading a slot in use. *)
Lemma live_lookup n h ls i l :
  slots n h = Some <$> ls -> 1 <= i <= n -> ls !! (i - 1) = Some l -> h !! i = Some (Some l).
Proof.
  intros Hs Hi Hl. rewrite <- (slots_lookup n) by done. rewrite Hs, list_lookup_fmap. by rewrite Hl.
Qed.

Lemma live_slot n h ls i l :
  slots n h = Some <$> ls -> 1 <= i <= n -> h !! i = Some (Some l) -> ls !! (i - 1) = Some l.
Proof.
  intros Hs Hi Hl. rewrite <- (slots_lookup n), Hs, list_lookup_fmap in Hl by done.
  by destruct (ls !! (i - 1)); simplify_eq/=.
Qed.

Lemma live_length n h ls : slots n h = Some <$> ls -> n < length h -> length ls = n.
Proof.
  intros Hs Hn. apply (f_equal length) in Hs. unfold slots in Hs.
  rewrite length_fmap, length_take, length_drop in Hs. lia.
Qed.

Lemma live_full n h ls es :
  slots n h = Some <$> ls -> n < length h -> (forall l, l ∈ ls -> is_Some (es !! l)) ->
  full n (keys es h).
Proof.
  intros Hs Hn Hes i Hi. apply live_length in Hs as Hl; [|done].
  destruct (lookup_lt_is_Some_2 ls (i - 1)) as [l Hl']; [lia|].
  unfold keys. rewrite (live_lookup _ _ _ _ _ Hs Hi Hl'). apply Hes.
  by eapply list_elem_of_lookup_2.
Qed.

(** Percolation permutes the addresses. *)
Lemma live_perm n h h' ls :
  h' ≡ₚ h -> (forall i, ~ (1 <= i <= n) -> h' !! i = h !! i) -> n < length h ->
  slots n h = Some <$> ls -> exists ls', slots n h' = Some <$> ls' /\ ls' ≡ₚ ls.
Proof.
  intros Hp Ho Hn Hs. apply (slots_perm n) in Hp; [|done..]. rewrite Hs in Hp.
  apply Permutation_map_inv in Hp as (ls' & Hls' & Hperm). exists ls'. split; [done|]. by symmetry.
Qed.

(** Two slots in use hold different addresses. *)
Lemma live_inj n h ls i j l :
  slots n h = Some <$> ls -> NoDup ls -> 1 <= i <= n -> 1 <= j <= n ->
  h !! i = Some (Some l) -> h !! j = Some (Some l) -> i = j.
Proof.
  intros Hs Hnd Hi Hj Hli Hlj.
  apply (live_slot _ _ _ _ _ Hs) in Hli, Hlj; [|done..].
  pose proof (NoDup_lookup _ _ _ _ Hnd Hli Hlj). lia.
Qed.

Lemma contents_insert es l e :
  es !! l = None -> snd <$> map_to_list (<[l := e]> es) ≡ₚ e :: (snd <$> map_to_list es).
Proof. intros Hl. by rewrite map_to_list_insert. Qed.

Lemma contents_delete es l e :
  es !! l = Some e -> snd <$> map_to_list es ≡ₚ e :: (snd <$> map_to_list (delete l es)).
Proof.
  intros Hl. rewrite <- (insert_delete_id es l e Hl) at 1.
  apply contents_insert, lookup_delete_eq.
Qed.

Definition holds n h es (ls : list loc) : Prop :=
  slots n h = Some <$> ls /\ NoDup ls /\ forall l, l ∈ ls <-> is_Some (es !! l).

Lemma slots_snoc n h p : h !! S n = Some p -> slots (S n) h = slots n h ++ [p].
Proof. intros Hp. unfold slots. apply take_S_r. by rewrite lookup_drop. Qed.

Lemma holds_grow n h es ls l e :
  holds n h es ls -> es !! l = None -> S n < length h ->
  holds (S n) (<[S n := Some l]> h) (<[l := e]> es) (ls ++ [l]).
Proof.
  intros (Hs & Hnd & Hes) Hl Hn.
  assert (l ∉ ls) by (rewrite Hes, Hl; by intros []).
  split_and!.
  - rewrite (slots_snoc _ _ (Some l)) by by apply list_lookup_insert_eq.
    rewrite fmap_app. f_equal. unfold slots in *. rewrite drop_insert_ge by lia.
    by rewrite take_insert_ge by lia.
  - apply NoDup_app. set_solver by auto using NoDup_singleton.
  - intros k. rewrite elem_of_app, list_elem_of_singleton, lookup_insert_is_Some', Hes. naive_solver.
Qed.

Lemma holds_split n h es ls :
  holds (S n) h es ls -> S n < length h -> exists l0 le, ls = l0 ++ [le] /\
    h !! S n = Some (Some le) /\ slots n h = Some <$> l0.
Proof.
  intros (Hs & _ & _) Hn. apply live_length in Hs as Hl; [|lia].
  destruct (exists_last (l := ls)) as (l0 & le & ->); [by intros ->|].
  rewrite length_app in Hl. cbn in Hl.
  assert (h !! S n = Some (Some le)) as Hle.
  { eapply (live_lookup (S n)); [done|lia|]. apply list_lookup_middle. lia. }
  exists l0, le. split_and!; [done..|]. rewrite (slots_snoc _ _ _ Hle), fmap_app in Hs.
  by apply app_inj_tail in Hs as [??].
Qed.

(** Dropping one of the addresses. *)
Lemma holds_drop n h es ls ls' l :
  NoDup ls -> (forall k, k ∈ ls <-> is_Some (es !! k)) -> l :: ls' ≡ₚ ls ->
  slots n h = Some <$> ls' -> holds n h (delete l es) ls'.
Proof.
  intros Hnd Hes Hp Hs. split; [done|]. rewrite <- Hp in Hnd. apply NoDup_cons in Hnd as [Hl Hnd].
  split; [done|]. intros k. rewrite lookup_delete_is_Some, <- Hes, <- Hp, elem_of_cons. naive_solver.
Qed.

(** Removing the last slot. *)
Lemma holds_last n h es ls l :
  holds (S n) h es ls -> S n < length h -> h !! S n = Some (Some l) ->
  exists ls', holds n h (delete l es) ls'.
Proof.
  intros Hh Hn Hl. destruct (holds_split _ _ _ _ Hh Hn) as (l0 & le & -> & Hle & Hs).
  simplify_eq. destruct Hh as (_ & Hnd & Hes). exists l0. eapply holds_drop; [done..| |done].
  apply Permutation_cons_append.
Qed.

(** Removing an earlier slot: the last entry takes its place. *)
Lemma holds_vacate n h es ls hole l le :
  holds (S n) h es ls -> S n < length h -> 1 <= hole <= n ->
  h !! hole = Some (Some l) -> h !! S n = Some (Some le) ->
  exists ls', holds n (<[hole := Some le]> h) (delete l es) ls'.
Proof.
  intros Hh Hn Hhole Hl Hle. destruct (holds_split _ _ _ _ Hh Hn) as (l0 & le' & -> & Hle' & Hs).
  simplify_eq. destruct Hh as (_ & Hnd & Hes).
  exists (<[hole - 1 := le]> l0). eapply holds_drop; [done..| |].
  - rewrite <- (insert_Permutation l0 (hole - 1) l le); [apply Permutation_cons_append|].
    eapply live_slot; done.
  - rewrite slots_insert by done. by rewrite Hs, list_fmap_insert.
Qed.

Lemma inv_rebuild n A A' ls es ml m :
  holds n A es ls -> A' ≡ₚ A -> (forall i, ~ (1 <= i <= n) -> A' !! i = A !! i) ->
  length A = ml -> n < ml -> ordered cmp_func n (keys es A') ->
  np_ok m -> np_live m = dom es -> pq_inv (PQ A' (n + 1) ml es m).
Proof.
  intros (Hs & Hnd & Hes) Hp Ho Hl Hn Hord Hm Hlive.
  destruct (live_perm n A A' ls) as (ls' & Hs' & Hls'); [done|done|lia|done|].
  split; cbn; replace (n + 1 - 1) with n by lia; try done; try lia.
  - by rewrite Hp.
  - exists ls'. split_and!; [done|by rewrite Hls'|]. intros k. by rewrite Hls'.
Qed.

Lemma inv_open q :
  pq_inv q -> exists n ls, next_slot q = n + 1 /\ n < length (heap q) /\ length (heap q) = max_len q /\
    holds n (heap q) (entries q) ls /\ ordered cmp_func n (keys (entries q) (heap q)).
Proof.
  intros [Hn Hl (ls & Hls) Ho _ _]. exists (next_slot q - 1), ls.
  split_and!; [lia|lia|done|done|done].
Qed.

Lemma holds_full n h es ls : holds n h es ls -> n < length h -> full n (keys es h).
Proof. intros (Hs & _ & Hes) Hn. eapply live_full; [done..|]. intros l. by rewrite Hes. Qed.

(** The other slots do not see a change of the entry at [hole]. *)
Lemma holds_keys_ne n h es es' ls hole l i :
  holds n h es ls -> 1 <= hole <= n -> 1 <= i <= n -> i <> hole ->
  h !! hole = Some (Some l) -> (forall k, k <> l -> es' !! k = es !! k) ->
  keys es' h i = keys es h i.
Proof.
  intros (Hs & Hnd & _) Hh Hi Hne Hl Hes. unfold keys.
  destruct (h !! i) as [[k|]|] eqn:Hk; [|done..]. apply Hes. intros ->.
  apply Hne. by eapply live_inj.
Qed.

Lemma holds_slot n h es ls i :
  holds n h es ls -> n < length h -> 1 <= i <= n ->
  exists l e, h !! i = Some (Some l) /\ es !! l = Some e.
Proof.
  intros Hh Hn Hi. destruct (holds_full _ _ _ _ Hh Hn i Hi) as [e He].
  apply keys_slot in He as (l & ? & ?). eauto.
Qed.

(** Growing the array. *)
Lemma inv_grow q k :
  pq_inv q -> pq_inv (PQ (heap q ++ replicate k None) (next_slot q) (max_len q + k)
                         (entries q) (memory q)).
Proof.
  intros [Hn Hl Hls Ho Hm Hlive].
  assert (forall i, i <= next_slot q - 1 -> (heap q ++ replicate k None) !! i = heap q !! i) as Hlk.
  { intros i Hi. apply lookup_app_l. lia. }
  split; cbn; try done; [lia|by rewrite length_app, length_replicate, Hl| |].
  - destruct Hls as (ls & Hs & ?). exists ls. split; [|done]. rewrite <- Hs. unfold slots.
    rewrite drop_app_le by lia. apply take_app_le. rewrite length_drop. lia.
  - intros i Hi. specialize (Ho i Hi). pose proof (half_lt i ltac:(lia)).
    unfold ple, keys in *. rewrite !Hlk by lia. exact Ho.
Qed.

Lemma enqueue_room q d p l m :
  pq_inv q -> next_slot q < max_len q -> np_pop (memory q) = Ok (Some l, m) ->
  let es := <[l := Entry p d]> (entries q) in
  exists h hole, globus_l_priority_q_percolate_up cmp_func es (heap q) (next_slot q) p = Ok (h, hole) /\
    hole < length h /\
    pq_inv (PQ (<[hole := Some l]> h) (next_slot q + 1) (max_len q) es m) /\
    (snd <$> map_to_list es) ≡ₚ Entry p d :: contents q.
Proof.
  intros Hinv Hroom Hpop es. destruct (inv_open q Hinv) as (n & ls & Hn & Hlen & Hml & Hh & Ho).
  destruct Hinv as [_ _ _ _ Hm Hlive].
  destruct (np_pop_some _ _ _ Hm Hpop) as (Hm' & Hfresh & Hlive').
  rewrite Hlive, not_elem_of_dom in Hfresh.
  apply (holds_grow _ _ _ _ l (Entry p d)) in Hh as Hh'; [|done|lia].
  rewrite Hn in *. replace (n + 1) with (S n) in * by lia.
  set (K := keys es (<[S n := Some l]> (heap q))).
  assert (forall i, 1 <= i <= n -> K i = keys (entries q) (heap q) i) as HK.
  { intros i Hi. unfold K, es. rewrite keys_insert_ne by lia.
    destruct (holds_slot _ _ _ _ i Hh Hlen Hi) as (k & e & Hk & He).
    unfold keys. rewrite Hk, lookup_insert_ne by congruence. done. }
  destruct (percolate_up_spec cmp_func (S (S n)) es (S n) (heap q) (S n) l (Entry p d))
    as (h & hole & Hrun & Hhole & Hlh & Hperm & Hord & Hout); [lia..| | | | |].
  - apply lookup_insert_eq.
  - eapply holds_full; [done|]. rewrite length_insert. lia.
  - split; [|intros _ c Hc Hcc%half_children; lia].
    intros i Hi Hne _ a b. pose proof (half_lt i ltac:(lia)). fold K. rewrite !HK by lia. apply Ho. lia.
  - intros c Hc Hcc%half_children. lia.
  - exists h, hole. split; [exact Hrun|]. split; [lia|]. split.
    + eapply (inv_rebuild (S n)); [done..|by rewrite length_insert|lia|done| |].
      * done.
      * rewrite Hlive', Hlive. unfold es. by rewrite dom_insert_L.
    + by apply contents_insert.
Qed.

(** The pool after returning a live entry. *)
Lemma push_pool q l :
  pq_inv q -> is_Some (entries q !! l) ->
  np_ok (np_push l (memory q)) /\ np_live (np_push l (memory q)) = dom (delete l (entries q)).
Proof.
  intros [_ _ _ _ Hm Hlive] Hl. assert (l ∈ np_live (memory q)) as H1 by (by rewrite Hlive, elem_of_dom).
  destruct (np_push_ok _ _ Hm H1) as [? E]. by rewrite E, Hlive, dom_delete_L.
Qed.

(** What is left when slot [hole], not the last one, is given the last entry. *)
Lemma vacate_spec q n ls hole l le old ent :
  holds (S n) (heap q) (entries q) ls -> S n < length (heap q) -> 1 <= hole <= n ->
  ordered cmp_func (S n) (keys (entries q) (heap q)) ->
  heap q !! hole = Some (Some l) -> entries q !! l = Some old ->
  heap q !! S n = Some (Some le) -> entries q !! le = Some ent ->
  let es := delete l (entries q) in
  let K := keys es (<[hole := Some le]> (heap q)) in
  es !! le = Some ent /\ K hole = Some ent /\ full n K /\ ordered_but cmp_func n K hole /\
  ((cmp_func (priority ent) (priority old) <= 0)%Z -> children_ok cmp_func n K hole) /\
  (2 <= hole -> (cmp_func (priority old) (priority ent) <= 0)%Z -> ple cmp_func K (hole / 2) hole).
Proof.
  intros Hh Hlen Hhole Ho Hl Hold Hle Hent es K.
  assert (l <> le) as Hne.
  { intros ->. destruct Hh as (Hs & Hnd & _).
    pose proof (live_inj _ _ _ hole (S n) le Hs Hnd ltac:(lia) ltac:(lia) Hl Hle). lia. }
  assert (es !! le = Some ent) as Hle' by (unfold es; by rewrite lookup_delete_ne).
  assert (K hole = Some ent) as HKh by (unfold K; rewrite keys_insert; [done|lia]).
  destruct (holds_vacate _ _ _ _ _ _ _ Hh Hlen Hhole Hl Hle) as (ls' & Hh').
  assert (keys (entries q) (heap q) hole = Some old) as HKo by (unfold keys; by rewrite Hl).
  destruct (ordered_replace cmp_func (S n) n _ K hole old Ho ltac:(lia) ltac:(lia) HKo)
    as (Hbut & Hch & Hpar).
  { intros k Hk Hkn. unfold K. rewrite keys_insert_ne by done.
    eapply (holds_keys_ne (S n) _ _ _ _ hole); [done|lia..|done|]. intros j Hj. by apply lookup_delete_ne. }
  split_and!; [done|done| |done| |].
  - eapply holds_full; [done|]. rewrite length_insert. lia.
  - intros Hcmp c Hc Hcc a b Ha Hb. simplify_eq. eapply cmp_trans; [done|by eapply Hch].
  - intros H2 Hcmp a b Ha Hb. rewrite HKh in Hb. simplify_eq.
    eapply cmp_trans; [apply Hpar; [lia|done..]|done].
Qed.

(** Percolating down from slot [hole] with nothing above in the way. *)
Lemma refill_down q n ls hole l le old ent :
  pq_inv q -> max_len q = length (heap q) ->
  holds (S n) (heap q) (entries q) ls -> S n < length (heap q) -> 1 <= hole <= n ->
  ordered cmp_func (S n) (keys (entries q) (heap q)) ->
  heap q !! hole = Some (Some l) -> entries q !! l = Some old ->
  heap q !! S n = Some (Some le) -> entries q !! le = Some ent ->
  (2 <= hole -> (cmp_func (priority old) (priority ent) <= 0)%Z) ->
  let es := delete l (entries q) in
  exists h hole', globus_l_priority_q_percolate_down cmp_func es (heap q) (S n) hole (priority ent)
                    = Ok (h, hole') /\ hole' < length h /\
    pq_inv (PQ (<[hole' := Some le]> h) (S n) (max_len q) es (np_push l (memory q))).
Proof.
  intros Hinv Hml Hh Hlen Hhole Ho Hl Hold Hle Hent Hcmp es.
  destruct (vacate_spec q n ls hole l le old ent) as (Hle' & HKh & Hfull & Hbut & Hch & Hpar); [done..|].
  destruct (holds_vacate _ _ _ _ _ _ _ Hh Hlen Hhole Hl Hle) as (ls' & Hh').
  destruct (push_pool q l Hinv) as [Hm Hlive]; [by eexists|].
  destruct (percolate_down_spec cmp_func (S (S n)) es n (heap q) hole le ent)
    as (h & hole' & Hrun & Hhole' & Hlh & Hperm & Hfull' & Hbut' & Hch' & Hmoved & Hout); [lia..|done|done|done|].
  exists h, hole'. split; [|split; [lia|]].
  - unfold globus_l_priority_q_percolate_down. by replace (S n - 1) with n by lia.
  - replace (S n) with (n + 1) by lia.
    eapply (inv_rebuild n); [done..|by rewrite length_insert|lia| |done|done].
    eapply ordered_but_done; [done|done|]. intros H2. destruct Hmoved as [[-> ->]|Hmoved]; auto.
Qed.

Lemma refill_up q n ls hole l le old ent :
  pq_inv q -> max_len q = length (heap q) ->
  holds (S n) (heap q) (entries q) ls -> S n < length (heap q) -> 1 <= hole <= n ->
  ordered cmp_func (S n) (keys (entries q) (heap q)) ->
  heap q !! hole = Some (Some l) -> entries q !! l = Some old ->
  heap q !! S n = Some (Some le) -> entries q !! le = Some ent ->
  (cmp_func (priority ent) (priority old) <= 0)%Z ->
  let es := delete l (entries q) in
  exists h hole', globus_l_priority_q_percolate_up cmp_func es (heap q) hole (priority ent)
                    = Ok (h, hole') /\ hole' < length h /\
    pq_inv (PQ (<[hole' := Some le]> h) (S n) (max_len q) es (np_push l (memory q))).
Proof.
  intros Hinv Hml Hh Hlen Hhole Ho Hl Hold Hle Hent Hcmp es.
  destruct (vacate_spec q n ls hole l le old ent) as (Hle' & HKh & Hfull & Hbut & Hch & Hpar); [done..|].
  destruct (holds_vacate _ _ _ _ _ _ _ Hh Hlen Hhole Hl Hle) as (ls' & Hh').
  destruct (push_pool q l Hinv) as [Hm Hlive]; [by eexists|].
  destruct (percolate_up_spec cmp_func (S hole) es n (heap q) hole le ent)
    as (h & hole' & Hrun & Hhole' & Hlh & Hperm & Hord & Hout); [lia..|done|done|done|by apply Hch|].
  exists h, hole'. split; [done|split; [lia|]].
  replace (S n) with (n + 1) by lia.
  eapply (inv_rebuild n); [done..|by rewrite length_insert|lia|done|done|done].
Qed.

Lemma elem_contents q e :
  pq_inv q -> e ∈ contents q -> exists i, 1 <= i < next_slot q /\ keys (entries q) (heap q) i = Some e.
Proof.
  intros Hinv He. destruct (inv_open q Hinv) as (n & ls & Hn & Hlen & _ & (Hs & _ & Hes) & _).
  apply list_elem_of_fmap in He as ([l e'] & -> & Hl%elem_of_map_to_list). cbn.
  assert (l ∈ ls) as Hin by (apply Hes; by eexists).
  apply list_elem_of_lookup in Hin as (i & Hi). apply lookup_lt_Some in Hi as Hlt.
  rewrite (live_length _ _ _ Hs Hlen) in Hlt. exists (S i). split; [lia|].
  unfold keys. rewrite (live_lookup _ _ _ (S i) l Hs); [done|lia|]. by replace (S i - 1) with i by lia.
Qed.

Lemma contents_elem q l e : entries q !! l = Some e -> e ∈ contents q.
Proof.
  intros Hl. apply list_elem_of_fmap. exists (l, e). split; [done|]. by apply elem_of_map_to_list.
Qed.

Lemma contents_empty q : pq_inv q -> next_slot q = 1 <-> contents q = [].
Proof.
  intros Hinv. destruct (inv_open q Hinv) as (n & ls & Hn & Hlen & _ & Hh & _). split.
  - intros H1. destruct (contents q) as [|e es] eqn:E; [done|].
    destruct (elem_contents q e Hinv) as (i & Hi & _); [rewrite E; set_solver|lia].
  - intros Hc. destruct (decide (n = 0)) as [->|Hne]; [lia|]. exfalso.
    destruct (holds_slot _ _ _ _ 1 Hh Hlen ltac:(lia)) as (l & e & _ & He).
    apply contents_elem in He. rewrite Hc in He. set_solver.
Qed.

(** The search finds the first slot that holds the datum, if any. *)
Lemma find_datum_spec k es h i d :
  (forall j, i <= j < i + k -> exists l e, h !! j = Some (Some l) /\ es !! l = Some e) ->
  (exists hole l e, find_datum k es h i d = Ok (Some (hole, l)) /\ i <= hole < i + k /\
     h !! hole = Some (Some l) /\ es !! l = Some e /\ datum e = d) \/
  (find_datum k es h i d = Ok None /\
   forall j e, i <= j < i + k -> keys es h j = Some e -> datum e <> d).
Proof.
  revert i. induction k as [|k IH]; intros i Hall; cbn.
  { right. split; [done|lia]. }
  destruct (Hall i ltac:(lia)) as (l & e & Hl & He).
  unfold mbind, result_bind. rewrite (slot_run _ _ _ Hl), He. cbn.
  destruct (decide (datum e = d)) as [Hd|Hd].
  { left. exists i, l, e. split_and!; try done; lia. }
  destruct (IH (i + 1)) as [(hole & l' & e' & Hrun & Hr & ?)|[Hrun Hno]].
  { intros j Hj. apply Hall. lia. }
  - left. exists hole, l', e'. split_and!; try done; try lia; naive_solver.
  - right. split; [done|]. intros j e' Hj Hk. destruct (decide (j = i)) as [->|].
    + unfold keys in Hk. rewrite Hl in Hk. by simplify_eq.
    + apply (Hno j); [lia|done].
Qed.

Lemma find_datum_inv q d :
  pq_inv q ->
  (exists hole l e, find_datum (next_slot q - 1) (entries q) (heap q) 1 d = Ok (Some (hole, l)) /\
     1 <= hole < next_slot q /\
     heap q !! hole = Some (Some l) /\ entries q !! l = Some e /\ datum e = d) \/
  (find_datum (next_slot q - 1) (entries q) (heap q) 1 d = Ok None /\
   forall e, e ∈ contents q -> datum e <> d).
Proof.
  intros Hinv. destruct (inv_open q Hinv) as (n & ls & Hn & Hlen & _ & Hh & _).
  destruct (find_datum_spec (next_slot q - 1) (entries q) (heap q) 1 d)
    as [(hole & l & e & Hrun & Hr & ?)|[Hrun Hno]].
  - intros j Hj. eapply holds_slot; [done|done|lia].
  - left. exists hole, l, e. split_and!; try done; try lia; naive_solver.
  - right. split; [done|]. intros e He. destruct (elem_contents q e Hinv He) as (i & Hi & Hk).
    apply (Hno i); [lia|done].
Qed.

(** Dropping the last slot. *)
Lemma inv_drop_last q n ls l :
  pq_inv q -> max_len q = length (heap q) ->
  holds (S n) (heap q) (entries q) ls -> S n < length (heap q) ->
  ordered cmp_func (S n) (keys (entries q) (heap q)) ->
  heap q !! S n = Some (Some l) -> is_Some (entries q !! l) ->
  pq_inv (PQ (heap q) (S n) (max_len q) (delete l (entries q)) (np_push l (memory q))).
Proof.
  intros Hinv Hml Hh Hlen Ho Hl He. destruct (holds_last _ _ _ _ _ Hh Hlen Hl) as (ls' & Hh').
  destruct (push_pool q l Hinv He) as [Hm Hlive].
  replace (S n) with (n + 1) by lia. eapply (inv_rebuild n); [done..|lia| |done|done].
  intros i Hi a b. pose proof (half_lt i ltac:(lia)).
  rewrite !(holds_keys_ne (S n) _ (entries q) (delete l (entries q)) ls (S n) l)
    by (done || lia || (intros; by apply lookup_delete_ne)). apply Ho. lia.
Qed.
End Invariant.

(** ** The operations *)

Section Operations.
Context {Pr D : Type} `{EqDecision D} (cmp_func : Pr -> Pr -> Z) `{!CmpOrder cmp_func}.
Context {Pool : Type} `{NodePoolLaws Pool}.
Implicit Types (q : @priority_q Pr D Pool) (e : @entry Pr D).

(** [globus_priority_q_enqueue] on a well-formed queue whose pool can be asked
    for a node (it does not fault) returns: it fails exactly when the array is full
    and cannot grow or the pool returns NULL. On success the new entry is added to
    the contents, on failure they are unchanged, and the queue stays well formed
    in both cases. *)
Theorem pq_enqueue_correct q d p realloc_result r m :
  pq_inv cmp_func q -> np_pop (memory q) = Ok (r, m) ->
  exists st q',
    globus_priority_q_enqueue cmp_func (Some q) d p realloc_result = Ok (st, Some q') /\
    pq_inv cmp_func q' /\
    (st = GLOBUS_SUCCESS /\ contents q' ≡ₚ Entry p d :: contents q \/
     st = GLOBUS_FAILURE /\ contents q' = contents q) /\
    (st = GLOBUS_FAILURE <-> next_slot q = max_len q /\ realloc_result = false \/ r = None).
Proof.
  intros Hinv Hpop. unfold globus_priority_q_enqueue.
  destruct ((next_slot q =? max_len q) && negb realloc_result) eqn:Efull.
  { apply andb_true_iff in Efull as [E1%Nat.eqb_eq E2%negb_true_iff].
    exists GLOBUS_FAILURE, q. split_and!; auto; tauto. }
  set (q1 := if next_slot q =? max_len q then _ else q).
  assert (pq_inv cmp_func q1 /\ next_slot q1 < max_len q1 /\ np_pop (memory q1) = Ok (r, m) /\
          contents q1 = contents q) as (Hinv1 & Hroom & Hpop1 & <-).
  { pose proof (inv_next _ _ Hinv). unfold q1. destruct (Nat.eqb_spec (next_slot q) (max_len q)).
    - split_and!; [by apply inv_grow|cbn; unfold GLOBUS_L_PRIORITY_Q_CHUNK_SIZE; lia|done..].
    - split_and!; [done|lia|done..]. }
  assert (~ (next_slot q = max_len q /\ realloc_result = false)) as Hnf.
  { intros [E ->]. rewrite E, Nat.eqb_refl in Efull. done. }
  clearbody q1. unfold mbind, result_bind. rewrite Hpop1. destruct r as [l|].
  - destruct (enqueue_room cmp_func q1 d p l m Hinv1 Hroom Hpop1) as (h & hole & Hrun & Hlt & Hinv' & Hc).
    rewrite Hrun, set_slot_run by done. cbn.
    eexists _, _. split; [done|]. split; [done|]. split; [by left|].
    split; [done|naive_solver].
  - eexists GLOBUS_FAILURE, _. split; [done|]. split; [|split; [by right|tauto]].
    destruct Hinv1 as [? ? ? ? Hm ?]. destruct (np_pop_none _ _ Hm Hpop1) as [? E].
    split; cbn; try done. by rewrite E.
Qed.

(** Every operation that takes an entry out leaves the rest. *)
Lemma dequeue_spec q :
  pq_inv cmp_func q -> next_slot q <> 1 ->
  exists l e q', heap q !! 1 = Some (Some l) /\ entries q !! l = Some e /\
    globus_priority_q_dequeue cmp_func (Some q) = Ok (Some (datum e), Some q') /\
    pq_inv cmp_func q' /\ entries q' = delete l (entries q).
Proof.
  intros Hinv Hne. destruct (inv_open _ q Hinv) as (m & ls & Hn & Hlen & Hml & Hh & Ho).
  destruct m as [|n]; [lia|].
  destruct (holds_slot _ _ _ _ 1 Hh Hlen ltac:(lia)) as (l & old & Hl & Hold).
  exists l, old. unfold globus_priority_q_dequeue, GLOBUS_L_PRIORITY_Q_TOP_SLOT, mbind, result_bind.
  rewrite (proj2 (Nat.eqb_neq (next_slot q) 1) Hne), (slot_run _ _ _ Hl), Hold. cbn [deref].
  rewrite Hn. replace (S n + 1 - 1) with (S n) by lia. destruct (Nat.ltb_spec 1 (S n)).
  - destruct (holds_slot _ _ _ _ (S n) Hh Hlen ltac:(lia)) as (le & ent & Hle & Hent).
    destruct (vacate_spec cmp_func q n ls 1 l le old ent) as (Hle' & _); try done; try lia.
    destruct (refill_down cmp_func q n ls 1 l le old ent) as (h & hole & Hrun & Hlt & Hinv');
      try done; try lia.
    rewrite (slot_run _ _ _ Hle), Hle'. cbn [deref]. rewrite Hrun, set_slot_run by done.
    eexists. split; [done|]. split; [done|]. split; [reflexivity|]. done.
  - assert (n = 0) as -> by lia. eexists. split; [done|]. split; [done|]. split; [reflexivity|]. split; [|done].
    by eapply inv_drop_last.
Qed.

(** C29: [globus_priority_q_dequeue] on a well-formed non-empty queue returns the
    datum of an entry whose priority is minimal, removes exactly that entry and
    keeps the queue well formed; [first] and [first_priority] on the queue before
    report that same entry. *)
Theorem pq_dequeue_correct q :
  pq_inv cmp_func q -> globus_priority_q_empty (Some q) = false ->
  exists e q',
    globus_priority_q_dequeue cmp_func (Some q) = Ok (Some (datum e), Some q') /\
    pq_inv cmp_func q' /\
    contents q ≡ₚ e :: contents q' /\
    (forall e', e' ∈ contents q -> (cmp_func (priority e) (priority e') <= 0)%Z) /\
    globus_priority_q_first (Some q) = Ok (Some (datum e)) /\
    globus_priority_q_first_priority (Some q) = Ok (Some (priority e)).
Proof.
  intros Hinv Hne%Nat.eqb_neq.
  destruct (dequeue_spec q Hinv Hne) as (l & e & q' & Hl & He & Hrun & Hinv' & Hes).
  assert (keys (entries q) (heap q) 1 = Some e) as Hk by (unfold keys; by rewrite Hl).
  exists e, q'. split_and!; [done..| | | |].
  - unfold contents. rewrite Hes. by apply contents_delete.
  - intros e' He'. destruct (elem_contents _ q e' Hinv He') as (i & Hi & Hki).
    destruct (inv_open _ q Hinv) as (n & ls & Hn & Hlen & _ & Hh & Ho).
    by eapply (ordered_top cmp_func n _ i); [eapply holds_full| |lia|..].
  - unfold globus_priority_q_first, GLOBUS_L_PRIORITY_Q_TOP_SLOT, mbind, result_bind in *.
    rewrite (proj2 (Nat.eqb_neq _ _) Hne). by rewrite (entry_at_run _ _ _ e).
  - unfold globus_priority_q_first_priority, GLOBUS_L_PRIORITY_Q_TOP_SLOT, mbind, result_bind in *.
    rewrite (proj2 (Nat.eqb_neq _ _) Hne). by rewrite (entry_at_run _ _ _ e).
Qed.

(** [globus_priority_q_remove] on a well-formed queue removes exactly one
    entry with the given datum and returns the datum, or, when there is none,
    returns NULL and leaves the queue as it is; it keeps the heap order, whether
    the entry that fills the gap has to move up or down. *)
Theorem pq_remove_correct q d :
  pq_inv cmp_func q ->
  (exists e q', globus_priority_q_remove cmp_func (Some q) d = Ok (Some d, Some q') /\
     pq_inv cmp_func q' /\ datum e = d /\ contents q ≡ₚ e :: contents q') \/
  (globus_priority_q_remove cmp_func (Some q) d = Ok (None, Some q) /\
   forall e, e ∈ contents q -> datum e <> d).
Proof.
  intros Hinv. unfold globus_priority_q_remove, GLOBUS_L_PRIORITY_Q_TOP_SLOT, mbind, result_bind.
  destruct (find_datum_inv cmp_func q d Hinv)
    as [(hole & l & old & -> & Hhole & Hl & Hold & Hd)|[-> Hno]]; [left|by right].
  destruct (inv_open _ q Hinv) as (m & ls & Hn & Hlen & Hml & Hh & Ho).
  destruct m as [|n]; [lia|]. exists old. rewrite Hold. cbn [deref].
  rewrite Hn in *. replace (S n + 1 - 1) with (S n) by lia.
  destruct (Nat.eqb_spec (S n) hole) as [<-|Hne]; cbn [negb].
  { eexists. split_and!; [reflexivity| |done|by apply contents_delete].
    by eapply inv_drop_last. }
  destruct (holds_slot _ _ _ _ (S n) Hh Hlen ltac:(lia)) as (le & ent & Hle & Hent).
  destruct (vacate_spec cmp_func q n ls hole l le old ent) as (Hle' & _); try done; try lia.
  rewrite (slot_run _ _ _ Hle), Hle'. cbn [deref].
  destruct (Z.ltb_spec 0 (cmp_func (priority ent) (priority old))) as [Hgt|Hle0].
  - destruct (refill_down cmp_func q n ls hole l le old ent) as (h & hole' & -> & Hlt & Hinv');
      try done; try lia; [intros _; by apply cmp_gt|].
    rewrite set_slot_run by done.
    eexists. split_and!; [reflexivity|done|done|by apply contents_delete].
  - destruct (refill_up cmp_func q n ls hole l le old ent) as (h & hole' & -> & Hlt & Hinv');
      try done; try lia.
    rewrite set_slot_run by done.
    eexists. split_and!; [reflexivity|done|done|by apply contents_delete].
Qed.

(** Restoring the order after the priority at slot [hole] has changed. *)
Lemma reprioritise q n ls hole l old p :
  pq_inv cmp_func q -> max_len q = length (heap q) ->
  holds n (heap q) (entries q) ls -> n < length (heap q) -> 1 <= hole <= n ->
  ordered cmp_func n (keys (entries q) (heap q)) ->
  heap q !! hole = Some (Some l) -> entries q !! l = Some old ->
  let es := <[l := Entry p (datum old)]> (entries q) in
  exists h hole' h' hole'',
    globus_l_priority_q_percolate_down cmp_func es (heap q) (n + 1) hole p = Ok (h, hole') /\
    globus_l_priority_q_percolate_up cmp_func es h hole' p = Ok (h', hole'') /\
    hole'' < length h' /\
    pq_inv cmp_func (PQ (<[hole'' := Some l]> h') (n + 1) (max_len q) es (memory q)).
Proof.
  intros Hinv Hml Hh Hlen Hhole Ho Hl Hold es.
  assert (<[hole := Some l]> (heap q) = heap q) as Hid by by apply list_insert_id.
  assert (holds n (heap q) es ls) as Hh'.
  { destruct Hh as (? & ? & Hes). split_and!; [done..|]. intros k. unfold es.
    rewrite lookup_insert_is_Some', Hes. split; [tauto|]. intros [<-|?]; [by eexists|done]. }
  assert (keys (entries q) (heap q) hole = Some old) as HKo by (unfold keys; by rewrite Hl).
  destruct (ordered_replace cmp_func n n _ (keys es (heap q)) hole old Ho ltac:(lia) Hhole HKo)
    as (Hbut & _).
  { intros k Hk Hkn. eapply (holds_keys_ne n _ _ _ _ hole); [done|lia..|done|].
    intros j Hj. by apply lookup_insert_ne. }
  destruct (percolate_down_spec cmp_func (S (n + 1)) es n (heap q) hole l (Entry p (datum old)))
    as (h & hole' & Hrun & Hhole' & Hlh & Hperm & Hfull' & Hbut' & Hch' & _ & Hout);
    [lia..|apply lookup_insert_eq| | |]; rewrite ?Hid; [by eapply holds_full|done|].
  destruct (percolate_up_spec cmp_func (S hole') es n h hole' l (Entry p (datum old)))
    as (h' & hole'' & Hrun' & Hhole'' & Hlh' & Hperm' & Hord & Hout');
    [lia|lia|lia|apply lookup_insert_eq|done|done|done|].
  exists h, hole', h', hole''. rewrite Hid in Hperm, Hout. split_and!; [|done|lia|].
  - unfold globus_l_priority_q_percolate_down. by replace (n + 1 - 1) with n by lia.
  - destruct Hinv as [_ _ _ _ Hm Hlive].
    eapply (inv_rebuild _ n (heap q)); [done|by etrans| |lia|lia|done|done|].
    + intros i Hi. by rewrite Hout', Hout.
    + rewrite Hlive. unfold es. rewrite dom_insert_L. apply elem_of_dom_2 in Hold. set_solver.
Qed.

(** [globus_priority_q_modify] on a well-formed queue gives one entry with the
    given datum the new priority, returns the old one, and restores the heap
    order; when no entry has the datum it returns NULL and leaves the queue as
    it is. *)
Theorem pq_modify_correct q d p :
  pq_inv cmp_func q ->
  (exists e rest q', globus_priority_q_modify cmp_func (Some q) d p = Ok (Some (priority e), Some q') /\
     pq_inv cmp_func q' /\ datum e = d /\
     contents q ≡ₚ e :: rest /\ contents q' ≡ₚ Entry p d :: rest) \/
  (globus_priority_q_modify cmp_func (Some q) d p = Ok (None, Some q) /\
   forall e, e ∈ contents q -> datum e <> d).
Proof.
  intros Hinv. unfold globus_priority_q_modify, GLOBUS_L_PRIORITY_Q_TOP_SLOT, mbind, result_bind.
  destruct (find_datum_inv cmp_func q d Hinv)
    as [(hole & l & old & -> & Hhole & Hl & Hold & Hd)|[-> Hno]]; [left|by right].
  destruct (inv_open _ q Hinv) as (n & ls & Hn & Hlen & Hml & Hh & Ho).
  rewrite Hn in *.
  destruct (reprioritise q n ls hole l old p) as (h & hole' & h' & hole'' & Hdown & Hup & Hlt & Hinv');
    try done; try lia.
  rewrite Hold. cbn [deref]. rewrite Hdown, Hup, set_slot_run by done.
  exists old, (snd <$> map_to_list (delete l (entries q))).
  eexists. split; [reflexivity|]. split; [done|]. split; [done|]. split; [by apply contents_delete|].
  subst d. unfold contents. cbn [entries]. rewrite <- (insert_delete_eq (entries q) l).
  apply contents_insert, lookup_delete_eq.
Qed.

(** Pushing the first [i] entries of the array. *)
Lemma push_entries_spec i h (ls : list loc) (m : Pool) :
  i <= length ls -> (forall j l, j < i -> ls !! j = Some l -> h !! S j = Some (Some l)) ->
  NoDup ls -> np_ok m -> np_live m = list_to_set (take i ls) ->
  exists m', push_entries h i m = Ok m' /\ np_ok m' /\ np_live m' = ∅.
Proof.
  revert m. induction i as [|i IH]; intros m Hi Hh Hnd Hm Hlive; [by exists m|].
  destruct (lookup_lt_is_Some_2 ls i) as [l Hl]; [lia|]. cbn [push_entries].
  unfold mbind, result_bind, GLOBUS_L_PRIORITY_Q_TOP_SLOT. rewrite (slot_run _ _ l) by (apply Hh; [lia|done]).
  assert (l ∈ np_live m) as Hin.
  { rewrite Hlive, elem_of_list_to_set. apply list_elem_of_lookup. exists i.
    rewrite lookup_take_lt by lia. done. }
  destruct (np_push_ok _ _ Hm Hin) as [Hm' Hlive'].
  apply IH; [lia|intros; apply Hh; [lia|done]|done|done|].
  rewrite Hlive', Hlive, (take_S_r _ _ _ Hl), list_to_set_app_L. cbn.
  assert (l ∉ take i ls).
  { intros (j & Hj)%list_elem_of_lookup. apply lookup_take_Some in Hj as [Hj Hlt].
    pose proof (NoDup_lookup _ _ _ _ Hnd Hj Hl). lia. }
  set_solver.
Qed.

(** [globus_priority_q_destroy] of a well-formed queue returns every entry to
    the memory pool: no node of the pool is live when it is destroyed. *)
Theorem pq_destroy_no_leak q :
  pq_inv cmp_func q ->
  exists m, globus_priority_q_destroy (Some q) = Ok (GLOBUS_SUCCESS, Some m) /\
    np_ok m /\ np_live m = ∅.
Proof.
  intros Hinv. destruct (inv_open _ q Hinv) as (n & ls & Hn & Hlen & Hml & (Hs & Hnd & Hes) & _).
  destruct Hinv as [_ _ _ _ Hm Hlive]. pose proof (live_length _ _ _ Hs Hlen) as Hl.
  destruct (push_entries_spec n (heap q) ls (memory q)) as (m & Hrun & Hok & He); [lia| |done|done| |].
  - intros j l Hj Hjl. apply (live_lookup n _ ls); [done|lia|]. by replace (S j - 1) with j by lia.
  - rewrite take_ge, Hlive by lia. apply set_eq. intros l. by rewrite elem_of_dom, elem_of_list_to_set, Hes.
  - exists m. unfold globus_priority_q_destroy, GLOBUS_L_PRIORITY_Q_TOP_SLOT, mbind, result_bind.
    rewrite Hn. replace (n + 1 - 1) with n by lia. by rewrite Hrun.
Qed.

(** Dequeuing until the queue is empty. *)
Fixpoint drain (fuel : nat) q : result (list D * priority_q) :=
  match fuel with
  | O => Ok ([], q)
  | S fuel =>
      match globus_priority_q_dequeue cmp_func (Some q) with
      | Ok (Some d, Some q') => '(ds, q'') ← drain fuel q'; Ok (d :: ds, q'')
      | Ok _ => Ok ([], q)
      | Fault f => Fault f
      end
  end.


(** Dequeuing a well-formed queue until it is empty returns all its data, in
    order of priority: nothing is lost, duplicated or out of order. *)
Theorem pq_drain_sorted q :
  pq_inv cmp_func q ->
  exists es q', drain (length (contents q)) q = Ok (datum <$> es, q') /\
    es ≡ₚ contents q /\
    StronglySorted (fun a b => (cmp_func (priority a) (priority b) <= 0)%Z) es /\
    globus_priority_q_empty (Some q') = true.
Proof.
  intros Hinv. remember (length (contents q)) as k eqn:Hk. revert q Hk Hinv.
  induction k as [|k IH]; intros q Hk Hinv.
  - symmetry in Hk. apply length_zero_iff_nil in Hk. exists [], q. rewrite Hk.
    split_and!; [done|done|constructor|]. apply Nat.eqb_eq. by apply (contents_empty cmp_func).
  - assert (next_slot q <> 1) as Hne.
    { intros E. apply (contents_empty cmp_func) in E; [|done]. by rewrite E in Hk. }
    destruct (dequeue_spec q Hinv Hne) as (l & e & q' & Hl & He & Hrun & Hinv' & Hes).
    assert (contents q ≡ₚ e :: contents q') as Hc.
    { unfold contents. rewrite Hes. by apply contents_delete. }
    destruct (IH q') as (es & q'' & Hdrain & Hperm & Hsort & Hempty); [by rewrite Hc in Hk; injection Hk|done|].
    exists (e :: es), q''. cbn [drain]. rewrite Hrun. unfold mbind, result_bind. rewrite Hdrain.
    split_and!; [done|by rewrite Hperm| |done]. constructor; [done|].
    apply Forall_forall. intros e' He'. rewrite Hperm in He'.
    destruct (elem_contents _ q e' Hinv) as (i & Hi & Hki); [rewrite Hc; set_solver|].
    destruct (inv_open _ q Hinv) as (n & ls & Hn & Hlen & _ & Hh & Ho).
    eapply (ordered_top cmp_func n _ i); [by eapply holds_full|done|lia| |done].
    unfold keys. by rewrite Hl.
Qed.
End Operations.

(** ** A concrete queue

    Three entries, compared by their integer priorities, from the pool of
    Memory.v; the third one makes the pool grow. *)

#[local] Existing Instance Memory.memory_pool.
#[local] Existing Instance Memory.memory_pool_laws.

#[export] Instance entry_eq_dec `{EqDecision Pr, EqDecision D} : EqDecision (@entry Pr D).
Proof. solve_decision. Defined.

Definition zcmp (a b : Z) : Z := (a - b)%Z.

#[export] Instance zcmp_order : CmpOrder zcmp.
Proof. split; unfold zcmp; lia. Qed.

Definition run_enqueues (ps : list (Z * Z)) (m : Memory.memory) : option (@priority_q Z Z Memory.memory) :=
  fold_left (fun q '(p, d) =>
    match globus_priority_q_enqueue zcmp q d p true with
    | Ok (_, q') => q'
    | Fault _ => None
    end) ps (snd (globus_priority_q_init true (Some m))).

Definition pool_after (n : nat) : Memory.memory :=
  Nat.iter n (fun m => match Memory.globus_memory_pop_node m with Ok (_, m') => m' | Fault _ => m end)
    Memory.example_pool.

Lemma pool_after_ok n : np_ok (pool_after n).
Proof.
  induction n as [|n IH]; cbn; [exact Memory.example_pool_ok|].
  destruct (Memory.globus_memory_pop_node _) as [[p m']|] eqn:E; [|done].
  by destruct (Memory.pop_node_inv _ _ _ IH E) as (? & _ & ? & _).
Qed.

Definition example_q : @priority_q Z Z Memory.memory :=
  PQ (<[1 := Some 1024%positive]> (<[2 := Some 1000%positive]> (<[3 := Some 2000%positive]>
       (replicate 100 None)))) 4 100
     (<[1024%positive := Entry 3%Z 20%Z]> (<[1000%positive := Entry 5%Z 10%Z]>
       (<[2000%positive := Entry 4%Z 10%Z]> ∅))) (pool_after 3).

(** The queue the operations build from these entries. *)
Lemma example_q_built :
  run_enqueues [(5, 10); (3, 20); (4, 10)]%Z Memory.example_pool = Some example_q.
Proof. by vm_compute. Qed.

Lemma example_q_inv : pq_inv zcmp example_q.
Proof.
  split; cbn -[pool_after replicate]; try lia.
  - by rewrite !length_insert, length_replicate.
  - exists [1024; 1000; 2000]%positive. split_and!; [done|repeat constructor; set_solver|].
    intros l. rewrite !lookup_insert_is_Some', lookup_empty. rewrite !elem_of_cons, elem_of_nil.
    pose proof (is_Some_None (A := @entry Z Z)). naive_solver.
  - intros i Hi. assert (i = 2 \/ i = 3) as [-> | ->] by lia; intros a b; vm_compute; naive_solver.
  - apply pool_after_ok.
  - by vm_compute.
Qed.

Lemma pq_enqueue_correct_witness : exists st q',
    globus_priority_q_enqueue zcmp (Some example_q) 30%Z 1%Z true = Ok (st, Some q') /\
    pq_inv zcmp q' /\
    (st = GLOBUS_SUCCESS /\ contents q' ≡ₚ Entry 1%Z 30%Z :: contents example_q \/
     st = GLOBUS_FAILURE /\ contents q' = contents example_q) /\
    (st = GLOBUS_FAILURE <-> next_slot example_q = max_len example_q /\ true = false \/
       Some 2024%positive = None).
Proof.
  eapply (pq_enqueue_correct zcmp); [exact example_q_inv|by vm_compute].
Defined.

Lemma pq_dequeue_correct_witness : exists e q',
    globus_priority_q_dequeue zcmp (Some example_q) = Ok (Some (datum e), Some q') /\
    pq_inv zcmp q' /\
    contents example_q ≡ₚ e :: contents q' /\
    (forall e', e' ∈ contents example_q -> (zcmp (priority e) (priority e') <= 0)%Z) /\
    globus_priority_q_first (Some example_q) = Ok (Some (datum e)) /\
    globus_priority_q_first_priority (Some example_q) = Ok (Some (priority e)).
Proof. apply (pq_dequeue_correct zcmp); [exact example_q_inv|done]. Defined.

Lemma pq_remove_correct_witness :
  (exists e q', globus_priority_q_remove zcmp (Some example_q) 10%Z = Ok (Some 10%Z, Some q') /\
     pq_inv zcmp q' /\ datum e = 10%Z /\ contents example_q ≡ₚ e :: contents q') \/
  (globus_priority_q_remove zcmp (Some example_q) 10%Z = Ok (None, Some example_q) /\
   forall e, e ∈ contents example_q -> datum e <> 10%Z).
Proof. apply (pq_remove_correct zcmp), example_q_inv. Defined.

Lemma pq_modify_correct_witness :
  (exists e rest q', globus_priority_q_modify zcmp (Some example_q) 20%Z 9%Z
                     = Ok (Some (priority e), Some q') /\
     pq_inv zcmp q' /\ datum e = 20%Z /\
     contents example_q ≡ₚ e :: rest /\ contents q' ≡ₚ Entry 9%Z 20%Z :: rest) \/
  (globus_priority_q_modify zcmp (Some example_q) 20%Z 9%Z = Ok (None, Some example_q) /\
   forall e, e ∈ contents example_q -> datum e <> 20%Z).
Proof. apply (pq_modify_correct zcmp), example_q_inv. Defined.

Lemma pq_destroy_no_leak_witness :
  exists m, globus_priority_q_destroy (Some example_q) = Ok (GLOBUS_SUCCESS, Some m) /\
    np_ok m /\ np_live m = ∅.
Proof. apply (pq_destroy_no_leak zcmp), example_q_inv. Defined.

Lemma pq_drain_sorted_witness :
  exists es q', drain zcmp (length (contents example_q)) example_q = Ok (datum <$> es, q') /\
    es ≡ₚ contents example_q /\
    StronglySorted (fun a b => (zcmp (priority a) (priority b) <= 0)%Z) es /\
    globus_priority_q_empty (Some q') = true.
Proof. apply (pq_drain_sorted zcmp), example_q_inv. Defined.

(** [globus_priority_q_remove] takes the first entry of the array with the
    datum, which need not be the one with the highest priority: with 10 queued at
    priorities 5 and 4, the one at 5 is removed and the one at 4 stays. *)
Theorem pq_remove_not_highest :
  exists q', globus_priority_q_remove zcmp (Some example_q) 10%Z = Ok (Some 10%Z, Some q') /\
    Entry 4%Z 10%Z ∈ contents q' /\ Entry 5%Z 10%Z ∉ contents q'.
Proof.
  eexists. split; [vm_compute; reflexivity|].
  split; match goal with |- ?P => by apply (bool_decide_unpack P); vm_compute end.
Qed.
End PriorityQ.
