(* ===== verification/HandleTable.v ===== *)
(** * Handle tables (common/source/library/globus_handle_table.c)

    Reference-counted handles. A handle is an index into an array of pointers to
    entries; entries whose count has reached zero are kept on a list of inactive
    entries and reused, with their index, by later insertions.

    Entries live in a store indexed by address. Operations that allocate take
    the results of [malloc] and [realloc] as arguments. The destructor is
    observed: every operation also returns the list of the values it has
    destroyed, in order; [destructor] says whether one was given. Values are of
    an abstract type, so that NULL is never inserted. *)
From S2P Require Import Prelude.
Local Open Scope Z_scope.

Module HandleTable.

Definition GLOBUS_NULL_HANDLE : Z := 0.
Definition GLOBUS_L_HANDLE_TABLE_BLOCK_SIZE : Z := 100.

Section Defs.
Context {V : Type}.

Record handle_entry := Entry {
  index : Z;
  ref : Z;
  value : V;
  pnext : ptr;
}.

Record handle_table := Table {
  table : list ptr;
  next_slot : Z;
  table_size : Z;
  inactive : ptr;
  destructor : bool;
  store : gmap loc handle_entry;   (** the entry at each address *)
}.

(** The status, the table, and whether the caller's variable was passed to
    [free]. [struct_ok] and [table_ok] are the results of the two [malloc]s, of
    which the first is not checked. *)
Definition globus_handle_table_init (arg : bool) (dtor struct_ok table_ok : bool) :
    result (Z * option handle_table * bool) :=
  if negb arg then Ok (GLOBUS_FAILURE, None, false)
  else if negb struct_ok then Fault NullDeref
  else if negb table_ok then Ok (GLOBUS_FAILURE, None, true)
  else Ok (GLOBUS_SUCCESS,
           Some (Table (replicate (Z.to_nat GLOBUS_L_HANDLE_TABLE_BLOCK_SIZE) None)
                   (GLOBUS_NULL_HANDLE + 1) GLOBUS_L_HANDLE_TABLE_BLOCK_SIZE None dtor ∅),
           false).

(** What a call of the destructor destroys. *)
Definition destroys (dtor : bool) (v : V) : list V := if dtor then [v] else [].

(** [free] of an entry. *)
Definition free_entry (l : loc) (st : gmap loc handle_entry) : result (gmap loc handle_entry) :=
  _ ← deref (st !! l); Ok (delete l st).

(** The loop of [destroy] over the slots, from [i] down to 1. *)
Fixpoint destroy_active (i : nat) (tab : list ptr) (dtor : bool) (st : gmap loc handle_entry) :
    result (list V * gmap loc handle_entry) :=
  match i with
  | O => Ok ([], st)
  | S i' =>
      p ← c_index tab (Z.of_nat i);
      match p with
      | None => destroy_active i' tab dtor st
      | Some l =>
          e ← deref (st !! l);
          st' ← free_entry l st;
          '(vs, st'') ← destroy_active i' tab dtor st';
          Ok (destroys dtor (value e) ++ vs, st'')
      end
  end.

(** The loop over the inactive entries; each iteration frees one. *)
Fixpoint destroy_inactive (fuel : nat) (p : ptr) (st : gmap loc handle_entry) :
    result (gmap loc handle_entry) :=
  match p, fuel with
  | None, _ => Ok st
  | Some _, O => Fault OutOfFuel
  | Some l, S fuel =>
      e ← deref (st !! l);
      st' ← free_entry l st;
      destroy_inactive fuel (pnext e) st'
  end.

(** The status, the destroyed values and the entries still allocated. *)
Definition globus_handle_table_destroy (t : option handle_table) :
    result (Z * list V * gmap loc handle_entry) :=
  match t with
  | None => Ok (GLOBUS_FAILURE, [], ∅)
  | Some t =>
      '(vs, st) ← destroy_active (Z.to_nat (next_slot t - 1)) (table t) (destructor t) (store t);
      st' ← destroy_inactive (S (size st)) (inactive t) st;
      Ok (GLOBUS_SUCCESS, vs, st')
  end.

(** [new_entry] is the result of [malloc], if called, [realloc_ok] of [realloc]. *)
Definition globus_handle_table_insert (t : option handle_table) (v : V) (initial_refs : Z)
    (new_entry : ptr) (realloc_ok : bool) : result (Z * option handle_table) :=
  match t with
  | None => Ok (GLOBUS_NULL_HANDLE, None)
  | Some t =>
      match inactive t with
      | Some l =>
          e ← deref (store t !! l);
          tab ← c_update (table t) (index e) (Some l);
          Ok (index e,
              Some (Table tab (next_slot t) (table_size t) (pnext e) (destructor t)
                      (<[l := Entry (index e) initial_refs v (pnext e)]> (store t))))
      | None =>
          if (next_slot t =? table_size t) && negb realloc_ok
          then Ok (GLOBUS_NULL_HANDLE, Some t)
          else
            '(tab, sz) ←
              (if next_slot t =? table_size t then
                 sz ← s32 (table_size t + GLOBUS_L_HANDLE_TABLE_BLOCK_SIZE);
                 Ok (table t ++ replicate (Z.to_nat GLOBUS_L_HANDLE_TABLE_BLOCK_SIZE) None, sz)
               else Ok (table t, table_size t));
            match new_entry with
            | None =>
                Ok (GLOBUS_NULL_HANDLE,
                    Some (Table tab (next_slot t) sz None (destructor t) (store t)))
            | Some l =>
                n ← s32 (next_slot t + 1);
                tab' ← c_update tab (next_slot t) (Some l);
                Ok (next_slot t,
                    Some (Table tab' n sz None (destructor t)
                            (<[l := Entry (next_slot t) initial_refs v None]> (store t))))
            end
      end
  end.

(** The entry a handle designates. *)
Definition entry_of (t : handle_table) (handle : Z) : result ptr :=
  if (GLOBUS_NULL_HANDLE <? handle) && (handle <? next_slot t)
  then c_index (table t) handle
  else Ok None.

Definition set_entry (t : handle_table) (l : loc) (e : handle_entry) : handle_table :=
  Table (table t) (next_slot t) (table_size t) (inactive t) (destructor t) (<[l := e]> (store t)).

(** [ref] is an int and [inc] unsigned: the sum is computed modulo 2^32. *)
Definition globus_handle_table_increment_reference_by (t : option handle_table) (handle inc : Z) :
    result (bool * option handle_table) :=
  match t with
  | None => Ok (false, None)
  | Some t =>
      p ← entry_of t handle;
      match p with
      | None => Ok (false, Some t)
      | Some l =>
          e ← deref (store t !! l);
          Ok (true, Some (set_entry t l (Entry (index e) (swrap 32 (ref e + inc)) (value e) (pnext e))))
      end
  end.

Definition globus_handle_table_increment_reference (t : option handle_table) (handle : Z) :
    result (bool * option handle_table) :=
  globus_handle_table_increment_reference_by t handle 1.

Definition globus_handle_table_decrement_reference (t : option handle_table) (handle : Z) :
    result (bool * list V * option handle_table) :=
  match t with
  | None => Ok (false, [], None)
  | Some t =>
      p ← entry_of t handle;
      match p with
      | None => Ok (false, [], Some t)
      | Some l =>
          e ← deref (store t !! l);
          r ← s32 (ref e - 1);
          if r =? 0 then
            tab ← c_update (table t) handle None;
            Ok (false, destroys (destructor t) (value e),
                Some (Table tab (next_slot t) (table_size t) (Some l) (destructor t)
                        (<[l := Entry (index e) r (value e) (inactive t)]> (store t))))
          else Ok (true, [], Some (set_entry t l (Entry (index e) r (value e) (pnext e))))
      end
  end.

Definition globus_handle_table_lookup (t : option handle_table) (handle : Z) : result (option V) :=
  match t with
  | None => Ok None
  | Some t =>
      p ← entry_of t handle;
      match p with
      | None => Ok None
      | Some l => e ← deref (store t !! l); Ok (Some (value e))
      end
  end.
End Defs.
Arguments handle_entry : clear implicits.
Arguments handle_table : clear implicits.

(** ** The invariant *)

Section Invariant.
Context {V : Type}.
Implicit Types (t : handle_table V) (e : handle_entry V).

Definition links (st : gmap loc (handle_entry V)) : gmap loc ptr := pnext <$> st.
#[local] Arguments links : simpl never.

(** Every entry has an index of its own, below [next_slot]; its slot points to it
    or is NULL, and then the entry is on the list of inactive ones. *)
Record inv t : Prop := {
  inv_size : 1 <= next_slot t <= table_size t;
  inv_len : Z.of_nat (length (table t)) = table_size t;
  inv_slot : forall h l, 1 <= h < next_slot t -> table t !! Z.to_nat h = Some (Some l) ->
    exists e, store t !! l = Some e /\ index e = h;
  inv_index : forall l e, store t !! l = Some e -> 1 <= index e < next_slot t;
  inv_inj : forall l l' e e', store t !! l = Some e -> store t !! l' = Some e' ->
    index e = index e' -> l = l';
  inv_inactive : exists ls, chain (links (store t)) (inactive t) ls /\ NoDup ls /\
    forall l e, store t !! l = Some e ->
      (table t !! Z.to_nat (index e) = Some (Some l) /\ l ∉ ls) \/
      (table t !! Z.to_nat (index e) = Some None /\ l ∈ ls);
}.

(** The abstract table: the value and the count of each live handle. *)
Definition abs t (h : Z) : option (V * Z) :=
  if (GLOBUS_NULL_HANDLE <? h) && (h <? next_slot t) then
    match table t !! Z.to_nat h with
    | Some (Some l) => e ← store t !! l; Some (value e, ref e)
    | _ => None
    end
  else None.

Lemma entry_of_spec t h :
  inv t ->
  (exists l e, entry_of t h = Ok (Some l) /\ store t !! l = Some e /\ index e = h /\
     1 <= h < next_slot t /\ table t !! Z.to_nat h = Some (Some l) /\
     abs t h = Some (value e, ref e)) \/
  (entry_of t h = Ok None /\ abs t h = None).
Proof.
  intros [Hsz Hlen Hslot _ _ _]. unfold entry_of, abs, GLOBUS_NULL_HANDLE.
  destruct (_ && _) eqn:E; [|by right]. apply andb_true_iff in E as [?%Z.ltb_lt ?%Z.ltb_lt].
  destruct (lookup_lt_is_Some_2 (table t) (Z.to_nat h)) as [p Hp]; [lia|].
  rewrite (c_index_ok _ _ p) by (done || lia). destruct p as [l|]; [left|right; by rewrite Hp].
  destruct (Hslot h l) as (e & He & Hi); [lia|done|].
  exists l, e. rewrite Hp. cbn. rewrite He. split_and!; done || lia.
Qed.

(** A handle's entry is found through any of the entries. *)
Lemma abs_entry t l e :
  inv t -> store t !! l = Some e -> table t !! Z.to_nat (index e) = Some (Some l) ->
  abs t (index e) = Some (value e, ref e).
Proof.
  intros [_ _ _ Hidx _ _] He Ht. specialize (Hidx l e He). unfold abs, GLOBUS_NULL_HANDLE. zdecide.
  cbn. by rewrite Ht, He.
Qed.

(** Changing the value and the count of the entry of a handle. *)
Lemma set_entry_inv t l e e' h :
  inv t -> store t !! l = Some e -> index e' = index e -> pnext e' = pnext e ->
  table t !! Z.to_nat (index e) = Some (Some l) ->
  inv (set_entry t l e') /\
  abs (set_entry t l e') h = if decide (h = index e) then Some (value e', ref e') else abs t h.
Proof.
  intros Hinv He Hi Hn Ht. pose proof Hinv as [Hsz Hlen Hslot Hidx Hinj (ls & Hc & Hnd & Hls)].
  assert (links (<[l := e']> (store t)) = links (store t)) as Hlinks.
  { unfold links. rewrite fmap_insert, Hn. apply insert_id. rewrite lookup_fmap, He. done. }
  split.
  - split; cbn; try done.
    + intros k m Hk Hm. destruct (Hslot k m Hk Hm) as (e0 & He0 & Hi0).
      destruct (decide (m = l)) as [->|].
      * exists e'. rewrite lookup_insert_eq. split; [done|]. naive_solver.
      * exists e0. by rewrite lookup_insert_ne.
    + intros m e0. rewrite lookup_insert_Some. intros [[<- <-]|[_ ?]]; [rewrite Hi|]; eauto.
    + intros m m' e1 e2. rewrite !lookup_insert_Some.
      intros [[<- <-]|[? H1]] [[<- <-]|[? H2]] E; [done|..]; eapply Hinj; eauto; congruence.
    + exists ls. rewrite Hlinks. split_and!; [done|done|]. intros m e0.
      rewrite lookup_insert_Some. intros [[<- <-]|[_ ?]]; [|eauto]. rewrite Hi. eauto.
  - unfold abs. cbn. destruct (decide (h = index e)) as [->|Hne].
    + specialize (Hidx l e He). unfold GLOBUS_NULL_HANDLE. zdecide. cbn. by rewrite Ht, lookup_insert_eq.
    + destruct (_ && _) eqn:E; [|done]. destruct (table t !! Z.to_nat h) as [[m|]|] eqn:Hm; [|done..].
      apply andb_true_iff in E as [?%Z.ltb_lt ?%Z.ltb_lt].
      destruct (Hslot h m ltac:(unfold GLOBUS_NULL_HANDLE in *; lia) Hm) as (e0 & He0 & Hi0).
      rewrite lookup_insert_ne; [done|]. intros <-. naive_solver.
Qed.

(** Two tables that agree on the slots of the old one's handles but for [k]. *)
Lemma abs_update t t' k r h :
  inv t -> next_slot t <= next_slot t' -> 1 <= k < next_slot t' ->
  (forall j, 1 <= j < next_slot t' -> j <> k ->
     table t' !! Z.to_nat j = if j <? next_slot t then table t !! Z.to_nat j else Some None) ->
  (forall l e, store t !! l = Some e -> index e <> k -> store t' !! l = Some e) ->
  abs t' k = r -> abs t' h = if decide (h = k) then r else abs t h.
Proof.
  intros [_ _ Hslot _ _ _] Hnext Hk Htab Hst Hr. destruct (decide (h = k)) as [->|Hne]; [done|].
  unfold abs, GLOBUS_NULL_HANDLE. destruct (Z.ltb_spec 0 h); cbn; [|done].
  destruct (Z.ltb_spec h (next_slot t')); cbn.
  - rewrite Htab by lia. destruct (Z.ltb_spec h (next_slot t)) as [Hlt|Hge]; [|done].
    destruct (table t !! Z.to_nat h) as [[l|]|] eqn:Hl; [|done..].
    destruct (Hslot h l ltac:(lia) Hl) as (e & He & Hi). rewrite He, (Hst l e); [done|done|congruence].
  - zdecide. done.
Qed.

(** Taking the first inactive entry. *)
Lemma insert_inactive t l v refs m rl :
  inv t -> inactive t = Some l ->
  exists e t', store t !! l = Some e /\ 1 <= index e /\
    globus_handle_table_insert (Some t) v refs m rl = Ok (index e, Some t') /\ inv t' /\
    abs t (index e) = None /\ destructor t' = destructor t /\
    forall h, abs t' h = if decide (h = index e) then Some (v, refs) else abs t h.
Proof.
  intros Hinv Hl. pose proof Hinv as [Hsz Hlen Hslot Hidx Hinj (ls & Hc & Hnd & Hls)].
  destruct ls as [|l' ls]; cbn in Hc; [congruence|]. destruct Hc as (E & q & Hq & Hc).
  rewrite Hl in E. injection E as <-. unfold links in Hq. rewrite lookup_fmap in Hq.
  destruct (store t !! l) as [e|] eqn:He; [|done]. injection Hq as Hq.
  destruct (Hls l e He) as [[_ ?]|[Ht _]]; [set_solver|]. apply NoDup_cons in Hnd as [Hnl Hnd].
  pose proof (Hidx l e He) as Hie. eexists e, _. split; [done|]. split; [lia|].
  unfold globus_handle_table_insert, mbind, result_bind. rewrite Hl, He. cbn [deref].
  rewrite c_update_ok by lia. split; [reflexivity|].
  match goal with |- inv ?x /\ _ => set (t' := x) end.
  assert (inv t') as Hinv'.
  { split; cbn; try done.
    - by rewrite length_insert.
    - intros h k Hh. destruct (decide (h = index e)) as [->|Hne].
      + rewrite list_lookup_insert_eq by lia. intros [= <-]. eexists. by rewrite lookup_insert_eq.
      + rewrite list_lookup_insert_ne by lia. intros Hk. destruct (Hslot h k Hh Hk) as (e0 & He0 & Hi0).
        exists e0. rewrite lookup_insert_ne; [done|]. intros <-. congruence.
    - intros k e0. rewrite lookup_insert_Some. intros [[<- <-]|[_ ?]]; [done|eauto].
    - intros k k' e1 e2. rewrite !lookup_insert_Some.
      intros [[<- <-]|[? H1]] [[<- <-]|[? H2]] E'; [done|..]; eapply Hinj; eauto.
    - exists ls. split_and!; [|done|].
      + eapply chain_frame; [by rewrite <- Hq in Hc|]. intros k Hk. unfold links.
        rewrite !lookup_fmap, lookup_insert_ne; [done|]. intros <-. done.
      + intros k e0. rewrite lookup_insert_Some. intros [[<- <-]|[Hne Hk]]; cbn.
        * left. split; [|done]. rewrite list_lookup_insert_eq; [done|lia].
        * assert (index e0 <> index e) by (intros E'; apply Hne; by eapply Hinj).
          pose proof (Hidx k e0 Hk). rewrite list_lookup_insert_ne by lia.
          destruct (Hls k e0 Hk) as [[? ?]|[? ?]]; [left|right]; split; try done; set_solver. }
  split; [done|]. split; [|split; [done|]].
  - unfold abs, GLOBUS_NULL_HANDLE. zdecide. cbn. by rewrite Ht.
  - intros h. apply (abs_update t); cbn; try done; try lia.
    + intros j Hj Hne. zdecide. rewrite list_lookup_insert_ne; [done|lia].
    + intros k e0 Hk Hne. rewrite lookup_insert_ne; [done|]. intros <-. congruence.
    + apply (abs_entry t' l (Entry (index e) refs v (pnext e)) Hinv'); cbn; [by rewrite lookup_insert_eq|].
      apply list_lookup_insert_eq. lia.
Qed.

Definition grown t : handle_table V :=
  Table (table t ++ replicate (Z.to_nat GLOBUS_L_HANDLE_TABLE_BLOCK_SIZE) None) (next_slot t)
    (table_size t + GLOBUS_L_HANDLE_TABLE_BLOCK_SIZE) (inactive t) (destructor t) (store t).

Lemma grown_inv t : inv t -> inv (grown t) /\ forall h, abs (grown t) h = abs t h.
Proof.
  intros [Hsz Hlen Hslot Hidx Hinj (ls & Hc & Hnd & Hls)].
  assert (forall j, j < next_slot t ->
    (table t ++ replicate (Z.to_nat GLOBUS_L_HANDLE_TABLE_BLOCK_SIZE) None) !! Z.to_nat j =
    table t !! Z.to_nat j) as Hj.
  { intros j Hj. apply lookup_app_l. lia. }
  split.
  - split; cbn -[replicate]; try done.
    + unfold GLOBUS_L_HANDLE_TABLE_BLOCK_SIZE. lia.
    + rewrite length_app, length_replicate. unfold GLOBUS_L_HANDLE_TABLE_BLOCK_SIZE. lia.
    + intros h l Hh. rewrite Hj by lia. eauto.
    + exists ls. split_and!; [done..|]. intros l e He. pose proof (Hidx l e He). rewrite Hj by lia. eauto.
  - intros h. unfold abs. cbn -[replicate]. destruct (_ && _) eqn:E; [|done].
    apply andb_true_iff in E as [_ ?%Z.ltb_lt]. by rewrite Hj.
Qed.

(** A new entry at the first slot never used. *)
Lemma insert_fresh t l v refs :
  inv t -> inactive t = None -> next_slot t < table_size t -> store t !! l = None ->
  let t' := Table (<[Z.to_nat (next_slot t) := Some l]> (table t)) (next_slot t + 1) (table_size t)
              None (destructor t) (<[l := Entry (next_slot t) refs v None]> (store t)) in
  inv t' /\ forall h, abs t' h = if decide (h = next_slot t) then Some (v, refs) else abs t h.
Proof.
  intros Hinv Hna Hroom Hl t'. pose proof Hinv as [Hsz Hlen Hslot Hidx Hinj (ls & Hc & Hnd & Hls)].
  rewrite Hna in Hc. destruct ls as [|k ls]; [|by destruct Hc].
  assert (inv t') as Hinv'.
  { split; cbn; try lia.
    - by rewrite length_insert.
    - intros h k Hh. destruct (decide (h = next_slot t)) as [->|Hne].
      + rewrite list_lookup_insert_eq by lia. intros [= <-]. eexists. by rewrite lookup_insert_eq.
      + rewrite list_lookup_insert_ne by lia. intros Hk.
        destruct (Hslot h k ltac:(lia) Hk) as (e0 & He0 & Hi0).
        exists e0. rewrite lookup_insert_ne; [done|]. intros <-. congruence.
    - intros k e0. rewrite lookup_insert_Some. intros [[<- <-]|[_ Hk]]; [cbn; lia|].
      specialize (Hidx _ _ Hk). lia.
    - intros k k' e1 e2. rewrite !lookup_insert_Some.
      intros [[<- <-]|[? H1]] [[<- <-]|[? H2]] E'; [done|..]; cbn in E'.
      + specialize (Hidx _ _ H2). lia.
      + specialize (Hidx _ _ H1). lia.
      + by eapply Hinj.
    - exists []. split_and!; [done|constructor|]. intros k e0. rewrite lookup_insert_Some. left.
      split; [|set_solver]. destruct H as [[<- <-]|[_ Hk]]; cbn.
      + apply list_lookup_insert_eq. lia.
      + pose proof (Hidx _ _ Hk). rewrite list_lookup_insert_ne by lia.
        destruct (Hls _ _ Hk) as [[? _]|[_ ?]]; [done|set_solver]. }
  split; [done|]. intros h. apply (abs_update t); cbn; try done; try lia.
  - intros j Hj Hne. zdecide. rewrite list_lookup_insert_ne; [done|lia].
  - intros k e0 Hk Hne. rewrite lookup_insert_ne; [done|]. congruence.
  - apply (abs_entry t' l (Entry (next_slot t) refs v None) Hinv'); cbn; [by rewrite lookup_insert_eq|].
    apply list_lookup_insert_eq. lia.
Qed.

(** Dropping the last reference. *)
Lemma retire_inv t l e :
  inv t -> store t !! l = Some e -> table t !! Z.to_nat (index e) = Some (Some l) ->
  forall r,
  let t' := Table (<[Z.to_nat (index e) := None]> (table t)) (next_slot t) (table_size t) (Some l)
              (destructor t) (<[l := Entry (index e) r (value e) (inactive t)]> (store t)) in
  inv t' /\ forall h, abs t' h = if decide (h = index e) then None else abs t h.
Proof.
  intros Hinv He Ht r t'. pose proof Hinv as [Hsz Hlen Hslot Hidx Hinj (ls & Hc & Hnd & Hls)].
  pose proof (Hidx l e He) as Hie.
  destruct (Hls l e He) as [[_ Hnl]|[? _]]; [|congruence].
  assert (inv t') as Hinv'.
  { split; cbn; try done.
    - by rewrite length_insert.
    - intros h k Hh. destruct (decide (h = index e)) as [->|Hne].
      + by rewrite list_lookup_insert_eq by lia.
      + rewrite list_lookup_insert_ne by lia. intros Hk.
        destruct (Hslot h k Hh Hk) as (e0 & He0 & Hi0).
        exists e0. rewrite lookup_insert_ne; [done|]. intros <-. congruence.
    - intros k e0. rewrite lookup_insert_Some. intros [[<- <-]|[_ Hk]]; eauto.
    - intros k k' e1 e2. rewrite !lookup_insert_Some.
      intros [[<- <-]|[? H1]] [[<- <-]|[? H2]] E'; [done|..]; eapply Hinj; eauto.
    - exists (l :: ls). split_and!; [|by constructor|].
      + cbn. split; [done|]. exists (inactive t). unfold links. rewrite lookup_fmap, lookup_insert_eq.
        split; [done|]. eapply chain_frame; [done|]. intros k Hk. unfold links.
        rewrite !lookup_fmap, lookup_insert_ne; [done|]. intros <-. done.
      + intros k e0. rewrite lookup_insert_Some. intros [[<- <-]|[Hne Hk]]; cbn.
        * right. split; [|set_solver]. apply list_lookup_insert_eq. lia.
        * assert (index e0 <> index e) by (intros E'; apply Hne; by eapply Hinj).
          pose proof (Hidx k e0 Hk). rewrite list_lookup_insert_ne by lia.
          destruct (Hls k e0 Hk) as [[? ?]|[? ?]]; [left|right]; split; try done; set_solver. }
  split; [done|]. intros h. apply (abs_update t); cbn; try done; try lia.
  - intros j Hj Hne. zdecide. rewrite list_lookup_insert_ne; [done|lia].
  - intros k e0 Hk Hne. rewrite lookup_insert_ne; [done|]. congruence.
  - unfold abs, GLOBUS_NULL_HANDLE, t'. cbn. zdecide. cbn. by rewrite list_lookup_insert_eq by lia.
Qed.
End Invariant.

(** ** The abstract table and the refinement *)

Section Refinement.
Context {V : Type}.
Implicit Types (t : handle_table V) (m : gmap Z (V * Z)).

(** A call, with the results of the allocator that it may use. *)
Inductive op :=
| OpInsert (v : V) (initial_refs : Z) (new_entry : ptr) (realloc_ok : bool)
| OpIncrement (handle inc : Z)
| OpDecrement (handle : Z)
| OpLookup (handle : Z).

Inductive out :=
| OutHandle (h : Z)
| OutBool (b : bool)
| OutValue (v : option V).

(** What a handle table promises: a map from handles to values and counts. *)
Inductive spec_step (dtor : bool) : gmap Z (V * Z) -> op -> out -> list V -> gmap Z (V * Z) -> Prop :=
| spec_insert m v r p b h :
    0 < h -> m !! h = None ->
    spec_step dtor m (OpInsert v r p b) (OutHandle h) [] (<[h := (v, r)]> m)
| spec_insert_fail m v r p b :
    p = None \/ b = false ->
    spec_step dtor m (OpInsert v r p b) (OutHandle GLOBUS_NULL_HANDLE) [] m
| spec_increment m h n v r :
    m !! h = Some (v, r) ->
    spec_step dtor m (OpIncrement h n) (OutBool true) [] (<[h := (v, swrap 32 (r + n))]> m)
| spec_increment_none m h n :
    m !! h = None -> spec_step dtor m (OpIncrement h n) (OutBool false) [] m
| spec_decrement m h v r :
    m !! h = Some (v, r) -> r <> 1 ->
    spec_step dtor m (OpDecrement h) (OutBool true) [] (<[h := (v, r - 1)]> m)
| spec_decrement_last m h v :
    m !! h = Some (v, 1) ->
    spec_step dtor m (OpDecrement h) (OutBool false) (destroys dtor v) (delete h m)
| spec_decrement_none m h :
    m !! h = None -> spec_step dtor m (OpDecrement h) (OutBool false) [] m
| spec_lookup m h : spec_step dtor m (OpLookup h) (OutValue (fst <$> m !! h)) [] m.

(** The code's step. *)
Definition impl_step t (o : op) : result (out * list V * handle_table V) :=
  match o with
  | OpInsert v r p b =>
      '(h, t') ← globus_handle_table_insert (Some t) v r p b;
      t' ← deref t'; Ok (OutHandle h, [], t')
  | OpIncrement h n =>
      '(b, t') ← globus_handle_table_increment_reference_by (Some t) h n;
      t' ← deref t'; Ok (OutBool b, [], t')
  | OpDecrement h =>
      '(b, vs, t') ← globus_handle_table_decrement_reference (Some t) h;
      t' ← deref t'; Ok (OutBool b, vs, t')
  | OpLookup h =>
      v ← globus_handle_table_lookup (Some t) h; Ok (OutValue v, [], t)
  end.

(** [malloc] returns an address that is not in use and the int counters do not
    overflow. *)
Definition op_ok t (o : op) : Prop :=
  match o with
  | OpInsert _ _ p _ =>
      table_size t <= INT_MAX - GLOBUS_L_HANDLE_TABLE_BLOCK_SIZE /\
      match p with Some l => store t !! l = None | None => True end
  | OpDecrement h => forall v r, abs t h = Some (v, r) -> INT_MIN < r <= INT_MAX
  | _ => True
  end.

(** The code's table represents the map. *)
Definition represents t m : Prop := inv t /\ forall h, abs t h = m !! h.

Lemma represents_set t t' m h vr :
  inv t' -> (forall k, abs t' k = if decide (k = h) then Some vr else abs t k) ->
  represents t m -> represents t' (<[h := vr]> m).
Proof.
  intros Hinv' Habs [_ Hm]. split; [done|]. intros k. rewrite Habs.
  destruct (decide (k = h)) as [->|]; [by rewrite lookup_insert_eq|by rewrite lookup_insert_ne].
Qed.

Lemma insert_refines t m v r p b :
  represents t m -> op_ok t (OpInsert v r p b) ->
  exists h t' m', globus_handle_table_insert (Some t) v r p b = Ok (h, Some t') /\
    spec_step (destructor t) m (OpInsert v r p b) (OutHandle h) [] m' /\ represents t' m' /\
    destructor t' = destructor t.
Proof.
  intros Hrep [Hmax Hp]. pose proof Hrep as [Hinv Hm]. unfold GLOBUS_L_HANDLE_TABLE_BLOCK_SIZE in *.
  destruct (inactive t) as [l|] eqn:Hina.
  { destruct (insert_inactive t l v r p b Hinv Hina) as (e & t' & He & Hi & Hrun & Hinv' & Hnone & Hd & Habs).
    exists (index e), t', (<[index e := (v, r)]> m). split_and!; [done| | |done].
    - constructor; [lia|by rewrite <- Hm].
    - by eapply represents_set. }
  unfold globus_handle_table_insert. rewrite Hina.
  destruct (_ && _) eqn:Efull.
  { apply andb_true_iff in Efull as [_ Eb%negb_true_iff].
    exists GLOBUS_NULL_HANDLE, t, m. split_and!; try done. constructor. by right. }
  set (t1 := if next_slot t =? table_size t then grown t else t).
  assert (represents t1 m /\ next_slot t1 < table_size t1 /\ inactive t1 = None /\
          destructor t1 = destructor t /\ store t1 = store t /\ next_slot t1 = next_slot t /\
          table_size t1 <= INT_MAX)
    as ([Hinv1 Hm1] & Hroom & Hina1 & Hd1 & Hst1 & Hn1 & Hmax1).
  { pose proof (inv_size t Hinv). unfold t1. destruct (Z.eqb_spec (next_slot t) (table_size t)).
    - destruct (grown_inv t Hinv) as [? Habs].
      split; [split; [done|intros h; by rewrite Habs]|].
      cbn; unfold GLOBUS_L_HANDLE_TABLE_BLOCK_SIZE. split_and!; done || lia.
    - split; [done|]. split_and!; done || lia. }
  unfold mbind, result_bind.
  assert ((if next_slot t =? table_size t
           then match s32 (table_size t + GLOBUS_L_HANDLE_TABLE_BLOCK_SIZE) with
                | Ok sz => Ok (table t ++ replicate (Z.to_nat GLOBUS_L_HANDLE_TABLE_BLOCK_SIZE) None, sz)
                | Fault f => Fault f end
           else Ok (table t, table_size t)) = Ok (table t1, table_size t1)) as ->.
  { pose proof (inv_size t Hinv). unfold t1. destruct (next_slot t =? table_size t); [|done].
    rewrite s32_ok; [done|unfold INT_MIN, GLOBUS_L_HANDLE_TABLE_BLOCK_SIZE; lia]. }
  destruct p as [l|].
  - rewrite <- Hn1, <- Hd1, <- Hst1. pose proof (inv_size t1 Hinv1). pose proof (inv_len t1 Hinv1).
    rewrite s32_ok, c_update_ok by (unfold INT_MIN; lia).
    destruct (insert_fresh t1 l v r) as [Hinv' Habs]; [done..|by rewrite Hst1|].
    eexists _, _, (<[next_slot t1 := (v, r)]> m). split; [reflexivity|]. split_and!; [| |done].
    + constructor; [lia|]. rewrite <- Hm1. unfold abs, GLOBUS_NULL_HANDLE. zdecide. done.
    + eapply (represents_set t1); done.
  - eexists GLOBUS_NULL_HANDLE, _, m. split; [reflexivity|]. split_and!; [constructor; by left| |done].
    rewrite <- Hn1, <- Hd1, <- Hst1, <- Hina1. destruct t1; done.
Qed.

Lemma increment_refines t m h n :
  represents t m ->
  exists b t' m', globus_handle_table_increment_reference_by (Some t) h n = Ok (b, Some t') /\
    spec_step (destructor t) m (OpIncrement h n) (OutBool b) [] m' /\ represents t' m' /\
    destructor t' = destructor t.
Proof.
  intros Hrep. pose proof Hrep as [Hinv Hm].
  unfold globus_handle_table_increment_reference_by, mbind, result_bind.
  destruct (entry_of_spec t h Hinv) as [(l & e & -> & He & <- & Hh & Ht & Ha)|[-> Ha]]; rewrite Hm in Ha.
  - rewrite He. cbn [deref]. eexists true, _, _. split; [reflexivity|]. split; [by constructor|].
    split; [|done]. eapply (represents_set t); [|intros k|done].
    + by apply (set_entry_inv t l e _ 0).
    + refine (proj2 (set_entry_inv t l e (Entry _ _ _ _) k Hinv He _ _ Ht)); done.
  - exists false, t, m. split_and!; try done. by constructor.
Qed.

Lemma decrement_refines t m h :
  represents t m -> op_ok t (OpDecrement h) ->
  exists b vs t' m', globus_handle_table_decrement_reference (Some t) h = Ok (b, vs, Some t') /\
    spec_step (destructor t) m (OpDecrement h) (OutBool b) vs m' /\ represents t' m' /\
    destructor t' = destructor t.
Proof.
  intros Hrep Hok. pose proof Hrep as [Hinv Hm].
  unfold globus_handle_table_decrement_reference, mbind, result_bind.
  destruct (entry_of_spec t h Hinv) as [(l & e & -> & He & <- & Hh & Ht & Ha)|[-> Ha]].
  - specialize (Hok _ _ Ha). rewrite Hm in Ha. rewrite He. cbn [deref]. rewrite s32_ok by lia.
    destruct (Z.eqb_spec (ref e - 1) 0) as [E|E].
    + pose proof (inv_index t Hinv l e He). pose proof (inv_size t Hinv). pose proof (inv_len t Hinv).
      rewrite c_update_ok by lia.
      destruct (retire_inv t l e Hinv He Ht (ref e - 1)) as [Hinv' Habs].
      eexists false, _, _, (delete (index e) m). split; [reflexivity|]. split.
      * apply spec_decrement_last. by replace (ref e) with 1 in Ha by lia.
      * split; [|done]. split; [done|]. intros k. rewrite Habs.
        destruct (decide (k = index e)) as [->|]; [by rewrite lookup_delete_eq|by rewrite lookup_delete_ne].
    + eexists true, _, _, _. split; [reflexivity|].
      split; [apply spec_decrement; [done|lia]|].
      split; [|done]. eapply (represents_set t); [|intros k|done].
      * by apply (set_entry_inv t l e _ 0).
      * refine (proj2 (set_entry_inv t l e (Entry _ _ _ _) k Hinv He _ _ Ht)); done.
  - rewrite Hm in Ha. exists false, [], t, m. split_and!; try done. by constructor.
Qed.

Lemma lookup_refines t m h :
  represents t m -> globus_handle_table_lookup (Some t) h = Ok (fst <$> m !! h).
Proof.
  intros [Hinv Hm]. unfold globus_handle_table_lookup, mbind, result_bind.
  destruct (entry_of_spec t h Hinv) as [(l & e & -> & He & _ & _ & _ & Ha)|[-> Ha]];
    rewrite Hm in Ha; rewrite Ha; [|done]. rewrite He. done.
Qed.

Lemma step_refines t m o :
  represents t m -> op_ok t o ->
  exists r vs t' m', impl_step t o = Ok (r, vs, t') /\
    spec_step (destructor t) m o r vs m' /\ represents t' m' /\ destructor t' = destructor t.
Proof.
  intros Hrep Hok. destruct o as [v r p b|h n|h|h]; unfold impl_step, mbind, result_bind.
  - destruct (insert_refines t m v r p b Hrep Hok) as (h & t' & m' & -> & ?). cbn [deref]. by eauto 8.
  - destruct (increment_refines t m h n Hrep) as (b & t' & m' & -> & ?). cbn [deref]. by eauto 8.
  - destruct (decrement_refines t m h Hrep Hok) as (b & vs & t' & m' & -> & ?). cbn [deref]. by eauto 8.
  - rewrite (lookup_refines t m h Hrep). do 4 eexists. split; [done|]. split; [constructor|done].
Qed.

(** A sequence of calls, what each returned and what it destroyed. *)
Fixpoint impl_run t (os : list op) : result (list (out * list V) * handle_table V) :=
  match os with
  | [] => Ok ([], t)
  | o :: os =>
      '(r, vs, t') ← impl_step t o; '(rs, t'') ← impl_run t' os; Ok ((r, vs) :: rs, t'')
  end.

Inductive spec_run (dtor : bool) :
    gmap Z (V * Z) -> list op -> list (out * list V) -> gmap Z (V * Z) -> Prop :=
| spec_run_nil m : spec_run dtor m [] [] m
| spec_run_cons m o os r vs rs m' m'' :
    spec_step dtor m o r vs m' -> spec_run dtor m' os rs m'' ->
    spec_run dtor m (o :: os) ((r, vs) :: rs) m''.

Fixpoint ops_ok t (os : list op) : Prop :=
  match os with
  | [] => True
  | o :: os => op_ok t o /\ forall r vs t', impl_step t o = Ok (r, vs, t') -> ops_ok t' os
  end.

(** C9: the handle table implements its contract: any sequence of calls on a table
    returns without a fault, and what the calls return and destroy is what a map
    from handles to values and reference counts allows, as long as [malloc]
    returns fresh addresses and the counters stay within an int. In particular a
    handle is handed out only when it designates nothing, designates its value
    until its count reaches zero, and the value is destroyed exactly then. *)
Theorem handle_table_refines t m os :
  represents t m -> ops_ok t os ->
  exists rs t' m', impl_run t os = Ok (rs, t') /\ spec_run (destructor t) m os rs m' /\ represents t' m'.
Proof.
  revert t m. induction os as [|o os IH]; intros t m Hrep Hok; cbn [impl_run].
  { exists [], t, m. split_and!; [done|constructor|done]. }
  destruct Hok as [Hok Hoks].
  destruct (step_refines t m o Hrep Hok) as (r & vs & t' & m' & Hrun & Hstep & Hrep' & Hd).
  destruct (IH t' m' Hrep' (Hoks _ _ _ Hrun)) as (rs & t'' & m'' & Hruns & Hsteps & Hrep'').
  unfold mbind, result_bind. rewrite Hrun, Hruns. rewrite Hd in Hsteps.
  eexists _, _, _. split; [reflexivity|]. split; [by econstructor|done].
Qed.

(** An initialised table is the empty map. *)
Lemma init_represents dtor :
  exists t, globus_handle_table_init true dtor true true = Ok (GLOBUS_SUCCESS, Some t, false) /\
    represents t ∅ /\ destructor t = dtor.
Proof.
  eexists. split; [reflexivity|]. split; [split|done].
  - split; cbn; unfold GLOBUS_NULL_HANDLE; try done; try lia.
    exists []. split_and!; [done|constructor|done].
  - intros h. unfold abs. rewrite lookup_empty. destruct (_ && _) eqn:E; [|done].
    apply andb_true_iff in E as [?%Z.ltb_lt ?%Z.ltb_lt].
    unfold GLOBUS_NULL_HANDLE in *. cbn in *. lia.
Qed.

(** [n] decrements of the same handle, and what they destroy. *)
Fixpoint decrement_n (n : nat) t (h : Z) : result (list V * handle_table V) :=
  match n with
  | O => Ok ([], t)
  | S n =>
      '(_, vs, t') ← globus_handle_table_decrement_reference (Some t) h;
      t' ← deref t';
      '(ws, t'') ← decrement_n n t' h;
      Ok (vs ++ ws, t'')
  end.

(** A handle with [r] references keeps resolving through [r - 1] decrements. *)
Lemma decrements_lifetime k r t m h v :
  represents t m -> m !! h = Some (v, Z.of_nat r) -> (1 <= r)%nat -> Z.of_nat r <= INT_MAX ->
  (k <= r)%nat ->
  exists t', decrement_n k t h = Ok (if decide (k = r) then destroys (destructor t) v else [], t') /\
    represents t' (if decide (k = r) then delete h m else <[h := (v, Z.of_nat (r - k))]> m) /\
    globus_handle_table_lookup (Some t') h = Ok (if decide (k = r) then None else Some v).
Proof.
  revert r t m. induction k as [|k IH]; intros r t m Hrep Hm Hr Hmax Hk.
  { exists t. rewrite !decide_False by lia. replace (r - 0)%nat with r by lia.
    rewrite insert_id by done. split_and!; [done|done|]. by rewrite (lookup_refines t m), Hm. }
  destruct (decrement_refines t m h Hrep) as (b & vs & t' & m' & Hrun & Hstep & Hrep' & Hd).
  { intros v' r'. rewrite (proj2 Hrep), Hm. intros [= <- <-]. unfold INT_MIN. lia. }
  cbn [decrement_n]. unfold mbind, result_bind. rewrite Hrun. cbn [deref].
  inversion Hstep as [| | | |? ? v' r' Hm' Hr1|? ? v' Hm'|? ? Hm'|]; subst; rewrite Hm in Hm'; simplify_eq.
  - destruct (IH (r - 1)%nat t' _ Hrep') as (t'' & Hrun' & Hrep'' & Hlk); [|lia..|].
    { rewrite lookup_insert_eq. do 3 f_equal. lia. }
    exists t''. rewrite Hrun', Hd. rewrite insert_insert_eq, delete_insert_eq in Hrep''.
    replace (r - 1 - k)%nat with (r - S k)%nat in Hrep'' by lia.
    do 2 destruct (decide _); try lia; split_and!; done.
  - assert (r = 1%nat) as -> by lia. assert (k = 0%nat) as -> by lia.
    rewrite !decide_True by lia. cbn [decrement_n].
    exists t'. rewrite app_nil_r. split_and!; [done|done|].
    by rewrite (lookup_refines t' _ h Hrep'), lookup_delete_eq.
Qed.

(** C33: a value that is inserted with [r] references gets a new handle, unless memory runs
    out, when NULL is returned and the table has the handles it had. The handle resolves to
    the value through the next [r - 1] decrements, which destroy nothing; the [r]-th one
    destroys the value, once, and the handle no longer resolves. The other handles are
    untouched. *)
Theorem handle_lifetime k r t m v p b :
  represents t m -> op_ok t (OpInsert v (Z.of_nat r) p b) -> (1 <= r)%nat -> Z.of_nat r <= INT_MAX -> (k <= r)%nat ->
  exists h t1, globus_handle_table_insert (Some t) v (Z.of_nat r) p b = Ok (h, Some t1) /\
    ((h = GLOBUS_NULL_HANDLE /\ (p = None \/ b = false) /\ represents t1 m) \/
     (0 < h /\ m !! h = None /\ exists t2,
        decrement_n k t1 h = Ok (if decide (k = r) then destroys (destructor t) v else [], t2) /\
        represents t2 (if decide (k = r) then m else <[h := (v, Z.of_nat (r - k))]> m) /\
        globus_handle_table_lookup (Some t2) h = Ok (if decide (k = r) then None else Some v))).
Proof.
  intros Hrep Hop Hr Hmax Hk.
  destruct (insert_refines t m v (Z.of_nat r) p b Hrep Hop) as (h & t1 & m1 & Hrun & Hstep & Hrep1 & Hd).
  exists h, t1. split; [done|]. inversion Hstep as [? ? ? ? ? ? Hh Hnone|? ? ? ? ? Hpb| | | | | |]; subst; [right|by left].
  split_and!; [done|done|].
  destruct (decrements_lifetime k r t1 (<[h := (v, Z.of_nat r)]> m) h v) as (t2 & Hdec & Hrep2 & Hlk); [done|by rewrite lookup_insert_eq|done..|].
  exists t2. rewrite Hdec, Hd. split_and!; [done| |done]. destruct (decide (k = r)).
  - by rewrite delete_insert_id in Hrep2.
  - by rewrite insert_insert_eq in Hrep2.
Qed.

(** A retired handle is the next one handed out. *)
Lemma handle_reused t m h v w refs p b :
  represents t m -> m !! h = Some (v, 1) ->
  exists t' t'', globus_handle_table_decrement_reference (Some t) h
                   = Ok (false, destroys (destructor t) v, Some t') /\
    globus_handle_table_insert (Some t') w refs p b = Ok (h, Some t'').
Proof.
  intros Hrep Hm. destruct (decrement_refines t m h Hrep) as (b' & vs & t' & m' & Hrun & Hstep & Hrep' & _).
  { intros v' r'. rewrite (proj2 Hrep), Hm. intros [= <- <-]. done. }
  inversion Hstep as [| | | |? ? v' r' Hm' Hr1|? ? v' Hm'|? ? Hm'|]; subst; rewrite Hm in Hm'; simplify_eq.
  pose proof Hrun as Hrun0. destruct Hrep as [Hinv Hm0]. pose proof (Hm0 h) as Ha. rewrite Hm in Ha.
  unfold globus_handle_table_decrement_reference, mbind, result_bind in Hrun.
  destruct (entry_of_spec t h Hinv) as [(l & e & Hent & He & Hi & _ & _ & Ha')|[_ ?]]; [|congruence].
  rewrite Hent, He in Hrun. cbn [deref] in Hrun. rewrite Ha in Ha'. injection Ha' as _ Hr.
  rewrite <- Hr in Hrun. cbn in Hrun.
  destruct (c_update _ _ _); [|done]. injection Hrun as Hvs <-.
  destruct Hrep' as [Hinv' _].
  destruct (insert_inactive _ l w refs p b Hinv' eq_refl) as (e' & t'' & He' & _ & Hins & _).
  cbn in He'. rewrite lookup_insert_eq in He'. injection He' as <-.
  eexists _, _. split; [exact Hrun0|]. rewrite <- Hi. exact Hins.
Qed.
End Refinement.

(** ** Destruction *)

Section Destroy.
Context {V : Type}.
Implicit Types (t : handle_table V).

(** The values of the handles up to [n], from the last one down. *)
Definition live_values t (n : nat) : list V :=
  omap (fun i => fst <$> abs t (Z.of_nat i)) (rev (seq 1 n)).

(** The entries left when the slots above [i] have been freed. *)
Definition left_at t (i : nat) (st : gmap loc (handle_entry V)) : Prop :=
  forall l e, st !! l = Some e <-> store t !! l = Some e /\
    (index e <= Z.of_nat i \/ table t !! Z.to_nat (index e) = Some None).

Lemma destroy_active_spec t i st :
  inv t -> Z.of_nat i < next_slot t -> left_at t i st ->
  exists st', destroy_active i (table t) (destructor t) st =
      Ok (if destructor t then live_values t i else [], st') /\ left_at t 0 st'.
Proof.
  intros Hinv. pose proof Hinv as [Hsz Hlen Hslot Hidx Hinj _].
  revert st. induction i as [|i IH]; intros st Hi Hst; cbn [destroy_active].
  { exists st. by destruct (destructor t). }
  destruct (lookup_lt_is_Some_2 (table t) (Z.to_nat (Z.of_nat (S i)))) as [p Hp]; [lia|].
  unfold mbind, result_bind. rewrite (c_index_ok _ _ p) by (done || lia).
  assert (live_values t (S i) = option_list (fst <$> abs t (Z.of_nat (S i))) ++ live_values t i) as ->.
  { unfold live_values. rewrite seq_S, rev_app_distr. cbn. by destruct (abs t _). }
  unfold abs at 1, GLOBUS_NULL_HANDLE. zdecide. cbn [andb]. rewrite Hp. destruct p as [l|].
  - destruct (Hslot (Z.of_nat (S i)) l ltac:(lia) Hp) as (e & He & Hie).
    assert (st !! l = Some e) as Hl by (apply Hst; split; [done|lia]).
    unfold free_entry, mbind, result_bind. rewrite Hl. cbn [deref]. rewrite He.
    destruct (IH (delete l st)) as (st' & -> & Hst'); [lia| |].
    { intros k e'. rewrite lookup_delete_Some, (Hst k e'). split.
      - intros (Hne & Hk & Hor). split; [done|]. destruct Hor as [Hle|?]; [|by right].
        left. assert (index e' <> index e) by (intros E; apply Hne; by eapply Hinj). lia.
      - intros [Hk Hor]. split_and!; [|done|destruct Hor; [left; lia|by right]].
        intros <-. simplify_eq. rewrite Hie, Hp in Hor. destruct Hor; [lia|done]. }
    exists st'. split; [|done]. unfold destroys. by destruct (destructor t).
  - destruct (IH st) as (st' & -> & Hst'); [lia| |by exists st'].
    intros k e'. rewrite (Hst k e'). split; intros [Hk Hor]; (split; [done|]).
    + destruct Hor as [Hle|?]; [|by right].
      destruct (decide (index e' = Z.of_nat (S i))) as [E|]; [right; by rewrite E|left; lia].
    + destruct Hor; [left; lia|by right].
Qed.

Lemma destroy_inactive_spec fuel p ls (st : gmap loc (handle_entry V)) :
  chain (links st) p ls -> NoDup ls -> dom st = list_to_set ls -> (length ls <= fuel)%nat ->
  destroy_inactive fuel p st = Ok ∅.
Proof.
  revert p ls st. induction fuel as [|fuel IH]; intros p [|l ls] st Hc Hnd Hdom Hlen;
    cbn in Hc, Hlen; try lia.
  1, 2: subst p; cbn in Hdom; apply dom_empty_inv_L in Hdom as ->; done.
  destruct Hc as (-> & q & Hq & Hc). unfold links in Hq. rewrite lookup_fmap in Hq.
  destruct (st !! l) as [e|] eqn:He; [|done]. injection Hq as Hq. apply NoDup_cons in Hnd as [Hl Hnd].
  cbn. unfold free_entry, mbind, result_bind. rewrite He. cbn [deref].
  apply (IH _ ls); [|done| |lia].
  - eapply chain_frame; [by rewrite Hq|]. intros k Hk. unfold links.
    rewrite !lookup_fmap, lookup_delete_ne; [done|]. intros <-. done.
  - rewrite dom_delete_L, Hdom. cbn. set_solver.
Qed.

Lemma chain_allocated (st : gmap loc (handle_entry V)) p ls l :
  chain (links st) p ls -> l ∈ ls -> is_Some (st !! l).
Proof.
  revert p. induction ls as [|k ls IH]; intros p; cbn; [set_solver|].
  intros (_ & q & Hq & Hc) [->|?]%elem_of_cons; [|eauto].
  unfold links in Hq. rewrite lookup_fmap in Hq. by destruct (st !! k).
Qed.

(** [globus_handle_table_destroy] calls the destructor exactly once for each
    live handle, from the highest handle down, and frees every entry, the
    inactive ones included, without freeing or reading one twice. *)
Theorem handle_table_destroy_correct t :
  inv t ->
  globus_handle_table_destroy (Some t) =
    Ok (GLOBUS_SUCCESS,
        if destructor t then live_values t (Z.to_nat (next_slot t - 1)) else [], ∅).
Proof.
  intros Hinv. pose proof Hinv as [Hsz _ _ Hidx _ (ls & Hc & Hnd & Hls)].
  unfold globus_handle_table_destroy, mbind, result_bind.
  destruct (destroy_active_spec t (Z.to_nat (next_slot t - 1)) (store t) Hinv) as (st & -> & Hst); [lia| |].
  { intros l e. split; [|naive_solver]. intros He. split; [done|]. specialize (Hidx l e He). lia. }
  assert (forall l e, st !! l = Some e <-> store t !! l = Some e /\ l ∈ ls) as Hin.
  { intros l e. rewrite (Hst l e). split.
    - intros [He Hor]. specialize (Hidx l e He). destruct (Hls l e He) as [[? ?]|[? ?]]; [|done].
      destruct Hor; [lia|congruence].
    - intros [He Hl]. destruct (Hls l e He) as [[? ?]|[? ?]]; [done|]. eauto. }
  assert (forall l, l ∈ ls -> st !! l = store t !! l) as Heq.
  { intros l Hl. destruct (store t !! l) as [e|] eqn:He; [by apply Hin|].
    destruct (st !! l) as [e|] eqn:He'; [|done]. apply Hin in He' as [? _]. congruence. }
  assert (dom st = list_to_set ls) as Hdom.
  { apply set_eq. intros l. rewrite elem_of_dom, elem_of_list_to_set. split.
    - intros [e He]. by apply Hin in He as [_ ?].
    - intros Hl. rewrite Heq by done. by eapply chain_allocated. }
  rewrite (destroy_inactive_spec _ _ ls); [done| |done|done|].
  - eapply chain_frame; [done|]. intros l Hl. unfold links. by rewrite !lookup_fmap, Heq.
  - rewrite <- (size_dom (D := gset loc)), Hdom, size_list_to_set by done. lia.
Qed.
End Destroy.

(** ** A concrete run: two handles, the first retired and reused *)

Definition example_table : handle_table Z :=
  Table (<[1%nat := Some 1%positive]> (<[2%nat := Some 2%positive]> (replicate 100 None))) 3 100 None true
    (<[1%positive := Entry 1 2 10 None]> (<[2%positive := Entry 2 1 20 None]> ∅)).

Lemma example_represents : represents example_table (<[1 := (10, 2)]> (<[2 := (20, 1)]> ∅)).
Proof.
  destruct (@init_represents Z true) as (t & Hinit & Hrep & _).
  injection Hinit as <-.
  destruct (insert_fresh _ 1%positive 10 2 (proj1 Hrep)) as [Hinv1 Habs1]; [done..|].
  destruct (insert_fresh _ 2%positive 20 1 Hinv1) as [Hinv2 Habs2]; [done..|].
  split; [|intros h].
  - exact Hinv2.
  - etrans; [exact (Habs2 h)|]. rewrite Habs1, (proj2 Hrep). cbn [next_slot].
    rewrite !lookup_insert. repeat case_decide; unfold GLOBUS_NULL_HANDLE in *; done || lia.
Qed.

Definition example_ops : list (@op Z) :=
  [OpDecrement 1; OpLookup 1; OpDecrement 1; OpLookup 1; OpInsert 30 1 None false; OpLookup 1].

Lemma handle_table_refines_witness :
  impl_run example_table example_ops =
    Ok ([(OutBool true, []); (OutValue (Some 10), []); (OutBool false, [10]); (OutValue None, []);
         (OutHandle 1, []); (OutValue (Some 30), [])],
        Table (table example_table) 3 100 None true
          (<[1%positive := Entry 1 1 30 None]> (store example_table))) /\
  exists rs t' m', impl_run example_table example_ops = Ok (rs, t') /\
    spec_run true (<[1 := (10, 2)]> (<[2 := (20, 1)]> ∅)) example_ops rs m' /\ represents t' m'.
Proof.
  split; [by vm_compute|].
  apply handle_table_refines; [exact example_represents|].
  repeat (split; [first [exact I | split; [by vm_compute|exact I]
                        | intros ? ? E; vm_compute in E; injection E as <- <-; by vm_compute]|];
          intros ? ? ? E; vm_compute in E; injection E as _ _ <-). exact I.
Defined.

Lemma handle_lifetime_witness :
  exists t1 t2, globus_handle_table_insert (Some example_table) 30 2 (Some 3%positive) true = Ok (3, Some t1) /\
    decrement_n 2 t1 3 = Ok ([30], t2) /\ represents t2 (<[1 := (10, 2)]> (<[2 := (20, 1)]> ∅)) /\
    globus_handle_table_lookup (Some t2) 3 = Ok None.
Proof.
  destruct (handle_lifetime 2 2 example_table _ 30 (Some 3%positive) true example_represents) as (h & t1 & Hrun & H); [split; vm_compute; done|lia|done|lia|].
  assert (h = 3) as -> by (vm_compute in Hrun; by injection Hrun).
  destruct H as [[H _]|(_ & _ & t2 & Hdec & Hrep & Hlk)]; [discriminate H|]. exists t1, t2. split_and!; [exact Hrun|exact Hdec|exact Hrep|exact Hlk].
Defined.

Lemma handle_table_destroy_correct_witness :
  globus_handle_table_destroy (Some example_table) = Ok (GLOBUS_SUCCESS, [20; 10], ∅).
Proof.
  rewrite (handle_table_destroy_correct example_table (proj1 example_represents)). by vm_compute.
Defined.
End HandleTable.
