(* ===== verification/GlobusList.v ===== *)
(** * Linked lists (common/source/library/globus_list.c)

    Singly linked lists of cells in a heap. A cell comes from the memory pool of
    the module, or from [malloc] while the module is not active, and remembers
    which in its [malloced] field so that it is returned to the right one. The
    two allocators are one interface, [ListAlloc], indexed by that flag.

    A list is a pointer to its first cell; every operation works on the cells in
    place. Loops take as fuel the number of allocated cells plus one. [assert]s are
    enabled. *)
From S2P Require Import Prelude.
From S2P Require Import Memory.
From Stdlib Require Import Permutation Sorted Ascii.
Local Open Scope Z_scope.

(** The allocators of list cells: [la_pop b] is [globus_malloc] when [b] holds,
    [globus_memory_pop_node] otherwise, and [la_push b] frees to the same. *)
Class ListAlloc (A : Type) := {
  la_pop : bool -> A -> result (option loc * A);
  la_push : bool -> loc -> A -> A;
  la_live : bool -> A -> gset loc;
  la_ok : A -> Prop;
}.

Class ListAllocLaws (A : Type) `{ListAlloc A} : Prop := {
  la_pop_some b a l a' :
    la_ok a -> la_pop b a = Ok (Some l, a') ->
    la_ok a' /\ (forall b', l ∉ la_live b' a) /\
    la_live b a' = ({[l]} ∪ la_live b a) /\ la_live (negb b) a' = la_live (negb b) a;
  la_push_ok b a l :
    la_ok a -> l ∈ la_live b a ->
    la_ok (la_push b l a) /\ la_live b (la_push b l a) = (la_live b a ∖ {[l]}) /\
    la_live (negb b) (la_push b l a) = la_live (negb b) a;
}.

Module GlobusList.

Section Defs.
Context {D : Type} `{EqDecision D} {A : Type} `{ListAlloc A}.

Record cell := Cell { datum : D; next : ptr; malloced : bool }.

Record lheap := LHeap {
  cells : gmap loc cell;
  alloc : A;
  globus_l_list_active : bool;
}.

Abbreviation lm := (prog lheap).

(** Reading and writing a cell. *)
Definition read (p : ptr) : lm cell :=
  h ← get; l ← run (deref p); run (deref (cells h !! l)).

Definition write (l : loc) (c : cell) : lm unit :=
  h ← get; _ ← run (deref (cells h !! l));
  put (LHeap (<[l := c]> (cells h)) (alloc h) (globus_l_list_active h)).

Definition set_next (p : ptr) (q : ptr) : lm unit :=
  l ← run (deref p); c ← read p; write l (Cell (datum c) q (malloced c)).

(** The bound of the loops. *)
Definition fuel : lm nat := h ← get; mret (S (size (cells h))).

Definition globus_list_first (head : ptr) : lm D :=
  _ ← run (c_assert (bool_decide (is_Some head))); c ← read head; mret (datum c).

Definition globus_list_rest (head : ptr) : lm ptr :=
  _ ← run (c_assert (bool_decide (is_Some head))); c ← read head; mret (next c).

(** The reference to the [next] field is the cell itself. *)
Definition globus_list_rest_ref (head : ptr) : lm ptr :=
  _ ← run (c_assert (bool_decide (is_Some head))); mret head.

Definition globus_list_empty (head : ptr) : bool := bool_decide (head = None).

Fixpoint size_loop (n : nat) (list : ptr) (size : Z) : lm Z :=
  match n with
  | O => run (Fault OutOfFuel)
  | S n =>
      if globus_list_empty list then mret size
      else
        size' ← run (s32 (size + 1));
        list' ← globus_list_rest list;
        size_loop n list' size'
  end.

Definition globus_list_size (head : ptr) : lm Z := n ← fuel; size_loop n head 0.

Definition globus_list_replace_first (head : ptr) (d : D) : lm D :=
  _ ← run (c_assert (bool_decide (is_Some head)));
  l ← run (deref head); c ← read head;
  _ ← write l (Cell d (next c) (malloced c));
  mret (datum c).

Fixpoint search_loop (n : nat) (list : ptr) (d : D) : lm ptr :=
  match n with
  | O => run (Fault OutOfFuel)
  | S n =>
      if globus_list_empty list then mret None
      else
        td ← globus_list_first list;
        if bool_decide (td = d) then mret list
        else list' ← globus_list_rest list; search_loop n list' d
  end.

Definition globus_list_search (head : ptr) (d : D) : lm ptr :=
  if globus_list_empty head then mret None else n ← fuel; search_loop n head d.

Fixpoint search_pred_rec (n : nat) (head : ptr) (predicate : D -> bool) : lm ptr :=
  match n with
  | O => run (Fault OutOfFuel)
  | S n =>
      if globus_list_empty head then mret None
      else
        d ← globus_list_first head;
        if predicate d then mret head
        else head' ← globus_list_rest head; search_pred_rec n head' predicate
  end.

Definition globus_list_search_pred (head : ptr) (predicate : D -> bool) : lm ptr :=
  n ← fuel; search_pred_rec n head predicate.

Fixpoint min_rec (n : nat) (current_min rest_head : ptr) (relation : D -> D -> bool) : lm ptr :=
  match n with
  | O => run (Fault OutOfFuel)
  | S n =>
      if globus_list_empty rest_head then mret current_min
      else
        a ← globus_list_first current_min;
        b ← globus_list_first rest_head;
        rest' ← globus_list_rest rest_head;
        min_rec n (if relation a b then current_min else rest_head) rest' relation
  end.

Definition s_globus_list_min_with_register (current_min rest_head : ptr)
    (relation : D -> D -> bool) : lm ptr :=
  n ← fuel; min_rec n current_min rest_head relation.

Definition globus_list_min (head : ptr) (relation : D -> D -> bool) : lm ptr :=
  if globus_list_empty head then mret None
  else rest ← globus_list_rest head; s_globus_list_min_with_register head rest relation.

(** The [for] loop of [halves]: [i] steps are left. *)
Fixpoint advance (i : nat) (head : ptr) : lm ptr :=
  match i with
  | O => mret head
  | S i => head' ← globus_list_rest head; advance i head'
  end.

Definition globus_list_halves_destructive (head : ptr) : lm (ptr * ptr) :=
  len ← globus_list_size head;
  mid ← advance (Z.to_nat (Z.quot len 2 - 1)) head;
  right ← globus_list_rest mid;
  r ← globus_list_rest_ref mid;
  _ ← set_next r None;
  mret (head, right).

(** [if (result_tail) *result_tail = p; else result = p;] *)
Definition append (result result_tail p : ptr) : lm ptr :=
  match result_tail with
  | Some _ => _ ← set_next result_tail p; mret result
  | None => mret p
  end.

Fixpoint merge_loop (n : nat) (result result_tail left right : ptr) (relation : D -> D -> bool) :
    lm ptr :=
  match n with
  | O => run (Fault OutOfFuel)
  | S n =>
      if negb (globus_list_empty left) && negb (globus_list_empty right) then
        a ← globus_list_first left;
        b ← globus_list_first right;
        if relation a b then
          result ← append result result_tail left;
          tail ← globus_list_rest_ref left;
          left' ← globus_list_rest left;
          _ ← set_next tail None;
          merge_loop n result tail left' right relation
        else
          result ← append result result_tail right;
          tail ← globus_list_rest_ref right;
          right' ← globus_list_rest right;
          _ ← set_next tail None;
          merge_loop n result tail left right' relation
      else if globus_list_empty left then append result result_tail right
      else
        _ ← run (c_assert (globus_list_empty right));
        append result result_tail left
  end.

Definition globus_list_sort_merge_destructive (left right : ptr) (relation : D -> D -> bool) : lm ptr :=
  n ← fuel; merge_loop n None None left right relation.

(** The two recursive calls are arguments of one call: C leaves their order open. *)
Fixpoint sort_rec (n : nat) (head : ptr) (relation : D -> D -> bool) : lm ptr :=
  match n with
  | O => run (Fault OutOfFuel)
  | S n =>
      if globus_list_empty head then mret head
      else
        rest ← globus_list_rest head;
        if globus_list_empty rest then mret head
        else
          '(l, r) ← globus_list_halves_destructive head;
          left' ← sort_rec n l relation;
          right' ← sort_rec n r relation;
          globus_list_sort_merge_destructive left' right' relation
  end.

Definition globus_list_sort_destructive (head : ptr) (relation : D -> D -> bool) : lm ptr :=
  n ← fuel; sort_rec n head relation.

(** Getting a new cell; NULL is not checked for. *)
Definition new_cell (c : bool -> cell) : lm loc :=
  h ← get;
  let mal := negb (globus_l_list_active h) in
  '(p, a) ← run (la_pop mal (alloc h));
  l ← run (deref p);
  _ ← put (LHeap (<[l := c mal]> (cells h)) a (globus_l_list_active h));
  mret l.

(** Returning a cell to the allocator it came from. *)
Definition free_cell (l : loc) : lm unit :=
  c ← read (Some l);
  h ← get;
  put (LHeap (delete l (cells h)) (la_push (malloced c) l (alloc h)) (globus_l_list_active h)).

(** The status and the new [*headp]. *)
Definition globus_list_insert (head : ptr) (d : D) : lm (Z * ptr) :=
  l ← new_cell (Cell d head); mret (0, Some l).

Definition globus_list_cons (d : D) (rest : ptr) : lm ptr :=
  '(err, rest') ← globus_list_insert rest d;
  if negb (err =? 0) then mret None else mret rest'.

(** The cell is allocated and given its datum before the rest is copied. *)
Fixpoint copy_rec (n : nat) (head : ptr) : lm ptr :=
  match n with
  | O => run (Fault OutOfFuel)
  | S n =>
      match head with
      | None => mret None
      | Some _ =>
          c ← read head;
          entry ← new_cell (Cell (datum c) None);
          q ← copy_rec n (next c);
          _ ← set_next (Some entry) q;
          mret (Some entry)
      end
  end.

Definition globus_list_copy (head : ptr) : lm ptr := n ← fuel; copy_rec n head.

Definition globus_list_sort (head : ptr) (relation : D -> D -> bool) : lm ptr :=
  head' ← globus_list_copy head; globus_list_sort_destructive head' relation.

(** The loop of [concat]: the last cell. *)
Fixpoint last_cell (n : nat) (list : ptr) : lm ptr :=
  match n with
  | O => run (Fault OutOfFuel)
  | S n =>
      c ← read list;
      match next c with None => mret list | Some _ => last_cell n (next c) end
  end.

Definition globus_list_concat (front_list back_list : ptr) : lm ptr :=
  back_copy ← globus_list_copy back_list;
  match front_list with
  | None => mret back_copy
  | Some _ =>
      front_copy ← globus_list_copy front_list;
      n ← fuel;
      list ← last_cell n front_copy;
      _ ← set_next list back_copy;
      mret front_copy
  end.

(** The loop of [remove]: is [entry] unlinked? *)
Fixpoint remove_loop (n : nat) (i j : ptr) (entry : loc) : lm bool :=
  match n with
  | O => run (Fault OutOfFuel)
  | S n =>
      if globus_list_empty j then mret false
      else if bool_decide (j = Some entry) then
        j' ← globus_list_rest j;
        _ ← set_next i j';
        _ ← free_cell entry;
        mret true
      else
        i' ← globus_list_rest i;
        j' ← globus_list_rest j;
        remove_loop n i' j' entry
  end.

(** The datum of the removed entry and the new [*headp]. *)
Definition globus_list_remove (head entry : ptr) : lm (option D * ptr) :=
  _ ← run (c_assert (bool_decide (is_Some entry)));
  l ← run (deref entry);
  d ← globus_list_first entry;
  if bool_decide (head = entry) then
    head' ← globus_list_rest head;
    _ ← free_cell l;
    mret (Some d, head')
  else
    j ← globus_list_rest head;
    n ← fuel;
    found ← remove_loop n head j l;
    mret ((if (found : bool) then Some d else None), head).

(** The data removed, in order. *)
Fixpoint remove_all (n : nat) (head : ptr) : lm (list D) :=
  match n with
  | O => run (Fault OutOfFuel)
  | S n =>
      if globus_list_empty head then mret []
      else
        '(d, head') ← globus_list_remove head head;
        ds ← remove_all n head';
        mret (option_list d ++ ds)
  end.

Definition globus_list_free (head : ptr) : lm unit := n ← fuel; _ ← remove_all n head; mret tt.

(** The data passed to [data_free], in order: those that are not NULL. *)
Definition globus_list_destroy_all (is_null : D -> bool) (head : ptr) : lm (list D) :=
  n ← fuel;
  ds ← remove_all n head;
  mret (filter (fun d => is_null d = false) ds).
End Defs.
Arguments cell : clear implicits.
Arguments lheap : clear implicits.

(** ** Lists in the heap *)

Section Shape.
Context {D : Type}.
Implicit Types (cs : gmap loc (cell D)) (ns ms : list (loc * D)).

(** The cells reached from [p] are at the addresses and hold the data of [ns]. *)
Fixpoint list_at cs (p : ptr) ns : Prop :=
  match ns with
  | [] => p = None
  | (l, d) :: ns => p = Some l /\ exists c, cs !! l = Some c /\ datum c = d /\ list_at cs (next c) ns
  end.

Lemma list_at_frame cs cs' p ns :
  list_at cs p ns -> (forall l, l ∈ ns.*1 -> cs' !! l = cs !! l) -> list_at cs' p ns.
Proof.
  revert p. induction ns as [|[l d] ns IH]; intros p; cbn; [done|].
  intros (-> & c & Hc & Hd & Hns) Hcs. split; [done|]. exists c.
  rewrite Hcs by set_solver. split_and!; [done..|]. apply IH; set_solver.
Qed.

Lemma list_at_fun cs p ns ms : list_at cs p ns -> list_at cs p ms -> ns = ms.
Proof.
  revert p ms. induction ns as [|[l d] ns IH]; intros p [|[l' d'] ms]; cbn; naive_solver.
Qed.

(** A list splits at any of its cells. *)
Lemma list_at_app cs p ns ms :
  list_at cs p (ns ++ ms) -> exists q, list_at cs q ms /\ (ns = [] -> q = p).
Proof.
  revert p. induction ns as [|[l d] ns IH]; intros p; cbn; [by eauto|].
  intros (-> & c & _ & _ & Hns). destruct (IH _ Hns) as (q & ? & _). by exists q.
Qed.

Lemma list_at_NoDup cs p ns : list_at cs p ns -> NoDup ns.*1.
Proof.
  revert p. induction ns as [|[l d] ns IH]; intros p; cbn; [constructor|].
  intros (-> & c & Hc & Hd & Hns). constructor; [|by eapply IH].
  intros ([l' d'] & Heq & Hin)%list_elem_of_fmap. cbn in Heq. subst l'.
  apply list_elem_of_split in Hin as (ns1 & ns2 & ->).
  destruct (list_at_app _ _ _ _ Hns) as (q & Hq & _). cbn in Hq. destruct Hq as (-> & c' & Hc' & Hd' & Hq).
  simplify_eq. pose proof (list_at_fun _ _ _ _ Hns Hq) as E.
  apply (f_equal length) in E. rewrite length_app in E. cbn in E. lia.
Qed.

Lemma list_at_dom cs p ns l : list_at cs p ns -> l ∈ ns.*1 -> is_Some (cs !! l).
Proof.
  revert p. induction ns as [|[l' d] ns IH]; intros p; cbn; [set_solver|].
  intros (_ & c & Hc & _ & Hns) [->|?]%elem_of_cons; [by eexists|eauto].
Qed.

(** The number of cells is enough fuel for any list. *)
Lemma list_at_length cs p ns : list_at cs p ns -> (length ns <= size cs)%nat.
Proof.
  intros Hns. pose proof (list_at_NoDup _ _ _ Hns) as Hnd.
  rewrite <- (length_fmap fst ns), <- (size_list_to_set (C := gset loc) _ Hnd), <- (size_dom (D := gset loc) cs).
  apply subseteq_size. intros l Hl. apply elem_of_dom. apply elem_of_list_to_set in Hl. by eapply list_at_dom.
Qed.

(** Attaching a list after the last cell of another. *)
Lemma list_at_attach cs p ns t d m q ms :
  list_at cs p (ns ++ [(t, d)]) -> list_at cs q ms -> t ∉ ms.*1 ->
  list_at (<[t := Cell d q m]> cs) p (ns ++ (t, d) :: ms).
Proof.
  intros Hns Hms Ht. pose proof (list_at_NoDup _ _ _ Hns) as Hnd.
  rewrite fmap_app in Hnd. apply NoDup_app in Hnd as (_ & Hnt & _).
  revert p Hns. induction ns as [|[l e] ns IH]; intros p; cbn.
  - intros (-> & c & Hc & Hd & _). split; [done|]. eexists. rewrite lookup_insert_eq. split_and!; [done..|].
    eapply list_at_frame; [done|]. intros l Hl. apply lookup_insert_ne. set_solver.
  - intros (-> & c & Hc & He & Hns). split; [done|]. exists c.
    rewrite lookup_insert_ne by (intros <-; apply (Hnt t); set_solver).
    split_and!; [done..|]. apply IH; [set_solver|done].
Qed.

(** Cutting a list after one of its cells. *)
Lemma list_at_cut cs p ns t d m ms c :
  list_at cs p (ns ++ (t, d) :: ms) -> cs !! t = Some c ->
  list_at (<[t := Cell d None m]> cs) p (ns ++ [(t, d)]) /\
  list_at (<[t := Cell d None m]> cs) (next c) ms.
Proof.
  intros Hns Hc. pose proof (list_at_NoDup _ _ _ Hns) as Hnd.
  rewrite fmap_app in Hnd. apply NoDup_app in Hnd as (_ & Hnt & Hnd). cbn in Hnd.
  apply NoDup_cons in Hnd as [Htm _].
  revert p Hns. induction ns as [|[l e] ns IH]; intros p; cbn.
  - intros (-> & c' & Hc' & Hd & Hms). simplify_eq. split.
    + split; [done|]. eexists. by rewrite lookup_insert_eq.
    + eapply list_at_frame; [done|]. intros l Hl. apply lookup_insert_ne. set_solver.
  - intros (-> & c' & Hc' & He & Hns). destruct (IH) with (p := next c') as [H1 H2]; [set_solver|done|].
    split; [|done]. split; [done|]. exists c'.
    rewrite lookup_insert_ne by (intros <-; apply (Hnt t); set_solver). done.
Qed.
End Shape.

(** ** Running the primitives *)

Section Run.
Context {D : Type} `{EqDecision D} {A : Type} `{ListAlloc A}.
Implicit Types (h : lheap D A) (c : cell D) (ns : list (loc * D)).

Definition upd h (l : loc) c : lheap D A :=
  LHeap (<[l := c]> (cells h)) (alloc h) (globus_l_list_active h).

Lemma read_run h l c : cells h !! l = Some c -> read (Some l) h = Ok (c, h).
Proof. intros Hc. unfold read, mbind, prog_bind. cbn. by rewrite Hc. Qed.

Lemma write_run h l c c' : cells h !! l = Some c -> write l c' h = Ok (tt, upd h l c').
Proof. intros Hc. unfold write, mbind, prog_bind. cbn. by rewrite Hc. Qed.

Lemma set_next_run h l c q :
  cells h !! l = Some c -> set_next (Some l) q h = Ok (tt, upd h l (Cell (datum c) q (malloced c))).
Proof.
  intros Hc. unfold set_next, mbind, prog_bind. cbn. rewrite (read_run _ _ _ Hc). by eapply write_run.
Qed.

Lemma first_run h l c : cells h !! l = Some c -> globus_list_first (Some l) h = Ok (datum c, h).
Proof. intros Hc. unfold globus_list_first, mbind, prog_bind. cbn. by rewrite (read_run _ _ _ Hc). Qed.

Lemma rest_run h l c : cells h !! l = Some c -> globus_list_rest (Some l) h = Ok (next c, h).
Proof. intros Hc. unfold globus_list_rest, mbind, prog_bind. cbn. by rewrite (read_run _ _ _ Hc). Qed.

Lemma rest_ref_run h l : globus_list_rest_ref (Some l) h = Ok (Some l, h).
Proof. done. Qed.

Lemma empty_None : globus_list_empty None = true.
Proof. done. Qed.

Lemma empty_Some l : globus_list_empty (Some l) = false.
Proof. done. Qed.

(** [h'] has the cells of [h], with other contents only at the addresses [S]. *)
Record relinked (S : gset loc) h h' : Prop := {
  rl_alloc : alloc h' = alloc h;
  rl_active : globus_l_list_active h' = globus_l_list_active h;
  rl_malloced : malloced <$> cells h' = malloced <$> cells h;
  rl_other : forall l, l ∉ S -> cells h' !! l = cells h !! l;
}.

Lemma relinked_refl S h : relinked S h h.
Proof. by split. Qed.

Lemma relinked_trans S h1 h2 h3 : relinked S h1 h2 -> relinked S h2 h3 -> relinked S h1 h3.
Proof.
  intros [] []. split; [congruence..|]. intros l Hl. rewrite rl_other1 by done. auto.
Qed.

Lemma relinked_weaken S S' h h' : relinked S h h' -> S ⊆ S' -> relinked S' h h'.
Proof. intros [] HS. split; [done..|]. intros l Hl. apply rl_other0. set_solver. Qed.

Lemma relinked_upd S h l c c' :
  cells h !! l = Some c -> malloced c' = malloced c -> l ∈ S -> relinked S h (upd h l c').
Proof.
  intros Hc Hm Hl. split; [done..| |].
  - cbn. rewrite fmap_insert, Hm. apply insert_id. by rewrite lookup_fmap, Hc.
  - intros k Hk. cbn. apply lookup_insert_ne. set_solver.
Qed.

Lemma relinked_size S h h' : relinked S h h' -> size (cells h') = size (cells h).
Proof.
  intros [_ _ Hm _]. by rewrite <- (map_size_fmap malloced (cells h')), Hm, map_size_fmap.
Qed.
End Run.

(** ** Merge sort *)

Lemma div2_bounds n : (2 <= n)%nat -> (1 <= Nat.div2 n < n)%nat.
Proof.
  destruct n as [|[|n]]; [lia..|]. intros _. cbn. pose proof (Nat.le_div2_diag_l n).
  split; apply le_n_S; [apply Nat.le_0_l|by apply le_n_S].
Qed.

Section PureSort.
Context {X : Type} (rel : X -> X -> bool).

(** What [globus_list_sort_merge_destructive] computes. *)
Fixpoint merge (ls : list X) : list X -> list X :=
  fix aux rs :=
    match ls, rs with
    | [], _ => rs
    | _, [] => ls
    | a :: ls', b :: rs' => if rel a b then a :: merge ls' rs else b :: aux rs'
    end.

(** What [globus_list_sort_destructive] computes. *)
Fixpoint msort (n : nat) (ns : list X) : list X :=
  match n with
  | O => ns
  | S n =>
      match ns with
      | [] | [_] => ns
      | _ =>
          let k := Nat.div2 (length ns) in
          merge (msort n (take k ns)) (msort n (drop k ns))
      end
  end.

Lemma merge_nil_r ls : merge ls [] = ls.
Proof. by destruct ls. Qed.

Lemma merge_perm ls rs : merge ls rs ≡ₚ ls ++ rs.
Proof.
  revert rs. induction ls as [|a ls IH]; intros rs; [by destruct rs|].
  induction rs as [|b rs IHr]; [by rewrite app_nil_r|]. cbn. destruct (rel a b).
  - by rewrite (IH (b :: rs)).
  - cbn in IHr. rewrite IHr. cbn. by rewrite <- Permutation_middle, Permutation_swap.
Qed.

Lemma msort_perm n ns : msort n ns ≡ₚ ns.
Proof.
  revert ns. induction n as [|n IH]; intros ns; [done|]. destruct ns as [|a [|b ns]]; [done..|].
  cbn [msort]. cbv zeta. rewrite merge_perm, !IH. by rewrite take_drop.
Qed.

(** [le] is an order that the relation passed to the sort decides, strictly or
    not: it may answer either way on equal elements. *)
Class SortRelation (le : X -> X -> Prop) : Prop := {
  rel_true a b : rel a b = true -> le a b;
  rel_false a b : rel a b = false -> le b a;
  le_trans a b c : le a b -> le b c -> le a c;
}.

Context (le : X -> X -> Prop) `{!SortRelation le}.

Lemma merge_sorted ls rs : StronglySorted le ls -> StronglySorted le rs -> StronglySorted le (merge ls rs).
Proof.
  revert rs. induction ls as [|a ls IH]; intros rs Hls Hrs; [by destruct rs|].
  induction rs as [|b rs IHr]; [done|]. cbn.
  inversion Hls as [|? ? Hls' Ha]; inversion Hrs as [|? ? Hrs' Hb]; subst.
  destruct (rel a b) eqn:E; constructor.
  - by apply IH.
  - rewrite merge_perm. apply Forall_app. split; [done|]. apply rel_true in E. constructor; [done|].
    eapply Forall_impl; [done|]. intros x. by apply le_trans.
  - by apply IHr.
  - change (Forall (le b) (merge (a :: ls) rs)). rewrite merge_perm. apply rel_false in E.
    apply Forall_app. split; [|done]. constructor; [done|].
    eapply Forall_impl; [done|]. intros x. by apply le_trans.
Qed.

Lemma msort_sorted n ns : (length ns <= n)%nat -> StronglySorted le (msort n ns).
Proof.
  revert ns. induction n as [|n IH]; intros ns Hn.
  { destruct ns; [constructor|cbn in Hn; lia]. }
  destruct ns as [|a [|b ns]]; [repeat constructor..|].
  cbn [msort]. cbv zeta. set (l := a :: b :: ns) in *.
  assert (1 <= Nat.div2 (length l) < length l)%nat as Hk.
  { apply div2_bounds. cbn. lia. }
  apply merge_sorted; apply IH; rewrite ?length_take, ?length_drop; lia.
Qed.
End PureSort.

(** Elements that the relation takes for equal. *)
Definition same {X : Type} (rel : X -> X -> bool) (x y : X) : Prop := rel x y = true /\ rel y x = true.
#[global] Instance same_dec {X : Type} (rel : X -> X -> bool) x y : Decision (same rel x y).
Proof. unfold same. apply _. Defined.

(** When the relation is itself a total order (not a strict one), equal elements keep their
    order: they are taken from the left half first. *)
Section Stable.
Context {X : Type} (rel : X -> X -> bool) {Hrel : SortRelation rel (fun a b => rel a b = true)}.

Lemma merge_stable x ls rs :
  StronglySorted (fun a b => rel a b = true) ls ->
  filter (same rel x) (merge rel ls rs) = filter (same rel x) ls ++ filter (same rel x) rs.
Proof.
  destruct Hrel as [_ Hfalse Htrans]. revert rs. induction ls as [|a ls IH]; intros rs Hls; [by destruct rs|].
  inversion Hls as [|? ? Hls' Ha]; subst.
  induction rs as [|b rs IHr]; [by rewrite app_nil_r|]. cbn. destruct (rel a b) eqn:E.
  - rewrite !(filter_cons _ a), IH by done. by destruct (decide (same rel x a)).
  - change (filter (same rel x) (b :: merge rel (a :: ls) rs) = filter (same rel x) (a :: ls) ++ filter (same rel x) (b :: rs)).
    rewrite !(filter_cons _ b), IHr. destruct (decide (same rel x b)) as [[Hxb Hbx]|]; [|done].
    rewrite (filter_none _ (a :: ls)); [done|]. intros y Hy [Hxy Hyx].
    assert (rel a y = true) as Hay.
    { apply elem_of_cons in Hy as [->|Hy]; [|by rewrite Forall_forall in Ha; apply Ha].
      destruct (rel a a) eqn:Eaa; [done|]. pose proof (Hfalse _ _ Eaa). congruence. }
    enough (rel a b = true) by congruence. eauto.
Qed.

Lemma msort_stable x n ns : (length ns <= n)%nat -> filter (same rel x) (msort rel n ns) = filter (same rel x) ns.
Proof.
  revert ns. induction n as [|n IH]; intros ns Hn; [done|].
  destruct ns as [|a [|b ns]]; [done..|]. cbn [msort]. cbv zeta. set (l := a :: b :: ns) in *.
  assert (1 <= Nat.div2 (length l) < length l)%nat as Hk by (apply div2_bounds; cbn; lia).
  rewrite merge_stable by (apply msort_sorted; rewrite ?length_take; first [apply _|lia]).
  rewrite !IH, <- filter_app, take_drop by (rewrite ?length_take, ?length_drop; lia). done.
Qed.
End Stable.

Section Sort.
Context {D : Type} `{EqDecision D} {A : Type} `{ListAlloc A} (relation : D -> D -> bool).
Implicit Types (h : lheap D A) (c : cell D) (ns res : list (loc * D)).

Definition nrel (a b : loc * D) : bool := relation a.2 b.2.

(** [result] is the list [res], and [tail] its last cell. *)
Definition tail_ok (cs : gmap loc (cell D)) (result tail : ptr) res : Prop :=
  match tail with
  | None => res = []
  | Some t => list_at cs result res /\ exists res' d, res = res' ++ [(t, d)]
  end.

Definition addrs ns : gset loc := list_to_set ns.*1.

Lemma addrs_app ns ms : addrs (ns ++ ms) = (addrs ns ∪ addrs ms).
Proof. unfold addrs. by rewrite fmap_app, list_to_set_app_L. Qed.

Lemma append_spec h result tail p res ms :
  tail_ok (cells h) result tail res -> list_at (cells h) p ms -> NoDup (res ++ ms).*1 ->
  exists q h', append result tail p h = Ok (q, h') /\ list_at (cells h') q (res ++ ms) /\
    relinked (addrs res) h h'.
Proof.
  intros Ht Hms Hnd. destruct tail as [t|]; cbn in Ht.
  - destruct Ht as [Hres (res' & d & ->)].
    assert (exists c, cells h !! t = Some c /\ datum c = d) as (c & Hc & Hd).
    { destruct (list_at_app _ _ _ _ Hres) as (q & Hq & _). cbn in Hq. naive_solver. }
    cbn [append]. unfold mbind, prog_bind. rewrite (set_next_run _ _ _ _ Hc). cbn [mret prog_ret].
    eexists _, _. split; [done|]. split.
    + rewrite <- app_assoc. cbn. subst d. eapply list_at_attach; [done|done|].
      rewrite <- app_assoc, fmap_app in Hnd. apply NoDup_app in Hnd as (_ & _ & Hnd). cbn in Hnd.
      by apply NoDup_cons in Hnd as [? _].
    + eapply relinked_upd; [done|done|]. rewrite addrs_app. unfold addrs. cbn. set_solver.
  - subst res. exists p, h. split_and!; [done|done|apply relinked_refl].
Qed.

(** Moving the first cell of a list to the end of the result. *)
Lemma move_spec h result tail l d lns res :
  tail_ok (cells h) result tail res -> list_at (cells h) (Some l) ((l, d) :: lns) ->
  NoDup (res ++ (l, d) :: lns).*1 ->
  exists q h1 h2 p, append result tail (Some l) h = Ok (q, h1) /\
    globus_list_rest (Some l) h1 = Ok (p, h1) /\ set_next (Some l) None h1 = Ok (tt, h2) /\
    tail_ok (cells h2) q (Some l) (res ++ [(l, d)]) /\ list_at (cells h2) p lns /\
    relinked (addrs (res ++ [(l, d)])) h h2.
Proof.
  intros Ht Hl Hnd. destruct (append_spec h result tail (Some l) res _ Ht Hl Hnd)
    as (q & h1 & Happ & Hq & Hrel).
  assert (l ∉ addrs res) as Hnl.
  { rewrite fmap_app in Hnd. apply NoDup_app in Hnd as (_ & Hd & _). unfold addrs.
    rewrite elem_of_list_to_set. intros Hin. apply (Hd l Hin). set_solver. }
  destruct Hl as (_ & c & Hc & Hd & Hlns).
  assert (cells h1 !! l = Some c) as Hc1 by (rewrite (rl_other _ _ _ Hrel); done).
  exists q, h1, (upd h1 l (Cell (datum c) None (malloced c))), (next c).
  destruct (list_at_cut _ _ _ _ d (malloced c) _ _ Hq Hc1) as [Hcut1 Hcut2].
  split_and!; [done|by apply rest_run|by apply set_next_run| | |].
  - split; [|by eauto]. cbn. by rewrite Hd.
  - cbn. by rewrite Hd.
  - eapply relinked_trans.
    + eapply relinked_weaken; [done|]. rewrite addrs_app. set_solver.
    + eapply relinked_upd; [done|done|]. rewrite addrs_app. unfold addrs. cbn. set_solver.
Qed.

Lemma NoDup_perm_addrs ns ms : ns ≡ₚ ms -> NoDup ns.*1 -> NoDup ms.*1.
Proof. intros Hp. by rewrite Hp. Qed.

Lemma addrs_perm ns ms : ns ≡ₚ ms -> addrs ns = addrs ms.
Proof. intros Hp. unfold addrs. apply list_to_set_perm_L. by rewrite Hp. Qed.

Lemma list_at_relinked S h h' p ns :
  list_at (cells h) p ns -> relinked S h h' -> (forall l, l ∈ ns.*1 -> l ∉ S) -> list_at (cells h') p ns.
Proof. intros Hns Hrel Hd. eapply list_at_frame; [done|]. intros l Hl. apply (rl_other _ _ _ Hrel). auto. Qed.

Lemma NoDup_addrs_disj ns ms l : NoDup (ns ++ ms).*1 -> l ∈ ms.*1 -> l ∉ addrs ns.
Proof.
  rewrite fmap_app. intros (_ & Hd & _)%NoDup_app Hl. unfold addrs. rewrite elem_of_list_to_set. naive_solver.
Qed.

Lemma move_frame h result tail l d xs ys q res :
  tail_ok (cells h) result tail res -> list_at (cells h) (Some l) ((l, d) :: xs) ->
  list_at (cells h) q ys -> NoDup ((res ++ (l, d) :: xs) ++ ys).*1 ->
  exists x h1 h2 p, append result tail (Some l) h = Ok (x, h1) /\
    globus_list_rest (Some l) h1 = Ok (p, h1) /\ set_next (Some l) None h1 = Ok (tt, h2) /\
    tail_ok (cells h2) x (Some l) (res ++ [(l, d)]) /\ list_at (cells h2) p xs /\
    list_at (cells h2) q ys /\ NoDup ((res ++ [(l, d)]) ++ xs ++ ys).*1 /\
    relinked (addrs ((res ++ (l, d) :: xs) ++ ys)) h h2.
Proof.
  intros Ht Hl Hq Hnd.
  assert (NoDup ((res ++ [(l, d)]) ++ xs ++ ys).*1) as Hnd'.
  { eapply NoDup_perm_addrs; [|done]. by rewrite <- !app_assoc. }
  destruct (move_spec h result tail l d xs res Ht Hl) as
    (x & h1 & h2 & p & ? & ? & ? & ? & ? & Hrel).
  { rewrite fmap_app in Hnd. by apply NoDup_app in Hnd as (? & _). }
  exists x, h1, h2, p. split_and!; try done.
  - eapply list_at_relinked; [done|done|]. intros k Hk. eapply NoDup_addrs_disj; [done|].
    rewrite fmap_app. set_solver.
  - eapply relinked_weaken; [done|]. rewrite !addrs_app. unfold addrs. cbn. set_solver.
Qed.

Lemma merge_loop_spec n h result tail p q res lns rns :
  tail_ok (cells h) result tail res -> list_at (cells h) p lns -> list_at (cells h) q rns ->
  NoDup (res ++ lns ++ rns).*1 -> (length lns + length rns < n)%nat ->
  exists r h', merge_loop n result tail p q relation h = Ok (r, h') /\
    list_at (cells h') r (res ++ merge nrel lns rns) /\ relinked (addrs (res ++ lns ++ rns)) h h'.
Proof.
  revert h result tail p q res lns rns.
  induction n as [|n IH]; intros h result tail p q res lns rns Ht Hl Hr Hnd Hn; [lia|].
  destruct lns as [|[l a] lns]; [|destruct rns as [|[r b] rns]].
  - cbn in Hl. subst p. cbn [merge_loop globus_list_empty bool_decide]. rewrite empty_None. cbn [negb andb app].
    destruct (append_spec h result tail q res rns Ht Hr Hnd) as (x & h' & -> & Hx & Hrel).
    exists x, h'. split_and!; [done|by destruct rns|]. eapply relinked_weaken; [done|].
    rewrite addrs_app. set_solver.
  - cbn in Hr. subst q. cbn [merge_loop]. rewrite empty_None, andb_false_r, merge_nil_r.
    rewrite app_nil_r in *. pose proof Hl as (-> & _). rewrite empty_Some.
    destruct (append_spec h result tail (Some l) res _ Ht Hl Hnd) as (x & h' & Happ & Hx & Hrel).
    exists x, h'. split_and!; [exact Happ|done|]. eapply relinked_weaken; [done|].
    rewrite addrs_app. set_solver.
  - pose proof Hl as (-> & cl & Hcl & Hal & _). pose proof Hr as (-> & cr & Hcr & Hbr & _).
    cbn [merge_loop]. rewrite !empty_Some. cbn [negb andb].
    unfold mbind, prog_bind. rewrite (first_run _ _ _ Hcl), (first_run _ _ _ Hcr), Hal, Hbr.
    cbn [merge]. change (nrel (l, a) (r, b)) with (relation a b). destruct (relation a b).
    + destruct (move_frame h result tail l a lns ((r, b) :: rns) (Some r) res Ht Hl Hr) as
        (x & h1 & h2 & p' & -> & Hrest & Hset & Ht' & Hl' & Hr' & Hnd' & Hrel); [by rewrite <- app_assoc|].
      rewrite rest_ref_run, Hrest, Hset.
      destruct (IH h2 x (Some l) p' (Some r) (res ++ [(l, a)]) lns ((r, b) :: rns)) as
        (y & h3 & Hrun & Hy & Hrel3); [done..|cbn in *; lia|].
      exists y, h3. split; [done|]. split; [by rewrite <- app_assoc in Hy|].
      eapply relinked_trans; (eapply relinked_weaken; [done|]).
      * by rewrite <- app_assoc.
      * by rewrite <- app_assoc.
    + destruct (move_frame h result tail r b rns ((l, a) :: lns) (Some l) res Ht Hr Hl) as
        (x & h1 & h2 & p' & -> & Hrest & Hset & Ht' & Hr' & Hl' & Hnd' & Hrel).
      { eapply NoDup_perm_addrs; [|done]. rewrite <- app_assoc. f_equiv. by rewrite (Permutation_app_comm (_ :: lns)). }
      rewrite rest_ref_run, Hrest, Hset.
      destruct (IH h2 x (Some r) (Some l) p' (res ++ [(r, b)]) ((l, a) :: lns) rns) as
        (y & h3 & Hrun & Hy & Hrel3); [done..| |cbn in *; lia|].
      { eapply NoDup_perm_addrs; [|done]. f_equiv. apply Permutation_app_comm. }
      exists y, h3. split; [done|]. split; [by rewrite <- app_assoc in Hy|].
      eapply relinked_trans; (eapply relinked_weaken; [done|]); rewrite !addrs_app; unfold addrs; cbn; set_solver.
Qed.

Lemma size_loop_spec n h p ns k :
  list_at (cells h) p ns -> (length ns < n)%nat -> 0 <= k -> k + Z.of_nat (length ns) <= INT_MAX ->
  size_loop n p k h = Ok (k + Z.of_nat (length ns), h).
Proof.
  revert p ns k. induction n as [|n IH]; intros p ns k Hp Hn Hk Hmax; [lia|].
  destruct ns as [|[l d] ns]; cbn [size_loop].
  - cbn in Hp. subst p. rewrite empty_None. cbn. by rewrite Z.add_0_r.
  - destruct Hp as (-> & c & Hc & Hd & Hp). rewrite empty_Some. unfold mbind, prog_bind.
    cbn [length] in *. rewrite s32_ok by (unfold INT_MIN; lia). cbn [run].
    rewrite (rest_run _ _ _ Hc), (IH _ ns) by (done || lia). do 2 f_equal. lia.
Qed.

Lemma list_size_run h p ns :
  list_at (cells h) p ns -> Z.of_nat (length ns) <= INT_MAX ->
  globus_list_size p h = Ok (Z.of_nat (length ns), h).
Proof.
  intros Hp Hmax. unfold globus_list_size, fuel, mbind, prog_bind. cbn [get mret prog_ret].
  pose proof (list_at_length _ _ _ Hp). by rewrite (size_loop_spec _ _ _ ns) by (done || lia).
Qed.

Lemma advance_spec h p ns l d ms :
  list_at (cells h) p (ns ++ (l, d) :: ms) -> advance (length ns) p h = Ok (Some l, h).
Proof.
  revert p. induction ns as [|[l' d'] ns IH]; intros p; cbn; [by intros (-> & _)|].
  intros (-> & c & Hc & _ & Hp). unfold mbind, prog_bind. rewrite (rest_run _ _ _ Hc). by apply IH.
Qed.

Lemma halves_spec h p ns :
  list_at (cells h) p ns -> (2 <= length ns)%nat -> Z.of_nat (length ns) <= INT_MAX ->
  let k := Nat.div2 (length ns) in
  exists r h', globus_list_halves_destructive p h = Ok ((p, r), h') /\
    list_at (cells h') p (take k ns) /\ list_at (cells h') r (drop k ns) /\ relinked (addrs ns) h h'.
Proof.
  intros Hp H2 Hmax k.
  pose proof (div2_bounds (length ns) H2) as Hk. fold k in Hk.
  destruct (lookup_lt_is_Some_2 ns (k - 1)) as [[l d] Hld]; [lia|].
  pose proof (take_drop_middle _ _ _ Hld) as Hsplit. replace (S (k - 1)) with k in Hsplit by lia.
  assert (length (take (k - 1) ns) = k - 1)%nat as Hlen by (rewrite length_take; lia).
  rewrite <- Hsplit in Hp. pose proof (advance_spec _ _ _ _ _ _ Hp) as Hadv. rewrite Hlen in Hadv.
  assert (exists c, cells h !! l = Some c /\ datum c = d) as (c & Hc & Hd).
  { destruct (list_at_app _ _ _ _ Hp) as (q & Hq & _). cbn in Hq. naive_solver. }
  destruct (list_at_cut _ _ _ _ d (malloced c) _ _ Hp Hc) as [Hleft Hright].
  rewrite Hsplit in Hp.
  exists (next c), (upd h l (Cell (datum c) None (malloced c))).
  unfold globus_list_halves_destructive, mbind, prog_bind. rewrite (list_size_run h p ns) by done.
  replace (Z.to_nat (Z.quot (Z.of_nat (length ns)) 2 - 1)) with (k - 1)%nat.
  2: { unfold k. rewrite Z.quot_div_nonneg by lia. rewrite Nat.div2_div.
       replace 2 with (Z.of_nat 2) by done. rewrite <- Nat2Z.inj_div. lia. }
  rewrite Hadv, (rest_run _ _ _ Hc), rest_ref_run, (set_next_run _ _ _ _ Hc). cbn [mret prog_ret].
  split_and!; [done| | |].
  - assert (take k ns = take (k - 1) ns ++ [(l, d)]) as ->.
    { replace k with (S (k - 1)) at 1 by lia. by apply take_S_r. }
    cbn. by rewrite Hd.
  - cbn. by rewrite Hd.
  - eapply relinked_upd; [done|done|]. unfold addrs. rewrite elem_of_list_to_set, list_elem_of_fmap.
    exists (l, d). split; [done|]. by eapply list_elem_of_lookup_2.
Qed.

Lemma sort_rec_spec n h p ns :
  list_at (cells h) p ns -> (0 < n)%nat -> (length ns <= n)%nat -> Z.of_nat (length ns) <= INT_MAX ->
  exists r h', sort_rec n p relation h = Ok (r, h') /\
    list_at (cells h') r (msort nrel n ns) /\ relinked (addrs ns) h h'.
Proof.
  revert h p ns. induction n as [|n IH]; intros h p ns Hp Hpos Hn Hmax; [lia|].
  destruct ns as [|[l d] [|[l' d'] ns]]; cbn [sort_rec].
  - cbn in Hp. subst p. rewrite empty_None. by exists None, h.
  - destruct Hp as (-> & c & Hc & Hd & Hnil). cbn in Hnil. rewrite empty_Some. unfold mbind, prog_bind.
    rewrite (rest_run _ _ _ Hc), Hnil, empty_None. exists (Some l), h. split; [done|].
    split; [|apply relinked_refl]. cbn. eauto.
  - pose proof Hp as (-> & c & Hc & Hd & Hp' & _). rewrite empty_Some. unfold mbind, prog_bind.
    rewrite (rest_run _ _ _ Hc), Hp', empty_Some. set (all := (l, d) :: (l', d') :: ns) in *.
    pose proof (list_at_NoDup _ _ _ Hp) as Hnd.
    destruct (halves_spec h _ all Hp) as (r & h1 & -> & Hl & Hr & Hrel1); [cbn; lia|done|].
    set (k := Nat.div2 (length all)) in *.
    assert (1 <= k < length all)%nat as Hk by (apply div2_bounds; cbn; lia).
    rewrite <- (take_drop k all) in Hnd.
    destruct (IH h1 (Some l) (take k all) Hl) as (x & h2 & -> & Hx & Hrel2); [cbn in *; lia|rewrite length_take; lia..|].
    destruct (IH h2 r (drop k all)) as (y & h3 & -> & Hy & Hrel3).
    { eapply list_at_relinked; [done|done|]. intros i. by apply NoDup_addrs_disj. }
    { cbn in *; lia. }
    { rewrite length_drop. lia. }
    { rewrite length_drop. lia. }
    assert (list_at (cells h3) x (msort nrel n (take k all))) as Hx3.
    { eapply list_at_relinked; [done|done|]. intros i. rewrite (msort_perm nrel n (take k all)).
      apply NoDup_addrs_disj. eapply NoDup_perm_addrs; [apply Permutation_app_comm|done]. }
    unfold globus_list_sort_merge_destructive, fuel, mbind, prog_bind. cbn [get mret prog_ret].
    destruct (merge_loop_spec (S (size (cells h3))) h3 None None x y [] _ _ eq_refl Hx3 Hy) as (z & h4 & -> & Hz & Hrel4).
    { eapply NoDup_perm_addrs; [|done]. cbn. by rewrite !msort_perm. }
    { rewrite !msort_perm, length_take, length_drop. pose proof (list_at_length _ _ _ Hp).
      rewrite (relinked_size _ _ _ Hrel3), (relinked_size _ _ _ Hrel2), (relinked_size _ _ _ Hrel1). lia. }
    exists z, h4. split; [done|]. split; [done|].
    assert (addrs (msort nrel n (take k all) ++ msort nrel n (drop k all)) = addrs all) as Hall.
    { apply addrs_perm. by rewrite !msort_perm, take_drop. }
    assert (addrs (take k all) ∪ addrs (drop k all) = addrs all) as Hall' by by rewrite <- addrs_app, take_drop.
    cbn [app] in Hrel4. rewrite Hall in Hrel4.
    eapply relinked_trans; [done|]. rewrite <- Hall' in *.
    eapply relinked_trans; [eapply relinked_weaken; [done|apply union_subseteq_l]|].
    eapply relinked_trans; [eapply relinked_weaken; [done|apply union_subseteq_r]|done].
Qed.
End Sort.
(** ** Allocation *)

Section Alloc.
Context {D : Type} `{EqDecision D} {A : Type} `{ListAllocLaws A}.
Implicit Types (h : lheap D A) (c : cell D) (ns : list (loc * D)).

(** The cells are those the allocators have handed out, each to its own. *)
Definition heap_ok h : Prop :=
  la_ok (alloc h) /\
  forall b l, l ∈ la_live b (alloc h) <-> exists c, cells h !! l = Some c /\ malloced c = b.

(** [n] allocations in a row succeed. *)
Fixpoint can_pop (n : nat) (b : bool) (a : A) : Prop :=
  match n with
  | O => True
  | S n => exists l a', la_pop b a = Ok (Some l, a') /\ can_pop n b a'
  end.

Definition can_alloc (n : nat) h : Prop := can_pop n (negb (globus_l_list_active h)) (alloc h).

Lemma heap_ok_relinked S h h' : heap_ok h -> relinked S h h' -> heap_ok h'.
Proof.
  intros [Hok Hl] [Ha _ Hm _]. split; [by rewrite Ha|]. intros b l. rewrite Ha, Hl.
  assert (malloced <$> cells h' !! l = malloced <$> cells h !! l) as E by by rewrite <- !lookup_fmap, Hm.
  destruct (cells h !! l), (cells h' !! l); simplify_eq/=; naive_solver.
Qed.

Lemma can_pop_le n n' b (a : A) : can_pop n b a -> (n' <= n)%nat -> can_pop n' b a.
Proof.
  revert n' a. induction n as [|n IH]; intros [|n'] a; cbn; intros Hc Hle; try done; [lia|].
  destruct Hc as (l & a' & Hp & Hc). exists l, a'. split; [done|]. apply IH; [done|lia].
Qed.

Fixpoint can_popb (n : nat) (b : bool) (a : A) : bool :=
  match n with
  | O => true
  | S n => match la_pop b a with Ok (Some _, a') => can_popb n b a' | _ => false end
  end.

Lemma can_popb_ok n b (a : A) : can_popb n b a = true -> can_pop n b a.
Proof.
  revert a. induction n as [|n IH]; intros a; cbn; [done|].
  destruct (la_pop b a) as [[[l|] a']|]; [|done..]. eauto.
Qed.

Lemma new_cell_spec h (f : bool -> cell D) n :
  heap_ok h -> can_alloc (S n) h -> (forall b, malloced (f b) = b) ->
  exists l h', new_cell f h = Ok (l, h') /\ heap_ok h' /\ can_alloc n h' /\
    cells h !! l = None /\ globus_l_list_active h' = globus_l_list_active h /\
    cells h' = <[l := f (negb (globus_l_list_active h))]> (cells h).
Proof.
  intros [Hok Hlive] (l & a & Hpop & Hc) Hf. set (b := negb (globus_l_list_active h)) in *.
  destruct (la_pop_some b _ l a Hok Hpop) as (Hok' & Hfresh & Hlb & Hlnb).
  assert (cells h !! l = None) as Hl.
  { destruct (cells h !! l) as [c|] eqn:E; [|done]. exfalso.
    apply (Hfresh (malloced c)), Hlive. by eexists. }
  exists l, (LHeap (<[l := f b]> (cells h)) a (globus_l_list_active h)).
  unfold new_cell, mbind, prog_bind. cbn [get]. fold b. rewrite Hpop. cbn [run deref put mret prog_ret].
  split_and!; try done.
  split; [done|]. intros b' k. cbn. destruct (decide (b' = b)) as [->|Hne].
  - rewrite Hlb, elem_of_union, elem_of_singleton, Hlive.
    destruct (decide (k = l)) as [->|]; [rewrite lookup_insert_eq|rewrite lookup_insert_ne by done]; naive_solver.
  - assert (b' = negb b) as -> by (destruct b, b'; done). rewrite Hlnb, Hlive.
    destruct (decide (k = l)) as [->|]; [rewrite lookup_insert_eq|by rewrite lookup_insert_ne by done].
    rewrite Hl. naive_solver.
Qed.

Lemma free_cell_spec h l c :
  heap_ok h -> cells h !! l = Some c ->
  exists h', free_cell l h = Ok (tt, h') /\ heap_ok h' /\
    globus_l_list_active h' = globus_l_list_active h /\ cells h' = delete l (cells h).
Proof.
  intros [Hok Hlive] Hc. assert (l ∈ la_live (malloced c) (alloc h)) as Hin by (apply Hlive; by eexists).
  destruct (la_push_ok _ _ _ Hok Hin) as (Hok' & Hlb & Hlnb).
  eexists. unfold free_cell, mbind, prog_bind. rewrite (read_run _ _ _ Hc). cbn [get put].
  split; [done|]. split; [|done]. split; [done|]. intros b k. cbn.
  destruct (decide (b = malloced c)) as [->|Hne].
  - rewrite Hlb, elem_of_difference, elem_of_singleton, Hlive.
    destruct (decide (k = l)) as [->|]; [rewrite lookup_delete_eq|rewrite lookup_delete_ne by done]; naive_solver.
  - assert (b = negb (malloced c)) as -> by (destruct b, (malloced c); done). rewrite Hlnb, Hlive.
    destruct (decide (k = l)) as [->|]; [rewrite lookup_delete_eq|by rewrite lookup_delete_ne by done].
    naive_solver.
Qed.

(** [h'] has all the cells of [h], unchanged. *)
Definition extends h h' : Prop := forall l c, cells h !! l = Some c -> cells h' !! l = Some c.

Lemma list_at_extends h h' p ns : list_at (cells h) p ns -> extends h h' -> list_at (cells h') p ns.
Proof.
  intros Hns He. eapply list_at_frame; [done|]. intros l Hl.
  destruct (list_at_dom _ _ _ _ Hns Hl) as [c Hc]. rewrite Hc. by apply He.
Qed.

Lemma copy_rec_spec n h p ns k :
  heap_ok h -> list_at (cells h) p ns -> (length ns < n)%nat -> can_alloc (length ns + k) h ->
  exists q ms h', copy_rec n p h = Ok (q, h') /\ heap_ok h' /\ can_alloc k h' /\ extends h h' /\
    list_at (cells h') q ms /\ ms.*2 = ns.*2 /\
    (forall l, l ∈ ms.*1 -> cells h !! l = None) /\
    dom (cells h') = (dom (cells h) ∪ list_to_set ms.*1) /\
    globus_l_list_active h' = globus_l_list_active h.
Proof.
  revert h p ns. induction n as [|n IH]; intros h p ns Hok Hp Hn Hc; [lia|].
  destruct ns as [|[l d] ns]; cbn [copy_rec].
  { cbn in Hp. subst p. exists None, [], h. split_and!; try done; [by intros ???|set_solver|].
    cbn. set_solver. }
  destruct Hp as (-> & c & Hl & Hd & Hp). unfold mbind, prog_bind. rewrite (read_run _ _ _ Hl).
  destruct (new_cell_spec h (Cell (datum c) None) (length ns + k) Hok Hc) as
    (e & h1 & -> & Hok1 & Hc1 & Hfresh & Hact1 & Hcells1); [done|].
  assert (extends h h1) as He1.
  { intros i ci Hi. rewrite Hcells1, lookup_insert_ne; [done|]. congruence. }
  destruct (IH h1 (next c) ns Hok1) as (q & ms & h2 & -> & Hok2 & Hc2 & He2 & Hq & Hms & Hnew & Hdom & Hact2);
    [by eapply list_at_extends|cbn in *; lia|done|].
  assert (cells h2 !! e = Some (Cell (datum c) None (negb (globus_l_list_active h)))) as Hce.
  { apply He2. by rewrite Hcells1, lookup_insert_eq. }
  rewrite (set_next_run _ _ _ _ Hce). cbn [mret prog_ret datum malloced].
  assert (e ∉ ms.*1) as Hne.
  { intros Hin. specialize (Hnew e Hin). by rewrite Hcells1, lookup_insert_eq in Hnew. }
  eexists (Some e), ((e, d) :: ms), _. split; [done|]. split_and!.
  - eapply heap_ok_relinked; [exact Hok2|]. by eapply (relinked_upd {[e]}); [exact Hce|done|set_solver].
  - done.
  - intros i ci Hi. cbn. rewrite lookup_insert_ne by congruence. auto.
  - cbn. split; [done|]. eexists. rewrite lookup_insert_eq. split_and!; [done..|].
    eapply list_at_frame; [done|]. intros i Hi. apply lookup_insert_ne. set_solver.
  - cbn. by rewrite Hms.
  - intros i [->|Hi]%elem_of_cons; [done|]. specialize (Hnew i Hi).
    rewrite Hcells1 in Hnew. by apply lookup_insert_None in Hnew as [? _].
  - cbn. rewrite dom_insert_L, Hdom, Hcells1, dom_insert_L. set_solver.
  - by rewrite <- Hact1, <- Hact2.
Qed.

Lemma list_copy_spec h p ns k :
  heap_ok h -> list_at (cells h) p ns -> can_alloc (length ns + k) h ->
  exists q ms h', globus_list_copy p h = Ok (q, h') /\ heap_ok h' /\ can_alloc k h' /\ extends h h' /\
    list_at (cells h') q ms /\ ms.*2 = ns.*2 /\
    (forall l, l ∈ ms.*1 -> cells h !! l = None) /\
    dom (cells h') = (dom (cells h) ∪ list_to_set ms.*1) /\
    globus_l_list_active h' = globus_l_list_active h.
Proof.
  intros Hok Hp Hc. unfold globus_list_copy, fuel, mbind, prog_bind. cbn [get mret prog_ret].
  apply copy_rec_spec; [done..| |done]. pose proof (list_at_length _ _ _ Hp). lia.
Qed.

Lemma extends_relinked S h h1 h2 :
  extends h h1 -> relinked S h1 h2 -> (forall l, l ∈ S -> cells h !! l = None) -> extends h h2.
Proof.
  intros He Hr HS l c Hl. rewrite (rl_other _ _ _ Hr); [by apply He|]. intros Hin. specialize (HS l Hin). congruence.
Qed.

Lemma sorted_data (le : D -> D -> Prop) ns :
  StronglySorted (fun a b => le a.2 b.2) ns -> StronglySorted le ns.*2.
Proof.
  induction 1 as [|a ns _ IH Ha]; cbn; constructor; [done|]. by apply Forall_fmap.
Qed.

#[local] Instance nrel_order (relation : D -> D -> bool) le :
  SortRelation relation le -> SortRelation (nrel relation) (fun a b : loc * D => le a.2 b.2).
Proof. intros [Ht Hf Htr]. split; unfold nrel; eauto. Qed.

#[local] Instance nrel_total (relation : D -> D -> bool) :
  SortRelation relation (fun a b => relation a b = true) -> SortRelation (nrel relation) (fun a b : loc * D => nrel relation a b = true).
Proof. intros [Ht Hf Htr]. split; unfold nrel; eauto. Qed.

(** The sort in place, on cells: [ms] are the cells [ns], with their data. *)
Lemma sort_destructive_spec (relation : D -> D -> bool) le h head ns :
  SortRelation relation le -> list_at (cells h) head ns -> Z.of_nat (length ns) <= INT_MAX ->
  exists q ms h', globus_list_sort_destructive head relation h = Ok (q, h') /\ list_at (cells h') q ms /\ relinked (addrs ns) h h' /\
    ms ≡ₚ ns /\ StronglySorted le ms.*2 /\
    (SortRelation relation (fun a b => relation a b = true) ->
       forall x, filter (fun n => same relation x n.2) ms = filter (fun n => same relation x n.2) ns).
Proof.
  intros Hle Hns Hmax. pose proof (list_at_length _ _ _ Hns) as Hfuel.
  destruct (sort_rec_spec relation (S (size (cells h))) h head ns Hns) as (q & h' & Hsort & Hq & Hrel); [lia|lia|lia|].
  exists q, (msort (nrel relation) (S (size (cells h))) ns), h'. split_and!; [done|done|done|apply msort_perm| |].
  - apply sorted_data, (msort_sorted _ (fun a b => le a.2 b.2)). lia.
  - intros Htot x. apply (msort_stable (nrel relation) (1%positive, x)). lia.
Qed.

Lemma filter_data (P : D -> Prop) `{forall x, Decision (P x)} ns : (filter (fun n : loc * D => P n.2) ns).*2 = filter P ns.*2.
Proof.
  induction ns as [|n ns IH]; [done|]. rewrite filter_cons, fmap_cons, filter_cons. destruct (decide (P n.2)); cbn; by rewrite IH.
Qed.

(** C13: [globus_list_sort_destructive] relinks the cells of the list in the order of the
    relation: no cell is lost or added, none changes its datum, and none outside the list is
    touched. The relation may be strict or not: it need only decide a transitive order. When
    it is a total order that is not strict, the sort is stable: cells with equal data stay in
    the order they had. [globus_list_sort] does the same on new cells that it allocates, and
    leaves the given list and every other cell of the heap unchanged. *)
Theorem list_sort_correct (relation : D -> D -> bool) le h head ns :
  SortRelation relation le -> heap_ok h -> list_at (cells h) head ns -> Z.of_nat (length ns) <= INT_MAX ->
  (exists q ms h', globus_list_sort_destructive head relation h = Ok (q, h') /\ heap_ok h' /\
     list_at (cells h') q ms /\ relinked (addrs ns) h h' /\ ms ≡ₚ ns /\ StronglySorted le ms.*2 /\
     (SortRelation relation (fun a b => relation a b = true) ->
        forall x, filter (fun n => same relation x n.2) ms = filter (fun n => same relation x n.2) ns)) /\
  (can_alloc (length ns) h ->
   exists q ms h', globus_list_sort head relation h = Ok (q, h') /\ heap_ok h' /\
     list_at (cells h') q ms /\ ms.*2 ≡ₚ ns.*2 /\ StronglySorted le ms.*2 /\
     (SortRelation relation (fun a b => relation a b = true) -> forall x, filter (same relation x) ms.*2 = filter (same relation x) ns.*2) /\
     extends h h' /\ dom (cells h') = (dom (cells h) ∪ addrs ms)).
Proof.
  intros Hle Hok Hns Hmax. split.
  { destruct (sort_destructive_spec relation le h head ns Hle Hns Hmax) as (q & ms & h' & Hrun & Hq & Hrel & Hms).
    exists q, ms, h'. split_and!; [done|by eapply heap_ok_relinked|done|done|apply Hms..]. }
  intros Hc. destruct (list_copy_spec h head ns 0 Hok Hns) as
    (q & ms & h1 & Hrun & Hok1 & _ & He1 & Hq & Hms & Hnew & Hdom & _); [by rewrite Nat.add_0_r|].
  assert (length ms = length ns) as Hlen by (by rewrite <- (length_fmap snd ms), Hms, length_fmap).
  destruct (sort_destructive_spec relation le h1 q ms Hle Hq) as (r & rs & h2 & Hsort & Hr & Hrel & Hperm & Hsorted & Hst); [lia|].
  exists r, rs, h2. split_and!; [|by eapply heap_ok_relinked|done|by rewrite Hperm, Hms|done| | |].
  - unfold globus_list_sort, mbind, prog_bind. by rewrite Hrun.
  - intros Htot x. by rewrite <- Hms, <- !filter_data, Hst.
  - eapply extends_relinked; [done..|]. intros l Hl. apply Hnew. by apply elem_of_list_to_set in Hl.
  - rewrite (addrs_perm _ _ Hperm). unfold addrs.
    rewrite <- Hdom, <- (dom_fmap_L malloced (cells h2)), (rl_malloced _ _ _ Hrel), dom_fmap_L. done.
Qed.

(** ** Removal *)

Lemma list_at_split cs p ns l d ms :
  list_at (D := D) cs p (ns ++ (l, d) :: ms) ->
  exists c, cs !! l = Some c /\ datum c = d /\ list_at cs (next c) ms.
Proof. intros Hp. destruct (list_at_app _ _ _ _ Hp) as (q & Hq & _). cbn in Hq. naive_solver. Qed.

(** Bypassing a cell, whose predecessor is [t], and freeing it. *)
Lemma list_at_bypass cs p ns t dt l d ms ct cl :
  list_at (D := D) cs p (ns ++ (t, dt) :: (l, d) :: ms) -> cs !! t = Some ct -> cs !! l = Some cl ->
  list_at (delete l (<[t := Cell (datum ct) (next cl) (malloced ct)]> cs)) p (ns ++ (t, dt) :: ms).
Proof.
  intros Hp Ht Hl. pose proof (list_at_NoDup _ _ _ Hp) as Hnd.
  destruct (list_at_split _ _ _ _ _ _ Hp) as (ct' & Ht' & Hdt & Hrest). simplify_eq.
  destruct Hrest as (_ & cl' & Hl' & Hd & Hms). simplify_eq.
  assert (list_at (<[t := Cell (datum ct) None (malloced ct)]> cs) p (ns ++ [(t, datum ct)])) as Hcut
    by by eapply list_at_cut.
  rewrite fmap_app in Hnd. apply NoDup_app in Hnd as (_ & Hdis & Hnd). cbn in Hnd.
  apply NoDup_cons in Hnd as [Htn Hnd]. apply NoDup_cons in Hnd as [Hln _].
  assert (list_at (delete l (<[t := Cell (datum ct) None (malloced ct)]> cs)) p (ns ++ [(t, datum ct)])) as Hcut'.
  { eapply list_at_frame; [done|]. intros k Hk. apply lookup_delete_ne. intros <-.
    rewrite fmap_app in Hk. apply elem_of_app in Hk as [Hk|Hk]; [apply (Hdis l Hk); set_solver|set_solver]. }
  eapply (list_at_attach _ _ _ t (datum ct) (malloced ct) (next cl) ms) in Hcut'.
  - eapply list_at_frame; [exact Hcut'|]. intros k Hk. rewrite insert_delete_ne by set_solver.
    destruct (decide (k = l)) as [->|]; [by rewrite !lookup_delete_eq|].
    rewrite !lookup_delete_ne, insert_insert_eq by done. done.
  - eapply list_at_frame; [done|]. intros k Hk. rewrite lookup_delete_ne, lookup_insert_ne by set_solver. done.
  - set_solver.
Qed.

(** [h'] is [h] without the cell [l], and with other contents only at [S]. *)
Record removed (S : gset loc) (l : loc) h h' : Prop := {
  rm_ok : heap_ok h';
  rm_active : globus_l_list_active h' = globus_l_list_active h;
  rm_gone : cells h' !! l = None;
  rm_other : forall k, k ∉ S -> k <> l -> cells h' !! k = cells h !! k;
}.

Lemma remove_loop_found n h p ns t dt ms1 l d ms2 j :
  heap_ok h -> list_at (cells h) p (ns ++ (t, dt) :: ms1 ++ (l, d) :: ms2) ->
  list_at (cells h) j (ms1 ++ (l, d) :: ms2) -> (length ms1 < n)%nat ->
  exists h', remove_loop n (Some t) j l h = Ok (true, h') /\
    list_at (cells h') p (ns ++ (t, dt) :: ms1 ++ ms2) /\
    removed (addrs (ns ++ (t, dt) :: ms1 ++ ms2)) l h h'.
Proof.
  revert ns t dt ms1 j. induction n as [|n IH]; intros ns t dt ms1 j Hok Hp Hj Hn; [lia|].
  destruct (list_at_split _ _ _ _ _ _ Hp) as (ct & Hct & Hdt & Hms).
  pose proof (list_at_NoDup _ _ _ Hp) as Hnd.
  rewrite fmap_app in Hnd. apply NoDup_app in Hnd as (_ & _ & Hnd). cbn in Hnd.
  apply NoDup_cons in Hnd as [Htn Hnd]. destruct ms1 as [|[x dx] ms1]; cbn [remove_loop].
  - cbn in Hj. destruct Hj as (-> & cl & Hcl & Hd & _). rewrite empty_Some, bool_decide_true by done.
    unfold mbind, prog_bind. rewrite (rest_run _ _ _ Hcl), (set_next_run _ _ _ _ Hct).
    assert (t <> l) as Htl by set_solver.
    destruct (free_cell_spec (upd h t (Cell (datum ct) (next cl) (malloced ct))) l cl)
      as (h' & -> & Hok' & Hact & Hcells).
    { eapply heap_ok_relinked; [done|]. by eapply (relinked_upd {[t]}); [done|done|set_solver]. }
    { cbn. by rewrite lookup_insert_ne. }
    cbn in Hcells. exists h'. split; [done|]. rewrite Hcells. split.
    + cbn. by eapply list_at_bypass.
    + split; [done|done|by rewrite Hcells, lookup_delete_eq|].
      intros k Hk Hkl. rewrite Hcells, lookup_delete_ne, lookup_insert_ne; [done| |done].
      intros <-. apply Hk. rewrite addrs_app. unfold addrs. cbn. set_solver.
  - pose proof Hj as (-> & cx & Hcx & Hdx & Hj'). rewrite empty_Some.
    rewrite bool_decide_false.
    2: { intros [= ->]. cbn in Hnd. apply NoDup_cons in Hnd as [Hx _]. apply Hx. rewrite fmap_app. set_solver. }
    unfold mbind, prog_bind. rewrite (rest_run _ _ _ Hct), (rest_run _ _ _ Hcx).
    assert (next ct = Some x) as -> by (by destruct Hms as (? & _)).
    destruct (IH (ns ++ [(t, dt)]) x dx ms1 (next cx)) as (h' & Hrun & Hp' & Hrm);
      [done|by rewrite <- app_assoc|done|cbn in *; lia|].
    rewrite <- app_assoc in Hp', Hrm. exists h'. done.
Qed.

Lemma remove_loop_absent n h t j l ms ct :
  list_at (cells h) j ms -> cells h !! t = Some ct -> next ct = j -> (length ms < n)%nat -> l ∉ ms.*1 ->
  remove_loop n (Some t) j l h = Ok (false, h).
Proof.
  revert t j ms ct. induction n as [|n IH]; intros t j ms ct Hj Hct Hnext Hn Hl; [lia|].
  destruct ms as [|[x dx] ms]; cbn [remove_loop].
  - cbn in Hj. by rewrite Hj, empty_None.
  - destruct Hj as (E & cx & Hcx & _ & Hj). rewrite E, empty_Some, bool_decide_false by set_solver.
    unfold mbind, prog_bind. rewrite (rest_run _ _ _ Hct), (rest_run _ _ _ Hcx), Hnext, E.
    eapply IH; [done|done|done|cbn in *; lia|set_solver].
Qed.

Lemma remove_head_spec h l d ns :
  heap_ok h -> list_at (cells h) (Some l) ((l, d) :: ns) ->
  exists p h', globus_list_remove (Some l) (Some l) h = Ok ((Some d, p), h') /\ heap_ok h' /\
    globus_l_list_active h' = globus_l_list_active h /\ cells h' = delete l (cells h) /\
    list_at (cells h') p ns.
Proof.
  intros Hok Hns. pose proof (list_at_NoDup _ _ _ Hns) as [Hl _]%NoDup_cons.
  destruct Hns as (_ & c & Hc & Hd & Hns). unfold globus_list_remove, mbind, prog_bind.
  rewrite (bool_decide_true (is_Some (Some l))) by (by eexists). cbn [run c_assert deref].
  rewrite (first_run _ _ _ Hc), bool_decide_true, (rest_run _ _ _ Hc) by done.
  destruct (free_cell_spec h l c Hok Hc) as (h' & -> & Hok' & Hact & Hcells).
  exists (next c), h'. rewrite Hd, Hcells. split_and!; try done.
  eapply list_at_frame; [done|]. intros k Hk. apply lookup_delete_ne. set_solver.
Qed.

Lemma remove_spec h head ns l c :
  heap_ok h -> list_at (cells h) head ns -> ns <> [] -> cells h !! l = Some c ->
  (exists ns1 d ns2 head' h', ns = ns1 ++ (l, d) :: ns2 /\
     globus_list_remove head (Some l) h = Ok ((Some d, head'), h') /\
     list_at (cells h') head' (ns1 ++ ns2) /\ removed (addrs (ns1 ++ ns2)) l h h') \/
  (l ∉ ns.*1 /\ globus_list_remove head (Some l) h = Ok ((None, head), h)).
Proof.
  intros Hok Hns Hne Hc. destruct ns as [|[t dt] ns]; [done|]. pose proof Hns as (-> & ct & Hct & Hdt & Hrest).
  destruct (decide (l = t)) as [->|Hlt].
  { left. destruct (remove_head_spec h t dt ns Hok Hns) as (p & h' & -> & Hok' & Hact & Hcells & Hp).
    exists [], dt, ns, p, h'. split_and!; try done.
    split; [done|done|by rewrite Hcells, lookup_delete_eq|].
    intros k _ Hk. by rewrite Hcells, lookup_delete_ne. }
  unfold globus_list_remove, mbind, prog_bind.
  rewrite (bool_decide_true (is_Some (Some l))) by (by eexists). cbn [run c_assert deref].
  rewrite (first_run _ _ _ Hc).
  rewrite bool_decide_false by congruence. rewrite (rest_run _ _ _ Hct).
  unfold fuel, mbind, prog_bind. cbn [get mret prog_ret].
  pose proof (list_at_length _ _ _ Hns) as Hlen.
  destruct (decide (l ∈ ns.*1)) as [Hin|Hnin].
  - left. apply list_elem_of_fmap in Hin as ([l' d] & Hl' & Hin). cbn in Hl'. subst l'.
    apply list_elem_of_split in Hin as (ms1 & ms2 & ->).
    destruct (remove_loop_found (S (size (cells h))) h (Some t) [] t dt ms1 l d ms2 (next ct))
      as (h' & -> & Hp & Hrm); [done..|cbn in Hlen; rewrite length_app in Hlen; lia|].
    destruct (list_at_split _ _ ((t, dt) :: ms1) _ _ _ Hns) as (c' & Hc' & Hd & _).
    assert (c' = c) as -> by congruence. subst d.
    exists ((t, dt) :: ms1), (datum c), ms2, (Some t), h'. done.
  - right. split; [set_solver|].
    rewrite (remove_loop_absent _ _ _ _ _ ns ct); [done|done|done|done|cbn in Hlen; lia|done].
Qed.

(** [globus_list_remove] of a cell of the list unlinks exactly that cell,
    returns its datum and gives the cell back to the allocator it came from; a
    cell that is not in the (non-empty) list is left alone and NULL returned. *)
Theorem list_remove_correct h head ns l c :
  heap_ok h -> list_at (cells h) head ns -> ns <> [] -> cells h !! l = Some c ->
  (exists ns1 d ns2 head' h', ns = ns1 ++ (l, d) :: ns2 /\
     globus_list_remove head (Some l) h = Ok ((Some d, head'), h') /\
     list_at (cells h') head' (ns1 ++ ns2) /\ removed (addrs (ns1 ++ ns2)) l h h') \/
  (l ∉ ns.*1 /\ globus_list_remove head (Some l) h = Ok ((None, head), h)).
Proof. exact (remove_spec h head ns l c). Qed.

Lemma remove_all_spec n h p ns :
  heap_ok h -> list_at (cells h) p ns -> (length ns < n)%nat ->
  exists h', remove_all n p h = Ok (ns.*2, h') /\ heap_ok h' /\
    globus_l_list_active h' = globus_l_list_active h /\
    forall k, cells h' !! k = if decide (k ∈ ns.*1) then None else cells h !! k.
Proof.
  revert h p ns. induction n as [|n IH]; intros h p ns Hok Hp Hn; [lia|].
  destruct ns as [|[l d] ns]; cbn [remove_all].
  { cbn in Hp. subst p. by exists h. }
  pose proof Hp as (-> & _). rewrite empty_Some. unfold mbind, prog_bind.
  destruct (remove_head_spec h l d ns Hok Hp) as (q & h1 & -> & Hok1 & Hact1 & Hcells1 & Hq).
  destruct (IH h1 q ns Hok1 Hq) as (h2 & -> & Hok2 & Hact2 & Hcells2); [cbn in *; lia|].
  exists h2. split_and!; [done|done|by rewrite Hact2|]. intros k. rewrite Hcells2, Hcells1. cbn.
  destruct (decide (k = l)) as [->|Hne].
  - rewrite lookup_delete_eq, (decide_True (P := l ∈ l :: ns.*1)) by set_solver. by case_decide.
  - rewrite lookup_delete_ne by done. do 2 case_decide; set_solver.
Qed.

(** [globus_list_free] and [globus_list_destroy_all] free every cell of the
    list, each to the allocator it came from, and no other cell; [destroy_all]
    passes the data that are not NULL to [data_free] once each, in the order of
    the list. *)
Theorem list_destroy_all_correct h is_null head ns :
  heap_ok h -> list_at (cells h) head ns ->
  exists h', globus_list_destroy_all is_null head h = Ok (filter (fun d => is_null d = false) ns.*2, h') /\
    globus_list_free head h = Ok (tt, h') /\ heap_ok h' /\
    forall k, cells h' !! k = if decide (k ∈ ns.*1) then None else cells h !! k.
Proof.
  intros Hok Hns. pose proof (list_at_length _ _ _ Hns).
  destruct (remove_all_spec (S (size (cells h))) h head ns Hok Hns) as (h' & Hrun & Hok' & _ & Hcells); [lia|].
  exists h'. unfold globus_list_destroy_all, globus_list_free, fuel, mbind, prog_bind. cbn [get mret prog_ret].
  by rewrite Hrun.
Qed.

(** The pointer to the first cell that satisfies [P]. *)
Definition find_cell (P : D -> bool) ns : ptr :=
  fst <$> head (filter (fun n => Is_true (P n.2)) ns).

Lemma search_pred_spec n h p ns (P : D -> bool) :
  list_at (cells h) p ns -> (length ns < n)%nat ->
  search_pred_rec n p P h = Ok (find_cell P ns, h).
Proof.
  revert p ns. induction n as [|n IH]; intros p ns Hp Hn; [lia|].
  destruct ns as [|[l d] ns]; cbn [search_pred_rec].
  - cbn in Hp. by subst p.
  - destruct Hp as (-> & c & Hc & <- & Hp). rewrite empty_Some. unfold mbind, prog_bind.
    rewrite (first_run _ _ _ Hc). unfold find_cell.
    destruct (P (datum c)) eqn:E.
    + rewrite filter_cons_True; [done|]. by apply Is_true_true.
    + rewrite filter_cons_False by by apply Is_true_false.
      rewrite (rest_run _ _ _ Hc). apply IH; [done|cbn in *; lia].
Qed.

Lemma search_loop_pred n (h : lheap D A) p d :
  search_loop n p d h = search_pred_rec n p (fun x => bool_decide (x = d)) h.
Proof.
  revert p h. induction n as [|n IH]; intros p h; cbn; [done|]. destruct (globus_list_empty p); [done|].
  unfold mbind, prog_bind. destruct (globus_list_first p h) as [[x h1]|]; [|done].
  case_bool_decide; [done|]. destruct (globus_list_rest p h1) as [[q h2]|]; [|done]. apply IH.
Qed.

(** [globus_list_search] and [globus_list_search_pred] return the first cell
    whose datum is the given one, resp. satisfies the predicate, or NULL when
    there is none, and change nothing. *)
Theorem list_search_correct h head ns d (P : D -> bool) :
  list_at (cells h) head ns ->
  globus_list_search head d h = Ok (find_cell (fun x => bool_decide (x = d)) ns, h) /\
  globus_list_search_pred head P h = Ok (find_cell P ns, h).
Proof.
  intros Hns. pose proof (list_at_length _ _ _ Hns). split.
  - unfold globus_list_search. destruct ns as [|[l x] ns]; [cbn in Hns; by subst head|].
    pose proof Hns as (-> & _). rewrite empty_Some. unfold fuel, mbind, prog_bind. cbn [get mret prog_ret].
    rewrite search_loop_pred. apply search_pred_spec; [done|lia].
  - unfold globus_list_search_pred, fuel, mbind, prog_bind. cbn [get mret prog_ret].
    apply search_pred_spec; [done|lia].
Qed.

Lemma insert_spec h head ns d k :
  heap_ok h -> list_at (cells h) head ns -> can_alloc (S k) h ->
  exists l h', globus_list_insert head d h = Ok ((0, Some l), h') /\ heap_ok h' /\ can_alloc k h' /\
    cells h !! l = None /\ globus_l_list_active h' = globus_l_list_active h /\
    cells h' = <[l := Cell d head (negb (globus_l_list_active h))]> (cells h) /\
    list_at (cells h') (Some l) ((l, d) :: ns).
Proof.
  intros Hok Hns Hc.
  destruct (new_cell_spec h (Cell d head) k Hok Hc) as (l & h' & Hrun & Hok' & Hc' & Hl & Hact & Hcells); [done|].
  exists l, h'. unfold globus_list_insert, mbind, prog_bind. rewrite Hrun. rewrite Hcells at 2.
  split_and!; try done. cbn. split; [done|]. eexists. rewrite lookup_insert_eq. split_and!; [done..|].
  eapply list_at_frame; [done|]. intros i Hi. apply lookup_insert_ne. intros <-.
  destruct (list_at_dom _ _ _ _ Hns Hi) as [? ?]. congruence.
Qed.

Lemma last_cell_spec n h p ns l d :
  list_at (cells h) p (ns ++ [(l, d)]) -> (length ns < n)%nat -> last_cell n p h = Ok (Some l, h).
Proof.
  revert p ns. induction n as [|n IH]; intros p ns Hp Hn; [lia|]. cbn [last_cell].
  destruct ns as [|[l' d'] ns]; cbn [app] in Hp; destruct Hp as (-> & c & Hc & _ & Hp);
    unfold mbind, prog_bind; rewrite (read_run _ _ _ Hc).
  - cbn in Hp. by rewrite Hp.
  - assert (exists q, next c = Some q) as [q Hq].
    { destruct ns as [|[l'' d''] ns]; destruct Hp as (-> & _); by eexists. }
    rewrite Hq. rewrite Hq in Hp. apply (IH _ ns); [done|cbn in *; lia].
Qed.

(** [globus_list_concat] returns a list with the data of the first list
    followed by those of the second, built in cells allocated by the call; both
    lists, which may share cells, are unchanged. *)
Theorem list_concat_correct h front back ns ms :
  heap_ok h -> list_at (cells h) front ns -> list_at (cells h) back ms ->
  can_alloc (length ms + length ns) h ->
  exists q rs h', globus_list_concat front back h = Ok (q, h') /\ heap_ok h' /\
    list_at (cells h') q rs /\ rs.*2 = ns.*2 ++ ms.*2 /\ extends h h' /\
    dom (cells h') = (dom (cells h) ∪ addrs rs).
Proof.
  intros Hok Hns Hms Hc. unfold globus_list_concat, mbind, prog_bind.
  destruct (list_copy_spec h back ms (length ns) Hok Hms Hc) as
    (qb & rb & h1 & -> & Hok1 & Hc1 & He1 & Hqb & Hrb & Hnew1 & Hdom1 & _).
  destruct ns as [|[l d] ns].
  { cbn in Hns. subst front. exists qb, rb, h1. done. }
  pose proof Hns as (-> & _).
  destruct (list_copy_spec h1 (Some l) ((l, d) :: ns) 0 Hok1) as
    (qf & rf & h2 & -> & Hok2 & _ & He2 & Hqf & Hrf & Hnew2 & Hdom2 & _);
    [by eapply list_at_extends|by rewrite Nat.add_0_r|].
  destruct (exists_last (l := rf)) as (rf' & [t dt] & ->); [by intros ->|].
  unfold fuel, mbind, prog_bind. cbn [get mret prog_ret].
  pose proof (list_at_length _ _ _ Hqf) as Hlen. rewrite length_app in Hlen. cbn in Hlen.
  rewrite (last_cell_spec _ _ _ rf' t dt) by (done || lia).
  destruct (list_at_split _ _ _ _ _ _ Hqf) as (c & Hct & Hdt & _).
  rewrite (set_next_run _ _ _ _ Hct). cbn [mret prog_ret].
  assert (cells h1 !! t = None) as Ht1 by (apply Hnew2; rewrite fmap_app; set_solver).
  assert (cells h !! t = None) as Ht0.
  { destruct (cells h !! t) as [x|] eqn:E; [|done]. apply He1 in E. congruence. }
  eexists qf, (rf' ++ (t, dt) :: rb), _. split; [reflexivity|]. split_and!.
  - eapply heap_ok_relinked; [exact Hok2|]. by eapply (relinked_upd {[t]}); [done|done|set_solver].
  - cbn. rewrite Hdt. eapply list_at_attach; [done|by eapply list_at_extends|].
    intros Hin. destruct (list_at_dom _ _ _ _ Hqb Hin). congruence.
  - rewrite fmap_app in Hrf |- *. cbn in *. rewrite <- Hrb, cons_middle, app_assoc. by rewrite Hrf.
  - intros i ci Hi. cbn. rewrite lookup_insert_ne by congruence. auto.
  - cbn. rewrite dom_insert_L, Hdom2, Hdom1, !addrs_app, fmap_app. unfold addrs. cbn.
    rewrite list_to_set_app_L. set_solver.
Qed.
End Alloc.

(** ** The allocators of the module

    The memory pool of Memory.v and [malloc], whose results are the addresses
    [lib]: they do not overlap the chunks of the pool. *)

Record allocators := Allocators {
  list_info : Memory.memory;
  lib : list loc;
  lib_live : gset loc;
}.

#[export] Instance list_allocators : ListAlloc allocators := {
  la_pop b a :=
    if b then
      match lib a with
      | [] => Ok (None, a)
      | l :: ls => Ok (Some l, Allocators (list_info a) ls ({[l]} ∪ lib_live a))
      end
    else '(p, m) ← Memory.globus_memory_pop_node (list_info a); Ok (p, Allocators m (lib a) (lib_live a));
  la_push b l a :=
    if b then Allocators (list_info a) (lib a) (lib_live a ∖ {[l]})
    else Allocators (snd (Memory.globus_memory_push_node (list_info a) l)) (lib a) (lib_live a);
  la_live b a := if b then lib_live a else Memory.in_use (list_info a);
  la_ok a := Memory.mem_ok (list_info a) /\ NoDup (lib a) /\
    (forall l, l ∈ lib a -> l ∉ lib_live a /\ l ∉ Memory.space (list_info a)) /\
    (forall l, l ∈ lib_live a -> l ∉ Memory.space (list_info a));
}.

Lemma push_node_space m l : Memory.space (snd (Memory.globus_memory_push_node m l)) = Memory.space m.
Proof. unfold Memory.globus_memory_push_node. by destruct (Memory.destroyed m). Qed.

#[export] Instance list_allocators_laws : ListAllocLaws allocators.
Proof.
  split; cbn.
  - intros [] [m ls live] l a' (Hm & Hnd & Hls & Hlive); cbn in *.
    + destruct ls as [|l' ls]; [done|]. intros [= -> <-]. cbn. apply NoDup_cons in Hnd as [? Hnd].
      destruct (Hls l) as [Hl1 Hl2]; [set_solver|]. split_and!; try done.
      * intros i Hi. split; [|apply Hls; set_solver]. pose proof (Hls i). set_solver.
      * intros i [->%elem_of_singleton|Hi]%elem_of_union; auto.
      * intros []; [done|]. pose proof (Memory.in_use_space m). set_solver.
    + rewrite result_bind_Ok. intros ([p m'] & Hrun & [= -> <-]). cbn.
      pose proof (Memory.pop_node_space _ _ _ Hm Hrun) as Hsp.
      destruct (Memory.pop_node_inv _ _ _ Hm Hrun) as (l' & [= <-] & Hm' & Hfresh & Hin).
      rewrite Hsp. split_and!; try done. intros []; [|done]. intros Hl. apply (Hlive l Hl).
      rewrite <- Hsp. apply Memory.in_use_space. rewrite Hin. set_solver.
  - intros [] [m ls live] l (Hm & Hnd & Hls & Hlive) Hl; cbn in *.
    + split_and!; try done; intros i Hi; pose proof (Hls i); pose proof (Hlive i); set_solver.
    + rewrite push_node_space. destruct (Memory.push_node_ok m l Hm Hl) as (m' & -> & ? & ?). done.
Qed.

(** ** A concrete list: 3, 1, 2 in three of the eight nodes of a pool *)

Definition example_mallocs : list ptr := [Some 1000%positive].

Definition example_info : Memory.memory :=
  match Memory.globus_memory_init true true example_mallocs [] 24 8 with
  | Ok (_, m) => m
  | Fault _ => Memory.example_pool
  end.

Lemma example_info_ok : Memory.mem_ok example_info.
Proof.
  destruct (Memory.init_spec example_mallocs [] 24 8) as (m & Hrun & Hok & _); [lia|lia|done|by eexists| |].
  - intros [|i] [|j] b b' Hi Hj Hij; cbn in *; done.
  - unfold example_info. by rewrite Hrun.
Qed.

Definition example_heap0 : lheap Z allocators := LHeap ∅ (Allocators example_info [] ∅) true.

Lemma example_heap0_ok : heap_ok example_heap0.
Proof.
  split; [split_and!; [exact example_info_ok|constructor|set_solver..]|]. intros b l. split.
  - assert (la_live b (alloc example_heap0) = ∅) as -> by (by destruct b; vm_compute). set_solver.
  - intros (c & Hc & _). done.
Qed.

Definition push (d : Z) (s : ptr * lheap Z allocators) : ptr * lheap Z allocators :=
  match globus_list_insert s.1 d s.2 with Ok ((_, q), h) => (q, h) | Fault _ => s end.

Lemma push_ok d k s ns :
  heap_ok s.2 -> list_at (cells s.2) s.1 ns -> can_alloc (S k) s.2 ->
  heap_ok (push d s).2 /\ can_alloc k (push d s).2 /\
  exists l, list_at (cells (push d s).2) (push d s).1 ((l, d) :: ns).
Proof.
  intros Hok Hns Hc. destruct (insert_spec s.2 s.1 ns d k Hok Hns Hc) as (l & h & Hrun & ? & ? & _ & _ & _ & ?).
  unfold push. rewrite Hrun. eauto.
Qed.

Definition example_list : ptr * lheap Z allocators := push 3 (push 1 (push 2 (None, example_heap0))).

Lemma example_list_ok :
  heap_ok example_list.2 /\ can_alloc 5 example_list.2 /\
  exists ns, list_at (cells example_list.2) example_list.1 ns /\ ns.*2 = [3; 1; 2].
Proof.
  assert (can_alloc 8 example_heap0) as Hc.
  { apply can_popb_ok. by vm_compute. }
  destruct (push_ok 2 7 (None, example_heap0) [] example_heap0_ok eq_refl Hc) as (H1 & C1 & l1 & L1).
  destruct (push_ok 1 6 _ _ H1 L1 C1) as (H2 & C2 & l2 & L2).
  destruct (push_ok 3 5 _ _ H2 L2 C2) as (H3 & C3 & l3 & L3). split_and!; [done..|]. by eexists.
Qed.

#[export] Instance leb_order : SortRelation Z.leb (fun a b => Z.leb a b = true).
Proof. split; intros; lia. Qed.

Lemma list_sort_correct_witness :
  exists ns : list (loc * Z), ns.*2 = [3; 1; 2] /\
  (exists q ms h', globus_list_sort_destructive example_list.1 Z.leb example_list.2 = Ok (q, h') /\ list_at (cells h') q ms /\
     ms ≡ₚ ns /\ forall x, filter (fun n => same Z.leb x n.2) ms = filter (fun n => same Z.leb x n.2) ns) /\
  exists q ms h', globus_list_sort example_list.1 Z.leb example_list.2 = Ok (q, h') /\ heap_ok h' /\
    list_at (cells h') q ms /\ ms.*2 ≡ₚ ns.*2 /\ StronglySorted (fun a b => Z.leb a b = true) ms.*2 /\
    extends example_list.2 h' /\ dom (cells h') = (dom (cells example_list.2) ∪ addrs ms).
Proof.
  destruct example_list_ok as (Hok & Hc & ns & Hns & Hdata). exists ns. split; [done|].
  assert (length ns = 3%nat) as Hlen by (by rewrite <- (length_fmap snd ns), Hdata).
  destruct (list_sort_correct Z.leb (fun a b => Z.leb a b = true) example_list.2 example_list.1 ns) as [(q & ms & h' & H1 & _ & H2 & _ & H3 & _ & H4) Hs];
    [apply leb_order|exact Hok|exact Hns|rewrite Hlen; done|]. split.
  - exists q, ms, h'. split; [exact H1|]. split; [exact H2|]. split; [exact H3|]. apply H4, leb_order.
  - destruct Hs as (q' & ms' & h2 & E1 & E2 & E3 & E4 & E5 & _ & E6); [rewrite Hlen; eapply can_pop_le; [exact Hc|lia]|].
    exists q', ms', h2. split; [exact E1|]. split; [exact E2|]. split; [exact E3|]. split; [exact E4|]. split; [exact E5|exact E6].
Defined.

Lemma list_remove_correct_witness :
  exists (ns : list (loc * Z)) l, ns.*2 = [3; 1; 2] /\
  ((exists ns1 d ns2 head' h', ns = ns1 ++ (l, d) :: ns2 /\
     globus_list_remove example_list.1 (Some l) example_list.2 = Ok ((Some d, head'), h') /\
     list_at (cells h') head' (ns1 ++ ns2) /\ removed (addrs (ns1 ++ ns2)) l example_list.2 h') \/
  (l ∉ ns.*1 /\ globus_list_remove example_list.1 (Some l) example_list.2 = Ok ((None, example_list.1), example_list.2))).
Proof.
  destruct example_list_ok as (Hok & Hc & ns & Hns & Hdata). exists ns, 1024%positive. split; [done|].
  eapply list_remove_correct; [done|done| |vm_compute; reflexivity].
  intros ->. done.
Defined.

Lemma list_destroy_all_correct_witness :
  exists (ns : list (loc * Z)) h', ns.*2 = [3; 1; 2] /\
    globus_list_destroy_all Z.even example_list.1 example_list.2 =
      Ok (filter (fun d => Z.even d = false) ns.*2, h') /\
    globus_list_free example_list.1 example_list.2 = Ok (tt, h') /\ heap_ok h' /\
    forall k, cells h' !! k = if decide (k ∈ ns.*1) then None else cells example_list.2 !! k.
Proof.
  destruct example_list_ok as (Hok & Hc & ns & Hns & Hdata).
  destruct (list_destroy_all_correct _ Z.even _ _ Hok Hns) as (h' & ?). by exists ns, h'.
Defined.

Lemma list_search_correct_witness :
  exists ns : list (loc * Z), ns.*2 = [3; 1; 2] /\
  globus_list_search example_list.1 1 example_list.2 =
    Ok (find_cell (fun x => bool_decide (x = 1)) ns, example_list.2) /\
  globus_list_search_pred example_list.1 Z.even example_list.2 = Ok (find_cell Z.even ns, example_list.2).
Proof.
  destruct example_list_ok as (_ & _ & ns & Hns & Hdata). exists ns. split; [done|].
  by apply list_search_correct.
Defined.

Lemma list_concat_correct_witness :
  exists q (rs : list (loc * Z)) h', globus_list_concat example_list.1 None example_list.2 = Ok (q, h') /\ heap_ok h' /\
    list_at (cells h') q rs /\ rs.*2 = [3; 1; 2] ++ [] /\ extends example_list.2 h' /\
    dom (cells h') = (dom (cells example_list.2) ∪ addrs rs).
Proof.
  destruct example_list_ok as (Hok & Hc & ns & Hns & Hdata). rewrite <- Hdata.
  assert (length ns = 3%nat) as Hlen by (by rewrite <- (length_fmap snd ns), Hdata).
  apply (list_concat_correct example_list.2 example_list.1 None ns []); [done|done|done|].
  cbn. rewrite Hlen. eapply can_pop_le; [exact Hc|lia].
Defined.

(** ** Lists of tokens

    The list [globus_list_from_string] builds by inserting at the front, for a
    delimiter that is not NUL. *)

Section FromString.
Context (delim : ascii) (ignored : option (list ascii)).

(** The inner loop: drop the leading characters that are ignored. *)
Fixpoint skip_ignored (entry : list ascii) : list ascii :=
  match ignored, entry with
  | Some ign, c :: entry' => if decide (c ∈ ign) then skip_ignored entry' else entry
  | _, _ => entry
  end.

(** [tok] holds the characters since the last delimiter, in reverse. *)
Fixpoint from_string_loop (s tok : list ascii) (acc : list (list ascii)) : list (list ascii) :=
  match s with
  | [] => if bool_decide (tok = []) then acc else rev tok :: acc
  | c :: s =>
      if decide (c = delim) then from_string_loop s [] (skip_ignored (rev tok) :: acc)
      else from_string_loop s (c :: tok) acc
  end.

Definition globus_list_from_string (in_string : option (list ascii)) : list (list ascii) :=
  match in_string with
  | None => []
  | Some s => from_string_loop s [] []
  end.
End FromString.

Lemma skip_none t : skip_ignored None t = t.
Proof. by destruct t. Qed.

(** The tokens separated by the delimiter. *)
Fixpoint join (delim : ascii) (ts : list (list ascii)) : list ascii :=
  match ts with
  | [] => []
  | [t] => t
  | t :: ts => t ++ delim :: join delim ts
  end.

Lemma from_string_token delim ign t s tok acc :
  delim ∉ t -> from_string_loop delim ign (t ++ s) tok acc = from_string_loop delim ign s (rev t ++ tok) acc.
Proof.
  revert tok. induction t as [|c t IH]; intros tok Hd; cbn; [done|].
  rewrite decide_False by set_solver. rewrite IH by set_solver. by rewrite <- app_assoc.
Qed.

(** Splitting what was joined gives the tokens back, in reverse order, if the
    last one is not empty. *)
Lemma from_string_join delim ts t :
  Forall (fun t => delim ∉ t) (ts ++ [t]) -> t <> [] ->
  globus_list_from_string delim None (Some (join delim (ts ++ [t]))) = rev (ts ++ [t]).
Proof.
  intros Hd Ht.
  enough (forall acc, from_string_loop delim None (join delim (ts ++ [t])) [] acc = rev (ts ++ [t]) ++ acc)
    as Hacc by (unfold globus_list_from_string; by rewrite Hacc, app_nil_r).
  induction ts as [|u ts IH]; intros acc; cbn [app] in *.
  - inversion Hd as [|? ? Hdt _]; subst. pose proof (from_string_token delim None t [] [] acc Hdt) as E.
    rewrite !app_nil_r in E. cbn [join]. rewrite E. cbn. rewrite bool_decide_false; [by rewrite rev_involutive|].
    intros Er. apply Ht. rewrite <- (rev_involutive t), Er. done.
  - inversion Hd as [|? ? Hu Hts]; subst.
    assert (join delim (u :: ts ++ [t]) = u ++ delim :: join delim (ts ++ [t])) as ->
      by (by destruct ts).
    rewrite from_string_token by done. cbn. rewrite decide_True, app_nil_r, rev_involutive by done.
    rewrite IH by done. cbn. by rewrite <- app_assoc, skip_none.
Qed.
End GlobusList.
