(* ===== verification/Fifo.v ===== *)
(** * Queues (common/source/library/globus_fifo.c)

    A queue is a list of GlobusList.v with a pointer to its last cell and a
    count. An argument that may be NULL is an [option]; a queue passed to an
    operation that asserts it is not NULL is not. The structure itself is
    allocated with [malloc], whose result is not checked: it is taken to
    succeed. *)
From S2P Require Import Prelude.
From S2P Require Import Memory.
From S2P Require Import GlobusList.
Import GlobusList.
Local Open Scope Z_scope.

Module Fifo.

Section Defs.
Context {D : Type} `{EqDecision D} {A : Type} `{ListAlloc A}.

Record fifo := Fifo { head : ptr; tail : ptr; fsize : Z }.

Abbreviation lm := (prog (lheap D A)).

Definition globus_fifo_init : fifo := Fifo None None 0.

Definition globus_fifo_destroy (f : fifo) : lm unit := globus_list_free (head f).

(** The data passed to [datum_free]. *)
Definition globus_fifo_destroy_all (is_null : D -> bool) (f : fifo) : lm (list D) :=
  globus_list_destroy_all is_null (head f).

Definition globus_fifo_empty (f : fifo) : bool := bool_decide (head f = None).

(** An unsigned long returned as an int. *)
Definition globus_fifo_size (f : fifo) : Z := swrap 32 (fsize f).

Definition globus_fifo_enqueue (f : option fifo) (d : D) : lm (Z * option fifo) :=
  match f with
  | None => mret (-1, None)
  | Some f =>
      '(err, h, t) ←
        (if bool_decide (tail f = None) then
           '(err, t) ← globus_list_insert (tail f) d;
           mret (err, t, t)
         else
           r ← globus_list_rest_ref (tail f);
           c ← read r;
           '(err, e) ← globus_list_insert (next c) d;
           _ ← set_next r e;
           t ← globus_list_rest (tail f);
           mret (err, head f, t));
      mret (err, Some (Fifo h t (if err =? 0 then uwrap 64 (fsize f + 1) else fsize f)))
  end.

(** The loop of [copy] that looks for the last cell. *)
Fixpoint copy_tail (n : nat) (t : ptr) : lm ptr :=
  match n with
  | O => run (Fault OutOfFuel)
  | S n =>
      r ← globus_list_rest t;
      if globus_list_empty r then mret t else copy_tail n r
  end.

Definition globus_fifo_copy (f : option fifo) : lm (option fifo) :=
  match f with
  | None => mret None
  | Some f =>
      h ← globus_list_copy (head f);
      n ← fuel;
      t ← copy_tail n h;
      mret (Some (Fifo h t (fsize f)))
  end.

Definition globus_fifo_peek (f : fifo) : lm D :=
  _ ← run (c_assert (negb (globus_list_empty (head f)))); globus_list_first (head f).

Definition globus_fifo_tail_peek (f : fifo) : lm D :=
  _ ← run (c_assert (negb (globus_list_empty (tail f)))); globus_list_first (tail f).

Definition globus_fifo_dequeue (f : fifo) : lm (option D * fifo) :=
  if globus_list_empty (head f) then mret (None, f)
  else
    '(d, h) ← globus_list_remove (head f) (head f);
    mret (d, Fifo h (if globus_list_empty h then h else tail f) (uwrap 64 (fsize f - 1))).

(** The loop of [remove]: the cell with the datum and the one before. *)
Fixpoint find_prev (n : nat) (iter_prev iter : ptr) (d : D) : lm (ptr * ptr) :=
  match n with
  | O => run (Fault OutOfFuel)
  | S n =>
      if globus_list_empty iter then mret (iter_prev, iter)
      else
        x ← globus_list_first iter;
        if bool_decide (x = d) then mret (iter_prev, iter)
        else iter' ← globus_list_rest iter; find_prev n iter iter' d
  end.

Definition globus_fifo_remove (f : fifo) (d : D) : lm (option D * fifo) :=
  if globus_list_empty (head f) then mret (None, f)
  else
    n ← fuel;
    '(iter_prev, iter) ← find_prev n None (head f) d;
    if negb (globus_list_empty iter) then
      let t := if bool_decide (iter = tail f) then iter_prev else tail f in
      '(_, h) ← globus_list_remove (head f) iter;
      mret (Some d, Fifo h t (uwrap 64 (fsize f - 1)))
    else mret (None, f).

(** The status, the destination and the source. *)
Definition globus_fifo_move (dest src : option fifo) : Z * option fifo * option fifo :=
  match dest, src with
  | Some _, Some src => (0, Some src, Some (Fifo None None 0))
  | _, _ => (-1, dest, src)
  end.

Definition globus_fifo_convert_to_list (f : fifo) : ptr * fifo := (head f, Fifo None None 0).
End Defs.

(** ** The queue as a list of its data *)

Section Refinement.
Context {D : Type} `{EqDecision D} {A : Type} `{ListAllocLaws A}.
Implicit Types (h : lheap D A) (f : fifo) (ns : list (loc * D)).

(** [f] is the queue of the cells [ns]. *)
Record fifo_at h f ns : Prop := {
  fa_list : list_at (cells h) (head f) ns;
  fa_tail : tail f = fst <$> last ns;
  fa_size : fsize f = Z.of_nat (length ns);
  fa_fits : Z.of_nat (length ns) < 2 ^ 64;
}.

(** Every cell of [h] outside of [S] is unchanged. *)
Definition frame (S : gset loc) h h' : Prop :=
  forall l c, l ∉ S -> cells h !! l = Some c -> cells h' !! l = Some c.

Lemma uwrap_small z : 0 <= z < 2 ^ 64 -> uwrap 64 z = z.
Proof. intros. by apply Z.mod_small. Qed.

Lemma exists_last_or {X} (l : list X) : l = [] \/ exists l' x, l = l' ++ [x].
Proof. destruct l as [|x l]; [by left|right]. destruct (exists_last (l := x :: l)) as (? & ? & ?); eauto. Qed.

Lemma fifo_enqueue_spec h f ns d :
  heap_ok h -> fifo_at h f ns -> can_alloc 1 h -> Z.of_nat (length ns) + 1 < 2 ^ 64 ->
  exists l f' h', globus_fifo_enqueue (Some f) d h = Ok ((0, Some f'), h') /\ heap_ok h' /\
    cells h !! l = None /\ fifo_at h' f' (ns ++ [(l, d)]) /\ frame (addrs ns) h h'.
Proof.
  intros Hok [Hlist Htail Hsize Hfits] Hc Hmax. unfold globus_fifo_enqueue, mbind, prog_bind.
  destruct (exists_last_or ns) as [->|(ns' & [t dt] & ->)].
  - cbn in Hlist, Htail. rewrite Htail, bool_decide_true by done.
    destruct (insert_spec h None [] d 0 Hok eq_refl Hc) as (l & h' & -> & Hok' & _ & Hl & _ & Hcells & Hlist').
    cbn [mret prog_ret]. rewrite Hsize, Z.eqb_refl. cbn [length]. rewrite uwrap_small by lia.
    eexists l, _, h'. split; [reflexivity|]. split_and!; [done|done|by split|].
    intros k c _ Hk. rewrite Hcells, lookup_insert_ne; [done|]. congruence.
  - rewrite last_snoc in Htail. cbn in Htail. rewrite Htail, bool_decide_false by done.
    destruct (list_at_split _ _ _ _ _ _ Hlist) as (c & Hc' & Hd & Hnil). cbn in Hnil.
    rewrite rest_ref_run, (read_run _ _ _ Hc'), Hnil.
    destruct (insert_spec h None [] d 0 Hok eq_refl Hc) as (l & h1 & -> & Hok1 & _ & Hl & _ & Hcells & Hlist1).
    assert (cells h1 !! t = Some c) as Hc1 by (rewrite Hcells, lookup_insert_ne; [done|congruence]).
    rewrite (set_next_run _ _ _ _ Hc1).
    rewrite (rest_run _ _ (Cell (datum c) (Some l) (malloced c))) by (cbn; by rewrite lookup_insert_eq).
    cbn [mret prog_ret]. rewrite Hsize, Z.eqb_refl.
    rewrite length_app in *. cbn [length] in *. rewrite uwrap_small by lia.
    eexists l, _, _. split; [reflexivity|]. split_and!.
    + eapply heap_ok_relinked; [exact Hok1|]. by eapply (relinked_upd {[t]}); [done|done|set_solver].
    + done.
    + split; cbn; [| |rewrite !length_app; cbn; lia..].
      * rewrite Hd, <- app_assoc. cbn. apply list_at_attach; [|done|set_solver].
        eapply list_at_frame; [done|]. intros k Hk. rewrite Hcells, lookup_insert_ne; [done|].
        intros <-. destruct (list_at_dom _ _ _ _ Hlist Hk). congruence.
      * by rewrite last_snoc.
    + intros k ck Hk Hck. cbn. rewrite lookup_insert_ne, Hcells, lookup_insert_ne; [done|congruence|].
      intros <-. apply Hk. rewrite addrs_app. unfold addrs. cbn. set_solver.
Qed.

Lemma fifo_dequeue_spec h f l d ns :
  heap_ok h -> fifo_at h f ((l, d) :: ns) ->
  exists f' h', globus_fifo_dequeue f h = Ok ((Some d, f'), h') /\ heap_ok h' /\
    cells h' !! l = None /\ fifo_at h' f' ns /\ frame {[l]} h h'.
Proof.
  intros Hok [Hlist Htail Hsize Hfits]. pose proof Hlist as (Hh & _).
  unfold globus_fifo_dequeue, mbind, prog_bind. rewrite Hh in *. rewrite empty_Some.
  destruct (remove_head_spec h l d ns Hok Hlist) as (p & h' & -> & Hok' & _ & Hcells & Hp).
  cbn [mret prog_ret]. eexists _, h'. split; [reflexivity|].
  cbn [length] in *. rewrite uwrap_small by lia.
  split_and!; [done|by rewrite Hcells, lookup_delete_eq| |].
  - split; cbn; [done| |lia..]. destruct ns as [|[l' d'] ns]; cbn in Hp.
    + by rewrite Hp, empty_None.
    + destruct Hp as (-> & _). rewrite empty_Some, Htail. done.
  - intros k c Hk Hc. rewrite Hcells, lookup_delete_ne; [done|set_solver].
Qed.

Lemma find_prev_found n h prev p ns1 l d ns2 :
  list_at (cells h) p (ns1 ++ (l, d) :: ns2) -> d ∉ ns1.*2 -> (length ns1 < n)%nat ->
  find_prev n prev p d h = Ok ((match last ns1 with Some (t, _) => Some t | None => prev end, Some l), h).
Proof.
  revert prev p ns1. induction n as [|n IH]; intros prev p ns1 Hp Hd Hn; [lia|]. cbn [find_prev].
  destruct ns1 as [|[x dx] ns1]; cbn [app] in Hp; destruct Hp as (-> & c & Hc & <- & Hp);
    rewrite empty_Some; unfold mbind, prog_bind; rewrite (first_run _ _ _ Hc).
  - by rewrite bool_decide_true.
  - rewrite bool_decide_false by set_solver. rewrite (rest_run _ _ _ Hc).
    rewrite (IH (Some x) (next c) ns1); [|done|set_solver|cbn in *; lia].
    destruct ns1 as [|y ns1]; [done|]. cbn [last]. by destruct (last (y :: ns1)) as [[? ?]|] eqn:E; [|apply last_None in E].
Qed.

Lemma find_prev_absent n h prev p ns d :
  list_at (cells h) p ns -> d ∉ ns.*2 -> (length ns < n)%nat ->
  exists prev', find_prev n prev p d h = Ok ((prev', None), h).
Proof.
  revert prev p ns. induction n as [|n IH]; intros prev p ns Hp Hd Hn; [lia|]. cbn [find_prev].
  destruct ns as [|[x dx] ns].
  - cbn in Hp. subst p. rewrite empty_None. by eexists.
  - destruct Hp as (-> & c & Hc & <- & Hp). rewrite empty_Some. unfold mbind, prog_bind.
    rewrite (first_run _ _ _ Hc), bool_decide_false by set_solver. rewrite (rest_run _ _ _ Hc).
    apply (IH _ _ ns); [done|set_solver|cbn in *; lia].
Qed.

Lemma split_unique ns1 ms1 ns2 ms2 l d d' :
  ns1 ++ (l, d) :: ns2 = ms1 ++ (l, d') :: ms2 -> NoDup (ns1 ++ (l, d) :: ns2).*1 ->
  ms1 = ns1 /\ ms2 = ns2 /\ d' = d.
Proof.
  revert ms1. induction ns1 as [|[x dx] ns1 IH]; intros [|[y dy] ms1]; cbn; intros E Hnd.
  - by injection E as <- <-.
  - injection E as <- <- ->. exfalso. apply NoDup_cons in Hnd as [Hn _]. apply Hn. rewrite fmap_app. set_solver.
  - injection E as -> -> <-. exfalso. apply NoDup_cons in Hnd as [Hn _]. apply Hn. rewrite fmap_app. set_solver.
  - injection E as -> -> E. apply NoDup_cons in Hnd as [_ Hnd]. destruct (IH _ E Hnd) as (-> & -> & ->). done.
Qed.

Lemma tail_removed f ns1 l d ns2 :
  tail f = fst <$> last (ns1 ++ (l, d) :: ns2) -> NoDup (ns1 ++ (l, d) :: ns2).*1 ->
  (if bool_decide (Some l = tail f)
   then match last ns1 with Some (t, _) => Some t | None => None end else tail f) =
  fst <$> last (ns1 ++ ns2).
Proof.
  intros Ht Hnd. destruct (exists_last_or ns2) as [->|(ns2' & [t dt] & ->)].
  - rewrite last_snoc in Ht. cbn in Ht. rewrite bool_decide_true, app_nil_r by done.
    by destruct (last ns1) as [[]|].
  - rewrite app_comm_cons, app_assoc, last_snoc in Ht. rewrite app_assoc, last_snoc. cbn in Ht |- *.
    rewrite bool_decide_false; [done|]. rewrite Ht. intros [= ->].
    rewrite fmap_app in Hnd. apply NoDup_app in Hnd as (_ & _ & Hnd). cbn in Hnd.
    apply NoDup_cons in Hnd as [Hn _]. apply Hn. rewrite fmap_app. set_solver.
Qed.

Lemma fifo_remove_found h f ns1 l d ns2 :
  heap_ok h -> fifo_at h f (ns1 ++ (l, d) :: ns2) -> d ∉ ns1.*2 ->
  exists f' h', globus_fifo_remove f d h = Ok ((Some d, f'), h') /\ heap_ok h' /\
    cells h' !! l = None /\ fifo_at h' f' (ns1 ++ ns2) /\ frame (addrs (ns1 ++ (l, d) :: ns2)) h h'.
Proof.
  intros Hok [Hlist Htail Hsize Hfits] Hd. pose proof (list_at_length _ _ _ Hlist) as Hlen.
  destruct (list_at_split _ _ _ _ _ _ Hlist) as (c & Hc & _ & _).
  pose proof (list_at_NoDup _ _ _ Hlist) as Hnd.
  assert (exists x, head f = Some x) as [x Hx].
  { destruct ns1 as [|[x dx] ns1]; destruct Hlist as (-> & _); by eexists. }
  unfold globus_fifo_remove, mbind, prog_bind. rewrite Hx, empty_Some, <- Hx.
  unfold fuel, mbind, prog_bind. cbn [get mret prog_ret].
  rewrite (find_prev_found _ _ _ _ ns1 l d ns2) by (done || (rewrite length_app in Hlen; lia)).
  rewrite empty_Some. cbn [negb].
  destruct (remove_spec h (head f) _ l c Hok Hlist) as
    [(ms1 & d' & ms2 & p & h' & Hms & Hrun & Hp & [Hok' _ Hgone Hother])|[Hnin _]]; [by destruct ns1|done| |].
  2: { exfalso. apply Hnin. rewrite fmap_app. set_solver. }
  assert (ms1 = ns1 /\ ms2 = ns2 /\ d' = d) as (-> & -> & ->).
  { by apply split_unique in Hms. }
  rewrite Hrun. eexists _, h'. split; [reflexivity|]. rewrite Hsize.
  rewrite !length_app in *. cbn [length] in *. rewrite uwrap_small by lia.
  split_and!; [done|done| |].
  - split; cbn; [done|by eapply tail_removed|rewrite length_app; lia..].
  - intros k ck Hk Hck. rewrite Hother; [done| |]; [|intros ->]; revert Hk; rewrite !addrs_app;
      unfold addrs; cbn; set_solver.
Qed.

Lemma fifo_remove_absent h f ns d :
  fifo_at h f ns -> d ∉ ns.*2 -> globus_fifo_remove f d h = Ok ((None, f), h).
Proof.
  intros [Hlist _ _ _] Hd. pose proof (list_at_length _ _ _ Hlist) as Hlen. unfold globus_fifo_remove.
  destruct (globus_list_empty (head f)); [done|]. unfold fuel, mbind, prog_bind. cbn [get mret prog_ret].
  destruct (find_prev_absent (S (size (cells h))) h None (head f) ns d Hlist Hd) as (p & ->); [lia|].
  by rewrite empty_None.
Qed.

(** The operations of a queue, and what each returns. *)
Inductive fop := FEnqueue (d : D) | FDequeue | FRemove (d : D) | FPeek | FTailPeek | FSize | FEmpty.

Inductive fout := OStatus (err : Z) | ODatum (d : option D) | OSize (n : Z) | OBool (b : bool).

Fixpoint remove_first (d : D) (q : list D) : list D :=
  match q with
  | [] => []
  | x :: q => if decide (x = d) then q else x :: remove_first d q
  end.

(** What a queue promises, on the list of its data from first to last. *)
Definition fspec (q : list D) (o : fop) : fout * list D :=
  match o with
  | FEnqueue d => (OStatus 0, q ++ [d])
  | FDequeue => (ODatum (hd_error q), tl q)
  | FRemove d => (ODatum (if decide (d ∈ q) then Some d else None), remove_first d q)
  | FPeek => (ODatum (hd_error q), q)
  | FTailPeek => (ODatum (last q), q)
  | FSize => (OSize (Z.of_nat (length q)), q)
  | FEmpty => (OBool (bool_decide (q = [])), q)
  end.

Definition fimpl (f : fifo) (o : fop) : prog (lheap D A) (fout * fifo) :=
  match o with
  | FEnqueue d =>
      '(err, f') ← globus_fifo_enqueue (Some f) d; f' ← run (deref f'); mret (OStatus err, f')
  | FDequeue => '(d, f') ← globus_fifo_dequeue f; mret (ODatum d, f')
  | FRemove d => '(d, f') ← globus_fifo_remove f d; mret (ODatum d, f')
  | FPeek => d ← globus_fifo_peek f; mret (ODatum (Some d), f)
  | FTailPeek => d ← globus_fifo_tail_peek f; mret (ODatum (Some d), f)
  | FSize => mret (OSize (globus_fifo_size f), f)
  | FEmpty => mret (OBool (globus_fifo_empty f), f)
  end.

(** [enqueue] gets its cell, the count fits an int, and only a queue with an
    element is looked into. *)
Definition fop_ok h (q : list D) (o : fop) : Prop :=
  match o with
  | FEnqueue _ => can_alloc 1 h /\ Z.of_nat (length q) < INT_MAX
  | FPeek | FTailPeek => q <> []
  | _ => True
  end.

Lemma remove_first_split d ns :
  d ∈ ns.*2 -> exists ns1 l ns2, ns = ns1 ++ (l, d) :: ns2 /\ d ∉ ns1.*2 /\
    remove_first d ns.*2 = (ns1 ++ ns2).*2.
Proof.
  induction ns as [|[l x] ns IH]; [set_solver|]. cbn. intros Hd. case_decide as Hx.
  - subst x. exists [], l, ns. split_and!; [done|set_solver|done].
  - destruct IH as (ns1 & l' & ns2 & -> & Hns1 & ->); [set_solver|].
    exists ((l, x) :: ns1), l', ns2. split_and!; [done|set_solver|done].
Qed.

Lemma remove_first_absent d (q : list D) : d ∉ q -> remove_first d q = q.
Proof. induction q as [|x q IH]; cbn; [done|]. intros Hd. rewrite decide_False, IH by set_solver. done. Qed.

Lemma fifo_step h f ns o :
  heap_ok h -> fifo_at h f ns -> Z.of_nat (length ns) <= INT_MAX -> fop_ok h ns.*2 o ->
  exists f' h' ns', fimpl f o h = Ok (((fspec ns.*2 o).1, f'), h') /\ heap_ok h' /\ fifo_at h' f' ns' /\
    ns'.*2 = (fspec ns.*2 o).2 /\ Z.of_nat (length ns') <= INT_MAX.
Proof.
  intros Hok Hf Hmax Ho. pose proof Hf as [Hlist Htail Hsize Hfits].
  destruct o as [d| |d| | | |]; unfold fimpl, mbind, prog_bind; cbn [fspec fst snd].
  - destruct Ho as [Hc Hlt]. rewrite length_fmap in Hlt.
    destruct (fifo_enqueue_spec h f ns d Hok Hf Hc) as (l & f' & h' & -> & Hok' & _ & Hf' & _);
      [unfold INT_MAX in *; lia|].
    exists f', h', (ns ++ [(l, d)]). split_and!; [done..| |].
    + by rewrite fmap_app.
    + rewrite length_app. cbn. lia.
  - destruct ns as [|[l d] ns].
    + cbn in Hlist. unfold globus_fifo_dequeue. rewrite Hlist, empty_None. by exists f, h, [].
    + destruct (fifo_dequeue_spec h f l d ns Hok Hf) as (f' & h' & -> & Hok' & _ & Hf' & _).
      exists f', h', ns. split_and!; [done..|]. cbn in Hmax. lia.
  - case_decide as Hd.
    + destruct (remove_first_split d ns Hd) as (ns1 & l & ns2 & -> & Hns1 & ->).
      destruct (fifo_remove_found h f ns1 l d ns2 Hok Hf Hns1) as (f' & h' & -> & Hok' & _ & Hf' & _).
      exists f', h', (ns1 ++ ns2). split_and!; [done..|]. rewrite !length_app in *. cbn in Hmax. lia.
    + rewrite (fifo_remove_absent h f ns d Hf Hd), remove_first_absent by done. by exists f, h, ns.
  - destruct ns as [|[l d] ns]; [done|]. pose proof Hlist as (Hh & c & Hc & <- & _).
    unfold globus_fifo_peek, mbind, prog_bind. rewrite Hh, empty_Some. cbn [negb c_assert run].
    rewrite (first_run _ _ _ Hc). by exists f, h, ((l, datum c) :: ns).
  - destruct (exists_last_or ns) as [->|(ns' & [l d] & ->)]; [done|].
    rewrite last_snoc in Htail. cbn in Htail.
    destruct (list_at_split _ _ _ _ _ _ Hlist) as (c & Hc & <- & _).
    unfold globus_fifo_tail_peek, mbind, prog_bind. rewrite Htail, empty_Some. cbn [negb c_assert run].
    rewrite (first_run _ _ _ Hc). eexists f, h, _. split_and!; [|done..].
    rewrite fmap_app. change ([(l, datum c)].*2) with [datum c]. by rewrite last_snoc.
  - exists f, h, ns. split_and!; try done. unfold globus_fifo_size. rewrite Hsize, length_fmap.
    rewrite swrap_small; [done|lia|unfold INT_MAX in *; lia].
  - exists f, h, ns. split_and!; try done. unfold globus_fifo_empty.
    destruct ns as [|[l d] ns]; cbn in Hlist; [by rewrite Hlist|]. by destruct Hlist as (-> & _).
Qed.

(** A sequence of calls and what they return. *)
Fixpoint frun (f : fifo) (os : list fop) : prog (lheap D A) (list fout * fifo) :=
  match os with
  | [] => mret ([], f)
  | o :: os => '(r, f') ← fimpl f o; '(rs, f'') ← frun f' os; mret (r :: rs, f'')
  end.

Fixpoint fspec_run (q : list D) (os : list fop) : list fout * list D :=
  match os with
  | [] => ([], q)
  | o :: os =>
      let '(r, q') := fspec q o in let '(rs, q'') := fspec_run q' os in (r :: rs, q'')
  end.

Fixpoint fops_ok f h (q : list D) (os : list fop) : Prop :=
  match os with
  | [] => True
  | o :: os => fop_ok h q o /\
      forall r f' h', fimpl f o h = Ok ((r, f'), h') -> fops_ok f' h' (fspec q o).2 os
  end.

(** C30: the queue is first-in first-out: any sequence of [enqueue], [dequeue],
    [remove], [peek], [tail_peek], [size] and [empty] calls returns without a
    fault what the same calls return on the list of the data, and leaves the
    queue holding that list; the pointer to the last cell never dangles. *)
Theorem fifo_refines h f ns os :
  heap_ok h -> fifo_at h f ns -> Z.of_nat (length ns) <= INT_MAX -> fops_ok f h ns.*2 os ->
  exists f' h' ns', frun f os h = Ok (((fspec_run ns.*2 os).1, f'), h') /\ heap_ok h' /\
    fifo_at h' f' ns' /\ ns'.*2 = (fspec_run ns.*2 os).2.
Proof.
  revert h f ns. induction os as [|o os IH]; intros h f ns Hok Hf Hmax Hos; cbn [frun fspec_run].
  { by exists f, h, ns. }
  destruct Hos as [Ho Hos].
  destruct (fifo_step h f ns o Hok Hf Hmax Ho) as (f1 & h1 & ns1 & Hrun & Hok1 & Hf1 & Hq1 & Hmax1).
  specialize (Hos _ _ _ Hrun). rewrite <- Hq1 in Hos.
  destruct (IH h1 f1 ns1 Hok1 Hf1 Hmax1 Hos) as (f2 & h2 & ns2 & Hruns & Hok2 & Hf2 & Hq2).
  unfold mbind, prog_bind. rewrite Hrun, Hruns. rewrite Hq1 in *.
  destruct (fspec ns.*2 o) as [r q]. cbn in *. destruct (fspec_run q os) as [rs q'].
  by exists f2, h2, ns2.
Qed.

(** Copying a queue that is not empty; an empty one fails the assertion of
    [globus_list_rest] in the loop that looks for the last cell. *)
Lemma copy_tail_spec n h p ns l d :
  list_at (cells h) p (ns ++ [(l, d)]) -> (length ns < n)%nat -> copy_tail n p h = Ok (Some l, h).
Proof.
  revert p ns. induction n as [|n IH]; intros p ns Hp Hn; [lia|]. cbn [copy_tail].
  destruct ns as [|[l' d'] ns]; cbn [app] in Hp; destruct Hp as (-> & c & Hc & _ & Hp);
    unfold mbind, prog_bind; rewrite (rest_run _ _ _ Hc).
  - cbn in Hp. by rewrite Hp, empty_None.
  - assert (exists q, next c = Some q) as [q Hq].
    { destruct ns as [|[l'' d''] ns]; destruct Hp as (-> & _); by eexists. }
    rewrite Hq, empty_Some. rewrite Hq in Hp. apply (IH _ ns); [done|cbn in *; lia].
Qed.

Lemma fifo_copy_spec h f ns :
  heap_ok h -> fifo_at h f ns -> ns <> [] -> can_alloc (length ns) h ->
  exists f' h' ms, globus_fifo_copy (Some f) h = Ok (Some f', h') /\ heap_ok h' /\
    fifo_at h' f' ms /\ ms.*2 = ns.*2 /\ extends h h'.
Proof.
  intros Hok [Hlist Htail Hsize Hfits] Hne Hc. unfold globus_fifo_copy, mbind, prog_bind.
  destruct (list_copy_spec h (head f) ns 0 Hok Hlist) as
    (q & ms & h' & -> & Hok' & _ & He & Hq & Hms & _ & _ & _); [by rewrite Nat.add_0_r|].
  assert (length ms = length ns) as Hlen by (by rewrite <- (length_fmap snd ms), Hms, length_fmap).
  destruct (exists_last_or ms) as [->|(ms' & [t dt] & ->)]; [by destruct ns|].
  unfold fuel, mbind, prog_bind. cbn [get mret prog_ret].
  pose proof (list_at_length _ _ _ Hq) as Hfuel. rewrite length_app in Hfuel. cbn in Hfuel.
  rewrite (copy_tail_spec _ _ _ ms' t dt) by (done || lia).
  eexists _, h', _. split; [reflexivity|]. split_and!; try done.
  split; cbn; [done|by rewrite last_snoc|by rewrite Hlen|by rewrite Hlen].
Qed.

Lemma fifo_copy_empty h : globus_fifo_copy (Some globus_fifo_init) h = Fault AssertFail.
Proof. done. Qed.
End Refinement.

(** ** A concrete queue *)

Definition example_fops : list (@fop Z) :=
  [FEnqueue 1; FEnqueue 2; FEnqueue 3; FRemove 3; FTailPeek; FEnqueue 4; FDequeue; FSize; FDequeue; FDequeue;
   FEmpty; FDequeue].

Lemma fifo_refines_witness :
  (fspec_run [] example_fops).1 =
    [OStatus 0; OStatus 0; OStatus 0; ODatum (Some 3); ODatum (Some 2); OStatus 0; ODatum (Some 1); OSize 2;
     ODatum (Some 2); ODatum (Some 4); OBool true; ODatum None] /\
  exists f' h' ns', frun globus_fifo_init example_fops example_heap0 =
      Ok (((fspec_run [] example_fops).1, f'), h') /\ heap_ok h' /\
    fifo_at h' f' ns' /\ ns'.*2 = (fspec_run [] example_fops).2.
Proof.
  split; [by vm_compute|].
  apply (fifo_refines example_heap0 globus_fifo_init []); [exact example_heap0_ok|by split|done|].
  repeat (split; [first [exact I | done | split; [apply can_popb_ok; by vm_compute|by vm_compute]]|];
          intros ? ? ? E; vm_compute in E; injection E as _ <- <-). exact I.
Defined.
End Fifo.
