(* ===== verification/Hashtable.v ===== *)
(** * Hash tables (common/source/library/globus_hashtable.c)

    A table is an array of buckets and one doubly linked list of all the entries,
    in which the entries of a bucket are consecutive: a bucket is the pair of its
    first and last entries. Entries live in a store indexed by address and come
    from a node pool ([NodePool], implemented by Memory.v).

    The hash and key comparison functions are section variables, described by
    [HashKeys]; the ones the library provides are at the end of the file. Tables
    and data passed to the operations are not NULL: the code asserts so. Loops
    over the entries take the number of entries plus one as fuel. *)
From S2P Require Import Prelude.
From S2P Require Import Memory.
Local Open Scope Z_scope.

Module Hashtable.

Section Defs.
Context {K D Pool : Type} `{NodePool Pool}.
Context (hash_func : K -> Z -> Z) (keyeq_func : K -> K -> bool).

Record bucket_entry := BEntry { key : K; datum : D; prev : ptr; next : ptr }.

Record bucket := Bucket { bfirst : ptr; blast : ptr }.

Record hashtable := HT {
  tsize : Z;
  load : Z;
  buckets : list bucket;
  tfirst : ptr;
  tlast : ptr;
  current : ptr;
  memory : Pool;
  entries : gmap loc bucket_entry;   (** the entry at each address *)
}.

(** Changing an entry in place. *)
Definition update_entry (es : gmap loc bucket_entry) (l : loc) (f : bucket_entry -> bucket_entry) :
    result (gmap loc bucket_entry) :=
  e ← deref (es !! l); Ok (<[l := f e]> es).

Definition set_prev (p : ptr) (e : bucket_entry) : bucket_entry := BEntry (key e) (datum e) p (next e).
Definition set_next (p : ptr) (e : bucket_entry) : bucket_entry := BEntry (key e) (datum e) (prev e) p.

Definition GlobusLInsertNodeBefore (es : gmap loc bucket_entry) (node before : loc) :
    result (gmap loc bucket_entry) :=
  b ← deref (es !! before);
  es ← update_entry es node (set_prev (prev b));
  es ← (match prev b with
        | Some p => update_entry es p (set_next (Some node))
        | None => Ok es
        end);
  es ← update_entry es node (set_next (Some before));
  update_entry es before (set_prev (Some node)).

(** [malloc_ok] is whether the two allocations succeed, [pool] the result of
    [globus_memory_init]. A failure trips the assertion at the end. *)
Definition globus_hashtable_init (malloc_ok : bool) (pool : option Pool) (sz : Z) : result hashtable :=
  if sz <=? 0 then Fault AssertFail
  else if negb malloc_ok then Fault AssertFail
  else match pool with
       | None => Fault AssertFail
       | Some mem => Ok (HT sz 0 (replicate (Z.to_nat sz) (Bucket None None)) None None None mem ∅)
       end.

(** The do-while loop of [search_bucket]. *)
Fixpoint search_loop (n : nat) (es : gmap loc bucket_entry) (i : ptr) (stop : ptr) (k : K) : result ptr :=
  match n with
  | O => Fault OutOfFuel
  | S n =>
      l ← deref i;
      e ← deref (es !! l);
      if keyeq_func (key e) k then Ok (Some l)
      else if bool_decide (next e = stop) then Ok None
      else search_loop n es (next e) stop k
  end.

Definition globus_l_hashtable_search_bucket (es : gmap loc bucket_entry) (b : bucket) (k : K) :
    result ptr :=
  match bfirst b with
  | None => Ok None
  | Some _ =>
      l ← deref (blast b);
      e ← deref (es !! l);
      search_loop (S (size es)) es (bfirst b) (next e) k
  end.

(** The index of the bucket of a key. *)
Definition bucket_of (t : hashtable) (k : K) : Z := hash_func k (tsize t).

Definition globus_hashtable_insert (t : hashtable) (k : K) (d : D) : result (Z * hashtable) :=
  let i := bucket_of t k in
  b ← c_index (buckets t) i;
  found ← globus_l_hashtable_search_bucket (entries t) b k;
  match found with
  | Some _ => Ok (GLOBUS_FAILURE, t)
  | None =>
      '(p, mem) ← np_pop (memory t);
      match p with
      | None => Ok (GLOBUS_FAILURE, HT (tsize t) (load t) (buckets t) (tfirst t) (tlast t) (current t) mem (entries t))
      | Some entry =>
          let es := <[entry := BEntry k d None None]> (entries t) in
          '(es, f, lst, blst) ←
            (match bfirst b with
             | Some bf =>
                 let f := if bool_decide (Some bf = tfirst t) then Some entry else tfirst t in
                 es ← GlobusLInsertNodeBefore es entry bf;
                 Ok (es, f, tlast t, blast b)
             | None =>
                 match tfirst t with
                 | Some tf =>
                     es ← GlobusLInsertNodeBefore es entry tf;
                     Ok (es, Some entry, tlast t, Some entry)
                 | None => Ok (es, Some entry, Some entry, Some entry)
                 end
             end);
          bs ← c_update (buckets t) i (Bucket (Some entry) blst);
          load' ← s32 (load t + 1);
          Ok (GLOBUS_SUCCESS, HT (tsize t) load' bs f lst (current t) mem es)
      end
  end.

(** The old datum, or NULL. *)
Definition globus_hashtable_update (t : hashtable) (k : K) (d : D) : result (option D * hashtable) :=
  b ← c_index (buckets t) (bucket_of t k);
  found ← globus_l_hashtable_search_bucket (entries t) b k;
  match found with
  | None => Ok (None, t)
  | Some l =>
      e ← deref (entries t !! l);
      Ok (Some (datum e),
          HT (tsize t) (load t) (buckets t) (tfirst t) (tlast t) (current t) (memory t)
            (<[l := BEntry k d (prev e) (next e)]> (entries t)))
  end.

Definition globus_hashtable_lookup (t : hashtable) (k : K) : result (option D) :=
  b ← c_index (buckets t) (bucket_of t k);
  found ← globus_l_hashtable_search_bucket (entries t) b k;
  match found with
  | None => Ok None
  | Some l => e ← deref (entries t !! l); Ok (Some (datum e))
  end.

Definition globus_hashtable_remove (t : hashtable) (k : K) : result (option D * hashtable) :=
  let i := bucket_of t k in
  b ← c_index (buckets t) i;
  found ← globus_l_hashtable_search_bucket (entries t) b k;
  match found with
  | None => Ok (None, t)
  | Some entry =>
      e ← deref (entries t !! entry);
      let b' :=
        if bool_decide (Some entry = bfirst b) then
          if bool_decide (Some entry = blast b) then Bucket None None
          else Bucket (next e) (blast b)
        else if bool_decide (Some entry = blast b) then Bucket (bfirst b) (prev e)
        else b in
      bs ← c_update (buckets t) i b';
      '(es, f) ← (match prev e with
                       | Some p => es ← update_entry (entries t) p (set_next (next e)); Ok (es, tfirst t)
                       | None => Ok (entries t, next e)
                       end);
      '(es, lst) ← (match next e with
                      | Some n => es ← update_entry es n (set_prev (prev e)); Ok (es, tlast t)
                      | None => Ok (es, prev e)
                      end);
      let cur := if bool_decide (Some entry = current t) then next e else current t in
      load' ← s32 (load t - 1);
      Ok (Some (datum e),
          HT (tsize t) load' bs f lst cur (np_push entry (memory t)) (delete entry es))
  end.

(** The data from [p] on, following [next]. *)
Fixpoint walk (n : nat) (es : gmap loc bucket_entry) (p : ptr) : result (list (loc * D)) :=
  match p, n with
  | None, _ => Ok []
  | Some _, O => Fault OutOfFuel
  | Some l, S n =>
      e ← deref (es !! l);
      ds ← walk n es (next e);
      Ok ((l, datum e) :: ds)
  end.

(** The list built by inserting each datum at the front. *)
Definition globus_hashtable_to_list (t : hashtable) : result (Z * list D) :=
  ds ← walk (S (size (entries t))) (entries t) (tfirst t);
  Ok (GLOBUS_SUCCESS, rev (snd <$> ds)).

Definition globus_hashtable_empty (t : hashtable) : bool := bool_decide (tfirst t = None).
Definition globus_hashtable_size (t : hashtable) : Z := load t.

Definition set_current (t : hashtable) (p : ptr) : hashtable :=
  HT (tsize t) (load t) (buckets t) (tfirst t) (tlast t) p (memory t) (entries t).

(** [current ? current->datum : NULL] *)
Definition current_datum (t : hashtable) : result (option D) :=
  match current t with
  | None => Ok None
  | Some l => e ← deref (entries t !! l); Ok (Some (datum e))
  end.

Definition globus_hashtable_first (t : hashtable) : result (option D * hashtable) :=
  let t' := set_current t (tfirst t) in d ← current_datum t'; Ok (d, t').

Definition globus_hashtable_last (t : hashtable) : result (option D * hashtable) :=
  let t' := set_current t (tlast t) in d ← current_datum t'; Ok (d, t').

Definition globus_hashtable_next (t : hashtable) : result (option D * hashtable) :=
  t' ← (match current t with
        | Some l => e ← deref (entries t !! l); Ok (set_current t (next e))
        | None => Ok t
        end);
  d ← current_datum t'; Ok (d, t').

Definition globus_hashtable_prev (t : hashtable) : result (option D * hashtable) :=
  t' ← (match current t with
        | Some l => e ← deref (entries t !! l); Ok (set_current t (prev e))
        | None => Ok t
        end);
  d ← current_datum t'; Ok (d, t').

(** The loop of [destroy]: [next] is read before the entry is given back. *)
Fixpoint destroy_loop (n : nat) (es : gmap loc bucket_entry) (p : ptr) (mem : Pool) :
    result (gmap loc bucket_entry * Pool) :=
  match p, n with
  | None, _ => Ok (es, mem)
  | Some _, O => Fault OutOfFuel
  | Some l, S n =>
      e ← deref (es !! l);
      destroy_loop n (delete l es) (next e) (np_push l mem)
  end.

(** The status, and the entries left and the pool when the latter is destroyed. *)
Definition globus_hashtable_destroy (t : hashtable) : result (Z * gmap loc bucket_entry * Pool) :=
  '(es, mem) ← destroy_loop (S (size (entries t))) (entries t) (tfirst t) (memory t);
  Ok (GLOBUS_SUCCESS, es, mem).

(** The data passed to [element_free], and then [destroy]. *)
Definition globus_hashtable_destroy_all (t : hashtable) :
    result (list D * gmap loc bucket_entry * Pool) :=
  ds ← walk (S (size (entries t))) (entries t) (tfirst t);
  '(_, es, mem) ← globus_hashtable_destroy t;
  Ok (snd <$> (ds : list (loc * D)), es, mem).
(** *** Copying

    The state of the copy: the entries and the pool of the new table, the last
    entry linked, and [dummy_entry.next]. The address of [dummy_entry] is written
    [None]: it is only ever stored in the [prev] of the first entry, which the
    end of the copy overwrites with NULL. *)
Record copying := Copying {
  cp_entries : gmap loc bucket_entry;
  cp_memory : Pool;
  cp_list : ptr;
  cp_dummy_next : ptr;
}.

(** [list->next = q] and reading [list->next]. *)
Definition set_list_next (st : copying) (q : ptr) : result copying :=
  match cp_list st with
  | None => Ok (Copying (cp_entries st) (cp_memory st) (cp_list st) q)
  | Some l =>
      es ← update_entry (cp_entries st) l (set_next q);
      Ok (Copying es (cp_memory st) (cp_list st) (cp_dummy_next st))
  end.

Definition list_next (st : copying) (list : ptr) : result ptr :=
  match list with
  | None => Ok (cp_dummy_next st)
  | Some l => e ← deref (cp_entries st !! l); Ok (next e)
  end.

(** The do-while loop that copies a bucket; [None] when the pool gave no node.
    [copy_func] is NULL or turns the key and the datum into those of the copy. *)
Fixpoint copy_bucket (n : nat) (copy_func : option (K -> D -> K * D)) (src : gmap loc bucket_entry)
    (src_entry : ptr) (last : ptr) (st : copying) : result (option copying) :=
  match n with
  | O => Fault OutOfFuel
  | S n =>
      '(p, mem) ← np_pop (cp_memory st);
      match p with
      | None => Ok None
      | Some dest_entry =>
          l ← deref src_entry;
          e ← deref (src !! l);
          let '(k, d) := match copy_func with Some f => f (key e) (datum e) | None => (key e, datum e) end in
          let es := <[dest_entry := BEntry k d (cp_list st) None]> (cp_entries st) in
          st ← set_list_next (Copying es mem (cp_list st) (cp_dummy_next st)) (Some dest_entry);
          let st := Copying (cp_entries st) (cp_memory st) (Some dest_entry) (cp_dummy_next st) in
          match next e with
          | None => Ok (Some st)
          | Some l' =>
              e' ← deref (src !! l');
              if bool_decide (prev e' = last) then Ok (Some st)
              else copy_bucket n copy_func src (Some l') last st
          end
      end
  end.

(** The loop over the buckets [bs] of the source, from index [i] on. *)
Fixpoint copy_buckets (copy_func : option (K -> D -> K * D)) (src : gmap loc bucket_entry)
    (bs : list bucket) (i : Z) (dest : list bucket) (last : ptr) (st : copying) :
    result (option (list bucket * ptr * copying)) :=
  match bs with
  | [] => Ok (Some (dest, last, st))
  | b :: bs =>
      match bfirst b with
      | None => copy_buckets copy_func src bs (i + 1) dest last st
      | Some _ =>
          r ← copy_bucket (S (size src)) copy_func src (bfirst b) (blast b) st;
          match r with
          | None => Ok None
          | Some st' =>
              f ← list_next st' (cp_list st);
              dest ← c_update dest i (Bucket f (cp_list st'));
              copy_buckets copy_func src bs (i + 1) dest (cp_list st') st'
          end
      end
  end.

(** The status, and the new table unless it is NULL. *)
Definition globus_hashtable_copy (malloc_ok : bool) (pool : option Pool) (src : hashtable)
    (copy_func : option (K -> D -> K * D)) : result (Z * option hashtable) :=
  dest ← globus_hashtable_init malloc_ok pool (tsize src);
  r ← copy_buckets copy_func (entries src) (buckets src) 0 (buckets dest) (tlast dest)
        (Copying (entries dest) (memory dest) None None);
  match r with
  | None => Ok (GLOBUS_FAILURE, None)
  | Some (bs, lst, st) =>
      es ← (match cp_dummy_next st with
            | Some l => update_entry (cp_entries st) l (set_prev None)
            | None => Ok (cp_entries st)
            end);
      Ok (GLOBUS_SUCCESS,
          Some (HT (tsize dest) (load src) bs (cp_dummy_next st) lst (current dest) (cp_memory st) es))
  end.
End Defs.
Arguments bucket_entry : clear implicits.
Arguments hashtable : clear implicits.
Arguments copying : clear implicits.

(** ** Segments of a doubly linked list *)

Section Segments.
Context {K D : Type}.
Implicit Types (es : gmap loc (bucket_entry K D)) (ls : list loc).

Definition hd_or (ls : list loc) (q : ptr) : ptr := match ls with [] => q | l :: _ => Some l end.
Definition last_or (ls : list loc) (p : ptr) : ptr := match last ls with Some l => Some l | None => p end.

(** The entries [ls] are linked in this order, between [p] and [q]. *)
Fixpoint seg es (p : ptr) ls (q : ptr) : Prop :=
  match ls with
  | [] => True
  | l :: ls => exists e, es !! l = Some e /\ prev e = p /\ next e = hd_or ls q /\ seg es (Some l) ls q
  end.

(** The key and the datum of each entry: the links do not change them. *)
Definition kd es : gmap loc (K * D) := (fun e => (key e, datum e)) <$> es.

Lemma last_or_cons l ls p : last_or (l :: ls) p = last_or ls (Some l).
Proof. unfold last_or. destruct ls as [|k ls]; [done|]. by rewrite last_cons_cons; destruct (last (k :: ls)) eqn:E; [|apply last_None in E]. Qed.

Lemma hd_or_app ls ms q : hd_or (ls ++ ms) q = hd_or ls (hd_or ms q).
Proof. by destruct ls. Qed.

Lemma seg_app es p ls ms q :
  seg es p (ls ++ ms) q <-> seg es p ls (hd_or ms q) /\ seg es (last_or ls p) ms q.
Proof.
  revert p. induction ls as [|l ls IH]; intros p; cbn [app seg].
  { unfold last_or. cbn. tauto. }
  rewrite last_or_cons. setoid_rewrite IH. rewrite hd_or_app. naive_solver.
Qed.

Lemma seg_frame es es' p ls q :
  seg es p ls q -> (forall l, l ∈ ls -> es' !! l = es !! l) -> seg es' p ls q.
Proof.
  revert p. induction ls as [|l ls IH]; intros p; cbn; [done|].
  intros (e & He & Hp & Hn & Hs) Hf. exists e. rewrite Hf by set_solver. split_and!; [done..|].
  apply IH; [done|set_solver].
Qed.

Lemma seg_dom es p ls q l : seg es p ls q -> l ∈ ls -> is_Some (es !! l).
Proof.
  revert p. induction ls as [|k ls IH]; intros p; cbn; [set_solver|].
  intros (e & He & _ & _ & Hs) [->|?]%elem_of_cons; [by eexists|eauto].
Qed.

(** Relinking the two ends. *)
Lemma seg_set_next es p ls l q q' e :
  seg es p (ls ++ [l]) q -> NoDup (ls ++ [l]) -> es !! l = Some e ->
  seg (<[l := set_next q' e]> es) p (ls ++ [l]) q'.
Proof.
  intros [Hs Hl]%seg_app Hnd He. apply NoDup_app in Hnd as (_ & Hnd & _).
  apply seg_app. split.
  - eapply seg_frame; [done|]. intros k Hk. apply lookup_insert_ne. intros <-. apply (Hnd l Hk). set_solver.
  - cbn in *. destruct Hl as (e' & He' & Hp & _). simplify_eq. eexists. by rewrite lookup_insert_eq.
Qed.

Lemma seg_set_prev es p p' l ls q e :
  seg es p (l :: ls) q -> l ∉ ls -> es !! l = Some e ->
  seg (<[l := set_prev p' e]> es) p' (l :: ls) q.
Proof.
  cbn. intros (e' & He' & Hp & Hn & Hs) Hl He. simplify_eq. eexists. rewrite lookup_insert_eq.
  split_and!; [done..|]. eapply seg_frame; [done|]. intros k Hk. apply lookup_insert_ne. set_solver.
Qed.

(** Changing the key and the datum of an entry. *)
Lemma seg_set_data es p ls q l e k d :
  es !! l = Some e -> seg es p ls q -> seg (<[l := BEntry k d (prev e) (next e)]> es) p ls q.
Proof.
  intros He. revert p. induction ls as [|x ls IH]; intros p; cbn; [done|]. intros (ex & Hex & Hp & Hn & Hs).
  destruct (decide (x = l)) as [->|Hne].
  - rewrite lookup_insert_eq. assert (ex = e) as -> by congruence. eexists. split; [done|]. split_and!; [done..|]. by apply IH.
  - rewrite lookup_insert_ne by done. exists ex. split_and!; [done..|]. by apply IH.
Qed.

Lemma kd_insert es l e e' :
  es !! l = Some e -> key e' = key e -> datum e' = datum e -> kd (<[l := e']> es) = kd es.
Proof.
  intros He Hk Hd. unfold kd. rewrite fmap_insert, Hk, Hd. apply insert_id. by rewrite lookup_fmap, He.
Qed.

Lemma kd_dom es es' : kd es' = kd es -> dom es' = dom es.
Proof. intros E. unfold kd in E. by rewrite <- (dom_fmap_L (fun e => (key e, datum e)) es'), E, dom_fmap_L. Qed.

Lemma kd_lookup es l e : es !! l = Some e -> kd es !! l = Some (key e, datum e).
Proof. intros He. unfold kd. by rewrite lookup_fmap, He. Qed.

Lemma kd_inv es l k d : kd es !! l = Some (k, d) -> exists e, es !! l = Some e /\ key e = k /\ datum e = d.
Proof. unfold kd. rewrite lookup_fmap. destruct (es !! l) as [e|]; cbn; [|done]. intros [= <- <-]. eauto. Qed.

Lemma update_entry_run es l e f : es !! l = Some e -> update_entry es l f = Ok (<[l := f e]> es).
Proof. intros He. unfold update_entry, mbind, result_bind. by rewrite He. Qed.

Lemma last_or_snoc ls l p : last_or (ls ++ [l]) p = Some l.
Proof. unfold last_or. by rewrite last_snoc. Qed.

Lemma last_or_None_cases ls :
  (ls = [] /\ last_or ls None = None) \/ exists ls' l, ls = ls' ++ [l] /\ last_or ls None = Some l.
Proof.
  destruct ls as [|x ls]; [by left|right]. destruct (exists_last (l := x :: ls)) as (ls' & l & E); [done|].
  exists ls', l. by rewrite E, last_or_snoc.
Qed.

Lemma last_or_app ls ms p : last_or (ls ++ ms) p = last_or ms (last_or ls p).
Proof.
  unfold last_or. rewrite last_app. by destruct (last ms).
Qed.

(** The entry in the middle of a list. *)
Lemma seg_middle es p ls l ms q :
  seg es p (ls ++ l :: ms) q ->
  exists e, es !! l = Some e /\ prev e = last_or ls p /\ next e = hd_or ms q /\
    seg es p ls (Some l) /\ seg es (Some l) ms q.
Proof. intros [Hl (e & He & Hp & Hn & Hs)]%seg_app. cbn in Hl. exists e. done. Qed.

(** [GlobusLInsertNodeBefore] links the node between its new neighbours. *)
Lemma insert_before_spec es n en ls b ms :
  seg es None (ls ++ b :: ms) None -> NoDup (n :: ls ++ b :: ms) -> es !! n = Some en ->
  exists es', GlobusLInsertNodeBefore es n b = Ok es' /\ seg es' None (ls ++ n :: b :: ms) None /\ kd es' = kd es.
Proof.
  intros Hs [Hn Hnd]%NoDup_cons Hen. pose proof (seg_middle _ _ _ _ _ _ Hs) as (eb & Heb & Hpb & Hnb & Hls & Hms).
  apply NoDup_app in Hnd as (Hnd1 & Hdis & Hnd2). apply NoDup_cons in Hnd2 as [Hb Hnd2].
  assert (n <> b) as Hneb by set_solver.
  unfold GlobusLInsertNodeBefore, mbind, result_bind. rewrite Heb. cbn [deref].
  rewrite (update_entry_run _ _ _ _ Hen), Hpb.
  set (es1 := <[n := set_prev (last_or ls None) en]> es).
  assert (es1 !! n = Some (set_prev (last_or ls None) en)) as H1n by apply lookup_insert_eq.
  assert (es1 !! b = Some eb) as H1b by by apply lookup_insert_Some; right.
  assert (seg es1 None ls (Some b)) as H1ls.
  { eapply seg_frame; [done|]. intros k Hk. apply lookup_insert_ne. set_solver. }
  assert (seg es1 (Some b) ms None) as H1ms.
  { eapply seg_frame; [done|]. intros k Hk. apply lookup_insert_ne. set_solver. }
  assert (kd es1 = kd es) as Hkd1 by by eapply kd_insert.
  clearbody es1. clear Hs Hls Hms Heb Hen.
  assert (exists es2, match last_or ls None with
            | Some p => update_entry es1 p (set_next (Some n)) | None => Ok es1 end = Ok es2 /\
          seg es2 None ls (Some n) /\ seg es2 (Some b) ms None /\ kd es2 = kd es1 /\
          es2 !! n = es1 !! n /\ es2 !! b = es1 !! b) as (es2 & -> & H2ls & H2ms & Hkd2 & H2n & H2b).
  { destruct (last_or_None_cases ls) as [[-> ->]|(ls' & x & -> & ->)]; [by exists es1|].
    pose proof (seg_middle _ _ ls' x [] _ H1ls) as (ex & Hex & _).
    rewrite (update_entry_run _ _ _ _ Hex). eexists. split; [done|].
    split_and!; [by eapply seg_set_next| |by eapply kd_insert|..].
    - eapply seg_frame; [done|]. intros k Hk. apply lookup_insert_ne. intros <-.
      apply (Hdis x); set_solver.
    - apply lookup_insert_ne. set_solver.
    - apply lookup_insert_ne. intros <-. apply (Hdis x); set_solver. }
  rewrite H1n in H2n. rewrite H1b in H2b. rewrite (update_entry_run _ _ _ _ H2n).
  rewrite (update_entry_run _ _ eb) by by rewrite lookup_insert_ne.
  eexists. split; [done|]. split.
  - apply seg_app. split.
    + eapply seg_frame; [done|]. intros k Hk.
      rewrite !lookup_insert_ne by (intros <-; first [apply (Hdis b Hk)|apply Hn]; set_solver). done.
    + cbn [seg hd_or]. eexists. rewrite lookup_insert_ne, lookup_insert_eq by done. split_and!; [done..|].
      eexists. rewrite lookup_insert_eq. split_and!; [done|done|done|].
      eapply seg_frame; [done|]. intros k Hk. rewrite !lookup_insert_ne by set_solver. done.
  - rewrite (kd_insert _ _ eb) by (done || by rewrite lookup_insert_ne).
    rewrite (kd_insert _ _ _ _ H2n) by done. by rewrite Hkd2, Hkd1.
Qed.

(** Unlinking the entry [l]: what [globus_hashtable_remove] does to the list. *)
Lemma unlink_spec es ls l ms e (f0 lst0 : ptr) :
  seg es None (ls ++ l :: ms) None -> NoDup (ls ++ l :: ms) -> es !! l = Some e ->
  f0 = hd_or (ls ++ l :: ms) None -> lst0 = last_or (ls ++ l :: ms) None ->
  exists es1 es2,
    match prev e with
    | Some p => match update_entry es p (set_next (next e)) with Ok es => Ok (es, f0) | Fault f => Fault f end
    | None => Ok (es, next e)
    end = Ok (es1, hd_or (ls ++ ms) None) /\
    match next e with
    | Some n => match update_entry es1 n (set_prev (prev e)) with Ok es => Ok (es, lst0) | Fault f => Fault f end
    | None => Ok (es1, prev e)
    end = Ok (es2, last_or (ls ++ ms) None) /\
    seg (delete l es2) None (ls ++ ms) None /\ kd (delete l es2) = delete l (kd es).
Proof.
  intros Hs Hnd He Hf Hlst. pose proof (seg_middle _ _ _ _ _ _ Hs) as (e' & He' & Hp & Hn & Hls & Hms).
  simplify_eq. apply NoDup_app in Hnd as (Hnd1 & Hdis & Hnd2). apply NoDup_cons in Hnd2 as [Hl Hnd2].
  assert (exists es1, match prev e with
      | Some p => match update_entry es p (set_next (next e)) with
                  | Ok es => Ok (es, hd_or (ls ++ l :: ms) None) | Fault f => Fault f end
      | None => Ok (es, next e)
      end = Ok (es1, hd_or (ls ++ ms) None) /\
      seg es1 None ls (hd_or ms None) /\ seg es1 (Some l) ms None /\ kd es1 = kd es)
    as (es1 & -> & H1ls & H1ms & Hkd1).
  { rewrite Hp, Hn. destruct (last_or_None_cases ls) as [[-> ->]|(ls' & x & -> & ->)]; [by exists es|].
    pose proof (seg_middle _ _ ls' x [] _ Hls) as (ex & Hex & _).
    rewrite (update_entry_run _ _ _ _ Hex). eexists. split; [by rewrite <- !app_assoc, !hd_or_app|].
    split_and!; [by eapply seg_set_next| |by eapply kd_insert].
    eapply seg_frame; [done|]. intros k Hk. apply lookup_insert_ne. intros <-. apply (Hdis x); set_solver. }
  exists es1. rewrite Hn.
  assert (exists es2, match hd_or ms None with
      | Some n => match update_entry es1 n (set_prev (prev e)) with
                  | Ok es => Ok (es, last_or (ls ++ l :: ms) None) | Fault f => Fault f end
      | None => Ok (es1, prev e)
      end = Ok (es2, last_or (ls ++ ms) None) /\
      seg es2 None ls (hd_or ms None) /\ seg es2 (last_or ls None) ms None /\ kd es2 = kd es1)
    as (es2 & -> & H2ls & H2ms & Hkd2).
  { destruct ms as [|y ms]; cbn [hd_or].
    - exists es1. by rewrite app_nil_r, Hp.
    - pose proof (seg_middle _ _ [] y ms _ H1ms) as (ey & Hey & _).
      rewrite (update_entry_run _ _ _ _ Hey), Hp. eexists. split; [by rewrite !last_or_app, !last_or_cons|].
      apply NoDup_cons in Hnd2 as [Hy _]. split_and!; [|by eapply seg_set_prev|by eapply kd_insert].
      eapply seg_frame; [done|]. intros k Hk. apply lookup_insert_ne. intros <-. apply (Hdis y Hk). set_solver. }
  exists es2. split; [done|]. split; [done|]. split.
  - apply seg_app. split; (eapply seg_frame; [done|]; intros k Hk; apply lookup_delete_ne; intros <-).
    + apply (Hdis l Hk). set_solver.
    + set_solver.
  - unfold kd in *. by rewrite fmap_delete, Hkd2, Hkd1.
Qed.
End Segments.

(** ** Keys *)

(** What a table needs of its hash and comparison functions: equal keys are in
    the same bucket, and the bucket exists. *)
Class HashKeys {K} (hash_func : K -> Z -> Z) (keyeq_func : K -> K -> bool) : Prop := {
  keyeq_refl k : keyeq_func k k = true;
  keyeq_sym k k' : keyeq_func k k' = true -> keyeq_func k' k = true;
  keyeq_trans k1 k2 k3 : keyeq_func k1 k2 = true -> keyeq_func k2 k3 = true -> keyeq_func k1 k3 = true;
  hash_keyeq k k' n : keyeq_func k k' = true -> hash_func k n = hash_func k' n;
  hash_bound k n : 0 < n <= INT_MAX -> 0 <= hash_func k n < n;
}.

Section Shape.
Context {K D Pool : Type} `{NodePoolLaws Pool}.
Context (hash_func : K -> Z -> Z) (keyeq_func : K -> K -> bool) `{!HashKeys hash_func keyeq_func}.
Implicit Types (t : hashtable K D Pool) (blks : list (nat * list loc)).

(** The list of all the entries, bucket after bucket. *)
Definition all_of blks : list loc := blks ≫= snd.

Record shape t blks : Prop := {
  sh_size : 0 < tsize t <= INT_MAX /\ Z.of_nat (length (buckets t)) = tsize t;
  sh_list : seg (entries t) None (all_of blks) None;
  sh_nodup : NoDup (all_of blks);
  sh_first : tfirst t = hd_or (all_of blks) None;
  sh_last : tlast t = last_or (all_of blks) None;
  sh_index : NoDup blks.*1;
  sh_block : forall i s, (i, s) ∈ blks -> s <> [] /\
    buckets t !! i = Some (Bucket (hd_or s None) (last_or s None));
  sh_empty : forall i, (i < length (buckets t))%nat -> i ∉ blks.*1 ->
    buckets t !! i = Some (Bucket None None);
  sh_hash : forall i s l k d, (i, s) ∈ blks -> l ∈ s -> kd (entries t) !! l = Some (k, d) ->
    hash_func k (tsize t) = Z.of_nat i;
  sh_keys : forall l l' k d k' d', kd (entries t) !! l = Some (k, d) ->
    kd (entries t) !! l' = Some (k', d') -> keyeq_func k k' = true -> l = l';
  sh_dom : dom (entries t) = list_to_set (all_of blks);
  sh_load : load t = Z.of_nat (length (all_of blks));
  sh_pool : np_ok (memory t) /\ np_live (memory t) = dom (entries t);
  sh_current : forall l, current t = Some l -> l ∈ all_of blks;
}.

Lemma all_of_app blks blks' : all_of (blks ++ blks') = all_of blks ++ all_of blks'.
Proof. unfold all_of. apply bind_app. Qed.

Lemma all_of_cons i s blks : all_of ((i, s) :: blks) = s ++ all_of blks.
Proof. done. Qed.

Lemma elem_of_all blks l : l ∈ all_of blks <-> exists i s, (i, s) ∈ blks /\ l ∈ s.
Proof.
  unfold all_of. rewrite list_elem_of_bind. split.
  - intros ([i s] & Hl & Hs). eauto.
  - intros (i & s & Hs & Hl). by exists (i, s).
Qed.

(** The search of a bucket walks its segment and stops at the end of it. *)
Lemma search_loop_spec n es p s q k :
  seg es p s q -> s <> [] -> NoDup s -> (forall x, q = Some x -> x ∉ s) -> (length s <= n)%nat ->
  (exists s1 l s2 e, s = s1 ++ l :: s2 /\ es !! l = Some e /\ keyeq_func (key e) k = true /\
     search_loop (D := D) keyeq_func n es (hd_or s None) q k = Ok (Some l)) \/
  (search_loop keyeq_func n es (hd_or s None) q k = Ok None /\
   forall l e, l ∈ s -> es !! l = Some e -> keyeq_func (key e) k = false).
Proof.
  revert p s. induction n as [|n IH]; intros p s Hs Hne Hnd Hq Hn; [by destruct s; cbn in *; [|lia]|].
  destruct s as [|l s]; [done|]. destruct Hs as (e & He & Hp & Hx & Hs). cbn [hd_or search_loop].
  unfold mbind, result_bind. cbn [deref]. rewrite He. cbn [deref].
  destruct (keyeq_func (key e) k) eqn:Ek.
  { left. exists [], l, s, e. done. }
  apply NoDup_cons in Hnd as [Hl Hnd]. rewrite Hx. destruct s as [|l' s].
  { right. cbn [hd_or]. rewrite bool_decide_true by done. split; [done|].
    intros x ex Hx' Hex. assert (x = l) as -> by set_solver. congruence. }
  cbn [hd_or]. rewrite bool_decide_false.
  2: { intros E. symmetry in E. apply (Hq l' E). set_solver. }
  destruct (IH (Some l) (l' :: s)) as [(s1 & x & s2 & ex & Hs12 & Hex & Hkx & Hrun)|[Hrun Hno]];
    [done|done|done|intros x Ex; specialize (Hq x Ex); set_solver|cbn in *; lia| |].
  - left. exists (l :: s1), x, s2, ex. rewrite Hs12. done.
  - right. split; [done|]. intros x ex [->|Hx']%elem_of_cons Hex; [congruence|eauto].
Qed.

Lemma block_unique blks i s s' : NoDup blks.*1 -> (i, s) ∈ blks -> (i, s') ∈ blks -> s = s'.
Proof.
  intros Hnd (n & Hn)%list_elem_of_lookup (n' & Hn')%list_elem_of_lookup.
  assert (n = n') as ->.
  { eapply NoDup_lookup; [exact Hnd|by rewrite list_lookup_fmap, Hn|by rewrite list_lookup_fmap, Hn']. }
  congruence.
Qed.

(** A block of the list. *)
Lemma block_seg es blks1 i s blks2 :
  seg (K := K) (D := D) es None (all_of (blks1 ++ (i, s) :: blks2)) None ->
  seg es (last_or (all_of blks1) None) s (hd_or (all_of blks2) None).
Proof.
  rewrite all_of_app, all_of_cons. intros [_ Hs]%seg_app. by apply seg_app in Hs as [? _].
Qed.

Lemma entry_block t blks l e :
  shape t blks -> entries t !! l = Some e ->
  exists s, (Z.to_nat (hash_func (key e) (tsize t)), s) ∈ blks /\ l ∈ s.
Proof.
  intros Hsh He. assert (l ∈ all_of blks) as Hl.
  { apply elem_of_dom_2 in He. rewrite (sh_dom _ _ Hsh) in He. by apply elem_of_list_to_set in He. }
  apply elem_of_all in Hl as (i & s & Hs & Hl). exists s.
  rewrite (sh_hash _ _ Hsh i s l (key e) (datum e) Hs Hl (kd_lookup _ _ _ He)), Nat2Z.id. done.
Qed.

Lemma shape_length t blks : shape t blks -> size (entries t) = length (all_of blks).
Proof.
  intros Hsh. rewrite <- (size_dom (D := gset loc)), (sh_dom _ _ Hsh). apply size_list_to_set, (sh_nodup _ _ Hsh).
Qed.

(** What the search of the bucket of [k] finds. *)
Definition found_at t blks (k : K) (b : bucket) (l : loc) : Prop :=
  exists blks1 s1 s2 blks2 e, blks = blks1 ++ (Z.to_nat (bucket_of hash_func t k), s1 ++ l :: s2) :: blks2 /\
    entries t !! l = Some e /\ keyeq_func (key e) k = true /\
    b = Bucket (hd_or (s1 ++ l :: s2) None) (last_or (s1 ++ l :: s2) None).

Definition not_found t blks (k : K) (b : bucket) : Prop :=
  (forall l e, entries t !! l = Some e -> keyeq_func (key e) k = false) /\
  ((exists blks1 s blks2, blks = blks1 ++ (Z.to_nat (bucket_of hash_func t k), s) :: blks2 /\ s <> [] /\
      b = Bucket (hd_or s None) (last_or s None)) \/
   (Z.to_nat (bucket_of hash_func t k) ∉ blks.*1 /\ b = Bucket None None)).

Lemma search_spec t blks k :
  shape t blks ->
  exists b, c_index (buckets t) (bucket_of hash_func t k) = Ok b /\
    ((exists l, globus_l_hashtable_search_bucket keyeq_func (entries t) b k = Ok (Some l) /\
        found_at t blks k b l) \/
     (globus_l_hashtable_search_bucket keyeq_func (entries t) b k = Ok None /\ not_found t blks k b)).
Proof.
  intros Hsh. pose proof (sh_size _ _ Hsh) as [Hpos Hlen]. set (i := Z.to_nat (bucket_of hash_func t k)).
  assert (0 <= bucket_of hash_func t k < tsize t) as Hb by exact (hash_bound k (tsize t) Hpos).
  assert (forall s, (forall l e, l ∈ s -> entries t !! l = Some e -> keyeq_func (key e) k = false) ->
            (forall s', (i, s') ∈ blks -> s' = s) ->
            forall l e, entries t !! l = Some e -> keyeq_func (key e) k = false) as Hnone.
  { intros s Hs Huniq l e He. destruct (keyeq_func (key e) k) eqn:Ek; [|done]. exfalso.
    destruct (entry_block t blks l e Hsh He) as (s' & Hs' & Hl).
    rewrite (hash_keyeq _ _ _ Ek) in Hs'. apply Huniq in Hs' as ->. by rewrite (Hs l e Hl He) in Ek. }
  destruct (decide (i ∈ blks.*1)) as [Hi|Hi].
  - apply list_elem_of_fmap in Hi as ([i' s] & Ei & Hin). cbn in Ei. subst i'.
    destruct (sh_block _ _ Hsh i s Hin) as [Hne Hbi].
    exists (Bucket (hd_or s None) (last_or s None)). split; [by apply c_index_ok; [lia|]|].
    pose proof Hin as (blks1 & blks2 & Hblks)%list_elem_of_split.
    pose proof (sh_list _ _ Hsh) as Hseg. pose proof (sh_nodup _ _ Hsh) as Hnd. rewrite Hblks in Hseg, Hnd.
    apply block_seg in Hseg. rewrite all_of_app, all_of_cons in Hnd.
    apply NoDup_app in Hnd as (_ & _ & Hnd). apply NoDup_app in Hnd as (Hnds & Hdis & _).
    destruct (last_or_None_cases s) as [[? _]|(s' & lst & Es & Hlst)]; [done|].
    pose proof Hseg as Hseg'. rewrite Es in Hseg'. apply seg_middle in Hseg' as (elst & Helst & _ & Hnext & _).
    unfold globus_l_hashtable_search_bucket. cbn [bfirst blast]. destruct s as [|l0 s0]; [done|].
    cbn [hd_or]. rewrite Hlst. unfold mbind, result_bind. cbn [deref]. rewrite Helst. cbn [deref].
    rewrite Hnext. cbn [hd_or].
    destruct (search_loop_spec (S (size (entries t))) (entries t) _ (l0 :: s0) _ k Hseg)
      as [(s1 & l & s2 & e & Hs12 & He & Hk & Hrun)|[Hrun Hno]]; [done|done| | |left|right].
    + intros x Hx Hin'. apply (Hdis x Hin'). destruct (all_of blks2); cbn in Hx; [done|]. set_solver.
    + rewrite (shape_length t blks Hsh), Hblks, all_of_app, all_of_cons, !length_app. lia.
    + exists l. split; [exact Hrun|]. exists blks1, s1, s2, blks2, e. rewrite <- Hs12, <- Hlst. done.
    + split; [exact Hrun|]. split.
      * apply (Hnone (l0 :: s0) Hno). intros s'' Hs''. by eapply block_unique; [apply (sh_index _ _ Hsh)| |].
      * left. exists blks1, (l0 :: s0), blks2. by rewrite <- Hlst.
  - exists (Bucket None None). split.
    + apply c_index_ok; [lia|]. apply (sh_empty _ _ Hsh); [lia|done].
    + right. split; [done|]. split; [|by right].
      apply (Hnone []); [set_solver|]. intros s' Hs'. exfalso. apply Hi, list_elem_of_fmap. by exists (i, s').
Qed.
(** ** Changing one bucket *)

(** The blocks with [s] for the bucket [i], which has none when [s] is empty. *)
Definition with_block blks1 (i : nat) (s : list loc) blks2 : list (nat * list loc) :=
  match s with [] => blks1 ++ blks2 | _ => blks1 ++ (i, s) :: blks2 end.

Lemma all_of_with blks1 i s blks2 :
  all_of (with_block blks1 i s blks2) = all_of blks1 ++ s ++ all_of blks2.
Proof. destruct s; cbn [with_block]; rewrite all_of_app; done. Qed.

Lemma elem_of_with blks1 i s blks2 j s' :
  (j, s') ∈ with_block blks1 i s blks2 <->
  (j, s') ∈ blks1 ++ blks2 \/ (j = i /\ s' = s /\ s <> []).
Proof.
  destruct s as [|l s]; cbn [with_block]; rewrite !elem_of_app, ?elem_of_cons; [naive_solver|].
  split; [intros [?|[[= -> ->]|?]]|intros [[?|?]|(-> & -> & _)]]; auto.
Qed.

Lemma with_block_index blks1 i s blks2 :
  NoDup (with_block blks1 i s blks2).*1 -> i ∉ (blks1 ++ blks2).*1 ->
  forall s', NoDup (with_block blks1 i s' blks2).*1.
Proof.
  intros Hnd Hi s'.
  assert (NoDup (blks1 ++ blks2).*1) as Hnd'.
  { destruct s; cbn [with_block] in Hnd; [done|]. rewrite fmap_app, fmap_cons in *.
    apply NoDup_app in Hnd as (H1 & H2 & H3). apply NoDup_cons in H3 as [_ H3].
    apply NoDup_app. split_and!; [done| |done]. set_solver. }
  destruct s'; cbn [with_block]; [done|]. rewrite fmap_app, fmap_cons in *. cbn [fst].
  rewrite <- Permutation_middle. by apply NoDup_cons.
Qed.

(** A change of one bucket keeps the shape when the entries of the others keep
    their keys. *)
Lemma shape_bucket t t' blks1 i s s' blks2 :
  shape t (with_block blks1 i s blks2) ->
  i ∉ (blks1 ++ blks2).*1 -> (i < length (buckets t))%nat -> tsize t' = tsize t ->
  buckets t' = <[i := Bucket (hd_or s' None) (last_or s' None)]> (buckets t) ->
  (forall l, l ∈ all_of (blks1 ++ blks2) -> kd (entries t') !! l = kd (entries t) !! l) ->
  (forall l k d, l ∈ s' -> kd (entries t') !! l = Some (k, d) -> hash_func k (tsize t) = Z.of_nat i) ->
  let A := all_of blks1 ++ s' ++ all_of blks2 in
  seg (entries t') None A None -> NoDup A -> tfirst t' = hd_or A None -> tlast t' = last_or A None ->
  (forall l l' k d k' d', kd (entries t') !! l = Some (k, d) ->
    kd (entries t') !! l' = Some (k', d') -> keyeq_func k k' = true -> l = l') ->
  dom (entries t') = list_to_set A -> load t' = Z.of_nat (length A) ->
  np_ok (memory t') /\ np_live (memory t') = dom (entries t') ->
  (forall l, current t' = Some l -> l ∈ A) ->
  shape t' (with_block blks1 i s' blks2).
Proof.
  intros Hsh Hi Hlen Hsz Hbs Hkd Hhash A Hseg Hnd Hf Hl Hkeys Hdom Hload Hpool Hcur.
  assert (forall j s'', (j, s'') ∈ blks1 ++ blks2 -> j <> i) as Hother.
  { intros j s'' Hj ->. apply Hi, list_elem_of_fmap. by exists (i, s''). }
  split; rewrite ?all_of_with; try done.
  - rewrite Hsz, Hbs, length_insert. apply (sh_size _ _ Hsh).
  - eapply with_block_index; [apply (sh_index _ _ Hsh)|done].
  - intros j s'' [Hj|(-> & -> & Hne)]%elem_of_with.
    + rewrite Hbs, list_lookup_insert_ne by (intros ->; by eapply Hother).
      apply (sh_block _ _ Hsh), elem_of_with. by left.
    + split; [done|]. by rewrite Hbs, list_lookup_insert_eq.
  - intros j Hj Hnin. rewrite Hbs, length_insert in Hj. rewrite Hbs.
    destruct (decide (i = j)) as [<-|Hne].
    + destruct s' as [|x s']; [by rewrite list_lookup_insert_eq|]. exfalso. apply Hnin.
      apply list_elem_of_fmap. exists (i, x :: s'). split; [done|]. apply elem_of_with. by right.
    + rewrite list_lookup_insert_ne by done. apply (sh_empty _ _ Hsh); [done|].
      intros ([j' s''] & -> & [Hin|(-> & _)]%elem_of_with)%list_elem_of_fmap; [|done].
      apply Hnin, list_elem_of_fmap. exists (j', s''). split; [done|]. apply elem_of_with. by left.
  - rewrite Hsz. intros j s'' l k d [Hj|(-> & -> & Hne)]%elem_of_with Hls Hlk; [|by eapply Hhash].
    rewrite Hkd in Hlk by (apply elem_of_all; eauto).
    eapply (sh_hash _ _ Hsh j s''); [apply elem_of_with; by left|done..].
Qed.
(** The table as an association list, in no particular order. *)
Definition contents t : list (K * D) := (map_to_list (kd (entries t))).*2.

Lemma with_block_split t blks1 i s blks2 :
  shape t (blks1 ++ (i, s) :: blks2) ->
  s <> [] /\ with_block blks1 i s blks2 = blks1 ++ (i, s) :: blks2 /\ i ∉ (blks1 ++ blks2).*1.
Proof.
  intros Hsh. destruct (sh_block _ _ Hsh i s) as [Hne _]; [set_solver|]. split; [done|].
  split; [by destruct s|]. pose proof (sh_index _ _ Hsh) as Hnd.
  rewrite fmap_app, fmap_cons in *. cbn [fst] in Hnd.
  rewrite <- Permutation_middle in Hnd. by apply NoDup_cons in Hnd as [? _].
Qed.

Lemma bucket_bound t blks k :
  shape t blks -> 0 <= bucket_of hash_func t k < Z.of_nat (length (buckets t)).
Proof. intros Hsh. destruct (sh_size _ _ Hsh) as [Hpos ->]. exact (hash_bound k (tsize t) Hpos). Qed.

(** Where a new entry is linked: before the first of its bucket, or in front. *)
Lemma link_new t blks1 s blks2 entry k d :
  let A := all_of blks1 ++ s ++ all_of blks2 in
  seg (entries t) None A None -> NoDup A -> tfirst t = hd_or A None -> tlast t = last_or A None ->
  entry ∉ A -> entries t !! entry = None -> (s = [] -> blks1 = []) ->
  exists es',
    (match hd_or s None with
     | Some bf =>
         match GlobusLInsertNodeBefore (<[entry := BEntry k d None None]> (entries t)) entry bf with
         | Ok es => Ok (es, if bool_decide (Some bf = tfirst t) then Some entry else tfirst t, tlast t, last_or s None)
         | Fault f => Fault f end
     | None =>
         match tfirst t with
         | Some tf =>
             match GlobusLInsertNodeBefore (<[entry := BEntry k d None None]> (entries t)) entry tf with
             | Ok es => Ok (es, Some entry, tlast t, Some entry) | Fault f => Fault f end
         | None => Ok (<[entry := BEntry k d None None]> (entries t), Some entry, Some entry, Some entry)
         end
     end) =
    Ok (es', hd_or (all_of blks1 ++ (entry :: s) ++ all_of blks2) None,
        last_or (all_of blks1 ++ (entry :: s) ++ all_of blks2) None, last_or (entry :: s) None) /\
    seg es' None (all_of blks1 ++ (entry :: s) ++ all_of blks2) None /\
    kd es' = <[entry := (k, d)]> (kd (entries t)).
Proof.
  intros A Hseg Hnd Hf Hlst Hnew Hfresh Hs. set (es := <[entry := BEntry k d None None]> (entries t)).
  assert (seg es None A None) as Hseg'.
  { eapply seg_frame; [done|]. intros l Hl. apply lookup_insert_ne. by intros <-. }
  assert (kd es = <[entry := (k, d)]> (kd (entries t))) as Hkd by (unfold es, kd; by rewrite fmap_insert).
  assert (es !! entry = Some (BEntry k d None None)) as Hentry by apply lookup_insert_eq.
  rewrite Hf, Hlst, last_or_cons. subst A. destruct s as [|bf s]; cbn [hd_or].
  - rewrite (Hs eq_refl) in *. cbn [all_of mbind list_bind app] in *.
    destruct (all_of blks2) as [|tf ls]; cbn [hd_or].
    + exists es. split_and!; [done| |done]. by eexists.
    + destruct (insert_before_spec es entry _ [] tf ls Hseg' ltac:(by apply NoDup_cons) Hentry) as (es' & -> & Hs' & Hkd').
      exists es'. split_and!; [by rewrite !last_or_cons|done|by rewrite Hkd'].
  - cbn [app] in *.
    destruct (insert_before_spec es entry _ (all_of blks1) bf (s ++ all_of blks2) Hseg' ltac:(by apply NoDup_cons) Hentry)
      as (es' & -> & Hs' & Hkd').
    exists es'. split_and!; [|done|by rewrite Hkd'].
    rewrite !last_or_app, !last_or_cons. do 3 f_equal.
    destruct (all_of blks1) as [|x ls]; cbn [hd_or app]; [by rewrite bool_decide_true|].
    rewrite bool_decide_false; [done|]. intros [= ->]. apply NoDup_cons in Hnd as [Hx _]. set_solver.
Qed.
(** ** The operations on the association list *)

Lemma table_contents_elem t k d : (k, d) ∈ contents t <-> exists l, kd (entries t) !! l = Some (k, d).
Proof.
  unfold contents. rewrite list_elem_of_fmap. split.
  - intros ([l kd'] & -> & Hl%elem_of_map_to_list). eauto.
  - intros (l & Hl). exists (l, (k, d)). split; [done|]. by apply elem_of_map_to_list.
Qed.

Lemma insert_table_spec t blks k d l mem' :
  shape t blks -> (forall l e, entries t !! l = Some e -> keyeq_func (key e) k = false) ->
  np_pop (memory t) = Ok (Some l, mem') -> load t < INT_MAX ->
  exists blks' t', globus_hashtable_insert hash_func keyeq_func t k d = Ok (GLOBUS_SUCCESS, t') /\
    shape t' blks' /\ kd (entries t') = <[l := (k, d)]> (kd (entries t)) /\ l ∉ dom (entries t).
Proof.
  intros Hsh Hnone Hpop Hload. pose proof (bucket_bound t blks k Hsh) as Hb.
  destruct (np_pop_some _ _ _ (proj1 (sh_pool _ _ Hsh)) Hpop) as (Hok' & Hfresh & Hlive').
  rewrite (proj2 (sh_pool _ _ Hsh)) in Hfresh, Hlive'.
  destruct (search_spec t blks k Hsh) as (b & Hidx & [(x & _ & _ & _ & _ & _ & e & _ & He & Hk & _)|[Hrun [_ Hnf]]]).
  { by rewrite (Hnone x e He) in Hk. }
  set (i := Z.to_nat (bucket_of hash_func t k)) in *.
  assert (exists blks1 s blks2, blks = with_block blks1 i s blks2 /\ i ∉ (blks1 ++ blks2).*1 /\
            b = Bucket (hd_or s None) (last_or s None) /\ (s = [] -> blks1 = []))
    as (blks1 & s & blks2 & -> & Hi & -> & Hs).
  { destruct Hnf as [(blks1 & s & blks2 & -> & Hne & ->)|[Hi ->]].
    - destruct (with_block_split _ _ _ _ _ Hsh) as (_ & <- & Hi). by exists blks1, s, blks2.
    - by exists [], [], blks. }
  assert (l ∉ all_of blks1 ++ s ++ all_of blks2) as HlA.
  { intros HlA. apply Hfresh. rewrite (sh_dom _ _ Hsh), all_of_with. by apply elem_of_list_to_set. }
  pose proof (sh_nodup _ _ Hsh) as Hnd. pose proof (sh_load _ _ Hsh) as Hld. rewrite all_of_with in Hnd, Hld.
  destruct (link_new t blks1 s blks2 l k d) as (es' & Hlink & Hseg' & Hkd');
    [rewrite <- (all_of_with blks1 i); apply Hsh..|done|by apply not_elem_of_dom|done|].
  assert (all_of blks1 ++ (l :: s) ++ all_of blks2 ≡ₚ l :: all_of blks1 ++ s ++ all_of blks2) as Hperm.
  { cbn [app]. by rewrite <- Permutation_middle. }
  assert (dom es' = {[l]} ∪ dom (entries t)) as Hdom'.
  { rewrite <- (dom_fmap_L (fun e => (key e, datum e)) es'). fold (kd es'). rewrite Hkd', dom_insert_L. unfold kd.
    by rewrite dom_fmap_L. }
  exists (with_block blks1 i (l :: s) blks2). eexists. split_and!.
  - unfold globus_hashtable_insert, mbind, result_bind. fold i. rewrite Hidx, Hrun, Hpop. cbn [bfirst blast].
    rewrite Hlink, c_update_ok, s32_ok by (unfold INT_MIN in *; lia). reflexivity.
  - eapply (shape_bucket t); [done|done|lia|done|done|..]; cbn [entries memory load tfirst tlast current]; try done.
    + intros x Hx. rewrite Hkd'. apply lookup_insert_ne. intros <-. apply HlA.
      rewrite all_of_app in Hx. set_solver.
    + intros x k' d' Hx. rewrite Hkd'. destruct (decide (x = l)) as [->|Hne].
      * rewrite lookup_insert_eq. intros [= <- <-]. unfold i. rewrite Z2Nat.id by lia. done.
      * rewrite lookup_insert_ne by done. apply (sh_hash _ _ Hsh i s); [|set_solver].
        apply elem_of_with. right. split_and!; [done..|]. intros ->. set_solver.
    + rewrite Hperm. by apply NoDup_cons.
    + assert (forall x k' d', kd (entries t) !! x = Some (k', d') -> keyeq_func k' k = false) as Hno.
      { intros x k' d' (e & He & <- & _)%kd_inv. by eapply Hnone. }
      intros x y k1 d1 k2 d2. rewrite Hkd', !lookup_insert. do 2 case_decide; subst; [done|..].
      * intros [= <- <-] Hy Ek. apply Hno in Hy. apply keyeq_sym in Ek. congruence.
      * intros Hx [= <- <-] Ek. apply Hno in Hx. congruence.
      * apply (sh_keys _ _ Hsh).
    + by rewrite Hdom', (sh_dom _ _ Hsh), all_of_with, (list_to_set_perm_L _ _ Hperm).
    + rewrite Hperm, Hld. cbn [length]. lia.
    + by rewrite Hdom'.
    + intros x Hx. rewrite Hperm. apply (sh_current _ _ Hsh) in Hx. rewrite all_of_with in Hx. set_solver.
  - done.
  - done.
Qed.
(** The bucket after the removal of its entry [l]. *)
Lemma bucket_after s1 l s2 nx pv :
  NoDup (s1 ++ l :: s2) -> (s2 <> [] -> nx = hd_or s2 None) -> (s1 <> [] -> pv = last_or s1 None) ->
  (if bool_decide (Some l = hd_or (s1 ++ l :: s2) None) then
     if bool_decide (Some l = last_or (s1 ++ l :: s2) None) then Bucket None None
     else Bucket nx (last_or (s1 ++ l :: s2) None)
   else if bool_decide (Some l = last_or (s1 ++ l :: s2) None) then Bucket (hd_or (s1 ++ l :: s2) None) pv
   else Bucket (hd_or (s1 ++ l :: s2) None) (last_or (s1 ++ l :: s2) None)) =
  Bucket (hd_or (s1 ++ s2) None) (last_or (s1 ++ s2) None).
Proof.
  intros (_ & Hdis & [Hl _]%NoDup_cons)%NoDup_app Hnx Hpv.
  assert (bool_decide (Some l = hd_or (s1 ++ l :: s2) None) = bool_decide (s1 = [])) as ->.
  { destruct s1 as [|x s1]; [by rewrite !bool_decide_true|]. rewrite !bool_decide_false; [done|done|].
    intros [= ->]. apply (Hdis x); set_solver. }
  assert (bool_decide (Some l = last_or (s1 ++ l :: s2) None) = bool_decide (s2 = [])) as ->.
  { rewrite last_or_app, last_or_cons. destruct (decide (s2 = [])) as [->|Hs2]; [by rewrite !bool_decide_true|].
    destruct (exists_last Hs2) as (s2' & x & ->). rewrite last_or_snoc, !bool_decide_false; [done|by destruct s2'|].
    intros [= ->]. apply Hl. set_solver. }
  rewrite !last_or_app, last_or_cons, !hd_or_app. repeat case_bool_decide; subst; cbn [hd_or app]; [done|..].
  - rewrite Hnx by done. destruct (exists_last (l := s2)) as (s2' & x & ->); [done|]. by rewrite !last_or_snoc.
  - rewrite Hpv by done. destruct s1; done.
  - destruct s1; [done|]. destruct (exists_last (l := s2)) as (s2' & x & ->); [done|]. by rewrite !last_or_snoc.
Qed.

Lemma remove_table_spec t blks k b l :
  shape t blks -> c_index (buckets t) (bucket_of hash_func t k) = Ok b ->
  globus_l_hashtable_search_bucket keyeq_func (entries t) b k = Ok (Some l) ->
  found_at t blks k b l -> load t <= INT_MAX ->
  exists blks' t' k' d, globus_hashtable_remove hash_func keyeq_func t k = Ok (Some d, t') /\
    shape t' blks' /\ kd (entries t) !! l = Some (k', d) /\ keyeq_func k' k = true /\
    kd (entries t') = delete l (kd (entries t)).
Proof.
  intros Hsh Hidx Hrun (blks1 & s1 & s2 & blks2 & e & -> & He & Hk & ->) Hmax.
  pose proof (bucket_bound _ _ k Hsh) as Hb. set (i := Z.to_nat (bucket_of hash_func t k)) in *.
  destruct (with_block_split _ _ _ _ _ Hsh) as (_ & Hw & Hi). rewrite <- Hw in Hsh.
  pose proof (sh_list _ _ Hsh) as Hseg. pose proof (sh_nodup _ _ Hsh) as Hnd.
  pose proof (sh_first _ _ Hsh) as Hf. pose proof (sh_last _ _ Hsh) as Hl. pose proof (sh_load _ _ Hsh) as Hld.
  pose proof (sh_dom _ _ Hsh) as Hdom.
  set (ls := all_of blks1 ++ s1). set (ms := s2 ++ all_of blks2).
  assert (all_of (with_block blks1 i (s1 ++ l :: s2) blks2) = ls ++ l :: ms) as HA.
  { rewrite all_of_with. unfold ls, ms. by rewrite <- !app_assoc. }
  assert (all_of blks1 ++ (s1 ++ s2) ++ all_of blks2 = ls ++ ms) as HA'.
  { unfold ls, ms. by rewrite <- !app_assoc. }
  rewrite HA in *. pose proof (seg_middle _ _ _ _ _ _ Hseg) as (e' & He' & Hp & Hn & _).
  assert (e' = e) as -> by congruence.
  destruct (unlink_spec _ ls l ms e _ _ Hseg Hnd He Hf Hl) as (es1 & es2 & Hu1 & Hu2 & Hseg' & Hkd').
  assert (ls ++ l :: ms ≡ₚ l :: ls ++ ms) as Hperm by by rewrite <- Permutation_middle.
  rewrite Hperm in Hnd, Hld. apply NoDup_cons in Hnd as [Hlnew Hnd'].
  assert (NoDup (s1 ++ l :: s2)) as Hnds.
  { pose proof (sh_nodup _ _ Hsh) as Hn'. rewrite all_of_with in Hn'. apply NoDup_app in Hn' as (_ & _ & Hn').
    by apply NoDup_app in Hn' as (? & _ & _). }
  assert (dom (delete l es2) = list_to_set (ls ++ ms)) as Hdom'.
  { rewrite <- (dom_fmap_L (fun e => (key e, datum e)) (delete l es2)). fold (kd (delete l es2)).
    rewrite Hkd', dom_delete_L. unfold kd. rewrite dom_fmap_L, Hdom, (list_to_set_perm_L _ _ Hperm), list_to_set_cons. set_solver. }
  assert (l ∈ dom (entries t)) as Hldom by by apply elem_of_dom_2 in He.
  destruct (sh_pool _ _ Hsh) as [Hpok Hplive].
  destruct (np_push_ok (memory t) l Hpok) as [Hpok' Hplive']; [by rewrite Hplive|].
  exists (with_block blks1 i (s1 ++ s2) blks2). eexists _, (key e), (datum e). split_and!.
  - unfold globus_hashtable_remove, mbind, result_bind. rewrite Hidx, Hrun. cbn [bfirst blast]. rewrite He. cbn [deref].
    rewrite bucket_after; [|done|..].
    + rewrite c_update_ok by lia. fold i. rewrite Hu1, Hu2. rewrite s32_ok by (unfold INT_MIN, INT_MAX in *; cbn in Hld; lia).
      reflexivity.
    + intros Hs2. rewrite Hn. unfold ms. rewrite hd_or_app. by destruct s2.
    + intros Hs1. rewrite Hp. unfold ls. rewrite last_or_app.
      destruct (exists_last Hs1) as (s' & x & ->). by rewrite !last_or_snoc.
  - eapply (shape_bucket t); rewrite ?HA'; [done|done|lia|done|done|..];
      cbn [entries memory load tfirst tlast current]; try done.
    + intros x Hx. rewrite Hkd'. apply lookup_delete_ne. intros <-. apply Hlnew.
      rewrite all_of_app in Hx. unfold ls, ms. set_solver.
    + intros x k' d' Hx. rewrite Hkd'. intros [_ Hx']%lookup_delete_Some.
      apply (sh_hash _ _ Hsh i (s1 ++ l :: s2) x k' d'); [|set_solver|done].
      apply elem_of_with. right. split_and!; [done..|]. by destruct s1.
    + intros x y k1 d1 k2 d2. rewrite Hkd'. intros [_ Hx]%lookup_delete_Some [_ Hy]%lookup_delete_Some.
      by eapply (sh_keys _ _ Hsh).
    + cbn [length] in Hld. lia.
    + rewrite Hdom'. split; [done|]. rewrite Hplive', Hplive, Hdom, (list_to_set_perm_L _ _ Hperm), list_to_set_cons. set_solver.
    + intros x. case_bool_decide as Hc; intros Hx.
      * rewrite Hn in Hx. destruct ms; cbn in Hx; [done|]. set_solver.
      * apply (sh_current _ _ Hsh) in Hx as Hin. rewrite HA, Hperm in Hin.
        apply elem_of_cons in Hin as [->|]; [congruence|done].
  - by apply kd_lookup.
  - done.
  - done.
Qed.
Lemma lookup_table_spec t blks k :
  shape t blks ->
  (exists l k' d, globus_hashtable_lookup hash_func keyeq_func t k = Ok (Some d) /\
     kd (entries t) !! l = Some (k', d) /\ keyeq_func k' k = true) \/
  (globus_hashtable_lookup hash_func keyeq_func t k = Ok None /\
     forall l e, entries t !! l = Some e -> keyeq_func (key e) k = false).
Proof.
  intros Hsh. unfold globus_hashtable_lookup, mbind, result_bind.
  destruct (search_spec t blks k Hsh) as (b & -> & [(l & -> & _ & _ & _ & _ & e & _ & He & Hk & _)|[-> [Hno _]]]).
  - left. exists l, (key e), (datum e). rewrite He. by rewrite (kd_lookup _ _ _ He).
  - by right.
Qed.

Lemma update_table_spec t blks k d b l :
  shape t blks -> c_index (buckets t) (bucket_of hash_func t k) = Ok b ->
  globus_l_hashtable_search_bucket keyeq_func (entries t) b k = Ok (Some l) -> found_at t blks k b l ->
  exists t' k' d', globus_hashtable_update hash_func keyeq_func t k d = Ok (Some d', t') /\
    shape t' blks /\ kd (entries t) !! l = Some (k', d') /\ keyeq_func k' k = true /\
    kd (entries t') = <[l := (k, d)]> (kd (entries t)).
Proof.
  intros Hsh Hidx Hrun (_ & _ & _ & _ & e & _ & He & Hk & _).
  set (es := <[l := BEntry k d (prev e) (next e)]> (entries t)).
  assert (kd es = <[l := (k, d)]> (kd (entries t))) as Hkd by (unfold es, kd; by rewrite fmap_insert).
  assert (dom es = dom (entries t)) as Hdom.
  { unfold es. rewrite dom_insert_L. apply elem_of_dom_2 in He. set_solver. }
  exists (HT (tsize t) (load t) (buckets t) (tfirst t) (tlast t) (current t) (memory t) es), (key e), (datum e).
  split_and!; [|split; cbn [tsize load buckets tfirst tlast current memory entries]; try apply Hsh
               |by apply kd_lookup|done|exact Hkd].
  - unfold globus_hashtable_update, mbind, result_bind. by rewrite Hidx, Hrun, He.
  - apply seg_set_data, Hsh; done.
  - rewrite Hkd. intros i s x k' d' Hs Hx. rewrite lookup_insert. case_decide; subst.
    + intros [= <- <-]. rewrite <- (hash_keyeq _ _ _ Hk).
      by eapply (sh_hash _ _ Hsh); [..|apply kd_lookup].
    + by eapply (sh_hash _ _ Hsh).
  - rewrite Hkd. intros x y k1 d1 k2 d2. rewrite !lookup_insert.
    do 2 case_decide; subst; [done|..|eapply (sh_keys _ _ Hsh)]; intros E1 E2 Ek; simplify_eq.
    + eapply (sh_keys _ _ Hsh); [by apply kd_lookup|done|]. by eapply keyeq_trans.
    + eapply (sh_keys _ _ Hsh); [done|by apply kd_lookup|]. by eapply keyeq_trans, keyeq_sym.
  - rewrite Hdom. apply Hsh.
  - rewrite Hdom. apply Hsh.
Qed.
(** ** The table refines an association list *)

Definition represents t (al : list (K * D)) : Prop :=
  exists blks, shape t blks /\ al ≡ₚ contents t.

(** The datum of a key, and the list without it. *)
Definition find (al : list (K * D)) (k : K) : option D :=
  snd <$> head (filter (fun kd => keyeq_func kd.1 k = true) al).
Definition without (al : list (K * D)) (k : K) : list (K * D) :=
  filter (fun kd => keyeq_func kd.1 k = false) al.

Inductive hop :=
| HInsert (k : K) (d : D)
| HUpdate (k : K) (d : D)
| HRemove (k : K)
| HLookup (k : K)
| HSize
| HEmpty.

Inductive hout :=
| OStatus (rc : Z)
| ODatum (d : option D)
| OSize (n : Z)
| OBool (b : bool).

Definition hspec (al : list (K * D)) (o : hop) : hout * list (K * D) :=
  match o with
  | HInsert k d =>
      match find al k with
      | Some _ => (OStatus GLOBUS_FAILURE, al)
      | None => (OStatus GLOBUS_SUCCESS, (k, d) :: al)
      end
  | HUpdate k d =>
      match find al k with
      | Some d' => (ODatum (Some d'), (k, d) :: without al k)
      | None => (ODatum None, al)
      end
  | HRemove k => (ODatum (find al k), without al k)
  | HLookup k => (ODatum (find al k), al)
  | HSize => (OSize (Z.of_nat (length al)), al)
  | HEmpty => (OBool (bool_decide (al = [])), al)
  end.

Definition himpl t (o : hop) : result (hout * hashtable K D Pool) :=
  match o with
  | HInsert k d => '(rc, t') ← globus_hashtable_insert hash_func keyeq_func t k d; Ok (OStatus rc, t')
  | HUpdate k d => '(r, t') ← globus_hashtable_update hash_func keyeq_func t k d; Ok (ODatum r, t')
  | HRemove k => '(r, t') ← globus_hashtable_remove hash_func keyeq_func t k; Ok (ODatum r, t')
  | HLookup k => r ← globus_hashtable_lookup hash_func keyeq_func t k; Ok (ODatum r, t)
  | HSize => Ok (OSize (globus_hashtable_size t), t)
  | HEmpty => Ok (OBool (globus_hashtable_empty t), t)
  end.

(** An insertion needs a node of the pool and a count that fits an [int]. *)
Definition hop_ok t (o : hop) : Prop :=
  load t <= INT_MAX /\
  match o with
  | HInsert k d => load t < INT_MAX /\ exists l mem, np_pop (memory t) = Ok (Some l, mem)
  | _ => True
  end.

Fixpoint hrun t (os : list hop) : result (list hout * hashtable K D Pool) :=
  match os with
  | [] => Ok ([], t)
  | o :: os => '(r, t) ← himpl t o; '(rs, t) ← hrun t os; Ok (r :: rs, t)
  end.

Fixpoint hspec_run (al : list (K * D)) (os : list hop) : list hout * list (K * D) :=
  match os with
  | [] => ([], al)
  | o :: os => let '(r, al) := hspec al o in let '(rs, al) := hspec_run al os in (r :: rs, al)
  end.

Fixpoint hops_ok t (os : list hop) : Prop :=
  match os with
  | [] => True
  | o :: os => hop_ok t o /\ forall r t', himpl t o = Ok (r, t') -> hops_ok t' os
  end.

(** The keys of a table are pairwise different, so its mapping of a key is
    determined whatever the order. *)
Lemma find_present t blks al l k' d k :
  shape t blks -> al ≡ₚ contents t -> kd (entries t) !! l = Some (k', d) -> keyeq_func k' k = true ->
  find al k = Some d /\ without al k ≡ₚ (map_to_list (delete l (kd (entries t)))).*2.
Proof.
  intros Hsh Hal Hl Hk. set (m := delete l (kd (entries t))).
  assert (contents t ≡ₚ (k', d) :: (map_to_list m).*2) as Hc.
  { unfold contents. by rewrite <- (map_to_list_delete _ l (k', d) Hl). }
  rewrite Hc in Hal.
  assert (forall kd', kd' ∈ (map_to_list m).*2 -> keyeq_func kd'.1 k = false) as Hno.
  { intros kd' ([l2 [k2 d2]] & -> & Hin)%list_elem_of_fmap. cbn in *. apply elem_of_map_to_list in Hin.
    apply lookup_delete_Some in Hin as [Hne Hl2]. destruct (keyeq_func k2 k) eqn:E; [|done]. exfalso. apply Hne.
    eapply (sh_keys _ _ Hsh); [exact Hl|exact Hl2|]. by eapply keyeq_trans, keyeq_sym. }
  split.
  - unfold find. rewrite (proj1 (Permutation_singleton_r (filter _ al) (k', d))); [done|].
    rewrite Hal, filter_cons_True, filter_none; [done| |done]. intros x Hx. by rewrite (Hno x Hx).
  - unfold without. rewrite Hal, filter_cons_False by (cbn; by rewrite Hk).
    by rewrite filter_all.
Qed.

Lemma find_absent t al k :
  al ≡ₚ contents t -> (forall l e, entries t !! l = Some e -> keyeq_func (key e) k = false) ->
  find al k = None /\ without al k = al.
Proof.
  intros Hal Hno.
  assert (forall kd', kd' ∈ al -> keyeq_func kd'.1 k = false) as Hno'.
  { intros [k' d]. rewrite Hal, table_contents_elem. intros (l & (e & He & <- & _)%kd_inv). by eapply Hno. }
  unfold find, without. rewrite filter_none, filter_all; [done|done|]. intros x Hx. by rewrite (Hno' x Hx).
Qed.
Lemma contents_length t blks : shape t blks -> length (contents t) = length (all_of blks).
Proof.
  intros Hsh. unfold contents. rewrite length_fmap, length_map_to_list. unfold kd.
  by rewrite map_size_fmap, (shape_length t blks).
Qed.

(** The cases of an operation that searches for a key: the entry found, or none. *)
Lemma search_cases t blks al k :
  shape t blks -> al ≡ₚ contents t ->
  exists b, c_index (buckets t) (bucket_of hash_func t k) = Ok b /\
    ((exists l, globus_l_hashtable_search_bucket keyeq_func (entries t) b k = Ok (Some l) /\
        found_at t blks k b l) \/
     (globus_l_hashtable_search_bucket keyeq_func (entries t) b k = Ok None /\
        (forall l e, entries t !! l = Some e -> keyeq_func (key e) k = false) /\
        find al k = None /\ without al k = al)).
Proof.
  intros Hsh Hal. destruct (search_spec t blks k Hsh) as (b & Hb & [Hf|[Hr [Hno _]]]); exists b; split; [done|by left|done|].
  right. split_and!; [done|done|by eapply find_absent..].
Qed.

Lemma hashtable_step t al o :
  represents t al -> hop_ok t o ->
  exists t', himpl t o = Ok ((hspec al o).1, t') /\ represents t' (hspec al o).2.
Proof.
  intros (blks & Hsh & Hal) [Hmax Hok]. destruct o as [k d|k d|k|k| |]; cbn [himpl hspec].
  - destruct Hok as (Hload & l & mem & Hpop).
    destruct (search_cases t blks al k Hsh Hal) as (b & Hb & [(x & Hx & Hf)|(Hx & Hno & Hfind & _)]).
    + pose proof Hf as (_ & _ & _ & _ & e & _ & He & Hk & _). exists t.
      destruct (find_present t blks al x (key e) (datum e) k Hsh Hal (kd_lookup _ _ _ He) Hk) as [-> _].
      unfold globus_hashtable_insert, mbind, result_bind. rewrite Hb, Hx. split; [done|]. by exists blks.
    + rewrite Hfind. destruct (insert_table_spec t blks k d l mem Hsh Hno Hpop Hload) as (blks' & t' & -> & Hsh' & Hkd & Hl).
      exists t'. split; [done|]. exists blks'. split; [done|]. cbn. unfold contents. rewrite Hkd, map_to_list_insert.
      * cbn. by rewrite Hal.
      * unfold kd. rewrite lookup_fmap. by apply not_elem_of_dom in Hl as ->.
  - destruct (search_cases t blks al k Hsh Hal) as (b & Hb & [(x & Hx & Hf)|(Hx & Hno & Hfind & _)]).
    + destruct (update_table_spec t blks k d b x Hsh Hb Hx Hf) as (t' & k' & d' & -> & Hsh' & Hl & Hk & Hkd).
      destruct (find_present t blks al x k' d' k Hsh Hal Hl Hk) as [-> Hw].
      exists t'. split; [done|]. exists blks. split; [done|]. cbn. unfold contents. rewrite Hkd.
      rewrite <- insert_delete_eq, map_to_list_insert by apply lookup_delete_eq. cbn. by rewrite Hw.
    + rewrite Hfind. exists t. unfold globus_hashtable_update, mbind, result_bind. rewrite Hb, Hx.
      split; [done|]. by exists blks.
  - destruct (search_cases t blks al k Hsh Hal) as (b & Hb & [(x & Hx & Hf)|(Hx & Hno & Hfind & Hw)]).
    + destruct (remove_table_spec t blks k b x Hsh Hb Hx Hf Hmax) as (blks' & t' & k' & d & -> & Hsh' & Hl & Hk & Hkd).
      destruct (find_present t blks al x k' d k Hsh Hal Hl Hk) as [-> Hw].
      exists t'. split; [done|]. exists blks'. split; [done|]. cbn. unfold contents. by rewrite Hkd.
    + rewrite Hfind, Hw. exists t. unfold globus_hashtable_remove, mbind, result_bind. rewrite Hb, Hx.
      split; [done|]. by exists blks.
  - exists t. split; [|by exists blks]. unfold mbind, result_bind.
    destruct (lookup_table_spec t blks k Hsh) as [(l & k' & d & -> & Hl & Hk)|[-> Hno]].
    + by destruct (find_present t blks al l k' d k Hsh Hal Hl Hk) as [-> _].
    + by destruct (find_absent t al k Hal Hno) as [-> _].
  - exists t. split; [|by exists blks]. unfold globus_hashtable_size. cbn.
    by rewrite (sh_load _ _ Hsh), Hal, (contents_length t blks Hsh).
  - exists t. split; [|by exists blks]. unfold globus_hashtable_empty. do 3 f_equal. cbn.
    f_equal. apply bool_decide_ext. rewrite (sh_first _ _ Hsh). apply Permutation_length in Hal.
    rewrite (contents_length t blks Hsh) in Hal. destruct (all_of blks), al; naive_solver.
Qed.

(** C1: a hash table behaves as an association list: starting from any table
    that represents one, every sequence of insertions, updates, removals,
    lookups, sizes and emptiness tests returns what the list prescribes, without
    a fault, and the table keeps representing the list. An insertion of a key
    that is present fails and changes nothing; a removal removes exactly the
    mapping of the key. The pool must be able to provide a node to each
    insertion and the number of entries must fit an [int]. *)
Theorem hashtable_refines t al os :
  represents t al -> hops_ok t os ->
  exists t', hrun t os = Ok ((hspec_run al os).1, t') /\ represents t' (hspec_run al os).2.
Proof.
  revert t al. induction os as [|o os IH]; intros t al Hr Hok; cbn [hrun hspec_run]; [by exists t|].
  destruct Hok as [Ho Hos]. destruct (hashtable_step t al o Hr Ho) as (t1 & Hrun & Hr1).
  destruct (IH t1 _ Hr1 (Hos _ _ Hrun)) as (t2 & Hrun2 & Hr2). exists t2.
  unfold mbind, result_bind. rewrite Hrun, Hrun2. destruct (hspec al o) as [r al1]. cbn [fst snd] in *.
  by destruct (hspec_run al1 os).
Qed.

(** A fresh table represents the empty list. *)
Lemma empty_represents mem sz :
  0 < sz <= INT_MAX -> np_ok mem -> np_live mem = ∅ ->
  exists t, globus_hashtable_init (K := K) (D := D) true (Some mem) sz = Ok t /\ represents t [].
Proof.
  intros Hsz Hok Hlive. unfold globus_hashtable_init. zdecide. eexists. split; [done|]. exists [].
  split; [|done]. split; cbn; try done; try apply NoDup_nil_2; try set_solver.
  - rewrite length_replicate. lia.
  - intros i Hi _. rewrite length_replicate in Hi. apply lookup_replicate. done.
Qed.
(** ** Iteration and destruction *)

(** A loop that runs [step] until it returns NULL. *)
Fixpoint visit (n : nat) (step : hashtable K D Pool -> result (option D * hashtable K D Pool))
    t (d : option D) : result (list D) :=
  match d, n with
  | None, _ => Ok []
  | Some _, O => Fault OutOfFuel
  | Some d, S n => '(d', t') ← step t; ds ← visit n step t' d'; Ok (d :: ds)
  end.

Definition forward t : result (list D) :=
  '(d, t') ← globus_hashtable_first t; visit (S (size (entries t))) globus_hashtable_next t' d.
Definition backward t : result (list D) :=
  '(d, t') ← globus_hashtable_last t; visit (S (size (entries t))) globus_hashtable_prev t' d.

(** The data of a list of entries. *)
Definition data (es : gmap loc (bucket_entry K D)) (ls : list loc) : list D :=
  omap (fun l => datum <$> es !! l) ls.

Lemma data_contents t blks : shape t blks -> data (entries t) (all_of blks) ≡ₚ (contents t).*2.
Proof.
  intros Hsh. set (f l := (fun x => (l, x)) <$> kd (entries t) !! l).
  assert (map_to_list (kd (entries t)) ≡ₚ omap f (all_of blks)) as Hperm.
  { apply NoDup_Permutation; [apply NoDup_map_to_list| |].
    - pose proof (sh_nodup _ _ Hsh) as Hnd. induction Hnd as [|l ls Hl Hnd IH]; [apply NoDup_nil_2|]. cbn [omap list_omap].
      destruct (f l) as [y|] eqn:E; [|done]. apply NoDup_cons. split; [|done].
      intros (l' & Hl' & E')%list_elem_of_omap. unfold f in E, E'. apply Hl.
      destruct (kd (entries t) !! l), (kd (entries t) !! l'); naive_solver.
    - intros [l x]. rewrite elem_of_map_to_list, list_elem_of_omap. unfold f. split.
      + intros Hx. exists l. rewrite Hx. split; [|done].
        apply (elem_of_list_to_set (C := gset loc)). rewrite <- (sh_dom _ _ Hsh). apply elem_of_dom.
        unfold kd in Hx. rewrite lookup_fmap in Hx. destruct (entries t !! l); done.
      + intros (l' & _ & E). destruct (kd (entries t) !! l') eqn:E'; naive_solver. }
  unfold contents. rewrite Hperm. clear Hperm.
  induction (all_of blks) as [|l ls IH]; [done|]. unfold data in *. cbn [omap list_omap]. unfold f, kd at 1.
  rewrite lookup_fmap. destruct (entries t !! l); cbn; [by rewrite IH|done].
Qed.

(** The data in the two directions, from a list of entries. *)
Lemma walk_spec n es p ls q :
  seg es p ls None -> q = hd_or ls None -> (length ls <= n)%nat ->
  exists lds, walk n es q = Ok lds /\ lds.*1 = ls /\ lds.*2 = data es ls.
Proof.
  revert p ls q. induction n as [|n IH]; intros p ls q Hs -> Hn; (destruct ls as [|l ls]; [by exists []|]); [cbn in *; lia|].
  destruct Hs as (e & He & _ & Hx & Hs). cbn [walk hd_or]. unfold mbind, result_bind. rewrite He. cbn [deref].
  destruct (IH (Some l) ls (next e) Hs Hx) as (lds & -> & <- & E); [cbn in *; lia|].
  exists ((l, datum e) :: lds). split_and!; [done..|]. cbn. by rewrite He, E.
Qed.

Lemma visit_next_spec n t p ls d :
  seg (entries t) p ls None -> current t = hd_or ls None -> current_datum t = Ok d -> (length ls <= n)%nat ->
  visit n globus_hashtable_next t d = Ok (data (entries t) ls).
Proof.
  revert t p ls d. induction n as [|n IH]; intros t p ls d Hs Hc Hd Hn; unfold current_datum in Hd; rewrite Hc in Hd;
    (destruct ls as [|l ls]; [by simplify_eq/=|]); [cbn in *; lia|].
  destruct Hs as (e & He & _ & Hx & Hs). cbn [hd_or] in *. unfold mbind, result_bind in Hd. rewrite He in Hd. cbn in Hd.
  simplify_eq. cbn [visit]. set (t' := set_current t (next e)).
  assert (exists d', current_datum t' = Ok d') as (d' & Hd').
  { unfold current_datum, t'. cbn. rewrite Hx. destruct ls as [|l' ls]; cbn; [by eexists|].
    destruct Hs as (e' & -> & _). by eexists. }
  assert (globus_hashtable_next t = Ok (d', t')) as Hstep.
  { unfold globus_hashtable_next, mbind, result_bind. rewrite Hc, He. cbn [deref]. fold t'. by rewrite Hd'. }
  rewrite Hstep. unfold mbind, result_bind. rewrite (IH t' (Some l) ls); [cbn; by rewrite He|done|done|done|cbn in *; lia].
Qed.

Lemma visit_prev_spec n t ls q d :
  seg (entries t) None ls q -> current t = last_or ls None -> current_datum t = Ok d -> (length ls <= n)%nat ->
  visit n globus_hashtable_prev t d = Ok (rev (data (entries t) ls)).
Proof.
  revert t ls q d. induction n as [|n IH]; intros t ls q d Hs Hc Hd Hn; unfold current_datum in Hd; rewrite Hc in Hd;
    (destruct (last_or_None_cases ls) as [[-> _]|(ls' & l & -> & Hl)]; [by simplify_eq/=|]);
    rewrite ?length_app in Hn; [cbn in *; lia|].
  rewrite Hl in *. apply seg_app in Hs as [Hs (e & He & Hp & _)]. cbn [hd_or] in Hs.
  unfold mbind, result_bind in Hd. rewrite He in Hd. cbn in Hd.
  simplify_eq. cbn [visit]. set (t' := set_current t (prev e)).
  assert (exists d', current_datum t' = Ok d') as (d' & Hd').
  { unfold current_datum, t'. cbn. rewrite Hp.
    destruct (last_or_None_cases ls') as [[_ ->]|(ls2 & l2 & -> & ->)]; [by eexists|].
    apply seg_middle in Hs as (e' & He' & _). cbn. rewrite He'. by eexists. }
  assert (globus_hashtable_prev t = Ok (d', t')) as Hstep.
  { unfold globus_hashtable_prev, mbind, result_bind. rewrite Hc, He. cbn [deref]. fold t'. by rewrite Hd'. }
  rewrite Hstep. unfold mbind, result_bind. rewrite (IH t' ls' (Some l)); [|done|done|done|cbn in *; lia].
  unfold data. rewrite omap_app. cbn. rewrite He. cbn. by rewrite rev_app_distr.
Qed.
Lemma destroy_loop_spec n (es : gmap loc (bucket_entry K D)) p ls q mem :
  seg es p ls None -> q = hd_or ls None -> (length ls <= n)%nat -> NoDup ls ->
  np_ok mem -> (forall l, l ∈ ls -> l ∈ np_live mem) ->
  exists es' mem', destroy_loop n es q mem = Ok (es', mem') /\ np_ok mem' /\
    np_live mem' = (np_live mem ∖ list_to_set ls) /\ dom es' = (dom es ∖ list_to_set ls).
Proof.
  revert es p ls q mem. induction n as [|n IH]; intros es p ls q mem Hs -> Hn Hnd Hok Hlive;
    (destruct ls as [|l ls]; [exists es, mem; split_and!; [done|done|set_solver..]|]); [cbn in *; lia|].
  destruct Hs as (e & He & _ & Hx & Hs). cbn [destroy_loop hd_or]. unfold mbind, result_bind. rewrite He. cbn [deref].
  apply NoDup_cons in Hnd as [Hl Hnd]. destruct (np_push_ok mem l Hok) as [Hok1 Hlive1]; [set_solver|].
  destruct (IH (delete l es) (Some l) ls (next e) (np_push l mem)) as (es' & mem' & -> & Hok' & Hlive' & Hdom');
    [|done|cbn in *; lia|done|done|set_solver|].
  { eapply seg_frame; [done|]. intros x Hx'. apply lookup_delete_ne. by intros ->. }
  exists es', mem'. split_and!; [done|done|rewrite Hlive', Hlive1; set_solver|].
  rewrite Hdom', dom_delete_L. set_solver.
Qed.

(** Iterating over a table with [first] and [next] until NULL, or with
    [last] and [prev], visits the datum of every mapping exactly once and ends;
    the two directions are the reverse of each other, and [to_list] returns the
    same data. *)
Theorem hashtable_iterate t al :
  represents t al ->
  exists ds, ds ≡ₚ al.*2 /\ forward t = Ok ds /\ backward t = Ok (rev ds) /\
    globus_hashtable_to_list t = Ok (GLOBUS_SUCCESS, rev ds).
Proof.
  intros (blks & Hsh & Hal). exists (data (entries t) (all_of blks)). pose proof (sh_list _ _ Hsh) as Hseg.
  assert (length (all_of blks) <= S (size (entries t)))%nat as Hlen by (rewrite (shape_length t blks Hsh); lia).
  split; [by rewrite Hal, data_contents|].
  assert (forall p, (forall l, p = Some l -> l ∈ all_of blks) -> exists d, current_datum (set_current t p) = Ok d) as Hcur.
  { intros [l|] Hp; [|by eexists]. destruct (seg_dom _ _ _ _ l Hseg (Hp l eq_refl)) as [e He].
    unfold current_datum, mbind, result_bind. cbn. rewrite He. by eexists. }
  unfold forward, backward, globus_hashtable_first, globus_hashtable_last, globus_hashtable_to_list, mbind, result_bind.
  destruct (Hcur (tfirst t)) as (d1 & Hd1); [|destruct (Hcur (tlast t)) as (d2 & Hd2)].
  - intros l. rewrite (sh_first _ _ Hsh). destruct (all_of blks); cbn; [done|]. intros [= ->]. by left.
  - intros l. rewrite (sh_last _ _ Hsh). unfold last_or. destruct (last (all_of blks)) eqn:E; [|done].
    intros [= ->]. by apply last_Some_elem_of.
  - rewrite Hd1, Hd2. split_and!.
    + apply (visit_next_spec _ (set_current t (tfirst t)) None); [done|apply (sh_first _ _ Hsh)|done|done].
    + apply (visit_prev_spec _ (set_current t (tlast t)) _ None); [done|apply (sh_last _ _ Hsh)|done|done].
    + destruct (walk_spec (S (size (entries t))) (entries t) None (all_of blks) (tfirst t) Hseg) as (lds & -> & _ & ->);
        [apply (sh_first _ _ Hsh)|done|done].
Qed.

(** [globus_hashtable_destroy] gives every entry back to the pool before it
    destroys the pool: no entry is left and none is in use. [destroy_all] passes
    the datum of every mapping to the destructor exactly once before that. *)
Theorem hashtable_destroy_correct t al :
  represents t al ->
  exists ds mem, globus_hashtable_destroy t = Ok (GLOBUS_SUCCESS, ∅, mem) /\
    globus_hashtable_destroy_all t = Ok (ds, ∅, mem) /\ ds ≡ₚ al.*2 /\ np_ok mem /\ np_live mem = ∅.
Proof.
  intros (blks & Hsh & Hal). pose proof (sh_list _ _ Hsh) as Hseg. destruct (sh_pool _ _ Hsh) as [Hok Hlive].
  assert (length (all_of blks) <= S (size (entries t)))%nat as Hlen by (rewrite (shape_length t blks Hsh); lia).
  destruct (destroy_loop_spec _ _ _ _ (tfirst t) (memory t) Hseg (sh_first _ _ Hsh) Hlen (sh_nodup _ _ Hsh) Hok)
    as (es' & mem & Hrun & Hok' & Hlive' & Hdom').
  { intros l Hl. rewrite Hlive, (sh_dom _ _ Hsh). by apply elem_of_list_to_set. }
  rewrite (sh_dom _ _ Hsh), difference_diag_L in Hdom'. apply dom_empty_inv_L in Hdom' as ->.
  destruct (walk_spec _ _ _ _ (tfirst t) Hseg (sh_first _ _ Hsh) Hlen) as (lds & Hwalk & _ & Hlds).
  exists (data (entries t) (all_of blks)), mem.
  unfold globus_hashtable_destroy_all, globus_hashtable_destroy, mbind, result_bind. rewrite Hrun, Hwalk, Hlds.
  split_and!; [done|done|by rewrite Hal, data_contents|done|].
  rewrite Hlive', Hlive, (sh_dom _ _ Hsh). apply difference_diag_L.
Qed.
End Shape.
(** ** The hash functions of the library

    A [void *] is a 64-bit address or integer, [char] is signed. *)

(** The characters before the terminating NUL, each between 1 and 255. *)
Definition globus_hashtable_string_hash (string : list Z) (limit : Z) : Z :=
  swrap 32 (fold_left (fun h c => uwrap 64 (131 * h + swrap 8 c)) string 0 mod uwrap 64 limit).

Definition globus_hashtable_string_keyeq (string1 string2 : list Z) : bool := bool_decide (string1 = string2).

Definition globus_hashtable_voidp_hash (voidp limit : Z) : Z :=
  let key := uwrap 64 voidp in
  swrap 32 (Z.lxor (uwrap 64 (Z.shiftl key 32)) (Z.shiftr key 32) mod uwrap 64 limit).

Definition globus_hashtable_voidp_keyeq (voidp1 voidp2 : Z) : bool := voidp1 =? voidp2.

Definition globus_hashtable_int_hash (integer limit : Z) : Z := swrap 32 (Z.rem (swrap 64 integer) limit).

Definition globus_hashtable_int_keyeq (integer1 integer2 : Z) : bool := integer1 =? integer2.

Definition globus_hashtable_ulong_hash (integer limit : Z) : Z :=
  swrap 32 (uwrap 64 integer mod uwrap 64 limit).

Definition globus_hashtable_ulong_keyeq (integer1 integer2 : Z) : bool := integer1 =? integer2.

Lemma hash_mod_bound h limit :
  0 < limit <= INT_MAX -> 0 <= swrap 32 (h mod uwrap 64 limit) < limit.
Proof.
  intros Hl. assert (INT_MAX < 2 ^ 31 < 2 ^ 64) as Hmax by done. unfold uwrap. rewrite (Z.mod_small limit) by lia.
  pose proof (Z.mod_pos_bound h limit ltac:(lia)). rewrite swrap_small; cbn; lia.
Qed.

#[export] Instance string_keys : HashKeys globus_hashtable_string_hash globus_hashtable_string_keyeq.
Proof.
  unfold globus_hashtable_string_keyeq. split; intros *; rewrite ?bool_decide_eq_true; try congruence.
  apply hash_mod_bound.
Qed.

#[export] Instance voidp_keys : HashKeys globus_hashtable_voidp_hash globus_hashtable_voidp_keyeq.
Proof.
  unfold globus_hashtable_voidp_keyeq. split; intros *; rewrite ?Z.eqb_eq; try congruence.
  apply hash_mod_bound.
Qed.

#[export] Instance ulong_keys : HashKeys globus_hashtable_ulong_hash globus_hashtable_ulong_keyeq.
Proof.
  unfold globus_hashtable_ulong_keyeq. split; intros *; rewrite ?Z.eqb_eq; try congruence.
  apply hash_mod_bound.
Qed.

(** The hash of an [int] key is a bucket only when the key is not negative: C's
    remainder takes the sign of the key. *)
Lemma int_hash_negative k limit :
  0 < limit <= INT_MAX -> - 2 ^ 63 <= k < 2 ^ 63 ->
  (0 <= globus_hashtable_int_hash k limit < limit <-> 0 <= k \/ (limit | k)).
Proof.
  intros Hl Hk. assert (INT_MAX < 2 ^ 31) as Hmax by done. unfold globus_hashtable_int_hash.
  rewrite (swrap_small 64) by (cbn in *; lia).
  pose proof (Z.rem_bound_abs k limit ltac:(lia)). rewrite swrap_small by (cbn; lia).
  rewrite <- Z.rem_divide by lia. destruct (Z.le_gt_cases 0 k).
  - pose proof (Z.rem_bound_pos k limit ltac:(lia) ltac:(lia)). lia.
  - pose proof (Z.rem_nonpos k limit ltac:(lia) ltac:(lia)). lia.
Qed.
(** ** A concrete table: three buckets, integer keys *)

#[local] Existing Instance Memory.memory_pool.
#[local] Existing Instance Memory.memory_pool_laws.

Definition example_empty : hashtable Z Z Memory.memory :=
  HT 3 0 (replicate 3 (Bucket None None)) None None None Memory.example_pool ∅.

Abbreviation example_run := (hrun globus_hashtable_ulong_hash globus_hashtable_ulong_keyeq) (only parsing).

Definition do_insert (k d : Z) (t : hashtable Z Z Memory.memory) : hashtable Z Z Memory.memory :=
  match globus_hashtable_insert globus_hashtable_ulong_hash globus_hashtable_ulong_keyeq t k d with
  | Ok (_, t') => t'
  | Fault _ => t
  end.

Definition example_table : hashtable Z Z Memory.memory := do_insert 4 40 (do_insert 8 80 (do_insert 7 70 example_empty)).

Lemma example_empty_ok :
  represents globus_hashtable_ulong_hash globus_hashtable_ulong_keyeq example_empty [].
Proof.
  destruct (empty_represents (D := Z) globus_hashtable_ulong_hash globus_hashtable_ulong_keyeq Memory.example_pool 3)
    as (t & [= <-] & Ht); [done|exact Memory.example_pool_ok|by vm_compute|]. exact Ht.
Qed.

Lemma do_insert_ok t al k d :
  represents globus_hashtable_ulong_hash globus_hashtable_ulong_keyeq t al ->
  find globus_hashtable_ulong_keyeq al k = None -> hop_ok t (HInsert k d) ->
  represents globus_hashtable_ulong_hash globus_hashtable_ulong_keyeq (do_insert k d t) ((k, d) :: al).
Proof.
  intros Ht Hk Hok. destruct (hashtable_step _ _ t al _ Ht Hok) as (t' & Hrun & Ht').
  cbn [himpl hspec] in *. rewrite Hk in *. apply result_bind_Ok in Hrun as ([rc t''] & Hrun & [= -> ->]).
  unfold do_insert. by rewrite Hrun.
Qed.

Ltac example_ops :=
  repeat (split; [split; [by vm_compute|first [exact I|split; [by vm_compute|eexists _, _; vm_compute; reflexivity]]]|];
          intros ? ? E; vm_compute in E; injection E as _ <-); exact I.

Definition example_hops : list (@hop Z Z) :=
  [HInsert 7 70; HInsert 8 80; HInsert 4 40; HInsert 7 0; HLookup 4; HUpdate 8 81; HRemove 7; HLookup 7; HSize].

Lemma example_hops_spec :
  hspec_run globus_hashtable_ulong_keyeq [] example_hops =
    ([OStatus 0; OStatus 0; OStatus 0; OStatus (-1); ODatum (Some 40); ODatum (Some 80); ODatum (Some 70);
      ODatum None; OSize 2], [(8, 81); (4, 40)]).
Proof. by vm_compute. Qed.

Lemma hashtable_refines_witness :
  exists t', example_run example_empty example_hops =
      Ok ([OStatus 0; OStatus 0; OStatus 0; OStatus (-1); ODatum (Some 40); ODatum (Some 80); ODatum (Some 70);
           ODatum None; OSize 2], t') /\
    represents globus_hashtable_ulong_hash globus_hashtable_ulong_keyeq t' [(8, 81); (4, 40)].
Proof.
  destruct (hashtable_refines _ _ example_empty [] example_hops example_empty_ok) as (t' & Hrun & Ht').
  - example_ops.
  - rewrite example_hops_spec in Hrun, Ht'. exists t'. split; [exact Hrun|exact Ht'].
Defined.

Lemma example_table_ok :
  represents globus_hashtable_ulong_hash globus_hashtable_ulong_keyeq example_table [(4, 40); (8, 80); (7, 70)].
Proof.
  unfold example_table.
  repeat (apply do_insert_ok; [|done|split; [by vm_compute|split; [by vm_compute|eexists _, _; vm_compute; reflexivity]]]).
  exact example_empty_ok.
Qed.

Lemma hashtable_iterate_witness :
  exists ds, ds ≡ₚ [40; 80; 70] /\ forward example_table = Ok ds /\ backward example_table = Ok (rev ds) /\
    globus_hashtable_to_list example_table = Ok (GLOBUS_SUCCESS, rev ds).
Proof. exact (hashtable_iterate _ _ example_table _ example_table_ok). Defined.

Lemma hashtable_destroy_correct_witness :
  exists ds mem, globus_hashtable_destroy example_table = Ok (GLOBUS_SUCCESS, ∅, mem) /\
    globus_hashtable_destroy_all example_table = Ok (ds, ∅, mem) /\ ds ≡ₚ [40; 80; 70] /\ np_ok mem /\ np_live mem = ∅.
Proof. exact (hashtable_destroy_correct _ _ example_table _ example_table_ok). Defined.
End Hashtable.
