(* ===== verification/Chars.v ===== *)
(** * Characters and C strings

    A character is its code between 0 and 255. A C string is the list of its
    characters before the terminating NUL, a buffer the list of its bytes. The
    character classes are those of the "C" locale (<ctype.h>). *)
From S2P Require Import Prelude.
Local Open Scope Z_scope.

(** The codes of the characters of a literal. *)
Definition codes (s : string) : list Z := (fun c => Z.of_N (Ascii.N_of_ascii c)) <$> String.list_ascii_of_string s.

Definition isspace (c : Z) : bool := (c =? 32) || (9 <=? c) && (c <=? 13).
Definition isdigit (c : Z) : bool := (48 <=? c) && (c <=? 57).
Definition isupper (c : Z) : bool := (65 <=? c) && (c <=? 90).
Definition islower (c : Z) : bool := (97 <=? c) && (c <=? 122).
Definition isalpha (c : Z) : bool := isupper c || islower c.
Definition isalnum (c : Z) : bool := isalpha c || isdigit c.
Definition isxdigit (c : Z) : bool := isdigit c || (65 <=? c) && (c <=? 70) || (97 <=? c) && (c <=? 102).
Definition toupper (c : Z) : Z := if islower c then c - 32 else c.
Definition tolower (c : Z) : Z := if isupper c then c + 32 else c.
Definition lower (s : list Z) : list Z := tolower <$> s.

(** [strcasecmp(a, b) == 0] *)
Definition strcaseeq (a b : list Z) : bool := bool_decide (lower a = lower b).

(** [s[pos]], NUL at the end of the string. *)
Definition char_at (s : list Z) (pos : nat) : Z := nth pos s 0.

(** The C string in a buffer: the characters before the first NUL. *)
Fixpoint cstring (buf : list Z) : list Z :=
  match buf with
  | [] => []
  | c :: buf => if c =? 0 then [] else c :: cstring buf
  end.

Definition nonzero (s : list Z) : Prop := Forall (fun c => c <> 0) s.

Lemma cstring_app s rest : nonzero s -> cstring (s ++ 0 :: rest) = s.
Proof.
  induction 1 as [|c s Hc Hs IH]; [done|]. cbn [app cstring]. apply Z.eqb_neq in Hc. by rewrite Hc, IH.
Qed.

Lemma cstring_id s : nonzero s -> cstring s = s.
Proof. induction 1 as [|c s Hc Hs IH]; [done|]. cbn [cstring]. apply Z.eqb_neq in Hc. by rewrite Hc, IH. Qed.

(** The number of leading characters in a class: [while(P(s[pos])) pos++]. The
    loop stops at the NUL, which is in no class. *)
Fixpoint span (P : Z -> bool) (s : list Z) : nat :=
  match s with
  | c :: s => if P c then S (span P s) else O
  | [] => O
  end.

Lemma span_app P s rest :
  Forall (fun c => P c = true) s -> P (char_at rest 0) = false \/ rest = [] -> span P (s ++ rest) = length s.
Proof.
  intros Hs Hr. induction Hs as [|c s Hc Hs IH]; cbn.
  - destruct rest as [|c rest]; [done|]. cbn in *. destruct Hr as [-> | [=]]. done.
  - by rewrite Hc, IH.
Qed.

Lemma char_at_app s rest : char_at (s ++ rest) (length s) = char_at rest 0.
Proof. unfold char_at. rewrite app_nth2 by lia. by rewrite Nat.sub_diag. Qed.

(** ** Decimal numbers *)

(** The value of a string of digits. *)
Definition digits_value (s : list Z) : Z := fold_left (fun n c => 10 * n + (c - 48)) s 0.

Lemma digits_nonneg s : Forall (fun c => isdigit c = true) s -> 0 <= digits_value s.
Proof.
  intros Hs. unfold digits_value. assert (forall n, 0 <= n -> 0 <= fold_left (fun n c => 10 * n + (c - 48)) s n) as H; [|by apply H].
  induction Hs as [|c s Hc Hs IH]; intros n Hn; cbn [fold_left]; [done|]. unfold isdigit in Hc.
  rewrite andb_true_iff, !Z.leb_le in Hc. apply IH. lia.
Qed.

(** The decimal digits of a number below 10^20, which every 64-bit number is,
    from the last to the first; [printf("%d")]. *)
Fixpoint digits_rev (k : nat) (n : Z) : list Z :=
  match k with
  | O => []
  | S k => 48 + n mod 10 :: if n / 10 =? 0 then [] else digits_rev k (n / 10)
  end.

Definition decimal (n : Z) : list Z := if n <? 0 then 45 :: rev (digits_rev 20 (- n)) else rev (digits_rev 20 n).

Lemma digits_rev_digit k n : Forall (fun c => isdigit c = true) (digits_rev k n).
Proof.
  revert n. induction k as [|k IH]; intros n; cbn [digits_rev]; constructor.
  - unfold isdigit. apply andb_true_iff. rewrite !Z.leb_le. pose proof (Z.mod_pos_bound n 10). lia.
  - by destruct (n / 10 =? 0).
Qed.

Lemma digits_value_rev k n : 0 <= n < 10 ^ Z.of_nat k -> digits_value (rev (digits_rev k n)) = n.
Proof.
  revert n. induction k as [|k IH]; intros n Hn; [cbn in *; lia|]. cbn [digits_rev rev].
  unfold digits_value. rewrite fold_left_app. cbn [fold_left]. fold (digits_value (rev (if n / 10 =? 0 then [] else digits_rev k (n / 10)))).
  rewrite Nat2Z.inj_succ, Z.pow_succ_r in Hn by lia. destruct (Z.eqb_spec (n / 10) 0) as [E|E].
  - cbn. Z.to_euclidean_division_equations. lia.
  - rewrite IH; Z.to_euclidean_division_equations; lia.
Qed.

Lemma digits_rev_length k j n : 0 <= n < 10 ^ Z.of_nat (S j) -> (length (digits_rev k n) <= S j)%nat.
Proof.
  revert j n. induction k as [|k IH]; intros j n Hn; [cbn; lia|]. cbn [digits_rev length].
  destruct (Z.eqb_spec (n / 10) 0) as [E|E]; [cbn; lia|]. destruct j as [|j].
  - change (10 ^ Z.of_nat 1) with 10 in Hn. exfalso. apply E, Z.div_small. lia.
  - apply le_n_S, IH. rewrite Nat2Z.inj_succ, Z.pow_succ_r in Hn by lia. Z.to_euclidean_division_equations. lia.
Qed.

Lemma decimal_length z : INT_MIN <= z <= INT_MAX -> (length (decimal z) <= 11)%nat.
Proof.
  unfold INT_MIN, INT_MAX. intros Hz. unfold decimal. destruct (Z.ltb_spec z 0); cbn [length]; rewrite length_rev.
  - apply le_n_S, digits_rev_length. change (10 ^ Z.of_nat 10) with 10000000000. lia.
  - etrans; [apply (digits_rev_length 20 9)|lia]. change (10 ^ Z.of_nat 10) with 10000000000. lia.
Qed.

Lemma decimal_chars z : Forall (fun c => c = 45 \/ isdigit c = true) (decimal z).
Proof.
  assert (forall n, Forall (fun c => c = 45 \/ isdigit c = true) (rev (digits_rev 20 n))) as H.
  { intros n. apply Forall_rev. eapply Forall_impl; [apply digits_rev_digit|]. by right. }
  unfold decimal. destruct (z <? 0); [constructor; [by left|]|]; apply H.
Qed.
