(* ===== verification/Stdio.v ===== *)
(** * Formatted input and output

    What the sources use of <stdio.h> and <stdlib.h>: numbers read as [strtol]
    does, [sscanf] for the formats that occur, and [sprintf] to the end of the
    string in a block of a known size. *)
From S2P Require Import Prelude.
From S2P Require Import Chars.
Local Open Scope Z_scope.

(** ** Numbers *)

Definition skip_space (s : list Z) : list Z := drop (span isspace s) s.

(** White space, a sign, digits: the number and the rest. *)
Definition scan_int (s : list Z) : option (Z * list Z) :=
  let s := skip_space s in
  let '(neg, s) :=
    if char_at s 0 =? 45 then (true, drop 1 s) else if char_at s 0 =? 43 then (false, drop 1 s) else (false, s) in
  let n := span isdigit s in
  if (n =? 0)%nat then None
  else let v := digits_value (take n s) in Some (if neg : bool then - v else v, drop n s).

(** A number that does not fit is cut to the limits of [long]. *)
Definition clamp64 (z : Z) : Z := Z.max INT64_MIN (Z.min INT64_MAX z).
Definition strtol (s : list Z) : Z := match scan_int s with Some (v, _) => clamp64 v | None => 0 end.
Definition atoi (s : list Z) : Z := swrap 32 (strtol s).

Lemma clamp64_id z : INT64_MIN <= z <= INT64_MAX -> clamp64 z = z.
Proof. unfold clamp64. lia. Qed.

Lemma skip_no_space s : isspace (char_at s 0) = false -> skip_space s = s.
Proof. intros H. unfold skip_space. assert (span isspace s = 0%nat) as ->; [|done]. apply (span_app isspace [] s); [done|by left]. Qed.

Lemma digit_not_space c : isdigit c = true -> isspace c = false /\ c <> 45 /\ c <> 43 /\ c <> 0.
Proof. unfold isdigit, isspace. rewrite andb_true_iff, !Z.leb_le. intros ?. split_and!; [zcase; done|lia..]. Qed.

Lemma scan_unsigned d rest :
  Forall (fun c => isdigit c = true) d -> d <> [] -> isdigit (char_at rest 0) = false ->
  scan_int (d ++ rest) = Some (digits_value d, rest).
Proof.
  intros Hd Hne Hr. destruct d as [|c d]; [done|]. assert (isdigit c = true) as Hc by (by apply Forall_cons in Hd as [? _]).
  destruct (digit_not_space c Hc) as (H1 & H2 & H3 & _). apply Z.eqb_neq in H2, H3.
  unfold scan_int. rewrite skip_no_space by done. change (char_at ((c :: d) ++ rest) 0) with c. rewrite H2, H3. cbv iota.
  rewrite (span_app isdigit (c :: d) rest) by (try done; by left). cbn [length Nat.eqb].
  change (S (length d)) with (length (c :: d)). by rewrite take_app_length, drop_app_length.
Qed.

Lemma scan_negative d rest :
  Forall (fun c => isdigit c = true) d -> d <> [] -> isdigit (char_at rest 0) = false ->
  scan_int (45 :: d ++ rest) = Some (- digits_value d, rest).
Proof.
  intros Hd Hne Hr. unfold scan_int. rewrite skip_no_space by done. change (char_at (45 :: d ++ rest) 0 =? 45) with true. cbv iota.
  cbn [drop]. rewrite drop_0, span_app by (try done; by left). destruct d as [|c d]; [done|]. cbn [length Nat.eqb].
  change (S (length d)) with (length (c :: d)). by rewrite take_app_length, drop_app_length.
Qed.

Lemma digits_rev_ne k n : rev (digits_rev (S k) n) <> [].
Proof. intros E%(f_equal length). by rewrite length_rev in E. Qed.

(** Reading what was printed. *)
Lemma scan_int_decimal z rest :
  - 10 ^ 20 < z < 10 ^ 20 -> isdigit (char_at rest 0) = false -> scan_int (decimal z ++ rest) = Some (z, rest).
Proof.
  intros Hz Hr. unfold decimal. destruct (Z.ltb_spec z 0).
  - cbn [app]. rewrite scan_negative; [|apply Forall_rev, digits_rev_digit|apply digits_rev_ne|done].
    rewrite digits_value_rev by (change (Z.of_nat 20) with 20; lia). do 2 f_equal. lia.
  - rewrite scan_unsigned; [|apply Forall_rev, digits_rev_digit|apply digits_rev_ne|done].
    by rewrite digits_value_rev by (change (Z.of_nat 20) with 20; lia).
Qed.

Lemma strtol_decimal z rest :
  INT64_MIN <= z <= INT64_MAX -> isdigit (char_at rest 0) = false -> strtol (decimal z ++ rest) = z.
Proof.
  intros Hz Hr. unfold strtol. rewrite scan_int_decimal; [by apply clamp64_id| |done]. unfold INT64_MIN, INT64_MAX in Hz. lia.
Qed.

Lemma atoi_decimal z : INT_MIN <= z <= INT_MAX -> atoi (decimal z) = z.
Proof.
  intros Hz. unfold atoi. rewrite <- (app_nil_r (decimal z)), strtol_decimal by (try done; unfold INT_MIN, INT_MAX, INT64_MIN, INT64_MAX in *; lia).
  unfold INT_MIN, INT_MAX in Hz. apply swrap_small; lia.
Qed.

Lemma atoi_digits d :
  Forall (fun c => isdigit c = true) d -> d <> [] -> atoi d = swrap 32 (Z.min (digits_value d) INT64_MAX).
Proof.
  intros Hd Hne. pose proof (digits_nonneg d Hd). unfold atoi, strtol. rewrite <- (app_nil_r d) at 1. rewrite scan_unsigned by done.
  unfold clamp64, INT64_MIN, INT64_MAX. f_equal. lia.
Qed.

(** ** sscanf *)

(** The directives of a format: literal text, white space, ["%d"] or ["%ld"] with a
    width (none if it is 0) and the size of the integer, ["%s"], ["%[^...]"]. *)
Inductive directive :=
| Lit (s : list Z)
| Space
| Dec (width : nat) (bits : Z)
| Str
| NotIn (set : list Z).

Inductive arg := AInt (z : Z) | AStr (s : list Z).

Fixpoint strip (p s : list Z) : option (list Z) :=
  match p, s with
  | [], _ => Some s
  | c :: p, d :: s => if c =? d then strip p s else None
  | _, _ => None
  end.

Definition in_set (set : list Z) (c : Z) : bool := existsb (Z.eqb c) set.

(** The number of at most [width] characters. *)
Definition scan_width (width : nat) (s : list Z) : option (Z * list Z) :=
  let s := skip_space s in
  match width with
  | O => scan_int s
  | _ => '(v, r) ← scan_int (take width s); Some (v, drop (length (take width s) - length r) s)
  end.

(** The values that were converted and, if every directive matched, the rest of the
    string. *)
Fixpoint sscanf (f : list directive) (s : list Z) : list arg * option (list Z) :=
  match f with
  | [] => ([], Some s)
  | Lit p :: f => match strip p s with Some s => sscanf f s | None => ([], None) end
  | Space :: f => sscanf f (skip_space s)
  | Dec w bits :: f =>
      match scan_width w s with
      | Some (v, s) => let '(l, r) := sscanf f s in (AInt (swrap bits (clamp64 v)) :: l, r)
      | None => ([], None)
      end
  | Str :: f =>
      let s := skip_space s in
      let n := span (fun c => negb (isspace c)) s in
      if (n =? 0)%nat then ([], None) else let '(l, r) := sscanf f (drop n s) in (AStr (take n s) :: l, r)
  | NotIn set :: f =>
      let n := span (fun c => negb (in_set set c)) s in
      if (n =? 0)%nat then ([], None) else let '(l, r) := sscanf f (drop n s) in (AStr (take n s) :: l, r)
  end.

Lemma strip_app p s : strip p (p ++ s) = Some s.
Proof. induction p as [|c p IH]; [done|]. cbn. by rewrite Z.eqb_refl. Qed.

Lemma sscanf_lit p f s : sscanf (Lit p :: f) (p ++ s) = sscanf f s.
Proof. cbn [sscanf]. by rewrite strip_app. Qed.

Lemma sscanf_space f w s :
  Forall (fun c => isspace c = true) w -> isspace (char_at s 0) = false -> sscanf (Space :: f) (w ++ s) = sscanf f s.
Proof.
  intros Hw Hs. cbn [sscanf]. unfold skip_space. rewrite (span_app isspace w s) by (try done; by left). by rewrite drop_app_length.
Qed.

Lemma decimal_head z : isspace (char_at (decimal z) 0) = false /\ decimal z <> [].
Proof.
  unfold decimal. destruct (z <? 0); [done|]. pose proof (digits_rev_ne 19 z) as Hne.
  pose proof (Forall_rev (digits_rev_digit 20 z)) as Hd. destruct (rev (digits_rev 20 z)) as [|c d]; [done|].
  apply Forall_cons in Hd as [Hc _]. split; [|done]. by apply digit_not_space.
Qed.

Lemma decimal_head_app z s : isspace (char_at (decimal z ++ s) 0) = false.
Proof. destruct (decimal_head z) as [H Hne]. by destruct (decimal z). Qed.

Lemma sscanf_int f z s :
  INT_MIN <= z <= INT_MAX -> isdigit (char_at s 0) = false ->
  sscanf (Dec 0 32 :: f) (decimal z ++ s) = (AInt z :: (sscanf f s).1, (sscanf f s).2).
Proof.
  intros Hz Hs. cbn [sscanf scan_width]. rewrite skip_no_space by apply decimal_head_app.
  unfold INT_MIN, INT_MAX in Hz. rewrite scan_int_decimal by (done || lia).
  destruct (sscanf f s). rewrite clamp64_id by (unfold INT64_MIN, INT64_MAX; lia). by rewrite swrap_small by lia.
Qed.

Lemma sscanf_long f z s :
  INT64_MIN <= z <= INT64_MAX -> isdigit (char_at s 0) = false ->
  sscanf (Dec 0 64 :: f) (decimal z ++ s) = (AInt z :: (sscanf f s).1, (sscanf f s).2).
Proof.
  intros Hz Hs. cbn [sscanf scan_width]. rewrite skip_no_space by apply decimal_head_app.
  rewrite scan_int_decimal by (try done; unfold INT64_MIN, INT64_MAX in Hz; lia).
  destruct (sscanf f s). rewrite clamp64_id by done. unfold INT64_MIN, INT64_MAX in Hz. by rewrite swrap_small by lia.
Qed.

Lemma sscanf_str f w s :
  w <> [] -> Forall (fun c => isspace c = false) w -> s = [] \/ isspace (char_at s 0) = true ->
  sscanf (Str :: f) (w ++ s) = (AStr w :: (sscanf f s).1, (sscanf f s).2).
Proof.
  intros Hne Hw Hs. cbn [sscanf]. rewrite skip_no_space.
  2: { destruct w as [|c w]; [done|]. by apply Forall_cons in Hw as [? _]. }
  rewrite span_app; [|eapply Forall_impl; [exact Hw|]; by intros c ->|destruct Hs as [->|Hs]; [by right|left; by rewrite Hs]].
  rewrite take_app_length, drop_app_length. destruct w as [|c w]; [done|]. cbn [length Nat.eqb]. by destruct (sscanf f s).
Qed.

(** ** sprintf *)

(** [sprintf] at the end of the string in a block of [cap] bytes. *)
Definition sprintf_at (cap : Z) (buf s : list Z) : result (list Z) :=
  if Z.of_nat (length buf) + Z.of_nat (length s) + 1 <=? cap then Ok (buf ++ s) else Fault OutOfBounds.

Lemma sprintf_at_ok cap buf s :
  Z.of_nat (length (buf ++ s)) + 1 <= cap -> sprintf_at cap buf s = Ok (buf ++ s).
Proof. rewrite length_app. intros H. unfold sprintf_at. by rewrite (proj2 (Z.leb_le _ _)) by lia. Qed.

Lemma sprintf_at_full cap buf s :
  cap < Z.of_nat (length (buf ++ s)) + 1 -> sprintf_at cap buf s = Fault OutOfBounds.
Proof. rewrite length_app. intros H. unfold sprintf_at. by rewrite (proj2 (Z.leb_gt _ _)) by lia. Qed.
