(* ===== verification/Radix.v ===== *)
(** * Base64 tokens of the FTP control connection

    gridftp/control/source/globus_ftp_control_client.c carries security tokens
    in commands and replies as base64 text. The routines write into a buffer of
    the caller, modelled as a list of bytes: a write outside it is a fault. A
    byte is an integer between 0 and 255, a C string the list of its characters
    before the terminating NUL. The driver of
    gridftp/server-lib/src/globus_xio_gssapi_ftp.c has its own copy of the two
    routines. *)
From S2P Require Import Prelude.
From S2P Require Import Chars.
Local Open Scope Z_scope.

Module Radix.

Definition radixN : list Z := codes "ABCDEFGHIJKLMNOPQRSTUVWXYZabcdefghijklmnopqrstuvwxyz0123456789+/".
Definition pad : Z := 61.

(** The loop over the input: the final [i], [j], [c] and the output. *)
Fixpoint encode_loop (inbuf : list Z) (i j c : Z) (outbuf : list Z) : result (Z * Z * Z * list Z) :=
  match inbuf with
  | [] => Ok (i, j, c, outbuf)
  | b :: inbuf =>
      if i mod 3 =? 0 then
        d ← c_index radixN (Z.shiftr b 2);
        outbuf ← c_update outbuf j d;
        encode_loop inbuf (i + 1) (j + 1) (Z.shiftl (Z.land b 3) 4) outbuf
      else if i mod 3 =? 1 then
        d ← c_index radixN (Z.lor c (Z.shiftr b 4));
        outbuf ← c_update outbuf j d;
        encode_loop inbuf (i + 1) (j + 1) (Z.shiftl (Z.land b 15) 2) outbuf
      else
        d ← c_index radixN (Z.lor c (Z.shiftr b 6));
        outbuf ← c_update outbuf j d;
        d ← c_index radixN (Z.land b 63);
        outbuf ← c_update outbuf (j + 1) d;
        encode_loop inbuf (i + 1) (j + 2) 0 outbuf
  end.

(** The last digit, the padding and the NUL. *)
Definition encode_tail (i j c : Z) (outbuf : list Z) : result (Z * list Z) :=
  '(j, outbuf) ← (if negb (i mod 3 =? 0) then
                    d ← c_index radixN c; outbuf ← c_update outbuf j d; Ok (j + 1, outbuf)
                  else Ok (j, outbuf));
  '(j, outbuf) ← (if i mod 3 =? 1 then
                    outbuf ← c_update outbuf j pad;
                    outbuf ← c_update outbuf (j + 1) pad;
                    Ok (j + 2, outbuf)
                  else if i mod 3 =? 2 then
                    outbuf ← c_update outbuf j pad; Ok (j + 1, outbuf)
                  else Ok (j, outbuf));
  outbuf ← c_update outbuf j 0;
  Ok (j, outbuf).

(** The length of the output and the buffer, which is NUL terminated. *)
Definition globus_i_ftp_control_radix_encode (inbuf outbuf : list Z) : result (Z * list Z) :=
  '(i, j, c, outbuf) ← encode_loop inbuf 0 0 0 outbuf;
  encode_tail i j c outbuf.

(** [strchr(radixN, ch) - radixN] for a character that is not NUL. *)
Definition digit_of (ch : Z) : option Z := (fun p => Z.of_nat p.1) <$> list_find (fun d => d = ch) radixN.

(** [outbuf[j] |= d] *)
Definition or_at (outbuf : list Z) (j d : Z) : result (list Z) :=
  b ← c_index outbuf j; c_update outbuf j (uwrap 8 (Z.lor b d)).

(** The loop of the decoder: [None] at a character outside the alphabet, or the
    final [i], [j], [D], the rest of the input and the output. *)
Fixpoint decode_loop (inbuf : list Z) (i j D : Z) (outbuf : list Z) :
    result (option (Z * Z * Z * list Z * list Z)) :=
  match inbuf with
  | [] => Ok (Some (i, j, D, [], outbuf))
  | ch :: rest =>
      if ch =? pad then Ok (Some (i, j, D, inbuf, outbuf))
      else match digit_of ch with
      | None => Ok None
      | Some D =>
          if Z.land i 3 =? 0 then
            outbuf ← c_update outbuf j (uwrap 8 (Z.shiftl D 2));
            decode_loop rest (i + 1) j D outbuf
          else if Z.land i 3 =? 1 then
            outbuf ← or_at outbuf j (Z.shiftr D 4);
            outbuf ← c_update outbuf (j + 1) (uwrap 8 (Z.shiftl (Z.land D 15) 4));
            decode_loop rest (i + 1) (j + 1) D outbuf
          else if Z.land i 3 =? 2 then
            outbuf ← or_at outbuf j (Z.shiftr D 2);
            outbuf ← c_update outbuf (j + 1) (uwrap 8 (Z.shiftl (Z.land D 3) 6));
            decode_loop rest (i + 1) (j + 1) D outbuf
          else
            outbuf ← or_at outbuf j D;
            decode_loop rest (i + 1) (j + 1) D outbuf
      end
  end.

(** The checks of the padding. *)
Definition decode_tail (r : option (Z * Z * Z * list Z * list Z)) : option (Z * list Z) :=
  match r with
  | None => None
  | Some (i, j, D, rest, outbuf) =>
      if Z.land i 3 =? 1 then None
      else if (Z.land i 3 =? 2) && (negb (Z.land D 15 =? 0) || negb (bool_decide (rest = [pad; pad]))) then None
      else if (Z.land i 3 =? 3) && (negb (Z.land D 3 =? 0) || negb (bool_decide (rest = [pad]))) then None
      else Some (j, outbuf)
  end.

(** The length of the output and the buffer, or [None] for an error object. *)
Definition globus_i_ftp_control_radix_decode (inbuf outbuf : list Z) : result (option (Z * list Z)) :=
  r ← decode_loop inbuf 0 0 0 outbuf; Ok (decode_tail r).

(** The copies in the XIO driver. *)
Definition globus_l_xio_gssapi_ftp_radix_encode := globus_i_ftp_control_radix_encode.
Definition globus_l_xio_gssapi_ftp_radix_decode := globus_i_ftp_control_radix_decode.

(** ** The reference encoding (RFC 4648)

    Three bytes are a number of 24 bits, written with four digits in base 64; a
    last group of one or two bytes is filled with zero bits and padded. *)

Definition digit (n k : Z) : Z := nth (Z.to_nat (n / 64 ^ k mod 64)) radixN 0.

Fixpoint base64 (bs : list Z) : list Z :=
  match bs with
  | b0 :: b1 :: b2 :: bs =>
      let n := b0 * 2 ^ 16 + b1 * 2 ^ 8 + b2 in
      digit n 3 :: digit n 2 :: digit n 1 :: digit n 0 :: base64 bs
  | [b0; b1] => let n := b0 * 2 ^ 16 + b1 * 2 ^ 8 in [digit n 3; digit n 2; digit n 1; pad]
  | [b0] => let n := b0 * 2 ^ 16 in [digit n 3; digit n 2; pad; pad]
  | [] => []
  end.

Definition byte (b : Z) : Prop := 0 <= b < 256.

(** ** The alphabet *)

Lemma radix_index d : 0 <= d < 64 -> c_index radixN d = Ok (nth (Z.to_nat d) radixN 0).
Proof.
  intros Hd. apply c_index_ok; [lia|].
  destruct (nth_lookup_or_length radixN (Z.to_nat d) 0) as [->|Hl]; [done|].
  assert (length radixN = 64%nat) as E by done. lia.
Qed.

Lemma radix_nth d :
  0 <= d < 64 ->
  let ch := nth (Z.to_nat d) radixN 0 in digit_of ch = Some d /\ ch <> pad /\ 0 < ch < 256.
Proof.
  intros Hd. set (P d := let ch := nth d radixN 0 in
    bool_decide (digit_of ch = Some (Z.of_nat d)) && negb (ch =? pad) && (0 <? ch) && (ch <? 256)).
  assert (forallb P (seq 0 64) = true) as HP by (vm_compute; reflexivity).
  rewrite forallb_forall in HP. assert (P (Z.to_nat d) = true) as E by (apply HP, in_seq; lia).
  unfold P in E. cbv zeta in *.
  rewrite !andb_true_iff, bool_decide_eq_true, negb_true_iff, Z.eqb_neq, !Z.ltb_lt, Z2Nat.id in E by lia.
  tauto.
Qed.

Lemma digit_of_inv ch d : digit_of ch = Some d -> 0 <= d < 64 /\ ch = nth (Z.to_nat d) radixN 0.
Proof.
  unfold digit_of. intros ([i x] & Hf & ->)%fmap_Some. apply list_find_Some in Hf as (Hi & -> & _). cbn [fst].
  rewrite Nat2Z.id. apply lookup_lt_Some in Hi as Hl. assert (length radixN = 64%nat) as E by done.
  split; [lia|]. symmetry. by apply nth_lookup_Some.
Qed.

(** ** The encoder *)

(** Induction on groups of three. *)
Lemma group3_ind (P : list Z -> Prop) :
  P [] -> (forall a, P [a]) -> (forall a b, P [a; b]) -> (forall a b c l, P l -> P (a :: b :: c :: l)) -> forall l, P l.
Proof.
  intros H0 H1 H2 H3. fix IH 1. intros [|a [|b [|c l]]]; [done|apply H1|apply H2|apply H3, IH].
Qed.

(** The six-bit digits the code computes are those of the 24-bit number. *)
Lemma digits_arith b0 b1 b2 :
  byte b0 -> byte b1 -> byte b2 ->
  let n := b0 * 2 ^ 16 + b1 * 2 ^ 8 + b2 in
  Z.shiftr b0 2 = n / 64 ^ 3 mod 64 /\
  Z.lor (Z.shiftl (Z.land b0 3) 4) (Z.shiftr b1 4) = n / 64 ^ 2 mod 64 /\
  Z.lor (Z.shiftl (Z.land b1 15) 2) (Z.shiftr b2 6) = n / 64 ^ 1 mod 64 /\
  Z.land b2 63 = n / 64 ^ 0 mod 64.
Proof.
  intros H0 H1 H2 n. unfold byte in *.
  change 3 with (2 ^ 2 - 1) at 2. change 15 with (2 ^ 4 - 1). change 63 with (2 ^ 6 - 1).
  rewrite !land_ones_mod, !Z.shiftr_div_pow2, !Z.shiftl_mul_pow2 by lia.
  rewrite !lor_add by (Z.to_euclidean_division_equations; lia).
  subst n. cbn. split_and!; Z.to_euclidean_division_equations; lia.
Qed.

Lemma radix_digit n k : c_index radixN (n / 64 ^ k mod 64) = Ok (digit n k).
Proof. apply radix_index, Z.mod_pos_bound. done. Qed.

Lemma mod3_next i : i mod 3 = 0 -> (i + 1) mod 3 = 1 /\ (i + 1 + 1) mod 3 = 2 /\ (i + 3) mod 3 = 0.
Proof. Z.to_euclidean_division_equations. lia. Qed.

Lemma encode_group b0 b1 b2 bs i pre x0 x1 x2 x3 suf c :
  byte b0 -> byte b1 -> byte b2 -> i mod 3 = 0 ->
  let n := b0 * 2 ^ 16 + b1 * 2 ^ 8 + b2 in
  let pre' := pre ++ [digit n 3; digit n 2; digit n 1; digit n 0] in
  encode_loop (b0 :: b1 :: b2 :: bs) i (Z.of_nat (length pre)) c (pre ++ x0 :: x1 :: x2 :: x3 :: suf) =
  encode_loop bs (i + 3) (Z.of_nat (length pre')) 0 (pre' ++ suf).
Proof.
  intros H0 H1 H2 Hi n pre'. destruct (mod3_next i Hi) as (Hi1 & Hi2 & _).
  destruct (digits_arith b0 b1 b2 H0 H1 H2) as (E3 & E2 & E1 & E0).
  cbn [encode_loop]. unfold mbind, result_bind. rewrite Hi. cbn [Z.eqb].
  rewrite E3, radix_digit, c_update_app by done. cbn [encode_loop]. rewrite Hi1. cbn [Z.eqb Pos.eqb].
  rewrite E2, radix_digit. rewrite (snoc_cons pre), c_update_app by (rewrite length_app; cbn; lia).
  cbn [encode_loop]. rewrite Hi2. cbn [Z.eqb Pos.eqb]. rewrite E1, radix_digit.
  rewrite (snoc_cons (_ ++ _)), c_update_app by (rewrite !length_app; cbn; lia). rewrite E0, radix_digit.
  rewrite (snoc_cons (_ ++ _)), c_update_app by (rewrite !length_app; cbn; lia).
  f_equal; unfold pre'; rewrite ?length_app; cbn; [lia|lia|].
  by rewrite <- !app_assoc.
Qed.

Lemma encode_from bs :
  Forall byte bs -> forall pre suf i c, i mod 3 = 0 -> (length (base64 bs) < length suf)%nat ->
  ('(i, j, c, outbuf) ← encode_loop bs i (Z.of_nat (length pre)) c (pre ++ suf); encode_tail i j c outbuf) =
  Ok (Z.of_nat (length (pre ++ base64 bs)), (pre ++ base64 bs) ++ 0 :: drop (S (length (base64 bs))) suf).
Proof.
  induction bs as [|b0|b0 b1|b0 b1 b2 bs IH] using group3_ind; intros Hb pre suf i c Hi Hlen;
    destruct (mod3_next i Hi) as (Hi1 & Hi2 & Hi3); rewrite ?Forall_cons in Hb.
  - destruct suf as [|x suf]; [cbn in Hlen; lia|]. cbn [encode_loop]. unfold mbind, result_bind, encode_tail.
    rewrite Hi. cbn [Z.eqb negb]. unfold mbind, result_bind. by rewrite c_update_app, app_nil_r.
  - destruct suf as [|x0 [|x1 [|x2 [|x3 [|x4 suf]]]]]; cbn in Hlen; try lia.
    destruct (digits_arith b0 0 0) as (E3 & E2 & _ & _); [apply Hb|done|done|].
    rewrite !Z.mul_0_l, !Z.add_0_r, Z.lor_0_r in *.
    cbn [encode_loop]. unfold mbind, result_bind. rewrite Hi. cbn [Z.eqb].
    rewrite E3, radix_digit, c_update_app by done. unfold encode_tail, mbind, result_bind.
    rewrite Hi1. cbn [Z.eqb Pos.eqb negb]. rewrite E2, radix_digit.
    do 4 (rewrite snoc_cons, c_update_app by (rewrite ?length_app; cbn; lia)).
    cbn. rewrite <- !app_assoc, ?length_app. cbn. do 3 f_equal. lia.
  - destruct suf as [|x0 [|x1 [|x2 [|x3 [|x4 suf]]]]]; cbn in Hlen; try lia.
    destruct (digits_arith b0 b1 0) as (E3 & E2 & E1 & _); [apply Hb|apply Hb|done|].
    rewrite !Z.add_0_r, Z.lor_0_r in *.
    cbn [encode_loop]. unfold mbind, result_bind. rewrite Hi. cbn [Z.eqb].
    rewrite E3, radix_digit, c_update_app by done. cbn [encode_loop]. rewrite Hi1. cbn [Z.eqb Pos.eqb].
    rewrite E2, radix_digit. rewrite snoc_cons, c_update_app by (rewrite ?length_app; cbn; lia).
    unfold encode_tail, mbind, result_bind. rewrite Hi2. cbn [Z.eqb Pos.eqb negb]. rewrite E1, radix_digit.
    do 3 (rewrite snoc_cons, c_update_app by (rewrite ?length_app; cbn; lia)).
    cbn. rewrite <- !app_assoc, ?length_app. cbn. do 3 f_equal. lia.
  - destruct suf as [|x0 [|x1 [|x2 [|x3 suf]]]]; cbn in Hlen; try lia.
    rewrite encode_group by (done || apply Hb). rewrite IH; [|apply Hb|done|lia].
    cbn [base64]. rewrite <- !app_assoc. done.
Qed.

(** ** The decoder *)

(** A character of the alphabet. *)
Definition char (d : Z) : Z := nth (Z.to_nat d) radixN 0.
Definition sixbit (d : Z) : Prop := 0 <= d < 64.

(** The bytes the code assembles. *)
Lemma bytes_arith d3 d2 d1 d0 :
  sixbit d3 -> sixbit d2 -> sixbit d1 -> sixbit d0 ->
  uwrap 8 (Z.lor (uwrap 8 (Z.shiftl d3 2)) (Z.shiftr d2 4)) = d3 * 4 + d2 / 16 /\
  uwrap 8 (Z.lor (uwrap 8 (Z.shiftl (Z.land d2 15) 4)) (Z.shiftr d1 2)) = d2 mod 16 * 16 + d1 / 4 /\
  uwrap 8 (Z.lor (uwrap 8 (Z.shiftl (Z.land d1 3) 6)) d0) = d1 mod 4 * 64 + d0.
Proof.
  unfold sixbit, uwrap. intros H3 H2 H1 H0.
  change 3 with (2 ^ 2 - 1) at 1. change 15 with (2 ^ 4 - 1).
  rewrite !land_ones_mod, !Z.shiftr_div_pow2, !Z.shiftl_mul_pow2 by lia.
  rewrite (Z.mod_small (d3 * 2 ^ 2)), (Z.mod_small (d2 mod 2 ^ 4 * 2 ^ 4)), (Z.mod_small (d1 mod 2 ^ 2 * 2 ^ 6))
    by (cbn; Z.to_euclidean_division_equations; lia).
  rewrite !lor_add by (cbn; Z.to_euclidean_division_equations; lia).
  cbn. split_and!; Z.to_euclidean_division_equations; lia.
Qed.

Lemma land3_next i :
  Z.land i 3 = 0 -> Z.land (i + 1) 3 = 1 /\ Z.land (i + 1 + 1) 3 = 2 /\ Z.land (i + 1 + 1 + 1) 3 = 3 /\
    Z.land (i + 1 + 1 + 1 + 1) 3 = 0.
Proof.
  change 3 with (2 ^ 2 - 1) at 1 2 3 4 6. rewrite !land_ones_mod by lia. cbn. Z.to_euclidean_division_equations. lia.
Qed.

Lemma char_digit d : sixbit d -> digit_of (char d) = Some d /\ (char d =? pad) = false.
Proof. intros Hd. destruct (radix_nth d Hd) as (? & ? & _). split; [done|]. by apply Z.eqb_neq. Qed.

Lemma or_at_app pre x suf j d : j = Z.of_nat (length pre) -> or_at (pre ++ x :: suf) j d = Ok (pre ++ uwrap 8 (Z.lor x d) :: suf).
Proof. intros Hj. unfold or_at, mbind, result_bind. by rewrite c_index_app, c_update_app. Qed.

(** One, two, three and four digits from the start of a group. *)
Section Group.
Context (d3 d2 d1 d0 : Z) (i j D : Z) (pre suf : list Z) (x0 x1 x2 : Z).
Context (H3 : sixbit d3) (H2 : sixbit d2) (H1 : sixbit d1) (H0 : sixbit d0).
Context (Hi : Z.land i 3 = 0) (Hj : j = Z.of_nat (length pre)).

Lemma decode_one rest :
  decode_loop (char d3 :: rest) i j D (pre ++ x0 :: suf) =
  decode_loop rest (i + 1) j d3 (pre ++ uwrap 8 (Z.shiftl d3 2) :: suf).
Proof.
  cbn [decode_loop]. destruct (char_digit d3 H3) as [-> ->]. rewrite Hi. cbn [Z.eqb].
  unfold mbind, result_bind. by rewrite c_update_app.
Qed.

Lemma decode_two rest :
  decode_loop (char d3 :: char d2 :: rest) i j D (pre ++ x0 :: x1 :: suf) =
  decode_loop rest (i + 1 + 1) (j + 1) d2
    (pre ++ (d3 * 4 + d2 / 16) :: uwrap 8 (Z.shiftl (Z.land d2 15) 4) :: suf).
Proof.
  destruct (land3_next i Hi) as (Hi1 & _). destruct (bytes_arith d3 d2 d1 d0 H3 H2 H1 H0) as (<- & _).
  cbn [decode_loop]. destruct (char_digit d3 H3) as [-> ->], (char_digit d2 H2) as [-> ->].
  rewrite Hi. cbn [Z.eqb]. unfold mbind, result_bind. rewrite c_update_app, Hi1 by done. cbn [Z.eqb Pos.eqb].
  rewrite or_at_app by done. rewrite snoc_cons, c_update_app by (rewrite length_app; cbn; lia).
  by rewrite <- app_assoc.
Qed.

Lemma decode_three rest :
  decode_loop (char d3 :: char d2 :: char d1 :: rest) i j D (pre ++ x0 :: x1 :: x2 :: suf) =
  decode_loop rest (i + 1 + 1 + 1) (j + 2) d1
    (pre ++ (d3 * 4 + d2 / 16) :: (d2 mod 16 * 16 + d1 / 4) :: uwrap 8 (Z.shiftl (Z.land d1 3) 6) :: suf).
Proof.
  destruct (land3_next i Hi) as (Hi1 & Hi2 & _). destruct (bytes_arith d3 d2 d1 d0 H3 H2 H1 H0) as (<- & <- & _).
  cbn [decode_loop]. destruct (char_digit d3 H3) as [-> ->], (char_digit d2 H2) as [-> ->], (char_digit d1 H1) as [-> ->].
  rewrite Hi. cbn [Z.eqb]. unfold mbind, result_bind. rewrite c_update_app, Hi1 by done. cbn [Z.eqb Pos.eqb].
  rewrite or_at_app by done. rewrite snoc_cons, c_update_app by (rewrite length_app; cbn; lia).
  rewrite Hi2. cbn [Z.eqb Pos.eqb]. rewrite or_at_app by (rewrite length_app; cbn; lia).
  rewrite snoc_cons, c_update_app by (rewrite !length_app; cbn; lia).
  rewrite <- !app_assoc. f_equal. lia.
Qed.

Lemma decode_four rest :
  let pre' := pre ++ [d3 * 4 + d2 / 16; d2 mod 16 * 16 + d1 / 4; d1 mod 4 * 64 + d0] in
  decode_loop (char d3 :: char d2 :: char d1 :: char d0 :: rest) i j D (pre ++ x0 :: x1 :: x2 :: suf) =
  decode_loop rest (i + 4) (Z.of_nat (length pre')) d0 (pre' ++ suf).
Proof.
  intros pre'. destruct (land3_next i Hi) as (_ & _ & Hi3 & _). destruct (bytes_arith d3 d2 d1 d0 H3 H2 H1 H0) as (_ & _ & E).
  rewrite decode_three. cbn [decode_loop]. destruct (char_digit d0 H0) as [-> ->]. rewrite Hi3. cbn [Z.eqb Pos.eqb].
  rewrite (snoc_cons pre), (snoc_cons (pre ++ _)). unfold mbind, result_bind.
  rewrite or_at_app by (rewrite !length_app; cbn; lia). rewrite E. unfold pre'. rewrite <- !app_assoc, length_app. cbn.
  f_equal; lia.
Qed.
End Group.

(** Where the loop stops, fails or goes on. *)
Definition stops (s : list Z) : Prop := head s = None \/ head s = Some pad.

Lemma decode_stop s i j D out : stops s -> decode_loop s i j D out = Ok (Some (i, j, D, s, out)).
Proof. destruct s as [|ch s]; [done|]. intros [[=]|[= ->]]. done. Qed.

Lemma input_cases s :
  stops s \/ (forall i j D out, decode_loop s i j D out = Ok None) \/ exists d t, sixbit d /\ s = char d :: t.
Proof.
  destruct s as [|ch s]; [by left; left|]. destruct (decide (ch = pad)) as [->|Hne]; [by left; right|]. right.
  destruct (digit_of ch) as [d|] eqn:E.
  - right. apply digit_of_inv in E as [Hd ->]. eauto.
  - left. intros. cbn [decode_loop]. apply Z.eqb_neq in Hne. by rewrite Hne, E.
Qed.

Lemma digit_char n k : digit n k = char (n / 64 ^ k mod 64).
Proof. done. Qed.

Lemma sixbit_mod z : sixbit (z mod 64).
Proof. apply Z.mod_pos_bound. done. Qed.

(** The bytes of a 24-bit number, from its digits. *)
Lemma bytes_of_digits b0 b1 b2 :
  byte b0 -> byte b1 -> byte b2 ->
  let n := b0 * 2 ^ 16 + b1 * 2 ^ 8 + b2 in
  let d k := n / 64 ^ k mod 64 in
  d 3 * 4 + d 2 / 16 = b0 /\ d 2 mod 16 * 16 + d 1 / 4 = b1 /\ d 1 mod 4 * 64 + d 0 = b2.
Proof. unfold byte. cbn. intros. split_and!; Z.to_euclidean_division_equations; lia. Qed.

(** What may follow an encoding that needs no padding: nothing or a pad, and
    anything after it. *)
Definition trailer (bs t : list Z) : Prop := t = [] \/ (length bs mod 3 = 0)%nat /\ head t = Some pad.

Lemma decode_base64 bs t :
  Forall byte bs -> trailer bs t -> forall pre suf i D, Z.land i 3 = 0 -> (3 * ((length bs + 2) / 3) <= length suf)%nat ->
  exists r rest, decode_loop (base64 bs ++ t) i (Z.of_nat (length pre)) D (pre ++ suf) = Ok r /\
    decode_tail r = Some (Z.of_nat (length (pre ++ bs)), (pre ++ bs) ++ rest).
Proof.
  intros Hb Ht. induction bs as [|b0|b0 b1|b0 b1 b2 bs IH] using group3_ind; intros pre suf i D Hi Hlen;
    destruct (land3_next i Hi) as (Hi1 & Hi2 & Hi3 & _); rewrite ?Forall_cons in Hb.
  - assert (stops t) as Hst by (destruct Ht as [->|[_ ?]]; [by left|by right]).
    eexists _, suf. split; [apply decode_stop; done|]. cbn [decode_tail]. by rewrite Hi, app_nil_r.
  - destruct Ht as [->|[? _]]; [|done]. destruct suf as [|x0 [|x1 suf]]; cbn in Hlen; try lia.
    destruct (bytes_of_digits b0 0 0) as (E0 & _); [apply Hb|done|done|]. cbv zeta in E0. rewrite !Z.mul_0_l, !Z.add_0_r in E0.
    cbn [base64 app]. rewrite !digit_char.
    rewrite (decode_two _ _ 0 0) by (done || apply sixbit_mod). rewrite decode_stop by by right.
    eexists _, _. split; [done|]. cbn [decode_tail]. rewrite Hi2. cbn [Z.eqb Pos.eqb andb].
    change 15 with (2 ^ 4 - 1). rewrite land_ones_mod by done.
    replace (_ mod 64 mod 2 ^ 4) with 0 by (cbn; Z.to_euclidean_division_equations; lia).
    rewrite bool_decide_true by done. cbn [Z.eqb negb orb]. rewrite E0, <- app_assoc, length_app. cbn [length app].
    apply f_equal, f_equal2; [lia|reflexivity].
  - destruct Ht as [->|[? _]]; [|done]. destruct suf as [|x0 [|x1 [|x2 suf]]]; cbn in Hlen; try lia.
    destruct (bytes_of_digits b0 b1 0) as (E0 & E1 & _); [apply Hb|apply Hb|done|]. cbv zeta in E0, E1. rewrite !Z.add_0_r in E0, E1.
    cbn [base64 app]. rewrite !digit_char.
    rewrite (decode_three _ _ _ 0) by (done || apply sixbit_mod). rewrite decode_stop by by right.
    eexists _, _. split; [done|]. cbn [decode_tail]. rewrite Hi3. cbn [Z.eqb Pos.eqb andb].
    change 3 with (2 ^ 2 - 1) at 1. rewrite land_ones_mod by done.
    replace (_ mod 64 mod 2 ^ 2) with 0 by (cbn; Z.to_euclidean_division_equations; lia).
    rewrite bool_decide_true by done. cbn [Z.eqb negb orb]. rewrite E0, E1, <- app_assoc, length_app. cbn [length app].
    apply f_equal, f_equal2; [lia|reflexivity].
  - assert (3 * ((length bs + 2) / 3) + 3 <= length suf)%nat as Hlen'.
    { cbn [length] in Hlen. revert Hlen. generalize (length suf), (length bs). intros.
      pose proof (Nat.div_mod (n0 + 2) 3 ltac:(lia)). pose proof (Nat.div_mod (S (S (S n0)) + 2) 3 ltac:(lia)).
      pose proof (Nat.mod_upper_bound (n0 + 2) 3 ltac:(lia)). pose proof (Nat.mod_upper_bound (S (S (S n0)) + 2) 3 ltac:(lia)). lia. }
    destruct suf as [|x0 [|x1 [|x2 suf]]]; cbn in Hlen'; try lia.
    destruct (bytes_of_digits b0 b1 b2) as (E0 & E1 & E2); [apply Hb..|]. cbv zeta in E0, E1, E2.
    cbn [base64 app]. rewrite !digit_char.
    rewrite decode_four by (done || apply sixbit_mod). rewrite E0, E1, E2.
    destruct (IH (proj2 (proj2 (proj2 Hb)))) with (pre ++ [b0; b1; b2]) suf (i + 4)
      (( b0 * 2 ^ 16 + b1 * 2 ^ 8 + b2) / 64 ^ 0 mod 64) as (r & rest & -> & Hr).
    + destruct Ht as [->|[Hm Hh]]; [by left|right]. split; [|done]. cbn [length] in Hm.
      replace (S (S (S (length bs)))) with (length bs + 1 * 3)%nat in Hm by lia. by rewrite Nat.Div0.mod_add in Hm.
    + rewrite <- !Z.add_assoc in *. cbn in *. destruct (land3_next i Hi) as (_ & _ & _ & E). by rewrite <- !Z.add_assoc in E.
    + cbn. lia.
    + exists r, rest. split; [done|]. rewrite Hr. by rewrite <- !app_assoc.
Qed.
(** The digits of the bytes that four digits make up. *)
Lemma digits_of_bytes d3 d2 d1 d0 :
  sixbit d3 -> sixbit d2 -> sixbit d1 -> sixbit d0 ->
  let b0 := d3 * 4 + d2 / 16 in let b1 := d2 mod 16 * 16 + d1 / 4 in let b2 := d1 mod 4 * 64 + d0 in
  let n := b0 * 2 ^ 16 + b1 * 2 ^ 8 + b2 in
  byte b0 /\ byte b1 /\ byte b2 /\
  digit n 3 = char d3 /\ digit n 2 = char d2 /\ digit n 1 = char d1 /\ digit n 0 = char d0.
Proof.
  intros H3 H2 H1 H0 b0 b1 b2 n. unfold sixbit, byte in *. rewrite !digit_char.
  assert (n = d3 * 64 ^ 3 + d2 * 64 ^ 2 + d1 * 64 + d0) as ->.
  { subst n b0 b1 b2. cbn. Z.to_euclidean_division_equations. lia. }
  subst b0 b1 b2. cbn. split_and!; try (Z.to_euclidean_division_equations; lia);
    apply (f_equal char); Z.to_euclidean_division_equations; lia.
Qed.

Ltac forall_cons := repeat (apply Forall_cons_2; [done|]); first [apply Forall_nil_2|done].

(** An accepted input is the encoding of what is written. *)
Lemma decode_sound m : forall s, (length s <= m)%nat -> forall pre suf i D, Z.land i 3 = 0 ->
  (3 * (length s + 3) < 4 * (length suf + 1))%nat ->
  exists r, decode_loop s i (Z.of_nat (length pre)) D (pre ++ suf) = Ok r /\
    forall j out, decode_tail r = Some (j, out) ->
      exists bs t rest, s = base64 bs ++ t /\ Forall byte bs /\ trailer bs t /\
        j = Z.of_nat (length (pre ++ bs)) /\ out = (pre ++ bs) ++ rest.
Proof.
  induction m as [|m IH]; intros s Hm pre suf i D Hi Hlen.
  { destruct s; [|cbn in Hm; lia]. eexists. split; [done|]. intros j out. cbn [decode_tail]. rewrite Hi. intros [= <- <-].
    exists [], [], suf. rewrite !app_nil_r. split_and!; [done|by constructor|by left|done|done]. }
  destruct (land3_next i Hi) as (Hi1 & Hi2 & Hi3 & Hi4).
  destruct (input_cases s) as [Hs|[Hs|(d3 & s1 & H3 & ->)]].
  { rewrite decode_stop by done. eexists. split; [done|]. intros j out. cbn [decode_tail]. rewrite Hi. intros [= <- <-].
    exists [], s, suf. rewrite !app_nil_r. split_and!; [done|by constructor| |done|done].
    destruct s; [by left|right]. by destruct Hs as [[=]|?]. }
  { rewrite Hs. eexists. split; [done|]. done. }
  destruct suf as [|x0 suf]; cbn in Hlen, Hm; [lia|].
  destruct (input_cases s1) as [Hs|[Hs|(d2 & s2 & H2 & ->)]].
  { rewrite decode_one, decode_stop by done. eexists. split; [done|]. cbn [decode_tail]. by rewrite Hi1. }
  { rewrite decode_one, Hs by done. eexists. split; [done|]. done. }
  destruct suf as [|x1 suf]; cbn in Hlen, Hm; [lia|]. assert (sixbit 0) as Hz by done.
  destruct (input_cases s2) as [Hs|[Hs|(d1 & s3 & H1 & ->)]].
  { rewrite (decode_two d3 d2 0 0), decode_stop by done. eexists. split; [done|]. cbn [decode_tail]. rewrite Hi2. cbn [Z.eqb Pos.eqb andb].
    intros j out. change 15 with (2 ^ 4 - 1). rewrite land_ones_mod by done.
    destruct (Z.eqb_spec (d2 mod 2 ^ 4) 0) as [E|]; [|done]. case_bool_decide as Hpad; [|done]. cbn [negb orb].
    subst s2. intros [= <- <-].
    destruct (digits_of_bytes d3 d2 0 0 H3 H2 Hz Hz) as (Hb & _ & _ & E3 & E2 & _). change (2 ^ 4) with 16 in E. rewrite E in E3, E2.
    cbn [Z.mul Z.div Z.modulo] in E3, E2. rewrite !Z.add_0_r in E3, E2.
    exists [d3 * 4 + d2 / 16], []. eexists. cbn [base64 app]. rewrite E3, E2, <- app_assoc, length_app. cbn [length app].
    split_and!; [done|forall_cons|by left|lia|reflexivity]. }
  { rewrite (decode_two d3 d2 0 0), Hs by done. eexists. split; [done|]. done. }
  destruct suf as [|x2 suf]; cbn in Hlen, Hm; [lia|].
  destruct (input_cases s3) as [Hs|[Hs|(d0 & s4 & H0 & ->)]].
  { rewrite (decode_three d3 d2 d1 0), decode_stop by done. eexists. split; [done|]. cbn [decode_tail]. rewrite Hi3. cbn [Z.eqb Pos.eqb andb].
    intros j out. change 3 with (2 ^ 2 - 1) at 1. rewrite land_ones_mod by done.
    destruct (Z.eqb_spec (d1 mod 2 ^ 2) 0) as [E|]; [|done]. case_bool_decide as Hpad; [|done]. cbn [negb orb].
    subst s3. intros [= <- <-].
    destruct (digits_of_bytes d3 d2 d1 0 H3 H2 H1 Hz) as (Hb0 & Hb1 & _ & E3 & E2 & E1 & _). change (2 ^ 2) with 4 in E. rewrite E in E3, E2, E1.
    cbn [Z.mul] in E3, E2, E1. rewrite !Z.add_0_r in E3, E2, E1.
    exists [d3 * 4 + d2 / 16; d2 mod 16 * 16 + d1 / 4], []. eexists. cbn [base64 app]. rewrite E3, E2, E1, <- app_assoc, length_app. cbn [length app].
    split_and!; [done|forall_cons|by left|lia|reflexivity]. }
  { rewrite (decode_three d3 d2 d1 0), Hs by done. eexists. split; [done|]. done. }
  cbn [length] in Hm, Hlen. rewrite decode_four by done. set (pre' := pre ++ _).
  destruct (digits_of_bytes d3 d2 d1 d0 H3 H2 H1 H0) as (Hb0 & Hb1 & Hb2 & E3 & E2 & E1 & E0).
  destruct (IH s4 ltac:(lia) pre' suf (i + 4) d0) as (r & -> & Hr);
    [by rewrite <- !Z.add_assoc in Hi4|lia|].
  eexists. split; [done|]. intros j out Hj. destruct (Hr j out Hj) as (bs & t & rest & -> & Hbs & Ht & -> & ->).
  exists (d3 * 4 + d2 / 16 :: d2 mod 16 * 16 + d1 / 4 :: d1 mod 4 * 64 + d0 :: bs), t, rest.
  cbn [base64 app]. rewrite E3, E2, E1, E0. unfold pre'. rewrite <- !app_assoc. split_and!; [done|forall_cons| |done|done].
  destruct Ht as [->|[Hm3 Hh]]; [by left|right]. split; [|done]. cbn [length].
  replace (S (S (S (length bs)))) with (length bs + 1 * 3)%nat by lia. by rewrite Nat.Div0.mod_add.
Qed.

(** ** The claims *)

Lemma base64_length bs : length (base64 bs) = (4 * ((length bs + 2) / 3))%nat.
Proof.
  induction bs as [|b0|b0 b1|b0 b1 b2 bs IH] using group3_ind; [done..|]. cbn [base64 length]. rewrite IH.
  replace (S (S (S (length bs))) + 2)%nat with (length bs + 2 + 1 * 3)%nat by lia.
  rewrite Nat.div_add by lia. lia.
Qed.

Lemma encode_room bs (outbuf : list Z) :
  Z.of_nat (length bs) * 8 / 6 + 4 <= Z.of_nat (length outbuf) -> (length (base64 bs) < length outbuf)%nat.
Proof.
  rewrite base64_length. intros Hlen. pose proof (Nat.div_mod (length bs + 2) 3 ltac:(lia)).
  revert Hlen. Z.to_euclidean_division_equations. lia.
Qed.

Lemma radix_encode_spec bs outbuf :
  Forall byte bs -> (length (base64 bs) < length outbuf)%nat ->
  globus_i_ftp_control_radix_encode bs outbuf =
    Ok (Z.of_nat (length (base64 bs)), base64 bs ++ 0 :: drop (S (length (base64 bs))) outbuf).
Proof. intros Hb Hlen. by apply (encode_from bs Hb [] outbuf 0 0). Qed.

(** [globus_i_ftp_control_radix_encode] computes the base64 encoding of RFC
    4648, digit by digit equal to the reference that treats three bytes as a
    24-bit number, and terminates it with NUL; the buffer of [length * 8 / 6 + 4]
    bytes its callers allocate is large enough, and no byte beyond the NUL is
    touched. *)
Theorem radix_encode_correct bs outbuf :
  Forall byte bs -> Z.of_nat (length bs) * 8 / 6 + 4 <= Z.of_nat (length outbuf) ->
  globus_i_ftp_control_radix_encode bs outbuf =
    Ok (Z.of_nat (length (base64 bs)), base64 bs ++ 0 :: drop (S (length (base64 bs))) outbuf).
Proof. intros Hb Hlen. by apply radix_encode_spec, encode_room. Qed.

(** What holds of the characters of the alphabet and the pad. *)
Lemma base64_Forall (P : Z -> bool) bs :
  forallb P (pad :: radixN) = true -> Forall (fun c => P c = true) (base64 bs).
Proof.
  intros HP. rewrite forallb_forall in HP.
  assert (P pad = true) as Hpad by (apply HP; by left).
  assert (forall n k, P (digit n k) = true) as Hd.
  { intros n k. apply HP. right. unfold digit. apply nth_In. pose proof (sixbit_mod (n / 64 ^ k)) as [? ?].
    assert (length radixN = 64%nat) as -> by done. lia. }
  induction bs as [|b0|b0 b1|b0 b1 b2 bs IH] using group3_ind; cbn [base64]; forall_cons.
Qed.

Lemma base64_nonzero bs : nonzero (base64 bs).
Proof.
  eapply Forall_impl; [apply (base64_Forall (fun c => negb (c =? 0))); done|]. cbn. intros c Hc. by destruct (Z.eqb_spec c 0).
Qed.

(** Decoding an encoding. *)
Lemma radix_decode_base64 bs t outbuf :
  Forall byte bs -> trailer bs t -> (3 * ((length bs + 2) / 3) <= length outbuf)%nat ->
  exists rest, globus_i_ftp_control_radix_decode (base64 bs ++ t) outbuf =
    Ok (Some (Z.of_nat (length bs), bs ++ rest)).
Proof.
  intros Hb Ht Hlen. destruct (decode_base64 bs t Hb Ht [] outbuf 0 0 eq_refl Hlen) as (r & rest & Hrun & Hr).
  exists rest. unfold globus_i_ftp_control_radix_decode, mbind, result_bind. change (Z.of_nat (length [])) with 0 in Hrun. cbn [app] in Hrun. by rewrite Hrun, Hr.
Qed.

(** C17: decoding undoes encoding: the string that
    [globus_i_ftp_control_radix_encode] writes into a buffer of the size its
    callers allocate decodes to the original bytes, whatever the two buffers
    contained. *)
Theorem radix_roundtrip bs outbuf outbuf' :
  Forall byte bs -> Z.of_nat (length bs) * 8 / 6 + 4 <= Z.of_nat (length outbuf) ->
  (3 * ((length bs + 2) / 3) <= length outbuf')%nat ->
  exists n buf, globus_i_ftp_control_radix_encode bs outbuf = Ok (n, buf) /\
    exists rest, globus_i_ftp_control_radix_decode (cstring buf) outbuf' =
      Ok (Some (Z.of_nat (length bs), bs ++ rest)).
Proof.
  intros Hb Hlen Hlen'. eexists _, _. split; [by apply radix_encode_spec, encode_room|].
  rewrite cstring_app by apply base64_nonzero. rewrite <- (app_nil_r (base64 bs)).
  apply radix_decode_base64; [done|by left|done].
Qed.

(** [globus_i_ftp_control_radix_decode] never writes outside a buffer of
    [(length + 3) * 6 / 8] bytes, whatever the string, and accepts exactly the
    canonical encodings: a string is decoded to [bs] only when it is the encoding
    of [bs] with no bit left in the last digit, possibly followed, when that
    encoding has no padding, by a pad character and anything. *)
Theorem radix_decode_canonical s outbuf :
  (Z.of_nat (length s) + 3) * 6 / 8 <= Z.of_nat (length outbuf) ->
  exists r, globus_i_ftp_control_radix_decode s outbuf = Ok r /\
    match r with
    | Some (j, out) =>
        exists bs t rest, s = base64 bs ++ t /\ Forall byte bs /\ trailer bs t /\
          j = Z.of_nat (length bs) /\ out = bs ++ rest
    | None => forall bs t, Forall byte bs -> trailer bs t -> s <> base64 bs ++ t
    end.
Proof.
  intros Hlen. assert (3 * (length s + 3) < 4 * (length outbuf + 1))%nat as Hlen'.
  { revert Hlen. Z.to_euclidean_division_equations. lia. }
  destruct (decode_sound (length s) s ltac:(lia) [] outbuf 0 0 eq_refl Hlen') as (r & Hrun & Hr).
  exists (decode_tail r). change (Z.of_nat (length [])) with 0 in Hrun. cbn [app] in Hrun. split.
  { unfold globus_i_ftp_control_radix_decode, mbind, result_bind. by rewrite Hrun. }
  destruct (decode_tail r) as [[j out]|] eqn:E; [by apply Hr|]. intros bs t Hb Ht ->.
  destruct (radix_decode_base64 bs t outbuf Hb Ht) as (rest & Hdec).
  { rewrite length_app, base64_length in Hlen'. lia. }
  unfold globus_i_ftp_control_radix_decode, mbind, result_bind in Hdec. rewrite Hrun, E in Hdec. done.
Qed.

Lemma radix_encode_correct_witness :
  globus_i_ftp_control_radix_encode [104; 101; 108; 108; 111] (replicate 10 7) =
    Ok (8, [97; 71; 86; 115; 98; 71; 56; 61; 0; 7]).
Proof. rewrite radix_encode_correct; [done|repeat constructor; done|done]. Defined.

Lemma radix_roundtrip_witness :
  exists n buf, globus_i_ftp_control_radix_encode [104; 101; 108; 108] (replicate 9 7) = Ok (n, buf) /\
    exists rest, globus_i_ftp_control_radix_decode (cstring buf) (replicate 6 0) = Ok (Some (4, [104; 101; 108; 108] ++ rest)).
Proof. apply radix_roundtrip; [repeat constructor; done|done|cbn; lia]. Defined.

(** "QUJDRA==" and the string "QUI=x", whose trailer is not a padding. *)
Lemma radix_decode_canonical_witness :
  (exists r, globus_i_ftp_control_radix_decode [81; 85; 74; 68; 82; 65; 61; 61] (replicate 8 0) = Ok r /\
     match r with
     | Some (j, out) =>
         exists bs t rest, [81; 85; 74; 68; 82; 65; 61; 61] = base64 bs ++ t /\ Forall byte bs /\ trailer bs t /\
           j = Z.of_nat (length bs) /\ out = bs ++ rest
     | None => forall bs t, Forall byte bs -> trailer bs t -> [81; 85; 74; 68; 82; 65; 61; 61] <> base64 bs ++ t
     end) /\
  globus_i_ftp_control_radix_decode [81; 85; 73; 61; 120] (replicate 6 0) = Ok None.
Proof. split; [by apply radix_decode_canonical|by vm_compute]. Defined.
End Radix.
