(* ===== verification/FtpControl.v ===== *)
(** * Protected commands and replies of the FTP control connection

    gridftp/control/source/globus_ftp_control_client.c and
    globus_ftp_control_server.c: a command or reply is wrapped by the GSS-API,
    encoded in base64 (Radix.v) and sent as text; the other side finds the end of
    the text, decodes and unwraps it.

    The GSS-API and [malloc] are parameters. [malloc n] is NULL or [n] bytes of
    any content. A C string is the list of the characters before its NUL, a
    buffer the list of its bytes. *)
From S2P Require Import Prelude.
From S2P Require Import Chars.
From S2P Require Import Radix.
Import Radix.
Local Open Scope Z_scope.

Module FtpControl.

(** ** [sscanf] *)

Fixpoint skip_space (s : list Z) : list Z :=
  match s with
  | c :: s' => if isspace c then skip_space s' else s
  | [] => []
  end.

(** At most [n] characters that are not white space, and the rest. *)
Fixpoint scan_token (n : nat) (s : list Z) : list Z * list Z :=
  match n, s with
  | S n, c :: s' => if isspace c then ([], s) else let '(t, r) := scan_token n s' in (c :: t, r)
  | _, _ => ([], s)
  end.

(** [sscanf(s, "%4s", tmp)] and [sscanf(s, "%*s %s", tmp)]: the string stored, if
    the conversion is reached. *)
Definition scan_4s (s : list Z) : option (list Z) :=
  match skip_space s with [] => None | s => Some (scan_token 4 s).1 end.

Definition scan_second (s : list Z) : option (list Z) :=
  match skip_space s with
  | [] => None
  | s => match skip_space (scan_token (length s) s).2 with
         | [] => None
         | s => Some (scan_token (length s) s).1
         end
  end.

(** [sscanf(s, "%d", &n)] *)
Fixpoint scan_digits (s : list Z) (n : Z) : Z :=
  match s with
  | c :: s => if isdigit c then scan_digits s (10 * n + (c - 48)) else n
  | [] => n
  end.

Definition scan_d (s : list Z) : option Z :=
  let s := skip_space s in
  let '(sign, s) := match s with
                    | c :: s' => if c =? 45 then (-1, s') else if c =? 43 then (1, s') else (1, s)
                    | [] => (1, s)
                    end in
  match s with
  | c :: _ => if isdigit c then Some (sign * scan_digits s 0) else None
  | [] => None
  end.

(** ** Buffers *)

(** Storing the bytes [s] at index [i]. *)
Fixpoint store (buf : list Z) (i : Z) (s : list Z) : result (list Z) :=
  match s with
  | [] => Ok buf
  | c :: s => buf ← c_update buf i c; store buf (i + 1) s
  end.

(** Running a routine on the part of the buffer from index [i] on. *)
Definition at_offset {A} (buf : list Z) (i : Z) (f : list Z -> result (A * list Z)) : result (A * list Z) :=
  if (i <? 0) || (Z.of_nat (length buf) <? i) then Fault OutOfBounds
  else '(a, suf) ← f (drop (Z.to_nat i) buf); Ok (a, take (Z.to_nat i) buf ++ suf).

Section Defs.
Context (gss_wrap : list Z -> option (Z * list Z)) (gss_unwrap : list Z -> option (list Z)).
Context (malloc : Z -> option (list Z)).

(** The bytes of the allocated command, or [None] for an error object. *)
Definition encode_with (prefix : Z -> list Z) (msg : list Z) : result (option (list Z)) :=
  match gss_wrap msg with
  | None => Ok None
  | Some (conf_state, tok) =>
      match malloc ((Z.of_nat (length tok) + 3) * 8 / 6 + 9) with
      | None => Ok None
      | Some buf =>
          buf ← store buf 0 (prefix conf_state);
          '(len, buf) ← at_offset buf 4 (globus_i_ftp_control_radix_encode tok);
          buf ← c_update buf (len + 4) 13;
          buf ← c_update buf (len + 5) 10;
          buf ← c_update buf (len + 6) 0;
          Ok (Some buf)
      end
  end.

Definition MIC : list Z := codes "MIC".
Definition ENC : list Z := codes "ENC".

Definition globus_i_ftp_control_encode_command (cmd : list Z) : result (option (list Z)) :=
  encode_with (fun conf_state => if conf_state =? 0 then MIC ++ [32] else ENC ++ [32]) cmd.

(** [strcat] also stores a NUL after the prefix, which the encoder overwrites. *)
Definition globus_i_ftp_control_encode_reply (encrypt : bool) (reply : list Z) : result (option (list Z)) :=
  encode_with (fun _ => (if encrypt then codes "632 " else codes "631 ") ++ [0]) (reply ++ [0]).

Definition globus_i_ftp_control_decode_command (encrypt : bool) (cmd : list Z) : result (option (list Z)) :=
  let length := swrap 32 (Z.of_nat (length cmd)) in
  n ← s32 (length + 1);
  match malloc n with
  | None => Ok None
  | Some tmp =>
      match scan_4s cmd with
      | None => Ok None
      | Some word =>
          tmp ← store tmp 0 (word ++ [0]);
          let word := toupper <$> word in
          tmp ← store tmp 0 word;
          if negb (bool_decide (word = MIC)) && negb (bool_decide (word = ENC)) then Ok None
          else if bool_decide (word = ENC) && negb encrypt then Ok None
          else match scan_second cmd with
          | None => Ok None
          | Some token =>
              tmp ← store tmp 0 (token ++ [0]);
              m ← s32 (length + 3);
              m ← s32 (m * 6);
              match malloc (Z.quot m 8) with
              | None => Ok None
              | Some decoded =>
                  r ← globus_i_ftp_control_radix_decode (cstring tmp) decoded;
                  match r with
                  | None => Ok None
                  | Some (len, decoded) =>
                      match gss_unwrap (take (Z.to_nat len) decoded) with
                      | None => Ok None
                      | Some msg =>
                          _ ← c_assert (Z.of_nat (List.length msg) <? Z.of_nat (List.length cmd));
                          tmp ← store tmp 0 msg;
                          tmp ← c_update tmp (Z.of_nat (List.length msg)) 0;
                          Ok (Some tmp)
                      end
                  end
              end
          end
      end
  end.

(** ** The end of a reply *)

Inductive reply_class :=
| GLOBUS_FTP_POSITIVE_PRELIMINARY_REPLY
| GLOBUS_FTP_POSITIVE_COMPLETION_REPLY
| GLOBUS_FTP_POSITIVE_INTERMEDIATE_REPLY
| GLOBUS_FTP_TRANSIENT_NEGATIVE_COMPLETION_REPLY
| GLOBUS_FTP_PERMANENT_NEGATIVE_COMPLETION_REPLY
| GLOBUS_FTP_UNKNOWN_REPLY.

(** [response_buffer] is the allocated block, of which [response_length] bytes
    are in use. *)
Record response := Response {
  code : Z;
  response_class : reply_class;
  response_buffer : list Z;
  response_buffer_size : Z;
  response_length : Z;
}.

Definition CR : Z := 13.
Definition LF : Z := 10.

(** The loop of the search backwards for CR LF. *)
Fixpoint line_start_loop (n : nat) (buff : list Z) (index : Z) : result Z :=
  match n with
  | O => Fault OutOfFuel
  | S n =>
      if 2 <=? index then
        c ← c_index buff (index - 1);
        c' ← (if c =? LF then c_index buff (index - 2) else Ok 0);
        if (c =? LF) && (c' =? CR) then Ok index else line_start_loop n buff (index - 1)
      else Ok 0
  end.

Definition globus_l_ftp_control_get_current_line_start (buff : list Z) (index : Z) : result Z :=
  line_start_loop (S (Z.to_nat index)) buff index.

(** Three digits at index [i]. *)
Definition three_digits (buff : list Z) (i : Z) : result bool :=
  c0 ← c_index buff i;
  if negb (isdigit c0) then Ok false
  else c1 ← c_index buff (i + 1);
    if negb (isdigit c1) then Ok false
    else c2 ← c_index buff (i + 2); Ok (isdigit c2).

Fixpoint final_line_loop (n : nat) (buff : list Z) (len line_start i : Z) : result bool :=
  match n with
  | O => Fault OutOfFuel
  | S n =>
      if i <? len - 1 then
        c ← c_index buff i;
        c' ← (if c =? CR then c_index buff (i + 1) else Ok 0);
        if (c =? CR) && (c' =? LF) then
          sp ← (if 4 <=? i - line_start then c_index buff (line_start + 3) else Ok 0);
          final ← (if (4 <=? i - line_start) && (sp =? 32) then three_digits buff line_start else Ok false);
          if (final : bool) then Ok true else final_line_loop n buff len (i + 2) (i + 2)
        else final_line_loop n buff len line_start (i + 1)
      else Ok false
  end.

Definition globus_l_ftp_control_check_final_line_fast (buff : list Z) (len hint : Z) : result bool :=
  line_start ← globus_l_ftp_control_get_current_line_start buff hint;
  final_line_loop (S (Z.to_nat len)) buff len line_start line_start.

(** The loop over the lines: [None] when the first one is not a reply, or the
    index after the final line (0 if there is none) and the [last] before it. *)
Fixpoint find_reply (n : nat) (buff : list Z) (len current last : Z) (first : bool) : result (option (Z * Z)) :=
  match n with
  | O => Fault OutOfFuel
  | S n =>
      if current <? len then
        c ← c_index buff (current - 1);
        c' ← (if c =? CR then c_index buff current else Ok 0);
        if (c =? CR) && (c' =? LF) then
          ok ← (if first then
                  if current <? 5 then Ok false
                  else dig ← three_digits buff (last + 1);
                    if negb dig then Ok false
                    else sep ← c_index buff (last + 4); Ok ((sep =? 32) || (sep =? 45))
                else Ok true);
          if negb ok then Ok None
          else
            sep ← c_index buff (last + 4);
            final ← (if sep =? 32 then three_digits buff (last + 1) else Ok false);
            if (final : bool) then Ok (Some (current + 1, last))
            else find_reply n buff len (current + 1) current false
        else find_reply n buff len (current + 1) last first
      else Ok (Some (0, last))
  end.

(** The loop that decodes and unwraps each line of a protected reply. [length] is
    the length of the last piece. The buffer, and [None] for an error. *)
Fixpoint unwrap_loop (n : nat) (buff out_buf : list Z) (found current last length total_length copy_len : Z) :
    result (list Z * option (list Z * Z * Z)) :=
  match n with
  | O => Fault OutOfFuel
  | S n =>
      if current <? found then
        c ← c_index buff current;
        if c =? LF then
          buff ← c_update buff (current - 1) 0;
          '(len, out_buf) ←
            at_offset out_buf total_length (fun out =>
              r ← globus_i_ftp_control_radix_decode (cstring (drop (Z.to_nat (last + 5)) buff)) out;
              Ok (match r with Some (len, out) => (Some len, out) | None => (None, out) end));
          match len with
          | None => Ok (buff, None)
          | Some len =>
              match gss_unwrap (take (Z.to_nat len) (drop (Z.to_nat total_length) out_buf)) with
              | None => Ok (buff, None)
              | Some msg =>
                  tail ← c_index msg (Z.of_nat (List.length msg) - 1);
                  let msg := if tail =? 0 then removelast msg else msg in
                  let mlen := Z.of_nat (List.length msg) in
                  '(out_buf, copy_len) ←
                    (if copy_len <=? total_length + mlen then
                       let copy_len := (total_length + mlen) * 4 in
                       b ← deref (malloc copy_len);
                       Ok (out_buf ++ drop (List.length out_buf) b, copy_len)
                     else Ok (out_buf, copy_len));
                  out_buf ← store out_buf total_length msg;
                  unwrap_loop n buff out_buf found (current + 1) current mlen (total_length + mlen) copy_len
              end
          end
        else unwrap_loop n buff out_buf found (current + 1) last length total_length copy_len
      else Ok (buff, Some (out_buf, length, total_length))
  end.

Definition class_of (c : Z) : reply_class :=
  if c =? 49 then GLOBUS_FTP_POSITIVE_PRELIMINARY_REPLY
  else if c =? 50 then GLOBUS_FTP_POSITIVE_COMPLETION_REPLY
  else if c =? 51 then GLOBUS_FTP_POSITIVE_INTERMEDIATE_REPLY
  else if c =? 52 then GLOBUS_FTP_TRANSIENT_NEGATIVE_COMPLETION_REPLY
  else if c =? 53 then GLOBUS_FTP_PERMANENT_NEGATIVE_COMPLETION_REPLY
  else GLOBUS_FTP_UNKNOWN_REPLY.

(** The NUL after the reply, the code and the class. *)
Definition finish_reply (found last : Z) (r : response) : result (Z * response) :=
  buff ← c_update (response_buffer r) (found - 1) 0;
  _ ← c_assert (bool_decide (is_Some (scan_d (cstring (drop (Z.to_nat (last + 1)) buff)))));
  let code := default 0 (scan_d (cstring (drop (Z.to_nat (last + 1)) buff))) in
  c ← c_index buff (last + 1);
  Ok (found, Response code (class_of c) buff (response_buffer_size r) (response_length r)).

(** A reply that is not protected: make room for the NUL. *)
Definition plain_reply (found last : Z) (r : response) : result (Z * response) :=
  let length := response_length r + 1 in
  let found := found + 1 in
  let '(buff, size) :=
    if response_buffer_size r <? length
    then (match malloc length with
          | Some b => Some (response_buffer r ++ drop (List.length (response_buffer r)) b)
          | None => None
          end, length)
    else (Some (response_buffer r), response_buffer_size r) in
  match buff with
  | None => Ok (-1, Response (code r) (response_class r) (response_buffer r) size length)
  | Some buff =>
      buff ← store buff found (take (Z.to_nat (length - found)) (drop (Z.to_nat (found - 1)) buff));
      finish_reply found last (Response (code r) (response_class r) buff size length)
  end.

(** A protected reply: replace the buffer by what its lines unwrap to. *)
Definition protected_reply (found : Z) (r : response) : result (Z * response) :=
  let copy_len := response_length r * 2 in
  match malloc copy_len with
  | None => Ok (-1, r)
  | Some out_buf =>
      '(buff, u) ← unwrap_loop (S (Z.to_nat found)) (response_buffer r) out_buf found 0 (-1) 0 0 copy_len;
      match u with
      | None => Ok (-1, Response (code r) (response_class r) buff (response_buffer_size r) (response_length r))
      | Some (out_buf, length, total_length) =>
          let total_length := total_length + 1 in
          out_buf ← store out_buf total_length
                      (take (Z.to_nat (response_length r - found)) (drop (Z.to_nat found) buff));
          finish_reply total_length (total_length - length - 2)
            (Response (code r) (response_class r) out_buf (response_length r + 4)
               (total_length + response_length r - found))
      end
  end.

(** Appending the bytes of a read to the response (the start of
    [globus_l_ftp_control_read_cb]); [None] when the allocation fails. *)
Definition append_response (r : response) (buf : list Z) : result (option response) :=
  let nbytes := Z.of_nat (List.length buf) in
  if nbytes <? response_buffer_size r - response_length r then
    buff ← store (response_buffer r) (response_length r) buf;
    Ok (Some (Response (code r) (response_class r) buff (response_buffer_size r) (response_length r + nbytes)))
  else
    let current := response_length r in
    let new_size := current + nbytes + 1 in
    let new_size := Z.max new_size (if current <? 1000000 then current * 2 else current + 100000) in
    match malloc new_size with
    | None => Ok None
    | Some new_buf =>
        new_buf ← store new_buf 0 (take (Z.to_nat current) (response_buffer r));
        new_buf ← store new_buf current buf;
        Ok (Some (Response (code r) (response_class r) new_buf new_size (current + nbytes)))
    end.

(** -1, 0 or the index after the reply, and the response. *)
Definition globus_l_ftp_control_end_of_reply (hint : Z) (r : response) : result (Z * response) :=
  go ← (if negb (hint =? 0) && (hint <? response_length r)
        then globus_l_ftp_control_check_final_line_fast (response_buffer r) (response_length r) hint
        else Ok true);
  if negb go then Ok (0, r)
  else
    f ← find_reply (S (Z.to_nat (response_length r))) (response_buffer r) (response_length r) 1 (-1) true;
    match f with
    | None => Ok (-1, r)
    | Some (found, last) =>
        if found =? 0 then Ok (0, r)
        else
          c ← c_index (response_buffer r) (last + 1);
          if c =? 54 then protected_reply found r else plain_reply found last r
    end.
End Defs.

(** ** Scanning *)

Lemma scan_token_app s rest n :
  Forall (fun c => isspace c = false) s -> (forall c, head rest = Some c -> isspace c = true) ->
  (length s < n)%nat \/ rest = [] /\ (length s <= n)%nat -> scan_token n (s ++ rest) = (s, rest).
Proof.
  intros Hs Hr. revert n. induction Hs as [|c s Hc Hs IH]; intros n Hn; cbn [app].
  - destruct n as [|n]; [by destruct rest|]. destruct rest as [|c rest]; [done|]. cbn. by rewrite Hr.
  - destruct n as [|n]; cbn in Hn; [destruct Hn as [?|[_ ?]]; lia|]. cbn. rewrite Hc, IH; [done|].
    destruct Hn as [?|[? ?]]; [left; lia|right; split; [done|lia]].
Qed.

Lemma skip_space_id c s : isspace c = false -> skip_space (c :: s) = c :: s.
Proof. cbn. by intros ->. Qed.

Lemma store_app pre old suf s i :
  length old = length s -> i = Z.of_nat (length pre) -> store (pre ++ old ++ suf) i s = Ok (pre ++ s ++ suf).
Proof.
  revert pre old i. induction s as [|c s IH]; intros pre [|o old] i Hlen Hi; cbn in Hlen; try lia; [done|]; cbn [app].
  cbn [store]. unfold mbind, result_bind. cbn [app]. rewrite c_update_app by done.
  rewrite snoc_cons, (IH _ old) by (try rewrite length_app; cbn; lia). by rewrite <- app_assoc.
Qed.

(** Storing a string at the start of a buffer that is long enough. *)
Lemma store_start buf s :
  (length s <= length buf)%nat -> store buf 0 s = Ok (s ++ drop (length s) buf).
Proof.
  intros Hlen. rewrite <- (take_drop (length s) buf) at 1.
  apply (store_app [] (take (length s) buf)); [rewrite length_take; lia|done].
Qed.

Lemma at_offset_app {A} (pre suf : list Z) i (f : list Z -> result (A * list Z)) a suf' :
  i = Z.of_nat (length pre) -> f suf = Ok (a, suf') -> at_offset (pre ++ suf) i f = Ok (a, pre ++ suf').
Proof.
  intros -> Hf. unfold at_offset. rewrite length_app. zdecide. cbn [orb]. rewrite Nat2Z.id, drop_app_length, take_app_length.
  unfold mbind, result_bind. by rewrite Hf.
Qed.

Section Roundtrip.
Context (gss_wrap : list Z -> option (Z * list Z)) (gss_unwrap : list Z -> option (list Z)).
Context (malloc : Z -> option (list Z)).

(** The allocator returns blocks of the size asked for. *)
Hypothesis malloc_length : forall n b, malloc n = Some b -> Z.of_nat (length b) = n.

Lemma encode_with_spec prefix p q msg conf tok :
  gss_wrap msg = Some (conf, tok) -> Forall byte tok -> is_Some (malloc ((Z.of_nat (length tok) + 3) * 8 / 6 + 9)) ->
  prefix conf = p ++ q -> length p = 4%nat -> (length q <= 1)%nat ->
  exists rest, encode_with gss_wrap malloc prefix msg = Ok (Some ((p ++ base64 tok ++ [13; 10]) ++ 0 :: rest)).
Proof.
  intros Hwrap Htok [buf Hbuf] Hpre Hp Hq. unfold encode_with. rewrite Hwrap, Hbuf, Hpre.
  apply malloc_length in Hbuf. pose proof (base64_length tok) as Hlen.
  assert (length (base64 tok) + 7 <= length buf)%nat as Hroom.
  { revert Hbuf. rewrite Hlen. pose proof (Nat.div_mod (length tok + 2) 3 ltac:(lia)). Z.to_euclidean_division_equations. lia. }
  unfold mbind, result_bind. rewrite store_start by (rewrite length_app; lia).
  set (buf2 := drop (length (p ++ q)) buf).
  assert (length buf2 = length buf - length (p ++ q))%nat as Hl2 by apply length_drop. rewrite length_app in Hl2.
  rewrite <- app_assoc.
  rewrite (at_offset_app p (q ++ buf2) 4 _ _ _ ltac:(lia)
             (radix_encode_spec tok (q ++ buf2) Htok ltac:(rewrite length_app; lia))).
  set (buf3 := drop _ (q ++ buf2)).
  assert (2 <= length buf3)%nat as Hl3 by (unfold buf3; rewrite length_drop, length_app; lia).
  destruct buf3 as [|x0 [|x1 buf3]]; cbn in Hl3; [lia..|].
  rewrite app_assoc, c_update_app by (rewrite length_app; lia).
  do 2 (rewrite snoc_cons, c_update_app by (rewrite !length_app; cbn; lia)).
  exists buf3. do 2 f_equal. by rewrite <- !app_assoc.
Qed.

Lemma base64_nonspace bs : Forall (fun c => isspace c = false) (base64 bs).
Proof.
  eapply Forall_impl; [apply (base64_Forall (fun c => negb (isspace c))); done|]. cbn. intros c. by rewrite negb_true_iff.
Qed.

Lemma scan_word w b :
  (w = MIC \/ w = ENC) -> scan_4s (w ++ 32 :: b) = Some w /\ toupper <$> w = w.
Proof. by intros [-> | ->]. Qed.

Lemma scan_encoded w tok :
  (w = MIC \/ w = ENC) -> tok <> [] -> scan_second (w ++ 32 :: base64 tok ++ [13; 10]) = Some (base64 tok).
Proof.
  intros Hw Htok. unfold scan_second.
  assert (Forall (fun c => isspace c = false) w /\ w <> []) as [Hws Hwne]
    by (destruct Hw as [-> | ->]; split; [repeat constructor|done|repeat constructor|done]).
  destruct w as [|c w]; [done|]. cbn [app]. inversion Hws as [|? ? Hc Hws']; subst. rewrite skip_space_id by done.
  change (c :: w ++ 32 :: base64 tok ++ [13; 10]) with ((c :: w) ++ 32 :: base64 tok ++ [13; 10]).
  rewrite scan_token_app; [|done|by intros ? [= <-]|left; rewrite length_app; cbn; lia]. cbn [snd skip_space].
  change (isspace 32) with true. cbn iota.
  pose proof (base64_nonspace tok) as Hns. destruct (base64 tok) as [|d ds] eqn:E.
  { destruct tok as [|? [|? [|? ?]]]; done. }
  cbn [app]. inversion Hns as [|? ? Hd _]; subst. rewrite skip_space_id by done.
  change (d :: ds ++ [13; 10]) with ((d :: ds) ++ [13; 10]).
  by rewrite scan_token_app; [|done|intros ? [= <-]|left; rewrite length_app; cbn; lia].
Qed.

(** The GSS-API context: unwrapping undoes wrapping; a token is made of bytes, is
    not empty and not shorter than the message. *)
Hypothesis gss_unwrap_wrap : forall m conf t, gss_wrap m = Some (conf, t) -> gss_unwrap t = Some m.
Hypothesis gss_wrap_token : forall m conf t, gss_wrap m = Some (conf, t) ->
  Forall byte t /\ t <> [] /\ (length m <= length t)%nat.
Hypothesis malloc_total : forall n, 0 <= n -> is_Some (malloc n).

Lemma decode_command_spec w tok msg conf encrypt :
  (w = MIC \/ w = ENC /\ encrypt = true) -> gss_wrap msg = Some (conf, tok) -> Z.of_nat (length tok) < 2 ^ 26 ->
  exists rest, globus_i_ftp_control_decode_command gss_unwrap malloc encrypt (w ++ 32 :: base64 tok ++ [13; 10]) =
    Ok (Some (msg ++ 0 :: rest)).
Proof.
  intros Hw Hwrap Hmax. destruct (gss_wrap_token _ _ _ Hwrap) as (Hbytes & Hne & Hlen).
  assert (w = MIC \/ w = ENC) as Hw' by (destruct Hw as [|[? _]]; auto).
  set (cmd := w ++ 32 :: base64 tok ++ [13; 10]). pose proof (base64_length tok) as Hb.
  pose proof (Nat.div_mod (length tok + 2) 3 ltac:(lia)) as Hdm. pose proof (Nat.mod_upper_bound (length tok + 2) 3 ltac:(lia)).
  assert (length w = 3%nat) as Hw3 by (by destruct Hw' as [-> | ->]).
  assert (length cmd = length (base64 tok) + 6)%nat as Hcmd.
  { unfold cmd. rewrite length_app. cbn. rewrite length_app. cbn. lia. }
  assert (INT_MAX = 2147483647) as Hint by done. assert (INT_MIN < 0) by done. change (2 ^ 26) with 67108864 in *.
  unfold globus_i_ftp_control_decode_command.
  assert (Z.of_nat (length cmd) < 2 ^ 27) as Hc27 by (change (2 ^ 27) with 134217728; lia).
  change (2 ^ 27) with 134217728 in Hc27.
  rewrite swrap_small by (change (2 ^ (32 - 1)) with 2147483648; lia).
  unfold mbind, result_bind. rewrite s32_ok by lia.
  destruct (malloc_total (Z.of_nat (length cmd) + 1)) as [tmp Htmp]; [lia|]. rewrite Htmp. apply malloc_length in Htmp.
  destruct (scan_word w (base64 tok ++ [13; 10]) Hw') as [E4 Eup]. fold cmd in E4. rewrite E4, Eup.
  rewrite store_start by (rewrite length_app; cbn; lia).
  set (tmp1 := (w ++ [0]) ++ drop (length (w ++ [0])) tmp).
  assert (length tmp1 = length cmd + 1)%nat as Htmp1.
  { unfold tmp1. rewrite length_app, length_drop, length_app. cbn. lia. }
  rewrite store_start by lia. set (tmp2 := w ++ drop (length w) tmp1).
  assert (length tmp2 = length cmd + 1)%nat as Htmp2 by (unfold tmp2; rewrite length_app, length_drop; lia).
  assert (negb (bool_decide (w = MIC)) && negb (bool_decide (w = ENC)) = false) as ->
    by (destruct Hw' as [-> | ->]; done).
  assert (bool_decide (w = ENC) && negb encrypt = false) as -> by (destruct Hw as [-> | [-> ->]]; done).
  unfold cmd at 1. rewrite scan_encoded by done. rewrite store_start by (rewrite length_app; cbn; lia).
  rewrite <- app_assoc. cbn [app]. rewrite cstring_app by apply base64_nonzero.
  set (tmp3 := base64 tok ++ _). rewrite !s32_ok by lia.
  set (m := Z.quot _ 8).
  assert (m = (Z.of_nat (length cmd) + 3) * 6 / 8) as Hm by (unfold m; apply Z.quot_div_nonneg; lia).
  destruct (malloc_total m) as [decoded Hdec]; [rewrite Hm; apply Z.div_pos; lia|]. rewrite Hdec. apply malloc_length in Hdec.
  destruct (radix_decode_base64 tok [] decoded Hbytes ltac:(by left)) as (rest & Hrun).
  { apply Nat2Z.inj_le. rewrite Hdec, Hm. rewrite Hcmd, Hb. clear -Hdm. revert Hdm. Z.to_euclidean_division_equations. lia. }
  rewrite app_nil_r in Hrun. rewrite Hrun, Nat2Z.id, take_app_length. rewrite (gss_unwrap_wrap _ _ _ Hwrap).
  unfold c_assert. zdecide.
  assert (length tmp3 = length cmd + 1)%nat as Htmp3.
  { unfold tmp3. rewrite length_app. cbn. rewrite length_drop, length_app. cbn. lia. }
  rewrite store_start by lia. destruct (drop (length msg) tmp3) as [|x suf] eqn:Ed.
  { apply (f_equal length) in Ed. rewrite length_drop in Ed. cbn in Ed. lia. }
  rewrite c_update_app by done. by exists suf.
Qed.

(** C18: a command protected by the client is recovered by the server. For every
    command the GSS-API can wrap, [globus_i_ftp_control_encode_command] returns a
    string that [globus_i_ftp_control_decode_command] decodes to the original
    command: neither routine leaves its buffers, the integers do not overflow and
    the assertion on the length holds. A command sent encrypted needs a server
    whose context allows encryption. *)
Theorem command_roundtrip cmd conf tok encrypt :
  gss_wrap cmd = Some (conf, tok) -> Forall (fun c => c <> 0) cmd -> Z.of_nat (length tok) < 2 ^ 26 ->
  (conf = 0 \/ encrypt = true) ->
  exists buf buf', globus_i_ftp_control_encode_command gss_wrap malloc cmd = Ok (Some buf) /\
    globus_i_ftp_control_decode_command gss_unwrap malloc encrypt (cstring buf) = Ok (Some buf') /\
    cstring buf' = cmd.
Proof.
  intros Hwrap Hcmd Hmax Hconf. destruct (gss_wrap_token _ _ _ Hwrap) as (Hbytes & _).
  set (w := if conf =? 0 then MIC else ENC).
  destruct (encode_with_spec (fun c => if c =? 0 then MIC ++ [32] else ENC ++ [32]) (w ++ [32]) [] cmd conf tok)
    as (rest & Henc); [done|done|apply malloc_total; Z.to_euclidean_division_equations; lia
                      |unfold w; by destruct (conf =? 0)|unfold w; by destruct (conf =? 0)|cbn; lia|].
  destruct (decode_command_spec w tok cmd conf encrypt) as (rest' & Hdec); [|done|done|].
  { unfold w. destruct (Z.eqb_spec conf 0); [by left|right]. split; [done|]. by destruct Hconf. }
  eexists _, _. split; [exact Henc|]. rewrite cstring_app.
  - rewrite <- app_assoc. cbn [app]. rewrite Hdec. split; [done|]. by apply cstring_app.
  - apply Forall_app. split; [unfold w; destruct (conf =? 0); by repeat constructor|].
    apply Forall_app. split; [apply base64_nonzero|by repeat constructor].
Qed.
End Roundtrip.

(** ** Finding the end of a reply

    The lines of the bytes received so far, read from left to right: [cur] is the
    current line up to the position [pos]. *)

(** NNN<space>... and NNN<space or dash>... *)
Definition is_final (line : list Z) : bool :=
  match line with
  | a :: b :: c :: d :: _ => isdigit a && isdigit b && isdigit c && (d =? 32)
  | _ => false
  end.

Definition is_reply (line : list Z) : bool :=
  match line with
  | a :: b :: c :: d :: _ => isdigit a && isdigit b && isdigit c && ((d =? 32) || (d =? 45))
  | _ => false
  end.

Inductive verdict :=
| Incomplete
| Malformed
| Found (after : nat) (start : nat).

(** The first final line, provided the first line is one of a reply. *)
Fixpoint find_final (first : bool) (cur s : list Z) (pos : nat) : verdict :=
  match s with
  | [] => Incomplete
  | c :: s' =>
      match s' with
      | c' :: s'' =>
          if (c =? CR) && (c' =? LF) then
            if first && negb (is_reply cur) then Malformed
            else if is_final cur then Found (pos + 2) (pos - length cur)
            else find_final false [] s'' (pos + 2)
          else find_final first (cur ++ [c]) s' (pos + 1)
      | [] => Incomplete
      end
  end.


Lemma three_digits_spec pre x0 x1 x2 rest i :
  i = Z.of_nat (length pre) -> three_digits (pre ++ x0 :: x1 :: x2 :: rest) i = Ok (isdigit x0 && isdigit x1 && isdigit x2).
Proof.
  intros ->. unfold three_digits, mbind, result_bind. rewrite c_index_app by done.
  destruct (isdigit x0); [|done]. cbn [negb]. rewrite snoc_cons, c_index_app by (rewrite length_app; cbn; lia).
  destruct (isdigit x1); [|done]. cbn [negb andb]. rewrite snoc_cons, c_index_app by (rewrite !length_app; cbn; lia). done.
Qed.

(** What the code reads at the start of a complete line, with two bytes after it. *)
Lemma line_probe pre cur x y rest i :
  i = Z.of_nat (length pre) ->
  exists sep d, c_index (pre ++ cur ++ CR :: LF :: x :: y :: rest) (i + 3) = Ok sep /\
    three_digits (pre ++ cur ++ CR :: LF :: x :: y :: rest) i = Ok d /\
    (if sep =? 32 then d else false) = is_final cur /\
    ((4 <= length cur)%nat -> d && ((sep =? 32) || (sep =? 45)) = is_reply cur).
Proof.
  intros ->.
  assert (forall a b c d tl, exists sep dg, c_index (pre ++ a :: b :: c :: d :: tl) (Z.of_nat (length pre) + 3) = Ok sep /\
            three_digits (pre ++ a :: b :: c :: d :: tl) (Z.of_nat (length pre)) = Ok dg /\
            sep = d /\ dg = isdigit a && isdigit b && isdigit c) as H.
  { intros a b c d tl. exists d. eexists. rewrite three_digits_spec by done. split_and!; [|done..].
    rewrite (snoc_cons pre), (snoc_cons (pre ++ _)), (snoc_cons ((pre ++ _) ++ _)).
    apply c_index_app. rewrite !length_app. cbn. lia. }
  destruct cur as [|a [|b [|c [|d cur]]]]; cbn [app];
    match goal with |- context [pre ++ ?a :: ?b :: ?c :: ?d :: ?tl] => destruct (H a b c d tl) as (sep & dg & E1 & E2 & -> & ->) end;
    eexists _, _; (split_and!; [exact E1|exact E2| |cbn [length is_reply]; try lia; done]); cbn [is_final].
  - by destruct (y =? 32).
  - change (isdigit CR) with false. rewrite andb_false_r. by destruct (x =? 32).
  - done.
  - done.
  - destruct (d =? 32); [by rewrite andb_true_r|by rewrite andb_false_r].
Qed.

(** The loop of [end_of_reply] computes [find_final] of the bytes received, if
    two more bytes of the buffer can be read. *)
Lemma find_reply_spec n first pre cur s x y rest :
  (length s < n)%nat ->
  let pos := (length pre + length cur)%nat in
  let buff := pre ++ cur ++ s ++ x :: y :: rest in
  (first = true -> pre = []) ->
  exists last, find_reply n buff (Z.of_nat (pos + length s)) (Z.of_nat pos + 1) (Z.of_nat (length pre) - 1) first =
    Ok (match find_final first cur s pos with
        | Incomplete => Some (0, last)
        | Malformed => None
        | Found after start => Some (Z.of_nat after, Z.of_nat start - 1)
        end).
Proof.
  revert first pre cur s. induction n as [n IH] using lt_wf_ind. intros first pre cur s Hn pos buff Hfirst.
  destruct n as [|n]; [lia|]. cbn [find_reply]. destruct s as [|c [|c' s]].
  - cbn [length]. destruct (Z.ltb_spec (Z.of_nat pos + 1) (Z.of_nat (pos + 0))); [lia|]. by eexists.
  - cbn [length]. destruct (Z.ltb_spec (Z.of_nat pos + 1) (Z.of_nat (pos + 1))); [lia|]. by eexists.
  - cbn [length]. destruct (Z.ltb_spec (Z.of_nat pos + 1) (Z.of_nat (pos + S (S (length s))))); [|lia].
    unfold mbind, result_bind. unfold buff. rewrite app_assoc. cbn [app].
    rewrite c_index_app by (rewrite length_app; unfold pos; lia).
    assert (exists d, (if c =? CR then c_index ((pre ++ cur) ++ c :: c' :: s ++ x :: y :: rest) (Z.of_nat pos + 1) else Ok 0) = Ok d /\
              (c =? CR) && (d =? LF) = (c =? CR) && (c' =? LF)) as (d & -> & Ed).
    { destruct (c =? CR); [|by exists 0]. exists c'. split; [|done]. rewrite snoc_cons.
      apply c_index_app. rewrite !length_app. cbn. unfold pos. lia. }
    rewrite Ed. cbn [find_final]. destruct ((c =? CR) && (c' =? LF)) eqn:Ecr.
    + apply andb_true_iff in Ecr as [->%Z.eqb_eq ->%Z.eqb_eq].
      assert (exists x' y' rest', s ++ x :: y :: rest = x' :: y' :: rest') as (x' & y' & rest' & Erest).
      { destruct s as [|? [|? s]]; cbn [app]; by eexists _, _, _. }
      rewrite Erest, <- app_assoc.
      destruct (line_probe pre cur x' y' rest' (Z.of_nat (length pre) - 1 + 1)) as (sep & dg & Hsep & Hdg & Hfin & Hrep); [lia|].
      replace (Z.of_nat (length pre) - 1 + 4) with (Z.of_nat (length pre) - 1 + 1 + 3) by lia.
      rewrite Hsep, Hdg.
      assert ((if first then if Z.of_nat pos + 1 <? 5 then Ok false else if negb dg then Ok false else Ok ((sep =? 32) || (sep =? 45))
               else Ok true) = Ok (negb (first && negb (is_reply cur)))) as ->.
      { destruct first; [|done]. cbn [andb]. rewrite negb_involutive.
        assert (pos = length cur) as -> by (unfold pos; by rewrite (Hfirst eq_refl)).
        destruct (Z.ltb_spec (Z.of_nat (length cur) + 1) 5).
        - destruct cur as [|? [|? [|? [|? ?]]]]; cbn in *; (done || lia).
        - rewrite <- Hrep by lia. by destruct dg. }
      rewrite negb_involutive. destruct (first && negb (is_reply cur)); [by exists 0|].
      assert ((if sep =? 32 then Ok dg else Ok false) = Ok (is_final cur)) as -> by (rewrite <- Hfin; by destruct (sep =? 32)).
      destruct (is_final cur).
      { exists 0. do 3 f_equal; [unfold pos; lia|]. unfold pos. lia. }
      rewrite <- Erest.
      set (pre' := pre ++ cur ++ [CR; LF]). assert (length pre' = pos + 2)%nat as Hpre' by (unfold pre', pos; rewrite !length_app; cbn; lia).
      assert (pre ++ cur ++ CR :: LF :: s ++ x :: y :: rest = pre' ++ [] ++ s ++ x :: y :: rest) as ->
        by (unfold pre'; by rewrite <- !app_assoc).
      destruct n as [|n]; [cbn in Hn; lia|]. cbn [find_reply].
      destruct s as [|c s].
      { cbn [length]. destruct (Z.ltb_spec (Z.of_nat pos + 1 + 1) (Z.of_nat (pos + 2))); [lia|]. by eexists. }
      destruct (Z.ltb_spec (Z.of_nat pos + 1 + 1) (Z.of_nat (pos + S (S (length (c :: s)))))); [|cbn in *; lia].
      unfold mbind, result_bind.
      assert (c_index (pre' ++ [] ++ (c :: s) ++ x :: y :: rest) (Z.of_nat pos + 1 + 1 - 1) = Ok LF) as ->.
      { replace (pre' ++ [] ++ (c :: s) ++ x :: y :: rest) with ((pre ++ cur ++ [CR]) ++ LF :: (c :: s) ++ x :: y :: rest)
          by (unfold pre'; by rewrite <- !app_assoc).
        apply c_index_app. rewrite !length_app. cbn. lia. }
      change (LF =? CR) with false. cbn [andb].
      destruct (IH n ltac:(lia) false pre' [] (c :: s)) as (last & E); [cbn in *; lia|done|].
      exists last. rewrite Hpre' in E. cbn [length Nat.add] in E |- *. rewrite Nat.add_0_r in E.
      replace (Z.of_nat pos + 1 + 1 + 1) with (Z.of_nat (pos + 2) + 1) by lia.
      replace (Z.of_nat pos + 1) with (Z.of_nat (pos + 2) - 1) by lia.
      replace (pos + S (S (S (length s))))%nat with (pos + 2 + S (length s))%nat by lia. exact E.
    + destruct (IH n ltac:(lia) first pre (cur ++ [c]) (c' :: s)) as (last & E); [cbn in *; lia|done|].
      exists last. rewrite length_app in E. cbn [length] in E. rewrite <- !app_assoc in E |- *. cbn [app] in E.
      unfold pos. replace (length pre + length cur + S (S (length s)))%nat with (length pre + (length cur + 1) + S (length s))%nat by lia.
      replace (Z.of_nat (length pre + length cur) + 1 + 1) with (Z.of_nat (length pre + (length cur + 1)) + 1) by lia.
      rewrite E. by rewrite Nat.add_assoc.
Qed.





Lemma final_is_reply l : is_final l = true -> is_reply l = true.
Proof. destruct l as [|a [|b [|c [|d l]]]]; cbn; [done..|]. by destruct (isdigit a), (isdigit b), (isdigit c), (d =? 32). Qed.


Lemma find_final_found first pre cur s e st :
  find_final first cur s (length pre + length cur) = Found e st ->
  exists b1 line b2, pre ++ cur ++ s = b1 ++ line ++ CR :: LF :: b2 /\ st = length b1 /\
    e = (length b1 + length line + 2)%nat /\ is_final line = true.
Proof.
  remember (length s) as m eqn:Hm. revert first pre cur s Hm. induction m as [m IH] using lt_wf_ind. intros first pre cur s Hm.
  destruct s as [|c [|c' s]]; cbn [find_final]; [done|done|]. destruct ((c =? CR) && (c' =? LF)) eqn:E.
  - apply andb_true_iff in E as [->%Z.eqb_eq ->%Z.eqb_eq]. destruct (first && negb (is_reply cur)); [done|].
    destruct (is_final cur) eqn:Ef.
    + intros [= <- <-]. exists pre, cur, s. split_and!; [done|lia|lia|done].
    + intros Hf. destruct (IH (length s)) with false (pre ++ cur ++ [CR; LF]) (@nil Z) s as (b1 & line & b2 & Eq & ?);
        [cbn in Hm; lia|done| |].
      * rewrite !length_app. cbn [length]. rewrite <- Hf. f_equal. lia.
      * exists b1, line, b2. split; [|done]. rewrite <- Eq, <- !app_assoc. done.
  - intros Hf. destruct (IH (S (length s)) ltac:(cbn in Hm; lia) first pre (cur ++ [c]) (c' :: s)) as (b1 & line & b2 & Eq & ?); [done| |].
    + rewrite length_app, Nat.add_assoc. exact Hf.
    + exists b1, line, b2. split; [|done]. rewrite <- Eq, <- !app_assoc. done.
Qed.

(** The code of a line that starts with three digits. *)
Lemma scan_code a b c tl :
  isdigit a = true -> isdigit b = true -> isdigit c = true ->
  scan_d (cstring (a :: b :: c :: 32 :: tl)) = Some (100 * (a - 48) + 10 * (b - 48) + (c - 48)).
Proof.
  intros Ha Hb Hc. pose proof Ha as Ha'. pose proof Hb as Hb'. pose proof Hc as Hc'.
  unfold isdigit in Ha', Hb', Hc'. rewrite !andb_true_iff, !Z.leb_le in Ha', Hb', Hc'.
  cbn [cstring]. zdecide. unfold scan_d. rewrite skip_space_id.
  - zdecide. rewrite Ha. cbn [scan_digits]. rewrite Ha, Hb, Hc. change (isdigit 32) with false. cbn iota. f_equal. lia.
  - unfold isspace. zdecide. done.
Qed.

Section Reply.
Context (gss_unwrap : list Z -> option (list Z)) (malloc : Z -> option (list Z)).

(** [r] holds the bytes [B] and its buffer has at least two more. *)
Definition received (r : response) (B : list Z) : Prop :=
  exists x y rest, response_buffer r = B ++ x :: y :: rest /\ response_length r = Z.of_nat (length B).


Lemma find_reply_received r B :
  received r B ->
  exists last, find_reply (S (Z.to_nat (response_length r))) (response_buffer r) (response_length r) 1 (-1) true =
    Ok (match find_final true [] B 0 with
        | Incomplete => Some (0, last)
        | Malformed => None
        | Found after start => Some (Z.of_nat after, Z.of_nat start - 1)
        end).
Proof.
  intros (x & y & rest & -> & ->). rewrite Nat2Z.id.
  destruct (find_reply_spec (S (length B)) true [] [] B x y rest) as (last & E); [lia|done|]. by exists last.
Qed.


(** The number that three digit characters are. *)
Definition number (line : list Z) : Z :=
  match line with a :: b :: c :: _ => 100 * (a - 48) + 10 * (b - 48) + (c - 48) | _ => 0 end.

(** Making room for the NUL after the first [e] bytes. *)
Lemma make_room (B rest : list Z) e x :
  (e <= length B)%nat ->
  exists buff, store (B ++ x :: rest) (Z.of_nat e + 1)
      (take (length B - e) (drop e (B ++ x :: rest))) = Ok buff /\
    c_update buff (Z.of_nat e) 0 = Ok (take e B ++ 0 :: drop e B ++ rest).
Proof.
  intros He. set (D := drop e B). assert (length (take e B) = e) as Hl by (rewrite length_take; lia).
  assert (length D = length B - e)%nat as HD by (unfold D; apply length_drop).
  assert (take (length B - e) (drop e (B ++ x :: rest)) = D) as ->.
  { rewrite drop_app_le by lia. fold D. rewrite <- HD. apply take_app_length. }
  destruct (D ++ [x]) as [|h old] eqn:Eh; [by destruct D|].
  assert (B ++ x :: rest = (take e B ++ [h]) ++ old ++ rest) as ->.
  { rewrite <- (take_drop e B) at 1. fold D. rewrite <- !app_assoc. f_equal. cbn [app].
    change (h :: old ++ rest) with ((h :: old) ++ rest). rewrite <- Eh, <- app_assoc. done. }
  eexists. split; [apply store_app|].
  - apply (f_equal length) in Eh. rewrite length_app in Eh. cbn in Eh. lia.
  - rewrite length_app, Hl. cbn. lia.
  - rewrite <- app_assoc. cbn [app]. apply c_update_app. lia.
Qed.

(** A plain reply is delimited exactly. When the first line received is one
    of a reply and a final line NNN<space>... has arrived, [end_of_reply] returns
    the index after the first such line (and the NUL put there), whatever follows
    it: the reply is NUL terminated, the bytes after it are kept, and the code
    and class are those of the final line. *)
Theorem end_of_reply_plain r B e st :
  received r B -> response_length r < response_buffer_size r ->
  find_final true [] B 0 = Found e st -> B !! st <> Some 54 ->
  exists r' b1 line b2 rest, globus_l_ftp_control_end_of_reply gss_unwrap malloc 0 r = Ok (Z.of_nat e + 1, r') /\
    B = (b1 ++ line ++ [CR; LF]) ++ b2 /\ e = length (b1 ++ line ++ [CR; LF]) /\ st = length b1 /\ is_final line = true /\
    response_buffer r' = (b1 ++ line ++ [CR; LF]) ++ 0 :: b2 ++ rest /\ response_length r' = response_length r + 1 /\
    code r' = number line /\ response_class r' = class_of (nth 0 line 0).
Proof.
  intros Hr Hsize Hfound H54. destruct (find_reply_received r B Hr) as (last & Hfind). rewrite Hfound in Hfind.
  destruct Hr as (x & y & rest & Hb & Hl).
  destruct (find_final_found true [] [] B e st Hfound) as (b1 & line & b2 & HB & Hst & He & Hfin). cbn [app] in HB.
  assert (B = (b1 ++ line ++ [CR; LF]) ++ b2) as HB' by (rewrite HB, <- !app_assoc; done).
  assert (e = length (b1 ++ line ++ [CR; LF])) as He' by (rewrite He, !length_app; cbn; lia).
  assert (e <= length B)%nat as Hle by (rewrite HB', length_app; lia).
  assert (take e B = b1 ++ line ++ [CR; LF]) as Ht by (rewrite HB', He'; apply take_app_length).
  assert (drop e B = b2) as Hd by (rewrite HB', He'; apply drop_app_length).
  destruct line as [|a [|b [|c [|d line]]]]; try done. cbn [is_final] in Hfin.
  rewrite !andb_true_iff in Hfin. destruct Hfin as [[[Ha Hb'] Hc] ->%Z.eqb_eq].
  destruct (make_room B (y :: rest) e x Hle) as (buff & Hstore & Hupd). rewrite Ht, Hd in Hupd.
  set (buff' := (b1 ++ _) ++ _) in Hupd.
  assert (buff' = b1 ++ a :: b :: c :: 32 :: (line ++ [CR; LF] ++ 0 :: b2 ++ y :: rest)) as Hbuff'.
  { unfold buff'. by rewrite <- !app_assoc. }
  eexists _, b1, (a :: b :: c :: 32 :: line), b2, (y :: rest).
  split_and!; [|exact HB'|exact He'|exact Hst|cbn; by rewrite Ha, Hb', Hc|..].
  - unfold globus_l_ftp_control_end_of_reply. cbn [Z.eqb negb andb]. unfold mbind, result_bind. cbn [negb]. rewrite Hfind.
    destruct (Z.eqb_spec (Z.of_nat e) 0) as [E0|_]; [rewrite He in E0; lia|].
    replace (Z.of_nat st - 1 + 1) with (Z.of_nat st) by lia.
    assert (B !! st = Some a) as Hsta by (rewrite HB, Hst; apply list_lookup_middle; done).
    rewrite (c_index_ok (response_buffer r) (Z.of_nat st) a);
      [|lia|rewrite Nat2Z.id, Hb; by apply lookup_app_l_Some].
    destruct (Z.eqb_spec a 54) as [->|_]; [congruence|].
    unfold plain_reply. destruct (Z.ltb_spec (response_buffer_size r) (response_length r + 1)); [lia|].
    rewrite Hb. replace (Z.to_nat (response_length r + 1 - (Z.of_nat e + 1))) with (length B - e)%nat by lia.
    replace (Z.to_nat (Z.of_nat e + 1 - 1)) with e by lia. unfold mbind, result_bind. rewrite Hstore.
    unfold finish_reply. cbn [response_buffer]. replace (Z.of_nat e + 1 - 1) with (Z.of_nat e) by lia.
    unfold mbind, result_bind. rewrite Hupd, Hbuff'. replace (Z.to_nat (Z.of_nat st - 1 + 1)) with (length b1) by lia.
    rewrite drop_app_length, scan_code by done. rewrite bool_decide_true by by eexists. cbn [c_assert].
    rewrite c_index_app by lia. cbn [default]. reflexivity.
  - cbn [response_buffer]. by rewrite <- Hbuff'.
  - done.
  - done.
  - done.
Qed.
End Reply.

(** ** Concrete contexts *)

(** A context that puts a byte in front of a message of bytes, an allocator of
    bytes 7, and one that has no memory. *)
Definition example_wrap (m : list Z) : option (Z * list Z) :=
  if forallb (fun c => (0 <=? c) && (c <? 256)) m then Some (0, 5 :: m) else None.
Definition example_unwrap (t : list Z) : option (list Z) := match t with [] => None | _ :: m => Some m end.
Definition example_malloc (n : Z) : option (list Z) := if n <? 0 then None else Some (replicate (Z.to_nat n) 7).

Lemma example_malloc_length n b : example_malloc n = Some b -> Z.of_nat (length b) = n.
Proof. unfold example_malloc. destruct (Z.ltb_spec n 0); [done|]. intros [= <-]. rewrite length_replicate. lia. Qed.

Lemma example_wrap_token m conf t : example_wrap m = Some (conf, t) -> Forall byte t /\ t <> [] /\ (length m <= length t)%nat.
Proof.
  unfold example_wrap. destruct (forallb _ m) eqn:E; [|done]. intros [= <- <-]. split_and!; [|done|cbn; lia].
  apply Forall_cons. split; [done|]. rewrite forallb_forall in E. apply Forall_forall. intros c Hc%list_elem_of_In.
  specialize (E c Hc). rewrite andb_true_iff, Z.leb_le, Z.ltb_lt in E. done.
Qed.

(** "NOOP" *)
Lemma command_roundtrip_witness :
  exists buf buf', globus_i_ftp_control_encode_command example_wrap example_malloc [78; 79; 79; 80] = Ok (Some buf) /\
    globus_i_ftp_control_decode_command example_unwrap example_malloc false (cstring buf) = Ok (Some buf') /\
    cstring buf' = [78; 79; 79; 80].
Proof.
  apply (command_roundtrip example_wrap example_unwrap example_malloc example_malloc_length) with (conf := 0) (tok := [5; 78; 79; 79; 80]).
  - unfold example_wrap. intros m conf t. destruct (forallb _ m); [|done]. by intros [= <- <-].
  - exact example_wrap_token.
  - intros n Hn. unfold example_malloc. zdecide. by eexists.
  - by vm_compute.
  - repeat constructor; done.
  - done.
  - by left.
Defined.

Definition example_bytes : list Z := codes "220-hi" ++ [CR; LF] ++ codes "220 ok" ++ [CR; LF; 65].
Definition example_response : response := Response 0 GLOBUS_FTP_UNKNOWN_REPLY (example_bytes ++ [7; 7; 7]) 20 17.

Lemma example_received : received example_response example_bytes.
Proof. by exists 7, 7, [7]. Qed.


Lemma end_of_reply_plain_witness :
  exists r' b1 line b2 rest, globus_l_ftp_control_end_of_reply example_unwrap example_malloc 0 example_response = Ok (17, r') /\
    example_bytes = (b1 ++ line ++ [CR; LF]) ++ b2 /\ 16%nat = length (b1 ++ line ++ [CR; LF]) /\ 8%nat = length b1 /\
    is_final line = true /\
    response_buffer r' = (b1 ++ line ++ [CR; LF]) ++ 0 :: b2 ++ rest /\ response_length r' = response_length example_response + 1 /\
    code r' = number line /\ response_class r' = class_of (nth 0 line 0).
Proof.
  apply (end_of_reply_plain example_unwrap example_malloc example_response example_bytes 16 8 example_received); by vm_compute.
Defined.

(** A read of 200 bytes that ends with an empty line fills the buffer but for one
    byte, and the scan for the end of the reply reads beyond it. *)
Lemma blank_line_overread :
  exists r, append_response example_malloc (Response 0 GLOBUS_FTP_UNKNOWN_REPLY (replicate 200 0) 200 0)
      (codes "220-" ++ replicate 192 97 ++ [CR; LF; CR; LF]) = Ok (Some r) /\
    globus_l_ftp_control_end_of_reply example_unwrap example_malloc 0 r = Fault OutOfBounds.
Proof. eexists. split; vm_compute; reflexivity. Qed.

(** A malformed first line that arrives in two reads is not reported. *)
Lemma hint_hides_malformed :
  let r := Response 0 GLOBUS_FTP_UNKNOWN_REPLY (codes "garbage" ++ [CR; LF; 7; 7; 7]) 12 9 in
  globus_l_ftp_control_end_of_reply example_unwrap example_malloc 0 r = Ok (-1, r) /\
  globus_l_ftp_control_end_of_reply example_unwrap example_malloc 4 r = Ok (0, r).
Proof. split; vm_compute; reflexivity. Qed.
End FtpControl.
