(* ===== verification/Url.v ===== *)
(** * URLs (common/source/library/globus_url.c)

    The parser of URLs and the escaping of characters. A [char *] field of
    [globus_url_t] is NULL or a C string. The parser moves the pointer
    [substring] along the URL: a pointer is the rest of the string. Allocations
    and frees go through the heap of Prelude.v ([cmd]), which may refuse any of
    them and counts the live blocks. The code is that of a system other than
    Windows. *)
From S2P Require Import Prelude.
From S2P Require Import Chars.
From S2P Require Import Stdio.
Local Open Scope Z_scope.

Module Url.

Definition GLOBUS_URL_ERROR_NULL_STRING : Z := -1.
Definition GLOBUS_URL_ERROR_NULL_URL : Z := -2.
Definition GLOBUS_URL_ERROR_BAD_SCHEME : Z := -3.
Definition GLOBUS_URL_ERROR_BAD_USER : Z := -4.
Definition GLOBUS_URL_ERROR_BAD_PASSWORD : Z := -5.
Definition GLOBUS_URL_ERROR_BAD_HOST : Z := -6.
Definition GLOBUS_URL_ERROR_BAD_PORT : Z := -7.
Definition GLOBUS_URL_ERROR_BAD_PATH : Z := -8.
Definition GLOBUS_URL_ERROR_BAD_DN : Z := -9.
Definition GLOBUS_URL_ERROR_BAD_ATTRIBUTES : Z := -10.
Definition GLOBUS_URL_ERROR_BAD_SCOPE : Z := -11.
Definition GLOBUS_URL_ERROR_BAD_FILTER : Z := -12.
Definition GLOBUS_URL_ERROR_OUT_OF_MEMORY : Z := -13.
Definition GLOBUS_URL_ERROR_INTERNAL_ERROR : Z := -14.

Inductive scheme_type :=
| GLOBUS_URL_SCHEME_FTP
| GLOBUS_URL_SCHEME_GSIFTP
| GLOBUS_URL_SCHEME_HTTP
| GLOBUS_URL_SCHEME_HTTPS
| GLOBUS_URL_SCHEME_LDAP
| GLOBUS_URL_SCHEME_FILE
| GLOBUS_URL_SCHEME_X_NEXUS
| GLOBUS_URL_SCHEME_X_GASS_CACHE
| GLOBUS_URL_SCHEME_UNKNOWN
| GLOBUS_URL_SCHEME_SSHFTP.

#[export] Instance scheme_type_eq_dec : EqDecision scheme_type.
Proof. solve_decision. Defined.

Abbreviation str := (list Z) (only parsing).

Record url := Url {
  scheme : option str;
  type : scheme_type;
  user : option str;
  password : option str;
  host : option str;
  port : Z;
  url_path : option str;
  dn : option str;
  attributes : option str;
  scope : option str;
  filter : option str;
  url_specific_part : option str;
}.

(** ** Character classes of RFC 1738 *)

Definition mem (x : Z) (s : string) : bool := existsb (Z.eqb x) (codes s).

Definition globusl_url_issafe (x : Z) : bool := mem x "$-_.+".
Definition globusl_url_isglob (x : Z) : bool := mem x "*?[]{}!?=,:-".
Definition globusl_url_isextra (x : Z) : bool := mem x "!*'(),".
Definition globusl_url_isscheme_special (x : Z) : bool := mem x ";/?:@=&".

(** The value of a hexadecimal digit, as [strtol] reads it. *)
Definition hexval (c : Z) : Z :=
  if isdigit c then c - 48 else if isupper c then c - 55 else c - 87.

Definition percent : Z := 37.

(** ** Copying a part of the URL *)

(** The loop of [globusl_url_get_substring] over the characters to copy: "%XX"
    becomes a character, if the three are among them. *)
Fixpoint unescape (s : str) : str :=
  match s with
  | c :: s' =>
      if c =? percent then
        match s' with
        | a :: b :: s'' =>
            if isxdigit a && isxdigit b then hexval a * 16 + hexval b :: unescape s'' else c :: unescape s'
        | _ => c :: unescape s'
        end
      else c :: unescape s'
  | [] => []
  end.

(** The status and the copy of the first [nulpos] characters of [src], which may
    include its NUL. *)
Definition globusl_url_get_substring (src : str) (nulpos : nat) : cmd (Z * option str) :=
  ok ← malloc;
  if (ok : bool) then mret (GLOBUS_SUCCESS, Some (cstring (unescape (take nulpos (src ++ [0])))))
  else mret (GLOBUS_URL_ERROR_NULL_STRING, None).

(** [if(s[pos] == '%')]: the position after "%XX", or [None] if the two
    characters are not hexadecimal digits. *)
Definition escape (s : str) (pos : nat) : option nat :=
  if char_at s pos =? percent then
    if isxdigit (char_at s (pos + 1)) then
      if isxdigit (char_at s (pos + 2)) then Some (pos + 3)%nat else None
    else None
  else Some pos.

(** ** The parts of a URL

    Each returns a status, the rest of the string and the fields it set. *)

Definition scheme_char (c : Z) : bool := islower c || isdigit c || mem c "+-.".

Definition scheme_of (s : str) : scheme_type :=
  if bool_decide (s = codes "ftp") then GLOBUS_URL_SCHEME_FTP
  else if bool_decide (s = codes "gsiftp") then GLOBUS_URL_SCHEME_GSIFTP
  else if bool_decide (s = codes "http") then GLOBUS_URL_SCHEME_HTTP
  else if bool_decide (s = codes "https") then GLOBUS_URL_SCHEME_HTTPS
  else if bool_decide (s = codes "ldap") then GLOBUS_URL_SCHEME_LDAP
  else if bool_decide (s = codes "file") then GLOBUS_URL_SCHEME_FILE
  else if bool_decide (s = codes "x-nexus") then GLOBUS_URL_SCHEME_X_NEXUS
  else if bool_decide (s = codes "x-gass-cache") then GLOBUS_URL_SCHEME_X_GASS_CACHE
  else if bool_decide (s = codes "sshftp") then GLOBUS_URL_SCHEME_SSHFTP
  else GLOBUS_URL_SCHEME_UNKNOWN.

(** The rest starts with the colon. The type is not set on an error. *)
Definition globusl_url_get_scheme (s : str) : cmd (Z * str * option str * option scheme_type) :=
  let pos := span scheme_char s in
  if negb (char_at s pos =? 58) then mret (GLOBUS_URL_ERROR_BAD_SCHEME, s, None, None)
  else if (pos =? 0)%nat then mret (GLOBUS_URL_ERROR_BAD_SCHEME, s, None, None)
  else
    '(rc, sch) ← globusl_url_get_substring s pos;
    match sch with
    | None => mret (GLOBUS_URL_ERROR_INTERNAL_ERROR, s, None, None)
    | Some v => mret (GLOBUS_SUCCESS, drop pos s, sch, Some (scheme_of v))
    end.

(** Characters of a user name or a password. *)
Definition user_char (c : Z) : bool :=
  isalnum c || globusl_url_issafe c || globusl_url_isextra c || mem c ";?&=".

(** The two loops that scan [user[:password]@] before anything is copied:
    [Some (inl pos)] where it stopped, [Some (inr tt)] at the end of the string,
    [None] at a bad escape. [stop] are the characters that end the loop. *)
Fixpoint user_loop (n : nat) (P stop : Z -> bool) (s : str) (pos : nat) : result (option (nat + unit)) :=
  match n with
  | O => Fault OutOfFuel
  | S n =>
      let lastpos := pos in
      let pos := (pos + span P (drop pos s))%nat in
      if char_at s pos =? 0 then Ok (Some (inr tt))
      else match escape s pos with
      | None => Ok None
      | Some pos =>
          if negb (stop (char_at s pos)) && negb (pos =? lastpos)%nat then user_loop n P stop s pos
          else Ok (Some (inl pos))
      end
  end.

(** The loop that scans the password: as above, one character at a time. *)
Fixpoint password_loop (n : nat) (s : str) (pos : nat) : result (option nat) :=
  match n with
  | O => Fault OutOfFuel
  | S n =>
      let lastpos := pos in
      let pos := if user_char (char_at s pos) then (pos + 1)%nat else pos in
      if char_at s pos =? 0 then Ok None
      else match escape s pos with
      | None => Ok None
      | Some pos =>
          if negb (char_at s pos =? 64) && negb (pos =? lastpos)%nat then password_loop n s pos
          else Ok (Some pos)
      end
  end.

Definition globusl_url_get_user_password (s : str) : cmd (Z * str * option str * option str) :=
  pre ← lift (user_loop (S (length s)) (fun c => user_char c || (c =? 58)) (fun c => c =? 64) s 0);
  match pre with
  | None => mret (GLOBUS_URL_ERROR_BAD_USER, s, None, None)
  | Some (inr _) => mret (GLOBUS_SUCCESS, s, None, None)
  | Some (inl pos) =>
      if negb (char_at s pos =? 64) then mret (GLOBUS_SUCCESS, s, None, None)
      else
        usr ← lift (user_loop (S (length s)) user_char (fun c => (c =? 64) || (c =? 58)) s 0);
        match usr with
        | None => mret (GLOBUS_URL_ERROR_BAD_USER, s, None, None)
        | Some (inr _) => mret (GLOBUS_SUCCESS, s, None, None)
        | Some (inl pos) =>
            if (pos =? 0)%nat then mret (GLOBUS_URL_ERROR_BAD_USER, s, None, None)
            else if char_at s pos =? 64 then
              '(rc, user) ← globusl_url_get_substring s pos;
              mret (rc, drop (pos + 1) s, user, None)
            else if char_at s pos =? 58 then
              '(rc, user) ← globusl_url_get_substring s pos;
              if negb (rc =? GLOBUS_SUCCESS) then mret (rc, s, user, None)
              else
                let s := drop (pos + 1) s in
                pw ← lift (password_loop (S (length s)) s 0);
                match pw with
                | None => mret (GLOBUS_URL_ERROR_BAD_PASSWORD, s, user, None)
                | Some pos =>
                    if (pos =? 0)%nat then mret (GLOBUS_URL_ERROR_BAD_PASSWORD, s, user, None)
                    else if char_at s pos =? 64 then
                      '(rc, password) ← globusl_url_get_substring s pos;
                      mret (rc, drop (pos + 1) s, user, password)
                    else mret (GLOBUS_SUCCESS, s, user, None)
                end
            else mret (GLOBUS_SUCCESS, s, None, None)
        end
  end.

Definition host_char (c : Z) : bool := isalnum c || mem c "-.".
Definition host6_char (c : Z) : bool := isxdigit c || mem c ":.".

(** The host and, if it is set, the port. *)
Definition globusl_url_get_host_port (s : str) : cmd (Z * str * option str * Z) :=
  let '(s, pos) :=
    if char_at s 0 =? 91 then let s := drop 1 s in (s, span host6_char s) else (s, span host_char s) in
  let c := char_at s pos in
  let c' := char_at s (pos + 1) in
  if (pos =? 0)%nat then mret (GLOBUS_URL_ERROR_BAD_HOST, s, None, 0)
  else if (c =? 58) || (c =? 47) || ((c =? 93) && ((c' =? 58) || (c' =? 47))) then
    '(rc, host) ← globusl_url_get_substring s pos;
    let s := drop (if c =? 93 then (pos + 1)%nat else pos) s in
    if negb (rc =? GLOBUS_SUCCESS) then mret (rc, s, host, 0)
    else if char_at s 0 =? 58 then
      let s := drop 1 s in
      let pos := span isdigit s in
      if (pos =? 0)%nat then mret (GLOBUS_URL_ERROR_BAD_PORT, s, host, 0)
      else
        '(rc, tmp) ← globusl_url_get_substring s pos;
        let s := drop pos s in
        match tmp with
        | None => mret (rc, s, host, 0)
        | Some tmp => _ ← free; mret (GLOBUS_SUCCESS, s, host, uwrap 16 (atoi tmp))
        end
    else mret (GLOBUS_SUCCESS, s, host, 0)
  else if (c =? 0) || ((c =? 93) && (c' =? 0)) then
    '(rc, host) ← globusl_url_get_substring s pos;
    mret (rc, drop (if c =? 93 then (pos + 1)%nat else pos) s, host, 0)
  else mret (GLOBUS_URL_ERROR_BAD_HOST, s, None, 0).

(** The loop over the characters of a path or of a part of an LDAP URL, until a
    character in [stop] or one that it cannot pass; [None] at a bad escape. *)
Fixpoint part_loop (n : nat) (P stop : Z -> bool) (s : str) (pos : nat) : result (option nat) :=
  match n with
  | O => Fault OutOfFuel
  | S n =>
      let lastpos := pos in
      let pos := if P (char_at s pos) then (pos + 1)%nat else pos in
      match escape s pos with
      | None => Ok None
      | Some pos =>
          if negb (stop (char_at s pos)) && negb (pos =? lastpos)%nat then part_loop n P stop s pos
          else Ok (Some pos)
      end
  end.

Definition ldap_char (c : Z) : bool := isalnum c || globusl_url_isextra c || globusl_url_issafe c || (c =? 61).

(** The parts of <dn>?<attributes>?<scope>?<filter> from the [i]-th on: [errs]
    are the errors of those left. *)
Fixpoint ldap_parts (s : str) (errs : list Z) : cmd (Z * str * list (option str)) :=
  match errs with
  | [] => mret (GLOBUS_SUCCESS, s, [])
  | err :: errs =>
      p ← lift (part_loop (S (length s)) ldap_char (fun c => c =? 63) s 0);
      match p with
      | None => mret (err, s, [])
      | Some pos =>
          let last := bool_decide (errs = []) in
          if (pos =? 0)%nat then mret (err, s, [])
          else if (char_at s pos =? 63) && negb last || (char_at s pos =? 0) && last then
            '(rc, v) ← globusl_url_get_substring s pos;
            if negb (rc =? GLOBUS_SUCCESS) then mret (rc, s, [v])
            else '(rc, s, vs) ← ldap_parts (drop (pos + 1) s) errs; mret (rc, s, v :: vs)
          else mret (err, s, [])
      end
  end.

Definition globusl_url_get_ldap_specific (s : str) : cmd (Z * str * list (option str)) :=
  ldap_parts s [GLOBUS_URL_ERROR_BAD_DN; GLOBUS_URL_ERROR_BAD_ATTRIBUTES;
                GLOBUS_URL_ERROR_BAD_SCOPE; GLOBUS_URL_ERROR_BAD_FILTER].

Definition is_ftp (t : scheme_type) : bool :=
  match t with
  | GLOBUS_URL_SCHEME_FTP | GLOBUS_URL_SCHEME_GSIFTP | GLOBUS_URL_SCHEME_SSHFTP => true
  | _ => false
  end.

(** The end of [get_path] and [get_path_loose]: the whole string must be a path,
    and "/~" is "~" in an FTP URL. *)
Definition take_path (s : str) (t : scheme_type) (pos : nat) : cmd (Z * option str) :=
  if (pos =? 0)%nat then mret (GLOBUS_SUCCESS, None)
  else if negb (pos =? length s)%nat then mret (GLOBUS_URL_ERROR_BAD_PATH, None)
  else
    let s := if is_ftp t && (1 <? pos)%nat && (char_at s 0 =? 47) && (char_at s 1 =? 126) then drop 1 s else s in
    globusl_url_get_substring s pos.

Definition path_char (c : Z) : bool :=
  isalnum c || globusl_url_issafe c || globusl_url_isextra c || globusl_url_isscheme_special c || mem c "~/ ".

Definition globusl_url_get_path (s : str) (t : scheme_type) : cmd (Z * option str) :=
  p ← lift (part_loop (S (length s)) path_char (fun c => c =? 0) s 0);
  match p with
  | None => mret (GLOBUS_URL_ERROR_BAD_PATH, None)
  | Some pos => take_path s t pos
  end.

Definition loose_char (c : Z) : bool :=
  isalnum c || globusl_url_issafe c || globusl_url_isextra c || globusl_url_isscheme_special c ||
  globusl_url_isglob c || mem c "~ ".

Definition globusl_url_get_path_loose (s : str) (t : scheme_type) : cmd (Z * option str) :=
  p ← lift (part_loop (S (length s)) loose_char (fun c => c =? 0) s 0);
  match p with
  | None => mret (GLOBUS_URL_ERROR_BAD_PATH, None)
  | Some pos => take_path s t pos
  end.

(** [get_path_rfc1738] copies the path to a buffer of [strlen(s)] bytes without
    its first slash and with one slash for several. The inner loop over slashes
    and the append to [tmpbuf]: *)
Definition put_char (tmpbuf : list Z) (tmppos : nat) (c : Z) : result (list Z * nat) :=
  tmpbuf ← c_update tmpbuf (Z.of_nat tmppos) c; Ok (tmpbuf, (tmppos + 1)%nat).

Fixpoint slash_loop (n : nat) (s : str) (pos : nat) (tmpbuf : list Z) (tmppos : nat) :
    result (nat * list Z * nat) :=
  match n with
  | O => Fault OutOfFuel
  | S n =>
      if char_at s pos =? 47 then
        if (0 <? pos)%nat && negb (char_at s (pos - 1) =? 47) then
          '(tmpbuf, tmppos) ← put_char tmpbuf tmppos 47;
          slash_loop n s (pos + 1) tmpbuf tmppos
        else slash_loop n s (pos + 1) tmpbuf tmppos
      else Ok (pos, tmpbuf, tmppos)
  end.

Definition rfc1738_char (c : Z) : bool :=
  isalnum c || globusl_url_issafe c || globusl_url_isextra c || globusl_url_isscheme_special c || mem c "~ ".

Fixpoint rfc1738_loop (n : nat) (s : str) (pos : nat) (tmpbuf : list Z) (tmppos : nat) :
    result (option (nat * list Z * nat)) :=
  match n with
  | O => Fault OutOfFuel
  | S n =>
      let lastpos := pos in
      '(pos, tmpbuf, tmppos) ← slash_loop (S (length s)) s pos tmpbuf tmppos;
      '(pos, tmpbuf, tmppos) ←
        (if rfc1738_char (char_at s pos)
         then '(tmpbuf, tmppos) ← put_char tmpbuf tmppos (char_at s pos); Ok ((pos + 1)%nat, tmpbuf, tmppos)
         else Ok (pos, tmpbuf, tmppos));
      r ← (if char_at s pos =? percent then
             '(tmpbuf, tmppos) ← put_char tmpbuf tmppos (char_at s pos);
             if isxdigit (char_at s (pos + 1)) then
               '(tmpbuf, tmppos) ← put_char tmpbuf tmppos (char_at s (pos + 1));
               if isxdigit (char_at s (pos + 2)) then
                 '(tmpbuf, tmppos) ← put_char tmpbuf tmppos (char_at s (pos + 2));
                 Ok (Some ((pos + 3)%nat, tmpbuf, tmppos))
               else Ok None
             else Ok None
           else Ok (Some (pos, tmpbuf, tmppos)));
      match r with
      | None => Ok None
      | Some (pos, tmpbuf, tmppos) =>
          if negb (char_at s pos =? 0) && negb (pos =? lastpos)%nat then rfc1738_loop n s pos tmpbuf tmppos
          else Ok (Some (pos, tmpbuf, tmppos))
      end
  end.

(** [tmpbuf] is freed only at the end. *)
Definition globusl_url_get_path_rfc1738 (s : str) (t : scheme_type) : cmd (Z * option str) :=
  ok ← malloc;
  if negb ok then mret (GLOBUS_URL_ERROR_NULL_STRING, None)
  else
    r ← lift (rfc1738_loop (S (length s)) s 0 (replicate (length s) 0) 0);
    match r with
    | None => mret (GLOBUS_URL_ERROR_BAD_PATH, None)
    | Some (pos, tmpbuf, tmppos) =>
        tmpbuf ← lift (c_update tmpbuf (Z.of_nat tmppos) 0);
        if (pos =? 0)%nat then mret (GLOBUS_SUCCESS, None)
        else if negb (pos =? length s)%nat then mret (GLOBUS_URL_ERROR_BAD_PATH, None)
        else
          '(rc, path) ← globusl_url_get_substring (cstring tmpbuf) tmppos;
          _ ← free;
          mret (rc, path)
    end.

(** The leading slashes but one. *)
Definition skip_slashes (s : str) : str :=
  let pos := span (fun c => c =? 47) s in if (1 <? pos)%nat then drop (pos - 1) s else s.

Definition file_path (get_path : str -> scheme_type -> cmd (Z * option str)) (s : str) (host : option str) :
    cmd (Z * option str * option str) :=
  let s := skip_slashes s in
  if negb (char_at s 0 =? 47) then mret (GLOBUS_URL_ERROR_BAD_PATH, host, None)
  else '(rc, path) ← get_path s GLOBUS_URL_SCHEME_FILE; mret (rc, host, path).

(** The status, the host and the path. *)
Definition globusl_url_get_file_specific (s : str) : cmd (Z * option str * option str) :=
  let pos := span (fun c => c =? 47) s in
  if (pos =? 0)%nat then mret (GLOBUS_URL_ERROR_BAD_PATH, None, None)
  else if (pos =? 2)%nat then
    let s := drop pos s in
    let pos := span host_char s in
    if (char_at s pos =? 47) && negb (pos =? 0)%nat then
      '(rc, host) ← globusl_url_get_substring s pos;
      if negb (rc =? GLOBUS_SUCCESS) then mret (rc, host, None)
      else file_path globusl_url_get_path (drop pos s) host
    else file_path globusl_url_get_path s None
  else file_path globusl_url_get_path s None.

(** The loop over the host name has no body of its own: the [if] after it is its
    body, and nothing in it changes [pos]. *)
Fixpoint loose_host_loop (n : nat) (s : str) (pos : nat) : result unit :=
  match n with
  | O => Fault OutOfFuel
  | S n =>
      if host_char (char_at s pos) then loose_host_loop n s pos
      else Ok tt
  end.

Definition globusl_url_get_file_specific_loose (fuel : nat) (s : str) : cmd (Z * option str * option str) :=
  let pos := span (fun c => c =? 47) s in
  if (pos =? 0)%nat then mret (GLOBUS_URL_ERROR_BAD_PATH, None, None)
  else if (pos =? 2)%nat then
    let s := drop pos s in
    _ ← lift (loose_host_loop fuel s 0);
    file_path globusl_url_get_path_loose s None
  else file_path globusl_url_get_path_loose s None.

(** ** The parser *)

Definition empty_url (t : scheme_type) : url := Url None t None None None 0 None None None None None None.

Definition free_field (f : option str) : cmd unit := match f with Some _ => free | None => mret tt end.

(** The fields that hold strings. *)
Definition fields (u : url) : list (option str) :=
  [scheme u; user u; password u; host u; url_path u; dn u; attributes u; scope u; filter u; url_specific_part u].

Fixpoint free_fields (fs : list (option str)) : cmd unit :=
  match fs with
  | [] => mret tt
  | f :: fs => _ ← free_field f; free_fields fs
  end.

(** The status and the URL with its fields reset. *)
Definition globus_url_destroy (u : option url) : cmd (Z * option url) :=
  match u with
  | None => mret (GLOBUS_URL_ERROR_NULL_URL, None)
  | Some u =>
      _ ← free_fields (fields u);
      mret (GLOBUS_SUCCESS, Some (Url None (type u) None None None (port u) None None None None None None))
  end.

(** Setting the fields. *)
Definition with_scheme (u : url) (v : option str) (t : scheme_type) : url :=
  Url v t (user u) (password u) (host u) (port u) (url_path u) (dn u) (attributes u) (scope u) (filter u) (url_specific_part u).
Definition with_user (u : url) (v w : option str) : url :=
  Url (scheme u) (type u) v w (host u) (port u) (url_path u) (dn u) (attributes u) (scope u) (filter u) (url_specific_part u).
Definition with_host (u : url) (v : option str) (p : Z) : url :=
  Url (scheme u) (type u) (user u) (password u) v p (url_path u) (dn u) (attributes u) (scope u) (filter u) (url_specific_part u).
Definition with_path (u : url) (v : option str) : url :=
  Url (scheme u) (type u) (user u) (password u) (host u) (port u) v (dn u) (attributes u) (scope u) (filter u) (url_specific_part u).
Definition with_ldap (u : url) (vs : list (option str)) : url :=
  Url (scheme u) (type u) (user u) (password u) (host u) (port u) (url_path u)
    (default None (vs !! 0%nat)) (default None (vs !! 1%nat)) (default None (vs !! 2%nat)) (default None (vs !! 3%nat))
    (url_specific_part u).
Definition with_specific (u : url) (v : option str) : url :=
  Url (scheme u) (type u) (user u) (password u) (host u) (port u) (url_path u) (dn u) (attributes u) (scope u) (filter u) v.

(** Host, port and path of the FTP and HTTP schemes. *)
Definition host_and_path (get_path : str -> scheme_type -> cmd (Z * option str)) (u : url) (s : str) : cmd (Z * url) :=
  '(rc, s, h, p) ← globusl_url_get_host_port s;
  let u := with_host u h p in
  if negb (rc =? GLOBUS_SUCCESS) then mret (GLOBUS_URL_ERROR_BAD_PORT, u)
  else '(rc, path) ← get_path s (type u); mret (rc, with_path u path).

(** The part after "scheme://": the status and the fields set. [ftp_path],
    [http_path] and [file_specific] are what distinguishes the three parsers. *)
Definition scheme_specific (ftp_path http_path : str -> scheme_type -> cmd (Z * option str))
    (file_specific : str -> cmd (Z * option str * option str)) (u : url) (s : str) : cmd (Z * url) :=
  match type u with
  | GLOBUS_URL_SCHEME_FTP | GLOBUS_URL_SCHEME_GSIFTP | GLOBUS_URL_SCHEME_SSHFTP =>
      '(rc, s, usr, pw) ← globusl_url_get_user_password s;
      let u := with_user u usr pw in
      if negb (rc =? GLOBUS_SUCCESS) then mret (rc, u) else host_and_path ftp_path u s
  | GLOBUS_URL_SCHEME_HTTP | GLOBUS_URL_SCHEME_HTTPS => host_and_path http_path u s
  | GLOBUS_URL_SCHEME_X_NEXUS =>
      '(rc, s, h, p) ← globusl_url_get_host_port s;
      let u := with_host u h p in
      if negb (rc =? GLOBUS_SUCCESS) then mret (rc, u)
      else if p =? 0 then mret (GLOBUS_URL_ERROR_BAD_PORT, u)
      else mret (GLOBUS_SUCCESS, u)
  | GLOBUS_URL_SCHEME_LDAP =>
      '(rc, s, h, p) ← globusl_url_get_host_port s;
      let u := with_host u h p in
      if negb (rc =? GLOBUS_SUCCESS) then mret (rc, u)
      else if negb (char_at s 0 =? 47) then mret (GLOBUS_URL_ERROR_BAD_DN, u)
      else '(rc, _, vs) ← globusl_url_get_ldap_specific (drop 1 s); mret (rc, with_ldap u vs)
  | GLOBUS_URL_SCHEME_FILE =>
      '(rc, h, path) ← file_specific s;
      mret (rc, with_path (with_host u h (port u)) path)
  | GLOBUS_URL_SCHEME_X_GASS_CACHE =>
      '(rc, v) ← globusl_url_get_substring s (length s); mret (rc, with_specific u v)
  | GLOBUS_URL_SCHEME_UNKNOWN =>
      '(rc, s, h, p) ← globusl_url_get_host_port s;
      let u := with_host u h p in
      if rc =? GLOBUS_URL_ERROR_INTERNAL_ERROR then mret (rc, u)
      else
        '(done, rc, u) ←
          (if rc =? GLOBUS_SUCCESS then
             '(rc, path) ← globusl_url_get_path s (type u);
             mret ((rc =? GLOBUS_URL_ERROR_INTERNAL_ERROR) || (rc =? GLOBUS_SUCCESS), rc, with_path u path)
           else mret (false, rc, u));
        if (done : bool) then mret (rc, u)
        else '(rc, v) ← globusl_url_get_substring s (length s); mret (rc, with_specific u v)
  end.

Definition parse_with (ftp_path http_path : str -> scheme_type -> cmd (Z * option str))
    (file_specific : str -> cmd (Z * option str * option str)) (is_null : bool) (url_string : option str) :
    cmd (Z * option url) :=
  if is_null then mret (GLOBUS_URL_ERROR_NULL_URL, None)
  else match url_string with
  | None => mret (GLOBUS_URL_ERROR_NULL_STRING, Some (empty_url GLOBUS_URL_SCHEME_UNKNOWN))
  | Some s =>
      '(rc, s, sch, t) ← globusl_url_get_scheme s;
      let u := with_scheme (empty_url GLOBUS_URL_SCHEME_UNKNOWN) sch (default GLOBUS_URL_SCHEME_UNKNOWN t) in
      let error rc u := '(_, u) ← globus_url_destroy (Some u); mret (rc, u) in
      if negb (rc =? GLOBUS_SUCCESS) then error rc u
      else if negb (bool_decide (take 3 s = codes "://")) && negb (bool_decide (type u = GLOBUS_URL_SCHEME_FILE))
      then error GLOBUS_URL_ERROR_BAD_SCHEME u
      else
        let s := drop (if decide (type u = GLOBUS_URL_SCHEME_FILE) then 1 else 3)%nat s in
        '(rc, u) ← scheme_specific ftp_path http_path file_specific u s;
        if negb (rc =? GLOBUS_SUCCESS) then error rc u else mret (rc, Some u)
  end.

Definition globus_url_parse : bool -> option str -> cmd (Z * option url) :=
  parse_with globusl_url_get_path globusl_url_get_path globusl_url_get_file_specific.

Definition globus_url_parse_rfc1738 : bool -> option str -> cmd (Z * option url) :=
  parse_with globusl_url_get_path_rfc1738 globusl_url_get_path globusl_url_get_file_specific.

Definition globus_url_parse_loose (fuel : nat) : bool -> option str -> cmd (Z * option url) :=
  parse_with globusl_url_get_path_loose globusl_url_get_path_loose (globusl_url_get_file_specific_loose fuel).

(** ** The scheme alone *)

Definition strncmp_eq (s : str) (lit : string) (n : nat) : bool := bool_decide (take n s = take n (codes lit)).

Definition globus_url_get_scheme (s : str) : Z * scheme_type :=
  if strncmp_eq s "ftp:" 4 then (GLOBUS_SUCCESS, GLOBUS_URL_SCHEME_FTP)
  else if strncmp_eq s "gsiftp:" 7 then (GLOBUS_SUCCESS, GLOBUS_URL_SCHEME_GSIFTP)
  else if strncmp_eq s "sshftp:" 7 then (GLOBUS_SUCCESS, GLOBUS_URL_SCHEME_SSHFTP)
  else if strncmp_eq s "http:" 5 then (GLOBUS_SUCCESS, GLOBUS_URL_SCHEME_HTTP)
  else if strncmp_eq s "https:" 5 then (GLOBUS_SUCCESS, GLOBUS_URL_SCHEME_HTTPS)
  else if strncmp_eq s "ldap:" 5 then (GLOBUS_SUCCESS, GLOBUS_URL_SCHEME_LDAP)
  else if strncmp_eq s "file:" 5 then (GLOBUS_SUCCESS, GLOBUS_URL_SCHEME_FILE)
  else if strncmp_eq s "x-nexus:" 8 then (GLOBUS_SUCCESS, GLOBUS_URL_SCHEME_X_NEXUS)
  else if strncmp_eq s "x-gass-cache:" 13 then (GLOBUS_SUCCESS, GLOBUS_URL_SCHEME_X_GASS_CACHE)
  else (GLOBUS_URL_ERROR_BAD_SCHEME, GLOBUS_URL_SCHEME_UNKNOWN).

(** ** Copying *)

(** Duplicating the fields in order; on a failure those copied are freed. *)
Fixpoint copy_fields (fs done : list (option str)) : cmd (option (list (option str))) :=
  match fs with
  | [] => mret (Some (rev done))
  | None :: fs => copy_fields fs (None :: done)
  | Some v :: fs =>
      ok ← malloc;
      if (ok : bool) then copy_fields fs (Some v :: done)
      else _ ← free_fields done; mret None
  end.

Definition nth_field (fs : list (option str)) (i : nat) : option str := default None (fs !! i).

Definition globus_url_copy (src : option url) : cmd (Z * option url) :=
  match src with
  | None => mret (GLOBUS_URL_ERROR_NULL_URL, None)
  | Some u =>
      r ← copy_fields (fields u) [];
      match r with
      | None => mret (GLOBUS_URL_ERROR_OUT_OF_MEMORY, Some (empty_url GLOBUS_URL_SCHEME_FTP))
      | Some fs =>
          let f := nth_field fs in
          mret (GLOBUS_SUCCESS,
                Some (Url (f 0) (type u) (f 1) (f 2) (f 3) (port u) (f 4) (f 5) (f 6) (f 7) (f 8) (f 9))%nat)
      end
  end.

(** ** Escaping *)

Definition hexchars : list Z := codes "0123456789ABCDEF".

(** The characters that are escaped. *)
Definition special (enc : str) (n : Z) : bool :=
  (n <=? 31) || (127 <=? n) || (n =? percent) || existsb (Z.eqb n) enc.

Fixpoint encode_chars (enc s : str) : str :=
  match s with
  | [] => []
  | n :: s =>
      if special enc n
      then percent :: nth (Z.to_nat (Z.shiftr n 4)) hexchars 0 :: nth (Z.to_nat (Z.land n 15)) hexchars 0 :: encode_chars enc s
      else n :: encode_chars enc s
  end.

(** NULL when the string is NULL or the allocation fails. *)
Definition globus_url_string_hex_encode (s enc : option str) : cmd (option str) :=
  match s with
  | None => mret None
  | Some s =>
      ok ← malloc;
      if (ok : bool) then mret (Some (match enc with None => s | Some enc => encode_chars enc s end))
      else mret None
  end.

(** The loop, in place: what is read is never behind what is written. *)
Fixpoint decode_chars (n : nat) (s : str) : str :=
  match n, s with
  | S n, t :: s' =>
      if t =? percent then
        if char_at s' 0 =? percent then t :: decode_chars n (drop 1 s')
        else if isxdigit (char_at s' 0) && isxdigit (char_at s' 1)
        then hexval (char_at s' 0) * 16 + hexval (char_at s' 1) :: decode_chars n (drop 2 s')
        else t :: decode_chars n s'
      else t :: decode_chars n s'
  | _, _ => []
  end.

(** The string in the buffer afterwards. The part before the first "%" stays. *)
Definition globus_url_string_hex_decode (s : option str) : option str :=
  (fun s => let p := span (fun c => negb (c =? percent)) s in
            cstring (take p s ++ decode_chars (length s) (drop p s))) <$> s.

(** ** Decoding undoes encoding *)

Definition is_char (c : Z) : Prop := 0 < c < 256.

(** The two hexadecimal digits of a character. *)
Lemma hex_digits n :
  is_char n ->
  let a := nth (Z.to_nat (Z.shiftr n 4)) hexchars 0 in let b := nth (Z.to_nat (Z.land n 15)) hexchars 0 in
  isxdigit a = true /\ isxdigit b = true /\ a <> percent /\ hexval a * 16 + hexval b = n.
Proof.
  intros Hn a b.
  set (ok n := let a := nth (Z.to_nat (Z.shiftr n 4)) hexchars 0 in let b := nth (Z.to_nat (Z.land n 15)) hexchars 0 in
    isxdigit a && isxdigit b && negb (a =? percent) && (hexval a * 16 + hexval b =? n)).
  assert (forallb (fun k => ok (Z.of_nat k)) (seq 0 256) = true) as Hall by (vm_compute; reflexivity).
  rewrite forallb_forall in Hall. specialize (Hall (Z.to_nat n)). rewrite Z2Nat.id in Hall by (unfold is_char in Hn; lia).
  assert (ok n = true) as E by (apply Hall, in_seq; unfold is_char in Hn; lia).
  unfold ok in E. cbv zeta in E. fold a b in E.
  rewrite !andb_true_iff, negb_true_iff, Z.eqb_neq, Z.eqb_eq in E. tauto.
Qed.

Lemma decode_encode enc s n :
  Forall is_char s -> (length (encode_chars enc s) <= n)%nat -> decode_chars n (encode_chars enc s) = s.
Proof.
  intros Hs. revert n. induction Hs as [|c s Hc Hs IH]; intros n Hn; [by destruct n|]. cbn [encode_chars] in *.
  destruct (special enc c) eqn:E.
  - destruct (hex_digits c Hc) as (Ha & Hb & Hne & Hv). destruct n as [|n]; [cbn in Hn; lia|]. cbn [decode_chars].
    unfold char_at. cbn [nth].
    apply Z.eqb_neq in Hne. rewrite Z.eqb_refl, Hne, Ha, Hb, Hv. cbn [andb drop]. rewrite IH by (cbn in Hn; lia). done.
  - unfold special in E. rewrite !orb_false_iff in E. destruct E as [[_ Hp] _]. destruct n as [|n]; [cbn in Hn; lia|]. cbn [decode_chars].
    rewrite Hp, IH by (cbn in Hn; lia). done.
Qed.

(** Encoding leaves a prefix without special characters alone. *)
Lemma encode_split enc s :
  let p := span (fun c => negb (c =? percent)) (encode_chars enc s) in
  exists s1 s2, s = s1 ++ s2 /\ take p (encode_chars enc s) = s1 /\ drop p (encode_chars enc s) = encode_chars enc s2.
Proof.
  cbv zeta. induction s as [|c s (s1 & s2 & -> & Ht & Hd)]; [by exists [], []|]. cbn [encode_chars].
  destruct (special enc c) eqn:E.
  - exists [], (c :: s1 ++ s2). cbn [span]. rewrite Z.eqb_refl. cbn [negb take drop app]. split_and!; [done|done|].
    cbn [encode_chars]. by rewrite E.
  - unfold special in E. rewrite !orb_false_iff in E. destruct E as [[_ Hp] _]. cbn [span]. rewrite Hp. cbn [negb take drop].
    exists (c :: s1), s2. split_and!; [done|by rewrite Ht|done].
Qed.

(** Decoding undoes encoding: whatever characters are to be escaped, the
    string [globus_url_string_hex_encode] returns is turned back into the
    original one by [globus_url_string_hex_decode], for every string. *)
Theorem hex_roundtrip s enc st :
  Forall is_char s -> malloc_ok st ->
  exists r, globus_url_string_hex_encode (Some s) (Some enc) st = Ok (Some r, after_malloc st) /\
    globus_url_string_hex_decode (Some r) = Some s.
Proof.
  intros Hs Hok. exists (encode_chars enc s). split.
  { unfold globus_url_string_hex_encode, mbind, cmd_bind. by rewrite malloc_run. }
  cbn [globus_url_string_hex_decode fmap option_fmap option_map]. destruct (encode_split enc s) as (s1 & s2 & -> & -> & ->).
  apply Forall_app in Hs as [Hs1 Hs2]. rewrite decode_encode; [|done|].
  - f_equal. apply cstring_id. apply Forall_app. split; (eapply Forall_impl; [done|]); unfold is_char; cbn; lia.
  - clear. induction s1 as [|c s1 IH]; [done|]. cbn [app encode_chars]. destruct (special enc c); cbn [length]; lia.
Qed.

Lemma hex_roundtrip_witness :
  Forall is_char (codes "100% of a/b") /\
  exists r, globus_url_string_hex_encode (Some (codes "100% of a/b")) (Some (codes "/ ")) (CMem 0 []) = Ok (Some r, after_malloc (CMem 0 [])) /\
    globus_url_string_hex_decode (Some r) = Some (codes "100% of a/b").
Proof.
  assert (Forall is_char (codes "100% of a/b")) as H by (repeat constructor).
  split; [exact H|]. exact (hex_roundtrip _ _ (CMem 0 []) H eq_refl).
Defined.

(** ** The parser terminates and does not leak *)

Definition held (f : option str) : Z := match f with Some _ => 1 | None => 0 end.
Definition held_all (fs : list (option str)) : Z := foldr (fun f n => held f + n) 0 fs.

Lemma char_at_end s pos : (length s <= pos)%nat -> char_at s pos = 0.
Proof. intros H. by apply nth_overflow. Qed.

Lemma span_le P s : (span P s <= length s)%nat.
Proof. induction s as [|c s IH]; cbn; [done|]. destruct (P c); lia. Qed.

Lemma escape_bound s pos p : escape s pos = Some p -> (pos <= length s)%nat -> (pos <= p <= length s)%nat.
Proof.
  unfold escape. destruct (char_at s pos =? percent) eqn:E; [|by intros [= <-]; lia].
  destruct (isxdigit (char_at s (pos + 1))) eqn:E1; [|done]. destruct (isxdigit (char_at s (pos + 2))) eqn:E2; [|done].
  intros [= <-] Hle. destruct (decide (length s <= pos + 2)%nat) as [H|H]; [|lia].
  by rewrite char_at_end in E2.
Qed.

(** A loop that goes on only when it has advanced. *)
Lemma part_loop_total n P stop s pos :
  P 0 = false -> (pos <= length s)%nat -> (length s - pos < n)%nat ->
  exists r, part_loop n P stop s pos = Ok r /\ forall p, r = Some p -> (p <= length s)%nat.
Proof.
  intros HP. revert pos. induction n as [|n IH]; intros pos Hpos Hn; [lia|]. cbn [part_loop].
  set (pos1 := if P (char_at s pos) then (pos + 1)%nat else pos).
  assert (pos <= pos1 <= length s)%nat as Hpos1.
  { unfold pos1. destruct (P (char_at s pos)) eqn:E; [|lia].
    destruct (decide (length s <= pos)%nat); [|lia]. by rewrite char_at_end, HP in E. }
  destruct (escape s pos1) as [p|] eqn:Ee; [|by eexists]. apply escape_bound in Ee; [|lia].
  destruct (stop (char_at s p)); cbn [negb andb]; [eexists; split; [done|]; intros ? [= <-]; lia|].
  destruct (Nat.eqb_spec p pos); cbn [negb]; [eexists; split; [done|]; intros ? [= <-]; lia|].
  apply IH; lia.
Qed.

Lemma user_loop_total n P stop s pos :
  (pos <= length s)%nat -> (length s - pos < n)%nat -> exists r, user_loop n P stop s pos = Ok r.
Proof.
  revert pos. induction n as [|n IH]; intros pos Hpos Hn; [lia|]. cbn [user_loop].
  pose proof (span_le P (drop pos s)) as Hs. rewrite length_drop in Hs. set (pos1 := (pos + span P (drop pos s))%nat) in *.
  destruct (char_at s pos1 =? 0); [by eexists|]. destruct (escape s pos1) as [p|] eqn:Ee; [|by eexists].
  apply escape_bound in Ee; [|lia]. destruct (negb _ && negb (p =? pos)%nat) eqn:E; [|by eexists].
  apply andb_true_iff in E as [_ E%negb_true_iff%Nat.eqb_neq]. apply IH; lia.
Qed.

Lemma password_loop_total n s pos :
  (pos <= length s)%nat -> (length s - pos < n)%nat -> exists r, password_loop n s pos = Ok r.
Proof.
  revert pos. induction n as [|n IH]; intros pos Hpos Hn; [lia|]. cbn [password_loop].
  set (pos1 := if user_char (char_at s pos) then (pos + 1)%nat else pos).
  assert (pos <= pos1 <= length s)%nat as Hpos1.
  { unfold pos1. destruct (user_char (char_at s pos)) eqn:E; [|lia].
    destruct (decide (length s <= pos)%nat); [|lia]. by rewrite char_at_end in E. }
  destruct (char_at s pos1 =? 0); [by eexists|]. destruct (escape s pos1) as [p|] eqn:Ee; [|by eexists].
  apply escape_bound in Ee; [|lia]. destruct (negb _ && negb (p =? pos)%nat) eqn:E; [|by eexists].
  apply andb_true_iff in E as [_ E%negb_true_iff%Nat.eqb_neq]. apply IH; lia.
Qed.

Lemma get_substring_runs s n :
  runs (globusl_url_get_substring s n) (fun '(rc, v) d => d = held v /\ (rc = 0 <-> is_Some v)).
Proof.
  eapply runs_bind; [apply runs_malloc|]. intros [] d ->; apply runs_ret; (split; [done|]).
  - split; [by eexists|done].
  - split; [done|by intros []].
Qed.

(** Running a computation statement by statement. *)
Ltac crun_step :=
  lazymatch goal with
  | |- runs (mret _) _ => apply runs_ret
  | |- runs (globusl_url_get_substring _ _ ≫= _) _ =>
      eapply runs_bind; [apply get_substring_runs|intros [? [?|]] ? [-> ?]]
  | |- runs (globusl_url_get_substring _ _) _ => eapply runs_mono; [apply get_substring_runs|intros [? [?|]] ? [-> ?]]
  | |- runs (free ≫= _) _ => eapply runs_bind; [apply runs_free|intros [] ? ->]
  | |- runs (if ?b then _ else _) _ => destruct b eqn:?
  | |- runs (match ?x with _ => _ end) _ => destruct x eqn:?
  end.

(** The status of a copy decides whether there is one. *)
Lemma status_some (rc : Z) (v : str) : (rc = 0 <-> is_Some (Some v)) -> (rc =? GLOBUS_SUCCESS) = true.
Proof. intros H. apply Z.eqb_eq, H. by eexists. Qed.
Lemma status_none (rc : Z) : (rc = 0 <-> is_Some (@None str)) -> (rc =? GLOBUS_SUCCESS) = false.
Proof. intros H. apply Z.eqb_neq. intros E. apply H in E as [? [=]]. Qed.

Ltac status :=
  repeat match goal with
  | H : ?rc = 0 <-> is_Some (Some _) |- _ => rewrite (status_some _ _ H) in *; apply status_some in H
  | H : ?rc = 0 <-> is_Some None |- _ => rewrite (status_none _ H) in *; apply status_none in H
  end.

Ltac crun := repeat crun_step; status; cbn [negb held held_all foldr] in *; try done; try lia.

Lemma get_scheme_runs s :
  runs (globusl_url_get_scheme s) (fun '(rc, _, v, t) d => d = held v /\ (rc = 0 <-> is_Some v) /\ (rc = 0 -> is_Some t)).
Proof.
  unfold globusl_url_get_scheme. crun; (split_and!; [done|..]); try (split; [done|by intros []]); try done.
Qed.

Lemma get_user_password_runs s :
  runs (globusl_url_get_user_password s) (fun '(rc, _, u, p) d => d = held u + held p).
Proof.
  unfold globusl_url_get_user_password.
  destruct (user_loop_total (S (length s)) (fun c => user_char c || (c =? 58)) (fun c => c =? 64) s 0) as (r & Hr); [lia|lia|].
  eapply runs_bind; [by eapply (runs_lift _ (fun x d => x = r /\ d = 0))|]. intros ? ? [-> ->].
  destruct r as [[pos|]|]; [|crun..]. destruct (negb (char_at s pos =? 64)); [crun|].
  destruct (user_loop_total (S (length s)) user_char (fun c => (c =? 64) || (c =? 58)) s 0) as (r & Hr'); [lia|lia|].
  eapply runs_bind; [by eapply (runs_lift _ (fun x d => x = r /\ d = 0))|]. intros ? ? [-> ->].
  destruct r as [[pos2|]|]; [|crun..]. destruct (pos2 =? 0)%nat; [crun|]. destruct (char_at s pos2 =? 64); [crun|].
  destruct (char_at s pos2 =? 58); [|crun]. crun_step; status; cbn [negb]; [|crun].
  destruct (password_loop_total (S (length (drop (pos2 + 1) s))) (drop (pos2 + 1) s) 0) as (r & Hp); [lia|lia|].
  eapply runs_bind; [by eapply (runs_lift _ (fun x d => x = r /\ d = 0))|]. intros ? ? [-> ->].
  crun.
Qed.

Lemma get_host_port_runs s : runs (globusl_url_get_host_port s) (fun '(rc, _, h, p) d => d = held h).
Proof.
  unfold globusl_url_get_host_port. destruct (if char_at s 0 =? 91 then _ else _) as [s1 pos].
  destruct (pos =? 0)%nat; [crun|]. destruct (_ || _ || _).
  - crun_step; status; cbn [negb]; crun.
  - crun.
Qed.

Lemma part_runs {A} P stop s (k : option nat -> cmd A) (Q : A -> Z -> Prop) :
  P 0 = false -> (forall r, runs (k r) Q) -> runs (lift (part_loop (S (length s)) P stop s 0) ≫= k) Q.
Proof.
  intros HP Hk. destruct (part_loop_total (S (length s)) P stop s 0 HP) as (r & Hr & _); [lia|lia|].
  eapply runs_bind; [by eapply (runs_lift _ (fun x d => x = r /\ d = 0))|]. intros ? ? [-> ->]. exact (Hk r).
Qed.

Lemma ldap_parts_runs s errs :
  runs (ldap_parts s errs) (fun '(rc, _, vs) d => d = held_all vs /\ (length vs <= length errs)%nat).
Proof.
  revert s. induction errs as [|e errs IH]; intros s; cbn [ldap_parts]; [crun|].
  apply part_runs; [done|]. intros [pos|]; [|crun; cbn; lia]. destruct (pos =? 0)%nat; [crun; cbn; lia|].
  destruct (_ || _); [|crun; cbn; lia]. crun_step; status; cbn [negb]; [|crun; cbn; lia].
  eapply runs_bind; [apply IH|]. intros [[rc s'] vs] d [-> Hl]. apply runs_ret.
  unfold held_all. cbn [foldr held length]. lia.
Qed.

Lemma take_path_runs s t pos : runs (take_path s t pos) (fun '(rc, v) d => d = held v).
Proof. unfold take_path. crun. Qed.

Lemma get_path_runs s t : runs (globusl_url_get_path s t) (fun '(rc, v) d => d = held v).
Proof. apply part_runs; [done|]. intros []; [apply take_path_runs|crun]. Qed.

Lemma file_path_runs get_path s h d :
  (forall s t, runs (get_path s t) (fun '(rc, v) d => d = held v)) -> d = held h ->
  runs (file_path get_path s h) (fun '(rc, h', p) d' => d + d' = held h' + held p).
Proof.
  intros Hg ->. unfold file_path. destruct (negb _); [crun|]. eapply runs_bind; [apply Hg|]. intros [rc v] d ->. crun.
Qed.

Lemma get_file_specific_runs s :
  runs (globusl_url_get_file_specific s) (fun '(rc, h, p) d => d = held h + held p).
Proof.
  unfold globusl_url_get_file_specific. destruct (_ =? 0)%nat; [crun|].
  pose proof (fun s h d => file_path_runs globusl_url_get_path s h d get_path_runs) as Hf.
  destruct (_ =? 2)%nat; [|by apply (Hf _ None 0)]. destruct (_ && _); [|by apply (Hf _ None 0)].
  crun_step; status; cbn [negb]; [|crun].
  eapply runs_mono; [by apply Hf|]. by intros [[]] ? ?.
Qed.

Lemma free_fields_runs fs : runs (free_fields fs) (fun _ d => d = - held_all fs).
Proof.
  induction fs as [|[v|] fs IH]; cbn [free_fields free_field]; [by apply runs_ret|..].
  - crun_step. eapply runs_mono; [apply IH|]. intros _ d ->. unfold held_all. cbn [foldr held]. lia.
  - eapply runs_bind; [by apply (runs_ret _ (fun _ d => d = 0))|]. intros _ d ->.
    eapply runs_mono; [apply IH|]. intros _ d ->. unfold held_all. cbn [foldr held]. lia.
Qed.

Section parse.
  Context (ftp_path http_path : str -> scheme_type -> cmd (Z * option str)).
  Context (file_specific : str -> cmd (Z * option str * option str)).
  Hypothesis ftp_path_runs : forall s t, runs (ftp_path s t) (fun '(rc, v) d => d = held v).
  Hypothesis http_path_runs : forall s t, runs (http_path s t) (fun '(rc, v) d => d = held v).
  Hypothesis file_specific_runs : forall s, runs (file_specific s) (fun '(rc, h, p) d => d = held h + held p).

(** What the heap gained is what the URL holds. *)
Definition gains (u : url) (r : Z * url) (d : Z) : Prop := held_all (fields r.2) = held_all (fields u) + d.

Lemma gains_trans u u' r d d' : held_all (fields u') = held_all (fields u) + d -> gains u' r d' -> gains u r (d + d').
Proof. unfold gains. lia. Qed.

Lemma gains_same u rc : gains u (rc, u) 0.
Proof. unfold gains. cbn [snd]. lia. Qed.

(** Storing in a field that was NULL. *)
Ltac count := unfold gains, held_all, fields in *; cbn in *; simplify_eq; cbn; lia.

Lemma host_then u s (k : Z -> str -> option str -> Z -> cmd (Z * url)) :
  host u = None -> (forall rc s h p, runs (k rc s h p) (gains (with_host u h p))) ->
  runs ('(rc, s, h, p) ← globusl_url_get_host_port s; k rc s h p) (gains u).
Proof.
  intros Hh Hk. eapply runs_bind; [apply get_host_port_runs|]. intros [[[rc s'] h] p] d ->.
  eapply runs_mono; [apply Hk|]. intros r d. apply gains_trans. destruct u. count.
Qed.

Lemma path_then (m : cmd (Z * option str)) u :
  url_path u = None -> runs m (fun '(_, v) d => d = held v) ->
  runs ('(rc, v) ← m; mret (rc, with_path u v)) (gains u).
Proof. intros Hp Hm. eapply runs_bind; [exact Hm|]. intros [rc v] d ->. apply runs_ret. destruct u. count. Qed.

Lemma specific_then s u :
  url_specific_part u = None ->
  runs ('(rc, v) ← globusl_url_get_substring s (length s); mret (rc, with_specific u v)) (gains u).
Proof.
  intros Hp. eapply runs_bind; [apply get_substring_runs|]. intros [rc v] d [-> _]. apply runs_ret. destruct u. count.
Qed.

Lemma host_and_path_runs get_path u s :
  (forall s t, runs (get_path s t) (fun '(rc, v) d => d = held v)) -> host u = None -> url_path u = None ->
  runs (host_and_path get_path u s) (gains u).
Proof.
  intros Hg Hh Hp. apply (host_then u s (fun rc s h p => if negb _ then _ else _)); [done|]. intros rc s' h p.
  destruct (negb _); [apply runs_ret, gains_same|]. by apply path_then.
Qed.

Lemma user_and_host_runs u s :
  fields u = [scheme u; None; None; None; None; None; None; None; None; None] ->
  runs ('(rc, s, usr, pw) ← globusl_url_get_user_password s;
        if negb (rc =? GLOBUS_SUCCESS) then mret (rc, with_user u usr pw)
        else host_and_path ftp_path (with_user u usr pw) s) (gains u).
Proof.
  intros Hb. eapply runs_bind; [apply get_user_password_runs|]. intros [[[rc s'] usr] pw] d ->.
  destruct u. injection Hb as -> -> -> -> -> -> -> -> ->. destruct (negb _); [apply runs_ret; count|].
  eapply runs_mono; [by apply host_and_path_runs|]. intros r d. apply gains_trans. count.
Qed.

Lemma ldap_runs u s :
  fields u = [scheme u; user u; password u; host u; url_path u; None; None; None; None; url_specific_part u] ->
  runs ('(rc, _, vs) ← globusl_url_get_ldap_specific s; mret (rc, with_ldap u vs)) (gains u).
Proof.
  intros Hb. eapply runs_bind; [apply ldap_parts_runs|]. intros [[rc' s''] vs] d [-> Hl]. apply runs_ret.
  destruct u, vs as [|a [|b [|c [|e [|]]]]]; try (cbn in Hl; lia); count.
Qed.

Lemma unknown_runs u s rc :
  url_path u = None -> url_specific_part u = None ->
  runs ('(done, rc, u) ←
          (if rc =? GLOBUS_SUCCESS then
             '(rc, path) ← globusl_url_get_path s (type u);
             mret ((rc =? GLOBUS_URL_ERROR_INTERNAL_ERROR) || (rc =? GLOBUS_SUCCESS), rc, with_path u path)
           else mret (false, rc, u));
        if (done : bool) then mret (rc, u)
        else '(rc, v) ← globusl_url_get_substring s (length s); mret (rc, with_specific u v)) (gains u).
Proof.
  intros Hp Hs.
  apply (runs_bind _ _ (fun '(_, rc', u') d => gains u (rc', u') d /\ url_specific_part u' = None)).
  - destruct (rc =? _); [|apply runs_ret; split; [apply gains_same|done]].
    eapply runs_bind; [apply get_path_runs|]. intros [rc' v] d ->. apply runs_ret. split; [destruct u; count|done].
  - intros [[b rc'] u'] d [Hg Hn]. destruct b; [apply runs_ret; revert Hg; unfold gains; cbn [snd]; lia|].
    eapply runs_mono; [by apply specific_then|]. intros r d'. by apply gains_trans.
Qed.

Lemma scheme_specific_runs u s :
  fields u = [scheme u; None; None; None; None; None; None; None; None; None] ->
  runs (scheme_specific ftp_path http_path file_specific u s) (gains u).
Proof.
  intros Hb. assert (host u = None /\ url_path u = None /\ url_specific_part u = None) as (Hh & Hp & Hs)
    by (destruct u; unfold fields in Hb; by simplify_eq/=).
  unfold scheme_specific.
  destruct (type u) eqn:Ht; try (by apply user_and_host_runs); try (by apply host_and_path_runs).
  - apply (host_then u s (fun rc s h p => if negb _ then _ else _)); [done|]. intros rc s' h p.
    destruct (negb _); [apply runs_ret, gains_same|]. destruct (negb _); [apply runs_ret, gains_same|].
    apply ldap_runs. destruct u. unfold fields in *. by simplify_eq/=.
  - eapply runs_bind; [apply file_specific_runs|]. intros [[rc h] p] d ->. apply runs_ret. destruct u. count.
  - apply (host_then u s (fun rc s h p => if negb _ then _ else _)); [done|]. intros rc s' h p.
    destruct (negb _); [apply runs_ret, gains_same|]. destruct (p =? 0); apply runs_ret, gains_same.
  - by apply specific_then.
  - apply (host_then u s (fun rc s h p => if (rc =? _ : bool) then _ else _)); [done|]. intros rc s' h p.
    destruct (rc =? _); [apply runs_ret, gains_same|]. by apply unknown_runs.
Qed.

(** What [parse_with] returns: a URL that owns what was allocated, or an error
    and nothing. *)
Definition parsed (r : Z * option url) (d : Z) : Prop :=
  if r.1 =? 0 then exists u, r.2 = Some u /\ d = held_all (fields u)
  else d = 0 /\ forall u, r.2 = Some u -> fields u = replicate 10 None.

Lemma destroy_runs u :
  runs (globus_url_destroy (Some u))
    (fun '(rc, v) d => rc = GLOBUS_SUCCESS /\ d = - held_all (fields u) /\ forall v', v = Some v' -> fields v' = replicate 10 None).
Proof.
  eapply runs_bind; [apply free_fields_runs|]. intros _ d ->. apply runs_ret.
  split_and!; [done|lia|]. by intros ? [= <-].
Qed.

Lemma error_runs rc u d :
  rc <> 0 -> d = held_all (fields u) ->
  runs ('(_, u) ← globus_url_destroy (Some u); mret (rc, u)) (fun r d' => parsed r (d + d')).
Proof.
  intros Hrc%Z.eqb_neq ->. eapply runs_bind; [apply destroy_runs|]. intros [rc' v] d (-> & -> & Hv). apply runs_ret.
  unfold parsed. cbn [fst snd]. rewrite Hrc. split; [lia|done].
Qed.

Lemma parse_runs is_null s : runs (parse_with ftp_path http_path file_specific is_null s) parsed.
Proof.
  unfold parse_with. destruct is_null; [by apply runs_ret|]. destruct s as [s|]; [|apply runs_ret; split; [done|by intros ? [= <-]]].
  eapply runs_bind; [apply get_scheme_runs|]. intros [[[rc s'] sch] t] d (-> & Hrc & _).
  set (u := with_scheme _ _ _). assert (held sch = held_all (fields u)) as Hu by (unfold u; count).
  destruct (Z.eqb_spec rc GLOBUS_SUCCESS) as [->|Hne]; cbn [negb]; [|by apply error_runs].
  destruct (negb _ && negb _); [by apply error_runs|].
  eapply runs_bind; [by apply scheme_specific_runs|]. intros [rc u'] d Hg. unfold gains in Hg. cbn [snd] in Hg.
  destruct (Z.eqb_spec rc GLOBUS_SUCCESS) as [->|Hne]; cbn [negb].
  - apply runs_ret. exists u'. split; [done|lia].
  - eapply runs_mono; [apply (error_runs rc u' (held_all (fields u')) Hne eq_refl)|].
    intros r d' H. by rewrite Hu, Z.add_assoc, <- Hg.
Qed.
End parse.

(** C20: [globus_url_parse] always returns, whatever the string and whichever of
    its allocations fail. When it succeeds, the URL owns exactly the blocks that
    were allocated, and [globus_url_destroy] gives them all back; when it fails,
    nothing stays allocated and every field of the URL is NULL. *)
Theorem url_parse_safe is_null s st :
  exists rc u st', globus_url_parse is_null s st = Ok (rc, u, st') /\
    (rc = GLOBUS_SUCCESS -> exists v, u = Some v /\ live st' = live st + held_all (fields v) /\
       exists w st'', globus_url_destroy u st' = Ok (GLOBUS_SUCCESS, w, st'') /\ live st'' = live st) /\
    (rc <> GLOBUS_SUCCESS -> live st' = live st /\ forall v, u = Some v -> fields v = replicate 10 None).
Proof.
  destruct (parse_runs _ _ _ get_path_runs get_path_runs get_file_specific_runs is_null s st) as ([rc u] & st' & Hr & Hp).
  exists rc, u, st'. split; [exact Hr|]. unfold parsed in Hp. cbn [fst snd] in Hp.
  destruct (Z.eqb_spec rc 0) as [->|Hne].
  - destruct Hp as (v & -> & Hd). split; [|done]. intros _. exists v. split_and!; [done|lia|].
    destruct (destroy_runs v st') as ([rc' w] & st'' & Hr' & -> & Hd' & _). exists w, st''. split; [done|lia].
  - split; [done|]. destruct Hp as [Hd Hf]. split; [lia|done].
Qed.

Lemma held_all_cons f fs : held_all (f :: fs) = held f + held_all fs.
Proof. done. Qed.

Lemma copy_fields_runs fs done :
  runs (copy_fields fs done)
    (fun r d => match r with Some fs' => fs' = rev done ++ fs /\ d = held_all fs | None => d = - held_all done end).
Proof.
  revert done. induction fs as [|[v|] fs IH]; intros dn; cbn [copy_fields].
  - apply runs_ret. by rewrite app_nil_r.
  - eapply runs_bind; [apply runs_malloc|]. intros [] d ->.
    + eapply runs_mono; [apply IH|]. intros [fs'|] d; rewrite ?held_all_cons; cbn [held rev]; [|lia].
      intros [-> ->]. rewrite <- app_assoc. split; [done|lia].
    + eapply runs_bind; [apply free_fields_runs|]. intros _ d ->. apply runs_ret. lia.
  - eapply runs_mono; [apply IH|]. intros [fs'|] d; rewrite ?held_all_cons; cbn [held rev]; [|lia].
    intros [-> ->]. rewrite <- app_assoc. split; [done|lia].
Qed.

(** [globus_url_copy] makes an equal URL out of fresh blocks, one for each
    field that is set; if one of the allocations fails it reports it and gives
    the others back, whichever it is. *)
Theorem url_copy_correct u st :
  exists rc v st', globus_url_copy (Some u) st = Ok (rc, v, st') /\
    (rc = GLOBUS_SUCCESS /\ v = Some u /\ live st' = live st + held_all (fields u) \/
     rc = GLOBUS_URL_ERROR_OUT_OF_MEMORY /\ live st' = live st).
Proof.
  destruct (copy_fields_runs (fields u) [] st) as (r & st' & Hr & Hd). unfold globus_url_copy, mbind, cmd_bind. rewrite Hr.
  destruct r as [fs|]; eexists _, _, _; (split; [reflexivity|]).
  - left. destruct Hd as [-> Hd]. destruct u. split_and!; [done|done|lia].
  - right. cbn in Hd. split; [done|lia].
Qed.

(** ** Parsing what was printed *)

(** A string of characters of a class and of escapes. *)
Inductive escaped (P : Z -> bool) : str -> Prop :=
| escaped_nil : escaped P []
| escaped_char c s : P c = true -> c <> percent -> escaped P s -> escaped P (c :: s)
| escaped_hex a b s : isxdigit a = true -> isxdigit b = true -> escaped P s -> escaped P (percent :: a :: b :: s).

Lemma escaped_app P s t : escaped P s -> escaped P t -> escaped P (s ++ t).
Proof. induction 1; intros; cbn; [done|by apply escaped_char; auto|by apply escaped_hex; auto]. Qed.

Lemma escaped_weaken (P Q : Z -> bool) s : (forall c, P c = true -> Q c = true) -> escaped P s -> escaped Q s.
Proof. intros H. induction 1; [constructor|by apply escaped_char; auto|by apply escaped_hex]. Qed.

(** Encoding the characters that are not in the class. *)
Lemma encode_escaped P enc s :
  Forall (fun c => is_char c /\ (P c = true \/ special enc c = true)) s -> escaped P (encode_chars enc s).
Proof.
  induction 1 as [|c s [Hc Hp] Hs IH]; [constructor|]. cbn [encode_chars].
  destruct (special enc c) eqn:E.
  - destruct (hex_digits c Hc) as (Ha & Hb & _). by constructor.
  - destruct Hp as [Hp|[=]]. constructor; [done| |done]. unfold special in E. rewrite !orb_false_iff, Z.eqb_neq in E. tauto.
Qed.

Lemma unescape_encode enc s : Forall is_char s -> unescape (encode_chars enc s) = s.
Proof.
  induction 1 as [|c s Hc Hs IH]; [done|]. cbn [encode_chars]. destruct (special enc c) eqn:E.
  - destruct (hex_digits c Hc) as (Ha & Hb & Hne & Hv). cbn [unescape]. by rewrite Z.eqb_refl, Ha, Hb, Hv, IH.
  - unfold special in E. rewrite !orb_false_iff in E. destruct E as [[_ Hp] _]. cbn [unescape]. by rewrite Hp, IH.
Qed.

Lemma char_at_plus pre s k : char_at (pre ++ s) (length pre + k) = char_at s k.
Proof. unfold char_at. rewrite app_nth2_plus. done. Qed.

(** The rest of a string at which a scan stops. *)
Definition stops (P stop : Z -> bool) (rest : str) : Prop :=
  P (char_at rest 0) = false /\ stop (char_at rest 0) = true /\ char_at rest 0 <> percent.

Section scan.
  Context (P stop : Z -> bool) (rest : str).
  Hypothesis P_percent : P percent = false.
  Hypothesis stop_percent : stop percent = false.
  Hypothesis P_stop : forall c, P c = true -> stop c = false.
  Hypothesis rest_stops : stops P stop rest.

(** [if(s[pos] == '%')] at an escaped string passes one escape, or nothing. *)
Lemma escape_here pre s :
  escaped P s ->
  exists mid s', s = mid ++ s' /\ escape (pre ++ s ++ rest) (length pre) = Some (length (pre ++ mid)) /\ escaped P s' /\
    (mid = [] -> s = [] \/ P (char_at (s ++ rest) 0) = true).
Proof.
  intros Hs. destruct rest_stops as (Hr1 & Hr2 & Hr3). unfold escape.
  pose proof (char_at_plus pre (s ++ rest)) as E. rewrite (E 1%nat), (E 2%nat), char_at_app. clear E.
  destruct Hs as [|c s Hc Hne Hs|a b s Ha Hb Hs].
  - exists [], []. cbn [app] in *. apply Z.eqb_neq in Hr3. rewrite Hr3, app_nil_r.
    split_and!; [done|done|constructor|by left].
  - exists [], (c :: s). unfold char_at. cbn [app nth]. rewrite (proj2 (Z.eqb_neq _ _) Hne), app_nil_r.
    split_and!; [done|done|by apply escaped_char|by right].
  - exists [percent; a; b], s. unfold char_at. cbn [app nth length]. rewrite Z.eqb_refl, Ha, Hb, length_app.
    split_and!; [done|done|done|done].
Qed.

Lemma stop_head s : escaped P s -> stop (char_at (s ++ rest) 0) = true -> s = [].
Proof. destruct 1 as [|c s Hc|]; [done|..]; unfold char_at; cbn; intros; [rewrite P_stop in *|]; congruence. Qed.

Lemma stop_nil : stop (char_at rest 0) = true.
Proof. apply rest_stops. Qed.

(** A step over a character of the class. *)
Lemma class_here pre s :
  escaped P s ->
  let pos := if P (char_at (pre ++ s ++ rest) (length pre)) then (length pre + 1)%nat else length pre in
  exists mid s', s = mid ++ s' /\ pos = length (pre ++ mid) /\ escaped P s' /\
    (mid = [] -> P (char_at (s ++ rest) 0) = false).
Proof.
  intros Hs. cbv zeta. rewrite char_at_app. destruct rest_stops as (Hr1 & _).
  destruct Hs as [|c s Hc Hne Hs|a b s Ha Hb Hs].
  - exists [], []. cbn [app]. rewrite Hr1, app_nil_r. by repeat constructor.
  - exists [c], s. unfold char_at at 1. cbn [app nth]. by rewrite Hc, length_app.
  - exists [], (percent :: a :: b :: s). unfold char_at. cbn [app nth]. rewrite P_percent, app_nil_r.
    split_and!; [done|done|by apply escaped_hex|done].
Qed.

(** The condition of the loops: they end where the string does, since an
    iteration that passes nothing is at its end. *)
Lemma scan_end {A} (again : A) (ret : nat -> A) pre m1 m2 s2 :
  escaped P s2 ->
  (m1 = [] -> P (char_at ((m1 ++ m2 ++ s2) ++ rest) 0) = false) ->
  (m2 = [] -> m2 ++ s2 = [] \/ P (char_at ((m2 ++ s2) ++ rest) 0) = true) ->
  ((length s2 < length (m1 ++ m2 ++ s2))%nat -> again = ret (length (((pre ++ m1) ++ m2) ++ s2))) ->
  (if negb (stop (char_at (((pre ++ m1) ++ m2) ++ s2 ++ rest) (length ((pre ++ m1) ++ m2)))) &&
      negb (length ((pre ++ m1) ++ m2) =? length pre)%nat
   then again else ret (length ((pre ++ m1) ++ m2))) = ret (length (pre ++ m1 ++ m2 ++ s2)).
Proof.
  intros Hs2 Hm1 Hm2 Hagain. replace (pre ++ m1 ++ m2 ++ s2) with (((pre ++ m1) ++ m2) ++ s2) by (by rewrite <- !app_assoc).
  rewrite char_at_app. destruct (stop (char_at (s2 ++ rest) 0)) eqn:E; cbn [negb andb].
  { apply stop_head in E as ->; [|done]. by rewrite app_nil_r. }
  destruct (Nat.eqb_spec (length ((pre ++ m1) ++ m2)) (length pre)) as [El|El]; cbn [negb].
  - rewrite !length_app in El. destruct m1, m2; cbn in El; try lia. cbn [app] in *.
    destruct (Hm2 eq_refl) as [->|H]; [|by rewrite Hm1 in H]. pose proof stop_nil. cbn [app] in E. congruence.
  - apply Hagain. rewrite !length_app in *. lia.
Qed.

Lemma part_loop_scan pre s n :
  escaped P s -> (length s < n)%nat -> part_loop n P stop (pre ++ s ++ rest) (length pre) = Ok (Some (length (pre ++ s))).
Proof.
  intros Hs Hn. revert pre s Hs Hn. induction n as [|n IH]; intros pre s Hs Hn; [lia|]. cbn [part_loop].
  destruct (class_here pre s Hs) as (m1 & s1 & -> & -> & Hs1 & Hm1).
  destruct (escape_here (pre ++ m1) s1 Hs1) as (m2 & s2 & -> & He & Hs2 & Hm2).
  replace (pre ++ (m1 ++ m2 ++ s2) ++ rest) with ((pre ++ m1) ++ (m2 ++ s2) ++ rest) by (by rewrite <- !app_assoc).
  rewrite He. replace ((pre ++ m1) ++ (m2 ++ s2) ++ rest) with (((pre ++ m1) ++ m2) ++ s2 ++ rest) by (by rewrite <- !app_assoc).
  apply (scan_end _ (fun p => Ok (Some p))); [done..|]. intros. apply IH; [done|lia].
Qed.

  Hypothesis rest_nonempty : char_at rest 0 <> 0.
  Hypothesis P_zero : P 0 = false.

Lemma head_nonzero s : escaped P s -> (char_at (s ++ rest) 0 =? 0) = false.
Proof.
  intros Hs. apply Z.eqb_neq. destruct Hs; unfold char_at; cbn; [done| |done]. intros ->. congruence.
Qed.

Lemma password_scan pre s n :
  P = user_char -> stop = (fun c => c =? 64) -> escaped P s -> (length s < n)%nat ->
  password_loop n (pre ++ s ++ rest) (length pre) = Ok (Some (length (pre ++ s))).
Proof.
  intros EP Es Hs Hn. revert pre s Hs Hn. induction n as [|n IH]; intros pre s Hs Hn; [lia|]. cbn [password_loop].
  rewrite <- EP. destruct (class_here pre s Hs) as (m1 & s1 & -> & -> & Hs1 & Hm1).
  destruct (escape_here (pre ++ m1) s1 Hs1) as (m2 & s2 & -> & He & Hs2 & Hm2).
  replace (pre ++ (m1 ++ m2 ++ s2) ++ rest) with ((pre ++ m1) ++ (m2 ++ s2) ++ rest) by (by rewrite <- !app_assoc).
  rewrite char_at_app, head_nonzero, He by done.
  replace ((pre ++ m1) ++ (m2 ++ s2) ++ rest) with (((pre ++ m1) ++ m2) ++ s2 ++ rest) by (by rewrite <- !app_assoc).
  change (_ =? 64) with ((fun c => c =? 64) (char_at (((pre ++ m1) ++ m2) ++ s2 ++ rest) (length ((pre ++ m1) ++ m2)))). rewrite <- Es.
  apply (scan_end _ (fun p => Ok (Some p))); [done..|]. intros. apply IH; [done|lia].
Qed.

(** The inner loop of the scan for a user name. *)
Lemma span_here pre s :
  escaped P s ->
  exists mid s', s = mid ++ s' /\ (length pre + span P (drop (length pre) (pre ++ s ++ rest)))%nat = length (pre ++ mid) /\
    escaped P s' /\ P (char_at (s' ++ rest) 0) = false.
Proof.
  intros Hs. rewrite drop_app_length. destruct rest_stops as (Hr & _).
  induction Hs as [|c s Hc Hne Hs (m & s' & -> & El & Hs' & Hp)|a b s Ha Hb Hs IH].
  - exists [], []. cbn [app]. rewrite app_nil_r. destruct rest as [|c r]; [done|].
    cbn [span]. unfold char_at in Hr. cbn [nth] in Hr. rewrite Hr. split_and!; [done|lia|constructor|done].
  - exists (c :: m), s'. cbn [app span]. rewrite Hc, length_app. rewrite length_app in El. cbn [length]. split_and!; [done|lia|done|done].
  - exists [], (percent :: a :: b :: s). cbn [app span]. rewrite P_percent, app_nil_r. unfold char_at. cbn [nth].
    split_and!; [done|lia|by apply escaped_hex|done].
Qed.

Lemma user_loop_scan pre s n :
  escaped P s -> (length s < n)%nat ->
  user_loop n P stop (pre ++ s ++ rest) (length pre) = Ok (Some (inl (length (pre ++ s)))).
Proof.
  intros Hs Hn. revert pre s Hs Hn. induction n as [|n IH]; intros pre s Hs Hn; [lia|]. cbn [user_loop].
  destruct (span_here pre s Hs) as (m1 & s1 & -> & -> & Hs1 & Hm1).
  destruct (escape_here (pre ++ m1) s1 Hs1) as (m2 & s2 & -> & He & Hs2 & Hm2).
  replace (pre ++ (m1 ++ m2 ++ s2) ++ rest) with ((pre ++ m1) ++ (m2 ++ s2) ++ rest) by (by rewrite <- !app_assoc).
  rewrite char_at_app, head_nonzero, He by done.
  replace ((pre ++ m1) ++ (m2 ++ s2) ++ rest) with (((pre ++ m1) ++ m2) ++ s2 ++ rest) by (by rewrite <- !app_assoc).
  apply (scan_end _ (fun p => Ok (Some (inl p)))); [done|by intros ->|done|]. intros. apply IH; [done|lia].
Qed.
End scan.

(** Copying an encoded part, or one without escapes. *)
Lemma substring_encoded enc s rest n :
  Forall is_char s -> n = length (encode_chars enc s) ->
  gives (globusl_url_get_substring (encode_chars enc s ++ rest) n) (GLOBUS_SUCCESS, Some s) 1.
Proof.
  intros Hs ->. apply (gives_bind _ _ true _ 1 0 1 gives_malloc); [|done].
  rewrite <- app_assoc, take_app_length, unescape_encode, cstring_id; [apply gives_ret| |done].
  eapply Forall_impl; [done|]. unfold is_char. cbn. lia.
Qed.

Lemma encode_plain s : Forall (fun c => 31 < c < 127 /\ c <> percent) s -> encode_chars [] s = s.
Proof.
  induction 1 as [|c s [Hc Hp] Hs IH]; [done|]. cbn [encode_chars]. unfold special. apply Z.eqb_neq in Hp. rewrite Hp, IH.
  zdecide. done.
Qed.

Lemma substring_plain s rest n :
  Forall (fun c => 31 < c < 127 /\ c <> percent) s -> n = length s ->
  gives (globusl_url_get_substring (s ++ rest) n) (GLOBUS_SUCCESS, Some s) 1.
Proof.
  intros Hs Hn. pose proof (encode_plain s Hs) as E. rewrite <- E at 1.
  apply substring_encoded; [|by rewrite E]. eapply Forall_impl; [done|]. unfold is_char. cbn. lia.
Qed.

(** A character of one of the classes is printable. *)
Lemma mem_ok c (l : string) P :
  mem c l = true -> forallb (fun c => P c) (codes l) = true -> P c = true.
Proof. unfold mem. rewrite existsb_exists, forallb_forall. intros (x & Hx & ->%Z.eqb_eq) H. by apply H. Qed.

Definition plain (c : Z) : bool := (31 <? c) && (c <? 127) && negb (c =? percent).
Lemma plain_spec c : plain c = true -> 31 < c < 127 /\ c <> percent.
Proof. unfold plain. rewrite !andb_true_iff, negb_true_iff, Z.eqb_neq, !Z.ltb_lt. tauto. Qed.

Lemma alnum_plain c : isalnum c = true -> plain c = true.
Proof.
  unfold isalnum, isalpha, isupper, islower, isdigit, plain, percent.
  rewrite !orb_true_iff, !andb_true_iff, !Z.leb_le, negb_true_iff, Z.eqb_neq, !Z.ltb_lt. lia.
Qed.
Lemma host_plain c : host_char c = true -> plain c = true.
Proof. unfold host_char. intros [H|H]%orb_true_iff; [by apply alnum_plain|]. by apply (mem_ok c "-." plain). Qed.
Lemma digit_plain c : isdigit c = true -> plain c = true.
Proof. intros H. apply alnum_plain. unfold isalnum. by rewrite H, orb_true_r. Qed.

(** ** Printing *)

(** Specification of the URL syntax: [user[:password]@], with the characters of
    [enc] escaped; [:port], in decimal digits; the path. *)
Definition print_user (enc : str) (u : option (str * option str)) : str :=
  match u with
  | None => []
  | Some (u, None) => encode_chars enc u ++ [64]
  | Some (u, Some p) => encode_chars enc u ++ [58] ++ encode_chars enc p ++ [64]
  end.

Definition print_port (ds : option str) : str := match ds with None => [] | Some ds => 58 :: ds end.

Definition encodable (P : Z -> bool) (enc s : str) : Prop :=
  Forall (fun c => is_char c /\ (P c = true \/ special enc c = true)) s.

Definition user_ok (enc : str) (u : option (str * option str)) : Prop :=
  forall v p, u = Some (v, p) -> v <> [] /\ encodable user_char enc v /\
    forall w, p = Some w -> w <> [] /\ encodable user_char enc w.

Definition host_ok (h : str) (ds : option str) : Prop :=
  h <> [] /\ Forall (fun c => host_char c = true) h /\
  forall d, ds = Some d -> d <> [] /\ Forall (fun c => isdigit c = true) d /\ digits_value d < 65536.

(** An absolute path, or none, and not that of a user's directory. *)
Definition path_ok (enc path : str) : Prop :=
  encodable path_char enc path /\ char_at (encode_chars enc path) 1 <> 126 /\ (path = [] \/ char_at (encode_chars enc path) 0 = 47).

Lemma encodable_check P enc s :
  forallb (fun c => (0 <? c) && (c <? 256) && (P c || special enc c)) s = true -> encodable P enc s.
Proof.
  induction s as [|c s IH]; [constructor|]. cbn [forallb]. rewrite !andb_true_iff, orb_true_iff, !Z.ltb_lt.
  intros [[Hc Hp] Hs]. constructor; [done|by apply IH].
Qed.

Lemma encodable_char P enc s : encodable P enc s -> Forall is_char s.
Proof. intros H. eapply Forall_impl; [exact H|]. naive_solver. Qed.

Lemma encode_length enc s : (length s <= length (encode_chars enc s))%nat.
Proof. induction s as [|c s IH]; [done|]. cbn [encode_chars]. destruct (special enc c); cbn [length]; lia. Qed.

Lemma get_path_gives enc path t :
  path_ok enc path ->
  gives (globusl_url_get_path (encode_chars enc path) t)
    (GLOBUS_SUCCESS, if decide (path = []) then None else Some path) (if decide (path = []) then 0 else 1).
Proof.
  intros (He & Ht & _). unfold globusl_url_get_path. set (e := encode_chars enc path) in *.
  eapply gives_bind; [apply gives_lift| |symmetry; apply Z.add_0_l].
  { pose proof (part_loop_scan path_char (fun c => c =? 0) [] eq_refl eq_refl) as H.
    specialize (H ltac:(intros c Hc; apply Z.eqb_neq; intros ->; by vm_compute in Hc) ltac:(by split_and!) [] e).
    cbn [app length] in H. rewrite app_nil_r in H. apply H; [by apply encode_escaped|lia]. }
  cbv beta iota. unfold take_path. pose proof (encode_length enc path) as Hl. fold e in Hl.
  destruct (decide (path = [])) as [->|Hne]; [apply gives_ret|].
  destruct path as [|c path]; [done|]. destruct (Nat.eqb_spec (length e) 0); [cbn [length] in Hl; lia|].
  rewrite Nat.eqb_refl. cbn [negb]. apply Z.eqb_neq in Ht. rewrite Ht, !andb_false_r.
  rewrite <- (app_nil_r e) at 1. apply substring_encoded; [|done]. by eapply encodable_char.
Qed.

Lemma digits_atoi d : Forall (fun c => isdigit c = true) d -> d <> [] -> digits_value d < 65536 -> uwrap 16 (atoi d) = digits_value d.
Proof.
  intros Hd Hne Hlt. pose proof (digits_nonneg d Hd).
  rewrite atoi_digits by done. unfold INT64_MAX. rewrite Z.min_l by lia. rewrite swrap_small by lia. apply Z.mod_small. lia.
Qed.

(** The end of an authority. *)
Definition at_path (rest : str) : Prop := rest = [] \/ char_at rest 0 = 47.

Lemma port_gives d rest (h : option str) :
  d <> [] -> Forall (fun c => isdigit c = true) d -> digits_value d < 65536 -> at_path rest ->
  gives (let s := d ++ rest in
         let pos := span isdigit s in
         if (pos =? 0)%nat then mret (GLOBUS_URL_ERROR_BAD_PORT, s, h, 0)
         else
           '(rc, tmp) ← globusl_url_get_substring s pos;
           let s := drop pos s in
           match tmp with
           | None => mret (rc, s, h, 0)
           | Some tmp => _ ← free; mret (GLOBUS_SUCCESS, s, h, uwrap 16 (atoi tmp))
           end) (GLOBUS_SUCCESS, rest, h, digits_value d) 0.
Proof.
  intros Hne Hd Hlt Hr. cbv zeta.
  rewrite span_app; [|done|destruct Hr as [->|Hr]; [by right|left; by rewrite Hr]].
  destruct d as [|c d]; [done|]. cbn [length Nat.eqb].
  eapply (gives_bind _ _ _ _ 1 (-1)); [apply substring_plain; [|done]| |done].
  { eapply Forall_impl; [exact Hd|]. intros x Hx%digit_plain. by apply plain_spec. }
  cbv beta iota. change (S (length d)) with (length (c :: d)). rewrite drop_app_length.
  eapply (gives_bind _ _ _ _ (-1) 0); [apply gives_free| |done]. cbv beta iota.
  rewrite digits_atoi by done. apply gives_ret.
Qed.

Lemma get_host_port_gives h ds rest :
  host_ok h ds -> at_path rest ->
  gives (globusl_url_get_host_port (h ++ print_port ds ++ rest))
    (GLOBUS_SUCCESS, rest, Some h, default 0 (digits_value <$> ds)) 1.
Proof.
  intros (Hne & Hh & Hds) Hr. unfold globusl_url_get_host_port.
  assert ((char_at (h ++ print_port ds ++ rest) 0 =? 91) = false) as ->.
  { apply Z.eqb_neq. destruct h as [|c h]; [done|]. apply Forall_cons in Hh as [Hc _]. unfold char_at. cbn. intros ->.
    by vm_compute in Hc. }
  set (tl := print_port ds ++ rest).
  assert (tl = [] \/ char_at tl 0 = 47 \/ char_at tl 0 = 58) as Htl.
  { unfold tl. destruct ds; [by right; right|]. destruct Hr as [->|Hr]; [by left|by right; left]. }
  rewrite span_app, char_at_app; [|done|destruct Htl as [->|[E|E]]; [by right|left; by rewrite E..]].
  destruct (Nat.eqb_spec (length h) 0) as [E|_]; [by apply nil_length_inv in E|].
  assert (gives (globusl_url_get_substring (h ++ tl) (length h)) (GLOBUS_SUCCESS, Some h) 1) as Hsub.
  { apply substring_plain; [|done]. eapply Forall_impl; [exact Hh|]. intros x Hx%host_plain. by apply plain_spec. }
  assert (drop (length h) (h ++ tl) = tl) as Hdrop by apply drop_app_length.
  destruct Htl as [E|[E|E]].
  - rewrite E in *. cbn [char_at nth]. cbn [Z.eqb orb andb].
    eapply (gives_bind _ _ _ _ 1 0); [exact Hsub| |done]. cbv beta iota. rewrite Hdrop. unfold tl in E.
    destruct ds; [done|]. cbn in E. subst rest. apply gives_ret.
  - rewrite E. cbn [Z.eqb Pos.eqb orb andb]. eapply (gives_bind _ _ _ _ 1 0); [exact Hsub| |done]. cbv beta iota zeta.
    rewrite Hdrop, E. cbn [Z.eqb Pos.eqb negb]. unfold tl in *. destruct ds; [done|]. apply gives_ret.
  - rewrite E. cbn [Z.eqb Pos.eqb orb andb]. eapply (gives_bind _ _ _ _ 1 0); [exact Hsub| |done]. cbv beta iota.
    rewrite Hdrop, E. cbn [Z.eqb Pos.eqb negb]. unfold tl in *. destruct ds as [d|].
    + destruct (Hds d eq_refl) as (Hd1 & Hd2 & Hd3). by apply port_gives.
    + cbn [print_port app] in E. destruct Hr as [->|Hr]; [done|]. by rewrite Hr in E.
Qed.

(** The scans for a user name and a password. *)
Definition login_char (c : Z) : bool := user_char c || (c =? 58).

Lemma scan_login s rest :
  escaped login_char s -> char_at rest 0 = 64 ->
  user_loop (S (length (s ++ rest))) login_char (fun c => c =? 64) (s ++ rest) 0 = Ok (Some (inl (length s))).
Proof.
  intros Hs Hr. apply (user_loop_scan login_char (fun c => c =? 64) rest eq_refl eq_refl) with (pre := []);
    [|by unfold stops; rewrite Hr|by rewrite Hr|done|done|rewrite length_app; lia].
  intros c Hc. apply Z.eqb_neq. intros ->. by vm_compute in Hc.
Qed.

Lemma scan_user s rest :
  escaped user_char s -> char_at rest 0 = 64 \/ char_at rest 0 = 58 ->
  user_loop (S (length (s ++ rest))) user_char (fun c => (c =? 64) || (c =? 58)) (s ++ rest) 0 = Ok (Some (inl (length s))).
Proof.
  intros Hs Hr. apply (user_loop_scan user_char (fun c => (c =? 64) || (c =? 58)) rest eq_refl eq_refl) with (pre := []);
    [|by unfold stops; destruct Hr as [-> | ->]|by destruct Hr as [-> | ->]|done|done|rewrite length_app; lia].
  intros c Hc. apply orb_false_iff. rewrite !Z.eqb_neq. split; intros ->; by vm_compute in Hc.
Qed.

Lemma scan_password s rest :
  escaped user_char s -> char_at rest 0 = 64 ->
  password_loop (S (length (s ++ rest))) (s ++ rest) 0 = Ok (Some (length s)).
Proof.
  intros Hs Hr. apply (password_scan user_char (fun c => c =? 64) rest eq_refl eq_refl) with (pre := []);
    [|by unfold stops; rewrite Hr|by rewrite Hr|done|done|done|done|rewrite length_app; lia].
  intros c Hc. apply Z.eqb_neq. intros ->. by vm_compute in Hc.
Qed.

Lemma encode_nonempty enc s : s <> [] -> (length (encode_chars enc s) =? 0)%nat = false.
Proof. intros H. apply Nat.eqb_neq. pose proof (encode_length enc s). destruct s; [done|]. cbn [length] in *. lia. Qed.

Lemma drop_past (s : str) c rest : drop (length s + 1) (s ++ c :: rest) = rest.
Proof. rewrite snoc_cons. replace (length s + 1)%nat with (length (s ++ [c])) by (by rewrite length_app). apply drop_app_length. Qed.

Lemma login_of_user s : escaped user_char s -> escaped login_char s.
Proof. apply escaped_weaken. unfold login_char. by intros c ->. Qed.

Lemma get_user_gives enc v rest :
  v <> [] -> encodable user_char enc v ->
  gives (globusl_url_get_user_password (encode_chars enc v ++ 64 :: rest)) (GLOBUS_SUCCESS, rest, Some v, None) 1.
Proof.
  intros Hv Hev. pose proof (encode_escaped _ _ _ Hev) as Hx. unfold globusl_url_get_user_password.
  change (fun c => user_char c || (c =? 58)) with login_char.
  eapply (gives_bind _ _ _ _ 0 1); [apply gives_lift, scan_login; [by apply login_of_user|done]| |done]. cbv beta iota.
  rewrite char_at_app. cbn [char_at nth]. cbn [Z.eqb Pos.eqb negb].
  eapply (gives_bind _ _ _ _ 0 1); [apply gives_lift, scan_user; [done|by left]| |done]. cbv beta iota.
  rewrite encode_nonempty, char_at_app by done. cbn [char_at nth]. cbn [Z.eqb Pos.eqb].
  eapply (gives_bind _ _ _ _ 1 0); [apply substring_encoded; [by eapply encodable_char|done]| |done]. cbv beta iota.
  rewrite drop_past. apply gives_ret.
Qed.

Lemma get_user_password_gives enc v w rest :
  v <> [] -> encodable user_char enc v -> w <> [] -> encodable user_char enc w ->
  gives (globusl_url_get_user_password (encode_chars enc v ++ 58 :: encode_chars enc w ++ 64 :: rest))
    (GLOBUS_SUCCESS, rest, Some v, Some w) 2.
Proof.
  intros Hv Hev Hw Hew. pose proof (encode_escaped _ _ _ Hev) as Hx. pose proof (encode_escaped _ _ _ Hew) as Hy.
  set (ev := encode_chars enc v) in *. set (ew := encode_chars enc w) in *. unfold globusl_url_get_user_password.
  change (fun c => user_char c || (c =? 58)) with login_char.
  replace (ev ++ 58 :: ew ++ 64 :: rest) with ((ev ++ 58 :: ew) ++ 64 :: rest) by (by rewrite <- app_assoc).
  eapply (gives_bind _ _ _ _ 0 2); [apply gives_lift, scan_login; [|done]| |done].
  { apply escaped_app; [by apply login_of_user|]. apply escaped_char; [done|done|by apply login_of_user]. }
  cbv beta iota. rewrite char_at_app. cbn [char_at nth]. cbn [Z.eqb Pos.eqb negb].
  replace ((ev ++ 58 :: ew) ++ 64 :: rest) with (ev ++ 58 :: ew ++ 64 :: rest) by (by rewrite <- app_assoc).
  eapply (gives_bind _ _ _ _ 0 2); [apply gives_lift, scan_user; [done|by right]| |done]. cbv beta iota.
  unfold ev at 1. rewrite encode_nonempty, char_at_app by done. fold ev. cbn [char_at nth]. cbn [Z.eqb Pos.eqb].
  eapply (gives_bind _ _ _ _ 1 1); [apply substring_encoded; [by eapply encodable_char|done]| |done]. cbv beta iota.
  cbn [Z.eqb GLOBUS_SUCCESS negb]. rewrite drop_past. cbv zeta.
  eapply (gives_bind _ _ _ _ 0 1); [apply gives_lift, scan_password; done| |done]. cbv beta iota.
  unfold ew at 1. rewrite encode_nonempty, char_at_app by done. fold ew. cbn [char_at nth]. cbn [Z.eqb Pos.eqb].
  eapply (gives_bind _ _ _ _ 1 0); [apply substring_encoded; [by eapply encodable_char|done]| |done]. cbv beta iota.
  rewrite drop_past. apply gives_ret.
Qed.

(** Where the class ends in neither an escape nor the end, the scan stops. *)
Lemma user_loop_stuck n P stop pre rest :
  P (char_at rest 0) = false -> char_at rest 0 <> 0 -> char_at rest 0 <> percent ->
  user_loop (S n) P stop (pre ++ rest) (length pre) = Ok (Some (inl (length pre))).
Proof.
  intros HP H0%Z.eqb_neq Hp%Z.eqb_neq. cbn [user_loop]. rewrite drop_app_length.
  assert (span P rest = 0%nat) as -> by (apply (span_app P [] rest); [done|by left]). unfold escape. rewrite Nat.add_0_r, char_at_app, H0, Hp.
  by rewrite Nat.eqb_refl, andb_false_r.
Qed.

(** No user name: the scan stops at the end of the authority. *)
Lemma get_no_user_gives s rest :
  Forall (fun c => login_char c = true) s -> at_path rest ->
  gives (globusl_url_get_user_password (s ++ rest)) (GLOBUS_SUCCESS, s ++ rest, None, None) 0.
Proof.
  intros Hs [->|Hr]; unfold globusl_url_get_user_password; change (fun c => user_char c || (c =? 58)) with login_char.
  - eapply (gives_bind _ _ (Some (inr tt)) _ 0 0); [apply gives_lift|apply gives_ret|done].
    cbn [user_loop]. rewrite drop_0, span_app by (try done; by right). cbn [Nat.add]. by rewrite char_at_app.
  - eapply (gives_bind _ _ (Some (inl (length s))) _ 0 0); [apply gives_lift| |done].
    + destruct rest as [|c rest]; [done|]. rewrite length_app. cbn [length]. rewrite Nat.add_succ_r.
      cbn [user_loop]. rewrite drop_0, span_app by (try done; left; by rewrite Hr). cbn [Nat.add]. unfold escape.
      rewrite char_at_app, Hr. cbn [Z.eqb Pos.eqb percent]. rewrite char_at_app, Hr. cbn [Z.eqb Pos.eqb negb andb].
      rewrite <- (user_loop_stuck (length s + length rest) login_char (fun c => c =? 64) s (c :: rest)) by (by rewrite Hr).
      destruct (negb _); [done|]. by rewrite user_loop_stuck by (by rewrite Hr).
    + cbv beta iota. rewrite char_at_app, Hr. apply gives_ret.
Qed.

(** ** The parser reads what was printed *)

Definition scheme_name (t : scheme_type) : str :=
  codes (match t with
         | GLOBUS_URL_SCHEME_FTP => "ftp" | GLOBUS_URL_SCHEME_GSIFTP => "gsiftp" | GLOBUS_URL_SCHEME_HTTP => "http"
         | GLOBUS_URL_SCHEME_HTTPS => "https" | GLOBUS_URL_SCHEME_LDAP => "ldap" | GLOBUS_URL_SCHEME_FILE => "file"
         | GLOBUS_URL_SCHEME_X_NEXUS => "x-nexus" | GLOBUS_URL_SCHEME_X_GASS_CACHE => "x-gass-cache"
         | GLOBUS_URL_SCHEME_SSHFTP => "sshftp" | GLOBUS_URL_SCHEME_UNKNOWN => "unknown"
         end).

Lemma get_scheme_gives t rest :
  char_at rest 0 = 58 ->
  gives (globusl_url_get_scheme (scheme_name t ++ rest)) (GLOBUS_SUCCESS, rest, Some (scheme_name t), Some t) 1.
Proof.
  intros Hr. unfold globusl_url_get_scheme.
  rewrite span_app; [|by destruct t; repeat constructor|left; by rewrite Hr]. rewrite char_at_app, Hr. cbn [Z.eqb Pos.eqb negb].
  assert ((length (scheme_name t) =? 0)%nat = false) as -> by (by destruct t).
  eapply (gives_bind _ _ _ _ 1 0); [apply substring_plain; [|done]| |done].
  { destruct t; repeat constructor; done. }
  cbv beta iota. rewrite drop_app_length. assert (scheme_of (scheme_name t) = t) as -> by (by destruct t). apply gives_ret.
Qed.

Lemma login_host h ds : host_ok h ds -> Forall (fun c => login_char c = true) (h ++ print_port ds).
Proof.
  intros (_ & Hh & Hds). apply Forall_app. split.
  - eapply Forall_impl; [exact Hh|]. cbn. unfold host_char, login_char, user_char. intros c [->|Hc]%orb_true_iff; [done|].
    apply (mem_ok c "-." (fun c => isalnum c || globusl_url_issafe c || globusl_url_isextra c || mem c ";?&=" || (c =? 58))); done.
  - destruct ds as [d|]; [|constructor]. destruct (Hds d eq_refl) as (_ & Hd & _). constructor; [done|].
    eapply Forall_impl; [exact Hd|]. cbn. unfold login_char, user_char, isalnum. intros c ->. by rewrite orb_true_r.
Qed.

Lemma user_part_gives enc u s rest :
  user_ok enc u -> Forall (fun c => login_char c = true) s -> at_path rest ->
  gives (globusl_url_get_user_password (print_user enc u ++ s ++ rest))
    (GLOBUS_SUCCESS, s ++ rest, fst <$> u, u ≫= snd) (held (fst <$> u) + held (u ≫= snd)).
Proof.
  intros Hu Hs Hr. destruct u as [[v [w|]]|]; cbn [print_user].
  - destruct (Hu v _ eq_refl) as (Hv & Hev & Hp). destruct (Hp w eq_refl) as (Hw & Hew).
    rewrite <- !app_assoc. by apply get_user_password_gives.
  - destruct (Hu v _ eq_refl) as (Hv & Hev & _). rewrite <- !app_assoc. by apply get_user_gives.
  - by apply (get_no_user_gives s rest).
Qed.

(** The URL that was printed. *)
Definition printed_url (t : scheme_type) (u : option (str * option str)) (h : str) (ds : option str) (path : str) : url :=
  Url (Some (scheme_name t)) t (fst <$> u) (u ≫= snd) (Some h) (default 0 (digits_value <$> ds))
    (if decide (path = []) then None else Some path) None None None None None.

Lemma path_ok_at enc path : path_ok enc path -> at_path (encode_chars enc path).
Proof. intros (_ & _ & [->|H]); [by left|by right]. Qed.

Lemma host_and_path_gives enc u h ds path :
  host_ok h ds -> path_ok enc path -> 
  gives (host_and_path globusl_url_get_path u (h ++ print_port ds ++ encode_chars enc path))
    (GLOBUS_SUCCESS, with_path (with_host u (Some h) (default 0 (digits_value <$> ds))) (if decide (path = []) then None else Some path))
    (1 + if decide (path = []) then 0 else 1).
Proof.
  intros Hh Hp. eapply (gives_bind _ _ _ _ 1 _); [apply get_host_port_gives; [done|by eapply path_ok_at]| |done]. cbv beta iota zeta.
  change (negb (GLOBUS_SUCCESS =? GLOBUS_SUCCESS)) with false. cbv iota.
  eapply (gives_bind _ _ _ _ _ 0); [by apply get_path_gives|apply gives_ret|lia].
Qed.

Lemma specific_gives enc t u h ds path (v := with_scheme (empty_url GLOBUS_URL_SCHEME_UNKNOWN) (Some (scheme_name t)) t) :
  t ∈ [GLOBUS_URL_SCHEME_FTP; GLOBUS_URL_SCHEME_GSIFTP; GLOBUS_URL_SCHEME_SSHFTP;
       GLOBUS_URL_SCHEME_HTTP; GLOBUS_URL_SCHEME_HTTPS] ->
  (is_ftp t = false -> u = None) -> user_ok enc u -> host_ok h ds -> path_ok enc path ->
  gives (scheme_specific globusl_url_get_path globusl_url_get_path globusl_url_get_file_specific v
           (print_user enc u ++ h ++ print_port ds ++ encode_chars enc path))
    (GLOBUS_SUCCESS, printed_url t u h ds path) (held_all (fields (printed_url t u h ds path)) - 1).
Proof.
  intros Ht Hf Hu Hh Hp.
  assert (is_ftp t = false -> gives (host_and_path globusl_url_get_path v (print_user enc u ++ h ++ print_port ds ++ encode_chars enc path))
    (GLOBUS_SUCCESS, printed_url t u h ds path) (held_all (fields (printed_url t u h ds path)) - 1)) as Hhttp.
  { intros Hn. rewrite (Hf Hn). cbn [print_user app].
    replace (held_all _ - 1) with (1 + if decide (path = []) then 0 else 1) by (cbn; by destruct (decide (path = []))).
    by apply host_and_path_gives. }
  assert (is_ftp t = true -> gives ('(rc, s, usr, pw) ← globusl_url_get_user_password (print_user enc u ++ h ++ print_port ds ++ encode_chars enc path);
      if negb (rc =? GLOBUS_SUCCESS) then mret (rc, with_user v usr pw)
      else host_and_path globusl_url_get_path (with_user v usr pw) s)
    (GLOBUS_SUCCESS, printed_url t u h ds path) (held_all (fields (printed_url t u h ds path)) - 1)) as Hftp.
  { intros _. rewrite (app_assoc h). eapply gives_bind; [apply user_part_gives; [done|by apply login_host|by eapply path_ok_at]| |].
    - cbv beta iota. change (negb (GLOBUS_SUCCESS =? GLOBUS_SUCCESS)) with false. cbv iota. rewrite <- app_assoc.
      by apply (host_and_path_gives enc (with_user v _ _)).
    - unfold held_all, printed_url. cbn. destruct (decide (path = [])); cbn; lia. }
  unfold scheme_specific. repeat (apply elem_of_cons in Ht as [->|Ht]; [by (apply Hftp || apply Hhttp)|]).
  by apply not_elem_of_nil in Ht.
Qed.

Lemma parse_gives enc t u h ds path :
  t ∈ [GLOBUS_URL_SCHEME_FTP; GLOBUS_URL_SCHEME_GSIFTP; GLOBUS_URL_SCHEME_SSHFTP;
       GLOBUS_URL_SCHEME_HTTP; GLOBUS_URL_SCHEME_HTTPS] ->
  (is_ftp t = false -> u = None) -> user_ok enc u -> host_ok h ds -> path_ok enc path ->
  gives (globus_url_parse false
      (Some (scheme_name t ++ codes "://" ++ print_user enc u ++ h ++ print_port ds ++ encode_chars enc path)))
    (GLOBUS_SUCCESS, Some (printed_url t u h ds path)) (held_all (fields (printed_url t u h ds path))).
Proof.
  intros Ht Hf Hu Hh Hp. set (rest := print_user enc u ++ h ++ print_port ds ++ encode_chars enc path).
  unfold globus_url_parse, parse_with.
  eapply (gives_bind _ _ _ _ 1); [by apply get_scheme_gives| |symmetry; apply Zplus_minus]. cbv beta iota zeta.
  change (negb (GLOBUS_SUCCESS =? GLOBUS_SUCCESS)) with false. cbv iota.
  change (take 3 (codes "://" ++ rest)) with (codes "://"). rewrite bool_decide_eq_true_2 by done. cbn [negb andb].
  rewrite decide_False by (cbn; intros ->; set_solver). change (drop 3 (codes "://" ++ rest)) with rest.
  eapply (gives_bind _ _ _ _ _ 0); [by apply specific_gives|apply gives_ret|symmetry; apply Z.add_0_r].
Qed.

Lemma destroy_gives u : gives (globus_url_destroy (Some u))
  (GLOBUS_SUCCESS, Some (Url None (type u) None None None (port u) None None None None None None)) (- held_all (fields u)).
Proof.
  assert (forall fs, gives (free_fields fs) tt (- held_all fs)) as H.
  { induction fs as [|f fs IH]; [apply gives_ret|]. cbn [free_fields]. eapply (gives_bind _ _ tt _ (- held f) (- held_all fs)); [|done|rewrite held_all_cons; lia].
    destruct f; [apply gives_free|apply gives_ret]. }
  eapply gives_bind; [apply H|apply gives_ret|lia].
Qed.

(** C10: [globus_url_parse] reads back what was printed: the URL of an FTP or HTTP
    scheme with a user and a password (FTP schemes only) and a path in which every
    character that is not allowed is escaped, a host and a port below 65536, each
    of them optional but the host, is parsed to exactly these parts; the parser
    then holds one block per part. *)
Theorem url_parse_print enc t u h ds path st :
  t ∈ [GLOBUS_URL_SCHEME_FTP; GLOBUS_URL_SCHEME_GSIFTP; GLOBUS_URL_SCHEME_SSHFTP;
       GLOBUS_URL_SCHEME_HTTP; GLOBUS_URL_SCHEME_HTTPS] ->
  (is_ftp t = false -> u = None) -> user_ok enc u -> host_ok h ds -> path_ok enc path -> ample st ->
  exists st', globus_url_parse false
      (Some (scheme_name t ++ codes "://" ++ print_user enc u ++ h ++ print_port ds ++ encode_chars enc path)) st =
    Ok (GLOBUS_SUCCESS, Some (printed_url t u h ds path), st') /\
    live st' = live st + held_all (fields (printed_url t u h ds path)).
Proof. intros. destruct (parse_gives enc t u h ds path) with (s := st) as (st' & E & _ & L); eauto. Qed.
Lemma url_parse_print_witness :
  exists st', globus_url_parse false
      (Some (scheme_name GLOBUS_URL_SCHEME_GSIFTP ++ codes "://" ++
             print_user (codes ":@") (Some (codes "a:b", Some (codes "p@%"))) ++ codes "h.org" ++ print_port (Some (codes "2811")) ++
             encode_chars (codes ":@") (codes "/x y/%"))) (CMem 0 []) =
    Ok (GLOBUS_SUCCESS, Some (printed_url GLOBUS_URL_SCHEME_GSIFTP (Some (codes "a:b", Some (codes "p@%"))) (codes "h.org")
      (Some (codes "2811")) (codes "/x y/%")), st') /\
    live st' = 0 + 5.
Proof.
  apply (url_parse_print (codes ":@") GLOBUS_URL_SCHEME_GSIFTP (Some (codes "a:b", Some (codes "p@%"))) (codes "h.org")
    (Some (codes "2811")) (codes "/x y/%") (CMem 0 [])).
  - right; left.
  - discriminate.
  - intros v p [= <- <-]. split; [discriminate|]. split.
    + apply encodable_check. reflexivity.
    + intros w [= <-]. split; [discriminate|]. apply encodable_check. reflexivity.
  - split; [discriminate|]. split; [repeat constructor|]. intros d [= <-]. split; [discriminate|].
    split; [repeat constructor|reflexivity].
  - split; [|split; [discriminate|right; reflexivity]].
    apply encodable_check. reflexivity.
  - constructor.
Defined.

(** ** The scheme alone *)

Lemma span_split P s : Forall (fun c => P c = true) (take (span P s) s).
Proof. induction s as [|c s IH]; cbn [span]; [constructor|]. destruct (P c) eqn:E; cbn [take]; by constructor. Qed.

Lemma scheme_plain c : scheme_char c = true -> plain c = true.
Proof.
  unfold scheme_char. rewrite !orb_true_iff. intros [[H|H]|H].
  - apply alnum_plain. unfold isalnum, isalpha. by rewrite H, orb_true_r.
  - by apply digit_plain.
  - by apply (mem_ok c "+-." plain).
Qed.

Lemma scheme_of_name v t : scheme_of v = t -> t <> GLOBUS_URL_SCHEME_UNKNOWN -> v = scheme_name t.
Proof.
  intros <-. unfold scheme_of.
  repeat match goal with |- context [bool_decide ?P] => destruct (bool_decide_reflect P) as [->|]; [done|] end. done.
Qed.

Lemma copy_plain s : Forall (fun c => 31 < c < 127 /\ c <> percent) s -> cstring (unescape s) = s.
Proof.
  intros Hs. pose proof (unescape_encode [] s) as E. rewrite encode_plain in E by done.
  rewrite E; [apply cstring_id|]; (eapply Forall_impl; [exact Hs|]); unfold is_char; cbn; lia.
Qed.

(** The parser's scheme is what is before the first colon. *)
Lemma get_scheme_inv s t st rest v st' :
  globusl_url_get_scheme s st = Ok (GLOBUS_SUCCESS, rest, v, Some t, st') -> t <> GLOBUS_URL_SCHEME_UNKNOWN ->
  exists r, s = scheme_name t ++ 58 :: r.
Proof.
  unfold globusl_url_get_scheme. set (pos := span scheme_char s).
  destruct (Z.eqb_spec (char_at s pos) 58) as [Hc|]; cbn [negb]; [|done]. destruct (pos =? 0)%nat; [done|].
  pose proof (take_drop pos s) as Es. pose proof (span_split scheme_char s) as Hp. fold pos in Hp.
  assert (length (take pos s) = pos) as Hl by (rewrite length_take; pose proof (span_le scheme_char s); lia).
  intros Hm Hu. apply cmd_bind_Ok in Hm as ([rc sch] & st1 & Hsub & Hret).
  destruct sch as [x|]; [|done]. injection Hret as <- <- Ht <-.
  assert (x = take pos s) as ->.
  { apply cmd_bind_Ok in Hsub as (ok & st2 & _ & Hsub). destruct ok; [|done]. injection Hsub as <- <- <-.
    rewrite take_app_le by (rewrite <- Hl, length_take; lia).
    apply copy_plain. eapply Forall_impl; [exact Hp|]. intros ? ?%scheme_plain. by apply plain_spec. }
  apply scheme_of_name in Ht as E; [|done]. pose proof (char_at_app (take pos s) (drop pos s)) as Hd.
  rewrite Hl, Es, Hc in Hd. destruct (drop pos s) as [|c r] eqn:Er; [done|]. cbn in Hd. exists r. rewrite <- E, Hd. done.
Qed.

Lemma strncmp_eq_app s lit n : strncmp_eq s lit n = true -> n = length (codes lit) -> exists r, s = codes lit ++ r.
Proof.
  unfold strncmp_eq. intros H%bool_decide_eq_true ->. rewrite firstn_all in H. exists (drop (length (codes lit)) s).
  by rewrite <- H at 1; rewrite take_drop.
Qed.

(** [globus_url_get_scheme] agrees with the parser on every string and every
    scheme but "https": it answers with a scheme exactly when the parser finds
    that scheme before the colon. *)
Theorem get_scheme_agrees s t st :
  t <> GLOBUS_URL_SCHEME_UNKNOWN -> t <> GLOBUS_URL_SCHEME_HTTPS -> ample st ->
  globus_url_get_scheme s = (GLOBUS_SUCCESS, t) <->
  exists rest v st', globusl_url_get_scheme s st = Ok (GLOBUS_SUCCESS, rest, v, Some t, st').
Proof.
  intros Hu Hh Hst. split.
  - intros E. enough (exists r, s = scheme_name t ++ 58 :: r) as (r & ->).
    { destruct (get_scheme_gives t (58 :: r) eq_refl st Hst) as (st' & H & _). eauto. }
    revert E. unfold globus_url_get_scheme.
    repeat match goal with |- context [strncmp_eq s ?l ?n] => destruct (strncmp_eq s l n) eqn:?; [intros [= <-]|] end; try done.
    all: match goal with H : strncmp_eq _ _ _ = true |- _ => apply strncmp_eq_app in H as (r & ->); [by exists r|done] end.
  - intros (rest & v & st' & H). apply get_scheme_inv in H as (r & ->); [|done]. by destruct t.
Qed.
Lemma get_scheme_agrees_witness :
  globus_url_get_scheme (codes "x-nexus://h:1/") = (GLOBUS_SUCCESS, GLOBUS_URL_SCHEME_X_NEXUS) <->
  exists rest v st', globusl_url_get_scheme (codes "x-nexus://h:1/") (CMem 0 []) =
    Ok (GLOBUS_SUCCESS, rest, v, Some GLOBUS_URL_SCHEME_X_NEXUS, st').
Proof. apply get_scheme_agrees; [discriminate|discriminate|constructor]. Defined.

(** Of "https:" only five characters are compared, so every scheme that starts
    with "https" is taken for it. *)
Lemma get_scheme_https :
  globus_url_get_scheme (codes "httpsx://h/") = (GLOBUS_SUCCESS, GLOBUS_URL_SCHEME_HTTPS) /\
  scheme_of (codes "httpsx") = GLOBUS_URL_SCHEME_UNKNOWN.
Proof. split; vm_compute; reflexivity. Qed.

(** ** Two defects *)

Lemma loose_host_stuck n s pos : host_char (char_at s pos) = true -> loose_host_loop n s pos = Fault OutOfFuel.
Proof. intros H. induction n as [|n IH]; [done|]. cbn [loose_host_loop]. by rewrite H. Qed.

(** C39: the loop over the host of a file URL in [globus_url_parse_loose] has
    lost its body: on every URL "file://h...", whose authority starts with a
    character of a host name, it never ends, with any amount of fuel. *)
Theorem parse_loose_hangs fuel c rest st :
  host_char c = true -> ample st ->
  globus_url_parse_loose fuel false (Some (codes "file://" ++ c :: rest)) st = Fault OutOfFuel.
Proof.
  intros Hc Hst. unfold globus_url_parse_loose, parse_with.
  destruct (get_scheme_gives GLOBUS_URL_SCHEME_FILE (codes "://" ++ c :: rest) eq_refl st Hst) as (st' & H & _).
  change (codes "file://" ++ c :: rest) with (scheme_name GLOBUS_URL_SCHEME_FILE ++ codes "://" ++ c :: rest).
  unfold mbind at 1, cmd_bind at 1. rewrite H. cbv beta iota zeta.
  change (negb (GLOBUS_SUCCESS =? GLOBUS_SUCCESS)) with false. cbv iota. cbn [type with_scheme default].
  rewrite (bool_decide_eq_true_2 (GLOBUS_URL_SCHEME_FILE = _)) by done. rewrite decide_True by done.
  cbn [negb]. rewrite andb_false_r. unfold mbind at 1, cmd_bind at 1. unfold scheme_specific. cbn [type with_scheme].
  assert ((c =? 47) = false) as Hn by (apply Z.eqb_neq; intros ->; by vm_compute in Hc).
  unfold mbind at 1, cmd_bind at 1. unfold globusl_url_get_file_specific_loose.
  change (drop 1 (codes "://" ++ c :: rest)) with (47 :: 47 :: c :: rest). cbn [span]. rewrite Hn. cbn [Nat.eqb Z.eqb Pos.eqb].
  unfold mbind at 1, cmd_bind at 1. cbn [drop]. unfold lift. by rewrite loose_host_stuck.
Qed.
Lemma parse_loose_hangs_witness :
  globus_url_parse_loose 1000 false (Some (codes "file://" ++ 104 :: codes "ost/tmp")) (CMem 0 []) = Fault OutOfFuel.
Proof. apply parse_loose_hangs; [reflexivity|constructor]. Defined.

(** C40: [globusl_url_get_path_rfc1738] allocates [strlen] bytes for the path and
    a NUL: for an FTP URL without a path, whatever its user and host, the NUL is
    written outside the block of zero bytes. *)
Theorem rfc1738_overflow enc t u h ds st :
  is_ftp t = true -> user_ok enc u -> host_ok h ds -> ample st ->
  globus_url_parse_rfc1738 false (Some (scheme_name t ++ codes "://" ++ print_user enc u ++ h ++ print_port ds)) st =
    Fault OutOfBounds.
Proof.
  intros Ht Hu Hh Hst. unfold globus_url_parse_rfc1738, parse_with. set (rest := print_user enc u ++ h ++ print_port ds).
  destruct (get_scheme_gives t (codes "://" ++ rest) eq_refl st Hst) as (st1 & H1 & Hst1 & _).
  unfold mbind at 1, cmd_bind at 1. rewrite H1. cbv beta iota zeta.
  change (negb (GLOBUS_SUCCESS =? GLOBUS_SUCCESS)) with false. cbv iota. cbn [type with_scheme default].
  change (take 3 (codes "://" ++ rest)) with (codes "://"). rewrite bool_decide_eq_true_2 by done. cbn [negb andb].
  change (id t) with t. rewrite decide_False by (intros ->; done). change (drop 3 (codes "://" ++ rest)) with rest.
  enough (forall v, type v = t -> scheme_specific globusl_url_get_path_rfc1738 globusl_url_get_path globusl_url_get_file_specific
    v rest st1 = Fault OutOfBounds) as H.
  { unfold mbind at 1, cmd_bind at 1. by rewrite H. }
  intros v Hv. destruct (user_part_gives enc u (h ++ print_port ds) [] Hu (login_host h ds Hh) (or_introl eq_refl) st1 Hst1)
    as (st2 & H2 & Hst2 & _). rewrite app_nil_r in H2. fold rest in H2.
  destruct (get_host_port_gives h ds [] Hh (or_introl eq_refl) st2 Hst2) as (st3 & H3 & Hst3 & _). rewrite app_nil_r in H3.
  destruct (gives_malloc st3 Hst3) as (st4 & H4 & _).
  unfold scheme_specific. rewrite Hv. destruct t; try discriminate Ht;
    (unfold mbind at 1, cmd_bind at 1; rewrite H2; cbv beta iota zeta; change (negb (GLOBUS_SUCCESS =? GLOBUS_SUCCESS)) with false; cbv iota;
     unfold host_and_path, mbind at 1, cmd_bind at 1; rewrite H3; cbv beta iota zeta;
     change (negb (GLOBUS_SUCCESS =? GLOBUS_SUCCESS)) with false; cbv iota;
     unfold mbind at 1, cmd_bind at 1; unfold globusl_url_get_path_rfc1738, mbind at 1, cmd_bind at 1; rewrite H4; reflexivity).
Qed.
Lemma rfc1738_overflow_witness :
  globus_url_parse_rfc1738 false (Some (scheme_name GLOBUS_URL_SCHEME_FTP ++ codes "://" ++ print_user [] None ++ codes "host" ++ print_port None))
    (CMem 0 []) = Fault OutOfBounds.
Proof.
  apply rfc1738_overflow; [reflexivity|discriminate| |constructor].
  split; [discriminate|split; [repeat constructor|discriminate]].
Defined.
End Url.
