(* ===== verification/RestartMarker.v ===== *)
(** * Restart markers (gridftp/client/source/globus_ftp_client_restart_marker.c)

    A marker says which bytes of a file have arrived: an offset of a stream, or
    the ranges received in extended block mode, with both ends included. The
    ranges are in a fifo, used through what Fifo.v proves of it: a queue of data.
    A fifo is a pointer, NULL until [globus_fifo_init]. The cells of a fifo and its
    structure are allocated without a check and taken to be available; the blocks
    counted are the ranges, the strings and the copy of a fifo, whose allocation
    this code tests. *)
From S2P Require Import Prelude.
From S2P Require Import Chars.
From S2P Require Import Stdio.
Local Open Scope Z_scope.

Module RestartMarker.

(** [globus_i_ftp_client_range_t] *)
Record range := Range { offset : Z; end_offset : Z }.

(** What [globus_result_t] reports. *)
Inductive status := SUCCESS | NULL_PARAMETER | INVALID_PARAMETER | OUT_OF_MEMORY.

(** The union [globus_ftp_client_restart_marker_t], by its type. *)
Inductive marker :=
| RESTART_NONE
| RESTART_STREAM (offset ascii_offset : Z)
| RESTART_EXTENDED_BLOCK (ranges : option (list range)).

(** ** The fifo *)

(** [globus_fifo_enqueue] reports that the fifo is NULL; nobody looks. *)
Definition enqueue (q : option (list range)) (r : range) : option (list range) := (fun q => q ++ [r]) <$> q.

(** [globus_fifo_empty(&fifo)], which follows the pointer. *)
Definition fifo_empty (q : option (list range)) : result bool := q ← deref q; Ok (bool_decide (q = [])).

(** [globus_fifo_copy]: a pointer to a fifo; NULL is not noticed before
    [globus_fifo_empty] asserts it. *)
Definition fifo_copy (q : option (list range)) : cmd (option (list range)) :=
  match q with
  | None => mret None
  | Some q => ok ← malloc; mret (if (ok : bool) then Some q else None)
  end.

Definition copied (tmp : option (list range)) : result (list range) :=
  match tmp with Some q => Ok q | None => Fault AssertFail end.

(** ** Making and destroying markers *)

Definition globus_ftp_client_restart_marker_init (m : option marker) : status * option marker :=
  match m with
  | None => (NULL_PARAMETER, None)
  | Some _ => (SUCCESS, Some RESTART_NONE)
  end.

(** The loop of [destroy] over the ranges. *)
Fixpoint free_ranges (rs : list range) : cmd unit :=
  match rs with
  | [] => mret tt
  | _ :: rs => _ ← free; free_ranges rs
  end.

Definition globus_ftp_client_restart_marker_destroy (m : option marker) : cmd (status * option marker) :=
  match m with
  | None => mret (NULL_PARAMETER, None)
  | Some (RESTART_EXTENDED_BLOCK q) =>
      rs ← lift (deref q);
      _ ← free_ranges rs;
      mret (SUCCESS, Some RESTART_NONE)
  | Some _ => mret (SUCCESS, Some RESTART_NONE)
  end.

(** ** Inserting a range *)

(** [copy_rest]: the ranges left are moved back. *)
Definition copy_rest (tmp : list range) (q : option (list range)) : option (list range) := foldl enqueue q tmp.

(** The loop over [tmp], the ranges so far, and what follows it. Of the three cases
    for a range that starts before [off] the last cannot occur. *)
Fixpoint insert_loop (tmp : list range) (q : option (list range)) (off end_off : Z) : cmd (status * option (list range)) :=
  match tmp with
  | [] =>
      ok ← malloc;
      if negb ok then mret (OUT_OF_MEMORY, q) else mret (SUCCESS, enqueue q (Range off end_off))
  | r :: tmp =>
      if off <=? offset r then
        e1 ← lift (s64 (end_off + 1));
        if e1 <? offset r then
          ok ← malloc;
          if negb ok then mret (OUT_OF_MEMORY, copy_rest tmp q)
          else mret (SUCCESS, copy_rest tmp (enqueue (enqueue q (Range off end_off)) r))
        else if e1 =? offset r then
          _ ← free; insert_loop tmp q off (end_offset r)
        else
          _ ← free; insert_loop tmp q off (if end_off <? end_offset r then end_offset r else end_off)
      else
        o1 ← lift (s64 (off - 1));
        if end_offset r <? o1 then insert_loop tmp (enqueue q r) off end_off
        else
          _ ← free; insert_loop tmp q (offset r) (if end_off <? end_offset r then end_offset r else end_off)
  end.

Definition globus_ftp_client_restart_marker_insert_range (m : option marker) (off end_off : Z) :
    cmd (status * option marker) :=
  match m with
  | None => mret (NULL_PARAMETER, None)
  | Some m =>
      let q := match m with RESTART_EXTENDED_BLOCK q => q | _ => Some [] end in
      (* [globus_fifo_move] leaves a NULL fifo alone. *)
      let '(tmp, q) := match q with Some rs => (rs, Some []) | None => ([], None) end in
      '(err, q) ← insert_loop tmp q off end_off;
      mret (err, Some (RESTART_EXTENDED_BLOCK q))
  end.

(** ** Copying *)

(** The loop over the copy of the ranges. The status of [insert_range] is dropped. *)
Fixpoint copy_loop (tmp : list range) (m : option marker) : cmd (option marker) :=
  match tmp with
  | [] => mret m
  | r :: tmp =>
      '(_, m) ← globus_ftp_client_restart_marker_insert_range m (offset r) (end_offset r);
      copy_loop tmp m
  end.

(** [new_marker] is not NULL if [has_new]. *)
Definition globus_ftp_client_restart_marker_copy (has_new : bool) (m : option marker) : cmd (status * option marker) :=
  if negb has_new then mret (NULL_PARAMETER, None)
  else match m with
  | None => mret (NULL_PARAMETER, None)
  | Some RESTART_NONE => mret (SUCCESS, Some RESTART_NONE)
  | Some (RESTART_STREAM o _) => mret (SUCCESS, Some (RESTART_STREAM o 0))
  | Some (RESTART_EXTENDED_BLOCK q) =>
      e ← lift (fifo_empty q);
      if (e : bool) then mret (SUCCESS, Some (RESTART_EXTENDED_BLOCK (Some [])))
      else
        tmp ← fifo_copy q;
        tmp ← lift (copied tmp);
        m ← copy_loop tmp (Some (RESTART_EXTENDED_BLOCK (Some [])));
        _ ← free;
        mret (SUCCESS, m)
  end.

(** ** Offsets *)

Definition globus_ftp_client_restart_marker_set_ascii_offset (m : option marker) (off ascii_off : Z) :
    cmd (status * option marker) :=
  match m with
  | None => mret (NULL_PARAMETER, None)
  | Some (RESTART_STREAM _ _) => mret (SUCCESS, Some (RESTART_STREAM off ascii_off))
  | Some m =>
      _ ← globus_ftp_client_restart_marker_destroy (Some m);
      mret (SUCCESS, Some (RESTART_STREAM off ascii_off))
  end.

Definition globus_ftp_client_restart_marker_set_offset (m : option marker) (off : Z) : cmd (status * option marker) :=
  match m with
  | None => mret (NULL_PARAMETER, None)
  | Some (RESTART_STREAM _ _) => mret (SUCCESS, Some (RESTART_STREAM off off))
  | Some m =>
      _ ← globus_ftp_client_restart_marker_destroy (Some m);
      mret (SUCCESS, Some (RESTART_STREAM off off))
  end.

(** ** Reading a marker *)

(** The loop that adds up the ranges. *)
Fixpoint total_loop (tmp : list range) (total : Z) : result Z :=
  match tmp with
  | [] => Ok total
  | r :: tmp =>
      d ← s64 (end_offset r - offset r);
      total ← s64 (total + d);
      total_loop tmp total
  end.

(** The status and, if it is set, the total. *)
Definition globus_ftp_client_restart_marker_get_total (m : option marker) (has_total : bool) : cmd (status * Z) :=
  match m with
  | None => mret (NULL_PARAMETER, 0)
  | Some m =>
      if negb has_total then mret (NULL_PARAMETER, 0)
      else match m with
      | RESTART_NONE => mret (SUCCESS, 0)
      | RESTART_STREAM o _ => mret (SUCCESS, o)
      | RESTART_EXTENDED_BLOCK q =>
          e ← lift (fifo_empty q);
          if (e : bool) then mret (SUCCESS, 0)
          else
            tmp ← fifo_copy q;
            tmp ← lift (copied tmp);
            total ← lift (total_loop tmp 0);
            _ ← free;
            mret (SUCCESS, total)
      end
  end.

Definition globus_ftp_client_restart_marker_get_first_block (m : option marker) (has_start has_end : bool) :
    cmd (status * (Z * Z)) :=
  match m with
  | None => mret (NULL_PARAMETER, (0, 0))
  | Some m =>
      if negb has_start then mret (NULL_PARAMETER, (0, 0))
      else if negb has_end then mret (NULL_PARAMETER, (0, 0))
      else match m with
      | RESTART_NONE => mret (SUCCESS, (0, 0))
      | RESTART_STREAM o _ => mret (SUCCESS, (0, o))
      | RESTART_EXTENDED_BLOCK q =>
          e ← lift (fifo_empty q);
          if (e : bool) then mret (SUCCESS, (0, 0))
          else
            r ← lift (q ← deref q; deref (head q));
            mret (SUCCESS, (offset r, end_offset r))
      end
  end.

(** ** Printing a marker *)

(** The loop of [count_digits]; a 64-bit number has at most 20 digits. *)
Fixpoint count_loop (n : nat) (num digits : Z) : result Z :=
  match n with
  | O => Fault OutOfFuel
  | S n => let num := Z.quot num 10 in if 0 <? num then count_loop n num (digits + 1) else Ok digits
  end.

Definition globus_i_ftp_client_count_digits (num : Z) : result Z :=
  '(num, digits) ← (if num <? 0 then num ← s64 (- num); Ok (num, 2) else Ok (num, 1));
  count_loop 20 num digits.

(** [realloc]: the old block goes when the new one is there. *)
Definition realloc : cmd bool := ok ← malloc; if (ok : bool) then _ ← free; mret true else mret false.

(** "offset-end," *)
Definition range_text (r : range) : list Z := decimal (offset r) ++ 45 :: decimal (end_offset r) ++ [44].

(** The loop over the copy of the ranges: the string so far is in a block of
    [length + 1] bytes, if there is one. [None] when there is no memory, and
    the string has been freed. *)
Fixpoint to_string_loop (tmp : list range) (buf : option (list Z)) (len : Z) : cmd (option (option (list Z))) :=
  match tmp with
  | [] => mret (Some buf)
  | r :: tmp =>
      a ← lift (globus_i_ftp_client_count_digits (offset r));
      b ← lift (globus_i_ftp_client_count_digits (end_offset r));
      let mylen := a + 1 + b + 1 in
      n ← lift (s32 (len + mylen + 1));
      ok ← (match buf with Some _ => realloc | None => malloc end);
      if negb ok then _ ← (match buf with Some _ => free | None => mret tt end); mret None
      else
        buf' ← lift (sprintf_at n (default [] buf) (range_text r));
        len ← lift (s32 (len + Z.of_nat (length (range_text r))));
        to_string_loop tmp (Some buf') len
  end.

(** The status and the string. When there is no memory the copy of the fifo is not
    freed. *)
Definition globus_ftp_client_restart_marker_to_string (m : option marker) (has_string : bool) :
    cmd (status * option (list Z)) :=
  match m with
  | None => mret (NULL_PARAMETER, None)
  | Some m =>
      if negb has_string then mret (NULL_PARAMETER, None)
      else match m with
      | RESTART_NONE => mret (SUCCESS, None)
      | RESTART_STREAM o a =>
          let off := if o <? a then a else o in
          digits ← lift (globus_i_ftp_client_count_digits off);
          ok ← malloc;
          if negb ok then mret (OUT_OF_MEMORY, None)
          else s ← lift (sprintf_at (digits + 1) [] (decimal (uwrap 64 off))); mret (SUCCESS, Some s)
      | RESTART_EXTENDED_BLOCK q =>
          e ← lift (fifo_empty q);
          if (e : bool) then mret (SUCCESS, None)
          else
            tmp ← fifo_copy q;
            tmp ← lift (copied tmp);
            r ← to_string_loop tmp None 0;
            match r with
            | None => mret (OUT_OF_MEMORY, None)
            | Some buf =>
                buf ← lift (deref buf);
                _ ← free;
                mret (SUCCESS, Some (take (length buf - 1) buf))
            end
      end
  end.

(** ** Reading a printed marker *)

(** [sscanf("%ld")]: the value and the rest. *)
Definition scan_off (s : list Z) : option (Z * list Z) := '(v, s) ← scan_int s; Some (clamp64 v, s).

(** [sscanf("%ld-%ld%n") >= 2] *)
Definition scan_range (s : list Z) : option (Z * Z * list Z) :=
  '(o, s) ← scan_off s;
  if char_at s 0 =? 45 then '(e, s) ← scan_off (drop 1 s); Some (o, e, s) else None.

(** The loop over the ranges. *)
Fixpoint from_string_loop (n : nat) (p : list Z) (m : option marker) : cmd (status * option marker) :=
  match n with
  | O => lift (Fault OutOfFuel)
  | S n =>
      match scan_range p with
      | None => mret (SUCCESS, m)
      | Some (o, e, p) =>
          '(res, m) ← globus_ftp_client_restart_marker_insert_range m o e;
          match res with
          | SUCCESS => if char_at p 0 =? 44 then from_string_loop n (drop 1 p) m else mret (SUCCESS, m)
          | _ => mret (res, m)
          end
      end
  end.

(** The fifo of the marker is NULL: [init] sets it to zero, and the type is changed
    without [globus_fifo_init]. *)
Definition globus_ftp_client_restart_marker_from_string (has_marker : bool) (marker_string : option (list Z)) :
    cmd (status * option marker) :=
  if negb has_marker then mret (NULL_PARAMETER, None)
  else match marker_string with
  | None => mret (NULL_PARAMETER, None)
  | Some s =>
      if existsb (Z.eqb 45) s then from_string_loop (S (length s)) s (Some (RESTART_EXTENDED_BLOCK None))
      else match scan_off s with
      | None => mret (INVALID_PARAMETER, Some (RESTART_STREAM 0 0))
      | Some (o, _) => mret (SUCCESS, Some (RESTART_STREAM o o))
      end
  end.

(** ** The bytes a marker covers *)

Definition covers (rs : list range) (x : Z) : Prop := Exists (fun r => offset r <= x <= end_offset r) rs.

(** Ranges in order, none of them empty, with a byte missing between any two. *)
Fixpoint separate (lo : Z) (rs : list range) : Prop :=
  match rs with
  | [] => True
  | r :: rs => lo <= offset r <= end_offset r /\ separate (end_offset r + 2) rs
  end.

(** The ends are far enough from the limits of [globus_off_t] to be moved by one. *)
Definition wf (rs : list range) : Prop := separate (INT64_MIN + 1) rs /\ Forall (fun r => end_offset r < INT64_MAX) rs.

Definition ok_range (r : range) : Prop := INT64_MIN < offset r <= end_offset r /\ end_offset r < INT64_MAX.

(** The ranges a marker can have before a range is inserted. *)
Definition ranges_in (m : marker) : option (list range) :=
  match m with RESTART_EXTENDED_BLOCK q => q | _ => Some [] end.

(** Reference: a new range swallows every range it overlaps or is adjacent to. *)
Fixpoint ins (off e : Z) (rs : list range) : list range :=
  match rs with
  | [] => [Range off e]
  | r :: rs =>
      if e + 1 <? offset r then Range off e :: r :: rs
      else if end_offset r + 1 <? off then r :: ins off e rs
      else ins (Z.min off (offset r)) (Z.max e (end_offset r)) rs
  end.

Lemma separate_weaken lo lo' rs : lo' <= lo -> separate lo rs -> separate lo' rs.
Proof. destruct rs as [|r rs]; cbn [separate]; [done|]. intros ? [? ?]. split; [lia|done]. Qed.

Lemma separate_ins lo off e rs : separate lo rs -> lo <= off <= e -> separate lo (ins off e rs).
Proof.
  revert lo off e. induction rs as [|r rs IH]; intros lo off e Hs Hoe; cbn [ins]; [by split|].
  destruct Hs as [Hr Hs]. destruct (Z.ltb_spec (e + 1) (offset r)); [cbn [separate offset end_offset]; repeat split; try lia; done|].
  destruct (Z.ltb_spec (end_offset r + 1) off).
  - split; [lia|]. apply IH; [done|lia].
  - apply IH; [eapply separate_weaken; [|done]; lia|lia].
Qed.

Lemma covers_ins lo off e rs x :
  separate lo rs -> off <= e -> covers (ins off e rs) x <-> covers rs x \/ off <= x <= e.
Proof.
  revert off e lo. induction rs as [|r rs IH]; intros off e lo Hs Hoe; cbn [ins]; unfold covers.
  - rewrite Exists_cons, Exists_nil. cbn. tauto.
  - destruct Hs as [Hr Hs]. rewrite (Exists_cons _ r rs). destruct (Z.ltb_spec (e + 1) (offset r)); [rewrite !Exists_cons; cbn; tauto|].
    destruct (Z.ltb_spec (end_offset r + 1) off).
    + rewrite Exists_cons. fold (covers (ins off e rs) x) (covers rs x). erewrite IH by done. tauto.
    + fold (covers (ins (Z.min off (offset r)) (Z.max e (end_offset r)) rs) x) (covers rs x). erewrite IH by (done || lia).
      split; [intros [?|?]|intros [[?|?]|?]]; try tauto; try (right; lia).
      destruct (decide (offset r <= x <= end_offset r)); [tauto|]. right. lia.
Qed.

Lemma ends_ins off e rs :
  e < INT64_MAX -> Forall (fun r => end_offset r < INT64_MAX) rs -> Forall (fun r => end_offset r < INT64_MAX) (ins off e rs).
Proof.
  intros He Hs. revert off e He. induction Hs as [|r rs Hr Hs IH]; intros off e He; cbn [ins]; [by repeat constructor|].
  destruct (e + 1 <? offset r); [by repeat constructor|]. destruct (end_offset r + 1 <? off); [constructor; auto|]. apply IH. lia.
Qed.

Lemma wf_ins off e rs : INT64_MIN < off <= e -> e < INT64_MAX -> wf rs -> wf (ins off e rs).
Proof. intros Ho He [Hs Hb]. split; [apply separate_ins; [done|lia]|by apply ends_ins]. Qed.

Lemma wf_ok rs : wf rs -> Forall ok_range rs.
Proof.
  intros [Hs Hb]. revert Hs. assert (INT64_MIN < INT64_MIN + 1) as Hlo by lia. revert Hlo. generalize (INT64_MIN + 1) as lo.
  induction Hb as [|r rs Hr Hb IH]; intros lo Hlo Hs; constructor; destruct Hs as [? Hs].
  - unfold ok_range. lia.
  - eapply IH; [|exact Hs]. lia.
Qed.

Lemma copy_rest_app tmp q : copy_rest tmp (Some q) = Some (q ++ tmp).
Proof.
  unfold copy_rest. revert q. induction tmp as [|r tmp IH]; intros q; cbn [foldl]; [by rewrite app_nil_r|].
  cbn [enqueue fmap option_fmap option_map]. by rewrite IH, <- app_assoc.
Qed.

(** The code computes the reference, with a block for each new range and one given
    back for each swallowed. *)
Lemma insert_loop_gives tmp q off e :
  Forall ok_range tmp -> ok_range (Range off e) ->
  gives (insert_loop tmp (Some q) off e) (SUCCESS, Some (q ++ ins off e tmp))
    (Z.of_nat (length (ins off e tmp)) - Z.of_nat (length tmp)).
Proof.
  intros Ht. revert q off e. induction Ht as [|r tmp Hr Ht IH]; intros q off e Ho; cbn [insert_loop ins].
  { apply (gives_bind _ _ true _ 1 0 1 gives_malloc); [apply gives_ret|done]. }
  unfold ok_range in Hr, Ho. cbn [offset end_offset] in Ho. assert (ok_range r) as Hr' by done.
  destruct (Z.leb_spec off (offset r)).
  - eapply (gives_bind _ _ _ _ 0); [apply gives_lift, s64_ok; lia| |symmetry; apply Z.add_0_l]. cbv beta.
    destruct (Z.ltb_spec (e + 1) (offset r)).
    + eapply (gives_bind _ _ true _ 1 0); [apply gives_malloc| |cbn [length]; lia]. cbn [negb enqueue fmap option_fmap option_map].
      rewrite copy_rest_app, <- !app_assoc. apply gives_ret.
    + destruct (Z.ltb_spec (end_offset r + 1) off); [lia|]. rewrite Z.min_l by lia.
      assert ((if e <? end_offset r then end_offset r else e) = Z.max e (end_offset r)) as Hmax by (destruct (Z.ltb_spec e (end_offset r)); lia).
      destruct (Z.eqb_spec (e + 1) (offset r)).
      * eapply (gives_bind _ _ _ _ (-1)); [apply gives_free| |]; [|]; rewrite <- ?Hmax; destruct (Z.ltb_spec e (end_offset r)); try lia;
          [apply IH; unfold ok_range; cbn; lia|cbn [length]; lia].
      * eapply (gives_bind _ _ _ _ (-1)); [apply gives_free|rewrite Hmax; apply IH; unfold ok_range; cbn; lia|cbn [length]; lia].
  - eapply (gives_bind _ _ _ _ 0); [apply gives_lift, s64_ok; lia| |symmetry; apply Z.add_0_l]. cbv beta.
    destruct (Z.ltb_spec (e + 1) (offset r)); [lia|]. destruct (Z.ltb_spec (end_offset r) (off - 1)).
    + assert ((end_offset r + 1 <? off) = true) as -> by (apply Z.ltb_lt; lia). cbn [enqueue fmap option_fmap option_map length].
      replace (q ++ r :: ins off e tmp) with ((q ++ [r]) ++ ins off e tmp) by (by rewrite <- app_assoc).
      replace (Z.of_nat (S (length (ins off e tmp))) - Z.of_nat (S (length tmp)))
        with (Z.of_nat (length (ins off e tmp)) - Z.of_nat (length tmp)) by lia. by apply IH.
    + assert ((end_offset r + 1 <? off) = false) as -> by (apply Z.ltb_ge; lia). rewrite Z.min_r by lia.
      assert ((if e <? end_offset r then end_offset r else e) = Z.max e (end_offset r)) as -> by (destruct (Z.ltb_spec e (end_offset r)); lia).
      eapply (gives_bind _ _ _ _ (-1)); [apply gives_free|apply IH; unfold ok_range; cbn; lia|cbn [length]; lia].
Qed.

Lemma insert_range_gives m rs off e :
  ranges_in m = Some rs -> wf rs -> ok_range (Range off e) ->
  gives (globus_ftp_client_restart_marker_insert_range (Some m) off e)
    (SUCCESS, Some (RESTART_EXTENDED_BLOCK (Some (ins off e rs)))) (Z.of_nat (length (ins off e rs)) - Z.of_nat (length rs)).
Proof.
  intros Hm Hw Ho. unfold globus_ftp_client_restart_marker_insert_range. fold (ranges_in m). rewrite Hm.
  eapply (gives_bind _ _ _ _ _ 0); [apply (insert_loop_gives rs []); [by apply wf_ok|done]|apply gives_ret|lia].
Qed.

(** C28: inserting a range into a restart marker whose ranges are in order and not
    adjacent gives a marker with the same property that covers exactly the bytes
    covered before and those of the range, and holds one block per range. A stream
    marker is replaced by the range. *)
Theorem marker_insert_correct m rs off e st :
  ranges_in m = Some rs -> wf rs -> ok_range (Range off e) -> ample st ->
  exists rs' st', globus_ftp_client_restart_marker_insert_range (Some m) off e st =
      Ok (SUCCESS, Some (RESTART_EXTENDED_BLOCK (Some rs')), st') /\
    wf rs' /\ (forall x, covers rs' x <-> covers rs x \/ off <= x <= e) /\
    live st' = live st + Z.of_nat (length rs') - Z.of_nat (length rs).
Proof.
  intros Hm Hw Ho Hst. destruct (insert_range_gives m rs off e Hm Hw Ho st Hst) as (st' & Hr & _ & Hl).
  exists (ins off e rs), st'. unfold ok_range in Ho. cbn in Ho. split_and!; [exact Hr|apply wf_ins; [lia|lia|done]| |lia].
  intros x. eapply covers_ins; [apply Hw|lia].
Qed.
Definition example_ranges : list range := [Range 0 99; Range 200 299; Range 500 599].
Lemma example_wf : wf example_ranges.
Proof. split; [repeat split; vm_compute; discriminate|repeat constructor]. Qed.
Lemma marker_insert_correct_witness :
  exists rs' st', globus_ftp_client_restart_marker_insert_range (Some (RESTART_EXTENDED_BLOCK (Some example_ranges))) 100 450 (CMem 3 []) =
      Ok (SUCCESS, Some (RESTART_EXTENDED_BLOCK (Some rs')), st') /\
    wf rs' /\ (forall x, covers rs' x <-> covers example_ranges x \/ 100 <= x <= 450) /\
    live st' = 3 + Z.of_nat (length rs') - 3.
Proof.
  apply (marker_insert_correct (RESTART_EXTENDED_BLOCK (Some example_ranges)) example_ranges 100 450 (CMem 3 []));
    [reflexivity|exact example_wf|repeat split; vm_compute; (reflexivity || discriminate)|constructor].
Defined.

(** ** Copies *)

(** A range behind all the others is put at the end. *)
Lemma ins_last off e rs : Forall (fun r => offset r <= end_offset r /\ end_offset r + 1 < off) rs -> off <= e -> ins off e rs = rs ++ [Range off e].
Proof.
  intros Hs Ho. induction Hs as [|r rs Hr Hs IH]; [done|]. cbn [ins app].
  destruct (Z.ltb_spec (e + 1) (offset r)); [lia|]. destruct (Z.ltb_spec (end_offset r + 1) off); [|lia]. by rewrite IH.
Qed.

Lemma separate_app lo rs rs' : separate lo (rs ++ rs') -> separate lo rs.
Proof. revert lo. induction rs as [|r rs IH]; intros lo; cbn [app separate]; [done|]. intros [? ?]. split; [done|by apply IH]. Qed.

Lemma separate_before lo rs r rs' :
  separate lo (rs ++ r :: rs') ->
  Forall (fun r' => offset r' <= end_offset r' /\ end_offset r' + 1 < offset r) rs /\ lo <= offset r <= end_offset r.
Proof.
  revert lo. induction rs as [|a rs IH]; intros lo; cbn [app separate].
  - intros [H _]. by split.
  - intros [H Hs]. destruct (IH _ Hs) as [IHf IHr]. split; [constructor; [lia|done]|lia].
Qed.

Lemma wf_snoc rs r rs' :
  wf (rs ++ r :: rs') -> wf rs /\ ok_range r /\ ins (offset r) (end_offset r) rs = rs ++ [r].
Proof.
  intros [Hs Hb]. destruct (separate_before _ _ _ _ Hs) as [Hf Hr]. apply Forall_app in Hb as [Hb1 Hb2].
  apply Forall_cons in Hb2 as [Hb2 _]. split_and!.
  - split; [by eapply separate_app|done].
  - unfold ok_range. lia.
  - rewrite ins_last by (try done; lia). by destruct r.
Qed.

Lemma copy_loop_gives tmp rs :
  wf (rs ++ tmp) ->
  gives (copy_loop tmp (Some (RESTART_EXTENDED_BLOCK (Some rs)))) (Some (RESTART_EXTENDED_BLOCK (Some (rs ++ tmp))))
    (Z.of_nat (length tmp)).
Proof.
  revert rs. induction tmp as [|r tmp IH]; intros rs Hw; cbn [copy_loop]; [rewrite app_nil_r; apply gives_ret|].
  destruct (wf_snoc _ _ _ Hw) as (Hrs & Hr & Hi). destruct r as [o e]. cbn [offset end_offset] in *.
  eapply gives_bind; [by apply insert_range_gives|cbv beta iota; rewrite Hi, (snoc_cons _ _ tmp); apply IH; by rewrite <- app_assoc|].
  rewrite Hi, length_app. cbn [length]. lia.
Qed.

(** The copy of a marker with ranges in order is an equal marker with blocks of
    its own. *)
Theorem marker_copy_correct rs st :
  wf rs -> ample st ->
  exists st', globus_ftp_client_restart_marker_copy true (Some (RESTART_EXTENDED_BLOCK (Some rs))) st =
      Ok (SUCCESS, Some (RESTART_EXTENDED_BLOCK (Some rs)), st') /\
    live st' = live st + Z.of_nat (length rs).
Proof.
  intros Hw Hst. destruct (decide (rs = [])) as [->|Hne]; [exists st; split; [done|cbn; lia]|].
  enough (gives (globus_ftp_client_restart_marker_copy true (Some (RESTART_EXTENDED_BLOCK (Some rs))))
    (SUCCESS, Some (RESTART_EXTENDED_BLOCK (Some rs))) (Z.of_nat (length rs))) as H.
  { destruct (H st Hst) as (st' & E & _ & L). eauto. }
  unfold globus_ftp_client_restart_marker_copy. cbn [negb].
  eapply (gives_bind _ _ false _ 0); [apply gives_lift; unfold fifo_empty; cbn; by rewrite bool_decide_eq_false_2| |symmetry; apply Z.add_0_l].
  eapply (gives_bind _ _ (Some rs) _ 1 (Z.of_nat (length rs) - 1)); [apply (gives_bind _ _ true _ 1 0 1 gives_malloc); [apply gives_ret|done]| |lia].
  eapply (gives_bind _ _ rs _ 0); [by apply gives_lift| |symmetry; apply Z.add_0_l].
  eapply gives_bind; [by apply (copy_loop_gives rs [])| |].
  - eapply (gives_bind _ _ _ _ (-1) 0); [apply gives_free|apply gives_ret|done].
  - lia.
Qed.
Lemma marker_copy_correct_witness :
  exists st', globus_ftp_client_restart_marker_copy true (Some (RESTART_EXTENDED_BLOCK (Some example_ranges))) (CMem 3 []) =
      Ok (SUCCESS, Some (RESTART_EXTENDED_BLOCK (Some example_ranges)), st') /\ live st' = 3 + 3.
Proof. apply (marker_copy_correct example_ranges (CMem 3 [])); [exact example_wf|constructor]. Defined.

(** The copy of a stream marker has lost its ASCII offset. *)
Lemma marker_copy_ascii o a st :
  globus_ftp_client_restart_marker_copy true (Some (RESTART_STREAM o a)) st = Ok (SUCCESS, Some (RESTART_STREAM o 0), st).
Proof. done. Qed.

(** ** Printing *)

(** Reference: "offset-end", separated by commas. *)
Definition range_string (r : range) : list Z := decimal (offset r) ++ 45 :: decimal (end_offset r).

Fixpoint print_ranges (rs : list range) : list Z :=
  match rs with
  | [] => []
  | [r] => range_string r
  | r :: rs => range_string r ++ 44 :: print_ranges rs
  end.

Lemma count_loop_ok n num d :
  0 <= num < 10 ^ Z.of_nat n -> (0 < n)%nat -> count_loop n num d = Ok (d - 1 + Z.of_nat (length (digits_rev n num))).
Proof.
  revert num d. induction n as [|n IH]; intros num d Hn Hp; [lia|]. cbn [count_loop digits_rev length].
  rewrite Z.quot_div_nonneg by lia. rewrite Nat2Z.inj_succ, Z.pow_succ_r in Hn by lia.
  destruct (Z.ltb_spec 0 (num / 10)) as [H|H].
  - rewrite (proj2 (Z.eqb_neq (num / 10) 0)) by lia.
    destruct n as [|n]; [cbn in Hn; Z.to_euclidean_division_equations; lia|].
    rewrite IH; [f_equal; lia| |lia]. Z.to_euclidean_division_equations; lia.
  - rewrite (proj2 (Z.eqb_eq (num / 10) 0)) by (Z.to_euclidean_division_equations; lia). cbn [length]. f_equal. lia.
Qed.

(** [count_digits] is the length of what [sprintf] writes. *)
Lemma count_digits_ok z :
  INT64_MIN < z <= INT64_MAX -> globus_i_ftp_client_count_digits z = Ok (Z.of_nat (length (decimal z))).
Proof.
  intros Hz. unfold globus_i_ftp_client_count_digits, decimal. unfold INT64_MIN, INT64_MAX in Hz. destruct (Z.ltb_spec z 0).
  - unfold mbind, result_bind. rewrite s64_ok by (unfold INT64_MIN, INT64_MAX; lia).
    rewrite count_loop_ok by lia. cbn [length]. rewrite length_rev. apply (f_equal Ok). lia.
  - unfold mbind, result_bind. rewrite count_loop_ok by lia. rewrite length_rev. apply (f_equal Ok). lia.
Qed.

Definition text (rs : list range) : list Z := concat (range_text <$> rs).

Lemma text_cons r rs : text (r :: rs) = range_text r ++ text rs.
Proof. done. Qed.

Lemma text_print r rs : text (r :: rs) = print_ranges (r :: rs) ++ [44].
Proof.
  revert r. induction rs as [|r' rs IH]; intros r; rewrite text_cons.
  - cbn [print_ranges text fmap list_fmap concat]. unfold text, range_text, range_string. cbn. by rewrite app_nil_r, <- app_assoc.
  - rewrite IH. change (print_ranges (r :: r' :: rs)) with (range_string r ++ 44 :: print_ranges (r' :: rs)).
    generalize (print_ranges (r' :: rs)) as p. intros p. unfold range_text, range_string.
    rewrite <- !app_assoc. cbn [app]. by rewrite <- !app_assoc.
Qed.

Lemma realloc_gives : gives realloc true 0.
Proof.
  apply (gives_bind _ _ true _ 1 (-1) 0 gives_malloc); [|done].
  apply (gives_bind _ _ tt _ (-1) 0 (-1) gives_free); [apply gives_ret|done].
Qed.

Lemma to_string_loop_gives rs buf :
  Forall ok_range rs -> Z.of_nat (length (default [] buf ++ text rs)) < INT_MAX ->
  gives (to_string_loop rs buf (Z.of_nat (length (default [] buf))))
    (Some (match rs with [] => buf | _ => Some (default [] buf ++ text rs) end))
    (match buf, rs with None, _ :: _ => 1 | _, _ => 0 end).
Proof.
  intros Hrs. revert buf. induction Hrs as [|r rs Hr Hrs IH]; intros buf Hlen; cbn [to_string_loop].
  { destruct buf; apply gives_ret. }
  rewrite text_cons in *. set (s := default [] buf) in *. unfold ok_range in Hr. rewrite !length_app in Hlen.
  eapply (gives_bind _ _ _ _ 0); [apply gives_lift, count_digits_ok; lia| |symmetry; apply Z.add_0_l].
  eapply (gives_bind _ _ _ _ 0); [apply gives_lift, count_digits_ok; lia| |symmetry; apply Z.add_0_l]. cbv beta zeta.
  assert (Z.of_nat (length (range_text r)) = Z.of_nat (length (decimal (offset r))) + 1 + Z.of_nat (length (decimal (end_offset r))) + 1) as Hl.
  { unfold range_text. rewrite length_app. cbn [length]. rewrite length_app. cbn [length]. lia. }
  rewrite <- Hl. eapply (gives_bind _ _ _ _ 0); [apply gives_lift, s32_ok; unfold INT_MIN; lia| |symmetry; apply Z.add_0_l].
  set (d := match buf with Some _ => 0 | None => 1 end).
  assert (gives (match buf with Some _ => realloc | None => malloc end) true d) as Halloc
    by (unfold d; destruct buf; [apply realloc_gives|apply gives_malloc]).
  replace (match buf with Some _ => 0 | None => 1 end) with d by (unfold d; by destruct buf).
  eapply (gives_bind _ _ _ _ d 0); [exact Halloc| |lia]. cbv beta. cbn [negb].
  eapply (gives_bind _ _ _ _ 0); [apply gives_lift; unfold sprintf_at; fold s; rewrite (proj2 (Z.leb_le _ _)) by lia; reflexivity| |symmetry; apply Z.add_0_l].
  eapply (gives_bind _ _ _ _ 0); [apply gives_lift, s32_ok; unfold INT_MIN; lia| |symmetry; apply Z.add_0_l]. cbv beta.
  specialize (IH (Some (s ++ range_text r))). cbn [default] in IH. unfold id in IH. rewrite !length_app, <- Nat2Z.inj_add in *.
  replace (Some (s ++ range_text r ++ text rs)) with (match rs with [] => Some (s ++ range_text r) | _ => Some ((s ++ range_text r) ++ text rs) end)
    by (destruct rs; [unfold text; cbn; by rewrite app_nil_r|by rewrite <- app_assoc]).
  apply IH. lia.
Qed.

(** The string of a marker with ranges is "offset-end" for each of them,
    separated by commas; each of the blocks it grows through is large enough for
    what [sprintf] writes to it, and only the last one is left. *)
Theorem marker_to_string_correct rs st :
  wf rs -> rs <> [] -> Z.of_nat (length (print_ranges rs)) + 1 < INT_MAX -> ample st ->
  exists st', globus_ftp_client_restart_marker_to_string (Some (RESTART_EXTENDED_BLOCK (Some rs))) true st =
      Ok (SUCCESS, Some (print_ranges rs), st') /\ live st' = live st + 1.
Proof.
  intros Hw Hne Hlen Hst.
  enough (gives (globus_ftp_client_restart_marker_to_string (Some (RESTART_EXTENDED_BLOCK (Some rs))) true)
    (SUCCESS, Some (print_ranges rs)) 1) as H by (destruct (H st Hst) as (st' & E & _ & L); eauto).
  unfold globus_ftp_client_restart_marker_to_string. cbn [negb]. destruct rs as [|r rs]; [done|].
  eapply (gives_bind _ _ false _ 0 1); [by apply gives_lift| |done].
  eapply (gives_bind _ _ (Some (r :: rs)) _ 1 0); [apply (gives_bind _ _ true _ 1 0 1 gives_malloc); [apply gives_ret|done]| |done].
  eapply (gives_bind _ _ (r :: rs) _ 0 0); [by apply gives_lift| |done].
  pose proof (text_print r rs) as Ht. eapply (gives_bind _ _ _ _ 1 (-1)); [apply (to_string_loop_gives (r :: rs) None)| |done].
  - by apply wf_ok.
  - cbn [default app]. rewrite Ht, length_app. cbn [length] in *. lia.
  - cbv beta iota. cbn [default app]. rewrite Ht.
    eapply (gives_bind _ _ _ _ 0 (-1)); [by apply gives_lift| |done].
    eapply (gives_bind _ _ _ _ (-1) 0); [apply gives_free| |done]. cbv beta. rewrite length_app. cbn [length].
    rewrite Nat.add_sub, take_app_length. apply gives_ret.
Qed.
Lemma marker_to_string_correct_witness :
  exists st', globus_ftp_client_restart_marker_to_string (Some (RESTART_EXTENDED_BLOCK (Some example_ranges))) true (CMem 3 []) =
      Ok (SUCCESS, Some (codes "0-99,200-299,500-599"), st') /\ live st' = 3 + 1.
Proof.
  apply (marker_to_string_correct example_ranges (CMem 3 [])); [exact example_wf|discriminate|reflexivity|constructor].
Defined.

(** ** Reading *)

Lemma scan_off_decimal z rest :
  INT64_MIN < z <= INT64_MAX -> isdigit (char_at rest 0) = false -> scan_off (decimal z ++ rest) = Some (z, rest).
Proof.
  intros Hz Hr. unfold scan_off. pose proof Hz as Hz'. unfold INT64_MIN, INT64_MAX in Hz'.
  rewrite scan_int_decimal by (done || lia). cbn [mbind option_bind]. by rewrite clamp64_id by lia.
Qed.

Lemma scan_range_string r rest :
  ok_range r -> isdigit (char_at rest 0) = false -> scan_range (range_string r ++ rest) = Some (offset r, end_offset r, rest).
Proof.
  intros Hr Hd. unfold ok_range in Hr. unfold scan_range, range_string. rewrite <- app_assoc. cbn [app].
  rewrite scan_off_decimal by (done || lia). cbn [mbind option_bind]. unfold char_at at 1. cbn [nth Z.eqb Pos.eqb drop].
  rewrite drop_0, scan_off_decimal by (done || lia). done.
Qed.

Lemma range_string_dash r : existsb (Z.eqb 45) (range_string r) = true.
Proof. unfold range_string. rewrite existsb_app. cbn. by rewrite orb_true_r. Qed.

(** Every range is allocated, and dropped by the NULL fifo. *)
Lemma from_string_loop_gives rs n :
  rs <> [] -> Forall ok_range rs -> (length rs <= n)%nat ->
  gives (from_string_loop n (print_ranges rs) (Some (RESTART_EXTENDED_BLOCK None)))
    (SUCCESS, Some (RESTART_EXTENDED_BLOCK None)) (Z.of_nat (length rs)).
Proof.
  intros Hne Hrs. revert n Hne. induction Hrs as [|r rs Hr Hrs IH]; intros n Hne Hn; [done|].
  destruct n as [|n]; [cbn in Hn; lia|]. cbn [from_string_loop].
  assert (gives (globus_ftp_client_restart_marker_insert_range (Some (RESTART_EXTENDED_BLOCK None)) (offset r) (end_offset r))
    (SUCCESS, Some (RESTART_EXTENDED_BLOCK None)) 1) as Hi.
  { eapply (gives_bind _ _ _ _ 1 0); [apply (gives_bind _ _ true _ 1 0 1 gives_malloc); [apply gives_ret|done]|apply gives_ret|done]. }
  destruct rs as [|r' rs].
  - pose proof (scan_range_string r [] Hr eq_refl) as Hs. rewrite app_nil_r in Hs. cbn [print_ranges]. rewrite Hs.
    eapply (gives_bind _ _ _ _ 1 0); [exact Hi|apply gives_ret|done].
  - change (print_ranges (r :: r' :: rs)) with (range_string r ++ 44 :: print_ranges (r' :: rs)).
    rewrite scan_range_string by done. eapply (gives_bind _ _ _ _ 1); [exact Hi| |].
    + cbv beta iota. unfold char_at. cbn [nth Z.eqb Pos.eqb drop]. rewrite drop_0. apply IH; [done|cbn [length] in *; lia].
    + cbn [length]. lia.
Qed.

Lemma print_ranges_length rs : (length rs <= length (print_ranges rs))%nat.
Proof.
  induction rs as [|r [|r' rs] IH]; [done|..].
  - cbn [print_ranges length]. unfold range_string. rewrite length_app. cbn [length]. lia.
  - change (print_ranges (r :: r' :: rs)) with (range_string r ++ 44 :: print_ranges (r' :: rs)).
    rewrite length_app. cbn [length] in *. lia.
Qed.

(** [globus_ftp_client_restart_marker_from_string] does not undo [to_string]: for
    every marker with ranges, reading its string succeeds, but the marker has a NULL
    fifo instead of the ranges, whose blocks are lost; printing, adding up, copying
    or destroying it then follows the NULL pointer. *)
Theorem marker_from_string_loses rs st :
  wf rs -> rs <> [] -> ample st ->
  exists m st', globus_ftp_client_restart_marker_from_string true (Some (print_ranges rs)) st = Ok (SUCCESS, Some m, st') /\
    live st' = live st + Z.of_nat (length rs) /\
    globus_ftp_client_restart_marker_to_string (Some m) true st' = Fault NullDeref /\
    globus_ftp_client_restart_marker_get_total (Some m) true st' = Fault NullDeref /\
    globus_ftp_client_restart_marker_copy true (Some m) st' = Fault NullDeref /\
    globus_ftp_client_restart_marker_destroy (Some m) st' = Fault NullDeref.
Proof.
  intros Hw Hne Hst. pose proof (print_ranges_length rs) as Hl.
  destruct (from_string_loop_gives rs (S (length (print_ranges rs))) Hne (wf_ok rs Hw) ltac:(lia) st Hst) as (st' & Hr & _ & Hlive).
  exists (RESTART_EXTENDED_BLOCK None), st'. split; [|done]. unfold globus_ftp_client_restart_marker_from_string. cbn [negb].
  assert (existsb (Z.eqb 45) (print_ranges rs) = true) as ->; [|exact Hr].
  destruct rs as [|r [|r' rs]]; [done|apply range_string_dash|].
  change (print_ranges (r :: r' :: rs)) with (range_string r ++ 44 :: print_ranges (r' :: rs)).
  by rewrite existsb_app, range_string_dash.
Qed.
Lemma marker_from_string_loses_witness :
  exists m st', globus_ftp_client_restart_marker_from_string true (Some (codes "0-99,200-299,500-599")) (CMem 0 []) = Ok (SUCCESS, Some m, st') /\
    live st' = 0 + 3 /\
    globus_ftp_client_restart_marker_to_string (Some m) true st' = Fault NullDeref /\
    globus_ftp_client_restart_marker_get_total (Some m) true st' = Fault NullDeref /\
    globus_ftp_client_restart_marker_copy true (Some m) st' = Fault NullDeref /\
    globus_ftp_client_restart_marker_destroy (Some m) st' = Fault NullDeref.
Proof. apply (marker_from_string_loses example_ranges (CMem 0 [])); [exact example_wf|discriminate|constructor]. Defined.

(** A stream marker is read back as the larger of its offsets. *)
Lemma marker_stream_roundtrip o a st :
  0 <= Z.max o a <= INT64_MAX -> ample st ->
  exists s st', globus_ftp_client_restart_marker_to_string (Some (RESTART_STREAM o a)) true st = Ok (SUCCESS, Some s, st') /\
    live st' = live st + 1 /\
    globus_ftp_client_restart_marker_from_string true (Some s) st' = Ok (SUCCESS, Some (RESTART_STREAM (Z.max o a) (Z.max o a)), st').
Proof.
  intros Hz Hst. unfold INT64_MAX in Hz. set (z := Z.max o a) in *. destruct (gives_malloc st Hst) as (st' & Hm & _ & Hl).
  exists (decimal z), st'. split_and!; [|done|].
  - unfold globus_ftp_client_restart_marker_to_string. cbn [negb].
    replace (if o <? a then a else o) with z by (unfold z; destruct (Z.ltb_spec o a); lia). cbv zeta.
    unfold mbind, cmd_bind, lift. rewrite count_digits_ok by (unfold INT64_MIN, INT64_MAX; lia). rewrite Hm. cbn [negb].
    unfold uwrap. rewrite Z.mod_small by lia. unfold sprintf_at. cbn [length]. by rewrite (proj2 (Z.leb_le _ _)) by lia.
  - unfold globus_ftp_client_restart_marker_from_string. cbn [negb].
    pose proof (scan_off_decimal z [] ltac:(unfold INT64_MIN, INT64_MAX; lia) eq_refl) as Hs. rewrite app_nil_r in Hs. rewrite Hs.
    assert (existsb (Z.eqb 45) (decimal z) = false) as ->; [|done]. unfold decimal. rewrite (proj2 (Z.ltb_ge z 0)) by lia.
    pose proof (Forall_rev (digits_rev_digit 20 z)) as Hd. induction Hd as [|c d Hc Hd IH]; [done|].
    cbn [existsb]. rewrite IH, orb_false_r. unfold isdigit in Hc. rewrite andb_true_iff, !Z.leb_le in Hc. apply Z.eqb_neq. lia.
Qed.

(** The number of bytes the ranges cover. *)
Definition bytes (rs : list range) : Z := foldr (fun r n => end_offset r - offset r + 1 + n) 0 rs.

Lemma total_loop_ok rs lo total :
  separate lo rs -> Forall (fun r => end_offset r < INT64_MAX) rs -> 0 <= total <= lo ->
  total_loop rs total = Ok (total + bytes rs - Z.of_nat (length rs)).
Proof.
  intros Hs Hb. revert lo total Hs. induction Hb as [|r rs Hr Hb IH]; intros lo total Hs Ht; cbn [total_loop bytes foldr length].
  - f_equal. lia.
  - destruct Hs as [Hlo Hs]. unfold mbind, result_bind. rewrite s64_ok by (unfold INT64_MIN, INT64_MAX in *; lia).
    rewrite s64_ok by (unfold INT64_MIN, INT64_MAX in *; lia). rewrite (IH _ _ Hs) by lia. unfold bytes. apply (f_equal Ok). lia.
Qed.

(** [get_total] counts one byte too few for every range: the ends are included. *)
Lemma marker_total_short rs st :
  separate 0 rs -> Forall (fun r => end_offset r < INT64_MAX) rs -> ample st ->
  exists st', globus_ftp_client_restart_marker_get_total (Some (RESTART_EXTENDED_BLOCK (Some rs))) true st =
    Ok (SUCCESS, bytes rs - Z.of_nat (length rs), st').
Proof.
  intros Hs Hb Hst. destruct (decide (rs = [])) as [->|Hne]; [by exists st|].
  enough (gives (globus_ftp_client_restart_marker_get_total (Some (RESTART_EXTENDED_BLOCK (Some rs))) true)
    (SUCCESS, bytes rs - Z.of_nat (length rs)) 0) as H by (destruct (H st Hst) as (st' & E & _ & _); eauto).
  unfold globus_ftp_client_restart_marker_get_total. cbn [negb].
  eapply (gives_bind _ _ false _ 0 0); [apply gives_lift; unfold fifo_empty; cbn; by rewrite bool_decide_eq_false_2| |done].
  eapply (gives_bind _ _ (Some rs) _ 1 (-1)); [apply (gives_bind _ _ true _ 1 0 1 gives_malloc); [apply gives_ret|done]| |done].
  eapply (gives_bind _ _ rs _ 0 (-1)); [by apply gives_lift| |done].
  eapply (gives_bind _ _ _ _ 0 (-1)); [by eapply gives_lift, total_loop_ok| |done].
  eapply (gives_bind _ _ _ _ (-1) 0); [apply gives_free|apply gives_ret|done].
Qed.

(** When there is no memory for the new range, the range before which it belongs is
    dropped from the marker. *)
Lemma insert_out_of_memory :
  globus_ftp_client_restart_marker_insert_range (Some (RESTART_EXTENDED_BLOCK (Some [Range 10 19; Range 30 39]))) 0 5 (CMem 2 [false]) =
    Ok (OUT_OF_MEMORY, Some (RESTART_EXTENDED_BLOCK (Some [Range 30 39])), CMem 2 []).
Proof. reflexivity. Qed.
End RestartMarker.
