(* ===== verification/GramPack.v ===== *)
(** * GRAM messages (gram/protocol/source/globus_gram_protocol_pack.c)

    A message is a sequence of lines "attribute: value", packed with [sprintf] into
    a block whose size is computed before, and unpacked into a hash table, which is
    the list of its mappings: Hashtable.v proves that inserting a key that is there
    changes nothing. The hash table itself is taken to be available; the blocks
    counted are the messages, the strings and the extensions. Error codes are names,
    numbered in globus-gram-protocol-constants.sh. Messages are shorter than 2^31
    bytes, so that the [int] lengths hold them. *)
From S2P Require Import Prelude.
From S2P Require Import Chars.
From S2P Require Import Stdio.
Local Open Scope Z_scope.

Module GramPack.

Inductive status :=
| SUCCESS | NULL_PARAMETER | HTTP_PACK_FAILED | HTTP_UNPACK_FAILED | VERSION_MISMATCH | MALLOC_FAILED.

Definition status_eqb (a b : status) : bool :=
  match a, b with
  | SUCCESS, SUCCESS | NULL_PARAMETER, NULL_PARAMETER | HTTP_PACK_FAILED, HTTP_PACK_FAILED
  | HTTP_UNPACK_FAILED, HTTP_UNPACK_FAILED | VERSION_MISMATCH, VERSION_MISMATCH | MALLOC_FAILED, MALLOC_FAILED => true
  | _, _ => false
  end.

Definition GLOBUS_GRAM_PROTOCOL_VERSION : Z := 2.

Definition CRLF : list Z := [13; 10].
Definition QUOTE : Z := 34.
Definition BACKSLASH : Z := 92.
Definition COLON : Z := 58.
Definition SPACE : Z := 32.

(** [globus_gram_protocol_extension_t]: either string may be NULL. *)
Record extension := Extension { attribute : option (list Z); value : option (list Z) }.

(** The mappings of a hash table of unpacked extensions. *)
Abbreviation attrs := (list (list Z * list Z)) (only parsing).

Fixpoint lookup (t : attrs) (a : list Z) : option (list Z) :=
  match t with
  | [] => None
  | (b, v) :: t => if bool_decide (a = b) then Some v else lookup t a
  end.

(** [globus_hashtable_insert], whose status is dropped. *)
Definition insert (t : attrs) (a v : list Z) : attrs := match lookup t a with Some _ => t | None => t ++ [(a, v)] end.

(** [globus_l_gram_protocol_extension_destroy] of every extension: three blocks. *)
Fixpoint globus_gram_protocol_hash_destroy (t : attrs) : cmd unit :=
  match t with
  | [] => mret tt
  | _ :: t => _ ← free; _ ← free; _ ← free; globus_gram_protocol_hash_destroy t
  end.

(** ** Lines *)

(** The length of a format of one line, and the line it prints. *)
Definition fmt_length (f : string) : Z := Z.of_nat (String.length f) + 2.
Definition int_line (name : string) (z : Z) : list Z := codes name ++ decimal z ++ CRLF.
Definition str_line (name : string) (s : list Z) : list Z := codes name ++ s ++ CRLF.

Definition PACK_PROTOCOL_VERSION_LINE : Z := fmt_length "protocol-version: %d".
Definition PACK_JOB_STATE_MASK_LINE : Z := fmt_length "job-state-mask: %d".
Definition PACK_CALLBACK_URL_LINE : Z := fmt_length "callback-url: %s".
Definition PACK_STATUS_LINE : Z := fmt_length "status: %d".
Definition PACK_FAILURE_CODE_LINE : Z := fmt_length "failure-code: %d".
Definition PACK_JOB_FAILURE_CODE_LINE : Z := fmt_length "job-failure-code: %d".
Definition PACK_JOB_MANAGER_URL_LINE : Z := fmt_length "job-manager-url: %s".
Definition PACK_CLIENT_REQUEST_LINE : Z := fmt_length "%s".

Definition version_line : list Z := int_line "protocol-version: " GLOBUS_GRAM_PROTOCOL_VERSION.

Definition strlen (s : list Z) : Z := Z.of_nat (length s).

(** ** Quoting *)

Fixpoint quote_chars (s : list Z) : list Z :=
  match s with
  | [] => []
  | c :: s => if (c =? QUOTE) || (c =? BACKSLASH) then BACKSLASH :: c :: quote_chars s else c :: quote_chars s
  end.

(** What [quote_string] writes before the NUL. *)
Definition globus_l_gram_protocol_quote_string (s : list Z) : list Z := QUOTE :: quote_chars s ++ [QUOTE].

(** The loop of [unquote_string]: [pos] is [in - inbuf]. *)
Fixpoint unquote_loop (n : nat) (inbuf : list Z) (insize pos : Z) (in_quote : bool) (out : list Z) : result (status * list Z) :=
  match n with
  | O => Fault OutOfFuel
  | S n =>
      if pos <? insize then
        c ← c_index inbuf pos;
        if c =? 0 then Ok (if in_quote then HTTP_UNPACK_FAILED else SUCCESS, out)
        else if in_quote then
          if c =? QUOTE then Ok (SUCCESS, out)
          else if c =? BACKSLASH then
            d ← c_index inbuf (pos + 1);
            unquote_loop n inbuf insize (pos + 2) in_quote (out ++ [d])
          else unquote_loop n inbuf insize (pos + 1) in_quote (out ++ [c])
        else if c =? 13 then
          d ← c_index inbuf (pos + 1);
          if negb (d =? 10) then Ok (HTTP_UNPACK_FAILED, out)
          else unquote_loop n inbuf insize (pos + 2) in_quote (out ++ [d])
        else unquote_loop n inbuf insize (pos + 1) in_quote (out ++ [c])
      else Ok (if in_quote then HTTP_UNPACK_FAILED else SUCCESS, out)
  end.

(** The status and the string written to a block of [cap] bytes. *)
Definition globus_l_gram_protocol_unquote_string (inbuf : list Z) (insize cap : Z) : result (status * list Z) :=
  c ← c_index inbuf 0;
  let in_quote := c =? QUOTE in
  '(rc, out) ← unquote_loop (S (length inbuf)) inbuf insize (if in_quote then 1 else 0) in_quote [];
  match rc with
  | SUCCESS => out ← sprintf_at cap [] out; Ok (SUCCESS, cstring out)
  | _ => if strlen out <=? cap then Ok (rc, []) else Fault OutOfBounds
  end.

(** ** Unpacking a message *)

Section unpack.
  Context (message : list Z) (message_end : nat).

Definition at_ (p : nat) : result Z := c_index message (Z.of_nat p).

(** [while (p < message_end && !stop( *p)) p++] *)
Fixpoint scan_until (n : nat) (stop : Z -> bool) (p : nat) : result nat :=
  match n with
  | O => Fault OutOfFuel
  | S n => if (p <? message_end)%nat then c ← at_ p; if stop c then Ok p else scan_until n stop (p + 1) else Ok p
  end.

(** The loop to the quote that ends a value, which does not look at [message_end]. *)
Fixpoint quoted_until (n : nat) (escaped : bool) (p : nat) : result nat :=
  match n with
  | O => Fault OutOfFuel
  | S n =>
      c ← at_ p;
      if c =? 0 then Ok p
      else if escaped then quoted_until n false (p + 1)
      else if c =? QUOTE then Ok p
      else quoted_until n (c =? BACKSLASH) (p + 1)
  end.

(** [p < message_end && *(p++) != c]: whether it holds, and [p] after it. *)
Definition expect (c : Z) (p : nat) : result (bool * nat) :=
  if (p <? message_end)%nat then d ← at_ p; Ok (negb (d =? c), (p + 1)%nat) else Ok (false, p).

(** What one line holds: the attribute, where the value is, and where the line ends. *)
Inductive line := Last | Malformed | Line (attr : list Z) (value_start value_len next : nat).

(** Where a value at [p] starts and ends, and where the line goes on. *)
Definition value_extent (p : nat) : result (nat * nat * nat) :=
  let n := S (length message) in
  quoted ← (if (p <? message_end)%nat then c ← at_ p; Ok (c =? QUOTE) else Ok false);
  if (quoted : bool) then e ← quoted_until n false (p + 1); Ok ((p + 1)%nat, e, (e + 1)%nat)
  else e ← scan_until n (fun c => (c =? 13) || (c =? 0)) p; Ok (p, e, e).

Definition unpack_line (p : nat) : result line :=
  q ← scan_until (S (length message)) (fun c => (c =? COLON) || (c =? 0)) p;
  if (q <? message_end)%nat then
    c ← at_ q;
    if negb (c =? COLON) then Ok Malformed
    else
      let attr := take (q - p) (drop p message) in
      if (q + 1 <? message_end)%nat then
        c ← at_ (q + 1);
        if negb (c =? SPACE) then Ok Malformed
        else
          '(value_start, e, p) ← value_extent (q + 2);
          '(bad, p) ← expect 13 p;
          if (bad : bool) then Ok Malformed
          else
            '(bad, p) ← expect 10 p;
            if (bad : bool) then Ok Malformed else Ok (Line attr value_start (e - value_start) p)
      else Ok Malformed
  else Ok Last.

(** The loop that copies a value, dropping backslashes; [i] is relative to it. *)
Fixpoint copy_value (n : nat) (value_start value_len i : nat) : result (list Z) :=
  match n with
  | O => Fault OutOfFuel
  | S n =>
      if (i <? value_len)%nat then
        c ← at_ (value_start + i);
        if negb (c =? BACKSLASH) then l ← copy_value n value_start value_len (i + 1); Ok (c :: l)
        else
          c ← at_ (value_start + (i + 1));
          l ← copy_value n value_start value_len (i + 2); Ok (c :: l)
      else Ok []
  end.

Fixpoint unpack_loop (n : nat) (p : nat) (t : attrs) : cmd (status * attrs) :=
  match n with
  | O => lift (Fault OutOfFuel)
  | S n =>
      more ← lift (if (p <? message_end)%nat then c ← at_ p; Ok (negb (c =? 0)) else Ok false);
      if negb more then mret (SUCCESS, t)
      else
        l ← lift (unpack_line p);
        match l with
        | Last => mret (SUCCESS, t)
        | Malformed => mret (HTTP_UNPACK_FAILED, t)
        | Line attr value_start value_len next =>
            _ ← must_malloc; _ ← must_malloc; _ ← must_malloc;
            v ← lift (copy_value (S value_len) value_start value_len 0);
            unpack_loop n next (insert t attr (cstring v))
        end
  end.
End unpack.

(** The status and the table, NULL when the message is malformed. *)
Definition globus_gram_protocol_unpack_message (message : list Z) (message_length : nat) : cmd (status * option attrs) :=
  '(rc, t) ← unpack_loop message message_length (S (length message)) 0 [];
  match rc with
  | SUCCESS => mret (SUCCESS, Some t)
  | _ => _ ← globus_gram_protocol_hash_destroy t; mret (rc, None)
  end.

Definition globus_l_gram_protocol_get_int_attribute (t : attrs) (name : string) : status * Z :=
  match lookup t (codes name) with None => (HTTP_UNPACK_FAILED, 0) | Some v => (SUCCESS, atoi v) end.

Definition globus_l_gram_protocol_get_string_attribute (t : attrs) (name : string) : cmd (status * option (list Z)) :=
  match lookup t (codes name) with
  | None => mret (HTTP_UNPACK_FAILED, None)
  | Some v => ok ← malloc; if (ok : bool) then mret (SUCCESS, Some v) else mret (MALLOC_FAILED, None)
  end.

(** ** Job requests *)

(** A message: the string, and the size reported for it. *)
Abbreviation message := (list Z * Z)%type (only parsing).

(** [ok] is whether the pointers for the results are not NULL. *)
Definition globus_gram_protocol_pack_job_request (ok : bool) (job_state_mask : Z) (callback_url rsl : option (list Z)) :
    cmd (status * option message) :=
  match rsl with
  | None => mret (NULL_PARAMETER, None)
  | Some rsl =>
      if negb ok then mret (NULL_PARAMETER, None)
      else
        let cap := PACK_PROTOCOL_VERSION_LINE + PACK_JOB_STATE_MASK_LINE + PACK_CALLBACK_URL_LINE +
                   (match callback_url with Some u => strlen u | None => 2 end) + 2 * strlen rsl + 16 in
        _ ← must_malloc;
        query ← lift (sprintf_at cap []
          (version_line ++ int_line "job-state-mask: " job_state_mask ++
           str_line "callback-url: " (default [QUOTE; QUOTE] callback_url) ++ codes "rsl: "));
        query ← lift (sprintf_at cap query (globus_l_gram_protocol_quote_string rsl));
        let len := strlen query in
        query ← lift (sprintf_at cap query CRLF);
        mret (SUCCESS, Some (query, len + 3))
  end.

(** The status, the mask, the callback URL and the description. *)
Definition globus_gram_protocol_unpack_job_request (ok : bool) (query : option (list Z)) (querysize : nat) :
    cmd (status * (Z * option (list Z) * option (list Z))) :=
  match query with
  | None => mret (NULL_PARAMETER, (0, None, None))
  | Some query =>
      if negb ok then mret (NULL_PARAMETER, (0, None, None))
      else
        '(rc, t) ← globus_gram_protocol_unpack_message query querysize;
        match t with
        | None => mret (rc, (0, None, None))
        | Some t =>
            r ← (let '(rc, version) := globus_l_gram_protocol_get_int_attribute t "protocol-version" in
                 if negb (status_eqb rc SUCCESS) then mret (rc, (0, None, None))
                 else if negb (version =? GLOBUS_GRAM_PROTOCOL_VERSION) then mret (VERSION_MISMATCH, (0, None, None))
                 else
                   let '(rc, mask) := globus_l_gram_protocol_get_int_attribute t "job-state-mask" in
                   if negb (status_eqb rc SUCCESS) then mret (rc, (0, None, None))
                   else
                     '(rc, url) ← globus_l_gram_protocol_get_string_attribute t "callback-url";
                     match url with
                     | None => mret (rc, (mask, None, None))
                     | Some u =>
                         url ← (if char_at u 0 =? 0 then _ ← free; mret None else mret (Some u));
                         '(rc, description) ← globus_l_gram_protocol_get_string_attribute t "rsl";
                         match description with
                         | Some d => mret (SUCCESS, (mask, url, Some d))
                         | None => _ ← (match url with Some _ => free | None => mret tt end); mret (rc, (mask, None, None))
                         end
                     end);
            _ ← globus_gram_protocol_hash_destroy t;
            mret r
        end
  end.

(** ** Replies to job requests *)

Definition reply_lines (status : Z) (job_contact : option (list Z)) : list Z :=
  version_line ++ int_line "status: " status ++ match job_contact with Some c => str_line "job-manager-url: " c | None => [] end.

Definition globus_gram_protocol_pack_job_request_reply (status : Z) (job_contact : option (list Z)) : cmd (GramPack.status * option message) :=
  ok ← malloc;
  if negb ok then mret (MALLOC_FAILED, None)
  else
    reply ← lift (sprintf_at (PACK_PROTOCOL_VERSION_LINE + PACK_STATUS_LINE + PACK_JOB_MANAGER_URL_LINE +
                              (match job_contact with Some c => strlen c + 3 | None => 3 end))
                    [] (reply_lines status job_contact));
    mret (SUCCESS, Some (reply, strlen reply + 1)).

(** The status and the contact; a missing contact is no error. *)
Definition globus_gram_protocol_unpack_job_request_reply (ok : bool) (reply : option (list Z)) (replysize : nat) :
    cmd (status * (Z * option (list Z))) :=
  match reply with
  | None => mret (NULL_PARAMETER, (0, None))
  | Some reply =>
      if negb ok then mret (NULL_PARAMETER, (0, None))
      else
        '(rc, t) ← globus_gram_protocol_unpack_message reply replysize;
        match t with
        | None => mret (rc, (0, None))
        | Some t =>
            r ← (let '(rc, version) := globus_l_gram_protocol_get_int_attribute t "protocol-version" in
                 if negb (status_eqb rc SUCCESS) then mret (rc, (0, None))
                 else if negb (version =? GLOBUS_GRAM_PROTOCOL_VERSION) then mret (VERSION_MISMATCH, (0, None))
                 else
                   let '(rc, st) := globus_l_gram_protocol_get_int_attribute t "status" in
                   if negb (status_eqb rc SUCCESS) then mret (rc, (0, None))
                   else
                     '(rc, contact) ← globus_l_gram_protocol_get_string_attribute t "job-manager-url";
                     mret (if status_eqb rc MALLOC_FAILED then rc else SUCCESS, (st, contact)));
            _ ← globus_gram_protocol_hash_destroy t;
            mret r
        end
  end.

(** ** Extensions *)

(** The loop that adds up what the extensions need; [None] when one has a NULL. *)
Fixpoint extensions_length (es : list extension) : option Z :=
  match es with
  | [] => Some 0
  | e :: es =>
      a ← attribute e; v ← value e;
      n ← extensions_length es;
      Some (strlen a + 2 * strlen v + 4 + n)
  end.

(** The loop that prints them. *)
Fixpoint write_extensions (cap : Z) (buf : list Z) (es : list extension) : result (list Z) :=
  match es with
  | [] => Ok buf
  | e :: es =>
      a ← deref (attribute e); v ← deref (value e);
      buf ← sprintf_at cap buf (a ++ codes ": ");
      buf ← sprintf_at cap buf (globus_l_gram_protocol_quote_string v);
      buf ← sprintf_at cap buf CRLF;
      write_extensions cap buf es
  end.

(** The common part of the functions that pack extensions: [room] bytes for
    [lines], and then the extensions. *)
Definition pack_with_extensions (room : Z) (lines : list Z) (es : list extension) : cmd (status * option message) :=
  match extensions_length es with
  | None => mret (HTTP_PACK_FAILED, None)
  | Some n =>
      ok ← malloc;
      if negb ok then mret (MALLOC_FAILED, None)
      else
        reply ← lift (sprintf_at (n + room) [] lines);
        reply ← lift (write_extensions (n + room) reply es);
        mret (SUCCESS, Some (reply, strlen reply + 1))
  end.

Definition globus_gram_protocol_pack_job_request_reply_with_extensions (ok : bool) (status : Z) (job_contact : option (list Z))
    (extensions : option (list extension)) : cmd (GramPack.status * option message) :=
  match extensions with
  | None => mret (NULL_PARAMETER, None)
  | Some es =>
      if negb ok then mret (NULL_PARAMETER, None)
      else
        pack_with_extensions
          (PACK_PROTOCOL_VERSION_LINE + PACK_STATUS_LINE +
           (match job_contact with Some c => PACK_JOB_MANAGER_URL_LINE + strlen c | None => 0 end) + 4)
          (reply_lines status job_contact) es
  end.

Definition globus_gram_protocol_unpack_job_request_reply_with_extensions (ok : bool) (reply : option (list Z)) (replysize : nat) :
    cmd (status * (Z * option (list Z) * option attrs)) :=
  match reply with
  | None => mret (NULL_PARAMETER, (0, None, None))
  | Some reply =>
      if negb ok then mret (NULL_PARAMETER, (0, None, None))
      else
        '(rc, t) ← globus_gram_protocol_unpack_message reply replysize;
        match t with
        | None => mret (rc, (0, None, None))
        | Some t =>
            let fail rc st := _ ← globus_gram_protocol_hash_destroy t; mret (rc, (st, None, None)) in
            match lookup t (codes "protocol-version") with
            | None => fail HTTP_UNPACK_FAILED 0
            | Some v =>
                if negb (strtol v =? GLOBUS_GRAM_PROTOCOL_VERSION) then fail VERSION_MISMATCH 0
                else match lookup t (codes "status") with
                | None => fail HTTP_UNPACK_FAILED 0
                | Some v =>
                    let st := atoi v in
                    match lookup t (codes "job-manager-url") with
                    | None => mret (SUCCESS, (st, None, Some t))
                    | Some c => ok ← malloc; if (ok : bool) then mret (SUCCESS, (st, Some c, Some t)) else fail MALLOC_FAILED st
                    end
                end
            end
        end
  end.

(** ** Status requests *)

Definition globus_gram_protocol_pack_status_request (status_request : list Z) : cmd (status * option message) :=
  let cap := PACK_PROTOCOL_VERSION_LINE + PACK_CLIENT_REQUEST_LINE + 2 * strlen status_request in
  ok ← malloc;
  if negb ok then mret (MALLOC_FAILED, None)
  else
    query ← lift (sprintf_at cap [] version_line);
    query ← lift (sprintf_at cap query (globus_l_gram_protocol_quote_string status_request));
    query ← lift (sprintf_at cap query CRLF);
    mret (SUCCESS, Some (query, strlen query + 1)).

(** The string at the start of a buffer, which must have a NUL. *)
Definition c_string (buf : list Z) : result (list Z) :=
  if existsb (fun c => c =? 0) buf then Ok (cstring buf) else Fault OutOfBounds.

(** [strstr(s, CRLF)]: the position of the first one. *)
Fixpoint strstr_crlf (s : list Z) : option nat :=
  match s with
  | [] => None
  | c :: s => if (c =? 13) && (char_at s 0 =? 10) then Some O else S <$> strstr_crlf s
  end.

(** The directives of a line "name: %d". *)
Definition scan_line (name : string) : list directive := [Lit (codes name); Space; Dec 0 32; Space].

Definition globus_gram_protocol_unpack_status_request (ok : bool) (query : option (list Z)) (querysize : Z) :
    cmd (status * option (list Z)) :=
  match query with
  | None => mret (NULL_PARAMETER, None)
  | Some query =>
      if negb ok then mret (NULL_PARAMETER, None)
      else
        s ← lift (c_string query);
        match strstr_crlf s with
        | None => mret (HTTP_UNPACK_FAILED, None)
        | Some p =>
            let p := (p + 2)%nat in
            let msgsize := uwrap 64 (querysize - Z.of_nat p) in
            ok ← malloc;
            if negb ok then mret (MALLOC_FAILED, None)
            else
              '(rc, out) ←
                (match (sscanf (scan_line "protocol-version:") s).1 with
                 | [AInt version] =>
                     if negb (version =? GLOBUS_GRAM_PROTOCOL_VERSION) then mret (VERSION_MISMATCH, [])
                     else lift (globus_l_gram_protocol_unquote_string (drop p query) msgsize msgsize)
                 | _ => mret (HTTP_UNPACK_FAILED, [])
                 end);
              if negb (status_eqb rc SUCCESS) then _ ← free; mret (rc, None) else mret (rc, Some out)
        end
  end.

(** ** Replies to status requests *)

Definition status_reply_lines (job_status failure_code job_failure_code : Z) : list Z :=
  version_line ++ int_line "status: " job_status ++ int_line "failure-code: " failure_code ++
  int_line "job-failure-code: " job_failure_code.

Definition PACK_STATUS_REPLY : Z :=
  PACK_PROTOCOL_VERSION_LINE + PACK_STATUS_LINE + PACK_FAILURE_CODE_LINE + PACK_JOB_FAILURE_CODE_LINE + 4.

Definition globus_gram_protocol_pack_status_reply (job_status failure_code job_failure_code : Z) : cmd (status * option message) :=
  ok ← malloc;
  if negb ok then mret (MALLOC_FAILED, None)
  else
    reply ← lift (sprintf_at PACK_STATUS_REPLY [] (status_reply_lines job_status failure_code job_failure_code));
    mret (SUCCESS, Some (reply, strlen reply + 1)).

(** [old] is what the result pointers hold, if they are not NULL. *)
Definition globus_gram_protocol_unpack_status_reply (reply : option (list Z)) (old : option (Z * Z * Z)) :
    result (status * option (Z * Z * Z)) :=
  match old with
  | None => Ok (NULL_PARAMETER, None)
  | Some (job_status, failure_code, job_failure_code) =>
      reply ← deref reply;
      s ← c_string reply;
      let args := (sscanf (scan_line "protocol-version:" ++ scan_line "status:" ++ scan_line "failure-code:" ++
                           scan_line "job-failure-code:") s).1 in
      Ok match args with
      | [AInt v; AInt a; AInt b] => (if v =? GLOBUS_GRAM_PROTOCOL_VERSION then SUCCESS else VERSION_MISMATCH, Some (a, b, 0))
      | [AInt v; AInt a; AInt b; AInt c] => (if v =? GLOBUS_GRAM_PROTOCOL_VERSION then SUCCESS else VERSION_MISMATCH, Some (a, b, c))
      | [AInt v; AInt a] => (HTTP_UNPACK_FAILED, Some (a, failure_code, job_failure_code))
      | _ => (HTTP_UNPACK_FAILED, old)
      end
  end.

Definition globus_gram_protocol_pack_status_reply_with_extensions (ok : bool) (job_status failure_code job_failure_code : Z)
    (extensions : option (list extension)) : cmd (status * option message) :=
  match extensions with
  | None => mret (NULL_PARAMETER, None)
  | Some es =>
      if negb ok then mret (NULL_PARAMETER, None)
      else pack_with_extensions PACK_STATUS_REPLY (status_reply_lines job_status failure_code job_failure_code) es
  end.

Definition globus_gram_protocol_unpack_status_reply_with_extensions (ok : bool) (reply : option (list Z)) (replysize : nat) :
    cmd (status * option attrs) :=
  match reply with
  | None => mret (NULL_PARAMETER, None)
  | Some reply =>
      if negb ok then mret (NULL_PARAMETER, None)
      else
        '(rc, t) ← globus_gram_protocol_unpack_message reply replysize;
        match t with
        | None => mret (rc, None)
        | Some t =>
            let fail rc := _ ← globus_gram_protocol_hash_destroy t; mret (rc, None) in
            match lookup t (codes "protocol-version") with
            | None => fail HTTP_UNPACK_FAILED
            | Some v =>
                if negb (strtol v =? GLOBUS_GRAM_PROTOCOL_VERSION) then fail VERSION_MISMATCH
                else match lookup t (codes "status"), lookup t (codes "failure-code"), lookup t (codes "job-failure-code") with
                | Some _, Some _, Some _ => mret (SUCCESS, Some t)
                | _, _, _ => fail HTTP_UNPACK_FAILED
                end
            end
        end
  end.

(** ** Status updates *)

Definition status_update_lines (job_contact : list Z) (status failure_code : Z) : list Z :=
  version_line ++ str_line "job-manager-url: " job_contact ++ int_line "status: " status ++ int_line "failure-code: " failure_code.

Definition globus_gram_protocol_pack_status_update_message (job_contact : list Z) (status failure_code : Z) :
    cmd (GramPack.status * option message) :=
  ok ← malloc;
  if negb ok then mret (MALLOC_FAILED, None)
  else
    reply ← lift (sprintf_at (PACK_PROTOCOL_VERSION_LINE + PACK_JOB_MANAGER_URL_LINE + PACK_STATUS_LINE +
                              PACK_FAILURE_CODE_LINE + strlen job_contact + 5)
                    [] (status_update_lines job_contact status failure_code));
    mret (SUCCESS, Some (reply, strlen reply + 1)).

(** The [realloc] is a second allocation that, if it succeeds, frees the first. *)
Definition globus_gram_protocol_pack_status_update_message_with_extensions (ok : bool) (job_contact : option (list Z))
    (status failure_code : Z) (extensions : option (list extension)) : cmd (GramPack.status * option message) :=
  match job_contact, extensions with
  | Some job_contact, Some es =>
      if negb ok then mret (NULL_PARAMETER, None)
      else match extensions_length es with
      | None => mret (HTTP_PACK_FAILED, None)
      | Some n =>
          ok ← malloc;
          if negb ok then mret (MALLOC_FAILED, None)
          else
            let tmp := status_update_lines job_contact status failure_code in
            let len := n + (strlen tmp + 1) in
            ok ← malloc;
            _ ← free;
            if negb ok then mret (MALLOC_FAILED, None)
            else
              reply ← lift (write_extensions len tmp es);
              mret (SUCCESS, Some (reply, strlen reply + 1))
      end
  | _, _ => mret (NULL_PARAMETER, None)
  end.

Definition is_staging_failure (code : Z) : bool := (code =? 135) || (code =? 43) || (code =? 44).

(** A string that may be missing: whether it is there and could not be copied. *)
Definition get_optional (t : attrs) (name : string) : cmd (bool * option (list Z)) :=
  '(rc, v) ← globus_l_gram_protocol_get_string_attribute t name;
  mret (negb (status_eqb rc SUCCESS) && negb (status_eqb rc HTTP_UNPACK_FAILED), v).

Definition free_optional (v : option (list Z)) : cmd unit := match v with Some _ => free | None => mret tt end.

(** The text that replaces the message of a staging failure. *)
Definition staging_message (type message source destination : option (list Z)) : list Z :=
  let unknown := codes "UNKNOWN" in
  let file :=
    codes "the job manager could not stage in a file from " ++ default unknown source ++ codes " to " ++
    default unknown destination ++
    match message with Some (c :: m) => if c =? 0 then [] else codes ": " ++ c :: m | _ => [] end in
  match type with
  | Some y =>
      if bool_decide (y = codes "executable") || bool_decide (y = codes "stdin")
      then codes "the job manager could not stage in " ++ y ++ codes " from " ++ default unknown source
      else file
  | None => file
  end.

(** The status, the table, and the error message that is replaced, if any. *)
Definition globus_gram_protocol_unpack_status_update_message_with_extensions (ok : bool) (reply : option (list Z)) (replysize : nat) :
    cmd (status * option attrs * option (Z * list Z)) :=
  match reply with
  | None => mret (NULL_PARAMETER, None, None)
  | Some reply =>
      if negb ok then mret (NULL_PARAMETER, None, None)
      else
        '(rc, t) ← globus_gram_protocol_unpack_message reply replysize;
        match t with
        | None => mret (rc, None, None)
        | Some t =>
            let fail rc := _ ← globus_gram_protocol_hash_destroy t; mret (rc, None, None) in
            let '(rc, version) := globus_l_gram_protocol_get_int_attribute t "protocol-version" in
            if negb (status_eqb rc SUCCESS) then fail rc
            else if negb (version =? GLOBUS_GRAM_PROTOCOL_VERSION) then fail VERSION_MISMATCH
            else match lookup t (codes "job-manager-url"), lookup t (codes "status") with
            | Some _, Some _ =>
                let '(rc, failure_code) := globus_l_gram_protocol_get_int_attribute t "failure-code" in
                if negb (status_eqb rc SUCCESS) then fail rc
                else
                  '(bad, failure_type) ← get_optional t "gt3-failure-type";
                  if (bad : bool) then fail MALLOC_FAILED
                  else
                    '(bad, failure_message) ← get_optional t "gt3-failure-message";
                    if (bad : bool) then _ ← free_optional failure_type; fail MALLOC_FAILED
                    else
                      '(bad, failure_source) ← get_optional t "gt3-failure-source";
                      if (bad : bool) then _ ← free_optional failure_message; _ ← free_optional failure_type; fail MALLOC_FAILED
                      else
                        '(bad, failure_destination) ← get_optional t "gt3-failure-destination";
                        if (bad : bool) then
                          _ ← free_optional failure_source; _ ← free_optional failure_message; _ ← free_optional failure_type;
                          fail MALLOC_FAILED
                        else
                          replaced ←
                            (if is_staging_failure failure_code then
                               ok ← malloc;
                               if (ok : bool) then
                                 _ ← free;
                                 mret (Some (failure_code, staging_message failure_type failure_message failure_source failure_destination))
                               else mret None
                             else mret None);
                          _ ← free_optional failure_destination; _ ← free_optional failure_source;
                          _ ← free_optional failure_message; _ ← free_optional failure_type;
                          mret (SUCCESS, Some t, replaced)
            | _, _ => fail HTTP_UNPACK_FAILED
            end
        end
  end.

(** The status, the contact, the job's state and its failure code. *)
Definition globus_gram_protocol_unpack_status_update_message (ok : bool) (reply : option (list Z)) (replysize : nat) :
    cmd (status * (option (list Z) * Z * Z)) :=
  match reply with
  | None => mret (NULL_PARAMETER, (None, 0, 0))
  | Some reply =>
      if negb ok then mret (NULL_PARAMETER, (None, 0, 0))
      else
        '(rc, t, _) ← globus_gram_protocol_unpack_status_update_message_with_extensions true (Some reply) replysize;
        match t with
        | None => mret (rc, (None, 0, 0))
        | Some t =>
            r ← ('(rc, contact) ← globus_l_gram_protocol_get_string_attribute t "job-manager-url";
                 match contact with
                 | None => mret (rc, (None, 0, 0))
                 | Some c =>
                     let '(rc, st) := globus_l_gram_protocol_get_int_attribute t "status" in
                     if negb (status_eqb rc SUCCESS) then _ ← free; mret (rc, (None, 0, 0))
                     else
                       let '(rc, fc) := globus_l_gram_protocol_get_int_attribute t "failure-code" in
                       if negb (status_eqb rc SUCCESS) then _ ← free; mret (rc, (None, st, 0))
                       else mret (SUCCESS, (Some c, st, fc))
                 end);
            _ ← globus_gram_protocol_hash_destroy t;
            mret r
        end
  end.

(** [text] is what the format prints. *)
Definition globus_gram_protocol_create_extension (attribute text : option (list Z)) : cmd (option extension) :=
  match attribute, text with
  | Some a, Some v =>
      ok ← malloc;
      if negb ok then mret None
      else
        ok ← malloc;
        if negb ok then _ ← free; mret None
        else
          ok ← malloc;
          if negb ok then _ ← free; _ ← free; mret None else mret (Some (Extension (Some a) (Some v)))
  | _, _ => mret None
  end.

Definition globus_gram_protocol_pack_version_request (ok : bool) : cmd (status * option message) :=
  if negb ok then mret (NULL_PARAMETER, None)
  else
    ok ← malloc;
    if negb ok then mret (MALLOC_FAILED, None)
    else let request := codes "command: version" ++ CRLF in mret (SUCCESS, Some (request, strlen request + 1)).

(** ** Lines as text *)

(** [e] is a text that the copying loop turns into [v]. *)
Inductive encodes : list Z -> list Z -> Prop :=
| encodes_nil : encodes [] []
| encodes_char c e v : c <> BACKSLASH -> encodes e v -> encodes (c :: e) (c :: v)
| encodes_escape c e v : encodes e v -> encodes (BACKSLASH :: c :: e) (c :: v).

Definition clean (c : Z) : Prop := c <> 13 /\ c <> 0 /\ c <> BACKSLASH.

(** The text of a value: as it is, or quoted. *)
Inductive value_text : list Z -> list Z -> Prop :=
| plain v : Forall clean v -> char_at v 0 <> QUOTE -> value_text v v
| quoted v : nonzero v -> value_text (globus_l_gram_protocol_quote_string v) v.

Definition name_ok (a : list Z) : Prop := Forall (fun c => c <> COLON /\ c <> 0) a.

(** The text of a message and its attributes, in order. *)
Inductive message_lines : list Z -> attrs -> Prop :=
| lines_nil : message_lines [] []
| lines_cons a x v m t :
    a <> [] -> name_ok a -> value_text x v -> message_lines m t ->
    message_lines (a ++ [COLON; SPACE] ++ x ++ CRLF ++ m) ((a, v) :: t).

Lemma encodes_quote s : encodes (quote_chars s) s.
Proof.
  induction s as [|c s IH]; [constructor|]. cbn [quote_chars].
  destruct (Z.eqb_spec c QUOTE) as [->|]; cbn [orb]; [by constructor|].
  destruct (Z.eqb_spec c BACKSLASH) as [->|]; by constructor.
Qed.

Lemma encodes_clean v : Forall clean v -> encodes v v.
Proof. induction 1 as [|c v (? & ? & ?) Hv IH]; by constructor. Qed.

Lemma value_text_nonzero x v : value_text x v -> nonzero v.
Proof. intros [v' Hv _|v' Hv]; [|done]. eapply Forall_impl; [exact Hv|]. by intros c (? & ? & ?). Qed.

Section text.
  Context (message : list Z) (message_end : nat).

Lemma at_app pre c rest : message = pre ++ c :: rest -> at_ message (length pre) = Ok c.
Proof. intros ->. by apply c_index_app. Qed.

Lemma scan_until_app stop n pre s c rest :
  message = pre ++ s ++ c :: rest -> Forall (fun c => stop c = false) s -> stop c = true ->
  (length pre + length s < message_end)%nat -> (length s < n)%nat ->
  scan_until message message_end n stop (length pre) = Ok (length pre + length s)%nat.
Proof.
  intros E Hs. revert n pre E. induction Hs as [|d s Hd Hs IH]; intros [|n] pre E Hc Hend Hn; cbn [length] in *; try lia.
  - cbn [scan_until]. rewrite (proj2 (Nat.ltb_lt _ _)) by lia. rewrite (at_app pre c rest E). cbn. rewrite Hc. f_equal. lia.
  - cbn [scan_until]. rewrite (proj2 (Nat.ltb_lt _ _)) by lia. rewrite (at_app pre d _ E). cbn. rewrite Hd.
    cbn [app] in E. rewrite (snoc_cons pre d) in E.
    assert (length (pre ++ [d]) = (length pre + 1)%nat) as L by (by rewrite length_app).
    rewrite <- L, (IH n (pre ++ [d]) E Hc); [f_equal; lia|lia|lia].
Qed.

Lemma quoted_until_app n pre s rest :
  message = pre ++ quote_chars s ++ QUOTE :: rest -> nonzero s -> (length (quote_chars s) < n)%nat ->
  quoted_until message n false (length pre) = Ok (length pre + length (quote_chars s))%nat.
Proof.
  intros E Hs. revert n pre E. induction Hs as [|c s Hc Hs IH]; intros [|n] pre E Hn; [cbn in Hn; lia| |cbn in Hn; lia|].
  { cbn [quoted_until]. rewrite (at_app pre QUOTE rest E). cbn. f_equal. lia. }
  apply Z.eqb_neq in Hc. cbn [quote_chars] in *. destruct ((c =? QUOTE) || (c =? BACKSLASH)) eqn:Q.
  - cbn [length app] in *. destruct n as [|n]; [lia|]. cbn [quoted_until]. rewrite (at_app pre _ _ E). cbn.
    rewrite (snoc_cons pre) in E. assert (length (pre ++ [BACKSLASH]) = (length pre + 1)%nat) as L by (by rewrite length_app).
    rewrite <- L, (at_app _ _ _ E). cbn. rewrite Hc. rewrite (snoc_cons (pre ++ _)) in E.
    assert (length ((pre ++ [BACKSLASH]) ++ [c]) = (length (pre ++ [BACKSLASH]) + 1)%nat) as L' by (by rewrite length_app).
    rewrite <- L', (IH n _ E) by lia. f_equal. lia.
  - apply orb_false_elim in Q as [Q1 Q2]. cbn [length app] in *. cbn [quoted_until]. rewrite (at_app pre _ _ E). cbn.
    rewrite Hc, Q1, Q2. rewrite (snoc_cons pre) in E.
    assert (length (pre ++ [c]) = (length pre + 1)%nat) as L by (by rewrite length_app).
    rewrite <- L, (IH n _ E) by lia. f_equal. lia.
Qed.

(** A character that has been passed is one of the prefix. *)
Lemma copy_value_app n start i e v pre rest :
  encodes e v -> message = pre ++ e ++ rest -> length pre = (start + i)%nat -> (length e < n)%nat ->
  copy_value message n start (i + length e) i = Ok v.
Proof.
  intros He. revert n i pre. induction He as [|c e v Hc He IH|c e v He IH]; intros [|n] i pre E L Hn; cbn [length] in *; try lia.
  - cbn [copy_value]. by rewrite (proj2 (Nat.ltb_ge _ _)) by lia.
  - cbn [copy_value app] in *. rewrite (proj2 (Nat.ltb_lt _ _)) by lia. rewrite <- L, (at_app _ _ _ E). cbn.
    apply Z.eqb_neq in Hc. rewrite Hc. cbn. rewrite (snoc_cons pre) in E.
    replace (i + S (length e))%nat with (i + 1 + length e)%nat by lia.
    rewrite (IH n _ _ E); [done|rewrite length_app; cbn; lia|lia].
  - cbn [copy_value app] in *. rewrite (proj2 (Nat.ltb_lt _ _)) by lia. rewrite <- L, (at_app _ _ _ E). cbn.
    rewrite (snoc_cons pre) in E. replace (start + (i + 1))%nat with (length (pre ++ [BACKSLASH])) by (rewrite length_app; cbn; lia).
    rewrite (at_app _ _ _ E). cbn. rewrite (snoc_cons (pre ++ _)) in E.
    replace (i + S (S (length e)))%nat with (i + 2 + length e)%nat by lia.
    rewrite (IH n _ _ E); [done|rewrite !length_app; cbn; lia|lia].
Qed.

Lemma expect_app c pre rest :
  message = pre ++ c :: rest -> (length pre < message_end)%nat -> expect message message_end c (length pre) = Ok (false, length (pre ++ [c])).
Proof.
  intros E H. unfold expect. rewrite (proj2 (Nat.ltb_lt _ _)) by lia. rewrite (at_app _ _ _ E). cbn.
  by rewrite Z.eqb_refl, length_app.
Qed.

Lemma value_extent_text pre x v rest :
  message = pre ++ x ++ 13 :: rest -> value_text x v -> (length pre + length x < message_end)%nat ->
  exists start e, value_extent message message_end (length pre) = Ok (start, e, length (pre ++ x)) /\
    copy_value message (S (e - start)) start (e - start) 0 = Ok v.
Proof.
  intros E Hx Hend. unfold value_extent. rewrite (proj2 (Nat.ltb_lt _ _)) by lia. destruct Hx as [v Hv Hq|v Hv].
  - assert (at_ message (length pre) = Ok (char_at (v ++ 13 :: rest) 0)) as -> by (destruct v; by eapply at_app).
    assert (char_at (v ++ 13 :: rest) 0 =? QUOTE = false) as Q by (apply Z.eqb_neq; by destruct v).
    cbn [mbind result_bind]. rewrite Q. rewrite (scan_until_app _ _ _ _ _ _ E); [|..].
    + cbn [mbind result_bind]. eexists _, _. split; [by rewrite length_app|]. replace (length pre + length v - length pre)%nat with (length v) by lia.
      apply (copy_value_app (S (length v)) (length pre) 0 v v pre (13 :: rest)); [by apply encodes_clean|done|lia|lia].
    + eapply Forall_impl; [exact Hv|]. intros c (? & ? & ?). by apply orb_false_intro; apply Z.eqb_neq.
    + done.
    + done.
    + rewrite E, !length_app. cbn. lia.
  - unfold globus_l_gram_protocol_quote_string in *. cbn [app] in E. rewrite <- app_assoc in E. cbn [app] in E.
    rewrite (at_app pre _ _ E). cbn [mbind result_bind]. change (QUOTE =? QUOTE) with true. cbv iota. rewrite (snoc_cons pre) in E.
    assert (length (pre ++ [QUOTE]) = (length pre + 1)%nat) as L by (by rewrite length_app).
    rewrite <- L, (quoted_until_app _ _ _ _ E Hv) by (rewrite E, !length_app; cbn; lia).
    cbn [mbind result_bind]. eexists _, _. split; [f_equal; f_equal; rewrite !length_app; cbn; rewrite length_app; cbn; lia|].
    replace (length (pre ++ [QUOTE]) + length (quote_chars v) - length (pre ++ [QUOTE]))%nat with (length (quote_chars v)) by lia.
    apply (copy_value_app _ _ 0 _ v (pre ++ [QUOTE]) (QUOTE :: 13 :: rest)); [apply encodes_quote|done|lia|lia].
Qed.

Lemma unpack_line_text pre a x v rest :
  message = pre ++ a ++ [COLON; SPACE] ++ x ++ CRLF ++ rest -> name_ok a -> value_text x v ->
  (length (pre ++ a ++ [COLON; SPACE] ++ x ++ CRLF) <= message_end)%nat ->
  exists start len, unpack_line message message_end (length pre) =
      Ok (Line a start len (length (pre ++ a ++ [COLON; SPACE] ++ x ++ CRLF))) /\
    copy_value message (S len) start len 0 = Ok v.
Proof.
  intros E Ha Hx Hend. rewrite !length_app in Hend. cbn [length CRLF app] in *. unfold unpack_line.
  rewrite (scan_until_app _ _ pre a COLON _ E); [|..|rewrite E, !length_app; cbn; lia]; [|..|lia]; [|eapply Forall_impl; [exact Ha|]|done].
  2:{ intros c [? ?]. by apply orb_false_intro; apply Z.eqb_neq. }
  unfold mbind at 1, result_bind at 1. rewrite (proj2 (Nat.ltb_lt _ _)) by lia.
  assert (take (length pre + length a - length pre) (drop (length pre) message) = a) as ->.
  { rewrite E, drop_app_length, take_app_length' by lia. done. }
  rewrite app_assoc in E. rewrite <- length_app, (at_app _ _ _ E). cbn [mbind result_bind].
  change (negb (COLON =? COLON)) with false. cbv iota zeta. rewrite (snoc_cons (pre ++ a)) in E.
  assert (length ((pre ++ a) ++ [COLON]) = (length (pre ++ a) + 1)%nat) as L by (by rewrite length_app).
  assert (length (pre ++ a) = length pre + length a)%nat as La by (by rewrite length_app).
  rewrite <- L, (proj2 (Nat.ltb_lt _ _)) by lia. rewrite (at_app _ _ _ E). cbn [mbind result_bind].
  change (negb (SPACE =? SPACE)) with false. cbv iota zeta. rewrite (snoc_cons (_ ++ [COLON])) in E.
  assert (length (((pre ++ a) ++ [COLON]) ++ [SPACE]) = (length (pre ++ a) + 2)%nat) as L2 by (rewrite length_app; cbn; lia).
  rewrite <- L2. destruct (value_extent_text _ _ _ _ E Hx) as (start & e & Hve & Hc); [lia|].
  rewrite Hve. cbn [mbind result_bind]. rewrite app_assoc in E.
  rewrite (expect_app _ _ _ E) by (rewrite length_app; lia). cbn [mbind result_bind]. cbv iota.
  rewrite (snoc_cons (_ ++ x)) in E. rewrite (expect_app _ _ _ E) by (rewrite !length_app in *; cbn in *; lia).
  cbn [mbind result_bind]. cbv iota. exists start, (e - start)%nat. split; [|done].
  f_equal. f_equal. rewrite <- !app_assoc. done.
Qed.
End text.

(** ** Tables *)

Lemma lookup_none t a : a ∉ t.*1 -> lookup t a = None.
Proof.
  induction t as [|[b v] t IH]; [done|]. cbn. rewrite not_elem_of_cons. intros [Hne Ht].
  rewrite bool_decide_false by done. by apply IH.
Qed.

Lemma lookup_hit t a v : lookup ((a, v) :: t) a = Some v.
Proof. cbn. by rewrite bool_decide_true. Qed.

Lemma lookup_miss t a b v : a <> b -> lookup ((b, v) :: t) a = lookup t a.
Proof. intros. cbn. by rewrite bool_decide_false. Qed.

(** Look up a name of the protocol in a table of them. *)
Ltac look :=
  repeat first
    [ rewrite lookup_hit | rewrite lookup_miss by (let H := fresh in intros H; vm_compute in H; discriminate H)
    | match goal with |- context [lookup [] ?a] => change (lookup [] a) with (@None (list Z)) end ].

Lemma insert_new t a v : a ∉ t.*1 -> insert t a v = t ++ [(a, v)].
Proof. intros H. unfold insert. by rewrite lookup_none. Qed.

Lemma hash_destroy_gives t : gives (globus_gram_protocol_hash_destroy t) tt (-3 * Z.of_nat (length t)).
Proof.
  induction t as [|x t IH]; [apply gives_ret|]. cbn [globus_gram_protocol_hash_destroy length].
  do 3 gfree. eapply gives_eq; [exact IH|lia].
Qed.

Lemma unpack_loop_lines message message_end n pre m junk t t0 :
  message_lines m t -> message = pre ++ m ++ 0 :: junk -> (length (pre ++ m) < message_end)%nat -> (length t < n)%nat ->
  NoDup (t0 ++ t).*1 ->
  gives (unpack_loop message message_end n (length pre) t0) (SUCCESS, t0 ++ t) (3 * Z.of_nat (length t)).
Proof.
  intros Hm. revert n pre t0. induction Hm as [|a x v m t Hne Ha Hx Hm IH]; intros [|n] pre t0 E Hend Hn Hnd; try (cbn in Hn; lia).
  - cbn [unpack_loop]. rewrite app_nil_r in Hend. rewrite (proj2 (Nat.ltb_lt _ _)) by lia. rewrite (at_app message pre 0 junk E).
    eapply gives_step; [by apply gives_lift|]. cbn. rewrite app_nil_r. apply gives_ret.
  - cbn [unpack_loop]. rewrite !length_app in Hend. rewrite (proj2 (Nat.ltb_lt _ _)) by lia.
    assert (exists c, at_ message (length pre) = Ok c /\ c =? 0 = false) as (c & -> & Hc).
    { destruct a as [|c a]; [done|]. exists c. apply Forall_cons in Ha as [[_ Hc] _]. split; [|by apply Z.eqb_neq]. rewrite <- app_assoc in E. by eapply at_app. }
    eapply gives_step; [by apply gives_lift|]. cbv beta. rewrite Hc. cbn [negb]. cbv iota.
    rewrite <- !app_assoc in E.
    destruct (unpack_line_text message message_end pre a x v (m ++ 0 :: junk)) as (start & len & Hl & Hv); [done..| |].
    { rewrite !length_app in *. lia. }
    eapply gives_step; [by apply gives_lift|]. cbv beta iota. rewrite fmap_app in Hnd. cbn [fmap list_fmap fst] in Hnd.
    do 3 (eapply gives_step; [apply gives_must_malloc|cbv beta]). eapply gives_step; [by apply gives_lift|]. cbv beta.
    rewrite cstring_id by (by eapply value_text_nonzero). rewrite insert_new by (apply NoDup_app in Hnd as (_ & Hd & _); intros Hin; apply (Hd _ Hin); by left).
    eapply gives_eq; [rewrite (snoc_cons t0 _ t); apply (IH n)|].
    + by rewrite <- !app_assoc.
    + rewrite !length_app in *. cbn in *. lia.
    + cbn in Hn. lia.
    + by rewrite <- app_assoc, fmap_app.
    + cbn [length]. lia.
Qed.

Lemma lines_length m t : message_lines m t -> (length t <= length m)%nat.
Proof. induction 1; [done|]. rewrite !length_app. cbn. lia. Qed.

Lemma unpack_message_lines m t junk :
  message_lines m t -> NoDup t.*1 ->
  gives (globus_gram_protocol_unpack_message (m ++ 0 :: junk) (S (length m))) (SUCCESS, Some t) (3 * Z.of_nat (length t)).
Proof.
  intros Hm Hnd. unfold globus_gram_protocol_unpack_message. eapply gives_step.
  - apply (unpack_loop_lines _ _ _ [] m junk t []); [done..|cbn; lia| |done]. pose proof (lines_length _ _ Hm). rewrite length_app. lia.
  - cbv beta iota. gret.
Qed.

(** ** Lines of a message *)

Lemma decimal_text z : value_text (decimal z) (decimal z).
Proof.
  assert (Forall (fun c => c = 45 \/ 48 <= c <= 57) (decimal z)) as H.
  { eapply Forall_impl; [apply decimal_chars|]. intros c [?|Hc]; [by left|right].
    unfold isdigit in Hc. rewrite andb_true_iff, !Z.leb_le in Hc. lia. }
  apply plain.
  - eapply Forall_impl; [exact H|]. unfold clean, BACKSLASH. lia.
  - destruct (decimal z) as [|c l]; [done|]. apply Forall_cons in H as [H _]. unfold char_at, QUOTE. cbn. lia.
Qed.

(** A name of the protocol, checked by computation. *)
Definition name_okb (a : list Z) : bool :=
  negb (bool_decide (a = [])) && forallb (fun c => negb (c =? COLON) && negb (c =? 0)) a.

Lemma name_okb_spec a : name_okb a = true -> a <> [] /\ name_ok a.
Proof.
  unfold name_okb. rewrite andb_true_iff, negb_true_iff, bool_decide_eq_false, forallb_forall. intros [Hne H]. split; [done|].
  apply Forall_forall. intros c Hc%list_elem_of_In%H. rewrite andb_true_iff, !negb_true_iff, !Z.eqb_neq in Hc. done.
Qed.

Lemma lines_value (name full : string) x v m t :
  codes full = codes name ++ [COLON; SPACE] -> name_okb (codes name) = true -> value_text x v -> message_lines m t ->
  message_lines (str_line full x ++ m) ((codes name, v) :: t).
Proof.
  intros Hf [Hne Hn]%name_okb_spec Hx Hm. unfold str_line. rewrite Hf, <- !app_assoc. by apply lines_cons.
Qed.

Lemma lines_int (name full : string) z m t :
  codes full = codes name ++ [COLON; SPACE] -> name_okb (codes name) = true -> message_lines m t ->
  message_lines (int_line full z ++ m) ((codes name, decimal z) :: t).
Proof. intros. change (int_line full z) with (str_line full (decimal z)). apply lines_value; [done..|apply decimal_text|done]. Qed.

Lemma quote_length s : (length (quote_chars s) <= 2 * length s)%nat.
Proof. induction s as [|c s IH]; [done|]. cbn [quote_chars]. destruct ((c =? QUOTE) || (c =? BACKSLASH)); cbn [length]; lia. Qed.

Lemma quote_string_length s : strlen (globus_l_gram_protocol_quote_string s) <= 2 * strlen s + 2.
Proof. unfold strlen, globus_l_gram_protocol_quote_string. pose proof (quote_length s). cbn [length]. rewrite length_app. cbn. lia. Qed.

(** Evaluate the lengths of the texts of the protocol. *)
Ltac const_lengths :=
  repeat match goal with
  | |- context [length (codes ?s)] => let n := eval vm_compute in (length (codes s)) in change (length (codes s)) with n
  | |- context [length CRLF] => change (length CRLF) with 2%nat
  | |- context [length version_line] => change (length version_line) with 21%nat
  | |- context [fmt_length ?s] => let n := eval vm_compute in (fmt_length s) in change (fmt_length s) with n
  end.

Ltac text_lengths :=
  unfold PACK_STATUS_REPLY, PACK_PROTOCOL_VERSION_LINE, PACK_JOB_STATE_MASK_LINE, PACK_CALLBACK_URL_LINE, PACK_STATUS_LINE,
    PACK_FAILURE_CODE_LINE, PACK_JOB_FAILURE_CODE_LINE, PACK_JOB_MANAGER_URL_LINE, PACK_CLIENT_REQUEST_LINE, int_line, str_line, strlen in *;
  rewrite ?length_app; const_lengths; rewrite ?length_app.

(** ** Job requests: the round trip *)

(** The callback URLs a message can carry: the URL is not quoted. *)
Definition callback_ok (u : option (list Z)) : Prop :=
  match u with Some u => u <> [] /\ Forall clean u /\ char_at u 0 <> QUOTE | None => True end.

Definition job_request_text (mask : Z) (url : option (list Z)) (rsl : list Z) : list Z :=
  version_line ++ int_line "job-state-mask: " mask ++ str_line "callback-url: " (default [QUOTE; QUOTE] url) ++
  codes "rsl: " ++ globus_l_gram_protocol_quote_string rsl ++ CRLF.

Lemma callback_text u : callback_ok u -> value_text (default [QUOTE; QUOTE] u) (default [] u).
Proof. destruct u as [u|]; cbn; [intros (_ & ? & ?); by apply plain|intros _; apply (quoted []); constructor]. Qed.

Lemma job_request_lines mask url rsl :
  callback_ok url -> nonzero rsl ->
  message_lines (job_request_text mask url rsl)
    [(codes "protocol-version", decimal 2); (codes "job-state-mask", decimal mask); (codes "callback-url", default [] url);
     (codes "rsl", rsl)].
Proof.
  intros Hu Hr. unfold job_request_text, version_line. apply lines_int; [done..|]. apply lines_int; [done..|].
  apply lines_value; [done|done|by apply callback_text|]. change (codes "rsl: " ++ ?x ++ CRLF) with (str_line "rsl: " x).
  rewrite <- (app_nil_r (str_line _ _)). apply lines_value; [done|done|by apply quoted|constructor].
Qed.

(** The block is large enough for every request. *)
Lemma pack_job_request_gives mask url rsl :
  INT_MIN <= mask <= INT_MAX ->
  gives (globus_gram_protocol_pack_job_request true mask url (Some rsl))
    (SUCCESS, Some (job_request_text mask url rsl, strlen (job_request_text mask url rsl) + 1)) 1.
Proof.
  intros Hm. pose proof (decimal_length mask Hm) as Hd. pose proof (quote_string_length rsl) as Hq.
  unfold globus_gram_protocol_pack_job_request. cbn [negb]. cbv iota zeta. set (cap := _ + 16).
  assert (strlen (job_request_text mask url rsl) + 1 <= cap) as Hcap.
  { subst cap. unfold job_request_text. text_lengths. destruct url; unfold from_option, id; cbn [length]; lia. }
  eapply gives_step; [apply gives_must_malloc|cbv beta]. unfold job_request_text, strlen in Hcap. rewrite !length_app in Hcap.
  do 3 (eapply gives_step; [apply gives_lift, sprintf_at_ok; rewrite !length_app; cbn [length] in *; lia|cbv beta]).
  assert (forall q, q = job_request_text mask url rsl -> forall n, n = strlen q + 1 ->
    gives (mret (SUCCESS, Some (q, n))) (SUCCESS, Some (job_request_text mask url rsl, strlen (job_request_text mask url rsl) + 1)) (1 - 1 - 0 - 0 - 0)) as H
    by (intros ? -> ? ->; apply gives_ret).
  apply H; [unfold job_request_text; by rewrite <- !app_assoc|unfold strlen; rewrite !length_app; const_lengths; lia].
Qed.

Lemma get_int_hit t name z :
  INT_MIN <= z <= INT_MAX -> lookup t (codes name) = Some (decimal z) ->
  globus_l_gram_protocol_get_int_attribute t name = (SUCCESS, z).
Proof. intros Hz Hl. unfold globus_l_gram_protocol_get_int_attribute. by rewrite Hl, atoi_decimal. Qed.

Lemma get_string_hit t name v :
  lookup t (codes name) = Some v -> gives (globus_l_gram_protocol_get_string_attribute t name) (SUCCESS, Some v) 1.
Proof. intros Hl. unfold globus_l_gram_protocol_get_string_attribute. rewrite Hl. gmalloc. gret. Qed.

Lemma version_hit t :
  lookup t (codes "protocol-version") = Some (decimal 2) ->
  globus_l_gram_protocol_get_int_attribute t "protocol-version" = (SUCCESS, GLOBUS_GRAM_PROTOCOL_VERSION).
Proof. intros. by apply get_int_hit. Qed.

Lemma names_NoDup (t : attrs) : bool_decide (NoDup t.*1) = true -> NoDup t.*1.
Proof. apply bool_decide_eq_true_1. Qed.

Lemma unpack_job_request_gives mask url rsl junk :
  INT_MIN <= mask <= INT_MAX -> callback_ok url -> nonzero rsl ->
  let m := job_request_text mask url rsl in
  gives (globus_gram_protocol_unpack_job_request true (Some (m ++ 0 :: junk)) (S (length m)))
    (SUCCESS, (mask, url, Some rsl)) (match url with Some _ => 2 | None => 1 end).
Proof.
  intros Hm Hu Hr m. unfold globus_gram_protocol_unpack_job_request. cbn [negb]. cbv iota.
  eapply gives_step; [apply unpack_message_lines; [by apply job_request_lines|]|].
  { apply names_NoDup. vm_compute. reflexivity. }
  cbv beta iota. eapply (gives_step _ _ (SUCCESS, (mask, url, Some rsl)) _ (match url with Some _ => 2 | None => 1 end)).
  - rewrite version_hit by (by look). cbn [negb status_eqb]. cbv iota. change (negb (_ =? _)) with false at 1. cbv iota.
    rewrite (get_int_hit _ _ mask) by (try done; by look). cbn [negb status_eqb]. cbv iota.
    eapply gives_step; [apply get_string_hit; by look|]. cbv beta iota. destruct url as [[|c u]|].
    + by destruct Hu.
    + destruct Hu as (_ & Hu & _). apply Forall_cons in Hu as [(_ & Hc & _) _]. apply Z.eqb_neq in Hc.
      change (char_at (default [] (Some (c :: u))) 0) with c. rewrite Hc. eapply gives_step; [apply gives_ret|]. cbv beta.
      eapply gives_step; [apply get_string_hit; by look|]. cbv beta iota. gret.
    + change (char_at (default [] None) 0 =? 0) with true. cbv iota. eapply (gives_step _ _ None _ (-1)); [gfree; gret|]. cbv beta.
      eapply gives_step; [apply get_string_hit; by look|]. cbv beta iota. gret.
  - cbv beta. eapply gives_step; [apply hash_destroy_gives|]. cbv beta. cbn [length]. gret.
Qed.

(** A job request that is packed and unpacked is the same job request: for every
    [int] mask, every description and every callback URL that needs no quotes, or
    none, packing fits its block, the size it reports counts the NUL, and unpacking
    that many bytes gives back the three values; no block of the attribute table
    stays allocated. *)
Theorem job_request_roundtrip mask url rsl :
  INT_MIN <= mask <= INT_MAX -> callback_ok url -> nonzero rsl ->
  exists m,
    gives (globus_gram_protocol_pack_job_request true mask url (Some rsl)) (SUCCESS, Some (m, strlen m + 1)) 1 /\
    gives (globus_gram_protocol_unpack_job_request true (Some (m ++ [0])) (S (length m)))
      (SUCCESS, (mask, url, Some rsl)) (match url with Some _ => 2 | None => 1 end).
Proof.
  intros Hm Hu Hr. eexists. split; [by apply pack_job_request_gives|by apply unpack_job_request_gives].
Qed.

Lemma job_request_roundtrip_witness :
  exists m,
    gives (globus_gram_protocol_pack_job_request true (-2147483648) (Some (codes "https://h:2811/1")) (Some (codes "&(executable=a)")))
      (SUCCESS, Some (m, strlen m + 1)) 1 /\
    gives (globus_gram_protocol_unpack_job_request true (Some (m ++ [0])) (S (length m)))
      (SUCCESS, (-2147483648, Some (codes "https://h:2811/1"), Some (codes "&(executable=a)"))) 2.
Proof.
  apply (job_request_roundtrip (-2147483648) (Some (codes "https://h:2811/1")) (codes "&(executable=a)")).
  - split; vm_compute; discriminate.
  - vm_compute. split_and!; [discriminate|repeat constructor; discriminate|discriminate].
  - vm_compute. repeat constructor; discriminate.
Defined.

(** ** Extensions: what they need and what they get *)

(** The bytes written for an extension. *)
Definition extension_text (a v : list Z) : list Z := a ++ codes ": " ++ globus_l_gram_protocol_quote_string v ++ CRLF.

Definition extensions_text (t : attrs) : list Z := concat ((fun '(a, v) => extension_text a v) <$> t).

Definition extension_list (t : attrs) : list extension := (fun '(a, v) => Extension (Some a) (Some v)) <$> t.

Definition reserved (t : attrs) : Z := foldr (fun '(a, v) n => strlen a + 2 * strlen v + 4 + n) 0 t.

Lemma extensions_length_list t : extensions_length (extension_list t) = Some (reserved t).
Proof. induction t as [|[a v] t IH]; [done|]. cbn. unfold extension_list in IH. by rewrite IH. Qed.

Lemma write_extensions_ok cap buf t :
  strlen (buf ++ extensions_text t) + 1 <= cap ->
  write_extensions cap buf (extension_list t) = Ok (buf ++ extensions_text t).
Proof.
  revert buf. induction t as [|[a v] t IH]; intros buf H; [by rewrite app_nil_r|].
  unfold strlen, extensions_text, extension_text in *. cbn [fmap list_fmap concat extension_list write_extensions attribute value deref mbind result_bind] in *.
  rewrite !length_app in H. rewrite sprintf_at_ok by (rewrite !length_app; lia). cbn [mbind result_bind].
  rewrite sprintf_at_ok by (rewrite !length_app; lia). cbn [mbind result_bind].
  rewrite sprintf_at_ok by (rewrite !length_app; lia). cbn [mbind result_bind].
  unfold extension_list in IH. rewrite IH; [by rewrite <- !app_assoc|rewrite !length_app; lia].
Qed.

Lemma write_extensions_full cap buf t :
  t <> [] -> cap < strlen (buf ++ extensions_text t) + 1 ->
  write_extensions cap buf (extension_list t) = Fault OutOfBounds.
Proof.
  intros Hne. revert buf. induction t as [|[a v] t IH]; intros buf H; [done|].
  unfold strlen, extensions_text, extension_text in *. cbn [fmap list_fmap concat extension_list write_extensions attribute value deref mbind result_bind] in *.
  rewrite !length_app in H.
  destruct (Z.le_gt_cases (Z.of_nat (length (buf ++ a ++ codes ": ")) + 1) cap) as [F|F]; [|by rewrite sprintf_at_full].
  rewrite sprintf_at_ok by done. cbn [mbind result_bind]. set (b1 := buf ++ _) in *.
  destruct (Z.le_gt_cases (Z.of_nat (length (b1 ++ globus_l_gram_protocol_quote_string v)) + 1) cap) as [F1|F1]; [|by rewrite sprintf_at_full].
  rewrite sprintf_at_ok by done. cbn [mbind result_bind]. set (b2 := b1 ++ _) in *.
  destruct (Z.le_gt_cases (Z.of_nat (length (b2 ++ CRLF)) + 1) cap) as [F2|F2]; [|by rewrite sprintf_at_full].
  rewrite sprintf_at_ok by done. cbn [mbind result_bind]. destruct t as [|x t].
  - exfalso. subst b2 b1. rewrite !length_app in F2. cbn [fmap list_fmap concat length] in H. lia.
  - apply IH; [done|]. subst b2 b1. rewrite !length_app. cbn [fmap list_fmap concat] in *. rewrite ?length_app in *. lia.
Qed.

(** What is written for extensions beyond what is reserved for them: quotes and
    escapes on the one hand, a second byte for each character on the other. *)
Definition excess (t : attrs) : Z := foldr (fun '(_, v) n => strlen (quote_chars v) + 2 - 2 * strlen v + n) 0 t.

Lemma extensions_text_length t : strlen (extensions_text t) = reserved t + excess t.
Proof.
  induction t as [|[a v] t IH]; [done|]. unfold extensions_text in *. cbn [fmap list_fmap concat reserved excess foldr].
  fold (reserved t) (excess t). unfold extension_text, globus_l_gram_protocol_quote_string, strlen in *. rewrite !length_app.
  cbn [length]. rewrite length_app. const_lengths. cbn [length]. lia.
Qed.

Definition update_text (contact : list Z) (st fc : Z) (t : attrs) : list Z := status_update_lines contact st fc ++ extensions_text t.

Lemma pack_update_ok contact st fc t :
  excess t <= 0 ->
  gives (globus_gram_protocol_pack_status_update_message_with_extensions true (Some contact) st fc (Some (extension_list t)))
    (SUCCESS, Some (update_text contact st fc t, strlen (update_text contact st fc t) + 1)) 1.
Proof.
  intros Ht. unfold globus_gram_protocol_pack_status_update_message_with_extensions. cbn [negb]. cbv iota.
  rewrite extensions_length_list. gmalloc. gmalloc. gfree.
  eapply gives_step; [apply gives_lift, write_extensions_ok|cbv beta; gret].
  pose proof (extensions_text_length t). unfold strlen in *. rewrite length_app. lia.
Qed.

Lemma pack_update_full contact st fc t s :
  t <> [] -> 0 < excess t -> ample s ->
  globus_gram_protocol_pack_status_update_message_with_extensions true (Some contact) st fc (Some (extension_list t)) s = Fault OutOfBounds.
Proof.
  intros Hne Ht Hs. unfold globus_gram_protocol_pack_status_update_message_with_extensions. cbn [negb]. cbv iota.
  rewrite extensions_length_list. unfold mbind, cmd_bind. destruct (gives_malloc s Hs) as (s1 & -> & Hs1 & _). cbn [negb]. cbv iota zeta.
  destruct (gives_malloc s1 Hs1) as (s2 & -> & Hs2 & _). cbn [negb]. cbv iota. unfold free, lift.
  rewrite write_extensions_full; [done|done|]. pose proof (extensions_text_length t). unfold strlen in *. rewrite length_app. lia.
Qed.

(** C24: The block for a status update with extensions is large enough exactly when
    the quotes and escapes of the values do not outnumber their characters; with
    any other extensions, such as one whose value is empty, the bytes after the
    block are overwritten. *)
Theorem update_extensions_fit contact st fc t :
  t <> [] ->
  if excess t <=? 0
  then gives (globus_gram_protocol_pack_status_update_message_with_extensions true (Some contact) st fc (Some (extension_list t)))
         (SUCCESS, Some (update_text contact st fc t, strlen (update_text contact st fc t) + 1)) 1
  else forall s, ample s ->
         globus_gram_protocol_pack_status_update_message_with_extensions true (Some contact) st fc (Some (extension_list t)) s
         = Fault OutOfBounds.
Proof.
  intros Hne. destruct (Z.leb_spec (excess t) 0); [by apply pack_update_ok|]. intros s. by apply pack_update_full.
Qed.

Lemma update_extensions_fit_witness :
  (excess [(codes "version", codes "5.0")] = -1 /\ excess [(codes "seg", codes "")] = 2) /\
  gives (globus_gram_protocol_pack_status_update_message_with_extensions true (Some (codes "https://h/1")) 8 0
           (Some (extension_list [(codes "version", codes "5.0")])))
    (SUCCESS, Some (update_text (codes "https://h/1") 8 0 [(codes "version", codes "5.0")], 96)) 1 /\
  (forall s, ample s ->
     globus_gram_protocol_pack_status_update_message_with_extensions true (Some (codes "https://h/1")) 8 0
       (Some (extension_list [(codes "seg", codes "")])) s = Fault OutOfBounds).
Proof.
  split; [split; reflexivity|]. split.
  - apply (update_extensions_fit (codes "https://h/1") 8 0 [(codes "version", codes "5.0")]). discriminate.
  - apply (update_extensions_fit (codes "https://h/1") 8 0 [(codes "seg", codes "")]). discriminate.
Defined.

(** ** Status updates with extensions: the round trip *)

Definition extension_ok (e : list Z * list Z) : Prop := e.1 <> [] /\ name_ok e.1 /\ nonzero e.2.

Definition contact_ok (c : list Z) : Prop := Forall clean c /\ char_at c 0 <> QUOTE.

Lemma extensions_lines t : Forall extension_ok t -> message_lines (extensions_text t) t.
Proof.
  induction 1 as [|[a v] t (Hne & Ha & Hv) Ht IH]; [constructor|]. unfold extensions_text in *. cbn [fmap list_fmap concat].
  unfold extension_text. rewrite <- !app_assoc. change (codes ": ") with [COLON; SPACE]. apply lines_cons; [done|done|by apply quoted|done].
Qed.

Definition update_attrs (contact : list Z) (st fc : Z) (t : attrs) : attrs :=
  [(codes "protocol-version", decimal 2); (codes "job-manager-url", contact); (codes "status", decimal st);
   (codes "failure-code", decimal fc)] ++ t.

Lemma update_lines contact st fc t :
  contact_ok contact -> Forall extension_ok t -> message_lines (update_text contact st fc t) (update_attrs contact st fc t).
Proof.
  intros [Hc Hq] Ht. unfold update_text, status_update_lines, version_line, update_attrs. rewrite <- !app_assoc. cbn [app].
  apply lines_int; [done..|]. apply lines_value; [done|done|by apply plain|]. do 2 (apply lines_int; [done..|]).
  by apply extensions_lines.
Qed.

Lemma get_optional_gives t name :
  gives (get_optional t name) (false, lookup t (codes name)) (match lookup t (codes name) with Some _ => 1 | None => 0 end).
Proof.
  unfold get_optional, globus_l_gram_protocol_get_string_attribute. destruct (lookup t (codes name)) as [v|].
  - eapply (gives_step _ _ (SUCCESS, Some v) _ 1); [gmalloc; gret|cbv beta iota; gret].
  - eapply gives_step; [apply gives_ret|cbv beta iota; gret].
Qed.

Lemma free_optional_gives v : gives (free_optional v) tt (match v with Some _ => -1 | None => 0 end).
Proof. destruct v; [apply gives_free|apply gives_ret]. Qed.

(** The error message an update replaces. *)
Definition replaced_message (fc : Z) (t : attrs) : option (Z * list Z) :=
  if is_staging_failure fc
  then Some (fc, staging_message (lookup t (codes "gt3-failure-type")) (lookup t (codes "gt3-failure-message"))
                   (lookup t (codes "gt3-failure-source")) (lookup t (codes "gt3-failure-destination")))
  else None.

Lemma unpack_update_gives contact st fc t :
  INT_MIN <= fc <= INT_MAX -> contact_ok contact -> Forall extension_ok t -> NoDup (update_attrs contact st fc t).*1 ->
  let m := update_text contact st fc t in
  gives (globus_gram_protocol_unpack_status_update_message_with_extensions true (Some (m ++ [0])) (S (length m)))
    (SUCCESS, Some (update_attrs contact st fc t), replaced_message fc t) (3 * (4 + Z.of_nat (length t))).
Proof.
  intros Hfc Hc Ht Hnd m. unfold globus_gram_protocol_unpack_status_update_message_with_extensions. cbn [negb]. cbv iota.
  eapply gives_step; [apply unpack_message_lines; [by apply update_lines|done]|]. cbv beta iota zeta.
  rewrite version_hit by (unfold update_attrs; cbn [app]; by look). cbn [negb status_eqb]. cbv iota.
  change (negb (GLOBUS_GRAM_PROTOCOL_VERSION =? GLOBUS_GRAM_PROTOCOL_VERSION)) with false. cbv iota.
  assert (lookup (update_attrs contact st fc t) (codes "job-manager-url") = Some contact) as -> by (unfold update_attrs; cbn [app]; by look).
  assert (lookup (update_attrs contact st fc t) (codes "status") = Some (decimal st)) as -> by (unfold update_attrs; cbn [app]; by look).
  rewrite (get_int_hit _ _ fc) by (try done; unfold update_attrs; cbn [app]; by look). cbn [negb status_eqb]. cbv iota.
  do 4 (eapply gives_step; [apply get_optional_gives|]; cbv beta iota).
  eapply (gives_step _ _ (replaced_message fc (update_attrs contact st fc t)) _ 0).
  { unfold replaced_message. destruct (is_staging_failure fc); [gmalloc; gfree; gret|apply gives_ret]. }
  cbv beta. do 4 (eapply gives_step; [apply free_optional_gives|]; cbv beta).
  assert (replaced_message fc (update_attrs contact st fc t) = replaced_message fc t) as ->
    by (unfold replaced_message, update_attrs; cbn [app]; by look).
  eapply gives_eq; [apply gives_ret|]. replace (length (update_attrs contact st fc t)) with (4 + length t)%nat by done.
  repeat match goal with |- context [match ?x with Some _ => 1 | None => 0 end] => destruct x end; lia.
Qed.

(** C23: A status update with extensions that is packed and unpacked gives a table
    with the version, the contact, the state and the failure code, and then the
    extensions in order; the message of a staging failure is replaced by one that
    the extensions describe. *)
Theorem update_extensions_roundtrip contact st fc t :
  INT_MIN <= fc <= INT_MAX -> contact_ok contact -> Forall extension_ok t -> NoDup (update_attrs contact st fc t).*1 -> excess t <= 0 ->
  exists m,
    gives (globus_gram_protocol_pack_status_update_message_with_extensions true (Some contact) st fc (Some (extension_list t)))
      (SUCCESS, Some (m, strlen m + 1)) 1 /\
    gives (globus_gram_protocol_unpack_status_update_message_with_extensions true (Some (m ++ [0])) (S (length m)))
      (SUCCESS, Some (update_attrs contact st fc t), replaced_message fc t) (3 * (4 + Z.of_nat (length t))).
Proof. intros. eexists. split; [by apply pack_update_ok|by apply unpack_update_gives]. Qed.

Lemma update_extensions_roundtrip_witness :
  exists m,
    gives (globus_gram_protocol_pack_status_update_message_with_extensions true (Some (codes "https://h/1")) 4 135
             (Some (extension_list [(codes "gt3-failure-type", codes "stdin"); (codes "gt3-failure-source", codes "gsiftp://h/x")])))
      (SUCCESS, Some (m, strlen m + 1)) 1 /\
    gives (globus_gram_protocol_unpack_status_update_message_with_extensions true (Some (m ++ [0])) (S (length m)))
      (SUCCESS,
       Some (update_attrs (codes "https://h/1") 4 135
               [(codes "gt3-failure-type", codes "stdin"); (codes "gt3-failure-source", codes "gsiftp://h/x")]),
       Some (135, codes "the job manager could not stage in stdin from gsiftp://h/x")) 18.
Proof.
  apply (update_extensions_roundtrip (codes "https://h/1") 4 135
           [(codes "gt3-failure-type", codes "stdin"); (codes "gt3-failure-source", codes "gsiftp://h/x")]).
  - split; vm_compute; discriminate.
  - split; [|vm_compute; discriminate]. vm_compute. repeat constructor; discriminate.
  - vm_compute. repeat constructor; discriminate.
  - apply names_NoDup. vm_compute. reflexivity.
  - vm_compute. discriminate.
Defined.

(** ** Unpacking what comes from the network

    A message of any bytes, the last of which is NUL. *)
Section safe.
  Context (message : list Z) (k : nat) (Hk : message !! k = Some 0).
  Local Abbreviation message_end := (S k).









End safe.






(** ** Status requests and their replies: the round trips *)

Lemma c_string_app m : nonzero m -> c_string (m ++ [0]) = Ok m.
Proof.
  intros Hm. unfold c_string. rewrite existsb_app. cbn. rewrite orb_true_r. by rewrite cstring_app.
Qed.

Lemma nonzero_app a b : nonzero a -> nonzero b -> nonzero (a ++ b).
Proof. intros. by apply Forall_app. Qed.

Lemma quote_nonzero s : nonzero s -> nonzero (globus_l_gram_protocol_quote_string s).
Proof.
  intros Hs. constructor; [done|]. apply nonzero_app; [|by repeat constructor]. induction Hs as [|c s Hc Hs IH]; [constructor|].
  cbn [quote_chars]. destruct ((c =? QUOTE) || (c =? BACKSLASH)); by repeat constructor.
Qed.

Lemma text_nonzero x : value_text x x -> nonzero x.
Proof. apply value_text_nonzero. Qed.

Lemma nonzero_check s : forallb (fun c => negb (c =? 0)) s = true -> nonzero s.
Proof. rewrite forallb_forall. intros H. apply Forall_forall. intros c Hc%list_elem_of_In%H. by rewrite negb_true_iff, Z.eqb_neq in Hc. Qed.

Lemma int_line_nonzero name z : forallb (fun c => negb (c =? 0)) (codes name) = true -> nonzero (int_line name z).
Proof. intros. repeat apply nonzero_app; [by apply nonzero_check|apply text_nonzero, decimal_text|by repeat constructor]. Qed.

Lemma unquote_loop_app n inbuf insize pre s rest out :
  inbuf = pre ++ quote_chars s ++ QUOTE :: rest -> nonzero s -> (length (quote_chars s) < n)%nat ->
  Z.of_nat (length (pre ++ quote_chars s)) < insize ->
  unquote_loop n inbuf insize (Z.of_nat (length pre)) true out = Ok (SUCCESS, out ++ s).
Proof.
  intros E Hs. revert n pre out E. induction Hs as [|c s Hc Hs IH]; intros [|n] pre out E Hn Hi; try (cbn in Hn; lia); rewrite length_app in Hi.
  - cbn [unquote_loop]. cbn [quote_chars length app] in *. zdecide. rewrite E, (c_index_app pre QUOTE rest _ eq_refl). cbn. by rewrite app_nil_r.
  - cbn [quote_chars unquote_loop] in *. apply Z.eqb_neq in Hc. rewrite (snoc_cons out c s). destruct ((c =? QUOTE) || (c =? BACKSLASH)) eqn:Q; cbn [length app] in *.
    + zdecide. rewrite E, (c_index_app pre _ _ _ eq_refl). cbn [mbind result_bind]. change (BACKSLASH =? 0) with false. change (BACKSLASH =? QUOTE) with false.
      change (BACKSLASH =? BACKSLASH) with true. cbv iota. rewrite (snoc_cons pre) in E |- *.
      rewrite c_index_app by (rewrite length_app; cbn; lia). cbn [mbind result_bind]. rewrite (snoc_cons (pre ++ _)) in E |- *. rewrite <- E.
      replace (Z.of_nat (length pre) + 2) with (Z.of_nat (length ((pre ++ [BACKSLASH]) ++ [c]))) by (rewrite !length_app; cbn; lia).
      destruct n as [|n]; [lia|]. apply (IH (S n)); [done|lia|rewrite !length_app in *; cbn in *; lia].
    + zdecide. apply orb_false_elim in Q as [Q1 Q2]. rewrite E, (c_index_app pre _ _ _ eq_refl). cbn [mbind result_bind]. rewrite Hc, Q1, Q2.
      rewrite (snoc_cons pre) in E |- *. rewrite <- E.
      replace (Z.of_nat (length pre) + 1) with (Z.of_nat (length (pre ++ [c]))) by (rewrite !length_app; cbn; lia).
      apply IH; [done|lia|rewrite !length_app in *; cbn in *; lia].
Qed.

Lemma unquote_quote s rest insize :
  nonzero s -> strlen (globus_l_gram_protocol_quote_string s) <= insize ->
  globus_l_gram_protocol_unquote_string (globus_l_gram_protocol_quote_string s ++ rest) insize insize = Ok (SUCCESS, s).
Proof.
  intros Hs Hi. unfold globus_l_gram_protocol_unquote_string. cbn [c_index]. unfold globus_l_gram_protocol_quote_string in *.
  change (c_index ((QUOTE :: _) ++ rest) 0) with (Ok QUOTE). cbn [mbind result_bind]. change (QUOTE =? QUOTE) with true. cbv iota zeta.
  unfold strlen in Hi. cbn [length] in Hi. rewrite length_app in Hi. cbn [length] in Hi.
  change 1 with (Z.of_nat (length [QUOTE])). rewrite (unquote_loop_app _ _ _ [QUOTE] s rest []); [|cbn; by rewrite <- app_assoc|done|cbn; rewrite !length_app; lia|cbn [app length]; lia].
  cbn [mbind result_bind app]. assert (length s <= length (quote_chars s))%nat.
  { clear. induction s as [|c s IH]; [done|]. cbn [quote_chars]. destruct ((c =? QUOTE) || (c =? BACKSLASH)); cbn [length]; lia. }
  rewrite sprintf_at_ok by (cbn [app]; lia). cbn [mbind result_bind app]. by rewrite cstring_id.
Qed.

Definition status_request_text (r : list Z) : list Z := version_line ++ globus_l_gram_protocol_quote_string r ++ CRLF.

Lemma scan_version rest : (sscanf (scan_line "protocol-version:") (version_line ++ rest)).1 = [AInt 2].
Proof.
  unfold scan_line. change (version_line ++ rest) with (codes "protocol-version:" ++ [32] ++ decimal 2 ++ CRLF ++ rest).
  rewrite sscanf_lit, sscanf_space, sscanf_int; [done|done|done|by repeat constructor|done].
Qed.

(** A status request, of any characters, fits its block when it is packed and
    is given back when it is unpacked. *)
Theorem status_request_roundtrip r :
  nonzero r -> strlen r < 2 ^ 62 ->
  exists m,
    gives (globus_gram_protocol_pack_status_request r) (SUCCESS, Some (m, strlen m + 1)) 1 /\
    gives (globus_gram_protocol_unpack_status_request true (Some (m ++ [0])) (strlen m + 1)) (SUCCESS, Some r) 1.
Proof.
  intros Hr Hl. pose proof (quote_string_length r) as Hq. exists (status_request_text r). split.
  - unfold globus_gram_protocol_pack_status_request. gmalloc. text_lengths.
    do 3 (eapply gives_step; [apply gives_lift, sprintf_at_ok; rewrite ?length_app; const_lengths; cbn [length]; lia|cbv beta]).
    rewrite <- !app_assoc. gret.
  - unfold globus_gram_protocol_unpack_status_request. cbn [negb]. cbv iota.
    eapply gives_step; [apply gives_lift, c_string_app|cbv beta].
    { unfold status_request_text. apply nonzero_app; [by apply int_line_nonzero|]. apply nonzero_app; [by apply quote_nonzero|by repeat constructor]. }
    change (strstr_crlf (status_request_text r)) with (Some 19%nat). cbv iota zeta. gmalloc. unfold status_request_text at 1. rewrite scan_version.
    change (negb (2 =? GLOBUS_GRAM_PROTOCOL_VERSION)) with false. cbv iota.
    change (drop (19 + 2) (status_request_text r ++ [0])) with ((globus_l_gram_protocol_quote_string r ++ CRLF) ++ [0]). rewrite <- app_assoc.
    assert (strlen (status_request_text r) + 1 - Z.of_nat (19 + 2) = strlen (globus_l_gram_protocol_quote_string r) + 3) as ->
      by (unfold status_request_text; text_lengths; lia).
    unfold uwrap. rewrite Z.mod_small by (unfold strlen in *; lia).
    eapply gives_step; [apply gives_lift, unquote_quote; [done|lia]|cbv beta iota]. gret.
Qed.

Lemma status_request_roundtrip_witness :
  exists m,
    gives (globus_gram_protocol_pack_status_request (codes "renew")) (SUCCESS, Some (m, strlen m + 1)) 1 /\
    gives (globus_gram_protocol_unpack_status_request true (Some (m ++ [0])) (strlen m + 1)) (SUCCESS, Some (codes "renew")) 1.
Proof. apply (status_request_roundtrip (codes "renew")); [vm_compute; repeat constructor; discriminate|reflexivity]. Defined.

Lemma status_reply_length a b c :
  strlen (status_reply_lines a b c) = 67 + strlen (decimal a) + strlen (decimal b) + strlen (decimal c).
Proof. unfold status_reply_lines. text_lengths. lia. Qed.

Lemma scan_line_int name full z f rest :
  codes full = codes name ++ [SPACE] -> INT_MIN <= z <= INT_MAX -> isspace (char_at rest 0) = false ->
  (sscanf (scan_line name ++ f) (int_line full z ++ rest)).1 = AInt z :: (sscanf f rest).1.
Proof.
  intros Hf Hz Hr. unfold scan_line, int_line. rewrite Hf, <- !app_assoc. cbn [app]. rewrite sscanf_lit.
  change (SPACE :: decimal z ++ CRLF ++ rest) with ([SPACE] ++ decimal z ++ CRLF ++ rest).
  rewrite (sscanf_space _ [SPACE]); [|by repeat constructor|apply decimal_head_app]. rewrite sscanf_int; [|done|done].
  cbn [fst]. by rewrite (sscanf_space _ CRLF) by (done || by repeat constructor).
Qed.

(** The reply to a status request fits its block exactly when its three numbers
    take at most ten characters, and is then read back; longer numbers are written
    past the block. *)
Theorem status_reply_fit a b c :
  INT_MIN <= a <= INT_MAX -> INT_MIN <= b <= INT_MAX -> INT_MIN <= c <= INT_MAX ->
  if strlen (decimal a) + strlen (decimal b) + strlen (decimal c) <=? 10
  then exists m,
    gives (globus_gram_protocol_pack_status_reply a b c) (SUCCESS, Some (m, strlen m + 1)) 1 /\
    globus_gram_protocol_unpack_status_reply (Some (m ++ [0])) (Some (0, 0, 0)) = Ok (SUCCESS, Some (a, b, c))
  else forall s, ample s -> globus_gram_protocol_pack_status_reply a b c s = Fault OutOfBounds.
Proof.
  intros Ha Hb Hc. pose proof (status_reply_length a b c) as L. destruct (Z.leb_spec (strlen (decimal a) + strlen (decimal b) + strlen (decimal c)) 10) as [H|H].
  - exists (status_reply_lines a b c). split.
    + unfold globus_gram_protocol_pack_status_reply. gmalloc.
      eapply gives_step; [apply gives_lift, sprintf_at_ok|cbv beta; gret]. cbn [app]. unfold strlen in *. change PACK_STATUS_REPLY with 78. lia.
    + unfold globus_gram_protocol_unpack_status_reply. cbn [deref mbind result_bind]. rewrite c_string_app.
      2:{ unfold status_reply_lines. apply nonzero_app; [by apply int_line_nonzero|]. apply nonzero_app; [by apply int_line_nonzero|].
          apply nonzero_app; by apply int_line_nonzero. }
      cbn [mbind result_bind]. cbv zeta. unfold status_reply_lines, version_line.
      rewrite scan_line_int, scan_line_int, scan_line_int by done. rewrite <- (app_nil_r (scan_line "job-failure-code:")), <- (app_nil_r (int_line "job-failure-code: " c)).
      rewrite scan_line_int by done. done.
  - intros s Hs. unfold globus_gram_protocol_pack_status_reply, mbind, cmd_bind. destruct (gives_malloc s Hs) as (s1 & -> & _). cbn [negb]. cbv iota.
    unfold lift. rewrite sprintf_at_full; [done|]. cbn [app]. unfold strlen in *. change PACK_STATUS_REPLY with 78. lia.
Qed.

Lemma status_reply_fit_witness :
  (exists m,
    gives (globus_gram_protocol_pack_status_reply 4 135 (-1)) (SUCCESS, Some (m, strlen m + 1)) 1 /\
    globus_gram_protocol_unpack_status_reply (Some (m ++ [0])) (Some (0, 0, 0)) = Ok (SUCCESS, Some (4, 135, -1))) /\
  (forall s, ample s -> globus_gram_protocol_pack_status_reply 4 0 (-2147483648) s = Fault OutOfBounds).
Proof.
  assert (forall z, INT_MIN <=? z = true -> z <=? INT_MAX = true -> INT_MIN <= z <= INT_MAX) as R by (intros; lia).
  split.
  - pose proof (status_reply_fit 4 135 (-1) (R 4 eq_refl eq_refl) (R 135 eq_refl eq_refl) (R (-1) eq_refl eq_refl)) as H.
    change (strlen (decimal 4) + strlen (decimal 135) + strlen (decimal (-1)) <=? 10) with true in H. exact H.
  - pose proof (status_reply_fit 4 0 (-2147483648) (R 4 eq_refl eq_refl) (R 0 eq_refl eq_refl) (R (-2147483648) eq_refl eq_refl)) as H.
    change (strlen (decimal 4) + strlen (decimal 0) + strlen (decimal (-2147483648)) <=? 10) with false in H. exact H.
Defined.

(** ** Replies to job requests: the round trip *)

Definition reply_attrs (st : Z) (contact : option (list Z)) : attrs :=
  [(codes "protocol-version", decimal 2); (codes "status", decimal st)] ++
  match contact with Some c => [(codes "job-manager-url", c)] | None => [] end.

Lemma reply_message_lines st contact :
  (match contact with Some c => contact_ok c | None => True end) -> message_lines (reply_lines st contact) (reply_attrs st contact).
Proof.
  intros Hc. unfold reply_lines, reply_attrs, version_line. cbn [app]. do 2 (apply lines_int; [done..|]).
  destruct contact as [c|]; [|constructor]. destruct Hc. rewrite <- (app_nil_r (str_line _ _)). apply lines_value; [done|done|by apply plain|constructor].
Qed.

Lemma job_reply_roundtrip st contact :
  INT_MIN <= st <= INT_MAX -> (match contact with Some c => contact_ok c /\ strlen (decimal st) <= 7 | None => True end) ->
  exists m,
    gives (globus_gram_protocol_pack_job_request_reply st contact) (SUCCESS, Some (m, strlen m + 1)) 1 /\
    gives (globus_gram_protocol_unpack_job_request_reply true (Some (m ++ [0])) (S (length m)))
      (SUCCESS, (st, contact)) (match contact with Some _ => 1 | None => 0 end).
Proof.
  intros Hst Hc. pose proof (decimal_length st Hst) as Hd. exists (reply_lines st contact). split.
  - unfold globus_gram_protocol_pack_job_request_reply. gmalloc.
    eapply gives_step; [apply gives_lift, sprintf_at_ok|cbv beta; gret]. cbn [app]. unfold reply_lines. text_lengths.
    destruct contact; text_lengths; cbn [length]; lia.
  - unfold globus_gram_protocol_unpack_job_request_reply. cbn [negb]. cbv iota.
    eapply gives_step; [apply unpack_message_lines; [apply reply_message_lines; by destruct contact as [|]; [destruct Hc|]|]|cbv beta iota].
    { apply names_NoDup. by destruct contact. }
    eapply (gives_step _ _ (SUCCESS, (st, contact)) _ (match contact with Some _ => 1 | None => 0 end)).
    + unfold reply_attrs. cbn [app]. rewrite version_hit by (by look). cbn [negb status_eqb]. cbv iota.
      change (negb (GLOBUS_GRAM_PROTOCOL_VERSION =? GLOBUS_GRAM_PROTOCOL_VERSION)) with false. cbv iota.
      rewrite (get_int_hit _ _ st) by (try done; by look). cbn [negb status_eqb]. cbv iota. destruct contact as [c|].
      * eapply gives_step; [apply get_string_hit; by look|cbv beta iota; gret].
      * eapply (gives_step _ _ (HTTP_UNPACK_FAILED, None) _ 0); [|cbv beta iota; gret].
        unfold globus_l_gram_protocol_get_string_attribute. look. apply gives_ret.
    + cbv beta. eapply gives_step; [apply hash_destroy_gives|cbv beta]. destruct contact; cbn; gret.
Qed.
End GramPack.
