(* ===== verification/GramFrame.v ===== *)
(** * Framing of GRAM messages
      (gram/protocol/source/globus_gram_protocol_frame.c, and the parsers and read
      callbacks of globus_gram_protocol_io.c)

    A message travels in an HTTP request or reply. The sender prints the headers
    and the message into one block; the receiver's callback runs once for each
    portion of bytes that arrives, looks for the end of the headers, and hands the
    message to the user when it has all of it. Registering a read is a call of
    Globus I/O, whose success is an argument. The texts that replace the message of
    error 10 are not modelled. *)
From S2P Require Import Prelude.
From S2P Require Import Chars.
From S2P Require Import Stdio.
From S2P Require Import Url.
From S2P Require Import GramPack.
Local Open Scope Z_scope.

Module GramFrame.
Import GramPack.

Inductive frame_status :=
| FRAMED | INVALID_JOB_CONTACT | PROTOCOL_FAILED | HTTP_UNFRAME_FAILED | AUTHORIZATION | SERVICE_NOT_FOUND | GATEKEEPER_MISCONFIGURED.

Definition frame_status_eqb (a b : frame_status) : bool :=
  match a, b with
  | FRAMED, FRAMED | INVALID_JOB_CONTACT, INVALID_JOB_CONTACT | PROTOCOL_FAILED, PROTOCOL_FAILED
  | HTTP_UNFRAME_FAILED, HTTP_UNFRAME_FAILED | AUTHORIZATION, AUTHORIZATION | SERVICE_NOT_FOUND, SERVICE_NOT_FOUND
  | GATEKEEPER_MISCONFIGURED, GATEKEEPER_MISCONFIGURED => true
  | _, _ => false
  end.

(** ** Header lines *)

Definition request_line (path : list Z) : list Z := codes "POST " ++ path ++ codes " HTTP/1.1" ++ CRLF.
Definition host_line (host : list Z) : list Z := codes "Host: " ++ host ++ CRLF.
Definition content_type_line : list Z := codes "Content-Type: application/x-globus-gram" ++ CRLF.
Definition content_length_line (n : Z) : list Z := codes "Content-Length: " ++ decimal n ++ CRLF.
Definition connection_line : list Z := codes "Connection: Close" ++ CRLF.

(** [%3d] *)
Definition decimal3 (n : Z) : list Z := replicate (3 - length (decimal n)) 32 ++ decimal n.
Definition reply_line (code : Z) (reason : list Z) : list Z := codes "HTTP/1.1 " ++ decimal3 code ++ [32] ++ reason ++ CRLF.

(** The lengths of the formats. *)
Definition REQUEST_LINE : Z := fmt_length "POST %s HTTP/1.1".
Definition HOST_LINE : Z := fmt_length "Host: %s".
Definition CONTENT_TYPE_LINE : Z := fmt_length "Content-Type: application/x-globus-gram".
Definition CONTENT_LENGTH_LINE : Z := fmt_length "Content-Length: %ld".
Definition REPLY_LINE : Z := fmt_length "HTTP/1.1 %3d %s".
Definition CONNECTION_LINE : Z := fmt_length "Connection: Close".

(** [do { tmp /= 10; digits++; } while (tmp > 0)]; a [size_t] has at most 20 digits. *)
Fixpoint digits_loop (n : nat) (tmp digits : Z) : result Z :=
  match n with
  | O => Fault OutOfFuel
  | S n =>
      let tmp := tmp / 10 in
      let digits := digits + 1 in
      if tmp >? 0 then digits_loop n tmp digits else Ok digits
  end.

Definition count_digits (msgsize : Z) : result Z := digits_loop 20 msgsize 0.

(** [memcpy] of the message after [buf] in a block of [cap] bytes. *)
Definition memcpy_at (cap : Z) (buf msg : list Z) : result (list Z) :=
  if strlen buf + strlen msg <=? cap then Ok (buf ++ msg) else Fault OutOfBounds.

(** The status and the framed message; [msg] is the [msgsize] bytes. *)
Definition globus_gram_protocol_frame_request (url : option (list Z)) (msg : list Z) : cmd (frame_status * option (list Z)) :=
  '(rc, parsed) ← Url.globus_url_parse false url;
  if negb (rc =? GLOBUS_SUCCESS) then mret (INVALID_JOB_CONTACT, None)
  else
    parsed ← lift (deref parsed);
    match Url.url_path parsed with
    | None => _ ← Url.globus_url_destroy (Some parsed); mret (INVALID_JOB_CONTACT, None)
    | Some path =>
        let msgsize := strlen msg in
        digits ← lift (count_digits msgsize);
        host ← lift (deref (Url.host parsed));
        let framedlen := REQUEST_LINE + strlen path + HOST_LINE + strlen host + CONTENT_TYPE_LINE + CONTENT_LENGTH_LINE +
                         digits + 2 + msgsize in
        let cap := framedlen + 1 in
        _ ← must_malloc;
        buf ← lift (sprintf_at cap [] (request_line path));
        buf ← lift (sprintf_at cap buf (host_line host));
        buf ← lift (sprintf_at cap buf content_type_line);
        buf ← lift (sprintf_at cap buf (content_length_line msgsize));
        buf ← lift (sprintf_at cap buf CRLF);
        buf ← lift (if msgsize >? 0 then memcpy_at cap buf msg else Ok buf);
        _ ← Url.globus_url_destroy (Some parsed);
        mret (FRAMED, Some buf)
    end.

(** The reasons of RFC 2616. *)
Definition reasons : list (Z * string) :=
  [(100, "Continue"%string); (101, "Switching Protocols"%string); (200, "OK"%string); (201, "Created"%string);
   (202, "Accepted"%string); (203, "Non-Authoritative Information"%string); (204, "No Content"%string);
   (205, "Reset Content"%string); (206, "Partial Content"%string); (300, "Multiple Choices"%string);
   (301, "Moved Permanently"%string); (302, "Found"%string); (303, "See Other"%string); (304, "Not Modified"%string);
   (305, "Use Proxy"%string); (307, "Temporary Redirect"%string); (400, "Bad Request"%string); (401, "Unauthorized"%string);
   (402, "Payment Required"%string); (403, "Forbidden"%string); (404, "Not Found"%string); (405, "Method Not Allowed"%string);
   (406, "Not Acceptable"%string); (407, "Proxy Authentication Required"%string); (408, "Request Time-out"%string);
   (409, "Conflict"%string); (410, "Gone"%string); (411, "Length Required"%string); (412, "Precondition Failed"%string);
   (413, "Request Entity Too Large"%string); (414, "Request-URI Too Large"%string); (415, "Unsupported Media Type"%string);
   (416, "Requested range not satisfiable"%string); (417, "Expectation Failed"%string); (500, "Internal Server Error"%string);
   (501, "Not Implemented"%string); (502, "Bad Gateway"%string); (503, "Service Unavailable"%string);
   (504, "Gateway Time-out"%string); (505, "HTTP Version not supported"%string)].

Definition globus_l_gram_protocol_lookup_reason (code : Z) : list Z :=
  codes match List.find (fun '(c, _) => c =? code) reasons with
  | Some (_, reason) => reason
  | None =>
      if (code <? 100) || (600 <=? code) then "Internal Server Error"
      else if code <? 200 then "Continue"
      else if code <? 300 then "OK"
      else if code <? 400 then "Multiple Choices"
      else if code <? 500 then "Bad Request"
      else "Internal Server Error"
  end.

Definition globus_gram_protocol_frame_reply (code : Z) (msg : list Z) : cmd (frame_status * option (list Z)) :=
  let reason := globus_l_gram_protocol_lookup_reason code in
  let msgsize := strlen msg in
  if msgsize =? 0 then
    let cap := REPLY_LINE + strlen reason + CONNECTION_LINE + 1 in
    _ ← must_malloc;
    buf ← lift (sprintf_at cap [] (reply_line code reason));
    buf ← lift (sprintf_at cap buf connection_line);
    buf ← lift (sprintf_at cap buf CRLF);
    mret (FRAMED, Some buf)
  else
    digits ← lift (count_digits msgsize);
    let cap := REPLY_LINE + strlen reason + CONTENT_TYPE_LINE + CONTENT_LENGTH_LINE + digits + 2 + msgsize in
    _ ← must_malloc;
    buf ← lift (sprintf_at cap [] (reply_line code reason));
    buf ← lift (sprintf_at cap buf content_type_line);
    buf ← lift (sprintf_at cap buf (content_length_line msgsize));
    buf ← lift (sprintf_at cap buf CRLF);
    buf ← lift (memcpy_at cap buf msg);
    mret (FRAMED, Some buf).

(** ** Parsing the headers *)

(** A string that [sscanf] stores in a block of [cap] bytes, if there is one. *)
Definition store (ok : bool) (cap : Z) (a : option arg) : result unit :=
  match a with
  | Some (AStr s) => if ok then _ ← sprintf_at cap [] s; Ok tt else Fault NullDeref
  | _ => Ok tt
  end.

Definition free_if (ok : bool) : cmd unit := if ok then free else mret tt.

Definition content_directives : list directive :=
  [Lit (codes "Content-Type:"); Space; Lit (codes "application/x-globus-gram"); Space; Lit (codes "Content-Length:"); Space; Dec 0 64; Space].

Definition request_directives : list directive :=
  [Lit (codes "POST"); Space; Str; Space; Lit (codes "HTTP/1.1"); Space; Lit (codes "Host:"); Space; Str; Space] ++ content_directives.

(** The status, the payload's length and the URI. *)
Definition globus_l_gram_protocol_parse_request_header (s : list Z) : cmd (frame_status * Z * option (list Z)) :=
  tmp_uri ← malloc;
  host ← malloc;
  let args := (sscanf request_directives s).1 in
  _ ← lift (store tmp_uri (strlen s) (args !! 0%nat));
  _ ← lift (store host (strlen s) (args !! 1%nat));
  r ← (match args with
       | [AStr uri; AStr _; AInt tmp] => ok ← malloc; mret (FRAMED, uwrap 64 tmp, if (ok : bool) then Some uri else None)
       | _ => mret (PROTOCOL_FAILED, 0, None)
       end);
  _ ← free_if tmp_uri; _ ← free_if host;
  mret r.

Definition reply_directives : list directive :=
  [Lit (codes "HTTP/1.1"); Space; Dec 3 32; Space; NotIn CRLF; Space].

(** The status and the payload's length. *)
Definition globus_l_gram_protocol_parse_reply_header (s : list Z) : cmd (frame_status * Z) :=
  reason ← malloc;
  let '(args, rest) := sscanf reply_directives s in
  _ ← lift (store reason (strlen s) (args !! 1%nat));
  let r :=
    match args, rest with
    | [AInt code; AStr _], Some rest =>
        if code =? 200 then
          match (sscanf content_directives rest).1 with
          | [AInt tmp] => (FRAMED, uwrap 64 tmp)
          | _ => (HTTP_UNFRAME_FAILED, 0)
          end
        else if code =? 400 then (PROTOCOL_FAILED, 0)
        else if code =? 403 then (AUTHORIZATION, 0)
        else if code =? 404 then (SERVICE_NOT_FOUND, 0)
        else if code =? 500 then (GATEKEEPER_MISCONFIGURED, 0)
        else (HTTP_UNFRAME_FAILED, 0)
    | _, _ => (HTTP_UNFRAME_FAILED, 0)
    end in
  _ ← free_if reason;
  mret r.

(** ** Reading a request *)

Definition GLOBUS_GRAM_PROTOCOL_MAX_MSG_SIZE : Z := 64000.

(** The fields of a connection that reading uses; [buf] is all of its block. *)
Record connection := Connection {
  got_header : bool;
  buf : list Z;
  n_read : Z;
  payload_length : Z;
  uri : option (list Z);
}.

Inductive io_result := IoOk | IoEof | IoError.

(** What a callback does last: read on, hand the buffer to the user, or close. *)
Inductive request_step :=
| Reread (c : connection)
| Deliver (buf : list Z) (payload_length : Z) (uri : option (list Z))
| Closed.

(** [strstr(s, CRLF CRLF)] *)
Fixpoint find_header_end (s : list Z) : option nat :=
  match s with
  | [] => None
  | _ :: r => if bool_decide (take 4 s = CRLF ++ CRLF) then Some O else S <$> find_header_end r
  end.

(** [memmove(buf, buf + from, n)] *)
Definition memmove (buf : list Z) (from n : nat) : list Z := take n (drop from buf) ++ drop n buf.

(** The end of the read callbacks, where the payload follows the headers: the buffer
    and [n_read]. *)
Definition shift_payload (buf : list Z) (n_read : Z) (header_length : nat) : result (list Z * Z) :=
  let n := n_read - Z.of_nat header_length - 4 in
  let buf := memmove buf (header_length + 4) (Z.to_nat n) in
  buf ← c_update buf n 0;
  Ok (buf, n).

Definition delegation_packet (c : connection) : result bool :=
  if n_read c =? 0 then b ← c_index (buf c) (n_read c); Ok ((b =? 48) || (b =? 68)) else Ok false.

Definition globus_l_gram_protocol_read_request_callback (registers : bool) (result : io_result) (nbytes : Z) (c : connection) :
    cmd request_step :=
  let reregister c := mret (if registers then Reread c else Closed) in
  let with_header c :=
    if n_read c <? payload_length c then reregister c else mret (Deliver (buf c) (payload_length c) (uri c)) in
  if match result with IoOk => false | IoEof => negb (got_header c) | IoError => true end then mret Closed
  else if got_header c then with_header c
  else
    packet ← lift (delegation_packet c);
    if (packet : bool) then reregister c
    else
      let n := n_read c + nbytes in
      b ← lift (c_update (buf c) n 0);
      s ← lift (c_string b);
      match find_header_end s with
      | None => reregister (Connection false b n (payload_length c) (uri c))
      | Some header_length =>
          '(rc, len, u) ← globus_l_gram_protocol_parse_request_header s;
          if negb (frame_status_eqb rc FRAMED) then mret Closed
          else
            '(b, n) ← lift (shift_payload b n header_length);
            with_header (Connection true b n len u)
      end.

(** ** Reading a reply *)

Inductive reply_step :=
| ReadOn (c : connection)
| Reply (buf : list Z) (payload_length : Z) (rc : frame_status)
| Delegate (c : connection).

Definition globus_l_gram_protocol_read_reply_callback (registers keep_open : bool) (result : io_result) (nbytes : Z) (c : connection) :
    cmd reply_step :=
  let exit rc c :=
    mret (if frame_status_eqb rc FRAMED && keep_open then Delegate (Connection false (buf c) 0 (payload_length c) (uri c))
          else Reply (buf c) (payload_length c) rc) in
  let read_on c :=
    if got_header c && (payload_length c <=? n_read c) then exit FRAMED c
    else
      _ ← lift (c_assert (negb (got_header c) || (n_read c <? payload_length c)));
      if (registers : bool) then mret (ReadOn c) else exit FRAMED c in
  if match result with IoOk => false | IoEof => negb (got_header c) | IoError => true end then exit PROTOCOL_FAILED c
  else if got_header c then read_on c
  else
    packet ← lift (delegation_packet c);
    if (packet : bool) then exit PROTOCOL_FAILED c
    else
      let n := n_read c + nbytes in
      b ← lift (c_update (buf c) n 0);
      s ← lift (c_string b);
      match find_header_end s with
      | None => read_on (Connection false b n (payload_length c) (uri c))
      | Some header_length =>
          '(rc, len) ← globus_l_gram_protocol_parse_reply_header s;
          if negb (frame_status_eqb rc FRAMED) then exit rc (Connection true b n len (uri c))
          else
            '(b, n) ← lift (shift_payload b n header_length);
            read_on (Connection true b n len (uri c))
      end.

(** ** Bytes that arrive *)

(** Globus I/O writes [bytes] at [buf + n_read], and the callback runs. *)
Definition arrive (c : connection) (bytes : list Z) : connection :=
  Connection (got_header c) (take (Z.to_nat (n_read c)) (buf c) ++ bytes ++ drop (Z.to_nat (n_read c) + length bytes) (buf c))
    (n_read c) (payload_length c) (uri c).

Fixpoint read_request (c : connection) (chunks : list (list Z)) : cmd request_step :=
  match chunks with
  | [] => mret (Reread c)
  | bytes :: chunks =>
      st ← globus_l_gram_protocol_read_request_callback true IoOk (strlen bytes) (arrive c bytes);
      match st with Reread c => read_request c chunks | _ => mret st end
  end.

Definition new_connection (block : list Z) : connection := Connection false block 0 0 None.

(** ** Framing *)

Lemma digits_loop_length n k d :
  0 <= k < 10 ^ Z.of_nat n -> (0 < n)%nat -> digits_loop n k d = Ok (d + Z.of_nat (length (digits_rev n k))).
Proof.
  revert k d. induction n as [|n IH]; intros k d Hk Hn; [lia|]. cbn [digits_loop digits_rev length].
  rewrite Nat2Z.inj_succ, Z.pow_succ_r in Hk by lia. destruct (Z.eqb_spec (k / 10) 0) as [E|E].
  - rewrite E. done.
  - assert (k / 10 >? 0 = true) as -> by (rewrite Z.gtb_ltb; apply Z.ltb_lt; Z.to_euclidean_division_equations; lia).
    destruct n as [|n]; [exfalso; apply E, Z.div_small; cbn in Hk; lia|].
    rewrite IH by (Z.to_euclidean_division_equations; lia). f_equal. lia.
Qed.

Lemma count_digits_decimal k : 0 <= k <= INT64_MAX -> count_digits k = Ok (strlen (decimal k)).
Proof.
  unfold INT64_MAX. intros Hk. unfold count_digits. rewrite digits_loop_length; [|change (10 ^ Z.of_nat 20) with 100000000000000000000; lia|lia].
  unfold decimal, strlen. rewrite (proj2 (Z.ltb_ge k 0)) by lia. by rewrite length_rev.
Qed.

(** The headers of a request, with the empty line that ends them. *)
Definition request_header (path host : list Z) (n : Z) : list Z :=
  request_line path ++ host_line host ++ content_type_line ++ content_length_line n ++ CRLF.

Ltac frame_lengths :=
  unfold REQUEST_LINE, HOST_LINE, CONTENT_TYPE_LINE, CONTENT_LENGTH_LINE, REPLY_LINE, CONNECTION_LINE, request_line, host_line,
    content_type_line, content_length_line, connection_line, reply_line, strlen in *;
  rewrite ?length_app; const_lengths; rewrite ?length_app; cbn [length].

Lemma memcpy_at_ok cap b m : strlen b + strlen m <= cap -> memcpy_at cap b m = Ok (b ++ m).
Proof. intros H. unfold memcpy_at. by rewrite (proj2 (Z.leb_le _ _)). Qed.

(** A URL of a job contact, as it is printed. *)
Definition contact_url (enc host : list Z) (port : option (list Z)) (path : list Z) : list Z :=
  Url.scheme_name Url.GLOBUS_URL_SCHEME_HTTPS ++ codes "://" ++ Url.print_user enc None ++ host ++ Url.print_port port ++ Url.encode_chars enc path.

Lemma frame_request_gives enc host port path msg :
  Url.host_ok host port -> Url.path_ok enc path -> path <> [] -> strlen msg <= INT64_MAX ->
  gives (globus_gram_protocol_frame_request (Some (contact_url enc host port path)) msg)
    (FRAMED, Some (request_header path host (strlen msg) ++ msg)) 1.
Proof.
  intros Hh Hp Hne Hmsg. unfold globus_gram_protocol_frame_request.
  eapply gives_step; [apply (Url.parse_gives enc Url.GLOBUS_URL_SCHEME_HTTPS None host port path); [set_solver|done| |done|done]|].
  { by intros ? ? [=]. }
  cbv beta iota zeta. change (negb (GLOBUS_SUCCESS =? GLOBUS_SUCCESS)) with false. cbv iota.
  eapply gives_step; [by apply gives_lift|cbv beta]. cbn [Url.url_path Url.printed_url Url.host deref]. rewrite decide_False by done. cbv iota zeta.
  eapply gives_step; [apply gives_lift, count_digits_decimal; unfold strlen in *; lia|cbv beta].
  eapply gives_step; [by apply gives_lift|cbv beta]. eapply gives_step; [apply gives_must_malloc|cbv beta].
  do 5 (eapply gives_step; [apply gives_lift, sprintf_at_ok; clear; frame_lengths; lia|cbv beta]).
  eapply (gives_step _ _ (request_header path host (strlen msg) ++ msg) _ 0).
  { apply gives_lift. unfold request_header. rewrite <- !app_assoc. destruct (Z.gtb_spec (strlen msg) 0) as [H|H].
    - rewrite memcpy_at_ok by (clear; frame_lengths; lia). by rewrite <- !app_assoc.
    - destruct msg as [|? ?]; [by rewrite !app_nil_r|unfold strlen in H; cbn in H; lia]. }
  cbv beta. eapply gives_step; [apply Url.destroy_gives|cbv beta]. gret.
Qed.

(** ** The end of the headers *)

Definition no_cr (s : list Z) : Prop := Forall (fun c => c <> 13) s.

Lemma find_skip c r : c <> 13 -> find_header_end (c :: r) = S <$> find_header_end r.
Proof. intros Hc. cbn [find_header_end]. rewrite bool_decide_false; [done|]. by intros [= ? ?]. Qed.

Lemma find_line l r :
  no_cr l -> char_at r 0 <> 13 -> find_header_end (l ++ CRLF ++ r) = Nat.add (length l + 2) <$> find_header_end r.
Proof.
  intros Hl Hr. induction Hl as [|c l Hc Hl IH].
  - cbn [app CRLF]. cbn [find_header_end]. rewrite !bool_decide_false.
    + by destruct (find_header_end r).
    + by destruct r.
    + destruct r as [|c r]; [done|]. intros [= -> _]. by apply Hr.
  - cbn [app length]. rewrite find_skip, IH by done. by destruct (find_header_end r).
Qed.

Lemma find_last l r : no_cr l -> find_header_end (l ++ CRLF ++ CRLF ++ r) = Some (length l).
Proof.
  induction 1 as [|c l Hc Hl IH]; [done|]. cbn [app length]. by rewrite find_skip, IH.
Qed.

Lemma find_short p : (length p < 4)%nat -> find_header_end p = None.
Proof.
  induction p as [|c p IH]; intros H; [done|]. cbn [find_header_end]. rewrite IH by (cbn in H; lia).
  rewrite bool_decide_false; [done|]. intros E%(f_equal length). rewrite length_take in E.
  change (length (CRLF ++ CRLF)) with 4%nat in E. lia.
Qed.

(** No end is found before all of it is there. *)
Lemma find_prefix p r k : find_header_end (p ++ r) = Some k -> (length p < k + 4)%nat -> find_header_end p = None.
Proof.
  revert k. induction p as [|c p IH]; intros k H Hk; [done|]. cbn [app find_header_end] in *. case_bool_decide as D.
  - injection H as <-. by apply (find_short (c :: p)).
  - destruct (find_header_end (p ++ r)) as [j|] eqn:F; [|done]. injection H as <-.
    rewrite (IH j) by (try done; cbn in Hk; lia). rewrite bool_decide_false; [done|]. intros E. apply D.
    assert (3 <= length p)%nat by (apply (f_equal length) in E; rewrite length_take in E; change (length (CRLF ++ CRLF)) with 4%nat in E; cbn [length] in E; lia).
    rewrite <- E. change (c :: p ++ r) with ((c :: p) ++ r). apply take_app_le. cbn [length]. lia.
Qed.

Definition word (s : list Z) : Prop := s <> [] /\ Forall (fun c => isspace c = false /\ c <> 0) s.

Lemma word_no_cr s : word s -> no_cr s.
Proof. intros [_ H]. eapply Forall_impl; [exact H|]. by intros c [? _] ->. Qed.

Lemma word_space s : word s -> Forall (fun c => isspace c = false) s.
Proof. intros [_ H]. eapply Forall_impl; [exact H|]. by intros c [? _]. Qed.

Lemma word_nonzero s : word s -> nonzero s.
Proof. intros [_ H]. eapply Forall_impl; [exact H|]. by intros c [_ ?]. Qed.

Definition no_crb (s : list Z) : bool := forallb (fun c => negb (c =? 13)) s.
Lemma no_cr_check s : no_crb s = true -> no_cr s.
Proof. unfold no_crb. rewrite forallb_forall. intros H. apply Forall_forall. intros c Hc%list_elem_of_In%H. by rewrite negb_true_iff, Z.eqb_neq in Hc. Qed.

Lemma decimal_no_cr n : no_cr (decimal n).
Proof. eapply Forall_impl; [apply decimal_chars|]. intros c [->|H]; [done|]. intros ->. by vm_compute in H. Qed.

Lemma no_cr_app a b : no_cr a -> no_cr b -> no_cr (a ++ b).
Proof. intros. by apply Forall_app. Qed.

Lemma find_request_header path host n r :
  word path -> word host ->
  find_header_end (request_header path host n ++ r) = Some (length (request_header path host n) - 4)%nat.
Proof.
  intros Hp Hh. unfold request_header, request_line, host_line, content_type_line, content_length_line.
  rewrite <- !app_assoc. rewrite (app_assoc (codes "POST ")), (app_assoc (_ ++ path)).
  rewrite find_line; [|apply no_cr_app; [apply no_cr_app|]; [by apply no_cr_check|by apply word_no_cr|by apply no_cr_check]|done].
  rewrite (app_assoc (codes "Host: ")). rewrite find_line; [|apply no_cr_app; [by apply no_cr_check|by apply word_no_cr]|done].
  rewrite find_line; [|by apply no_cr_check|done]. rewrite (app_assoc (codes "Content-Length: ")).
  rewrite find_last by (apply no_cr_app; [by apply no_cr_check|apply decimal_no_cr]).
  cbn [fmap option_fmap option_map]. f_equal. rewrite !length_app. const_lengths. lia.
Qed.

(** ** Parsing the headers of a request *)

Lemma scan_content f n r :
  INT64_MIN <= n <= INT64_MAX -> (sscanf (content_directives ++ f) (content_type_line ++ content_length_line n ++ r)).1 =
    AInt n :: (sscanf f (skip_space (CRLF ++ r))).1.
Proof.
  intros Hn. unfold content_directives, content_type_line, content_length_line. rewrite <- !app_assoc. cbn [app].
  change (codes "Content-Type: application/x-globus-gram") with (codes "Content-Type:" ++ [32] ++ codes "application/x-globus-gram").
  change (codes "Content-Length: ") with (codes "Content-Length:" ++ [32]). rewrite <- !app_assoc.
  rewrite sscanf_lit, sscanf_space by (done || by repeat constructor).
  rewrite sscanf_lit, sscanf_space by (done || by repeat constructor).
  rewrite sscanf_lit, sscanf_space; [|by repeat constructor|apply decimal_head_app].
  by rewrite sscanf_long.
Qed.

Lemma word_head s r : word s -> isspace (char_at (s ++ r) 0) = false.
Proof. intros [Hne H]. destruct s as [|c s]; [done|]. apply Forall_cons in H as [[Hc _] _]. done. Qed.

Lemma scan_request path host n r :
  word path -> word host -> INT64_MIN <= n <= INT64_MAX ->
  (sscanf request_directives (request_header path host n ++ r)).1 = [AStr path; AStr host; AInt n].
Proof.
  intros Hp Hh Hn. unfold request_directives, request_header, request_line, host_line. rewrite <- !app_assoc. cbn [app].
  change (codes "POST ") with (codes "POST" ++ [32]). change (codes " HTTP/1.1") with ([32] ++ codes "HTTP/1.1").
  change (codes "Host: ") with (codes "Host:" ++ [32]). rewrite <- !app_assoc.
  rewrite sscanf_lit, sscanf_space; [|by repeat constructor|by apply word_head].
  rewrite sscanf_str; [|by destruct Hp|by apply word_space|by right]. cbn [fst].
  rewrite sscanf_space by (done || by repeat constructor). rewrite sscanf_lit, sscanf_space by (done || by repeat constructor).
  rewrite sscanf_lit, sscanf_space; [|by repeat constructor|by apply word_head].
  rewrite sscanf_str; [|by destruct Hh|by apply word_space|by right]. cbn [fst].
  rewrite sscanf_space by (done || by repeat constructor). rewrite <- (app_nil_r content_directives). by rewrite scan_content.
Qed.

Lemma parse_request_gives path host n r :
  word path -> word host -> 0 <= n <= INT64_MAX ->
  gives (globus_l_gram_protocol_parse_request_header (request_header path host n ++ r)) (FRAMED, n, Some path) 1.
Proof.
  intros Hp Hh Hn. unfold globus_l_gram_protocol_parse_request_header. gmalloc. gmalloc.
  rewrite scan_request by (done || unfold INT64_MIN; lia). change ([AStr path; AStr host; AInt n] !! 0%nat) with (Some (AStr path)). change ([AStr path; AStr host; AInt n] !! 1%nat) with (Some (AStr host)).
  do 2 (eapply gives_step; [apply gives_lift; cbn [store]; rewrite sprintf_at_ok; [done|unfold request_header; frame_lengths; lia]|cbv beta]).
  eapply (gives_step _ _ (FRAMED, n, Some path) _ 1).
  { gmalloc. unfold uwrap. rewrite Z.mod_small by (unfold INT64_MAX in *; lia). gret. }
  cbv beta. gfree. gfree. gret.
Qed.

(** ** Reading a request *)

Lemma header_nonzero path host n : word path -> word host -> nonzero (request_header path host n).
Proof.
  intros Hp%word_nonzero Hh%word_nonzero. unfold request_header, request_line, host_line, content_type_line, content_length_line.
  repeat match goal with |- nonzero (_ ++ _) => apply nonzero_app end; try done; try (apply nonzero_check; reflexivity).
  apply text_nonzero, decimal_text.
Qed.

Lemma c_string_prefix a r t : nonzero a -> c_string (a ++ r ++ 0 :: t) = Ok (a ++ cstring (r ++ 0 :: t)).
Proof.
  intros Ha. unfold c_string. rewrite !existsb_app. cbn [existsb]. change (0 =? 0) with true. rewrite !orb_true_r. f_equal.
  induction Ha as [|c a Hc Ha IH]; [done|]. cbn [app cstring]. apply Z.eqb_neq in Hc. by rewrite Hc, IH.
Qed.

(** The bytes [p] have been read, and no header has been seen. *)
Definition reading (c : connection) (p tail : list Z) : Prop := c = Connection false (p ++ tail) (strlen p) 0 None.

Lemma arrive_reading c p tail bytes :
  reading c p tail -> (length bytes <= length tail)%nat ->
  arrive c bytes = Connection false ((p ++ bytes) ++ drop (length bytes) tail) (strlen p) 0 None.
Proof.
  intros -> Hb. unfold arrive, strlen. cbn [n_read buf got_header payload_length uri]. rewrite Nat2Z.id, take_app_length.
  f_equal. rewrite <- app_assoc. do 2 f_equal. by rewrite drop_app_add.
Qed.

(** What arrives starts like a request. *)
Lemma not_delegation p bytes t :
  bytes <> [] -> char_at (p ++ bytes) 0 = 80 ->
  delegation_packet (Connection false ((p ++ bytes) ++ t) (strlen p) 0 None) = Ok false.
Proof.
  intros Hne H. unfold delegation_packet, strlen. cbn [n_read buf]. destruct (Z.eqb_spec (Z.of_nat (length p)) 0) as [E|]; [|done].
  destruct p as [|]; [|cbn in E; lia]. destruct bytes as [|b bytes]; [done|]. cbn in H. subst b. done.
Qed.

Lemma update_end q c t : c_update (q ++ c :: t) (strlen q) 0 = Ok (q ++ 0 :: t).
Proof. by apply c_update_app. Qed.

Lemma callback_partial p bytes c t :
  bytes <> [] -> nonzero (p ++ bytes) -> find_header_end (p ++ bytes) = None -> char_at (p ++ bytes) 0 = 80 ->
  gives (globus_l_gram_protocol_read_request_callback true IoOk (strlen bytes)
           (Connection false ((p ++ bytes) ++ c :: t) (strlen p) 0 None))
    (Reread (Connection false ((p ++ bytes) ++ 0 :: t) (strlen (p ++ bytes)) 0 None)) 0.
Proof.
  intros Hne Hnz Hf H0. unfold globus_l_gram_protocol_read_request_callback. cbn [got_header n_read buf payload_length uri]. cbv iota zeta.
  eapply gives_step; [apply gives_lift; by apply not_delegation|cbv beta iota].
  replace (strlen p + strlen bytes) with (strlen (p ++ bytes)) by (unfold strlen; rewrite length_app; lia).
  eapply gives_step; [apply gives_lift, update_end|cbv beta]. eapply gives_step; [apply gives_lift, (c_string_prefix _ [])|cbv beta]; [done|].
  change (cstring ([] ++ 0 :: t)) with (@nil Z). rewrite app_nil_r, Hf. cbv iota. gret.
Qed.

Lemma shift_payload_ok h m t :
  (4 <= length h)%nat ->
  shift_payload (h ++ m ++ 0 :: t) (strlen (h ++ m)) (length h - 4) = Ok (<[length m := 0]> (memmove (h ++ m ++ 0 :: t) (length h) (length m)), strlen m).
Proof.
  intros Hh. unfold shift_payload. assert (strlen (h ++ m) - Z.of_nat (length h - 4) - 4 = strlen m) as -> by (unfold strlen; rewrite length_app; lia).
  replace (length h - 4 + 4)%nat with (length h) by lia. cbv zeta. unfold strlen. rewrite Nat2Z.id.
  rewrite c_update_ok; [by rewrite Nat2Z.id|]. unfold memmove. rewrite length_app, length_take, !length_drop, !length_app. cbn [length]. lia.
Qed.

Lemma memmove_take h m t : take (length m) (<[length m := 0]> (memmove (h ++ m ++ 0 :: t) (length h) (length m))) = m.
Proof.
  unfold memmove. rewrite take_insert_ge by lia. rewrite drop_app_length, take_app_length.
  by rewrite take_app_length.
Qed.

(** The callback for the bytes with which the headers are complete. *)
Lemma callback_header path host n m p bytes c t :
  word path -> word host -> 0 <= n <= INT64_MAX -> bytes <> [] -> p ++ bytes = request_header path host n ++ m ->
  exists b, take (length m) b = m /\
    gives (globus_l_gram_protocol_read_request_callback true IoOk (strlen bytes)
             (Connection false ((p ++ bytes) ++ c :: t) (strlen p) 0 None))
      (if strlen m <? n then Reread (Connection true b (strlen m) n (Some path)) else Deliver b n (Some path)) 1.
Proof.
  intros Hp Hh Hn Hne E. set (h := request_header path host n) in *. eexists. split; [apply (memmove_take h m t)|].
  unfold globus_l_gram_protocol_read_request_callback. cbn [got_header n_read buf payload_length uri]. cbv iota zeta.
  eapply gives_step; [apply gives_lift; apply not_delegation; [done|by rewrite E]|cbv beta iota].
  replace (strlen p + strlen bytes) with (strlen (p ++ bytes)) by (unfold strlen; rewrite length_app; lia).
  eapply gives_step; [apply gives_lift, update_end|cbv beta]. rewrite E, <- app_assoc.
  eapply gives_step; [apply gives_lift, c_string_prefix; by apply header_nonzero|cbv beta].
  unfold h at 1. rewrite find_request_header by done. fold h. cbv iota. eapply gives_step; [unfold h; by apply parse_request_gives|cbv beta iota].
  cbn [frame_status_eqb negb]. cbv iota. eapply gives_step; [apply gives_lift, shift_payload_ok|cbv beta iota].
  { clear. unfold h, request_header. frame_lengths. lia. }
  cbn [n_read payload_length buf uri]. destruct (strlen m <? n); gret.
Qed.

(** The headers arrive in any number of chunks; the last has their end and the
    bytes [m] of the message. *)
Lemma read_request_header path host n m chunks bytes more p tail c :
  word path -> word host -> 0 <= n <= INT64_MAX ->
  reading c p tail -> Forall (fun b => b <> []) chunks -> p ++ concat chunks ++ bytes = request_header path host n ++ m ->
  (length (p ++ concat chunks) < length (request_header path host n))%nat -> (length (concat chunks ++ bytes) < length tail)%nat ->
  exists b, take (length m) b = m /\
    (strlen m < n -> forall r d, gives (read_request (Connection true b (strlen m) n (Some path)) more) r d ->
       gives (read_request c (chunks ++ bytes :: more)) r (1 + d)) /\
    (n <= strlen m -> gives (read_request c (chunks ++ bytes :: more)) (Deliver b n (Some path)) 1).
Proof.
  intros Hp Hh Hn Hc Hch. set (h := request_header path host n) in *. revert p tail c Hc.
  induction Hch as [|x chunks Hx Hch IH]; intros p tail c Hc E Hlt Htail; cbn [concat app] in *.
  - rewrite length_app in Hlt. cbn [length] in Hlt.
    assert (exists y t, drop (length bytes) tail = y :: t) as (y & t & Hd).
    { destruct (drop (length bytes) tail) as [|y t] eqn:D; [|eauto]. apply (f_equal length) in D. rewrite length_drop in D. cbn [length] in D. lia. }
    assert (bytes <> []) as Hne.
    { intros ->. apply (f_equal length) in E. rewrite !length_app in E. cbn [length] in E. lia. }
    destruct (callback_header path host n m p bytes y t Hp Hh Hn Hne E) as (b & Hb & Hg). exists b. split; [done|].
    cbn [read_request]. rewrite (arrive_reading c p tail bytes Hc), Hd by lia. split; intros Hm.
    + intros r d Hr. rewrite (proj2 (Z.ltb_lt _ _) Hm) in Hg. eapply gives_step; [exact Hg|cbv beta iota]. eapply gives_eq; [exact Hr|lia].
    + rewrite (proj2 (Z.ltb_ge _ _) Hm) in Hg. eapply gives_step; [exact Hg|cbv beta iota]. gret.
  - rewrite <- !app_assoc in *. rewrite !length_app in *.
    assert (exists y t, drop (length x) tail = y :: t) as (y & t & Hd).
    { destruct (drop (length x) tail) as [|y t] eqn:D; [|eauto]. apply (f_equal length) in D. rewrite length_drop in D. cbn [length] in D. lia. }
    pose proof (f_equal length Hd) as Ld. rewrite length_drop in Ld. cbn [length] in Ld.
    destruct (IH (p ++ x) (0 :: t) (Connection false ((p ++ x) ++ 0 :: t) (strlen (p ++ x)) 0 None)) as (b & Hb & H1 & H2);
      [done|by rewrite <- app_assoc|rewrite !length_app; lia|rewrite ?length_app; cbn [length]; lia|].
    assert (gives (globus_l_gram_protocol_read_request_callback true IoOk (strlen x) (arrive c x))
      (Reread (Connection false ((p ++ x) ++ 0 :: t) (strlen (p ++ x)) 0 None)) 0) as Hg.
    { rewrite (arrive_reading c p tail x Hc), Hd by lia.
      assert (h ++ m = (p ++ x) ++ concat chunks ++ bytes) as E' by (by rewrite <- E, <- app_assoc).
      assert (exists z, h = (p ++ x) ++ z) as [z Ez].
      { exists (drop (length (p ++ x)) h). assert (take (length (p ++ x)) h = p ++ x) as T; [|rewrite <- T at 1; by rewrite take_drop].
        rewrite <- (take_app_le h m) by (rewrite length_app; lia). by rewrite E', take_app_length. }
      assert (nonzero h) as Hnz by (by apply header_nonzero).
      apply callback_partial; [done|rewrite Ez in Hnz; by apply Forall_app in Hnz as [? _]| |].
      - apply (find_prefix _ z (length h - 4)); [rewrite <- Ez, <- (app_nil_r h); unfold h; rewrite find_request_header by done; by rewrite app_nil_r|].
        rewrite length_app. lia.
      - destruct (p ++ x) as [|k q] eqn:Q; [by destruct p, x|]. unfold h, request_header, request_line in Ez. cbn in Ez. by injection Ez as <- _. }
    exists b. split; [done|]. cbn [read_request]. split.
    + intros Hm r d Hr. eapply gives_step; [exact Hg|cbv beta iota]. eapply gives_eq; [by apply H1|lia].
    + intros Hm. eapply gives_step; [exact Hg|cbv beta iota]. eapply gives_eq; [by apply H2|lia].
Qed.

(** Once the headers are there, bytes that arrive do not count. *)
Lemma read_request_stuck c chunks :
  got_header c = true -> n_read c < payload_length c -> exists c', gives (read_request c chunks) (Reread c') 0 /\ n_read c' = n_read c.
Proof.
  revert c. induction chunks as [|x chunks IH]; intros c Hh Hn; [exists c; split; [apply gives_ret|done]|].
  destruct (IH (arrive c x)) as (c' & Hg & Hc'); [done..|]. exists c'. split; [|done]. cbn [read_request].
  eapply (gives_step _ _ (Reread (arrive c x)) _ 0); [|done]. unfold globus_l_gram_protocol_read_request_callback.
  cbv beta iota zeta. cbn [arrive got_header n_read payload_length]. rewrite Hh. rewrite (proj2 (Z.ltb_lt _ _) Hn). apply gives_ret.
Qed.

(** ** From the client to the server *)

Lemma host_word h port : Url.host_ok h port -> word h.
Proof.
  intros (Hne & H & _). split; [done|]. eapply Forall_impl; [exact H|]. intros c Hc. cbv beta in Hc. unfold Url.host_char in Hc.
  apply orb_true_iff in Hc as [Hc|Hc].
  - unfold isalnum, isalpha, isupper, islower, isdigit in Hc. rewrite !orb_true_iff, !andb_true_iff, !Z.leb_le in Hc.
    unfold isspace. split; [zcase; done|lia].
  - assert (negb (isspace c) && negb (c =? 0) = true) as Hb by (by apply (Url.mem_ok c "-." (fun c => negb (isspace c) && negb (c =? 0)))).
    rewrite andb_true_iff, !negb_true_iff, Z.eqb_neq in Hb. done.
Qed.

(** C5: A job request reaches the server: packed, framed for the job contact, and
    read by the server's callback in any number of chunks of which the last has the
    end of the headers and all of the message, it is delivered with the path of the
    contact as its URI, and unpacking the delivered bytes gives the mask, the
    callback URL and the description that the client sent. *)
Theorem job_request_delivered enc host port path mask url rsl (block : list Z) :
  Url.host_ok host port -> Url.path_ok enc path -> word path ->
  INT_MIN <= mask <= INT_MAX -> callback_ok url -> nonzero rsl -> Z.of_nat (length block) <= INT64_MAX ->
  exists q framed,
    gives (globus_gram_protocol_pack_job_request true mask url (Some rsl)) (SUCCESS, Some (q, strlen (q ++ [0%Z]))) 1 /\
    (strlen (q ++ [0%Z]) <= INT64_MAX ->
     gives (globus_gram_protocol_frame_request (Some (contact_url enc host port path)) (q ++ [0%Z])) (FRAMED, Some framed) 1) /\
    forall chunks bytes,
      concat chunks ++ bytes = framed -> Forall (fun b => b <> []) chunks -> (length framed < length block)%nat ->
      (length (concat chunks) < length framed - length (q ++ [0%Z]))%nat ->
      exists b,
        gives (read_request (new_connection block) (chunks ++ [bytes])) (Deliver b (strlen (q ++ [0%Z])) (Some path)) 1 /\
        gives (globus_gram_protocol_unpack_job_request true (Some b) (length (q ++ [0%Z])))
          (SUCCESS, (mask, url, Some rsl)) (match url with Some _ => 2 | None => 1 end).
Proof.
  intros Hh Hp Hw Hm Hu Hr Hblock. set (q := job_request_text mask url rsl).
  assert (strlen (q ++ [0]) = strlen q + 1) as Lq by (unfold strlen; rewrite length_app; cbn [length]; lia).
  exists q, (request_header path host (strlen (q ++ [0])) ++ q ++ [0]). split_and!.
  - rewrite Lq. by apply pack_job_request_gives.
  - intros Hq. apply frame_request_gives; [done|done|by destruct Hw|done].
  - intros chunks bytes E Hch Hlen Hlt. rewrite length_app in Hlt.
    destruct (read_request_header path host (strlen (q ++ [0])) (q ++ [0]) chunks bytes [] [] block (new_connection block))
      as (b & Hb & _ & Hg); [done|by eapply host_word|unfold strlen; rewrite length_app in Hlen; lia|done|done|done|cbn [app]; lia|by rewrite E|].
    exists b. split; [by apply Hg|]. rewrite <- (take_drop (length (q ++ [0])) b), Hb, <- app_assoc.
    replace (length (q ++ [0])) with (S (length q)) by (rewrite length_app; cbn; lia). by apply unpack_job_request_gives.
Qed.

Lemma job_request_delivered_witness :
  exists q framed,
    gives (globus_gram_protocol_pack_job_request true 1 None (Some (codes "&(x=y)"))) (SUCCESS, Some (q, strlen (q ++ [0]))) 1 /\
    (strlen (q ++ [0]) <= INT64_MAX ->
     gives (globus_gram_protocol_frame_request (Some (codes "https://h.org:2119/jobmanager")) (q ++ [0])) (FRAMED, Some framed) 1) /\
    forall chunks bytes,
      concat chunks ++ bytes = framed -> Forall (fun b => b <> []) chunks -> (length framed < 1000)%nat ->
      (length (concat chunks) < length framed - length (q ++ [0%Z]))%nat ->
      exists b,
        gives (read_request (new_connection (replicate 1000 0)) (chunks ++ [bytes])) (Deliver b (strlen (q ++ [0])) (Some (codes "/jobmanager"))) 1 /\
        gives (globus_gram_protocol_unpack_job_request true (Some b) (length (q ++ [0]))) (SUCCESS, (1, None, Some (codes "&(x=y)"))) 1.
Proof.
  apply (job_request_delivered [] (codes "h.org") (Some (codes "2119")) (codes "/jobmanager") 1 None (codes "&(x=y)") (replicate 1000 0)).
  - split_and!; [discriminate|vm_compute; repeat constructor|]. intros d [= <-]. split_and!; [discriminate|vm_compute; repeat constructor|reflexivity].
  - split_and!; [apply Url.encodable_check; reflexivity|discriminate|right; reflexivity].
  - split; [discriminate|]. vm_compute. repeat constructor; discriminate.
  - split; vm_compute; discriminate.
  - exact I.
  - vm_compute. repeat constructor; discriminate.
  - vm_compute. discriminate.
Defined.

(** A request whose message is split over two reads is lost: when the bytes that
    complete the headers do not have all of the message, the server's callback
    reads on for ever, whatever arrives, because only the bytes of the headers are
    counted. *)
Theorem request_split_lost path host n m chunks bytes more block :
  word path -> word host -> 0 <= n <= INT64_MAX -> strlen m < n ->
  concat chunks ++ bytes = request_header path host n ++ m -> Forall (fun b => b <> []) chunks ->
  (length (concat chunks) < length (request_header path host n))%nat -> (length (request_header path host n ++ m) < length block)%nat ->
  exists c, gives (read_request (new_connection block) (chunks ++ bytes :: more)) (Reread c) 1 /\ n_read c = strlen m.
Proof.
  intros Hp Hh Hn Hm E Hch Hlt Hlen.
  destruct (read_request_header path host n m chunks bytes more [] block (new_connection block)) as (b & _ & Hg & _);
    [done|done|done|done|done|done|done|by rewrite E|].
  destruct (read_request_stuck (Connection true b (strlen m) n (Some path)) more) as (c & Hc & Hn'); [done|done|].
  exists c. split; [|done]. by apply (Hg Hm _ 0).
Qed.

Lemma request_split_lost_witness :
  exists c, gives (read_request (new_connection (replicate 1000 0))
      [codes "POST /1 HTTP/1.1"; CRLF ++ drop 18 (request_header (codes "/1") (codes "h") 3); codes "abc"]) (Reread c) 1 /\ n_read c = 0.
Proof.
  apply (request_split_lost (codes "/1") (codes "h") 3 [] [codes "POST /1 HTTP/1.1"] (CRLF ++ drop 18 (request_header (codes "/1") (codes "h") 3))
           [codes "abc"] (replicate 1000 0)).
  - split; [discriminate|]. vm_compute. repeat constructor; discriminate.
  - split; [discriminate|]. vm_compute. repeat constructor; discriminate.
  - split; vm_compute; discriminate.
  - reflexivity.
  - reflexivity.
  - constructor; [discriminate|constructor].
  - apply Nat.ltb_lt. reflexivity.
  - apply Nat.ltb_lt. reflexivity.
Defined.

(** ** Replies *)

Definition reply_header (code : Z) (msg : list Z) : list Z :=
  reply_line code (globus_l_gram_protocol_lookup_reason code) ++
  (if strlen msg =? 0 then connection_line else content_type_line ++ content_length_line (strlen msg)) ++ CRLF.

(** What the client makes of a reply. *)
Definition reply_outcome (code : Z) (msg : list Z) : frame_status * Z :=
  if code =? 200 then if strlen msg =? 0 then (HTTP_UNFRAME_FAILED, 0) else (FRAMED, strlen msg)
  else if code =? 400 then (PROTOCOL_FAILED, 0)
  else if code =? 403 then (AUTHORIZATION, 0)
  else if code =? 404 then (SERVICE_NOT_FOUND, 0)
  else if code =? 500 then (GATEKEEPER_MISCONFIGURED, 0)
  else (HTTP_UNFRAME_FAILED, 0).

Definition reason_okb (r : list Z) : bool :=
  negb (bool_decide (r = [])) && negb (isspace (char_at r 0)) && forallb (fun c => negb (in_set CRLF c)) r.

Lemma reason_ok code : reason_okb (globus_l_gram_protocol_lookup_reason code) = true.
Proof.
  unfold globus_l_gram_protocol_lookup_reason. destruct (List.find _ reasons) as [[c r]|] eqn:F.
  - apply List.find_some in F as [F _].
    assert (forallb (fun '(_, r) => reason_okb (codes r)) reasons = true) as H by (vm_compute; reflexivity).
    rewrite forallb_forall in H. apply (H _ F).
  - repeat match goal with |- context [if ?b then _ else _] => destruct b end; vm_compute; reflexivity.
Qed.

Lemma decimal3_length code : 100 <= code <= 999 -> decimal3 code = decimal code /\ length (decimal code) = 3%nat.
Proof.
  intros H. assert (length (decimal code) = 3%nat) as L; [|split; [unfold decimal3; by rewrite L|done]].
  unfold decimal. rewrite (proj2 (Z.ltb_ge code 0)) by lia. rewrite length_rev. cbn [digits_rev length].
  rewrite (proj2 (Z.eqb_neq (code / 10) 0)) by (Z.to_euclidean_division_equations; lia). cbn [length].
  rewrite (proj2 (Z.eqb_neq (code / 10 / 10) 0)) by (Z.to_euclidean_division_equations; lia). cbn [length].
  rewrite (proj2 (Z.eqb_eq (code / 10 / 10 / 10) 0)) by (Z.to_euclidean_division_equations; lia). done.
Qed.

Lemma frame_reply_gives code msg :
  100 <= code <= 999 -> strlen msg <= INT64_MAX ->
  gives (globus_gram_protocol_frame_reply code msg) (FRAMED, Some (reply_header code msg ++ msg)) 1.
Proof.
  intros Hc Hm. destruct (decimal3_length code Hc) as [E3 L3]. unfold globus_gram_protocol_frame_reply, reply_header. cbv zeta.
  set (reason := globus_l_gram_protocol_lookup_reason code). unfold reply_line. rewrite E3. destruct (Z.eqb_spec (strlen msg) 0) as [E|E].
  - eapply gives_step; [apply gives_must_malloc|cbv beta].
    do 3 (eapply gives_step; [apply gives_lift, sprintf_at_ok; clear -L3; frame_lengths; lia|cbv beta]).
    destruct msg as [|? ?]; [|unfold strlen in E; cbn in E; lia]. rewrite <- !app_assoc, !app_nil_r. cbn [app]. gret.
  - eapply gives_step; [apply gives_lift, count_digits_decimal; unfold strlen in *; lia|cbv beta].
    eapply gives_step; [apply gives_must_malloc|cbv beta].
    do 4 (eapply gives_step; [apply gives_lift, sprintf_at_ok; clear -L3 E; frame_lengths; lia|cbv beta]).
    eapply gives_step; [apply gives_lift, memcpy_at_ok; clear -L3 E; frame_lengths; lia|cbv beta]. rewrite <- !app_assoc. cbn [app]. gret.
Qed.

Lemma scan_http_code f code r :
  100 <= code <= 999 ->
  sscanf (Dec 3 32 :: f) (decimal code ++ r) = (AInt code :: (sscanf f r).1, (sscanf f r).2).
Proof.
  intros Hc. destruct (decimal3_length code Hc) as [_ L]. cbn [sscanf]. unfold scan_width.
  rewrite skip_no_space by apply decimal_head_app. rewrite take_app_length' by done. rewrite <- (app_nil_r (decimal code)) at 1.
  rewrite scan_int_decimal by (done || lia). cbn [mbind option_bind]. rewrite L, Nat.sub_0_r, drop_app_length' by done.
  rewrite clamp64_id by (unfold INT64_MIN, INT64_MAX; lia). rewrite swrap_small by lia. by destruct (sscanf f r).
Qed.

Lemma in_set_span reason r :
  forallb (fun c => negb (in_set CRLF c)) reason = true ->
  span (fun c => negb (in_set CRLF c)) (reason ++ CRLF ++ r) = length reason.
Proof.
  intros H. apply span_app; [|by left]. rewrite forallb_forall in H. apply Forall_forall. intros c Hc%list_elem_of_In. by apply H.
Qed.

Lemma scan_reply code r :
  100 <= code <= 999 -> isspace (char_at r 0) = false ->
  sscanf reply_directives (reply_line code (globus_l_gram_protocol_lookup_reason code) ++ r) =
    ([AInt code; AStr (globus_l_gram_protocol_lookup_reason code)], Some r).
Proof.
  intros Hc Hr. destruct (decimal3_length code Hc) as [E3 _]. pose proof (reason_ok code) as Hok.
  set (reason := globus_l_gram_protocol_lookup_reason code) in *. unfold reason_okb in Hok.
  rewrite !andb_true_iff, !negb_true_iff, bool_decide_eq_false in Hok. destruct Hok as [[Hne Hsp] Hset].
  unfold reply_directives, reply_line. rewrite E3, <- !app_assoc. change (codes "HTTP/1.1 ") with (codes "HTTP/1.1" ++ [32]). rewrite <- !app_assoc.
  rewrite sscanf_lit, sscanf_space; [|by repeat constructor|apply decimal_head_app]. rewrite scan_http_code by done.
  rewrite sscanf_space; [|by repeat constructor|by destruct reason]. cbn [sscanf]. rewrite in_set_span by done.
  destruct (Nat.eqb_spec (length reason) 0) as [E|E]; [by destruct reason|]. rewrite drop_app_length, take_app_length.
  assert (skip_space (CRLF ++ r) = r) as ->; [|done]. pose proof (sscanf_space [] CRLF r) as Hs. cbn [sscanf] in Hs.
  by injection Hs; [|repeat constructor|].
Qed.

Lemma parse_reply_gives code msg r :
  100 <= code <= 999 -> strlen msg <= INT64_MAX ->
  gives (globus_l_gram_protocol_parse_reply_header (reply_header code msg ++ r)) (reply_outcome code msg) 0.
Proof.
  intros Hc Hm. unfold globus_l_gram_protocol_parse_reply_header. gmalloc. unfold reply_header. rewrite <- !app_assoc.
  rewrite scan_reply by (done || by destruct (strlen msg =? 0)). cbv iota.
  set (reason := globus_l_gram_protocol_lookup_reason code).
  change ([AInt code; AStr reason] !! 1%nat) with (Some (AStr reason)).
  eapply gives_step; [apply gives_lift; cbn [store]; rewrite sprintf_at_ok; [done|]|cbv beta].
  { unfold reply_line. frame_lengths. lia. }
  cbv zeta. gfree. unfold reply_outcome. destruct (code =? 200).
  - destruct (Z.eqb_spec (strlen msg) 0) as [E|E].
    + gret.
    + rewrite <- !app_assoc, <- (app_nil_r content_directives), scan_content by (unfold strlen, INT64_MIN in *; lia).
      cbn [sscanf fst]. unfold uwrap. rewrite Z.mod_small by (unfold strlen, INT64_MAX in *; lia). gret.
  - destruct (code =? 400), (code =? 403), (code =? 404), (code =? 500); gret.
Qed.

(** A reply is understood: framing fits its block for every three-digit code,
    and the client's parser finds in the headers the length of the message of a
    reply with code 200, and the error of any other code. A reply with code 200 and
    no message is framed without the lines the parser needs, and is an error. *)
Theorem reply_framed code msg :
  100 <= code <= 999 -> strlen msg <= INT64_MAX ->
  exists header,
    gives (globus_gram_protocol_frame_reply code msg) (FRAMED, Some (header ++ msg)) 1 /\
    forall r, gives (globus_l_gram_protocol_parse_reply_header (header ++ r)) (reply_outcome code msg) 0.
Proof.
  intros Hc Hm. exists (reply_header code msg). split; [by apply frame_reply_gives|]. intros r. by apply parse_reply_gives.
Qed.

Lemma reply_framed_witness :
  (exists header,
    gives (globus_gram_protocol_frame_reply 200 (codes "status: 1")) (FRAMED, Some (header ++ codes "status: 1")) 1 /\
    forall r, gives (globus_l_gram_protocol_parse_reply_header (header ++ r)) (FRAMED, 9) 0) /\
  (exists header,
    gives (globus_gram_protocol_frame_reply 200 []) (FRAMED, Some (header ++ [])) 1 /\
    forall r, gives (globus_l_gram_protocol_parse_reply_header (header ++ r)) (HTTP_UNFRAME_FAILED, 0) 0).
Proof.
  split; [apply (reply_framed 200 (codes "status: 1"))|apply (reply_framed 200 [])]; try split; vm_compute; discriminate.
Defined.
End GramFrame.
