(* ===== verification/CertName.v ===== *)
(** * Distinguished names
      (gsi/cert_utils/source/library/globus_gsi_cert_utils.c)

    [globus_i_gsi_cert_utils_dn_cmp] compares names without regard to case, and
    takes the three ways to write a user id or a mail address for the same. *)
From S2P Require Import Prelude.
From S2P Require Import Chars.
From S2P Require Import Stdio.
Local Open Scope Z_scope.

Module CertName.

Definition SLASH : Z := 47.

(** [strncasecmp(s, p, strlen(p)) == 0] *)
Definition starts_with (p : string) (s : list Z) : bool :=
  bool_decide (lower (take (String.length p) s) = lower (codes p)).

(** The names that are replaced after a slash, what replaces them, and by how much the
    block grows. *)
Definition replacement (s : list Z) : option (nat * list Z * Z) :=
  if starts_with "UID=" s then Some (4%nat, codes "USERID=", 3)
  else if starts_with "E=" s then Some (2%nat, codes "emailAddress=", 11)
  else if starts_with "Email=" s then Some (6%nat, codes "emailAddress=", 7)
  else None.

(** Writing [s] at the end of [buf] in a block of [length] bytes, without a NUL. *)
Definition put (length : Z) (buf s : list Z) : result (list Z) :=
  if Z.of_nat (List.length buf) + Z.of_nat (List.length s) <=? length then Ok (buf ++ s) else Fault OutOfBounds.

(** The loop of [normalize_dn]; [dn] is what follows [i], and a name that is replaced
    is skipped. [None]: an allocation failed. *)
Fixpoint normalize_loop (skip : nat) (dn : list Z) (length : Z) (buf : list Z) : cmd (option (Z * list Z)) :=
  match dn with
  | [] => mret (Some (length, buf))
  | c :: dn =>
      match skip with
      | S skip => normalize_loop skip dn length buf
      | O =>
          buf ← lift (put length buf [c]);
          match (if c =? SLASH then replacement dn else None) with
          | None => normalize_loop 0 dn length buf
          | Some (n, text, grow) =>
              ok ← malloc;
              _ ← free;
              if negb ok then mret None
              else
                buf ← lift (put (length + grow) buf text);
                normalize_loop n dn (length + grow) buf
          end
      end
  end.

Definition globus_l_gsi_cert_utils_normalize_dn (dn : list Z) : cmd (option (list Z)) :=
  ok ← malloc;
  if negb ok then mret None
  else
    r ← normalize_loop 0 dn (Z.of_nat (length dn) + 1) [];
    match r with
    | None => mret None
    | Some (length, buf) => buf ← lift (sprintf_at length buf []); mret (Some buf)
    end.

(** Whether it returns 0. *)
Definition globus_i_gsi_cert_utils_dn_cmp (dn1 dn2 : list Z) : cmd bool :=
  if strcaseeq dn1 dn2 then mret true
  else
    tmp_dn1 ← globus_l_gsi_cert_utils_normalize_dn dn1;
    match tmp_dn1 with
    | None => mret false
    | Some tmp_dn1 =>
        tmp_dn2 ← globus_l_gsi_cert_utils_normalize_dn dn2;
        match tmp_dn2 with
        | None => _ ← free; mret false
        | Some tmp_dn2 => let result := strcaseeq tmp_dn1 tmp_dn2 in _ ← free; _ ← free; mret result
        end
    end.

(** ** The canonical form *)

(** Specification: the same walk, without blocks. *)
Fixpoint canonical (skip : nat) (dn : list Z) : list Z :=
  match dn with
  | [] => []
  | c :: dn =>
      match skip with
      | S skip => canonical skip dn
      | O =>
          c :: match (if c =? SLASH then replacement dn else None) with
               | None => canonical 0 dn
               | Some (n, text, _) => text ++ canonical n dn
               end
      end
  end.

Definition same_dn (a b : list Z) : Prop := lower (canonical 0 a) = lower (canonical 0 b).

#[export] Instance same_dn_dec a b : Decision (same_dn a b).
Proof. unfold same_dn. apply _. Defined.

#[export] Instance same_dn_equiv : Equivalence same_dn.
Proof. split; unfold same_dn; [by intros ?|by intros ? ? ->|by intros ? ? ? -> ->]. Qed.

Lemma tolower_slash c : (tolower c =? SLASH) = (c =? SLASH).
Proof. unfold tolower, isupper, SLASH. zcase; done. Qed.

Lemma replacement_lower a b : lower a = lower b -> replacement a = replacement b.
Proof.
  intros H. assert (forall p, starts_with p a = starts_with p b) as E; [|unfold replacement; by rewrite !E].
  intros p. unfold starts_with. unfold lower in *. by rewrite !fmap_take, H.
Qed.

(** The canonical form does not depend on case. *)
Lemma canonical_lower n a b : lower a = lower b -> lower (canonical n a) = lower (canonical n b).
Proof.
  revert n b. induction a as [|c a IH]; intros n [|d b]; try done. cbn [lower fmap list_fmap canonical]. intros [= Hc H].
  destruct n as [|n]; [|by apply IH]. cbn [lower fmap list_fmap]. rewrite Hc. f_equal.
  assert ((c =? SLASH) = (d =? SLASH)) as E by (by rewrite <- tolower_slash, Hc, tolower_slash). rewrite E, (replacement_lower a b H).
  destruct (d =? SLASH); [|by apply IH]. destruct (replacement b) as [[[k text] g]|]; [|by apply IH].
  unfold lower. rewrite !fmap_app. f_equal. by apply IH.
Qed.

Lemma starts_with_length p s : starts_with p s = true -> (String.length p <= length s)%nat.
Proof.
  unfold starts_with. rewrite bool_decide_eq_true. intros H%(f_equal length). unfold lower in H.
  rewrite !length_fmap, length_take in H. unfold codes in H. rewrite length_fmap in H.
  assert (forall q, length (String.list_ascii_of_string q) = String.length q) as L by (induction q; cbn; lia).
  rewrite L in H. lia.
Qed.

(** A replacement is as much longer than the name as the block grows. *)
Lemma replacement_grow s n text g :
  replacement s = Some (n, text, g) -> (n <= length s)%nat /\ Z.of_nat (length text) = Z.of_nat n + g.
Proof.
  unfold replacement. repeat match goal with |- context [if starts_with ?p s then _ else _] => destruct (starts_with p s) eqn:? end;
    intros [= <- <- <-]; (split; [|done]); match goal with H : starts_with _ _ = true |- _ => apply starts_with_length in H; cbn in H; lia end.
Qed.

Lemma normalize_loop_runs skip dn len buf :
  (skip <= length dn)%nat -> len = Z.of_nat (length buf) + Z.of_nat (length dn - skip) + 1 ->
  runs (normalize_loop skip dn len buf)
    (fun r d => match r with
       | Some (l, b) => b = buf ++ canonical skip dn /\ l = Z.of_nat (length b) + 1 /\ d = 0
       | None => d = -1
       end).
Proof.
  revert skip len buf. induction dn as [|c dn IH]; intros skip len buf Hs Hl; cbn [normalize_loop canonical length] in *.
  { apply runs_ret. rewrite app_nil_r. split_and!; [done|lia|done]. }
  destruct skip as [|skip]; [|apply IH; lia].
  eapply runs_bind; [eapply (runs_lift _ (fun b d => b = buf ++ [c] /\ d = 0)); [unfold put; rewrite (proj2 (Z.leb_le _ _)); [done|cbn; lia]|done]|].
  intros b d [-> ->]. destruct (if c =? SLASH then replacement dn else None) as [[[n text] g]|] eqn:R.
  - assert (replacement dn = Some (n, text, g)) as [Hn Hg]%replacement_grow by (by destruct (c =? SLASH)).
    eapply runs_bind; [apply runs_malloc|]. intros ok d ->. eapply runs_bind; [apply runs_free|]. intros _ d ->.
    destruct ok; cbn [negb]; cbv iota; [|apply runs_ret; lia].
    eapply runs_bind; [eapply (runs_lift _ (fun b d => b = (buf ++ [c]) ++ text /\ d = 0)); [unfold put; rewrite (proj2 (Z.leb_le _ _)); [done|]|done]|].
    { rewrite length_app. cbn [length]. lia. }
    intros b d [-> ->]. eapply runs_mono; [apply IH|]; [done|rewrite !length_app; cbn [length]; lia|].
    intros [[l b]|] d'; [|lia]. intros (-> & -> & ->). split_and!; [by rewrite <- !app_assoc|done|lia].
  - eapply runs_mono; [apply IH|]; [lia|rewrite length_app; cbn [length]; lia|].
    intros [[l b]|] d'; [|lia]. intros (-> & -> & ->). split_and!; [by rewrite <- !app_assoc|done|lia].
Qed.

Lemma normalize_runs dn :
  runs (globus_l_gsi_cert_utils_normalize_dn dn)
    (fun r d => match r with Some b => b = canonical 0 dn /\ d = 1 | None => d = 0 end).
Proof.
  eapply runs_bind; [apply runs_malloc|]. intros ok d ->. destruct ok; cbn [negb]; cbv iota; [|by apply runs_ret].
  eapply runs_bind; [apply normalize_loop_runs; [lia|cbn [length]; lia]|]. intros [[l b]|] d; [|intros ->; by apply runs_ret].
  intros (-> & -> & ->). cbn [app]. eapply runs_bind; [eapply (runs_lift _ (fun b d => b = canonical 0 dn /\ d = 0))|].
  - rewrite sprintf_at_ok by (rewrite app_nil_r; lia). by rewrite app_nil_r.
  - done.
  - intros b d [-> ->]. by apply runs_ret.
Qed.

(** Where no allocation fails, it is the canonical form that is returned. *)
Lemma normalize_loop_some skip dn len buf s s' r :
  ample s -> normalize_loop skip dn len buf s = Ok (r, s') -> r <> None /\ ample s'.
Proof.
  revert skip len buf s. induction dn as [|c dn IH]; intros skip len buf s Hs; cbn [normalize_loop]; [by intros [= <- <-]|].
  destruct skip as [|skip]; [|by apply IH]. rewrite cmd_bind_Ok. intros (b & s1 & H1 & H).
  assert (s1 = s) as -> by (unfold lift in H1; destruct (put _ _ _); [by injection H1|done]).
  destruct (if c =? SLASH then replacement dn else None) as [[[n text] g]|]; [|by eapply IH].
  apply cmd_bind_Ok in H as (ok & s2 & H2 & H). destruct (gives_malloc s Hs) as (s2' & H2' & Hs2 & _). rewrite H2' in H2. injection H2 as <- <-.
  apply cmd_bind_Ok in H as (u & s3 & H3 & H). injection H3 as <- <-. cbn [negb] in H. cbv iota in H.
  apply cmd_bind_Ok in H as (b2 & s4 & H4 & H).
  assert (s4 = CMem (live s2' - 1) (plan s2')) as -> by (unfold lift in H4; destruct (put _ _ _); [by injection H4|done]). by eapply IH in H.
Qed.

Lemma normalize_gives dn : gives (globus_l_gsi_cert_utils_normalize_dn dn) (Some (canonical 0 dn)) 1.
Proof.
  gmalloc. intros s Hs. destruct (normalize_loop_runs 0 dn (Z.of_nat (length dn) + 1) []) with (s := s) as ([[l b]|] & s' & H & HQ); [lia|cbn [length]; lia| |].
  - destruct HQ as (-> & -> & HL). destruct (normalize_loop_some _ _ _ _ _ _ _ Hs H) as [_ Hs']. exists s'.
    split_and!; [|done|lia]. unfold mbind, cmd_bind. rewrite H. unfold lift. by rewrite sprintf_at_ok, app_nil_r by (rewrite app_nil_r; lia).
  - by destruct (normalize_loop_some _ _ _ _ _ _ _ Hs H).
Qed.

Lemma dn_cmp_gives a b : gives (globus_i_gsi_cert_utils_dn_cmp a b) (bool_decide (same_dn a b)) 0.
Proof.
  unfold globus_i_gsi_cert_utils_dn_cmp, strcaseeq. case_bool_decide as E.
  - rewrite bool_decide_true by (by apply canonical_lower). apply gives_ret.
  - do 2 (eapply gives_step; [apply normalize_gives|cbv beta iota zeta]). gfree. gfree. gret.
Qed.

Lemma dn_cmp_runs a b : runs (globus_i_gsi_cert_utils_dn_cmp a b) (fun r d => d = 0 /\ (r = true -> same_dn a b)).
Proof.
  unfold globus_i_gsi_cert_utils_dn_cmp, strcaseeq. case_bool_decide as E.
  { apply runs_ret. split; [done|]. intros _. by apply canonical_lower. }
  eapply runs_bind; [apply normalize_runs|]. intros [x|] d; [intros [-> ->]|intros ->; by apply runs_ret].
  eapply runs_bind; [apply normalize_runs|]. intros [y|] d; [intros [-> ->]|intros ->].
  - eapply runs_bind; [apply runs_free|]. intros _ d ->. eapply runs_bind; [apply runs_free|]. intros _ d ->. apply runs_ret.
    split; [lia|]. by intros H%bool_decide_eq_true.
  - eapply runs_bind; [apply runs_free|]. intros _ d ->. apply runs_ret. split; [lia|done].
Qed.

(** C15: Comparing distinguished names: the copies that are made fit their blocks and
    are freed; where memory suffices, the answer is whether the two names have the
    same canonical form, an equivalence relation; and where an allocation fails, two
    different names are never taken for the same. *)
Theorem dn_cmp_correct a b :
  gives (globus_i_gsi_cert_utils_dn_cmp a b) (bool_decide (same_dn a b)) 0 /\
  runs (globus_i_gsi_cert_utils_dn_cmp a b) (fun r d => d = 0 /\ (r = true -> same_dn a b)) /\
  Equivalence same_dn.
Proof. split_and!; [apply dn_cmp_gives|apply dn_cmp_runs|apply _]. Qed.

Lemma same_dn_email :
  same_dn (codes "/O=Grid/E=a@b/UID=x") (codes "/o=grid/emailaddress=A@B/USERID=x") /\
  ~ same_dn (codes "/O=Grid/CN=a") (codes "/O=Grid/CN=a/CN=proxy").
Proof. split; [by vm_compute|intros H; by vm_compute in H]. Qed.
End CertName.
