(* ===== verification/Gridmap.v ===== *)
(** * The grid map file (gsi/gss_assist/source/gridmap.c)

    A line of the file has a distinguished name and the local accounts it may use;
    the first account is the default. The functions of the library read the file line
    by line, parse each line and compare names with CertName.v. Characters are bytes.
    Lines are shorter than 2^29 bytes, so that the [int] lengths hold them. Accounts
    that start with a dot are leased from a directory, see GridmapDir.v; here what the
    directory answers is an argument. Which error is returned is a value of [status];
    its text is not modelled. *)
From S2P Require Import Prelude.
From S2P Require Import Chars.
From S2P Require Import Stdio.
From S2P Require Import CertName.
Local Open Scope Z_scope.

Module Gridmap.
Import CertName.

Inductive status :=
| SUCCESS | WITH_ARGUMENTS | WITH_GRIDMAP | ERRNO | INVALID_GRIDMAP_FORMAT | NO_USER_ENTRY | USER_ID_DOESNT_MATCH
| LOOKUP_FAILED | BUFFER_TOO_SMALL.

Definition ok_status (s : status) : bool := match s with SUCCESS => true | _ => false end.

Definition NL : Z := 10.
Definition WHITESPACE_CHARS : list Z := [32; 9; NL].
Definition QUOTE : Z := 34.
Definition BACKSLASH : Z := 92.
Definition COMMENT : Z := 35.
Definition USERID_TERMINATOR_CHARS : list Z := 44 :: WHITESPACE_CHARS.
Definition USERID_CHUNK_SIZE : Z := 4.

(** [strspn] and [strcspn] *)
Definition strspn (s set : list Z) : nat := span (in_set set) s.
Definition strcspn (s set : list Z) : nat := span (fun c => negb (in_set set c)) s.

(** A pointer to the parsed name: NULL, a block in which nothing was written, or a
    string. *)
Inductive dn_ptr := DnNull | DnRaw | DnStr (s : list Z).

Definition read_dn (p : dn_ptr) : result (list Z) :=
  match p with DnNull => Fault NullDeref | DnRaw => Fault OutOfBounds | DnStr s => Ok s end.

Record gridmap_line := GridmapLine { dn : dn_ptr; user_ids : option (list (list Z)) }.

(** [realloc]: on success the old block, if any, is freed. *)
Definition realloc (held : bool) : cmd bool :=
  ok ← malloc;
  _ ← (if ok && held then free else mret tt);
  mret ok.

(** ** Reading a line *)

(** A stream: the bytes that are left, and whether reading fails after them. *)
Record stream := Stream { bytes : list Z; bad : bool }.

Inductive stop := Full | Newline | End.

(** The inner loop of [read_line], which has room for [room] more bytes. *)
Fixpoint getc_loop (room : nat) (b : list Z) (buf : list Z) : list Z * list Z * stop :=
  match room with
  | O => (buf, b, Full)
  | S room =>
      match b with
      | [] => (buf, [], End)
      | c :: b =>
          if c =? NL then (buf ++ [c], b, if (room =? 0)%nat then Full else Newline)
          else getc_loop room b (buf ++ [c])
      end
  end.

Definition ends_line (buf : list Z) : bool := match last buf with Some c => c =? NL | None => false end.

Section BUFSIZ.
  Context (BUFSIZ : nat).

(** The status, the line or NULL, and the stream; [size] is [buffer_size]. *)
Fixpoint read_loop (n : nat) (st : stream) (size : nat) (buf : list Z) : cmd (status * option (list Z) * stream) :=
  match n with
  | O => lift (Fault OutOfFuel)
  | S n =>
      ok ← realloc (negb (size =? 0)%nat);
      if negb ok then mret (ERRNO, if (size =? 0)%nat then None else Some buf, st)
      else
        let size := (size + BUFSIZ)%nat in
        let '(buf, b, stop) := getc_loop (size - length buf - 1) (bytes st) buf in
        let st := Stream b (bad st) in
        match stop with
        | Full => if ends_line buf then mret (SUCCESS, Some buf, st) else read_loop n st size buf
        | End =>
            if bad st then _ ← free; mret (ERRNO, None, st)
            else if (length buf =? 0)%nat then _ ← free; mret (SUCCESS, None, st)
            else mret (SUCCESS, Some buf, st)
        | Newline => mret (SUCCESS, Some buf, st)
        end
  end.

Definition globus_l_gss_assist_read_line (st : stream) : cmd (status * option (list Z) * stream) :=
  read_loop (length (bytes st) + 2) st 0 [].
End BUFSIZ.

(** ** Parsing a name *)

Definition globus_i_gss_assist_xdigit_to_value (xdigit : Z) : Z :=
  if (48 <=? xdigit) && (xdigit <=? 57) then xdigit - 48
  else if (97 <=? xdigit) && (xdigit <=? 102) then xdigit - 97 + 10
  else if (65 <=? xdigit) && (xdigit <=? 70) then xdigit - 65 + 10
  else -1.

Definition hexdigit (n : Z) : Z := nth (Z.to_nat n) (codes "0123456789ABCDEF") 0.

(** What is written for a character. *)
Definition shown (c : Z) : list Z :=
  if (c <? 32) || (126 <? c) then [BACKSLASH; 120; hexdigit (Z.land (Z.shiftr c 4) 15); hexdigit (Z.land c 15)] else [c].

(** [while (buffer_index + 4 >= buffer_len)]: the block doubles. *)
Fixpoint grow (n : nat) (buffer_index buffer_len : Z) : cmd (option Z) :=
  match n with
  | O => lift (Fault OutOfFuel)
  | S n =>
      if buffer_len <=? buffer_index + 4 then
        ok ← realloc true;
        if negb ok then _ ← free; mret None else grow n buffer_index (buffer_len * 2)
      else mret (Some buffer_len)
  end.

(** [skip] characters of a hexadecimal number have been read. *)
Fixpoint globusid_loop (unparsed : list Z) (skip : nat) (escaped : bool) (buffer_len : Z) (buffer : list Z) : cmd (option (list Z)) :=
  match unparsed with
  | [] => mret (Some buffer)
  | c :: unparsed =>
      match skip with
      | S skip => globusid_loop unparsed skip escaped buffer_len buffer
      | O =>
          if (c =? BACKSLASH) && negb escaped then globusid_loop unparsed 0 true buffer_len buffer
          else
            let hex := (c =? 120) && escaped && isxdigit (char_at unparsed 0) && isxdigit (char_at unparsed 1) in
            let v := if hex then uwrap 8 (globus_i_gss_assist_xdigit_to_value (char_at unparsed 0) * 16 +
                                          globus_i_gss_assist_xdigit_to_value (char_at unparsed 1)) else c in
            r ← grow (length buffer + 6) (Z.of_nat (length buffer)) buffer_len;
            match r with
            | None => mret None
            | Some buffer_len =>
                buffer ← lift (sprintf_at buffer_len buffer (shown v));
                globusid_loop unparsed (if hex then 2 else 0) false buffer_len buffer
            end
      end
  end.

(** [parsed_dn] afterwards; the function always reports success. *)
Definition globus_i_gss_assist_gridmap_parse_globusid (unparsed : list Z) : cmd dn_ptr :=
  ok ← malloc;
  if negb ok then mret DnNull
  else
    r ← globusid_loop unparsed 0 false (Z.of_nat (length unparsed)) [];
    mret match r with None => DnNull | Some [] => DnRaw | Some s => DnStr s end.

(** ** Parsing a line *)

(** [*( dn_end - 1)], where [line] starts after the opening quote. *)
Definition before (line : list Z) (pos : nat) : Z := match pos with O => QUOTE | S pos => char_at line pos end.

(** The loop to the closing quote; [None]: it is missing. *)
Fixpoint quoted_end (n : nat) (line : list Z) (pos : nat) : result (option nat) :=
  match n with
  | O => Fault OutOfFuel
  | S n =>
      let pos := if before line pos =? BACKSLASH then (pos + 1)%nat else pos in
      let pos := (pos + strcspn (drop pos line) [QUOTE])%nat in
      if char_at line pos =? 0 then Ok None
      else if before line pos =? BACKSLASH then quoted_end n line pos
      else Ok (Some pos)
  end.

(** Where the name ends: the text of the name, and what follows its delimiter. *)
Definition split_dn (line : list Z) : result (option (list Z * list Z)) :=
  if char_at line 0 =? QUOTE then
    let line := tl line in
    r ← quoted_end (S (length line)) line 0;
    Ok match r with None => None | Some pos => Some (take pos line, drop (S pos) line) end
  else
    let pos := strcspn line WHITESPACE_CHARS in
    Ok (if char_at line pos =? 0 then None else Some (take pos line, drop (S pos) line)).

Fixpoint free_all (ids : list (list Z)) : cmd unit :=
  match ids with
  | [] => mret tt
  | _ :: ids => _ ← free; free_all ids
  end.

Definition free_ids (slots : Z) (ids : list (list Z)) : cmd unit :=
  if slots =? 0 then mret tt else _ ← free_all ids; free.

(** The loop over the accounts: the slots and the accounts, or [None] when memory runs
    out, and then they are freed. *)
Fixpoint userid_loop (n : nat) (line : list Z) (userid_slots : Z) (userids : list (list Z)) : cmd (option (Z * list (list Z))) :=
  match n with
  | O => lift (Fault OutOfFuel)
  | S n =>
      match line with
      | [] => mret (Some (userid_slots, userids))
      | _ =>
          let userid_len := strcspn line USERID_TERMINATOR_CHARS in
          let more := Z.of_nat (length userids) + 1 + 1 >? userid_slots in
          ok ← (if more then realloc (negb (userid_slots =? 0)) else mret true);
          if negb ok then _ ← free_ids userid_slots userids; mret None
          else
            let userid_slots := if more then userid_slots + USERID_CHUNK_SIZE else userid_slots in
            ok ← malloc;
            if negb ok then _ ← free_ids userid_slots userids; mret None
            else
              let rest := drop userid_len line in
              userid_loop n (drop (strspn rest USERID_TERMINATOR_CHARS) rest) userid_slots (userids ++ [take userid_len line])
      end
  end.

Definition free_dn (p : dn_ptr) : cmd unit := match p with DnNull => mret tt | _ => free end.

(** The status, and the line that was parsed; success without one is an empty line or
    a comment. *)
Definition globus_i_gss_assist_gridmap_parse_line (line : list Z) : cmd (status * option gridmap_line) :=
  let line := drop (strspn line WHITESPACE_CHARS) line in
  if (char_at line 0 =? COMMENT) || (char_at line 0 =? 0) then mret (SUCCESS, None)
  else
    r ← lift (split_dn line);
    match r with
    | None => mret (INVALID_GRIDMAP_FORMAT, None)
    | Some (name, rest) =>
        parsed_dn ← globus_i_gss_assist_gridmap_parse_globusid name;
        let line := drop (strspn rest WHITESPACE_CHARS) rest in
        r ← userid_loop (S (length line)) line 0 [];
        match r with
        | None => _ ← free_dn parsed_dn; mret (ERRNO, None)
        | Some (slots, ids) =>
            ok ← malloc;
            if negb ok then _ ← free_dn parsed_dn; _ ← free_ids slots ids; mret (ERRNO, None)
            else mret (SUCCESS, Some (GridmapLine parsed_dn (if slots =? 0 then None else Some ids)))
        end
    end.

Definition globus_i_gss_assist_gridmap_line_free (gline : option gridmap_line) : cmd unit :=
  match gline with
  | None => mret tt
  | Some g =>
      _ ← free_dn (dn g);
      _ ← (match user_ids g with Some ids => _ ← free_all ids; free | None => mret tt end);
      free
  end.

(** ** Searching the file *)

(** What opening the file gives: it has no name, it cannot be opened, or it is read. *)
Inductive gridmap_file := NoName | NoFile | File (st : stream).

Section file.
  Context (BUFSIZ : nat).

(** The loop of [find_dn]: the status and the line that was found. *)
Fixpoint find_dn_loop (n : nat) (name : list Z) (st : stream) : cmd (status * option gridmap_line) :=
  match n with
  | O => lift (Fault OutOfFuel)
  | S n =>
      '(rc, line, st) ← globus_l_gss_assist_read_line BUFSIZ st;
      match line with
      | Some line =>
          if negb (ok_status rc) then mret (rc, None)
          else
            '(rc, gline) ← globus_i_gss_assist_gridmap_parse_line (cstring line);
            if negb (ok_status rc) then _ ← free; find_dn_loop n name st
            else
              found ← (match gline with
                       | Some g => d ← lift (read_dn (dn g)); globus_i_gsi_cert_utils_dn_cmp name d
                       | None => mret false
                       end);
              if (found : bool) then _ ← free; mret (SUCCESS, gline)
              else _ ← globus_i_gss_assist_gridmap_line_free gline; _ ← free; find_dn_loop n name st
      | None => mret (rc, None)
      end
  end.

Definition globus_i_gss_assist_gridmap_find_dn (file : gridmap_file) (name : option (list Z)) : cmd (status * option gridmap_line) :=
  match name, file with
  | None, _ => mret (WITH_ARGUMENTS, None)
  | Some _, NoName => mret (WITH_GRIDMAP, None)
  | Some _, NoFile => mret (WITH_GRIDMAP, None)
  | Some name, File st => find_dn_loop (length (bytes st) + 2) name st
  end.

(** The loop over the accounts of a line in [find_local_user]: whether the default
    account is the one looked for, and the line saved for another account. *)
Fixpoint match_ids (local_user : list Z) (saved : option (list Z)) (ids : list (list Z)) (first : bool) (nondefault : option (list Z)) :
    cmd (bool * option (list Z)) :=
  match ids with
  | [] => mret (false, nondefault)
  | id :: ids =>
      if bool_decide (local_user = id) then
        if first then mret (true, nondefault)
        else
          nondefault ← (match nondefault with
                        | Some l => mret (Some l)
                        | None => l ← lift (deref saved); ok ← malloc; mret (if (ok : bool) then Some l else None)
                        end);
          match_ids local_user saved ids false nondefault
      else match_ids local_user saved ids false nondefault
  end.

Definition free_opt (l : option (list Z)) : cmd unit := match l with Some _ => free | None => mret tt end.

(** The loop of [find_local_user]: the status, the line whose default account it is,
    and the text of the first line with another account. *)
Fixpoint find_user_loop (n : nat) (local_user : list Z) (st : stream) (nondefault : option (list Z)) :
    cmd (status * option gridmap_line * option (list Z)) :=
  match n with
  | O => lift (Fault OutOfFuel)
  | S n =>
      '(rc, line, st) ← globus_l_gss_assist_read_line BUFSIZ st;
      match line with
      | Some line =>
          if negb (ok_status rc) then mret (rc, None, nondefault)
          else
            ok ← malloc;
            let save_line := if (ok : bool) then Some (cstring line) else None in
            '(rc, gline) ← globus_i_gss_assist_gridmap_parse_line (cstring line);
            match gline with
            | None => _ ← free; _ ← free_opt save_line; find_user_loop n local_user st nondefault
            | Some g =>
                '(found, nondefault) ← match_ids local_user save_line (default [] (user_ids g)) true nondefault;
                if (found : bool) then _ ← free; _ ← free_opt save_line; mret (SUCCESS, gline, nondefault)
                else
                  _ ← globus_i_gss_assist_gridmap_line_free gline; _ ← free; _ ← free_opt save_line;
                  find_user_loop n local_user st nondefault
            end
      | None => mret (rc, None, nondefault)
      end
  end.

Definition globus_i_gss_assist_gridmap_find_local_user (file : gridmap_file) (local_user : option (list Z)) :
    cmd (status * option gridmap_line) :=
  match local_user, file with
  | None, _ => mret (WITH_ARGUMENTS, None)
  | Some _, NoName => mret (WITH_GRIDMAP, None)
  | Some _, NoFile => mret (WITH_GRIDMAP, None)
  | Some local_user, File st =>
      '(rc, gline, nondefault) ← find_user_loop (length (bytes st) + 2) local_user st None;
      match nondefault with
      | Some l =>
          '(rc, gline) ← globus_i_gss_assist_gridmap_parse_line l;
          _ ← free;
          mret (rc, if ok_status rc then gline else None)
      | None => mret (rc, gline)
      end
  end.

(** ** The functions of the library

    What the directory of leased accounts answers. *)
Section lease.
  Context (dir_userid : list Z -> option (list Z) -> Z * option (list Z)) (dir_userok : list Z -> list Z -> Z)
          (dir_globusid : list Z -> Z * option (list Z)).

(** The string that the directory returned is a block of the caller. *)
Definition adopt (r : option (list Z)) : cmd unit := fun s => Ok (tt, CMem (live s + match r with Some _ => 1 | None => 0 end) (plan s)).

(** 0 or 1, and the account. *)
Definition globus_gss_assist_gridmap (file : gridmap_file) (ok : bool) (globusidp : option (list Z)) : cmd (Z * option (list Z)) :=
  match globusidp with
  | None => mret (1, None)
  | Some globusid =>
      if negb ok then mret (1, None)
      else
        '(rc, gline) ← globus_i_gss_assist_gridmap_find_dn file globusidp;
        match gline with
        | None => mret (1, None)
        | Some g =>
            match user_ids g with
            | Some (id :: _) =>
                ok ← malloc;
                _ ← globus_i_gss_assist_gridmap_line_free gline;
                if negb ok then mret (1, None)
                else if char_at id 0 =? 46 then
                  ok ← malloc;
                  _ ← free;
                  let r := dir_userid globusid (if (ok : bool) then Some (tl id) else None) in
                  _ ← (if (ok : bool) then free else mret tt);
                  _ ← adopt r.2;
                  mret r
                else mret (0, Some id)
            | _ => _ ← globus_i_gss_assist_gridmap_line_free gline; mret (1, None)
            end
        end
  end.

Definition globus_gss_assist_userok (file : gridmap_file) (globusid userid : option (list Z)) : cmd Z :=
  match globusid, userid with
  | Some name, Some user =>
      '(rc, gline) ← globus_i_gss_assist_gridmap_find_dn file globusid;
      match gline with
      | None => mret 1
      | Some g =>
          r ← (match user_ids g with
               | None => mret 1
               | Some ids =>
                   id ← lift (deref (head ids));
                   mret (if char_at id 0 =? 46 then dir_userok name user else if bool_decide (user ∈ ids) then 0 else 1)
               end);
          _ ← globus_i_gss_assist_gridmap_line_free gline;
          mret r
      end
  | _, _ => mret 1
  end.

(** 0 or 1, and the name; the directory is asked when the file has none. *)
Definition globus_gss_assist_map_local_user (file : gridmap_file) (ok : bool) (local_user : option (list Z)) : cmd (Z * option (list Z)) :=
  match local_user with
  | None => mret (1, None)
  | Some user =>
      if negb ok then mret (1, None)
      else
        '(rc, gline) ← globus_i_gss_assist_gridmap_find_local_user file local_user;
        match gline with
        | None => let r := dir_globusid user in _ ← adopt r.2; mret r
        | Some g =>
            match dn g with
            | DnNull => _ ← globus_i_gss_assist_gridmap_line_free gline; let r := dir_globusid user in _ ← adopt r.2; mret r
            | p =>
                d ← lift (read_dn p);
                ok ← malloc;
                _ ← globus_i_gss_assist_gridmap_line_free gline;
                if (ok : bool) then mret (0, Some d) else let r := dir_globusid user in _ ← adopt r.2; mret r
            end
        end
  end.

(** A line of [lookup_all_globusid]: its name is added when it lists the account, and
    the array grows when it is full. *)
Definition add_dn (username : list Z) (gline : option gridmap_line) (dns : list (option (list Z))) (max_ndx : nat) (block : bool) :
    cmd (list (option (list Z)) * nat * bool) :=
  match gline with
  | Some g =>
      if bool_decide (username ∈ default [] (user_ids g)) then
        d ← lift (read_dn (dn g));
        ok ← malloc;
        _ ← lift (deref (if block then Some tt else None));
        let dns := dns ++ [if (ok : bool) then Some d else None] in
        if (max_ndx <=? length dns)%nat then ok ← realloc true; mret (dns, (2 * max_ndx)%nat, ok)
        else mret (dns, max_ndx, block)
      else mret (dns, max_ndx, block)
  | None => mret (dns, max_ndx, block)
  end.

(** The loop of [lookup_all_globusid]: the status and the names found. *)
Fixpoint lookup_all_loop (n : nat) (username : list Z) (st : stream) (dns : list (option (list Z))) (max_ndx : nat) (block : bool) :
    cmd (status * list (option (list Z)) * bool) :=
  match n with
  | O => lift (Fault OutOfFuel)
  | S n =>
      '(rc, line, st) ← globus_l_gss_assist_read_line BUFSIZ st;
      match line with
      | Some line =>
          if negb (ok_status rc) then mret (rc, dns, block)
          else
            '(rc, gline) ← globus_i_gss_assist_gridmap_parse_line (cstring line);
            '(dns, max_ndx, block) ← add_dn username gline dns max_ndx block;
            _ ← globus_i_gss_assist_gridmap_line_free gline;
            _ ← free;
            if ends_line line then lookup_all_loop n username st dns max_ndx block else mret (rc, dns, block)
      | None => mret (rc, dns, block)
      end
  end.

Definition globus_gss_assist_lookup_all_globusid (file : gridmap_file) (ok : bool) (username : option (list Z)) :
    cmd (status * option (list (option (list Z)))) :=
  match username, file with
  | None, _ => mret (WITH_ARGUMENTS, None)
  | Some _, NoName => mret (if ok then WITH_GRIDMAP else WITH_ARGUMENTS, None)
  | Some _, NoFile => mret (if ok then WITH_GRIDMAP else WITH_ARGUMENTS, None)
  | Some username, File st =>
      if negb ok then mret (WITH_ARGUMENTS, None)
      else
        block ← malloc;
        '(rc, dns, block) ← lookup_all_loop (length (bytes st) + 2) username st [] 512 block;
        _ ← lift (deref (if (block : bool) then Some tt else None));
        mret (rc, Some dns)
  end.

(** ** Authorization

    [peer]: the name of the peer, from the GSS-API or its certificate, if it has one. *)
Definition globus_l_gss_assist_gridmap_lookup (file : gridmap_file) (peer desired_identity : option (list Z)) (identity_buffer_length : Z) :
    cmd (status * option (list Z)) :=
  match peer with
  | None => mret (ERRNO, None)
  | Some peer =>
      match desired_identity with
      | None =>
          '(rc, local_identity) ← globus_gss_assist_gridmap file true (Some peer);
          if negb (rc =? 0) then mret (LOOKUP_FAILED, None)
          else
            id ← lift (deref local_identity);
            _ ← free;
            if Z.of_nat (length id) + 1 >? identity_buffer_length then mret (BUFFER_TOO_SMALL, None) else mret (SUCCESS, Some id)
      | Some id =>
          rc ← globus_gss_assist_userok file (Some peer) (Some id);
          if negb (rc =? 0) then mret (LOOKUP_FAILED, None)
          else if Z.of_nat (length id) + 1 >? identity_buffer_length then mret (BUFFER_TOO_SMALL, None) else mret (SUCCESS, Some id)
      end
  end.
End lease.
End file.

(** ** Lines as text *)

Fixpoint escape (s : list Z) : list Z :=
  match s with
  | [] => []
  | c :: s => if (c =? QUOTE) || (c =? BACKSLASH) then BACKSLASH :: c :: escape s else c :: escape s
  end.

Fixpoint ids_text (ids : list (list Z)) : list Z :=
  match ids with
  | [] => [NL]
  | id :: ids => id ++ match ids with [] => [NL] | _ => 44 :: ids_text ids end
  end.

(** A line of a grid map file as an administrator writes it. *)
Definition line_text (name : list Z) (ids : list (list Z)) : list Z := QUOTE :: escape name ++ [QUOTE; 32] ++ ids_text ids.

Definition printable (c : Z) : Prop := 32 <= c <= 126.

(** Names that can be written: not empty, and not ending with a backslash. *)
Definition name_ok (name : list Z) : Prop := name <> [] /\ Forall printable name /\ last name <> Some BACKSLASH.
Definition id_ok (id : list Z) : Prop := id <> [] /\ Forall (fun c => in_set USERID_TERMINATOR_CHARS c = false /\ c <> 0) id.

Lemma span_first P s i c :
  s !! i = Some c -> P c = false -> (span P s <= i)%nat /\ exists d, s !! span P s = Some d /\ P d = false.
Proof.
  revert i. induction s as [|a s IH]; intros [|i]; cbn; try done.
  - intros [= ->] Hc. rewrite Hc. split; [done|]. by exists c.
  - intros Hi Hc. destruct (P a) eqn:E; [|split; [lia|]; by exists a]. destruct (IH i Hi Hc) as [? (d & ? & ?)]. split; [lia|]. by exists d.
Qed.

Definition quotes_escaped (e : list Z) : Prop := forall i, e !! i = Some QUOTE -> exists j, i = S j /\ e !! j = Some BACKSLASH.

Lemma escape_quotes s : quotes_escaped (escape s).
Proof.
  induction s as [|c s IH]; intros i; [done|]. cbn [escape]. destruct ((c =? QUOTE) || (c =? BACKSLASH)) eqn:E.
  - destruct i as [|[|i]]; cbn; [done|intros _; by exists 0%nat|]. intros (j & -> & Hj)%IH. exists (S (S j)). done.
  - destruct i as [|i]; cbn; [intros [= ->]; by vm_compute in E|]. intros (j & -> & Hj)%IH. exists (S j). done.
Qed.

Lemma last_cons_ne {A} (x : A) l : l <> [] -> last (x :: l) = last l.
Proof. by destruct l. Qed.

Lemma escape_ne s : s <> [] -> escape s <> [].
Proof. destruct s as [|c s]; [done|]. cbn [escape]. by destruct ((c =? QUOTE) || (c =? BACKSLASH)). Qed.

Lemma escape_last s : last s <> Some BACKSLASH -> last (escape s) <> Some BACKSLASH.
Proof.
  induction s as [|c s IH]; [done|]. cbn [escape]. destruct (decide (s = [])) as [->|Hne].
  - cbn. intros Hc. destruct ((c =? QUOTE) || (c =? BACKSLASH)); cbn; done.
  - rewrite (last_cons_ne c s Hne). intros H%IH. destruct ((c =? QUOTE) || (c =? BACKSLASH));
      rewrite ?(last_cons_ne BACKSLASH), (last_cons_ne c) by (done || by apply escape_ne); done.
Qed.

Lemma char_at_lookup s i c : s !! i = Some c -> char_at s i = c.
Proof. unfold char_at. revert i. induction s as [|a s IH]; intros [|i]; cbn; try done; [by intros [= ->]|apply IH]. Qed.

Lemma before_end e r : last e <> Some BACKSLASH -> before (e ++ r) (length e) <> BACKSLASH.
Proof.
  destruct e as [|a e] using rev_ind; [done|]. rewrite last_snoc, length_app, Nat.add_1_r. cbn [before]. intros H.
  rewrite (char_at_lookup _ _ a); [by intros ->|]. rewrite <- app_assoc. by apply list_lookup_middle.
Qed.

Lemma quoted_end_print n e rest pos :
  quotes_escaped e -> last e <> Some BACKSLASH -> (length e - pos < n)%nat ->
  (pos = 0 \/ e !! pos = Some QUOTE)%nat -> (pos <= length e)%nat ->
  quoted_end n (e ++ QUOTE :: rest) pos = Ok (Some (length e)).
Proof.
  intros He Hl. revert pos. induction n as [|n IH]; intros pos Hn Hpos Hle; [lia|]. cbn [quoted_end].
  set (line := e ++ QUOTE :: rest). set (p' := if before line pos =? BACKSLASH then (pos + 1)%nat else pos).
  assert (pos <= p' <= length e)%nat as Hp'.
  { subst p'. destruct Hpos as [->|Hq]; [cbn; lia|]. apply lookup_lt_Some in Hq. destruct (before line pos =? BACKSLASH); lia. }
  destruct (span_first (fun c => negb (in_set [QUOTE] c)) (drop p' line) (length e - p') QUOTE) as (Hs & d & Hd & Pd).
  { rewrite lookup_drop. replace (p' + (length e - p'))%nat with (length e) by lia. by apply list_lookup_middle. }
  { done. }
  unfold strcspn. set (k := span _ (drop p' line)) in *. rewrite lookup_drop in Hd.
  assert (d = QUOTE) as -> by (cbn in Pd; rewrite orb_false_r, negb_false_iff, Z.eqb_eq in Pd; done).
  rewrite (char_at_lookup _ _ _ Hd). change (QUOTE =? 0) with false. cbv iota.
  destruct (decide (p' + k = length e)%nat) as [E|E].
  - rewrite E. rewrite (proj2 (Z.eqb_neq _ _)) by (by apply before_end). done.
  - assert (e !! (p' + k)%nat = Some QUOTE) as Hq by (rewrite <- Hd; unfold line; rewrite lookup_app_l; [done|lia]).
    destruct (He _ Hq) as (j & Ej & Hj). rewrite Ej. cbn [before].
    rewrite (char_at_lookup line j BACKSLASH) by (unfold line; rewrite lookup_app_l; [done|apply lookup_lt_Some in Hj; lia]).
    change (BACKSLASH =? BACKSLASH) with true. cbv iota. rewrite <- Ej. apply IH; [|by right|lia].
    assert (pos < p' + k)%nat; [|lia]. destruct Hpos as [->|Hq0]; [lia|].
    destruct (He _ Hq0) as (j0 & -> & Hj0). assert (p' = S j0 + 1)%nat; [|lia]. subst p'. cbn [before].
    rewrite (char_at_lookup line j0 BACKSLASH) by (unfold line; rewrite lookup_app_l; [done|apply lookup_lt_Some in Hj0; lia]). done.
Qed.

(** ** Parsing what was written *)

Lemma gives_realloc held : gives (realloc held) true (if held then 0 else 1).
Proof. unfold realloc. gmalloc. destruct held; cbn [andb]; cbv iota; [gfree; gret|eapply gives_step; [apply gives_ret|cbv beta; gret]]. Qed.

Lemma grow_gives n i len :
  1 <= len -> i + 5 - len < Z.of_nat n -> (0 < n)%nat -> exists len', i + 4 < len' /\ gives (grow n i len) (Some len') 0.
Proof.
  revert len. induction n as [|n IH]; intros len Hl Hn H0; [lia|]. cbn [grow]. destruct (Z.leb_spec len (i + 4)) as [H|H].
  - destruct (IH (len * 2)) as (len' & Hlen & Hg); [lia|lia|lia|]. exists len'. split; [done|].
    eapply gives_step; [apply (gives_realloc true)|cbv beta iota]. cbn [negb]. cbv iota. eapply gives_eq; [exact Hg|lia].
  - exists len. split; [lia|apply gives_ret].
Qed.

(** A character that is taken as it is. *)
Lemma globusid_char c rest len buf escaped :
  printable c -> (c = BACKSLASH -> escaped = true) -> (c = 120 -> escaped = false) -> 1 <= len ->
  exists len', 1 <= len' /\ forall r d, gives (globusid_loop rest 0 false len' (buf ++ [c])) r d ->
    gives (globusid_loop (c :: rest) 0 escaped len buf) r d.
Proof.
  intros Hp Hb Hx Hl. destruct (grow_gives (length buf + 6) (Z.of_nat (length buf)) len) as (len' & Hlen & Hg); [lia..|].
  exists len'. split; [lia|]. intros r d Hr. cbn [globusid_loop].
  assert ((c =? BACKSLASH) && negb escaped = false) as -> by (destruct (Z.eqb_spec c BACKSLASH) as [E|]; [by rewrite Hb|done]).
  assert ((c =? 120) && escaped = false) as -> by (destruct (Z.eqb_spec c 120) as [E|]; [by rewrite Hx|done]). cbn [andb]. cbv iota zeta.
  eapply gives_step; [exact Hg|cbv beta iota].
  assert (shown c = [c]) as -> by (unfold shown; unfold printable in Hp; zdecide; done).
  eapply gives_step; [apply gives_lift, sprintf_at_ok; rewrite length_app; cbn [length]; lia|cbv beta]. eapply gives_eq; [exact Hr|lia].
Qed.

Lemma globusid_print name len buf :
  Forall printable name -> 1 <= len -> gives (globusid_loop (escape name) 0 false len buf) (Some (buf ++ name)) 0.
Proof.
  intros Hn. revert len buf. induction Hn as [|c name Hc Hn IH]; intros len buf Hl; [rewrite app_nil_r; apply gives_ret|].
  cbn [escape]. rewrite snoc_cons. destruct ((c =? QUOTE) || (c =? BACKSLASH)) eqn:E.
  - destruct (globusid_char c (escape name) len buf true) as (len' & Hl' & Hg); [done|done|by intros ->|done|].
    cbn [globusid_loop]. change ((BACKSLASH =? BACKSLASH) && negb false) with true. cbv iota. by apply Hg, IH.
  - apply orb_false_elim in E as [_ E]. apply Z.eqb_neq in E.
    destruct (globusid_char c (escape name) len buf false) as (len' & Hl' & Hg); [done|done|done|done|]. by apply Hg, IH.
Qed.

Lemma parse_globusid_print name :
  name_ok name -> gives (globus_i_gss_assist_gridmap_parse_globusid (escape name)) (DnStr name) 1.
Proof.
  intros (Hne & Hp & _). unfold globus_i_gss_assist_gridmap_parse_globusid. gmalloc.
  eapply gives_step; [apply globusid_print; [done|]|cbv beta].
  - pose proof (escape_ne name Hne). destruct (escape name); [done|cbn [length]; lia].
  - cbn [app]. destruct name; [done|]. gret.
Qed.

Lemma strcspn_app s r set : Forall (fun c => in_set set c = false) s -> in_set set (char_at r 0) = true -> strcspn (s ++ r) set = length s.
Proof.
  intros Hs Hr. apply span_app; [|left; by rewrite Hr]. eapply Forall_impl; [exact Hs|]. by intros c ->.
Qed.

Lemma id_terminator id : id_ok id -> Forall (fun c => in_set USERID_TERMINATOR_CHARS c = false) id.
Proof. intros [_ H]. eapply Forall_impl; [exact H|]. by intros c [? _]. Qed.

Lemma id_head id r : id_ok id -> strspn (id ++ r) USERID_TERMINATOR_CHARS = 0%nat.
Proof.
  intros Hid. assert (Hne : id <> []) by (by destruct Hid). apply id_terminator in Hid. destruct id as [|c id]; [done|].
  apply Forall_cons in Hid as [Hc _]. unfold strspn. cbn [span app]. by rewrite Hc.
Qed.

(** Accounts in the array and slots for them: the array is NULL, or has room for them
    and the NULL at its end. *)
Definition slots_ok (slots : Z) (ids : list (list Z)) : Prop :=
  (slots = 0 /\ ids = []) \/ (4 <= slots /\ Z.of_nat (length ids) + 1 <= slots).

(** One account. *)
Lemma userid_step n id c r slots ids :
  id_ok id -> in_set USERID_TERMINATOR_CHARS c = true -> strspn r USERID_TERMINATOR_CHARS = 0%nat -> slots_ok slots ids ->
  exists slots', 4 <= slots' /\ slots_ok slots' (ids ++ [id]) /\
    forall res d, gives (userid_loop n r slots' (ids ++ [id])) res d ->
      gives (userid_loop (S n) (id ++ c :: r) slots ids) res (d + 1 + if slots =? 0 then 1 else 0).
Proof.
  intros Hid Hc Hr Hs. cbn [userid_loop]. destruct (id ++ c :: r) as [|x l] eqn:E; [by destruct id|]. rewrite <- E. clear E x l.
  rewrite strcspn_app by (done || by apply id_terminator). cbv zeta. rewrite drop_app_length, take_app_length.
  assert (strspn (c :: r) USERID_TERMINATOR_CHARS = 1%nat) as -> by (unfold strspn in *; cbn [span]; by rewrite Hc, Hr). cbn [drop].
  rewrite Z.gtb_ltb. destruct (Z.ltb_spec slots (Z.of_nat (length ids) + 1 + 1)) as [H|H].
  - exists (slots + USERID_CHUNK_SIZE). unfold USERID_CHUNK_SIZE.
    split_and!; [destruct Hs as [[-> ->]|[? ?]]; lia|right; rewrite length_app; destruct Hs as [[-> ->]|[? ?]]; cbn [length]; lia|].
    intros res d Hg. eapply (gives_step _ _ true _ (if slots =? 0 then 1 else 0)).
    { eapply gives_eq; [apply gives_realloc|]. by destruct (slots =? 0). }
    cbv beta iota. cbn [negb]. cbv iota. gmalloc. eapply gives_eq; [exact Hg|lia].
  - destruct Hs as [[-> ->]|[Hs1 Hs2]]; [cbn in H; lia|]. exists slots. split_and!; [done|right; rewrite length_app; cbn [length]; lia|].
    intros res d Hg. eapply gives_step; [apply gives_ret|cbv beta iota]. cbn [negb]. cbv iota. gmalloc.
    eapply gives_eq; [exact Hg|]. rewrite (proj2 (Z.eqb_neq slots 0)) by lia. lia.
Qed.

Lemma userid_loop_print ids slots done n :
  Forall id_ok ids -> ids <> [] -> slots_ok slots done -> (length ids < n)%nat ->
  exists slots', 4 <= slots' /\
    gives (userid_loop n (ids_text ids) slots done) (Some (slots', done ++ ids)) (Z.of_nat (length ids) + if slots =? 0 then 1 else 0).
Proof.
  intros Hids. revert slots done n. induction Hids as [|id ids Hid Hids IH]; intros slots dn [|n] Hne Hs Hn; try (cbn in Hn; lia); [done|].
  cbn [ids_text]. destruct ids as [|id2 ids].
  - destruct (userid_step n id NL [] slots dn) as (slots' & H4 & Hs' & Hg); [done..|]. exists slots'. split; [done|].
    eapply gives_eq; [apply Hg|]; [|cbn [length]]. 2:{ instantiate (1 := 0). lia. }
    destruct n as [|n]; [cbn in Hn; lia|]. apply gives_ret.
  - assert (Hid2 : id_ok id2) by (by apply Forall_cons in Hids as [? _]).
    destruct (userid_step n id 44 (ids_text (id2 :: ids)) slots dn) as (slots' & H4 & Hs' & Hg); [done|done|by apply id_head|done|].
    destruct (IH slots' (dn ++ [id]) n) as (slots'' & H4' & Hg'); [done|done|cbn in *; lia|]. exists slots''. split; [done|].
    eapply gives_eq; [apply Hg; rewrite (snoc_cons dn id (id2 :: ids)); exact Hg'|]. rewrite (proj2 (Z.eqb_neq slots' 0)) by lia. cbn [length]. lia.
Qed.

(** The blocks of a line: the name, the array, the accounts and the structure. *)
Definition line_blocks (ids : list (list Z)) : Z := Z.of_nat (length ids) + 3.

Lemma parse_line_print name ids :
  name_ok name -> Forall id_ok ids -> ids <> [] ->
  gives (globus_i_gss_assist_gridmap_parse_line (line_text name ids))
    (SUCCESS, Some (GridmapLine (DnStr name) (Some ids))) (line_blocks ids).
Proof.
  intros Hn Hids Hne. unfold globus_i_gss_assist_gridmap_parse_line.
  change (strspn (line_text name ids) WHITESPACE_CHARS) with 0%nat. rewrite drop_0.
  change ((char_at (line_text name ids) 0 =? COMMENT) || (char_at (line_text name ids) 0 =? 0)) with false. cbv iota zeta.
  eapply (gives_step _ _ (Some (escape name, 32 :: ids_text ids)) _ 0).
  { apply gives_lift. unfold split_dn, line_text. change (char_at (QUOTE :: _) 0 =? QUOTE) with true. cbv iota zeta.
    change (tl (QUOTE :: escape name ++ [QUOTE; 32] ++ ids_text ids)) with (escape name ++ QUOTE :: 32 :: ids_text ids).
    rewrite quoted_end_print; [|apply escape_quotes|by apply escape_last, Hn|rewrite length_app; lia|by left|lia].
    cbn [mbind result_bind]. rewrite take_app_length. replace (S (length (escape name))) with (length (escape name) + 1)%nat by lia.
    by rewrite drop_app_add. }
  cbv beta iota. eapply gives_step; [by apply parse_globusid_print|cbv beta iota zeta].
  assert (strspn (32 :: ids_text ids) WHITESPACE_CHARS = 1%nat) as ->.
  { unfold strspn. cbn [span]. change (in_set WHITESPACE_CHARS 32) with true. cbv iota. f_equal. destruct ids as [|id ids]; [done|].
    apply Forall_cons in Hids as [Hid _]. pose proof (id_terminator id Hid) as Ht. assert (Hidne : id <> []) by (by destruct Hid).
    destruct id as [|c id]; [done|]. apply Forall_cons in Ht as [Hc _]. cbn [ids_text app span].
    assert (in_set WHITESPACE_CHARS c = false) as ->; [|done]. unfold USERID_TERMINATOR_CHARS, in_set in Hc. cbn [existsb] in Hc.
    apply orb_false_elim in Hc as [_ Hc]. exact Hc. }
  cbn [drop]. destruct (userid_loop_print ids 0 [] (S (length (ids_text ids)))) as (slots & Hs & Hg); [done|done|by left| |].
  { assert (forall l, (length l <= length (ids_text l))%nat) as L; [|specialize (L ids); lia].
    intros l. induction l as [|id l IH]; [cbn; lia|]. cbn [ids_text length]. rewrite length_app. destruct l; cbn [length] in *; lia. }
  eapply gives_step; [exact Hg|cbv beta iota]. gmalloc. rewrite (proj2 (Z.eqb_neq slots 0)) by lia. cbn [app].
  eapply gives_eq; [apply gives_ret|]. unfold line_blocks. cbn. lia.
Qed.

(** ** Reading the file *)

Definition no_nl (s : list Z) : Prop := Forall (fun c => c <> NL) s.

Lemma getc_loop_line room l rest buf :
  no_nl l ->
  getc_loop room (l ++ NL :: rest) buf =
    if (length l <? room)%nat then (buf ++ l ++ [NL], rest, if (room =? S (length l))%nat then Full else Newline)
    else (buf ++ take room l, drop room l ++ NL :: rest, Full).
Proof.
  intros Hl. revert room buf. induction Hl as [|c l Hc Hl IH]; intros [|room] buf.
  - cbn. by rewrite app_nil_r.
  - cbn [app getc_loop length]. change (NL =? NL) with true. cbv iota. destruct room; done.
  - cbn. by rewrite app_nil_r.
  - apply Z.eqb_neq in Hc. cbn [app getc_loop length take drop]. rewrite Hc, IH.
    change (S (length l) <? S room)%nat with (length l <? room)%nat. change (S room =? S (S (length l)))%nat with (room =? S (length l))%nat.
    by rewrite <- !(snoc_cons buf).
Qed.

Lemma ends_line_snoc b c : ends_line (b ++ [c]) = (c =? NL).
Proof. unfold ends_line. by rewrite last_snoc. Qed.

Lemma ends_line_no b : no_nl b -> ends_line b = false.
Proof. intros Hb. destruct b as [|c b] using rev_ind; [done|]. rewrite ends_line_snoc. apply Forall_app in Hb as [_ Hb]. apply Forall_cons in Hb as [Hc _]. by apply Z.eqb_neq. Qed.

Section reading.
  Context (BUFSIZ : nat) (HB : (2 <= BUFSIZ)%nat).

Lemma read_loop_line n l rest size buf :
  no_nl l -> no_nl buf -> (size = 0 /\ buf = [] \/ size = length buf + 1 /\ 0 < size)%nat -> (length l < n)%nat ->
  gives (read_loop BUFSIZ n (Stream (l ++ NL :: rest) false) size buf)
    (SUCCESS, Some (buf ++ l ++ [NL]), Stream rest false) (if (size =? 0)%nat then 1 else 0).
Proof.
  revert l size buf. induction n as [|n IH]; intros l size buf Hl Hb Hsize Hn; [lia|]. cbn [read_loop].
  eapply (gives_step _ _ true _ (if (size =? 0)%nat then 1 else 0)).
  { eapply gives_eq; [apply gives_realloc|]. by destruct (size =? 0)%nat. }
  cbv beta iota. cbn [negb]. cbv iota zeta. cbn [bytes bad]. rewrite getc_loop_line by done.
  set (room := (size + BUFSIZ - length buf - 1)%nat). assert (1 <= room)%nat as Hroom by (subst room; destruct Hsize as [[-> ->]|[-> ?]]; cbn; lia).
  destruct (Nat.ltb_spec (length l) room) as [H|H].
  - destruct (room =? S (length l))%nat; [rewrite app_assoc, ends_line_snoc|]; gret.
  - cbv iota. rewrite ends_line_no by (apply Forall_app; split; [done|by apply Forall_take]). cbv iota.
    assert (0 < size + BUFSIZ)%nat by lia.
    assert (buf ++ l ++ [NL] = (buf ++ take room l) ++ drop room l ++ [NL]) as ->
      by (rewrite <- app_assoc, (app_assoc (take room l)), take_drop; done).
    eapply gives_eq; [apply (IH (drop room l))|].
    + by apply Forall_drop.
    + apply Forall_app. split; [done|by apply Forall_take].
    + right. rewrite length_app, length_take. subst room. destruct Hsize as [[-> ->]|[-> ?]]; cbn [length] in *; lia.
    + rewrite length_drop. lia.
    + rewrite (proj2 (Nat.eqb_neq (size + BUFSIZ) 0)) by lia. lia.
Qed.

Lemma read_line_line l rest :
  no_nl l -> gives (globus_l_gss_assist_read_line BUFSIZ (Stream (l ++ NL :: rest) false)) (SUCCESS, Some (l ++ [NL]), Stream rest false) 1.
Proof.
  intros Hl. unfold globus_l_gss_assist_read_line. apply (read_loop_line _ l rest 0 []); [done|constructor|by left|].
  cbn [bytes]. rewrite length_app. lia.
Qed.

Lemma read_line_eof : gives (globus_l_gss_assist_read_line BUFSIZ (Stream [] false)) (SUCCESS, None, Stream [] false) 0.
Proof.
  unfold globus_l_gss_assist_read_line. cbn [bytes length Nat.add read_loop].
  eapply gives_step; [apply (gives_realloc false)|cbv beta iota]. cbn [negb bytes bad]. cbv iota zeta.
  assert (forall room, (0 < room)%nat -> getc_loop room [] [] = ([], [], End)) as -> by (intros [|room] H; [lia|done] || lia).
  2:{ cbn. lia. }
  cbv iota. cbn [bad length Nat.eqb]. cbv iota. gfree. gret.
Qed.

(** A file of entries: names, each with its accounts. *)
Definition file_text (es : list (list Z * list (list Z))) : list Z := concat ((fun '(name, ids) => line_text name ids) <$> es).

Definition entry_ok (e : list Z * list (list Z)) : Prop := name_ok e.1 /\ Forall id_ok e.2 /\ e.2 <> [].

Lemma escape_Forall (P : Z -> Prop) s : P BACKSLASH -> Forall P s -> Forall P (escape s).
Proof. intros Hb. induction 1 as [|c s Hc Hs IH]; [constructor|]. cbn [escape]. destruct ((c =? QUOTE) || (c =? BACKSLASH)); by repeat constructor. Qed.

(** The line without its newline has neither a newline nor a NUL. *)
Lemma line_text_clean e :
  entry_ok e -> exists l, line_text e.1 e.2 = l ++ [NL] /\ Forall (fun c => c <> NL /\ c <> 0) l.
Proof.
  destruct e as [name ids]. intros ((_ & Hn & _) & Hids & Hne). cbn [fst snd] in *.
  assert (exists l, ids_text ids = l ++ [NL] /\ Forall (fun c => c <> NL /\ c <> 0) l) as (l & El & Hl).
  { clear Hn. induction Hids as [|id ids [Hid Hc] Hids IH]; [done|]. cbn [ids_text].
    assert (Forall (fun c => c <> NL /\ c <> 0) id) as Hi.
    { eapply Forall_impl; [exact Hc|]. intros c [Ht H0]. split; [|done]. intros ->. by vm_compute in Ht. }
    destruct ids as [|id2 ids]; [by exists id|]. destruct IH as (l & -> & Hl); [done|]. exists (id ++ 44 :: l). split; [by rewrite <- app_assoc|].
    apply Forall_app. split; [done|]. by constructor. }
  exists (QUOTE :: escape name ++ [QUOTE; 32] ++ l). split.
  - unfold line_text. rewrite El. cbn [app]. by rewrite <- app_assoc.
  - constructor; [done|]. apply Forall_app. split.
    + apply escape_Forall; [done|]. eapply Forall_impl; [exact Hn|]. unfold printable, NL. lia.
    + by repeat constructor.
Qed.

(** Reading and parsing one line of such a file. *)
Lemma next_line e es :
  entry_ok e ->
  gives (globus_l_gss_assist_read_line BUFSIZ (Stream (file_text (e :: es)) false))
    (SUCCESS, Some (line_text e.1 e.2), Stream (file_text es) false) 1 /\
  gives (globus_i_gss_assist_gridmap_parse_line (cstring (line_text e.1 e.2)))
    (SUCCESS, Some (GridmapLine (DnStr e.1) (Some e.2))) (line_blocks e.2).
Proof.
  intros He. destruct (line_text_clean e He) as (l & E & Hl). split.
  - unfold file_text. destruct e as [name ids]. cbn [fmap list_fmap concat fst snd] in *. rewrite E, <- app_assoc. apply read_line_line.
    eapply Forall_impl; [exact Hl|]. by intros c [? _].
  - rewrite cstring_id.
    + destruct He as (? & ? & ?). by apply parse_line_print.
    + rewrite E. apply Forall_app. split; [|by repeat constructor]. eapply Forall_impl; [exact Hl|]. by intros c [_ ?].
Qed.

Lemma free_all_gives ids : gives (free_all ids) tt (- Z.of_nat (length ids)).
Proof. induction ids as [|id ids IH]; [apply gives_ret|]. cbn [free_all length]. gfree. eapply gives_eq; [exact IH|lia]. Qed.

Lemma line_free_gives name ids :
  gives (globus_i_gss_assist_gridmap_line_free (Some (GridmapLine (DnStr name) (Some ids)))) tt (- line_blocks ids).
Proof.
  unfold globus_i_gss_assist_gridmap_line_free. cbn [dn user_ids free_dn]. gfree.
  eapply (gives_step _ _ tt _ (- Z.of_nat (length ids) - 1)).
  { eapply gives_step; [apply free_all_gives|cbv beta]. eapply gives_eq; [apply gives_free|lia]. }
  cbv beta. eapply gives_eq; [apply gives_free|]. unfold line_blocks. lia.
Qed.

(** Specification: the entry for a name is the first with the same name. *)
Definition entry_for (name : list Z) (es : list (list Z * list (list Z))) : option (list Z * list (list Z)) :=
  head (filter (fun e => same_dn name e.1) es).

Definition gline_of (e : list Z * list (list Z)) : gridmap_line := GridmapLine (DnStr e.1) (Some e.2).

Lemma find_dn_loop_print n name es :
  Forall entry_ok es -> (length es < n)%nat ->
  gives (find_dn_loop BUFSIZ n name (Stream (file_text es) false))
    (SUCCESS, gline_of <$> entry_for name es) (match entry_for name es with Some e => line_blocks e.2 | None => 0 end).
Proof.
  intros Hes. revert n. induction Hes as [|e es He Hes IH]; intros [|n] Hn; try (cbn in Hn; lia); cbn [find_dn_loop].
  - eapply gives_step; [apply read_line_eof|cbv beta iota]. apply gives_ret.
  - destruct (next_line e es He) as [Hr Hp]. eapply gives_step; [exact Hr|cbv beta iota]. cbn [ok_status negb]. cbv iota.
    eapply gives_step; [exact Hp|cbv beta iota]. cbn [ok_status negb dn]. cbv iota.
    eapply (gives_step _ _ (bool_decide (same_dn name e.1)) _ 0).
    { eapply gives_step; [by apply gives_lift|cbv beta]. eapply gives_eq; [apply dn_cmp_gives|lia]. }
    cbv beta. unfold entry_for. rewrite filter_cons. destruct (decide (same_dn name e.1)) as [D|D].
    + rewrite bool_decide_true by done. gfree. cbn [head fmap option_fmap option_map]. gret.
    + rewrite bool_decide_false by done. eapply gives_step; [apply line_free_gives|cbv beta]. gfree.
      eapply gives_eq; [apply IH; cbn in Hn; lia|]. unfold entry_for. lia.
Qed.

Lemma file_text_length es : Forall entry_ok es -> (length es <= length (file_text es))%nat.
Proof.
  induction 1 as [|[name ids] es He Hes IH]; [done|].
  change (file_text ((name, ids) :: es)) with (line_text name ids ++ file_text es). rewrite length_app. unfold line_text. cbn [length]. lia.
Qed.

Lemma find_dn_print name es :
  Forall entry_ok es ->
  gives (globus_i_gss_assist_gridmap_find_dn BUFSIZ (File (Stream (file_text es) false)) (Some name))
    (SUCCESS, gline_of <$> entry_for name es) (match entry_for name es with Some e => line_blocks e.2 | None => 0 end).
Proof.
  intros Hes. apply find_dn_loop_print; [done|]. pose proof (file_text_length es Hes). cbn [bytes]. lia.
Qed.

(** ** Authorization *)

Section authorization.
  Context (dir_userid : list Z -> option (list Z) -> Z * option (list Z)) (dir_userok : list Z -> list Z -> Z)
          (dir_globusid : list Z -> Z * option (list Z)).

Definition leased (id : list Z) : bool := char_at id 0 =? 46.

(** Specification: the accounts a name may use, and its default account. *)
Definition may_use (es : list (list Z * list (list Z))) (name user : list Z) : bool :=
  match entry_for name es with
  | Some (_, id :: ids) => if leased id then dir_userok name user =? 0 else bool_decide (user ∈ id :: ids)
  | _ => false
  end.

Definition default_account (es : list (list Z * list (list Z))) (name : list Z) : option (list Z) :=
  match entry_for name es with
  | Some (_, id :: _) => if leased id then let '(rc, r) := dir_userid name (Some (tl id)) in if rc =? 0 then r else None else Some id
  | _ => None
  end.

Lemma adopt_gives r : gives (adopt r) tt (match r with Some _ => 1 | None => 0 end).
Proof. intros st Hst. eexists. split_and!; [done|done|done]. Qed.

Lemma entry_for_ok name es e : Forall entry_ok es -> entry_for name es = Some e -> entry_ok e.
Proof.
  intros Hes He. unfold entry_for in He. rewrite Forall_forall in Hes. apply Hes.
  destruct (filter (fun e => same_dn name e.1) es) as [|x l] eqn:F; [done|]. injection He as ->.
  apply (list_elem_of_filter (fun e => same_dn name e.1)). rewrite F. by left.
Qed.

Lemma userok_print es name user :
  Forall entry_ok es ->
  gives (globus_gss_assist_userok BUFSIZ dir_userok (File (Stream (file_text es) false)) (Some name) (Some user))
    (match entry_for name es with
     | Some (_, id :: ids) => if leased id then dir_userok name user else if bool_decide (user ∈ id :: ids) then 0 else 1
     | _ => 1
     end) 0.
Proof.
  intros Hes. unfold globus_gss_assist_userok. eapply gives_step; [by apply find_dn_print|cbv beta iota].
  destruct (entry_for name es) as [[d ids]|] eqn:E; cbn [fmap option_fmap option_map]; [|gret].
  destruct (entry_for_ok _ _ _ Hes E) as (_ & _ & Hne). cbn [snd] in Hne. destruct ids as [|id ids]; [done|].
  unfold gline_of. cbn [user_ids fst snd].
  set (r := if leased id then dir_userok name user else if bool_decide (user ∈ id :: ids) then 0 else 1).
  eapply (gives_step _ _ r _ 0); [apply (gives_step _ _ id _ 0); [by apply gives_lift|cbv beta; gret]|].
  cbv beta. eapply gives_step; [apply line_free_gives|cbv beta]. gret.
Qed.

Lemma gridmap_print es name :
  Forall entry_ok es ->
  gives (globus_gss_assist_gridmap BUFSIZ dir_userid (File (Stream (file_text es) false)) true (Some name))
    (match entry_for name es with
     | Some (_, id :: _) => if leased id then dir_userid name (Some (tl id)) else (0, Some id)
     | _ => (1, None)
     end)
    (match entry_for name es with
     | Some (_, id :: _) => if leased id then match (dir_userid name (Some (tl id))).2 with Some _ => 1 | None => 0 end else 1
     | _ => 0
     end).
Proof.
  intros Hes. unfold globus_gss_assist_gridmap. cbn [negb]. cbv iota. eapply gives_step; [by apply find_dn_print|cbv beta iota].
  destruct (entry_for name es) as [[d ids]|] eqn:E; cbn [fmap option_fmap option_map]; [|gret].
  destruct (entry_for_ok _ _ _ Hes E) as (_ & _ & Hne). cbn [snd] in Hne. destruct ids as [|id ids]; [done|].
  unfold gline_of. cbn [user_ids fst snd]. gmalloc. eapply gives_step; [apply line_free_gives|cbv beta]. fold (leased id).
  destruct (leased id); [|gret]. gmalloc. gfree. gfree.
  eapply gives_step; [apply adopt_gives|cbv beta]. gret.
Qed.

(** C7: The grid map file decides who may use which account: for a file of any
    entries, written with quoted names, the lookup grants an account that is asked for
    exactly when it is among those of the first entry with the name of the peer, and
    the default account when none is asked for; every other outcome is an error, and
    no block stays allocated. What the directory of leases says is respected. *)
Theorem authorization_correct es peer desired len :
  Forall entry_ok es ->
  (forall n p, (dir_userid n p).1 = 0 <-> is_Some (dir_userid n p).2) ->
  let granted := match desired with
                 | Some user => if may_use es peer user then Some user else None
                 | None => default_account es peer
                 end in
  gives (globus_l_gss_assist_gridmap_lookup BUFSIZ dir_userid dir_userok (File (Stream (file_text es) false)) (Some peer) desired len)
    (match granted with
     | Some id => if Z.of_nat (length id) + 1 >? len then (BUFFER_TOO_SMALL, None) else (SUCCESS, Some id)
     | None => (LOOKUP_FAILED, None)
     end) 0.
Proof.
  intros Hes Hdir granted. unfold globus_l_gss_assist_gridmap_lookup. subst granted. destruct desired as [user|].
  - eapply gives_step; [by apply userok_print|cbv beta]. unfold may_use. destruct (entry_for peer es) as [[d [|id ids]]|]; [gret| |gret].
    destruct (leased id).
    + destruct (dir_userok peer user =? 0); cbn [negb]; cbv iota; [|gret]. destruct (Z.of_nat (length user) + 1 >? len); gret.
    + destruct (bool_decide (user ∈ id :: ids)); cbn [Z.eqb Pos.eqb negb]; cbv iota; [|gret]. destruct (Z.of_nat (length user) + 1 >? len); gret.
  - eapply gives_step; [by apply gridmap_print|cbv beta]. unfold default_account. destruct (entry_for peer es) as [[d [|id ids]]|]; [gret| |gret].
    destruct (leased id).
    + specialize (Hdir peer (Some (tl id))). destruct (dir_userid peer (Some (tl id))) as [rc r]. cbn [fst snd] in *. cbv iota.
      destruct (Z.eqb_spec rc 0) as [->|Hrc]; cbn [negb]; cbv iota.
      * destruct r as [r|]; [|destruct Hdir as [[? [=]] _]; done]. eapply gives_step; [by apply gives_lift|cbv beta]. gfree.
        destruct (Z.of_nat (length r) + 1 >? len); gret.
      * destruct r as [r|]; [destruct Hdir as [_ Hd]; exfalso; apply Hrc, Hd; eauto|]. gret.
    + cbn [Z.eqb negb]. cbv iota. eapply gives_step; [by apply gives_lift|cbv beta]. gfree. destruct (Z.of_nat (length id) + 1 >? len); gret.
Qed.
End authorization.

(** ** From accounts to names *)

Definition default_of (user : list Z) (e : list Z * list (list Z)) : Prop := head e.2 = Some user.
Definition other_of (user : list Z) (e : list Z * list (list Z)) : Prop := user ∈ tl e.2.

#[local] Instance default_of_dec user e : Decision (default_of user e).
Proof. unfold default_of. apply _. Defined.
#[local] Instance other_of_dec user e : Decision (other_of user e).
Proof. unfold other_of. apply _. Defined.

(** What the loop finds: the entry that ends it and the first entry it saved. *)
Fixpoint scan_user (user : list Z) (es : list (list Z * list (list Z))) (saved : option (list Z * list (list Z))) :
    option (list Z * list (list Z)) * option (list Z * list (list Z)) :=
  match es with
  | [] => (None, saved)
  | e :: es =>
      if decide (default_of user e) then (Some e, saved)
      else scan_user user es (match saved with Some _ => saved | None => if decide (other_of user e) then Some e else None end)
  end.

Definition text_of (e : list Z * list (list Z)) : list Z := line_text e.1 e.2.
Definition one {A} (o : option A) : Z := match o with Some _ => 1 | None => 0 end.

Lemma match_ids_rest user l ids nd :
  gives (match_ids user (Some l) ids false nd)
    (false, match nd with Some _ => nd | None => if decide (user ∈ ids) then Some l else None end)
    (one (match nd with Some _ => nd | None => if decide (user ∈ ids) then Some l else None end) - one nd).
Proof.
  revert nd. induction ids as [|id ids IH]; intros nd; cbn [match_ids].
  - rewrite decide_False by (intros H; inversion H). destruct nd; gret.
  - destruct (decide (user = id)) as [->|Hne].
    + rewrite bool_decide_true by done. destruct nd as [x|].
      * eapply gives_step; [apply gives_ret|cbv beta]. eapply gives_eq; [apply IH|cbn [one]; lia].
      * rewrite decide_True by (by left). eapply (gives_step _ _ (Some l) _ 1).
        { eapply gives_step; [by apply gives_lift|cbv beta]. gmalloc. gret. }
        cbv beta. eapply gives_eq; [apply IH|cbn; lia].
    + rewrite bool_decide_false by done. destruct (decide (user ∈ ids)) as [D|D].
      * rewrite (decide_True (P := user ∈ id :: ids)) by (by right). apply IH.
      * rewrite (decide_False (P := user ∈ id :: ids)) by (by intros [?|?]%elem_of_cons). apply IH.
Qed.

Lemma match_ids_line user l e nd :
  e.2 <> [] ->
  gives (match_ids user (Some l) e.2 true nd)
    (if decide (default_of user e) then (true, nd)
     else (false, match nd with Some _ => nd | None => if decide (other_of user e) then Some l else None end))
    (if decide (default_of user e) then 0
     else one (match nd with Some _ => nd | None => if decide (other_of user e) then Some l else None end) - one nd).
Proof.
  destruct e as [name [|id ids]]; [done|]. intros _. cbn [snd match_ids]. destruct (decide (default_of user (name, id :: ids))) as [D|D].
  - injection D as ->. rewrite bool_decide_true by done. apply gives_ret.
  - rewrite bool_decide_false by (intros ->; by apply D). pose proof (match_ids_rest user l ids nd) as H. unfold other_of. cbn [snd tl].
    destruct (decide (user ∈ ids)); exact H.
Qed.

Lemma find_user_loop_print n user es saved :
  Forall entry_ok es -> (length es < n)%nat ->
  gives (find_user_loop BUFSIZ n user (Stream (file_text es) false) (text_of <$> saved))
    (SUCCESS, gline_of <$> (scan_user user es saved).1, text_of <$> (scan_user user es saved).2)
    (match (scan_user user es saved).1 with Some e => line_blocks e.2 | None => 0 end + one (scan_user user es saved).2 - one saved).
Proof.
  intros Hes. revert n saved. induction Hes as [|e es He Hes IH]; intros [|n] saved Hn; try (cbn in Hn; lia); cbn [find_user_loop scan_user].
  - eapply gives_step; [apply read_line_eof|cbv beta iota]. cbn [fst snd fmap option_fmap option_map]. gret.
  - destruct (next_line e es He) as [Hr Hp]. eapply gives_step; [exact Hr|cbv beta iota]. cbn [ok_status negb]. cbv iota. gmalloc. cbv zeta.
    eapply gives_step; [exact Hp|cbv beta iota]. cbn [user_ids default]. destruct He as (Hnm & Hids & Hne).
    assert (cstring (line_text e.1 e.2) = text_of e) as ->.
    { destruct (line_text_clean e) as (l & E & Hl); [done|]. unfold text_of. apply cstring_id. rewrite E. apply Forall_app.
      split; [|by repeat constructor]. eapply Forall_impl; [exact Hl|]. by intros c [_ ?]. }
    eapply gives_step; [by apply match_ids_line|]. destruct (decide (default_of user e)) as [D|D]; cbv beta iota; cbn [free_opt fst snd].
    + gfree. gfree. cbn [fmap option_fmap option_map]. gret.
    + eapply gives_step; [apply line_free_gives|cbv beta]. gfree. gfree.
      set (saved' := match saved with Some _ => saved | None => if decide (other_of user e) then Some e else None end).
      assert (match text_of <$> saved with Some _ => text_of <$> saved | None => if decide (other_of user e) then Some (text_of e) else None end
              = text_of <$> saved') as ->.
      { subst saved'. destruct saved; [done|]. by destruct (decide (other_of user e)). }
      eapply gives_eq; [apply IH; cbn in Hn; lia|].
      assert (forall o : option (list Z * list (list Z)), one (text_of <$> o) = one o) as -> by (by intros []).
      assert (forall o : option (list Z * list (list Z)), one (text_of <$> o) = one o) as -> by (by intros []). lia.
Qed.

(** Specification: the first entry that lists an account, and the first whose default
    account it is. *)
Definition first_listing (user : list Z) (es : list (list Z * list (list Z))) : option (list Z * list (list Z)) :=
  head (filter (fun e => user ∈ e.2) es).
Definition first_default (user : list Z) (es : list (list Z * list (list Z))) : option (list Z * list (list Z)) :=
  head (filter (default_of user) es).

Lemma listing_cases user e : e.2 <> [] -> user ∈ e.2 <-> default_of user e \/ other_of user e.
Proof.
  destruct e as [name [|id ids]]; [done|]. intros _. unfold default_of, other_of. cbn [snd head tl]. rewrite elem_of_cons. naive_solver.
Qed.

Lemma scan_user_saved user es e : scan_user user es (Some e) = (first_default user es, Some e).
Proof.
  induction es as [|x es IH]; [done|]. cbn [scan_user]. unfold first_default. rewrite filter_cons.
  destruct (decide (default_of user x)); [done|]. apply IH.
Qed.

Lemma scan_user_none user es :
  Forall entry_ok es ->
  exists saved, scan_user user es None = (first_default user es, saved) /\
    first_listing user es = match saved with Some _ => saved | None => first_default user es end.
Proof.
  induction 1 as [|e es (_ & _ & Hne) Hes IH]; [by exists None|]. cbn [scan_user]. unfold first_default, first_listing. rewrite !filter_cons.
  pose proof (listing_cases user e Hne) as Hl. destruct (decide (default_of user e)) as [D|D].
  - exists None. split; [done|]. by rewrite decide_True by (apply Hl; by left).
  - destruct (decide (other_of user e)) as [O|O].
    + exists (Some e). rewrite scan_user_saved. split; [done|]. by rewrite decide_True by (apply Hl; by right).
    + destruct IH as (saved & -> & E). exists saved. split; [done|]. rewrite decide_False by (intros [?|?]%Hl; done). exact E.
Qed.

Lemma scan_user_keeps user es e : Forall entry_ok es -> (scan_user user es None).2 = Some e -> ~ default_of user e.
Proof.
  induction 1 as [|x es _ Hes IH]; [done|]. cbn [scan_user]. destruct (decide (default_of user x)) as [D|D]; [done|].
  destruct (decide (other_of user x)); [|done]. rewrite scan_user_saved. by intros [= <-].
Qed.

Lemma first_default_is user es d : first_default user es = Some d -> default_of user d.
Proof.
  unfold first_default. destruct (filter (default_of user) es) as [|x l] eqn:F; [done|]. intros [= <-].
  apply (list_elem_of_filter (default_of user) es x). rewrite F. by left.
Qed.

Lemma first_listing_ok user es e : Forall entry_ok es -> first_listing user es = Some e -> entry_ok e.
Proof.
  intros Hes He. unfold first_listing in He. rewrite Forall_forall in Hes. apply Hes.
  destruct (filter (fun e => user ∈ e.2) es) as [|x l] eqn:F; [done|]. injection He as ->.
  apply (list_elem_of_filter (fun e => user ∈ e.2)). rewrite F. by left.
Qed.

(** The line of the default account that is found and then forgotten. *)
Definition forgotten (user : list Z) (es : list (list Z * list (list Z))) : Z :=
  match first_listing user es, first_default user es with
  | Some e, Some d => if decide (default_of user e) then 0 else line_blocks d.2
  | _, _ => 0
  end.

Lemma find_local_user_print user es :
  Forall entry_ok es ->
  gives (globus_i_gss_assist_gridmap_find_local_user BUFSIZ (File (Stream (file_text es) false)) (Some user))
    (SUCCESS, gline_of <$> first_listing user es)
    (match first_listing user es with Some e => line_blocks e.2 | None => 0 end + forgotten user es).
Proof.
  intros Hes. unfold globus_i_gss_assist_gridmap_find_local_user, forgotten. pose proof (file_text_length es Hes).
  eapply gives_step; [apply (find_user_loop_print _ user es None); [done|cbn [bytes]; lia]|].
  destruct (scan_user_none user es Hes) as (saved & E & Ef). rewrite E, Ef in *. cbn [fst snd]. cbv beta iota.
  destruct saved as [e|]; cbn [fmap option_fmap option_map one].
  - destruct (first_listing_ok user es e Hes Ef) as (Hn & Hi & Hne).
    eapply gives_step; [by apply parse_line_print|cbv beta iota]. gfree. cbn [ok_status]. cbv iota.
    destruct (first_default user es); [|gret]. rewrite decide_False by (apply (scan_user_keeps user es); [done|by rewrite E]). gret.
  - destruct (first_default user es) as [d|] eqn:D; [|gret]. rewrite decide_True; [gret|]. by apply (first_default_is user es).
Qed.

(** The name an account is mapped to, for a file of any entries: it is the name of
    the first entry that lists the account, whether as the default or as another one,
    and the directory of leases is asked when there is none. An entry further on that
    has it as its default account is not preferred, though it is looked for, and the
    line of that entry is then lost with its blocks. *)
Theorem map_local_user_correct dir_globusid es user :
  Forall entry_ok es ->
  gives (globus_gss_assist_map_local_user BUFSIZ dir_globusid (File (Stream (file_text es) false)) true (Some user))
    (match first_listing user es with Some e => (0, Some e.1) | None => dir_globusid user end)
    (match first_listing user es with Some _ => 1 | None => one (dir_globusid user).2 end + forgotten user es).
Proof.
  intros Hes. unfold globus_gss_assist_map_local_user. cbn [negb]. cbv iota.
  eapply gives_step; [by apply find_local_user_print|cbv beta iota]. destruct (first_listing user es) as [e|] eqn:E; cbn [fmap option_fmap option_map].
  - unfold gline_of. cbn [dn]. cbv iota. eapply gives_step; [by apply gives_lift|cbv beta]. gmalloc.
    eapply gives_step; [apply line_free_gives|cbv beta]. gret.
  - eapply gives_step; [apply adopt_gives|cbv beta]. unfold one. gret.
Qed.
(** ** All the names of an account *)

Definition names_of (user : list Z) (es : list (list Z * list (list Z))) : list (option (list Z)) :=
  (fun e => Some e.1) <$> filter (fun e => user ∈ e.2) es.

Lemma line_text_ends e : entry_ok e -> ends_line (line_text e.1 e.2) = true.
Proof. intros (l & -> & _)%line_text_clean. unfold ends_line. by rewrite last_snoc. Qed.

Lemma add_dn_gives user e dns k :
  exists k', gives (add_dn user (Some (gline_of e)) dns k true)
    (if decide (user ∈ e.2) then dns ++ [Some e.1] else dns, k', true) (if decide (user ∈ e.2) then 1 else 0).
Proof.
  unfold add_dn, gline_of. cbn [user_ids default dn]. destruct (decide (user ∈ e.2)) as [D|D].
  - rewrite bool_decide_true by done. destruct (k <=? length (dns ++ [Some e.1]))%nat eqn:E; [exists (2 * k)%nat|exists k];
      (eapply gives_step; [by apply gives_lift|cbv beta]; gmalloc; eapply gives_step; [by apply gives_lift|cbv beta zeta]; rewrite E).
    + eapply gives_step; [apply (gives_realloc true)|cbv beta]. gret.
    + gret.
  - rewrite bool_decide_false by done. exists k. apply gives_ret.
Qed.

Lemma lookup_all_loop_print n user es dns k :
  Forall entry_ok es -> (length es < n)%nat ->
  gives (lookup_all_loop BUFSIZ n user (Stream (file_text es) false) dns k true)
    (SUCCESS, dns ++ names_of user es, true) (Z.of_nat (length (names_of user es))).
Proof.
  intros Hes. revert n dns k. induction Hes as [|e es He Hes IH]; intros [|n] dns k Hn; try (cbn in Hn; lia); cbn [lookup_all_loop].
  - eapply gives_step; [apply read_line_eof|cbv beta iota]. rewrite app_nil_r. apply gives_ret.
  - destruct (next_line e es He) as [Hr Hp]. eapply gives_step; [exact Hr|cbv beta iota]. cbn [ok_status negb]. cbv iota.
    eapply gives_step; [exact Hp|cbv beta iota]. destruct (add_dn_gives user e dns k) as [k' Hk].
    eapply gives_step; [exact Hk|cbv beta iota]. eapply gives_step; [apply line_free_gives|cbv beta]. gfree.
    rewrite line_text_ends by done. unfold names_of. rewrite filter_cons. destruct (decide (user ∈ e.2)) as [D|D].
    + rewrite fmap_cons, (snoc_cons dns (Some e.1) ((fun e => Some e.1) <$> _)). eapply gives_eq; [apply IH; cbn in Hn; lia|]. unfold names_of. cbn [length]. lia.
    + eapply gives_eq; [apply IH; cbn in Hn; lia|]. unfold names_of. lia.
Qed.

(** Looking up an account finds the names of all the entries that list it, in the
    order of the file and however many they are: the array grows as needed. The
    array and the copies of the names are all that stays allocated. *)
Theorem lookup_all_correct es user :
  Forall entry_ok es ->
  gives (globus_gss_assist_lookup_all_globusid BUFSIZ (File (Stream (file_text es) false)) true (Some user))
    (SUCCESS, Some (names_of user es)) (1 + Z.of_nat (length (names_of user es))).
Proof.
  intros Hes. unfold globus_gss_assist_lookup_all_globusid. cbn [negb]. cbv iota. gmalloc. pose proof (file_text_length es Hes).
  eapply gives_step; [apply lookup_all_loop_print; [done|cbn [bytes]; lia]|cbv beta iota]. eapply gives_step; [by apply gives_lift|cbv beta]. gret.
Qed.
End reading.

(** Two entries, one with a leased account. *)
Definition sample : list (list Z * list (list Z)) :=
  [(codes "/O=Grid/CN=Ann Lee", [codes "ann"; codes "grid"]); (codes "/O=Grid/CN=Bob", [codes "bob"]); (codes "/O=Grid/CN=Pool", [codes ".pool"]);
   (codes "/O=Grid/CN=Shared", [codes "grid"])].

Lemma sample_ok : Forall entry_ok sample.
Proof. unfold sample, entry_ok, name_ok, id_ok, printable. repeat constructor; try done; try (by intros [=]). Qed.

Lemma authorization_witness :
  gives (globus_l_gss_assist_gridmap_lookup 64 (fun _ _ => (1, None)) (fun _ _ => 1) (File (Stream (file_text sample) false))
          (Some (codes "/O=Grid/CN=Ann Lee")) (Some (codes "grid")) 64) (SUCCESS, Some (codes "grid")) 0 /\
  gives (globus_l_gss_assist_gridmap_lookup 64 (fun _ _ => (1, None)) (fun _ _ => 1) (File (Stream (file_text sample) false))
          (Some (codes "/O=Grid/CN=Bob")) (Some (codes "grid")) 64) (LOOKUP_FAILED, None) 0.
Proof.
  split.
  - pose proof (authorization_correct 64 ltac:(lia) (fun _ _ => (1, None)) (fun _ _ => 1) sample (codes "/O=Grid/CN=Ann Lee")
      (Some (codes "grid")) 64 sample_ok ltac:(intros n p; split; [done|by intros [? [=]]])) as H. exact H.
  - pose proof (authorization_correct 64 ltac:(lia) (fun _ _ => (1, None)) (fun _ _ => 1) sample (codes "/O=Grid/CN=Bob")
      (Some (codes "grid")) 64 sample_ok ltac:(intros n p; split; [done|by intros [? [=]]])) as H. exact H.
Defined.

(** [grid] is the default account of the last entry, and mapped to the first. *)
Lemma map_local_user_witness :
  gives (globus_gss_assist_map_local_user 64 (fun _ => (1, None)) (File (Stream (file_text sample) false)) true (Some (codes "grid")))
    (0, Some (codes "/O=Grid/CN=Ann Lee")) 5.
Proof. pose proof (map_local_user_correct 64 ltac:(lia) (fun _ => (1, None)) sample (codes "grid") sample_ok) as H. exact H. Defined.

Lemma lookup_all_witness :
  gives (globus_gss_assist_lookup_all_globusid 64 (File (Stream (file_text sample) false)) true (Some (codes "grid")))
    (SUCCESS, Some [Some (codes "/O=Grid/CN=Ann Lee"); Some (codes "/O=Grid/CN=Shared")]) 3.
Proof. pose proof (lookup_all_correct 64 ltac:(lia) sample (codes "grid") sample_ok) as H. exact H. Defined.
End Gridmap.
