(* ===== verification/GridmapDir.v ===== *)
(** * Leased accounts (gsi/gss_assist/source/gridmap.c, the gridmapdir functions)

    The directory named by GRIDMAPDIR has a file for each account that can be leased. A
    lease is another link to the file of the account, whose name is the encoded name of
    its holder. The directory is the list of its names with their inodes, in the order
    [readdir] gives them; all the links of a file are in the directory, it has no
    subdirectories, and the times that [utime] sets are not modelled. The functions are
    first modelled as they run alone, then as the system calls of processes that run at
    the same time. Characters are bytes; [char] is signed. *)
From S2P Require Import Prelude.
From S2P Require Import Chars.
From S2P Require Import Stdio.
From S2P Require Import CertName.
From S2P Require Import Gridmap.
Local Open Scope Z_scope.

Module GridmapDir.
Import CertName.

Definition dir : Type := list (list Z * Z).

(** GRIDMAPDIR is not set, names no directory, or names one. *)
Inductive gridmapdir := NoEnv | NoDir | Dir (d : dir).

(** [stat]: the inode of a name, and the number of links of an inode. *)
Definition inode (d : dir) (name : list Z) : option Z := snd <$> head (filter (fun e => e.1 = name) d).
Definition nlink (d : dir) (i : Z) : Z := Z.of_nat (length (filter (fun e => e.2 = i) d)).
Definition unlink (d : dir) (name : list Z) : dir := filter (fun e => e.1 <> name) d.

(** ** Names of files *)

Definition PERCENT : Z := 37.
Definition hexlower (n : Z) : Z := nth (Z.to_nat n) (codes "0123456789abcdef") 0.

(** What [%02x] prints for a [char]. *)
Definition hex_text (c : Z) : list Z :=
  (if c <? 128 then [] else codes "ffffff") ++ [hexlower (Z.land (Z.shiftr c 4) 15); hexlower (Z.land c 15)].

(** The loop of [gridmapdir_urlencode], in a block of [cap] bytes; [encoded] are the bytes
    before [encodedchar]. *)
Fixpoint urlencode_loop (cap : Z) (rawstring encoded : list Z) : result (list Z) :=
  match rawstring with
  | [] => _ ← sprintf_at cap encoded []; Ok encoded
  | c :: rawstring =>
      if isalnum c then
        if Z.of_nat (length encoded) <? cap then urlencode_loop cap rawstring (encoded ++ [tolower c]) else Fault OutOfBounds
      else
        _ ← sprintf_at cap encoded (PERCENT :: hex_text c);
        urlencode_loop cap rawstring (encoded ++ take 3 (PERCENT :: hex_text c))
  end.

Definition gridmapdir_urlencode (rawstring : list Z) : cmd (option (list Z)) :=
  ok ← malloc;
  if negb ok then mret None
  else
    encoded ← lift (urlencode_loop (3 * Z.of_nat (length rawstring) + 1) rawstring []);
    mret (Some encoded).

(** ** The directory *)

(** The loop over the directory in [gridmapdir_otherlink]. *)
Fixpoint otherlink_loop (d : dir) (firstlink : list Z) (firstinode : Z) (entries : dir) : cmd (option (list Z)) :=
  match entries with
  | [] => mret None
  | (d_name, _) :: entries =>
      if bool_decide (d_name = firstlink) then otherlink_loop d firstlink firstinode entries
      else
        _ ← must_malloc;
        if bool_decide (inode d d_name = Some firstinode) then
          _ ← free;
          ok ← malloc;
          mret (if (ok : bool) then Some d_name else None)
        else _ ← free; otherlink_loop d firstlink firstinode entries
  end.

Definition gridmapdir_otherlink (g : gridmapdir) (firstlink : list Z) : cmd (option (list Z)) :=
  match g with
  | NoEnv => mret None
  | NoDir => _ ← must_malloc; _ ← free; mret None
  | Dir d =>
      _ ← must_malloc;
      _ ← free;
      match inode d firstlink with
      | None => mret None
      | Some firstinode =>
          if negb (nlink d firstinode =? 2) then mret None
          else otherlink_loop d firstlink firstinode d
      end
  end.

(** Names that [gridmapdir_newlease] takes for accounts. *)
Definition acceptable (usernameprefix d_name : list Z) : bool :=
  negb ((char_at d_name 0 =? PERCENT) || bool_decide (d_name = codes "root")) && negb (char_at d_name 0 =? 46) &&
  negb (in_set d_name 126) && bool_decide (take (length usernameprefix) d_name = usernameprefix).

(** The loop over the directory in [gridmapdir_newlease]. The link count of a file that
    is gone would be read from a structure that [stat] did not set: [OutOfBounds]. *)
Fixpoint newlease_loop (d : dir) (encoded usernameprefix : list Z) (entries : dir) : cmd dir :=
  match entries with
  | [] => _ ← free; mret d
  | (d_name, _) :: entries =>
      if negb (acceptable usernameprefix d_name) then newlease_loop d encoded usernameprefix entries
      else
        _ ← must_malloc;
        match inode d d_name with
        | Some i =>
            if nlink d i =? 1 then
              _ ← free;
              match inode d encoded with
              | Some _ => _ ← free; mret d
              | None =>
                  let d' := d ++ [(encoded, i)] in
                  if nlink d' i >? 2 then newlease_loop (unlink d' encoded) encoded usernameprefix entries
                  else _ ← free; mret d'
              end
            else _ ← free; newlease_loop d encoded usernameprefix entries
        | None => lift (Fault OutOfBounds)
        end
  end.

Definition gridmapdir_newlease (g : gridmapdir) (encodedglobusidp : list Z) (usernameprefix : option (list Z)) : cmd gridmapdir :=
  match g with
  | NoEnv => mret NoEnv
  | NoDir => _ ← must_malloc; lift (Fault NullDeref)
  | Dir d =>
      _ ← must_malloc;
      usernameprefix ← lift (deref usernameprefix);
      d ← newlease_loop d encodedglobusidp usernameprefix d;
      mret (Dir d)
  end.

(** 0 or 1, the account, and the directory afterwards. *)
Definition gridmapdir_userid (g : gridmapdir) (globusidp : list Z) (usernameprefix : option (list Z)) :
    cmd (Z * option (list Z) * gridmapdir) :=
  match g with
  | NoEnv => mret (1, None, g)
  | _ =>
      if negb (char_at globusidp 0 =? SLASH) then mret (1, None, g)
      else
        encoded ← gridmapdir_urlencode globusidp;
        encoded ← lift (deref encoded);
        userid ← gridmapdir_otherlink g encoded;
        match userid with
        | Some u => _ ← free; mret (0, Some u, g)
        | None =>
            g ← gridmapdir_newlease g encoded usernameprefix;
            userid ← gridmapdir_otherlink g encoded;
            _ ← free;
            mret (match userid with Some u => (0, Some u, g) | None => (1, None, g) end)
        end
  end.

(** The loop of [gridmapdir_globusid], in a block of [cap] bytes. *)
Fixpoint globusid_decode (cap : Z) (encoded : list Z) (skip : nat) (decoded : list Z) : result (list Z) :=
  match encoded with
  | [] => Ok decoded
  | c :: encoded =>
      match skip with
      | S skip => globusid_decode cap encoded skip decoded
      | O =>
          let put v skip := if Z.of_nat (length decoded) <? cap then globusid_decode cap encoded skip (decoded ++ [v]) else Fault OutOfBounds in
          if negb (c =? PERCENT) then put c 0%nat
          else
            match encoded with
            | h :: l :: _ => put (uwrap 8 (Gridmap.globus_i_gss_assist_xdigit_to_value h * 16 + Gridmap.globus_i_gss_assist_xdigit_to_value l)) 2%nat
            | _ => Ok decoded
            end
      end
  end.

Definition gridmapdir_globusid (g : gridmapdir) (useridp : list Z) : cmd (Z * option (list Z)) :=
  if char_at useridp 0 =? SLASH then mret (1, None)
  else
    encoded ← gridmapdir_otherlink g useridp;
    match encoded with
    | None => mret (1, None)
    | Some encoded =>
        _ ← must_malloc;
        let cap := Z.of_nat (length encoded) in
        decoded ← lift (globusid_decode cap encoded 0 []);
        _ ← free;
        decoded ← lift (sprintf_at cap decoded []);
        mret (0, Some decoded)
    end.

(** 0 when the account is the one leased to the name. *)
Definition gridmapdir_userok (g : gridmapdir) (globusidp userid : list Z) : cmd Z :=
  if negb (char_at globusidp 0 =? SLASH) then mret 1
  else
    encoded ← gridmapdir_urlencode globusidp;
    encoded ← lift (deref encoded);
    leasedname ← gridmapdir_otherlink g encoded;
    _ ← free;
    match leasedname with
    | None => mret 1
    | Some leasedname => _ ← free; mret (if bool_decide (userid = leasedname) then 0 else 1)
    end.

(** ** Encoding *)

Definition ascii (c : Z) : Prop := 0 < c < 128.

(** Specification: the name of the file of a lease. *)
Definition encode_char (c : Z) : list Z :=
  if isalnum c then [tolower c] else [PERCENT; hexlower (Z.land (Z.shiftr c 4) 15); hexlower (Z.land c 15)].
Definition encode (s : list Z) : list Z := concat (encode_char <$> s).

Lemma encode_cons c s : encode (c :: s) = encode_char c ++ encode s.
Proof. done. Qed.

(** A property of the characters is checked on each of them. *)
Lemma ascii_all (P : Z -> bool) : forallb P (Z.of_nat <$> seq 0 128) = true -> forall c, ascii c -> P c = true.
Proof.
  intros H c Hc. rewrite forallb_forall in H. apply H, base.list_elem_of_In, list_elem_of_fmap.
  exists (Z.to_nat c). unfold ascii in Hc. split; [lia|]. apply elem_of_seq. lia.
Qed.

Lemma encode_char_length c : (length (encode_char c) <= 3)%nat.
Proof. unfold encode_char. destruct (isalnum c); cbn; lia. Qed.

Lemma urlencode_loop_ok cap s buf :
  Forall ascii s -> Z.of_nat (length buf) + 3 * Z.of_nat (length s) + 1 <= cap ->
  urlencode_loop cap s buf = Ok (buf ++ encode s).
Proof.
  intros Hs. revert buf. induction Hs as [|c s Hc Hs IH]; intros buf Hcap; cbn [urlencode_loop].
  - rewrite app_nil_r. cbn in Hcap. rewrite sprintf_at_ok by (rewrite app_nil_r; lia). done.
  - rewrite encode_cons, app_assoc. cbn [length] in Hcap. unfold encode_char, hex_text.
    rewrite (proj2 (Z.ltb_lt c 128)) by (unfold ascii in Hc; lia). cbn [app]. destruct (isalnum c).
    + rewrite (proj2 (Z.ltb_lt _ _)) by lia. apply IH. rewrite length_app. cbn [length]. lia.
    + rewrite sprintf_at_ok by (rewrite length_app; cbn [length]; lia). apply IH. rewrite length_app. cbn [take length]. lia.
Qed.

Lemma urlencode_gives s : Forall ascii s -> gives (gridmapdir_urlencode s) (Some (encode s)) 1.
Proof.
  intros Hs. unfold gridmapdir_urlencode. gmalloc.
  eapply gives_step; [apply gives_lift, urlencode_loop_ok; [done|cbn [length]; lia]|cbv beta]. gret.
Qed.

Lemma hex_value c :
  ascii c -> uwrap 8 (Gridmap.globus_i_gss_assist_xdigit_to_value (hexlower (Z.land (Z.shiftr c 4) 15)) * 16 +
                      Gridmap.globus_i_gss_assist_xdigit_to_value (hexlower (Z.land c 15))) = c.
Proof.
  intros Hc. apply Z.eqb_eq. revert c Hc. apply (ascii_all (fun c => _ =? c)). by vm_compute.
Qed.

Lemma lower_other c : isalnum c = false -> tolower c = c.
Proof. unfold isalnum, isalpha, tolower. by destruct (isupper c). Qed.

Lemma alnum_kept c : isalnum c = true -> (tolower c =? PERCENT) = false.
Proof. unfold isalnum, isalpha, isdigit, isupper, islower, tolower, isupper, PERCENT. zcase; done. Qed.

Lemma globusid_decode_encode cap s dec :
  Forall ascii s -> Z.of_nat (length dec) + Z.of_nat (length s) <= cap -> globusid_decode cap (encode s) 0 dec = Ok (dec ++ lower s).
Proof.
  intros Hs. revert dec. induction Hs as [|c s Hc Hs IH]; intros dec Hcap; [by rewrite app_nil_r|].
  rewrite encode_cons. unfold encode_char. cbn [length] in Hcap. unfold lower. rewrite fmap_cons, (snoc_cons dec).
  destruct (isalnum c) eqn:E; cbn [app globusid_decode].
  - rewrite alnum_kept by done. cbn [negb]. cbv iota. rewrite (proj2 (Z.ltb_lt _ _)) by lia. apply IH. rewrite length_app. cbn [length]. lia.
  - change (PERCENT =? PERCENT) with true. cbn [negb]. cbv iota. rewrite (proj2 (Z.ltb_lt _ _)) by lia.
    rewrite hex_value, lower_other by done. apply IH. rewrite length_app. cbn [length]. lia.
Qed.

Lemma encode_lower s : Forall ascii s -> encode (lower s) = encode s.
Proof.
  induction 1 as [|c s Hc Hs IH]; [done|]. unfold lower in *. rewrite fmap_cons, !encode_cons, IH. f_equal.
  apply (bool_decide_unpack _), Is_true_true. revert c Hc. apply (ascii_all (fun c => bool_decide (encode_char (tolower c) = encode_char c))). by vm_compute.
Qed.

(** Two names have the same lease file exactly when they differ in case only, for
    names of ASCII characters. *)
Lemma encode_same s t : Forall ascii s -> Forall ascii t -> encode s = encode t <-> lower s = lower t.
Proof.
  intros Hs Ht. split; intros E; [|by rewrite <- (encode_lower s), E, encode_lower].
  pose proof (globusid_decode_encode (Z.max (Z.of_nat (length s)) (Z.of_nat (length t))) s [] Hs ltac:(cbn [length]; lia)) as Ds.
  pose proof (globusid_decode_encode (Z.max (Z.of_nat (length s)) (Z.of_nat (length t))) t [] Ht ltac:(cbn [length]; lia)) as Dt.
  rewrite E, Dt in Ds. by injection Ds.
Qed.

(** ** Well-formed directories *)

Definition is_lease (name : list Z) : Prop := char_at name 0 = PERCENT.

#[export] Instance is_lease_dec name : Decision (is_lease name).
Proof. unfold is_lease. apply _. Defined.

(** A file has one account and at most one lease. *)
Record wf (d : dir) : Prop := {
  wf_names : NoDup d.*1;
  wf_one : forall n1 n2 i, (n1, i) ∈ d -> (n2, i) ∈ d -> (is_lease n1 <-> is_lease n2) -> n1 = n2;
  wf_owner : forall n i, (n, i) ∈ d -> is_lease n -> exists u, ~ is_lease u /\ (u, i) ∈ d }.

Lemma head_filter_Some {A} (P : A -> Prop) `{!forall x, Decision (P x)} l x : head (filter P l) = Some x -> P x /\ x ∈ l.
Proof. intros Hh. apply (list_elem_of_filter P l x). destruct (filter P l) as [|y l']; [done|]. injection Hh as ->. by left. Qed.

Lemma head_filter_None {A} (P : A -> Prop) `{!forall x, Decision (P x)} l : head (filter P l) = None -> Forall (fun x => ~ P x) l.
Proof.
  intros Hh. apply Forall_forall. intros x Hx HP. assert (x ∈ filter P l) as Hf by (by apply list_elem_of_filter).
  destruct (filter P l); [by apply not_elem_of_nil in Hf|done].
Qed.

Lemma names_inj (d : dir) n i j : NoDup d.*1 -> (n, i) ∈ d -> (n, j) ∈ d -> i = j.
Proof.
  induction d as [|[m k] d IH]; [intros _ H; by apply not_elem_of_nil in H|]. rewrite fmap_cons, NoDup_cons, !elem_of_cons.
  intros [Hm Hd] Hi Hj. assert (forall x, (m, x) ∉ d) as Hno.
  { intros x Hx. apply Hm. apply list_elem_of_fmap. by exists (m, x). }
  destruct Hi as [[= -> ->]|Hi], Hj as [Hj|Hj]; [by injection Hj| |injection Hj as -> ->|by apply IH]; by destruct (Hno _ ltac:(eassumption)).
Qed.

Lemma inode_Some d n i : NoDup d.*1 -> inode d n = Some i <-> (n, i) ∈ d.
Proof.
  intros Hd. unfold inode. split.
  - destruct (head _) as [[m j]|] eqn:E; [|done]. intros [= ->]. by apply head_filter_Some in E as [[= ->] ?].
  - intros Hi. destruct (head _) as [[m j]|] eqn:E.
    + apply head_filter_Some in E as [[= ->] Hj]. cbn. f_equal. by apply (names_inj d n).
    + apply head_filter_None in E. rewrite Forall_forall in E. by destruct (E _ Hi).
Qed.

Lemma inode_None d n : NoDup d.*1 -> inode d n = None <-> n ∉ d.*1.
Proof.
  intros Hd. destruct (inode d n) as [i|] eqn:E.
  - apply inode_Some in E; [|done]. split; [done|]. intros []. apply list_elem_of_fmap. by exists (n, i).
  - split; [|done]. intros _ ([m i] & -> & Hi)%list_elem_of_fmap. apply inode_Some in Hi; [|done]. cbn in E. by rewrite E in Hi.
Qed.

Lemma NoDup_names (d : dir) : NoDup d.*1 -> NoDup d.
Proof. apply NoDup_fmap_1. Qed.

Lemma NoDup_subseteq_names (d d' : dir) : NoDup d.*1 -> d' `sublist_of` d -> NoDup d'.*1.
Proof. intros Hd Hs. eapply sublist_NoDup; [exact Hd|]. by apply fmap_sublist. Qed.

Lemma nlink_one d n i : NoDup d -> (n, i) ∈ d -> (forall m, (m, i) ∈ d -> m = n) -> nlink d i = 1.
Proof.
  intros Hd Hn Hm. unfold nlink. rewrite (Permutation_length (l' := [(n, i)])); [done|]. apply NoDup_Permutation.
  - by apply NoDup_filter.
  - apply NoDup_singleton.
  - intros [m j]. rewrite list_elem_of_filter, list_elem_of_singleton. cbn. naive_solver.
Qed.

Lemma nlink_two d a b i : NoDup d -> (a, i) ∈ d -> (b, i) ∈ d -> a <> b -> (forall m, (m, i) ∈ d -> m = a \/ m = b) -> nlink d i = 2.
Proof.
  intros Hd Ha Hb Hab Hm. unfold nlink. rewrite (Permutation_length (l' := [(a, i); (b, i)])); [done|]. apply NoDup_Permutation.
  - by apply NoDup_filter.
  - apply NoDup_cons. split; [|apply NoDup_singleton]. rewrite list_elem_of_singleton. naive_solver.
  - intros [m j]. rewrite list_elem_of_filter, !elem_of_cons, elem_of_nil. cbn. naive_solver.
Qed.

Lemma nlink_app d n i j : nlink (d ++ [(n, i)]) j = nlink d j + (if decide (i = j) then 1 else 0).
Proof.
  unfold nlink. rewrite (filter_app (fun e => e.2 = j) d), length_app, filter_cons, filter_nil. cbn [snd].
  destruct (decide (i = j)); cbn [length].
  all: by rewrite Nat2Z.inj_add.
Qed.

(** Specification: the account leased to the holder of a file. *)
Definition lease_of (d : dir) (e : list Z) : option (list Z) :=
  i ← inode d e; fst <$> head (filter (fun x => x.2 = i /\ ~ is_lease x.1) d).

Lemma lease_of_Some d e u : wf d -> is_lease e -> lease_of d e = Some u <-> ~ is_lease u /\ exists i, (e, i) ∈ d /\ (u, i) ∈ d.
Proof.
  intros [Hn H1 Ho] He. unfold lease_of. split.
  - destruct (inode d e) as [i|] eqn:E; [|done]. apply inode_Some in E; [|done]. cbn.
    destruct (head _) as [[v j]|] eqn:F; [|done]. intros [= ->]. apply head_filter_Some in F as [[[= ->] ?] ?]. eauto.
  - intros (Hu & i & Hei & Hui). rewrite (proj2 (inode_Some d e i Hn)) by done. cbn.
    destruct (head _) as [[v j]|] eqn:F.
    + apply head_filter_Some in F as [[[= ->] ?] ?]. cbn in *. f_equal. apply (H1 v u i); [done|done|naive_solver].
    + apply head_filter_None in F. rewrite Forall_forall in F. by destruct (F _ Hui).
Qed.

Lemma lease_of_None d e : wf d -> is_lease e -> lease_of d e = None <-> e ∉ d.*1.
Proof.
  intros Hd He. split.
  - intros Hl ([m i] & -> & Hi)%list_elem_of_fmap. cbn [fst] in *. destruct (wf_owner d Hd _ _ Hi He) as (u & Hu & Hui).
    rewrite (proj2 (lease_of_Some d m u Hd He)) in Hl; [done|]. eauto.
  - intros Hno. unfold lease_of. by rewrite (proj2 (inode_None d e (wf_names d Hd)) Hno).
Qed.

(** ** The operations on well-formed directories *)

Ltac gmust := eapply gives_step; [apply gives_must_malloc|cbv beta].

Lemma otherlink_loop_gives d first i u entries :
  NoDup d.*1 -> entries ⊆ d -> (u, i) ∈ entries -> u <> first -> (forall m, (m, i) ∈ d -> m = first \/ m = u) ->
  gives (otherlink_loop d first i entries) (Some u) 1.
Proof.
  intros Hd. induction entries as [|[n j] entries IH]; intros Hsub Hu Hne Hm; [by apply not_elem_of_nil in Hu|].
  cbn [otherlink_loop]. assert ((n, j) ∈ d) as Hn by (apply Hsub; by left).
  assert (n <> u -> gives (otherlink_loop d first i entries) (Some u) 1) as Hrest.
  { intros Hnu. apply IH; [by intros x Hx; apply Hsub; right| |done|done]. apply elem_of_cons in Hu as [Hu|Hu]; [|done]. by injection Hu as -> ->. }
  destruct (decide (n = first)) as [->|Hnf]; [rewrite bool_decide_true by done; by apply Hrest|].
  rewrite bool_decide_false by done. gmust. rewrite (proj2 (inode_Some d n j Hd)) by done. destruct (decide (j = i)) as [->|Hji].
  - rewrite bool_decide_true by done. destruct (Hm n Hn) as [->| ->]; [done|]. gfree. gmalloc. gret.
  - rewrite bool_decide_false by congruence. gfree. eapply gives_eq; [apply Hrest|lia]. intros ->. apply Hji.
    apply (names_inj d u j i); [done..|]. by apply Hsub.
Qed.

Lemma wf_pair d e u i : wf d -> is_lease e -> ~ is_lease u -> (e, i) ∈ d -> (u, i) ∈ d -> forall m, (m, i) ∈ d -> m = e \/ m = u.
Proof.
  intros [_ H1 _] He Hu Hei Hui m Hm. destruct (decide (is_lease m)) as [L|L]; [left; apply (H1 m e i)|right; apply (H1 m u i)]; done.
Qed.

Lemma otherlink_leased d e u : wf d -> is_lease e -> lease_of d e = Some u -> gives (gridmapdir_otherlink (Dir d) e) (Some u) 1.
Proof.
  intros Hd He Hl. pose proof (wf_names d Hd) as Hn. apply lease_of_Some in Hl as (Hu & i & Hei & Hui); [|done|done].
  assert (u <> e) as Hne by (by intros ->).
  unfold gridmapdir_otherlink. gmust. gfree. rewrite (proj2 (inode_Some d e i Hn)) by done.
  pose proof (wf_pair d e u i Hd He Hu Hei Hui) as Hm. rewrite (nlink_two d e u i); [|by apply NoDup_names|done..]. cbn [Z.eqb Pos.eqb negb]. cbv iota.
  eapply gives_eq; [apply (otherlink_loop_gives d e i u d)|lia]; done.
Qed.

Lemma otherlink_none d e : wf d -> is_lease e -> lease_of d e = None -> gives (gridmapdir_otherlink (Dir d) e) None 0.
Proof.
  intros Hd He Hl. apply lease_of_None in Hl; [|done|done]. unfold gridmapdir_otherlink. gmust. gfree.
  rewrite (proj2 (inode_None d e (wf_names d Hd))) by done. gret.
Qed.

Definition free_account (d : dir) (prefix : list Z) (x : list Z * Z) : Prop := acceptable prefix x.1 = true /\ nlink d x.2 = 1.

#[export] Instance free_account_dec d prefix x : Decision (free_account d prefix x).
Proof. unfold free_account. apply _. Defined.

Lemma newlease_loop_gives d e prefix entries :
  NoDup d.*1 -> entries ⊆ d -> e ∉ d.*1 ->
  gives (newlease_loop d e prefix entries)
    (match head (filter (free_account d prefix) entries) with Some (_, i) => d ++ [(e, i)] | None => d end) (-1).
Proof.
  intros Hd Hsub He. induction entries as [|[n i] entries IH]; cbn [newlease_loop]; [gfree; gret|].
  assert ((n, i) ∈ d) as Hn by (apply Hsub; by left). specialize (IH ltac:(intros x Hx; apply Hsub; by right)).
  rewrite filter_cons. destruct (decide (free_account d prefix (n, i))) as [[A E]|F]; cbn [fst snd] in *.
  - rewrite A. cbn [negb head]. cbv iota. gmust. rewrite (proj2 (inode_Some d n i Hd)), E by done. cbn [Z.eqb Pos.eqb]. cbv iota. gfree.
    rewrite (proj2 (inode_None d e Hd)) by done. cbv zeta. rewrite nlink_app, decide_True, E by done. cbv iota.
    change (1 + 1 >? 2) with false. cbv iota. gfree. gret.
  - destruct (acceptable prefix n) eqn:A; cbn [negb]; cbv iota; [|exact IH]. gmust. rewrite (proj2 (inode_Some d n i Hd)) by done.
    rewrite (proj2 (Z.eqb_neq _ _)) by (intros E; by apply F). gfree. eapply gives_eq; [exact IH|lia].
Qed.

Lemma newlease_gives d e prefix :
  NoDup d.*1 -> e ∉ d.*1 ->
  gives (gridmapdir_newlease (Dir d) e (Some prefix))
    (Dir (match head (filter (free_account d prefix) d) with Some (_, i) => d ++ [(e, i)] | None => d end)) 0.
Proof.
  intros Hd He. unfold gridmapdir_newlease. gmust. eapply gives_step; [by apply gives_lift|cbv beta].
  eapply gives_step; [by apply (newlease_loop_gives d e prefix d)|cbv beta]. gret.
Qed.

(** Specification of a request: the account that is already leased to the name, or the
    first free one, which is then leased to it. *)
Definition request (d : dir) (name prefix : list Z) : option (list Z) * dir :=
  match lease_of d (encode name) with
  | Some u => (Some u, d)
  | None =>
      match head (filter (free_account d prefix) d) with
      | Some (u, i) => (Some u, d ++ [(encode name, i)])
      | None => (None, d)
      end
  end.

(** Names that are looked up: of ASCII characters, starting with a slash. *)
Definition subject (name : list Z) : Prop := Forall ascii name /\ char_at name 0 = SLASH.

Lemma encode_is_lease name : char_at name 0 = SLASH -> is_lease (encode name).
Proof. destruct name as [|c name]; [done|]. cbn. intros ->. done. Qed.

Lemma acceptable_account prefix n : acceptable prefix n = true -> ~ is_lease n.
Proof. unfold acceptable, is_lease. intros H E. rewrite E in H. done. Qed.

Lemma NoDup_snoc_dir (d : dir) e i : NoDup d.*1 -> e ∉ d.*1 -> NoDup (d ++ [(e, i)]).*1.
Proof.
  intros Hd He. rewrite fmap_app. apply NoDup_app. split_and!; [done| |apply NoDup_singleton].
  intros x Hx ->%list_elem_of_singleton. done.
Qed.

Lemma nlink_only d n m i : NoDup d -> (n, i) ∈ d -> (m, i) ∈ d -> nlink d i = 1 -> n = m.
Proof.
  intros Hd Hn Hm H1. destruct (decide (n = m)) as [|Hne]; [done|].
  assert (Z.of_nat (length [(n, i); (m, i)]) <= nlink d i) as Hs; [|cbn [length] in Hs; lia].
  unfold nlink. apply inj_le, submseteq_length, NoDup_submseteq.
  - apply NoDup_cons. split; [|apply NoDup_singleton]. rewrite list_elem_of_singleton. naive_solver.
  - intros x. rewrite !elem_of_cons, elem_of_nil, list_elem_of_filter. naive_solver.
Qed.

(** Leasing a free account keeps the directory well formed. *)
Lemma wf_lease d e u i : wf d -> is_lease e -> ~ is_lease u -> e ∉ d.*1 -> (u, i) ∈ d -> nlink d i = 1 -> wf (d ++ [(e, i)]).
Proof.
  intros Hd He Hu Hno Hui H1. pose proof (wf_names d Hd) as Hn. assert (forall m, (m, i) ∈ d -> m = u) as Honly.
  { intros m Hm. symmetry. apply (nlink_only d u m i); try done. by apply NoDup_names. }
  split; [by apply NoDup_snoc_dir| |].
  - intros n1 n2 j. rewrite !elem_of_app, !list_elem_of_singleton. intros [Ha|[= -> ->]] [Hb|Hb] Hab.
    + by apply (wf_one d Hd n1 n2 j).
    + injection Hb as -> ->. rewrite (Honly _ Ha) in Hab. naive_solver.
    + rewrite (Honly _ Hb) in Hab. naive_solver.
    + by injection Hb.
  - intros n j. rewrite elem_of_app, list_elem_of_singleton. intros [Ha|[= -> ->]] L.
    + destruct (wf_owner d Hd n j Ha L) as (v & Hv & Hvj). exists v. split; [done|]. apply elem_of_app. by left.
    + exists u. split; [done|]. apply elem_of_app. by left.
Qed.

Lemma request_wf d name prefix : wf d -> char_at name 0 = SLASH -> wf (request d name prefix).2.
Proof.
  intros Hd Hs%encode_is_lease. unfold request. destruct (lease_of d (encode name)) eqn:L; [done|].
  apply lease_of_None in L; [|done|done]. destruct (head _) as [[u i]|] eqn:F; [|done].
  apply head_filter_Some in F as [[A H1] Hui]. cbn [fst snd] in *. apply (wf_lease d _ u); try done. by apply (acceptable_account prefix).
Qed.

Lemma request_answer d name prefix u :
  wf d -> char_at name 0 = SLASH -> (request d name prefix).1 = Some u -> lease_of (request d name prefix).2 (encode name) = Some u.
Proof.
  intros Hd Hs. pose proof (request_wf d name prefix Hd Hs) as Hd'. revert Hd'. unfold request.
  destruct (lease_of d (encode name)) eqn:L; [intros _ H; cbn in *; congruence|].
  destruct (head _) as [[v i]|] eqn:F; [|done]. cbn [fst snd]. intros Hd' [= ->]. apply head_filter_Some in F as [[A _] Hui]. cbn [fst] in A.
  apply lease_of_Some; [done|by apply encode_is_lease|]. split; [by apply (acceptable_account prefix)|].
  exists i. rewrite !elem_of_app, !list_elem_of_singleton. auto.
Qed.

(** Leases last. *)
Lemma request_keeps d name prefix e u :
  wf d -> char_at name 0 = SLASH -> is_lease e -> lease_of d e = Some u -> lease_of (request d name prefix).2 e = Some u.
Proof.
  intros Hd Hs He Hl. pose proof (request_wf d name prefix Hd Hs) as Hd'. apply lease_of_Some in Hl as (Hu & i & Hei & Hui); [|done..].
  apply lease_of_Some; [done..|]. split; [done|]. exists i. unfold request.
  destruct (lease_of d (encode name)); [done|]. destruct (head _) as [[v j]|]; [|done]. cbn [snd]. rewrite !elem_of_app. auto.
Qed.

Lemma lease_exclusive d e1 e2 u : wf d -> is_lease e1 -> is_lease e2 -> lease_of d e1 = Some u -> lease_of d e2 = Some u -> e1 = e2.
Proof.
  intros Hd H1 H2 (Hu & i & He1 & Hui)%lease_of_Some (_ & j & He2 & Huj)%lease_of_Some; try done.
  pose proof (names_inj d u i j (wf_names d Hd) Hui Huj) as <-. by apply (wf_one d Hd e1 e2 i).
Qed.

Definition account (o : option (list Z)) : Z * option (list Z) := match o with Some u => (0, Some u) | None => (1, None) end.

Lemma userid_gives d name prefix :
  wf d -> subject name ->
  gives (gridmapdir_userid (Dir d) name (Some prefix))
    (account (request d name prefix).1, Dir (request d name prefix).2)
    (match (request d name prefix).1 with Some _ => 1 | None => 0 end).
Proof.
  intros Hd [Ha Hs]. pose proof (encode_is_lease name Hs) as He. pose proof (request_wf d name prefix Hd Hs) as Hd'.
  pose proof (request_answer d name prefix) as Hans.
  unfold gridmapdir_userid. rewrite Hs. change (SLASH =? SLASH) with true. cbn [negb]. cbv iota.
  eapply gives_step; [by apply urlencode_gives|cbv beta]. eapply gives_step; [by apply gives_lift|cbv beta].
  unfold request in *. destruct (lease_of d (encode name)) as [u|] eqn:L.
  - eapply gives_step; [by apply otherlink_leased|cbv beta iota]. cbn [fst snd account]. gfree. gret.
  - eapply gives_step; [by apply otherlink_none|cbv beta iota].
    eapply gives_step; [apply newlease_gives; [by apply wf_names|by apply lease_of_None]|cbv beta]. destruct (head _) as [[u i]|] eqn:F; cbn [fst snd account] in *.
    + eapply gives_step; [apply otherlink_leased; [done|done|by apply Hans]|cbv beta iota]. gfree. gret.
    + eapply gives_step; [by apply otherlink_none|cbv beta iota]. gfree. gret.
Qed.

(** ** Requests one after the other *)

Fixpoint serve (g : gridmapdir) (reqs : list (list Z * list Z)) : cmd (list (Z * option (list Z)) * gridmapdir) :=
  match reqs with
  | [] => mret ([], g)
  | (name, prefix) :: reqs =>
      '(rc, userid, g) ← gridmapdir_userid g name (Some prefix);
      '(answers, g) ← serve g reqs;
      mret ((rc, userid) :: answers, g)
  end.

Fixpoint requests (d : dir) (reqs : list (list Z * list Z)) : list (option (list Z)) * dir :=
  match reqs with
  | [] => ([], d)
  | (name, prefix) :: reqs =>
      let r := requests (request d name prefix).2 reqs in ((request d name prefix).1 :: r.1, r.2)
  end.

Definition granted (answers : list (option (list Z))) : Z := Z.of_nat (length (filter is_Some answers)).

Lemma serve_gives d reqs :
  wf d -> Forall (fun r => subject r.1) reqs ->
  gives (serve (Dir d) reqs) (account <$> (requests d reqs).1, Dir (requests d reqs).2) (granted (requests d reqs).1).
Proof.
  intros Hd Hr. revert d Hd. induction Hr as [|[name prefix] reqs Hs Hr IH]; intros d Hd; cbn [serve requests]; [apply gives_ret|].
  cbn [fst] in Hs. eapply gives_step; [by apply userid_gives|cbv beta iota]. destruct Hs as [_ Hs].
  assert (account (request d name prefix).1 = ((account (request d name prefix).1).1, (account (request d name prefix).1).2)) as -> by (by destruct (account _)).
  cbv iota. eapply gives_step; [by apply IH, request_wf|cbv beta iota zeta]. cbn [fst snd]. unfold granted. rewrite filter_cons, fmap_cons.
  destruct (request d name prefix).1 as [u|]; cbn [account fst snd].
  - rewrite decide_True by eauto. cbn [length]. gret.
  - rewrite decide_False by (by intros []). gret.
Qed.

Lemma requests_wf d reqs : wf d -> Forall (fun r => subject r.1) reqs -> wf (requests d reqs).2.
Proof. intros Hd Hr. revert d Hd. induction Hr as [|[name prefix] reqs [_ Hs] Hr IH]; intros d Hd; [done|]. by apply IH, request_wf. Qed.

Lemma requests_keeps d reqs e u :
  wf d -> Forall (fun r => subject r.1) reqs -> is_lease e -> lease_of d e = Some u -> lease_of (requests d reqs).2 e = Some u.
Proof.
  intros Hd Hr. revert d Hd. induction Hr as [|[name prefix] reqs [_ Hs] Hr IH]; intros d Hd He Hl; [done|].
  apply IH; [by apply request_wf|done|by apply request_keeps].
Qed.

(** Every answer is a lease of the final directory. *)
Lemma requests_answer d reqs k name prefix u :
  wf d -> Forall (fun r => subject r.1) reqs -> reqs !! k = Some (name, prefix) -> (requests d reqs).1 !! k = Some (Some u) ->
  lease_of (requests d reqs).2 (encode name) = Some u.
Proof.
  intros Hd Hr. revert d k Hd. induction Hr as [|[n p] reqs Hs Hr IH]; intros d [|k] Hd; try done; cbn [requests fst snd]; destruct Hs as [_ Hs].
  - intros [= -> ->] [= Hu]. apply requests_keeps; [by apply request_wf|done|by apply encode_is_lease|by apply request_answer].
  - cbn [lookup list_lookup]. intros Hk Ha. by apply (IH _ k); [apply request_wf|..].
Qed.

(** A name that has a lease is answered with it. *)
Lemma requests_again d reqs k name prefix u :
  wf d -> Forall (fun r => subject r.1) reqs -> reqs !! k = Some (name, prefix) -> lease_of d (encode name) = Some u ->
  (requests d reqs).1 !! k = Some (Some u).
Proof.
  intros Hd Hr. revert d k Hd. induction Hr as [|[n p] reqs Hs Hr IH]; intros d [|k] Hd; try done; cbn [requests fst snd]; destruct Hs as [_ Hs].
  - intros [= -> ->] Hl. cbn. unfold request. by rewrite Hl.
  - cbn [lookup list_lookup]. intros Hk Hl. apply IH; [by apply request_wf|done|].
    apply request_keeps; [done..| |done]. apply encode_is_lease. rewrite Forall_forall in Hr. apply (Hr (name, prefix)). by apply list_elem_of_lookup_2 in Hk.
Qed.

Lemma requests_sticky d reqs i j n1 n2 p1 p2 u :
  wf d -> Forall (fun r => subject r.1) reqs -> reqs !! i = Some (n1, p1) -> reqs !! j = Some (n2, p2) -> (i <= j)%nat ->
  encode n1 = encode n2 -> (requests d reqs).1 !! i = Some (Some u) -> (requests d reqs).1 !! j = Some (Some u).
Proof.
  intros Hd Hr. revert d i j Hd. induction Hr as [|[n p] reqs Hs Hr IH]; intros d i j Hd; [done|]. destruct Hs as [Ha Hs].
  destruct i as [|i], j as [|j]; cbn [requests fst snd lookup list_lookup]; try lia.
  - intros [= -> ->] [= -> ->] _ _ H. exact H.
  - intros [= -> ->] Hj _ E [= Hu]. apply (requests_again _ _ _ n2 p2); [by apply request_wf|done|done|]. rewrite <- E. by apply request_answer.
  - intros Hi Hj Hij E. apply (IH _ i j); [by apply request_wf|done|done|lia|done].
Qed.

(** C12: Leases, for requests served one after the other from any well-formed directory
    and in any order: two requests are granted the same account only when they are of
    the same name up to case, and once a name was granted an account, every later
    request of it is granted the same account. Names are of ASCII characters and start
    with a slash ([subject]): others can have the same encoding. *)
Theorem leases_exclusive d reqs :
  wf d -> Forall (fun r => subject r.1) reqs ->
  exists answers d', gives (serve (Dir d) reqs) (account <$> answers, Dir d') (granted answers) /\ wf d' /\
    forall i j n1 n2 p1 p2 u, reqs !! i = Some (n1, p1) -> reqs !! j = Some (n2, p2) -> answers !! i = Some (Some u) ->
      (answers !! j = Some (Some u) -> lower n1 = lower n2) /\
      ((i <= j)%nat -> lower n1 = lower n2 -> answers !! j = Some (Some u)).
Proof.
  intros Hd Hr. exists (requests d reqs).1, (requests d reqs).2. split_and!; [by apply serve_gives|by apply requests_wf|].
  intros i j n1 n2 p1 p2 u Hi Hj Hu. assert (subject n1 /\ subject n2) as [[A1 S1] [A2 S2]].
  { rewrite Forall_forall in Hr. split; [apply (Hr (n1, p1))|apply (Hr (n2, p2))]; by eapply list_elem_of_lookup_2. }
  split.
  - intros Hu2. apply encode_same; [done..|]. pose proof (requests_wf d reqs Hd Hr) as Hw.
    apply (lease_exclusive (requests d reqs).2 _ _ u); [done|by apply encode_is_lease|by apply encode_is_lease| |]; by eapply requests_answer.
  - intros Hij E%encode_same; [|done..]. by apply (requests_sticky d reqs i j n1 n2 p1 p2).
Qed.

(** ** Checking a lease, and finding its holder *)

Lemma userok_gives d name user :
  wf d -> subject name -> gives (gridmapdir_userok (Dir d) name user) (if bool_decide (lease_of d (encode name) = Some user) then 0 else 1) 0.
Proof.
  intros Hd [Ha Hs]. pose proof (encode_is_lease name Hs) as He. unfold gridmapdir_userok. rewrite Hs. change (SLASH =? SLASH) with true.
  cbn [negb]. cbv iota. eapply gives_step; [by apply urlencode_gives|cbv beta]. eapply gives_step; [by apply gives_lift|cbv beta].
  destruct (lease_of d (encode name)) as [u|] eqn:L.
  - eapply gives_step; [by apply otherlink_leased|cbv beta iota]. gfree. gfree.
    rewrite (bool_decide_ext (Some u = Some user) (user = u)) by naive_solver. gret.
  - eapply gives_step; [by apply otherlink_none|cbv beta iota]. gfree. rewrite bool_decide_false by done. gret.
Qed.

Lemma encode_longer name : char_at name 0 = SLASH -> (length name + 2 <= length (encode name))%nat.
Proof.
  destruct name as [|c name]; [done|]. intros E. change (c = SLASH) in E. subst c. assert (length name <= length (encode name))%nat as H.
  { induction name as [|c name IH]; [done|]. rewrite encode_cons, length_app. unfold encode_char. destruct (isalnum c); cbn [length]; lia. }
  rewrite encode_cons, length_app. change (length (encode_char SLASH)) with 3%nat. cbn [length]. lia.
Qed.

Lemma globusid_gives d name u :
  wf d -> subject name -> lease_of d (encode name) = Some u -> char_at u 0 <> SLASH ->
  gives (gridmapdir_globusid (Dir d) u) (0, Some (lower name)) 1.
Proof.
  intros Hd [Ha Hs] Hl Hu. pose proof (encode_is_lease name Hs) as He. pose proof (wf_names d Hd) as Hn.
  apply lease_of_Some in Hl as (Hnl & i & Hei & Hui); [|done..]. assert (encode name <> u) as Hne by (by intros E; rewrite E in He).
  pose proof (wf_pair d _ u i Hd He Hnl Hei Hui) as Hm. pose proof (encode_longer name Hs).
  unfold gridmapdir_globusid. rewrite (proj2 (Z.eqb_neq _ _)) by done.
  apply (gives_step _ _ (Some (encode name)) _ 1).
  { unfold gridmapdir_otherlink. gmust. gfree. rewrite (proj2 (inode_Some d u i Hn)) by done.
    rewrite (nlink_two d (encode name) u i); [|by apply NoDup_names|done..]. cbn [Z.eqb Pos.eqb negb]. cbv iota.
    eapply gives_eq; [apply (otherlink_loop_gives d u i (encode name) d)|lia]; [done..|]. naive_solver. }
  cbv beta iota zeta. gmust. eapply gives_step; [apply gives_lift, globusid_decode_encode; [done|cbn [length]; lia]|cbv beta]. gfree.
  eapply gives_step; [apply gives_lift, sprintf_at_ok|cbv beta].
  - rewrite app_nil_r. unfold lower. cbn [app]. rewrite length_fmap. lia.
  - rewrite app_nil_r. gret.
Qed.

(** C25: A lease can be checked and traced: after a request was granted an account, that
    account and no other passes the check for the name, and the account is mapped back
    to the name, in lower case. The name is of ASCII characters and starts with a slash, and
    the account does not. *)
Theorem lease_traced d name prefix u d' :
  wf d -> subject name -> request d name prefix = (Some u, d') -> char_at u 0 <> SLASH ->
  gives (gridmapdir_userid (Dir d) name (Some prefix)) (0, Some u, Dir d') 1 /\
  (forall v, gives (gridmapdir_userok (Dir d') name v) (if bool_decide (v = u) then 0 else 1) 0) /\
  gives (gridmapdir_globusid (Dir d') u) (0, Some (lower name)) 1.
Proof.
  intros Hd Hs E Hu. pose proof (userid_gives d name prefix Hd Hs) as G. pose proof (request_wf d name prefix Hd (proj2 Hs)) as Hd'.
  pose proof (request_answer d name prefix u Hd (proj2 Hs)) as Hl. rewrite E in *. specialize (Hl eq_refl). cbn [fst snd account] in *.
  split_and!; [exact G| |by apply globusid_gives]. intros v. pose proof (userok_gives d' name v Hd' Hs) as H. rewrite Hl in H.
  rewrite (bool_decide_ext (v = u) (Some u = Some v)) by naive_solver. exact H.
Qed.

(** What the grid map file relies on: an account is returned exactly on success. *)
Lemma userid_answers d name prefix : (account (request d name prefix).1).1 = 0 <-> is_Some (account (request d name prefix).1).2.
Proof. destruct (request d name prefix).1; cbn; [naive_solver|]. split; [done|by intros []]. Qed.

(** A character above 127 is printed with eight digits, past the end of the block. *)
Lemma urlencode_overflow : urlencode_loop (3 * 2 + 1) [47; 233] [] = Fault OutOfBounds.
Proof. done. Qed.

(** Where the block is long enough, all these characters are encoded alike. *)
Lemma urlencode_collision : urlencode_loop (3 * 6 + 1) [47; 233; 47; 97; 97; 97] [] = urlencode_loop (3 * 6 + 1) [47; 232; 47; 97; 97; 97] [] /\
  (exists s, urlencode_loop (3 * 6 + 1) [47; 233; 47; 97; 97; 97] [] = Ok s).
Proof. vm_compute. eauto. Qed.

(** Two accounts with the same file: the name of the other one is copied to a block that
    is one byte too short. *)
Lemma globusid_overflow :
  globusid_decode (Z.of_nat (length (codes "bob"))) (codes "bob") 0 [] ≫= (fun dec => sprintf_at (Z.of_nat (length (codes "bob"))) dec []) =
  Fault OutOfBounds.
Proof. done. Qed.

(** ** Processes at the same time

    The system calls of [gridmapdir_userid], each of which is a step: the first
    [gridmapdir_otherlink] ([Ask], [Look1]), [gridmapdir_newlease] ([Scan], [Link],
    [Stat], [Undo]) and the second [gridmapdir_otherlink] ([Check], [Look2]). A scan of
    the directory may return any of its names, or end, at any time. *)

Inductive pc :=
| Ask | Look1 (i : Z) | Scan | Link (u : list Z) | Stat | Undo | Check | Look2 (i : Z) | Granted (u : list Z) | Denied.

Record proc := Proc { encodedglobusid : list Z; usernameprefix : list Z; at_ : pc }.

Inductive pstep (d : dir) (e prefix : list Z) : pc -> dir -> pc -> Prop :=
| ask_none : inode d e = None -> pstep d e prefix Ask d Scan
| ask_other i : inode d e = Some i -> nlink d i <> 2 -> pstep d e prefix Ask d Scan
| ask_two i : inode d e = Some i -> nlink d i = 2 -> pstep d e prefix Ask d (Look1 i)
| look1_found i n : n <> e -> inode d n = Some i -> pstep d e prefix (Look1 i) d (Granted n)
| look1_end i : pstep d e prefix (Look1 i) d Scan
| scan_pick u i : acceptable prefix u = true -> inode d u = Some i -> nlink d i = 1 -> pstep d e prefix Scan d (Link u)
| scan_end : pstep d e prefix Scan d Check
| link_exists u i : inode d e = Some i -> pstep d e prefix (Link u) d Check
| link_gone u : inode d u = None -> pstep d e prefix (Link u) d Check
| link_done u i : inode d u = Some i -> inode d e = None -> pstep d e prefix (Link u) (d ++ [(e, i)]) Stat
| stat_more i : inode d e = Some i -> nlink d i > 2 -> pstep d e prefix Stat d Undo
| stat_two i : inode d e = Some i -> nlink d i <= 2 -> pstep d e prefix Stat d Check
| stat_gone : inode d e = None -> pstep d e prefix Stat d Check
| undo : pstep d e prefix Undo (unlink d e) Scan
| check_none : inode d e = None -> pstep d e prefix Check d Denied
| check_other i : inode d e = Some i -> nlink d i <> 2 -> pstep d e prefix Check d Denied
| check_two i : inode d e = Some i -> nlink d i = 2 -> pstep d e prefix Check d (Look2 i)
| look2_found i n : n <> e -> inode d n = Some i -> pstep d e prefix (Look2 i) d (Granted n)
| look2_end i : pstep d e prefix (Look2 i) d Denied.

Record sys := Sys { files : dir; procs : list proc }.

Definition goto (p : proc) (c : pc) : proc := Proc (encodedglobusid p) (usernameprefix p) c.

Inductive step : sys -> sys -> Prop :=
| step_start d ps name prefix : subject name -> step (Sys d ps) (Sys d (ps ++ [Proc (encode name) prefix Ask]))
| step_run d ps k p d' c :
    ps !! k = Some p -> pstep d (encodedglobusid p) (usernameprefix p) (at_ p) d' c -> step (Sys d ps) (Sys d' (<[k := goto p c]> ps)).

Definition running (p : proc) : bool := match at_ p with Granted _ | Denied => false | _ => true end.

(** No two requests of the same name at the same time. *)
Definition one_each (s : sys) : Prop :=
  forall j k p q, procs s !! j = Some p -> procs s !! k = Some q -> encodedglobusid p = encodedglobusid q ->
    running p = true -> running q = true -> j = k.

Definition one_step (s t : sys) : Prop := step s t /\ one_each t.

(** A process has, or is about to have, the account of a file. *)
Definition claims (d : dir) (p : proc) (i : Z) : Prop :=
  (encodedglobusid p, i) ∈ d /\
  match at_ p with Look1 j | Look2 j => i = j | Granted u => ~ is_lease u /\ (u, i) ∈ d | _ => False end.

Definition linking (p : proc) : bool := match at_ p with Stat | Undo => true | _ => false end.

Definition sound (d : dir) (p : proc) : Prop :=
  is_lease (encodedglobusid p) /\
  match at_ p with
  | Link u => ~ is_lease u
  | Look1 i | Look2 i => claims d p i
  | Granted u => is_lease u \/ exists i, claims d p i
  | _ => True
  end.

Record Inv (d : dir) (ps : list proc) : Prop := {
  inv_names : NoDup d.*1;
  inv_one : forall u v i, (u, i) ∈ d -> (v, i) ∈ d -> ~ is_lease u -> ~ is_lease v -> u = v;
  inv_owner : forall n i, (n, i) ∈ d -> exists u, ~ is_lease u /\ (u, i) ∈ d;
  inv_sound : forall p, p ∈ ps -> sound d p;
  inv_excl : forall p q i, p ∈ ps -> q ∈ ps -> claims d p i -> claims d q i -> encodedglobusid p = encodedglobusid q;
  inv_linking : forall p q i, p ∈ ps -> q ∈ ps -> encodedglobusid p = encodedglobusid q -> linking p = true -> ~ claims d q i }.

Lemma elem_of_set {A} (l : list A) k x y : y ∈ <[k := x]> l -> y = x \/ y ∈ l.
Proof.
  intros (j & Hj)%list_elem_of_lookup_1. destruct (decide (j = k)) as [->|Hjk].
  - left. destruct (decide (k < length l)%nat) as [L|L]; [|rewrite list_insert_ge in Hj by lia; apply lookup_lt_Some in Hj; lia].
    rewrite list_lookup_insert_eq in Hj by lia. congruence.
  - rewrite list_lookup_insert_ne in Hj by done. right. by eapply list_elem_of_lookup_2.
Qed.

(** Steps that change the state of one process. *)
Lemma Inv_goto d ps k p c :
  Inv d ps -> ps !! k = Some p -> sound d (goto p c) ->
  (forall i, claims d (goto p c) i -> forall q, q ∈ ps -> claims d q i -> encodedglobusid q = encodedglobusid p) ->
  (forall i, claims d (goto p c) i -> forall q, q ∈ ps -> encodedglobusid q = encodedglobusid p -> linking q = false) ->
  (linking (goto p c) = true -> forall q i, q ∈ ps -> encodedglobusid q = encodedglobusid p -> ~ claims d q i) ->
  Inv d (<[k := goto p c]> ps).
Proof.
  intros HI Hp Hs Hx Hl Hc. destruct HI as [Hn H1 Ho Hsnd Hex Hlk]. split; try done.
  - intros q [->|Hq]%elem_of_set; auto.
  - intros a b i [->|Ha]%elem_of_set [->|Hb]%elem_of_set Ca Cb; [done|symmetry; by apply (Hx i)|by apply (Hx i)|by apply (Hex a b i)].
  - intros a b i [->|Ha]%elem_of_set [->|Hb]%elem_of_set E L C.
    + destruct c; cbn in L; try done; by destruct C.
    + by apply (Hc L b i).
    + by rewrite (Hl i C a Ha) in L by done.
    + by apply (Hlk a b i).
Qed.

(** Steps to a state that claims nothing. *)
Lemma Inv_idle d ps k p c :
  Inv d ps -> ps !! k = Some p ->
  match c with Ask | Scan | Check | Denied => True | Link u => ~ is_lease u | _ => False end -> Inv d (<[k := goto p c]> ps).
Proof.
  intros HI Hp Hc. pose proof (inv_sound _ _ HI p ltac:(by eapply list_elem_of_lookup_2)) as [He _].
  apply Inv_goto; try done; destruct c; try done; by intros i [_ []].
Qed.

Lemma claims_grow d e i q j : e ∉ d.*1 -> is_lease e -> sound d q -> claims (d ++ [(e, i)]) q j -> claims d q j.
Proof.
  intros Hno He [_ Hs] [Hq Hc]. assert (forall n x, (n, x) ∈ d ++ [(e, i)] -> ((n, x) ∈ d \/ n = e /\ x = i)) as Happ.
  { intros n x. rewrite elem_of_app, list_elem_of_singleton. naive_solver. }
  assert (forall x, (encodedglobusid q, x) ∈ d -> encodedglobusid q <> e) as Hne.
  { intros x Hx <-. apply Hno, list_elem_of_fmap. by exists (encodedglobusid q, x). }
  unfold claims. destruct (at_ q); try done.
  - destruct Hs as [Hs _]. destruct (Happ _ _ Hq) as [|[]]; [done|]. by destruct (Hne _ Hs).
  - destruct Hs as [Hs _]. destruct (Happ _ _ Hq) as [|[]]; [done|]. by destruct (Hne _ Hs).
  - destruct Hc as [Hu Hc]. destruct Hs as [|(x & Hs & _)]; [done|]. destruct (Happ _ _ Hq) as [|[]]; [|by destruct (Hne _ Hs)].
    destruct (Happ _ _ Hc) as [|[-> _]]; [done|done].
Qed.

Lemma claims_app d q i x : claims d q i -> claims (d ++ [x]) q i.
Proof.
  unfold claims. rewrite elem_of_app. intros [Hq Hc]. split; [by left|]. destruct (at_ q); try done. rewrite elem_of_app. naive_solver.
Qed.

Lemma Inv_grow d ps e u i : Inv d ps -> e ∉ d.*1 -> is_lease e -> (u, i) ∈ d -> Inv (d ++ [(e, i)]) ps.
Proof.
  intros [Hn H1 Ho Hs Hx Hl] Hno He Hu. assert (forall n x, (n, x) ∈ d ++ [(e, i)] -> ~ is_lease n -> (n, x) ∈ d) as Hacc.
  { intros n x. rewrite elem_of_app, list_elem_of_singleton. intros [?|[= -> ->]]; done. }
  split.
  - by apply NoDup_snoc_dir.
  - intros a b x Ha Hb La Lb. apply (H1 a b x); auto.
  - intros n x Hx'. assert (exists m, (m, x) ∈ d) as [m Hm].
    { apply elem_of_app in Hx' as [?|[= -> ->]%list_elem_of_singleton]; eauto. }
    destruct (Ho m x Hm) as (v & ? & ?). exists v. rewrite elem_of_app. auto.
  - intros q Hq. destruct (Hs q Hq) as [Hq1 Hq2]. split; [done|]. destruct (at_ q); try done; try by apply claims_app.
    destruct Hq2 as [|(x & ?)]; [by left|]. right. exists x. by apply claims_app.
  - intros a b x Ha Hb Ca Cb. apply (Hx a b x); try done; apply (claims_grow d e i); auto.
  - intros a b x Ha Hb E L C. apply (Hl a b x); try done. apply (claims_grow d e i); auto.
Qed.

Lemma elem_of_unlink d e n i : (n, i) ∈ unlink d e <-> (n, i) ∈ d /\ n <> e.
Proof. unfold unlink. rewrite list_elem_of_filter. cbn. naive_solver. Qed.

Lemma claims_unlink d e q i : is_lease e -> claims (unlink d e) q i <-> claims d q i /\ encodedglobusid q <> e.
Proof.
  intros He. unfold claims. rewrite elem_of_unlink. destruct (at_ q); try naive_solver. rewrite elem_of_unlink.
  split; [naive_solver|]. intros [[? [? ?]] ?]. split_and!; try done. by intros ->.
Qed.

Lemma Inv_shrink d ps e : Inv d ps -> is_lease e -> (forall q i, q ∈ ps -> encodedglobusid q = e -> ~ claims d q i) -> Inv (unlink d e) ps.
Proof.
  intros [Hn H1 Ho Hs Hx Hl] He Hno.
  assert (forall q i, q ∈ ps -> claims d q i -> claims (unlink d e) q i) as Hk.
  { intros q i Hq C. apply claims_unlink; [done|]. split; [done|]. intros E. by apply (Hno q i). }
  split.
  - unfold unlink. apply (NoDup_subseteq_names d); [done|]. apply sublist_filter.
  - intros u v i [Hu _]%elem_of_unlink [Hv _]%elem_of_unlink. by apply (H1 u v i).
  - intros n i [Hi _]%elem_of_unlink. destruct (Ho n i Hi) as (u & Lu & Hu). exists u. split; [done|]. apply elem_of_unlink. split; [done|]. by intros ->.
  - intros q Hq. destruct (Hs q Hq) as [Hq1 Hq2]. split; [done|]. destruct (at_ q); auto. destruct Hq2 as [|(i & ?)]; [by left|right]. eauto.
  - intros a b i Ha Hb [Ca _]%claims_unlink [Cb _]%claims_unlink; [|done..]. by apply (Hx a b i).
  - intros a b i Ha Hb E L [C _]%claims_unlink; [|done]. by apply (Hl a b i).
Qed.

Lemma nlink_three d a b c i : (a, i) ∈ d -> (b, i) ∈ d -> (c, i) ∈ d -> a <> b -> a <> c -> b <> c -> nlink d i <> 2.
Proof.
  intros Ha Hb Hc Hab Hac Hbc H2. assert (Z.of_nat (length [(a, i); (b, i); (c, i)]) <= nlink d i) as Hs; [|cbn [length] in Hs; lia].
  unfold nlink. apply inj_le, submseteq_length, NoDup_submseteq.
  - repeat (apply NoDup_cons; split; [rewrite ?elem_of_cons, ?list_elem_of_singleton, ?elem_of_nil; naive_solver|]). apply NoDup_nil_2.
  - intros x. rewrite !elem_of_cons, elem_of_nil, list_elem_of_filter. naive_solver.
Qed.

(** A file with two links that a process finds its own name on is claimed by no other. *)
Lemma Inv_two d ps k p i c :
  Inv d ps -> one_each (Sys d ps) -> ps !! k = Some p -> running p = true -> linking p = false ->
  inode d (encodedglobusid p) = Some i -> nlink d i = 2 -> c = Look1 i \/ c = Look2 i -> Inv d (<[k := goto p c]> ps).
Proof.
  intros HI H1 Hp Hrun Hlk Hi H2 Hc. pose proof (list_elem_of_lookup_2 _ _ _ Hp) as Hin. apply inode_Some in Hi; [|by destruct HI].
  destruct (inv_sound _ _ HI p Hin) as [He _].
  assert (forall j, claims d (goto p c) j -> j = i) as Hj by (by destruct Hc as [-> | ->]; intros j []).
  apply Inv_goto; [done|done| | | |by destruct Hc as [-> | ->]].
  - destruct Hc as [-> | ->]; done.
  - intros j ->%Hj q Hq [Hqi _]. destruct (decide (encodedglobusid q = encodedglobusid p)) as [|Hne]; [done|].
    destruct (inv_owner _ _ HI _ _ Hi) as (u & Hu & Hui). destruct (inv_sound _ _ HI q Hq) as [Hq1 _].
    by destruct (nlink_three d (encodedglobusid q) (encodedglobusid p) u i); try done; intros E; apply Hu; rewrite <- E.
  - intros j _ q Hq E. destruct (linking q) eqn:L; [|done]. apply list_elem_of_lookup_1 in Hq as [m Hm].
    assert (m = k) as -> by (apply (H1 m k q p); try done; unfold linking in L; unfold running; by destruct (at_ q)).
    cbn in *. congruence.
Qed.

(** A claim turns into the account that was found. *)
Lemma Inv_found d ps k p i n :
  Inv d ps -> ps !! k = Some p -> at_ p = Look1 i \/ at_ p = Look2 i -> inode d n = Some i -> Inv d (<[k := goto p (Granted n)]> ps).
Proof.
  intros HI Hp Hat Hi. pose proof (list_elem_of_lookup_2 _ _ _ Hp) as Hin. apply inode_Some in Hi; [|by destruct HI].
  assert (is_lease (encodedglobusid p) /\ claims d p i) as [He Hc].
  { destruct (inv_sound _ _ HI p Hin) as [He Hs]. by destruct Hat as [E|E]; rewrite E in Hs. }
  assert (forall j, claims d (goto p (Granted n)) j -> j = i) as Hj.
  { intros j [_ [_ Hn]]. apply (names_inj d n j i); [by destruct HI|done|done]. }
  apply Inv_goto; [done|done| | | |done].
  - split; [done|]. cbn. destruct (decide (is_lease n)); [by left|]. right. exists i. by split; [apply Hc|].
  - intros j ->%Hj q Hq Cq. by apply (inv_excl _ _ HI q p i).
  - intros j _ q Hq E. destruct (linking q) eqn:L; [|done]. by destruct (inv_linking _ _ HI q p i).
Qed.

Lemma Inv_step s t : Inv (files s) (procs s) -> one_each s -> step s t -> Inv (files t) (procs t).
Proof.
  intros HI H1 Hst. destruct Hst as [d ps name prefix [_ Hs]|d ps k p d' c Hp Hps]; cbn [files procs] in *.
  - destruct HI as [Hn Hone Ho Hsnd Hx Hl]. pose proof (encode_is_lease name Hs) as He.
    assert (forall q, q ∈ ps ++ [Proc (encode name) prefix Ask] -> q ∈ ps \/ q = Proc (encode name) prefix Ask) as Hq.
    { intros q. by rewrite elem_of_app, list_elem_of_singleton. }
    split; try done.
    + intros q [?| ->]%Hq; [auto|by split].
    + intros a b i [Ha| ->]%Hq [Hb| ->]%Hq Ca Cb; try by destruct Ca, Cb. by apply (Hx a b i).
    + intros a b i [Ha| ->]%Hq [Hb| ->]%Hq E L C; try done; [by apply (Hl a b i)|by destruct C].
  - pose proof (list_elem_of_lookup_2 _ _ _ Hp) as Hin. destruct (inv_sound _ _ HI p Hin) as [He Hsnd].
    inversion Hps as [Hat|i Hi H2 Hat|i Hi H2 Hat|i n Hne Hi Hat|i Hat|u i Ha Hi H2 Hat|Hat|u i Hi Hat|u Hi Hat|u i Hu Hi Hat
      |i Hi H2 Hat|i Hi H2 Hat|Hi Hat|Hat|Hi Hat|i Hi H2 Hat|i Hi H2 Hat|i n Hne Hi Hat|i Hat];
      clear Hps; subst d' c; try (by apply Inv_idle).
    + eapply Inv_two; eauto; unfold running, linking; by rewrite <- Hat.
    + eapply Inv_found; eauto.
    + apply Inv_idle; [done|done|]. by apply (acceptable_account (usernameprefix p)).
    + apply inode_Some in Hu; [|by destruct HI]. apply inode_None in Hi; [|by destruct HI].
      apply Inv_goto; [by apply (Inv_grow d ps _ u)|done|done|by intros j []..|]. intros _ q j Hq E C.
      apply (claims_grow d (encodedglobusid p) i) in C as [C _]; [|done|done|by apply (inv_sound _ _ HI)].
      apply Hi, list_elem_of_fmap. exists (encodedglobusid q, j). by rewrite <- E.
    + apply Inv_goto; [done|done|done|by intros j []..|]. intros _ q j Hq E. apply (inv_linking _ _ HI p q); [done..|]. unfold linking. by rewrite <- Hat.
    + apply Inv_idle; [|done|done]. apply Inv_shrink; [done|done|]. intros q i Hq E.
      apply (inv_linking _ _ HI p q); [done..|]. unfold linking. by rewrite <- Hat.
    + eapply Inv_two; eauto; unfold running, linking; by rewrite <- Hat.
    + eapply Inv_found; eauto.
Qed.

Lemma Inv_reach s t : Inv (files s) (procs s) -> one_each s -> rtc one_step s t -> Inv (files t) (procs t).
Proof. intros HI H1 H. induction H as [|s m t [Hst Hm] H IH]; [done|]. apply IH; [by eapply Inv_step|done]. Qed.

Lemma Inv_start d : wf d -> Inv d [].
Proof.
  intros [Hn H1 Ho]. split; try done.
  - intros u v i Hu Hv Lu Lv. apply (H1 u v i); [done|done|naive_solver].
  - intros n i Hi. destruct (decide (is_lease n)); [by apply (Ho n)|]. by exists n.
  - intros p []%elem_of_nil.
  - intros p q i []%elem_of_nil.
  - intros p q i []%elem_of_nil.
Qed.

(** C11: Leases when processes run at the same time, for any number of processes and any
    interleaving of their system calls: as long as no two requests of the same name run
    at the same time, two requests that were granted the same account are of the same
    name, whenever they were made. Names are of ASCII characters, start with a slash
    ([subject]) and are compared as they are encoded, without case. *)
Theorem concurrent_exclusive d s p q u :
  wf d -> rtc one_step (Sys d []) s -> p ∈ procs s -> q ∈ procs s ->
  at_ p = Granted u -> at_ q = Granted u -> ~ is_lease u -> encodedglobusid p = encodedglobusid q.
Proof.
  intros Hd Hr Hp Hq Ep Eq Hu. pose proof (Inv_reach (Sys d []) s (Inv_start d Hd) ltac:(by intros j k a b Ha) Hr) as HI.
  assert (forall r, r ∈ procs s -> at_ r = Granted u -> exists i, claims (files s) r i) as Hc.
  { intros r Hin E. destruct (inv_sound _ _ HI r Hin) as [_ Hs]. rewrite E in Hs. by destruct Hs. }
  destruct (Hc p Hp Ep) as [i Ci], (Hc q Hq Eq) as [j Cj]. destruct (Ci) as [_ Ui], (Cj) as [_ Uj]. rewrite Ep in Ui. rewrite Eq in Uj.
  pose proof (names_inj _ u i j (inv_names _ _ HI) (proj2 Ui) (proj2 Uj)) as <-. by apply (inv_excl _ _ HI p q i).
Qed.

(** ** A directory with one account *)

Definition ann : list Z := codes "/O=Grid/CN=Ann".
Definition bob : list Z := codes "/O=Grid/CN=Bob".
Definition pool : dir := [(codes "pool1", 7)].

Lemma wf_pool : wf pool.
Proof.
  split.
  - apply NoDup_singleton.
  - intros n1 n2 i [= -> ->]%list_elem_of_singleton H _. by apply list_elem_of_singleton in H as [= ->].
  - by intros n i [= -> ->]%list_elem_of_singleton.
Qed.

Lemma subject_ann : subject ann.
Proof. split; [|done]. unfold ascii. by repeat constructor. Qed.
Lemma subject_bob : subject bob.
Proof. split; [|done]. unfold ascii. by repeat constructor. Qed.

Ltac start H := eapply rtc_l; [apply (step_start _ _ _ [] H)|cbn [app]].
Tactic Notation "run" constr(k) uconstr(rule) :=
  eapply rtc_l;
  [eapply (step_run _ _ k); [reflexivity|cbn [at_ encodedglobusid usernameprefix]; eapply rule; first [reflexivity|by vm_compute]]
  |cbn [insert list_insert goto encodedglobusid usernameprefix]].

(** C37: Two requests of the same name that run at the same time can lose the lease: one
    of them is granted the account while the other is about to give it up, and then the
    account is granted to another name as well. *)
Theorem lease_race :
  exists s p q, rtc step (Sys pool []) s /\ p ∈ procs s /\ q ∈ procs s /\
    at_ p = Granted (codes "pool1") /\ at_ q = Granted (codes "pool1") /\
    encodedglobusid p = encode ann /\ encodedglobusid q = encode bob.
Proof.
  eexists _, (Proc (encode ann) [] (Granted (codes "pool1"))), (Proc (encode bob) [] (Granted (codes "pool1"))). split.
  { start subject_ann. start subject_ann. start subject_bob.
    run 0%nat ask_none. run 0%nat (scan_pick _ _ _ (codes "pool1") 7).
    run 1%nat ask_none. run 1%nat (scan_pick _ _ _ (codes "pool1") 7).
    run 2%nat ask_none. run 2%nat (scan_pick _ _ _ (codes "pool1") 7).
    run 0%nat link_done. run 2%nat link_done. run 0%nat stat_more. run 1%nat link_exists. run 2%nat stat_more. run 2%nat undo.
    run 1%nat check_two. run 1%nat (look2_found _ _ _ _ (codes "pool1")). run 0%nat undo.
    start subject_bob. run 3%nat ask_none. run 3%nat (scan_pick _ _ _ (codes "pool1") 7). run 3%nat link_done. run 3%nat stat_two.
    run 3%nat check_two. run 3%nat (look2_found _ _ _ _ (codes "pool1")). apply rtc_refl. }
  cbn [procs]. rewrite !elem_of_cons. naive_solver.
Qed.

(** A scan can also return the name of another lease, which was made after the links
    were counted, as the account. *)
Lemma lease_wrong_name :
  exists s p, rtc step (Sys pool []) s /\ p ∈ procs s /\ at_ p = Granted (encode bob) /\ encodedglobusid p = encode ann.
Proof.
  eexists _, (Proc (encode ann) [] (Granted (encode bob))). split.
  { start subject_ann. start subject_bob.
    run 0%nat ask_none. run 0%nat (scan_pick _ _ _ (codes "pool1") 7).
    run 1%nat ask_none. run 1%nat (scan_pick _ _ _ (codes "pool1") 7).
    run 0%nat link_done. run 0%nat stat_two. run 0%nat check_two. run 1%nat link_done.
    run 0%nat (look2_found _ _ _ _ (encode bob)). apply rtc_refl. }
  cbn [procs]. rewrite !elem_of_cons. naive_solver.
Qed.

(** *** Witnesses *)

Definition three : list (list Z * list Z) := [(ann, []); (bob, []); (codes "/o=grid/cn=ann", [])].

Lemma leases_exclusive_witness :
  exists answers d', gives (serve (Dir pool) three) (account <$> answers, Dir d') (granted answers) /\
    wf d' /\
    forall i j n1 n2 p1 p2 u, three !! i = Some (n1, p1) ->
      three !! j = Some (n2, p2) -> answers !! i = Some (Some u) ->
      (answers !! j = Some (Some u) -> lower n1 = lower n2) /\
      ((i <= j)%nat -> lower n1 = lower n2 -> answers !! j = Some (Some u)).
Proof.
  apply (leases_exclusive pool three wf_pool). unfold three.
  repeat constructor; try apply subject_ann; try apply subject_bob; unfold ascii; cbn [fst]; by repeat constructor.
Defined.

Lemma lease_traced_witness :
  gives (gridmapdir_globusid (Dir (pool ++ [(encode ann, 7)])) (codes "pool1")) (0, Some (lower ann)) 1.
Proof.
  refine (proj2 (proj2 (lease_traced pool ann (codes "pool") (codes "pool1") (pool ++ [(encode ann, 7)]) wf_pool subject_ann _ _))).
  - vm_compute. reflexivity.
  - done.
Defined.

Ltac each :=
  let j := fresh in let k := fresh in
  intros j k ? ? ? ? ? ? ?; destruct j as [|[|j]], k as [|[|k]]; cbn in *; simplify_eq; done.
Tactic Notation "run1" constr(k) uconstr(rule) :=
  eapply rtc_l;
  [split;
   [eapply (step_run _ _ k); [reflexivity|cbn [at_ encodedglobusid usernameprefix]; eapply rule; first [reflexivity|by vm_compute]]
   |cbn [insert list_insert goto encodedglobusid usernameprefix]; each]
  |cbn [insert list_insert goto encodedglobusid usernameprefix]].
Ltac start1 H := eapply rtc_l; [split; [apply (step_start _ _ _ [] H)|cbn [app]; each]|cbn [app]].

(** A request, and a second one of the same name afterwards. *)
Lemma concurrent_exclusive_witness :
  exists s p q, procs s = [p; q] /\ at_ p = Granted (codes "pool1") /\ at_ q = Granted (codes "pool1") /\
    encodedglobusid p = encodedglobusid q.
Proof.
  eexists (Sys (pool ++ [(encode ann, 7)]) _), (Proc (encode ann) [] (Granted (codes "pool1"))), (Proc (encode ann) [] (Granted (codes "pool1"))).
  split_and!; [reflexivity|done|done|].
  apply (concurrent_exclusive pool (Sys (pool ++ [(encode ann, 7)]) [Proc (encode ann) [] (Granted (codes "pool1")); Proc (encode ann) [] (Granted (codes "pool1"))])
    _ _ (codes "pool1") wf_pool); [|by left|by right; left|done|done|done].
  start1 subject_ann. run1 0%nat ask_none. run1 0%nat (scan_pick _ _ _ (codes "pool1") 7). run1 0%nat link_done. run1 0%nat stat_two.
  run1 0%nat check_two. run1 0%nat (look2_found _ _ _ _ (codes "pool1")).
  start1 subject_ann. run1 1%nat ask_two. run1 1%nat (look1_found _ _ _ _ (codes "pool1")). apply rtc_refl.
Defined.
End GridmapDir.
