(* ===== verification/SshBuf.v ===== *)
(** * Buffers of GSI-OpenSSH (gsi_openssh/source/sshbuf.c, sshbuf-getput-basic.c)

    A buffer has its bytes in a block that it owns or, when it is read-only, in a block
    of someone else: the parent it was taken from, which it keeps alive by a reference,
    or the memory of the caller. The heap has the structures and the blocks; what is
    freed is removed from it, and an access outside a block, to a freed one, or to a
    buffer that fails the sanity check (which raises SIGSEGV) is a fault. [size_t] has
    64 bits; all sizes that pass the checks are far below that. Labels, which are only
    printed, are left out. *)
From S2P Require Import Prelude.
Local Open Scope Z_scope.

Module SshBuf.

(** ** Constants *)

Definition SSHBUF_SIZE_MAX : Z := 134217728.
Definition SSHBUF_REFS_MAX : Z := 1048576.
Definition SSHBUF_MAX_BIGNUM : Z := 16384 / 8.
Definition SSHBUF_SIZE_INIT : Z := 256.
Definition SSHBUF_SIZE_INC : Z := 256.
Definition SSHBUF_PACK_MIN : Z := 8192.
Definition BUF_WATERSHED : Z := 256 * 1024.
Definition SIZE_MAX : Z := 2 ^ 64 - 1.

Definition BUF_CHANNEL_OUTPUT : Z := 0.
Definition BUF_CHANNEL_INPUT : Z := 1.
Definition BUF_MAX_TYPE : Z := 7.

Definition SSH_ERR_INTERNAL_ERROR : Z := -1.
Definition SSH_ERR_ALLOC_FAIL : Z := -2.
Definition SSH_ERR_MESSAGE_INCOMPLETE : Z := -3.
Definition SSH_ERR_INVALID_FORMAT : Z := -4.
Definition SSH_ERR_BIGNUM_IS_NEGATIVE : Z := -5.
Definition SSH_ERR_STRING_TOO_LARGE : Z := -6.
Definition SSH_ERR_BIGNUM_TOO_LARGE : Z := -7.
Definition SSH_ERR_NO_BUFFER_SPACE : Z := -9.
Definition SSH_ERR_INVALID_ARGUMENT : Z := -10.
Definition SSH_ERR_BUFFER_READ_ONLY : Z := -49.

Definition ROUNDUP (x y : Z) : Z := (x + (y - 1)) / y * y.

(** ** The heap *)

Abbreviation addr := (loc * Z)%type (only parsing).

Record sshbuf := Sshbuf {
  d : option addr;
  cd : option addr;
  off : Z;
  size : Z;
  max_size : Z;
  alloc : Z;
  readonly : bool;
  refcount : Z;
  parent : option loc;
  btype : Z }.

Record world := World { bufs : gmap loc sshbuf; mem : gmap loc (list Z); fresh : loc; script : list bool }.

Abbreviation M := (prog world) (only parsing).

(** The next allocation: whether it succeeds. *)
Definition allocates : M bool :=
  w ← Prelude.get; _ ← Prelude.put (World (bufs w) (mem w) (fresh w) (tl (script w))); mret (hd true (script w)).

(** No allocation fails. *)
Definition plenty (w : world) : Prop := Forall (fun ok => ok = true) (script w).

Definition zeros (n : Z) : list Z := replicate (Z.to_nat n) 0.

(** [calloc] of bytes and of a structure. *)
Definition calloc (n : Z) : M (option loc) :=
  ok ← allocates;
  if (ok : bool) then
    w ← Prelude.get;
    _ ← Prelude.put (World (bufs w) (<[fresh w := zeros n]> (mem w)) (Pos.succ (fresh w)) (script w));
    mret (Some (fresh w))
  else mret None.

Definition calloc_buf (b : sshbuf) : M (option loc) :=
  ok ← allocates;
  if (ok : bool) then
    w ← Prelude.get;
    _ ← Prelude.put (World (<[fresh w := b]> (bufs w)) (mem w) (Pos.succ (fresh w)) (script w));
    mret (Some (fresh w))
  else mret None.

Definition load (buf : loc) : M sshbuf := w ← Prelude.get; run (deref (bufs w !! buf)).
Definition store (buf : loc) (b : sshbuf) : M unit :=
  w ← Prelude.get;
  _ ← run (deref (bufs w !! buf));
  Prelude.put (World (<[buf := b]> (bufs w)) (mem w) (fresh w) (script w)).
Definition free_buf (buf : loc) : M unit :=
  w ← Prelude.get;
  _ ← run (deref (bufs w !! buf));
  Prelude.put (World (delete buf (bufs w)) (mem w) (fresh w) (script w)).

Definition read_block (l : loc) : M (list Z) := w ← Prelude.get; run (deref (mem w !! l)).
Definition write_block (l : loc) (s : list Z) : M unit :=
  w ← Prelude.get; Prelude.put (World (bufs w) (<[l := s]> (mem w)) (fresh w) (script w)).
Definition free_block (l : loc) : M unit :=
  w ← Prelude.get;
  _ ← run (deref (mem w !! l));
  Prelude.put (World (bufs w) (delete l (mem w)) (fresh w) (script w)).

Definition in_block (s : list Z) (o n : Z) : bool := (0 <=? o) && (0 <=? n) && (o + n <=? Z.of_nat (length s)).
Definition bytes_at (s : list Z) (o n : Z) : list Z := take (Z.to_nat n) (drop (Z.to_nat o) s).
Definition splice (s : list Z) (o : Z) (v : list Z) : list Z :=
  take (Z.to_nat o) s ++ v ++ drop (Z.to_nat o + length v) s.

(** [memcpy] from and to an address. *)
Definition peek_bytes (p : addr) (n : Z) : M (list Z) :=
  s ← read_block p.1;
  if in_block s p.2 n then mret (bytes_at s p.2 n) else run (Fault OutOfBounds).
Definition poke_bytes (p : addr) (v : list Z) : M unit :=
  s ← read_block p.1;
  if in_block s p.2 (Z.of_nat (length v)) then write_block p.1 (splice s p.2 v) else run (Fault OutOfBounds).

(** The new block has what fits of the old one, and zeros. *)
Definition recallocarray (p : addr) (oldn newn : Z) : M (option loc) :=
  r ← calloc newn;
  match r with
  | None => mret None
  | Some l =>
      s ← peek_bytes p (Z.min oldn newn);
      _ ← poke_bytes (l, 0) s;
      _ ← free_block p.1;
      mret (Some l)
  end.

(** ** sshbuf.c *)

Definition sane (buf : loc) (b : sshbuf) : bool :=
  negb ((negb (readonly b) && negb (bool_decide (d b = cd b))) || bool_decide (parent b = Some buf) ||
        (refcount b <? 1) || (refcount b >? SSHBUF_REFS_MAX) || bool_decide (cd b = None) ||
        (max_size b >? SSHBUF_SIZE_MAX) || (alloc b >? max_size b) || (size b >? alloc b) || (off b >? size b)).

(** Returns the structure; a buffer that is not sane raises SIGSEGV. *)
Definition sshbuf_check_sanity (buf : loc) : M sshbuf :=
  b ← load buf; if sane buf b then mret b else run (Fault AssertFail).

Definition set_bounds (b : sshbuf) (off size : Z) : sshbuf :=
  Sshbuf (d b) (cd b) off size (max_size b) (alloc b) (readonly b) (refcount b) (parent b) (btype b).
Definition set_block (b : sshbuf) (l : loc) (alloc : Z) : sshbuf :=
  Sshbuf (Some (l, 0)) (Some (l, 0)) (off b) (size b) (max_size b) alloc (readonly b) (refcount b) (parent b) (btype b).
Definition set_max (b : sshbuf) (m : Z) : sshbuf :=
  Sshbuf (d b) (cd b) (off b) (size b) m (alloc b) (readonly b) (refcount b) (parent b) (btype b).
Definition set_refs (b : sshbuf) (n : Z) : sshbuf :=
  Sshbuf (d b) (cd b) (off b) (size b) (max_size b) (alloc b) (readonly b) n (parent b) (btype b).
Definition set_parent_of (b : sshbuf) (p : option loc) : sshbuf :=
  Sshbuf (d b) (cd b) (off b) (size b) (max_size b) (alloc b) (readonly b) (refcount b) p (btype b).
Definition set_type (b : sshbuf) (t : Z) : sshbuf :=
  Sshbuf (d b) (cd b) (off b) (size b) (max_size b) (alloc b) (readonly b) (refcount b) (parent b) t.

Definition plus (p : addr) (n : Z) : addr := (p.1, p.2 + n).
Definition shared (b : sshbuf) : bool := readonly b || (refcount b >? 1).

Definition sshbuf_type (buf : loc) (type : Z) : M unit :=
  b ← load buf; if type <? BUF_MAX_TYPE then store buf (set_type b type) else mret tt.

Definition sshbuf_maybe_pack (buf : loc) (force : bool) : M unit :=
  b ← load buf;
  if (off b =? 0) || readonly b || (refcount b >? 1) then mret tt
  else if force || ((off b >=? SSHBUF_PACK_MIN) && (off b >=? size b / 2)) then
    p ← run (deref (d b));
    s ← peek_bytes (plus p (off b)) (size b - off b);
    _ ← poke_bytes p s;
    store buf (set_bounds b 0 (size b - off b))
  else mret tt.

Definition sshbuf_new_label : M (option loc) :=
  r ← calloc_buf (Sshbuf None None 0 0 SSHBUF_SIZE_MAX SSHBUF_SIZE_INIT false 1 None 0);
  match r with
  | None => mret None
  | Some buf =>
      l ← calloc SSHBUF_SIZE_INIT;
      match l with
      | None => _ ← free_buf buf; mret None
      | Some l => b ← load buf; _ ← store buf (set_block b l SSHBUF_SIZE_INIT); mret (Some buf)
      end
  end.

Definition sshbuf_from (blob : option addr) (len : Z) : M (option loc) :=
  if bool_decide (blob = None) || (len >? SSHBUF_SIZE_MAX) then mret None
  else calloc_buf (Sshbuf None blob 0 len len len true 1 None 0).

Definition sshbuf_set_parent (child parent_ : loc) : M Z :=
  c ← sshbuf_check_sanity child;
  p ← sshbuf_check_sanity parent_;
  if (negb (bool_decide (parent c = None)) && negb (bool_decide (parent c = Some parent_))) || bool_decide (child = parent_)
  then mret SSH_ERR_INTERNAL_ERROR
  else
    _ ← store child (set_parent_of c (Some parent_));
    _ ← store parent_ (set_refs p (refcount p + 1));
    mret 0.

(** Following the parents takes [n] calls at most. *)
Fixpoint free_chain (n : nat) (buf : option loc) : M unit :=
  match buf with
  | None => mret tt
  | Some buf =>
      match n with
      | O => run (Fault OutOfFuel)
      | S n =>
          b ← sshbuf_check_sanity buf;
          let b := set_refs b (refcount b - 1) in
          _ ← store buf b;
          if refcount b >? 0 then mret tt
          else
            _ ← free_chain n (parent b);
            _ ← (if negb (readonly b) then p ← run (deref (d b)); free_block p.1 else mret tt);
            free_buf buf
      end
  end.

Definition sshbuf_free (buf : option loc) : M unit := w ← Prelude.get; free_chain (S (stdpp.base.size (bufs w))) buf.

Definition sshbuf_len (buf : loc) : M Z := b ← sshbuf_check_sanity buf; mret (size b - off b).

Definition sshbuf_ptr (buf : loc) : M addr :=
  b ← sshbuf_check_sanity buf; p ← run (deref (cd b)); mret (plus p (off b)).

Definition sshbuf_mutable_ptr (buf : loc) : M (option addr) :=
  b ← sshbuf_check_sanity buf;
  if shared b then mret None else p ← run (deref (d b)); mret (Some (plus p (off b))).

Definition sshbuf_fromb (buf : loc) : M (option loc) :=
  _ ← sshbuf_check_sanity buf;
  p ← sshbuf_ptr buf;
  n ← sshbuf_len buf;
  r ← sshbuf_from (Some p) n;
  match r with
  | None => mret None
  | Some ret =>
      e ← sshbuf_set_parent ret buf;
      if negb (e =? 0) then _ ← sshbuf_free (Some ret); mret None else mret (Some ret)
  end.

Definition sshbuf_reset (buf : loc) : M unit :=
  b ← load buf;
  if shared b then store buf (set_bounds b (size b) (size b))
  else
    b ← sshbuf_check_sanity buf;
    let b := set_bounds b 0 0 in
    _ ← store buf b;
    p ← run (deref (d b));
    l ← (if negb (alloc b =? SSHBUF_SIZE_INIT) then recallocarray p (alloc b) SSHBUF_SIZE_INIT else mret None);
    let b := match l with Some l => set_block b l SSHBUF_SIZE_INIT | None => b end in
    _ ← store buf b;
    p ← run (deref (d b));
    poke_bytes p (zeros (alloc b)).

Definition sshbuf_max_size (buf : loc) : M Z := b ← load buf; mret (max_size b).
Definition sshbuf_alloc (buf : loc) : M Z := b ← load buf; mret (alloc b).
Definition sshbuf_parent (buf : loc) : M (option loc) := b ← load buf; mret (parent b).
Definition sshbuf_refcount (buf : loc) : M Z := b ← load buf; mret (refcount b).

(** Reallocation in [sshbuf_set_max_size]: [None] when memory runs out. *)
Definition shrink (buf : loc) (new_max : Z) : M (option unit) :=
  b ← load buf;
  if (new_max <? alloc b) && (new_max >? size b) then
    let rlen := if size b <? SSHBUF_SIZE_INIT then SSHBUF_SIZE_INIT else ROUNDUP (size b) SSHBUF_SIZE_INC in
    let rlen := if rlen >? new_max then new_max else rlen in
    p ← run (deref (d b));
    l ← recallocarray p (alloc b) rlen;
    match l with
    | None => mret None
    | Some l => _ ← store buf (set_block b l rlen); mret (Some tt)
    end
  else mret (Some tt).

Definition sshbuf_set_max_size (buf : loc) (new_max : Z) : M Z :=
  b ← sshbuf_check_sanity buf;
  if new_max =? max_size b then mret 0
  else if shared b then mret SSH_ERR_BUFFER_READ_ONLY
  else if new_max >? SSHBUF_SIZE_MAX then mret SSH_ERR_NO_BUFFER_SPACE
  else
    _ ← sshbuf_maybe_pack buf (new_max <? size b);
    r ← shrink buf new_max;
    match r with
    | None => mret SSH_ERR_ALLOC_FAIL
    | Some _ =>
        b ← load buf;
        if new_max <? alloc b then mret SSH_ERR_NO_BUFFER_SPACE
        else _ ← store buf (set_max b new_max); mret 0
    end.

Definition sshbuf_avail (buf : loc) : M Z :=
  b ← sshbuf_check_sanity buf;
  if shared b then mret 0
  else if btype b =? BUF_CHANNEL_INPUT then
    let headroom := max_size b - max_size b / 21 in
    let used := size b - off b in
    mret (if used >=? headroom then 0 else headroom - used)
  else mret (max_size b - (size b - off b)).

Definition sshbuf_check_reserve (buf : loc) (len : Z) : M Z :=
  b ← sshbuf_check_sanity buf;
  mret (if shared b then SSH_ERR_BUFFER_READ_ONLY
        else if (len >? max_size b) || (max_size b - len <? size b - off b) then SSH_ERR_NO_BUFFER_SPACE
        else 0).

(** The size of the new block. *)
Definition grown (b : sshbuf) (len : Z) : Z :=
  let need := len + size b - alloc b in
  let rlen := ROUNDUP (alloc b + need) SSHBUF_SIZE_INC in
  let rlen := if (rlen >? BUF_WATERSHED) && ((btype b =? BUF_CHANNEL_OUTPUT) || (btype b =? BUF_CHANNEL_INPUT))
              then ROUNDUP (alloc b + 4 * 1024 * 1024) SSHBUF_SIZE_INC else rlen in
  if rlen >? max_size b then max_size b else rlen.

Definition sshbuf_allocate (buf : loc) (len : Z) : M Z :=
  r ← sshbuf_check_reserve buf len;
  if negb (r =? 0) then mret r
  else
    b ← load buf;
    _ ← sshbuf_maybe_pack buf (size b + len >? max_size b);
    b ← load buf;
    if len + size b <=? alloc b then mret 0
    else
      let rlen := grown b len in
      p ← run (deref (d b));
      l ← recallocarray p (alloc b) rlen;
      match l with
      | None => mret SSH_ERR_ALLOC_FAIL
      | Some l =>
          _ ← store buf (set_block b l rlen);
          r ← sshbuf_check_reserve buf len;
          mret (if r <? 0 then r else 0)
      end.

(** The status, and the address of the reserved bytes. *)
Definition sshbuf_reserve (buf : loc) (len : Z) : M (Z * option addr) :=
  r ← sshbuf_allocate buf len;
  if negb (r =? 0) then mret (r, None)
  else
    b ← load buf;
    p ← run (deref (d b));
    _ ← store buf (set_bounds b (off b) (size b + len));
    mret (0, Some (plus p (size b))).

Definition sshbuf_consume (buf : loc) (len : Z) : M Z :=
  b ← sshbuf_check_sanity buf;
  if len =? 0 then mret 0
  else if len >? size b - off b then mret SSH_ERR_MESSAGE_INCOMPLETE
  else
    _ ← store buf (if off b + len =? size b then set_bounds b 0 0 else set_bounds b (off b + len) (size b));
    mret 0.

Definition sshbuf_consume_end (buf : loc) (len : Z) : M Z :=
  b ← sshbuf_check_sanity buf;
  if len =? 0 then mret 0
  else if len >? size b - off b then mret SSH_ERR_MESSAGE_INCOMPLETE
  else _ ← store buf (set_bounds b (off b) (size b - len)); mret 0.

Definition sshbuf_consume_upto_child (buf child : loc) : M Z :=
  b ← sshbuf_check_sanity buf;
  c ← sshbuf_check_sanity child;
  if negb (bool_decide (parent c = Some buf)) then mret SSH_ERR_INVALID_ARGUMENT
  else if size c - off c >? size b - off b then mret SSH_ERR_INVALID_ARGUMENT
  else
    p ← run (deref (cd b));
    q ← run (deref (cd c));
    if q.2 <? p.2 then mret SSH_ERR_INTERNAL_ERROR
    else sshbuf_consume buf ((size b - off b) - (size c - off c)).

(** ** sshbuf-getput-basic.c *)

Definition byte_of (v n : Z) : Z := Z.land (Z.shiftr v n) 255.
Definition at_ (s : list Z) (i : nat) (n : Z) : Z := Z.shiftl (nth i s 0) n.

Definition PEEK_U64 (s : list Z) : Z :=
  Z.lor (Z.lor (Z.lor (Z.lor (Z.lor (Z.lor (Z.lor (at_ s 0 56) (at_ s 1 48)) (at_ s 2 40)) (at_ s 3 32)) (at_ s 4 24)) (at_ s 5 16)) (at_ s 6 8)) (at_ s 7 0).
Definition PEEK_U32 (s : list Z) : Z := Z.lor (Z.lor (Z.lor (at_ s 0 24) (at_ s 1 16)) (at_ s 2 8)) (at_ s 3 0).
Definition PEEK_U16 (s : list Z) : Z := Z.lor (at_ s 0 8) (at_ s 1 0).

Definition POKE_U64 (v : Z) : list Z :=
  [byte_of v 56; byte_of v 48; byte_of v 40; byte_of v 32; byte_of v 24; byte_of v 16; byte_of v 8; byte_of v 0].
Definition POKE_U32 (v : Z) : list Z := [byte_of v 24; byte_of v 16; byte_of v 8; byte_of v 0].
Definition POKE_U16 (v : Z) : list Z := [byte_of v 8; byte_of v 0].

(** The status, and the bytes that are copied. *)
Definition sshbuf_get (buf : loc) (len : Z) : M (Z * list Z) :=
  p ← sshbuf_ptr buf;
  r ← sshbuf_consume buf len;
  if r <? 0 then mret (r, [])
  else v ← (if negb (len =? 0) then peek_bytes p len else mret []); mret (0, v).

(** The four functions for integers have the same shape. *)
Definition get_uint (n : Z) (peek : list Z -> Z) (buf : loc) : M (Z * Z) :=
  p ← sshbuf_ptr buf;
  r ← sshbuf_consume buf n;
  if r <? 0 then mret (r, 0) else s ← peek_bytes p n; mret (0, peek s).

Definition sshbuf_get_u64 : loc -> M (Z * Z) := get_uint 8 PEEK_U64.
Definition sshbuf_get_u32 : loc -> M (Z * Z) := get_uint 4 PEEK_U32.
Definition sshbuf_get_u16 : loc -> M (Z * Z) := get_uint 2 PEEK_U16.
Definition sshbuf_get_u8 : loc -> M (Z * Z) := get_uint 1 (fun s => nth 0 s 0).

Definition check_offset (buf : loc) (wr : bool) (offset len : Z) : M Z :=
  _ ← sshbuf_ptr buf;
  if offset >=? SIZE_MAX - len then mret SSH_ERR_INVALID_ARGUMENT
  else
    n ← sshbuf_len buf;
    mret (if offset + len >? n then if wr then SSH_ERR_NO_BUFFER_SPACE else SSH_ERR_MESSAGE_INCOMPLETE else 0).

Definition check_roffset (buf : loc) (offset len : Z) : M (Z * option addr) :=
  r ← check_offset buf false offset len;
  if negb (r =? 0) then mret (r, None) else p ← sshbuf_ptr buf; mret (0, Some (plus p offset)).

Definition peek_uint (n : Z) (peek : list Z -> Z) (buf : loc) (offset : Z) : M (Z * Z) :=
  '(r, p) ← check_roffset buf offset n;
  if negb (r =? 0) then mret (r, 0) else p ← run (deref p); s ← peek_bytes p n; mret (0, peek s).

Definition sshbuf_peek_u64 : loc -> Z -> M (Z * Z) := peek_uint 8 PEEK_U64.
Definition sshbuf_peek_u32 : loc -> Z -> M (Z * Z) := peek_uint 4 PEEK_U32.
Definition sshbuf_peek_u16 : loc -> Z -> M (Z * Z) := peek_uint 2 PEEK_U16.
Definition sshbuf_peek_u8 : loc -> Z -> M (Z * Z) := peek_uint 1 (fun s => nth 0 s 0).

(** The status, and the address and the length of the string. *)
Definition sshbuf_peek_string_direct (buf : loc) : M (Z * option (addr * Z)) :=
  p ← sshbuf_ptr buf;
  n ← sshbuf_len buf;
  if n <? 4 then mret (SSH_ERR_MESSAGE_INCOMPLETE, None)
  else
    s ← peek_bytes p 4;
    let len := PEEK_U32 s in
    if len >? SSHBUF_SIZE_MAX - 4 then mret (SSH_ERR_STRING_TOO_LARGE, None)
    else if n - 4 <? len then mret (SSH_ERR_MESSAGE_INCOMPLETE, None)
    else mret (0, Some (plus p 4, len)).

Definition sshbuf_get_string_direct (buf : loc) : M (Z * option (addr * Z)) :=
  '(r, v) ← sshbuf_peek_string_direct buf;
  if r <? 0 then mret (r, None)
  else
    '(p, len) ← run (deref v);
    e ← sshbuf_consume buf (len + 4);
    if negb (e =? 0) then mret (SSH_ERR_INTERNAL_ERROR, None) else mret (0, Some (p, len)).

(** The copy of [len] bytes that is returned in a block of the caller. *)
Definition copy_out (p : addr) (len : Z) : M (Z * list Z) :=
  ok ← allocates;
  if negb ok then mret (SSH_ERR_ALLOC_FAIL, [])
  else s ← (if negb (len =? 0) then peek_bytes p len else mret []); mret (0, s).

Definition sshbuf_get_string (buf : loc) : M (Z * list Z) :=
  '(r, v) ← sshbuf_get_string_direct buf;
  if r <? 0 then mret (r, []) else '(p, len) ← run (deref v); copy_out p len.

(** The position of the first NUL. *)
Fixpoint memchr0 (s : list Z) : option nat :=
  match s with
  | [] => None
  | c :: s => if c =? 0 then Some 0%nat else S <$> memchr0 s
  end.

Definition sshbuf_get_cstring (buf : loc) : M (Z * list Z) :=
  '(r, v) ← sshbuf_peek_string_direct buf;
  if negb (r =? 0) then mret (r, [])
  else
    '(p, len) ← run (deref v);
    s ← peek_bytes p len;
    if match memchr0 s with Some z => Z.of_nat z <? len - 1 | None => false end then mret (SSH_ERR_INVALID_FORMAT, [])
    else
      '(r, _) ← sshbuf_get_string_direct buf;
      if negb (r =? 0) then mret (-1, []) else copy_out p len.

Definition sshbuf_get_stringb (buf v : loc) : M Z :=
  '(r, _) ← sshbuf_peek_string_direct buf;
  if negb (r =? 0) then mret r
  else
    '(r, len) ← sshbuf_get_u32 buf;
    if negb (r =? 0) then mret r
    else
      '(r, p) ← sshbuf_reserve v len;
      if negb (r =? 0) then mret r
      else
        '(r, s) ← sshbuf_get buf len;
        if negb (r =? 0) then mret r else p ← run (deref p); _ ← poke_bytes p s; mret 0.

(** [src]: the bytes of the caller, read when they are copied. *)
Definition put_from (buf : loc) (len : Z) (src : M (list Z)) : M Z :=
  '(r, p) ← sshbuf_reserve buf len;
  if r <? 0 then mret r
  else _ ← (if negb (len =? 0) then v ← src; p ← run (deref p); poke_bytes p v else mret tt); mret 0.

Definition sshbuf_put (buf : loc) (v : list Z) : M Z := put_from buf (Z.of_nat (length v)) (mret v).

Definition sshbuf_putb (buf : loc) (v : option loc) : M Z :=
  match v with
  | None => mret 0
  | Some v => p ← sshbuf_ptr v; n ← sshbuf_len v; put_from buf n (peek_bytes p n)
  end.

(** [text]: what the format prints. *)
Definition sshbuf_putfv (buf : loc) (text : list Z) : M Z :=
  if bool_decide (text = []) then mret 0
  else
    '(r, p) ← sshbuf_reserve buf (Z.of_nat (length text) + 1);
    if r <? 0 then mret r
    else p ← run (deref p); _ ← poke_bytes p (text ++ [0]); sshbuf_consume_end buf 1.

Definition put_uint (poke : Z -> list Z) (n : Z) (buf : loc) (val : Z) : M Z :=
  '(r, p) ← sshbuf_reserve buf n;
  if r <? 0 then mret r else p ← run (deref p); _ ← poke_bytes p (poke val); mret 0.

Definition sshbuf_put_u64 : loc -> Z -> M Z := put_uint POKE_U64 8.
Definition sshbuf_put_u32 : loc -> Z -> M Z := put_uint POKE_U32 4.
Definition sshbuf_put_u16 : loc -> Z -> M Z := put_uint POKE_U16 2.
Definition sshbuf_put_u8 : loc -> Z -> M Z := put_uint (fun v => [v]) 1.

Definition check_woffset (buf : loc) (offset len : Z) : M (Z * option addr) :=
  r ← check_offset buf true offset len;
  if negb (r =? 0) then mret (r, None)
  else
    p ← sshbuf_mutable_ptr buf;
    mret match p with None => (SSH_ERR_BUFFER_READ_ONLY, None) | Some p => (0, Some (plus p offset)) end.

Definition sshbuf_poke (buf : loc) (offset : Z) (v : list Z) : M Z :=
  '(r, p) ← check_woffset buf offset (Z.of_nat (length v));
  if negb (r =? 0) then mret r else p ← run (deref p); _ ← poke_bytes p v; mret 0.

Definition sshbuf_poke_u64 (buf : loc) (offset val : Z) : M Z := sshbuf_poke buf offset (POKE_U64 val).
Definition sshbuf_poke_u32 (buf : loc) (offset val : Z) : M Z := sshbuf_poke buf offset (POKE_U32 val).
Definition sshbuf_poke_u16 (buf : loc) (offset val : Z) : M Z := sshbuf_poke buf offset (POKE_U16 val).
Definition sshbuf_poke_u8 (buf : loc) (offset val : Z) : M Z := sshbuf_poke buf offset [val].

Definition put_string_from (buf : loc) (len : Z) (src : M (list Z)) : M Z :=
  if len >? SSHBUF_SIZE_MAX - 4 then mret SSH_ERR_NO_BUFFER_SPACE
  else
    '(r, p) ← sshbuf_reserve buf (len + 4);
    if r <? 0 then mret r
    else
      p ← run (deref p);
      _ ← poke_bytes p (POKE_U32 len);
      _ ← (if negb (len =? 0) then v ← src; poke_bytes (plus p 4) v else mret tt);
      mret 0.

Definition sshbuf_put_string (buf : loc) (v : list Z) : M Z := put_string_from buf (Z.of_nat (length v)) (mret v).

Definition sshbuf_put_cstring (buf : loc) (v : option (list Z)) : M Z := sshbuf_put_string buf (default [] v).

Definition sshbuf_put_stringb (buf : loc) (v : option loc) : M Z :=
  match v with
  | None => sshbuf_put_string buf []
  | Some v => p ← sshbuf_ptr v; n ← sshbuf_len v; put_string_from buf n (peek_bytes p n)
  end.

Definition sshbuf_froms (buf : loc) : M (Z * option loc) :=
  '(r, v) ← sshbuf_peek_string_direct buf;
  if negb (r =? 0) then mret (r, None)
  else
    '(p, len) ← run (deref v);
    ret ← sshbuf_from (Some p) len;
    match ret with
    | None => mret (SSH_ERR_ALLOC_FAIL, None)
    | Some ret =>
        r ← sshbuf_consume buf (len + 4);
        r ← (if negb (r =? 0) then mret r else sshbuf_set_parent ret buf);
        if negb (r =? 0) then _ ← sshbuf_free (Some ret); mret (r, None) else mret (0, Some ret)
    end.

(** The number without its leading zeros. *)
Fixpoint strip_zeros (s : list Z) : list Z :=
  match s with
  | c :: s' => if c =? 0 then strip_zeros s' else s
  | [] => []
  end.

Definition high_bit (s : list Z) : bool := match s with c :: _ => negb (Z.land c 128 =? 0) | [] => false end.

Definition sshbuf_put_bignum2_bytes (buf : loc) (v : list Z) : M Z :=
  if Z.of_nat (length v) >? SSHBUF_SIZE_MAX - 5 then mret SSH_ERR_NO_BUFFER_SPACE
  else
    let s := strip_zeros v in
    let len := Z.of_nat (length s) in
    let prepend := if high_bit s then 1 else 0 in
    '(r, p) ← sshbuf_reserve buf (len + 4 + prepend);
    if r <? 0 then mret r
    else
      p ← run (deref p);
      _ ← poke_bytes p (POKE_U32 (len + prepend));
      _ ← (if prepend =? 1 then poke_bytes (plus p 4) [0] else mret tt);
      _ ← (if negb (len =? 0) then poke_bytes (plus p (4 + prepend)) s else mret tt);
      mret 0.

(** The status and the bytes of the number, without leading zeros. *)
Definition sshbuf_get_bignum2_bytes_direct (buf : loc) : M (Z * list Z) :=
  '(r, v) ← sshbuf_peek_string_direct buf;
  if r <? 0 then mret (r, [])
  else
    '(p, olen) ← run (deref v);
    s ← peek_bytes p olen;
    if high_bit s then mret (SSH_ERR_BIGNUM_IS_NEGATIVE, [])
    else if (olen >? SSHBUF_MAX_BIGNUM + 1) || ((olen =? SSHBUF_MAX_BIGNUM + 1) && negb (nth 0 s 0 =? 0))
    then mret (SSH_ERR_BIGNUM_TOO_LARGE, [])
    else
      e ← sshbuf_consume buf (olen + 4);
      if negb (e =? 0) then mret (SSH_ERR_INTERNAL_ERROR, []) else mret (0, strip_zeros s).

Definition sshbuf_find0 (buf : loc) : M (Z * Z) :=
  p ← sshbuf_ptr buf;
  n ← sshbuf_len buf;
  if 0 + 1 >? n then mret (SSH_ERR_MESSAGE_INCOMPLETE, 0)
  else
    s ← peek_bytes p n;
    mret match memchr0 s with None => (SSH_ERR_INVALID_FORMAT, 0) | Some i => (0, Z.of_nat i) end.

Definition sshbuf_get_nulterminated_string (buf : loc) (maxlen : Z) : M (Z * list Z) :=
  '(r, len) ← sshbuf_find0 buf;
  n ← sshbuf_len buf;
  if negb (r =? 0) then mret (if (r =? SSH_ERR_INVALID_FORMAT) && (n <? maxlen) then SSH_ERR_MESSAGE_INCOMPLETE else r, [])
  else if len >? maxlen then mret (SSH_ERR_INVALID_FORMAT, [])
  else
    p ← sshbuf_ptr buf;
    '(e, val) ← copy_out p len;
    if negb (e =? 0) then mret (SSH_ERR_ALLOC_FAIL, [])
    else r ← sshbuf_consume buf (len + 1); mret (r, if r =? 0 then val else []).

(** ** The memory operations *)

Definition with_buf (w : world) (b : loc) (x : sshbuf) : world := World (<[b := x]> (bufs w)) (mem w) (fresh w) (script w).
Definition with_block (w : world) (l : loc) (s : list Z) : world := World (bufs w) (<[l := s]> (mem w)) (fresh w) (script w).

Lemma wp_load b x w Q : bufs w !! b = Some x -> Q x w -> wp (load b) w Q.
Proof. intros E HQ. unfold wp, load, mbind, prog_bind, Prelude.get, run. by rewrite E. Qed.

Lemma wp_store b x y w Q : bufs w !! b = Some y -> Q tt (with_buf w b x) -> wp (store b x) w Q.
Proof. intros E HQ. unfold wp, store, mbind, prog_bind, Prelude.get, run. by rewrite E. Qed.

Lemma wp_allocates w (Q : bool -> world -> Prop) :
  (~ plenty w -> Q false (World (bufs w) (mem w) (fresh w) (tl (script w)))) ->
  Q true (World (bufs w) (mem w) (fresh w) (tl (script w))) -> wp allocates w Q.
Proof.
  intros HN HS. unfold wp, allocates, mbind, prog_bind, Prelude.get, Prelude.put. cbn. destruct (script w) as [|[] sc] eqn:E; [done|done|].
  apply HN. unfold plenty. rewrite E. by intros [? _]%Forall_cons.
Qed.

Lemma plenty_tl b m f w : plenty w -> plenty (World b m f (tl (script w))).
Proof. unfold plenty. cbn. destruct (script w); [done|]. by intros [_ ?]%Forall_cons. Qed.

Lemma wp_peek p n s w Q :
  mem w !! p.1 = Some s -> in_block s p.2 n = true -> Q (bytes_at s p.2 n) w -> wp (peek_bytes p n) w Q.
Proof. intros E Hi HQ. unfold wp, peek_bytes, read_block, mbind, prog_bind, Prelude.get, run. rewrite E. cbn. by rewrite Hi. Qed.

Lemma wp_poke p v s w Q :
  mem w !! p.1 = Some s -> in_block s p.2 (Z.of_nat (length v)) = true -> Q tt (with_block w p.1 (splice s p.2 v)) -> wp (poke_bytes p v) w Q.
Proof. intros E Hi HQ. unfold wp, poke_bytes, read_block, mbind, prog_bind, Prelude.get, run. rewrite E. cbn. by rewrite Hi. Qed.

Lemma in_block_true s o n : 0 <= o -> 0 <= n -> o + n <= Z.of_nat (length s) -> in_block s o n = true.
Proof. intros. unfold in_block. zdecide. done. Qed.

Lemma bytes_at_length s o n : 0 <= o -> 0 <= n -> o + n <= Z.of_nat (length s) -> Z.of_nat (length (bytes_at s o n)) = n.
Proof. intros. unfold bytes_at. rewrite length_take, length_drop. lia. Qed.

Lemma bytes_at_length' s o n : 0 <= o -> 0 <= n -> o + n <= Z.of_nat (length s) -> length (bytes_at s o n) = Z.to_nat n.
Proof. intros. unfold bytes_at. rewrite length_take, length_drop. lia. Qed.

Lemma splice_length s o v : 0 <= o -> o + Z.of_nat (length v) <= Z.of_nat (length s) -> length (splice s o v) = length s.
Proof. intros. unfold splice. rewrite !length_app, length_take, length_drop. lia. Qed.

Lemma zeros_length n : 0 <= n -> Z.of_nat (length (zeros n)) = n.
Proof. intros. unfold zeros. rewrite length_replicate. lia. Qed.

Lemma bytes_at_lookup s o n i : bytes_at s o n !! i = if decide (i < Z.to_nat n)%nat then s !! (Z.to_nat o + i)%nat else None.
Proof.
  unfold bytes_at. destruct (decide (i < Z.to_nat n)%nat); [by rewrite lookup_take_lt, lookup_drop by lia|by rewrite lookup_take_ge by lia].
Qed.

Lemma splice_lookup s o v i :
  0 <= o -> o + Z.of_nat (length v) <= Z.of_nat (length s) ->
  splice s o v !! i =
    if decide (i < Z.to_nat o)%nat then s !! i
    else if decide (i < Z.to_nat o + length v)%nat then v !! (i - Z.to_nat o)%nat else s !! i.
Proof.
  intros Ho Hv. unfold splice. destruct (decide (i < Z.to_nat o)%nat).
  - by rewrite lookup_app_l, lookup_take_lt by (rewrite ?length_take; lia).
  - rewrite lookup_app_r, length_take by (rewrite length_take; lia). replace (Z.to_nat o `min` length s)%nat with (Z.to_nat o) by lia.
    destruct (decide (i < Z.to_nat o + length v)%nat); [by rewrite lookup_app_l by lia|].
    rewrite lookup_app_r, lookup_drop by lia. f_equal. lia.
Qed.

(** Equality of parts of blocks, byte by byte. *)
Ltac by_bytes :=
  apply list_eq; intros ?i; rewrite ?lookup_app, ?bytes_at_lookup, ?splice_lookup by lia;
  repeat (case_decide; try lia); try done.

Lemma bytes_at_splice_out s o v a n :
  0 <= o -> o + Z.of_nat (length v) <= Z.of_nat (length s) -> 0 <= a -> a + n <= o \/ o + Z.of_nat (length v) <= a ->
  bytes_at (splice s o v) a n = bytes_at s a n.
Proof. intros. by_bytes. Qed.

Lemma bytes_at_splice s o v : 0 <= o -> o + Z.of_nat (length v) <= Z.of_nat (length s) -> bytes_at (splice s o v) o (Z.of_nat (length v)) = v.
Proof.
  intros. apply list_eq. intros i. rewrite bytes_at_lookup. case_decide as D.
  - rewrite splice_lookup by lia. repeat (case_decide; try lia). f_equal. lia.
  - symmetry. apply lookup_ge_None_2. lia.
Qed.

Lemma bytes_at_app s o a b : 0 <= o -> 0 <= a -> 0 <= b -> o + a + b <= Z.of_nat (length s) -> bytes_at s o (a + b) = bytes_at s o a ++ bytes_at s (o + a) b.
Proof.
  intros. apply list_eq. intros i. rewrite lookup_app, !bytes_at_lookup. case_decide.
  - case_decide as D.
    + destruct (s !! (Z.to_nat o + i)%nat) eqn:E; [done|]. apply lookup_ge_None in E. lia.
    + assert (Z.of_nat (length (bytes_at s o a)) = a) as L by (apply bytes_at_length; lia). rewrite decide_True by lia. f_equal. lia.
  - rewrite decide_False by lia. assert (Z.of_nat (length (bytes_at s o a)) = a) as L by (apply bytes_at_length; lia).
    by rewrite decide_False by lia.
Qed.

(** ** The invariant

    [held]: how often the program holds a buffer, which is once when it created the
    buffer and did not free it. A buffer has a reference for that and one for each of
    its children. *)

Lemma sane_spec buf x :
  sane buf x = true <->
  (readonly x = false -> d x = cd x) /\ parent x <> Some buf /\ 1 <= refcount x <= SSHBUF_REFS_MAX /\ cd x <> None /\
  max_size x <= SSHBUF_SIZE_MAX /\ alloc x <= max_size x /\ size x <= alloc x /\ off x <= size x.
Proof.
  unfold sane. rewrite negb_true_iff, !orb_false_iff, andb_false_iff, !negb_false_iff, !bool_decide_eq_false, bool_decide_eq_true, !Z.gtb_ltb, !Z.ltb_ge.
  destruct (readonly x); naive_solver lia.
Qed.

Definition kids (w : world) (b : loc) : Z := Z.of_nat (stdpp.base.size (filter (fun e => parent e.2 = Some b) (bufs w))).

Definition byte (c : Z) : Prop := 0 <= c < 256.

Record WF (held : loc -> Z) (w : world) : Prop := {
  wf_sane : forall b x, bufs w !! b = Some x -> sane b x = true /\ 0 <= off x;
  wf_block : forall b x, bufs w !! b = Some x -> exists l o s, cd x = Some (l, o) /\ mem w !! l = Some s /\ 0 <= o /\
    o + alloc x <= Z.of_nat (length s) /\ (readonly x = false -> o = 0 /\ alloc x = Z.of_nat (length s) /\ parent x = None);
  wf_own : forall a b x y, bufs w !! a = Some x -> bufs w !! b = Some y -> readonly x = false ->
    fst <$> cd x = fst <$> cd y -> parent y = None -> a = b;
  wf_parent : forall b x p, bufs w !! b = Some x -> parent x = Some p ->
    (p < b)%positive /\ exists y, bufs w !! p = Some y /\ fst <$> cd x = fst <$> cd y;
  wf_refs : forall b x, bufs w !! b = Some x -> refcount x = held b + kids w b;
  wf_held : forall b, 0 <= held b /\ (held b <> 0 -> is_Some (bufs w !! b));
  wf_fresh_buf : forall b, is_Some (bufs w !! b) -> (b < fresh w)%positive;
  wf_fresh_mem : forall l, is_Some (mem w !! l) -> (l < fresh w)%positive;
  wf_bytes : forall l s, mem w !! l = Some s -> Forall byte s }.

(** The bytes of a buffer. *)
Definition bytes_of (w : world) (x : sshbuf) : list Z :=
  match cd x with
  | Some p => bytes_at (default [] (mem w !! p.1)) (p.2 + off x) (size x - off x)
  | None => []
  end.

Definition view (w : world) (b : loc) : option (list Z) := bytes_of w <$> bufs w !! b.

(** Nothing but one buffer changed. *)
Definition others (b : loc) (w w' : world) : Prop := forall c, c <> b -> bufs w' !! c = bufs w !! c /\ view w' c = view w c.

Lemma others_refl b w : others b w w.
Proof. by intros c. Qed.

Lemma others_trans b w1 w2 w3 : others b w1 w2 -> others b w2 w3 -> others b w1 w3.
Proof. intros H1 H2 c Hc. destruct (H2 c Hc) as [-> ->]. by apply H1. Qed.

Lemma kids_0 w b c x : kids w b = 0 -> bufs w !! c = Some x -> parent x <> Some b.
Proof.
  unfold kids. intros Hk Hc Hp. assert (filter (fun e : loc * sshbuf => parent e.2 = Some b) (bufs w) = ∅) as E by (apply map_size_empty_inv; lia).
  assert (filter (fun e : loc * sshbuf => parent e.2 = Some b) (bufs w) !! c = Some x) as F by (by apply map_lookup_filter_Some).
  rewrite E in F. done.
Qed.

(** A buffer that can be written and has no children shares its block with no other. *)
Lemma WF_alone held w a b x y :
  WF held w -> bufs w !! a = Some x -> bufs w !! b = Some y -> readonly x = false -> kids w a = 0 ->
  fst <$> cd x = fst <$> cd y -> a = b.
Proof.
  intros HW Ha. revert y. induction b as [b IH] using (induction_ltof1 _ Pos.to_nat). unfold ltof in IH. intros y Hb Hr Hk E.
  destruct (parent y) as [p|] eqn:P; [|by eapply (wf_own held w HW a b)].
  destruct (wf_parent held w HW b y p Hb P) as (Hlt & z & Hz & Ez).
  assert (a = p) as ->. { apply (IH p ltac:(lia) z); try done. by rewrite E. }
  by destruct (kids_0 w p b y Hk Hb).
Qed.

(** What an operation sees of a buffer that is held and that no other buffer shares. *)
Lemma WF_own_block held w b x :
  WF held w -> 1 <= held b -> bufs w !! b = Some x -> shared x = false ->
  exists l s, cd x = Some (l, 0) /\ d x = Some (l, 0) /\ mem w !! l = Some s /\ alloc x = Z.of_nat (length s) /\
    readonly x = false /\ refcount x = 1 /\ kids w b = 0 /\ parent x = None /\
    0 <= off x <= size x /\ size x <= alloc x <= max_size x /\ max_size x <= SSHBUF_SIZE_MAX /\
    (forall c y, bufs w !! c = Some y -> c <> b -> fst <$> cd y <> Some l).
Proof.
  intros HW Hh Hb Hs. unfold shared in Hs. apply orb_false_elim in Hs as [Hr Hs]. rewrite Z.gtb_ltb in Hs. apply Z.ltb_ge in Hs.
  destruct (wf_sane held w HW b x Hb) as [(Hd & _ & Href & _ & Hm & Ha & Hsz & Ho)%sane_spec Ho0].
  destruct (wf_block held w HW b x Hb) as (l & o & s & E & Hl & _ & _ & Hro). destruct (Hro Hr) as (-> & Has & Hp).
  pose proof (wf_refs held w HW b x Hb) as Hrf.
  assert (kids w b = 0) as Hk by (unfold kids in *; lia).
  exists l, s. rewrite (Hd Hr). split_and!; try done; try lia.
  intros c y Hc Hne El. apply Hne. symmetry. apply (WF_alone held w b c x y); try done. by rewrite E.
Qed.

Lemma kids_replace w b x x' m f s c :
  bufs w !! b = Some x -> parent x' = parent x -> kids (World (<[b := x']> (bufs w)) m f s) c = kids w c.
Proof.
  intros Hb Hp. unfold kids. cbn [bufs]. f_equal. rewrite map_filter_insert. cbn [snd]. rewrite Hp. case_decide as D.
  - rewrite map_size_insert_Some; [done|]. exists x. by apply map_lookup_filter_Some.
  - rewrite map_filter_delete, delete_id; [done|]. apply map_lookup_filter_None. right. intros y Hy. cbn. by simplify_eq.
Qed.

(** An operation that changes the structure and the block of one buffer. *)
Lemma WF_replace held w b x x' m f sc :
  WF held w -> bufs w !! b = Some x ->
  parent x' = parent x -> refcount x' = refcount x -> readonly x' = readonly x -> sane b x' = true -> 0 <= off x' ->
  (exists l o s, cd x' = Some (l, o) /\ m !! l = Some s /\ 0 <= o /\ o + alloc x' <= Z.of_nat (length s) /\
     (readonly x' = false -> o = 0 /\ alloc x' = Z.of_nat (length s))) ->
  fst <$> cd x' = fst <$> cd x \/ (kids w b = 0 /\ parent x = None /\ forall c y, bufs w !! c = Some y -> c <> b -> fst <$> cd y <> fst <$> cd x') ->
  (forall c y l, bufs w !! c = Some y -> c <> b -> fst <$> cd y = Some l -> m !! l = mem w !! l) ->
  (fresh w <= f)%positive -> (forall l, is_Some (m !! l) -> (l < f)%positive) -> (forall l s, m !! l = Some s -> Forall byte s) ->
  WF held (World (<[b := x']> (bufs w)) m f sc).
Proof.
  intros HW Hb Hp Href Hro Hs Ho Hblk Hpl Hm Hf Hfm Hby. split; cbn [bufs mem fresh].
  - intros c y. rewrite lookup_insert_Some. intros [[<- <-]|[Hne Hc]]; [done|by apply (wf_sane held w HW)].
  - intros c y. rewrite lookup_insert_Some. intros [[<- <-]|[Hne Hc]].
    + destruct Hblk as (l & o & s & E & Hl & Ho' & Hal & Hr). exists l, o, s. split_and!; try done. intros R. destruct (Hr R) as [-> ?].
      split_and!; [done|done|]. rewrite Hp. rewrite Hro in R. by destruct (wf_block held w HW b x Hb) as (? & ? & ? & _ & _ & _ & _ & (? & ? & ?)).
    + destruct (wf_block held w HW c y Hc) as (l & o & s & E & Hl & H). exists l, o, s. split_and!; [done| |apply H..].
      rewrite (Hm c y l); [done|done|done|]. by rewrite E.
  - intros a c u v. rewrite !lookup_insert_Some. intros [[<- <-]|[Ha Hu]] [[<- <-]|[Hc Hv]] R E P; [done| | |by apply (wf_own held w HW a c u v)].
    + destruct Hpl as [Hpl|(_ & _ & Hpl)]; [|by destruct (Hpl c v Hv)]. rewrite Hpl in E. rewrite Hro in R. by apply (wf_own held w HW b c x v).
    + destruct Hpl as [Hpl|(_ & _ & Hpl)]; [|by destruct (Hpl a u Hu)]. rewrite Hpl in E. rewrite Hp in P. by apply (wf_own held w HW a b u x).
  - intros c y q. rewrite lookup_insert_Some. intros [[<- <-]|[Hne Hc]] P.
    + rewrite Hp in P. destruct Hpl as [Hpl|(_ & Hpl & _)]; [|congruence]. destruct (wf_parent held w HW b x q Hb P) as (Hlt & z & Hz & Ez).
      split; [done|]. exists z. rewrite lookup_insert_ne by lia. split; [done|]. by rewrite Hpl.
    + destruct (wf_parent held w HW c y q Hc P) as (Hlt & z & Hz & Ez). split; [done|]. destruct (decide (b = q)) as [->|Hbq].
      * exists x'. rewrite lookup_insert_eq. split; [done|]. destruct Hpl as [Hpl|(Hk & _)]; [|by destruct (kids_0 w q c y Hk Hc)].
        rewrite Hpl, Ez. congruence.
      * exists z. by rewrite lookup_insert_ne by done.
  - intros c y. rewrite (kids_replace w b x) by done. rewrite lookup_insert_Some. intros [[<- <-]|[Hne Hc]]; [rewrite Href|]; by apply (wf_refs held w HW).
  - intros c. destruct (wf_held held w HW c) as [H0 H1]. split; [done|]. destruct (decide (b = c)) as [->|]; [rewrite lookup_insert_eq; eauto|].
    by rewrite lookup_insert_ne by done.
  - intros c. destruct (decide (b = c)) as [->|]; [intros _|rewrite lookup_insert_ne by done; intros Hc].
    + pose proof (wf_fresh_buf held w HW c ltac:(eauto)). lia.
    + pose proof (wf_fresh_buf held w HW c Hc). lia.
  - done.
  - done.
Qed.

Lemma others_replace w b x x' m f sc :
  bufs w !! b = Some x -> (forall c y l, bufs w !! c = Some y -> c <> b -> fst <$> cd y = Some l -> m !! l = mem w !! l) ->
  others b w (World (<[b := x']> (bufs w)) m f sc).
Proof.
  intros Hb Hm c Hc. unfold view. cbn [bufs]. rewrite lookup_insert_ne by done. split; [done|].
  destruct (bufs w !! c) as [y|] eqn:E; [|done]. cbn. f_equal. unfold bytes_of. destruct (cd y) as [[l o]|] eqn:C; [|done]. cbn [fst snd mem].
  rewrite (Hm c y l); [done|done|done|]. by rewrite C.
Qed.

Lemma WF_script held w sc : WF held w -> WF held (World (bufs w) (mem w) (fresh w) sc).
Proof. intros []. by split. Qed.

Lemma plenty_tl' w b m f sc : script w = sc -> plenty w -> plenty (World b m f (tl sc)).
Proof. intros <-. apply plenty_tl. Qed.

(** ** Reading *)

Lemma bytes_at_take s o n m : 0 <= n <= m -> bytes_at s o n = take (Z.to_nat n) (bytes_at s o m).
Proof. intros. unfold bytes_at. rewrite take_take. f_equal. lia. Qed.

Lemma bytes_at_drop s o n m : 0 <= o -> 0 <= n <= m -> bytes_at s (o + n) (m - n) = drop (Z.to_nat n) (bytes_at s o m).
Proof. intros. unfold bytes_at. rewrite skipn_firstn_comm, drop_drop. f_equal; [lia|]. f_equal. lia. Qed.

Lemma bytes_at_0 s o n : n <= 0 -> bytes_at s o n = [].
Proof. intros. unfold bytes_at. by replace (Z.to_nat n) with 0%nat by lia. Qed.

(** What an operation sees of any buffer. *)
Lemma WF_see held w b x :
  WF held w -> bufs w !! b = Some x ->
  exists l o s, cd x = Some (l, o) /\ mem w !! l = Some s /\ 0 <= o /\ 0 <= off x <= size x /\ size x <= alloc x <= max_size x /\
    o + alloc x <= Z.of_nat (length s) /\ max_size x <= SSHBUF_SIZE_MAX /\ sane b x = true /\
    view w b = Some (bytes_at s (o + off x) (size x - off x)).
Proof.
  intros HW Hb. destruct (wf_sane held w HW b x Hb) as [Hs Ho]. pose proof Hs as (_ & _ & _ & _ & Hm & Ha & Hsz & Hof)%sane_spec.
  destruct (wf_block held w HW b x Hb) as (l & o & s & E & Hl & Ho0 & Hlen & _). exists l, o, s. split_and!; try done; try lia.
  unfold view, bytes_of. rewrite Hb. cbn. rewrite E. cbn [fst snd]. by rewrite Hl.
Qed.

Lemma wp_sanity held w b x Q : WF held w -> bufs w !! b = Some x -> Q x w -> wp (sshbuf_check_sanity b) w Q.
Proof.
  intros HW Hb HQ. unfold sshbuf_check_sanity. apply wp_bind, (wp_load b x); [done|]. destruct (wf_sane held w HW b x Hb) as [-> _]. done.
Qed.

Lemma view_Some held w b v : WF held w -> view w b = Some v -> exists x, bufs w !! b = Some x.
Proof. unfold view. destruct (bufs w !! b); [eauto|done]. Qed.

Lemma wp_ptr held w b x l o Q : WF held w -> bufs w !! b = Some x -> cd x = Some (l, o) -> Q (l, o + off x) w -> wp (sshbuf_ptr b) w Q.
Proof.
  intros HW Hb E HQ. unfold sshbuf_ptr. apply wp_bind, (wp_sanity held w b x); [done|done|]. apply wp_bind, (wp_run _ (l, o)); [by rewrite E|done].
Qed.

Lemma wp_len held w b v Q : WF held w -> view w b = Some v -> Q (Z.of_nat (length v)) w -> wp (sshbuf_len b) w Q.
Proof.
  intros HW Hv HQ. destruct (view_Some held w b v HW Hv) as [x Hb]. destruct (WF_see held w b x HW Hb) as (l & o & s & E & Hl & Ho & Hof & Hsz & Hlen & _ & _ & Hv').
  unfold sshbuf_len. apply wp_bind, (wp_sanity held w b x); [done|done|]. apply wp_ret. rewrite Hv in Hv'. injection Hv' as ->.
  rewrite bytes_at_length in HQ by lia. done.
Qed.

(** Moving the bounds of a buffer within its block. *)
Lemma WF_bounds held w b x n m :
  WF held w -> bufs w !! b = Some x -> 0 <= n <= m -> m <= alloc x -> WF held (with_buf w b (set_bounds x n m)).
Proof.
  intros HW Hb Hn Hm. destruct (wf_sane held w HW b x Hb) as [(? & ? & ? & ? & ? & ? & ? & ?)%sane_spec ?].
  apply (WF_replace held w b x); try done.
  - apply sane_spec. cbn. split_and!; try done; lia.
  - cbn. lia.
  - destruct (wf_block held w HW b x Hb) as (l & o & s & E & Hl & Hblk). exists l, o, s. cbn. naive_solver.
  - by left.
  - by apply (wf_fresh_mem held w HW).
  - by apply (wf_bytes held w HW).
Qed.

Lemma others_bounds w b x n m : bufs w !! b = Some x -> others b w (with_buf w b (set_bounds x n m)).
Proof. intros Hb. by apply (others_replace w b x). Qed.

(** Taking bytes from the front and from the end. *)
Lemma consume_wp held w b v len :
  WF held w -> view w b = Some v -> 0 <= len ->
  wp (sshbuf_consume b len) w (fun r w' =>
    WF held w' /\ others b w w' /\ mem w' = mem w /\ script w' = script w /\
    (len <= Z.of_nat (length v) /\ r = 0 /\ view w' b = Some (drop (Z.to_nat len) v) \/
     Z.of_nat (length v) < len /\ r = SSH_ERR_MESSAGE_INCOMPLETE /\ w' = w)).
Proof.
  intros HW Hv Hlen. destruct (view_Some held w b v HW Hv) as [x Hb].
  destruct (WF_see held w b x HW Hb) as (l & o & s & E & Hl & Ho & Hof & Hsz & Hal & _ & _ & Hv'). rewrite Hv in Hv'. injection Hv' as Ev.
  assert (Z.of_nat (length v) = size x - off x) as Lv by (rewrite Ev; apply bytes_at_length; lia).
  unfold sshbuf_consume. apply wp_bind, (wp_sanity held w b x); [done|done|]. destruct (Z.eqb_spec len 0) as [->|H0].
  { apply wp_ret. split_and!; try done. left. split_and!; [lia|done|]. by rewrite Hv. }
  rewrite Z.gtb_ltb. destruct (Z.ltb_spec (size x - off x) len) as [H1|H1].
  { apply wp_ret. split_and!; try done. right. split_and!; [lia|done|done]. }
  apply wp_bind, (wp_store b _ x); [done|]. apply wp_ret. destruct (Z.eqb_spec (off x + len) (size x)) as [H2|H2].
  - split_and!; [apply WF_bounds; try done; lia|by apply others_bounds|done|done|]. left. split_and!; [lia|done|].
    unfold view, bytes_of. cbn [with_buf bufs mem]. rewrite lookup_insert_eq. cbn. rewrite E. cbn [fst snd]. rewrite bytes_at_0 by lia.
    rewrite drop_ge; [done|]. lia.
  - split_and!; [apply WF_bounds; try done; lia|by apply others_bounds|done|done|]. left. split_and!; [lia|done|].
    unfold view, bytes_of. cbn [with_buf bufs mem]. rewrite lookup_insert_eq. cbn. rewrite E. cbn [fst snd]. rewrite Hl. cbn.
    rewrite Ev, <- (bytes_at_drop s (o + off x) len (size x - off x)) by lia. do 2 f_equal; lia.
Qed.

Lemma consume_end_wp held w b v len :
  WF held w -> view w b = Some v -> 0 <= len ->
  wp (sshbuf_consume_end b len) w (fun r w' =>
    WF held w' /\ others b w w' /\ mem w' = mem w /\ script w' = script w /\
    (len <= Z.of_nat (length v) /\ r = 0 /\ view w' b = Some (take (length v - Z.to_nat len) v) \/
     Z.of_nat (length v) < len /\ r = SSH_ERR_MESSAGE_INCOMPLETE /\ w' = w)).
Proof.
  intros HW Hv Hlen. destruct (view_Some held w b v HW Hv) as [x Hb].
  destruct (WF_see held w b x HW Hb) as (l & o & s & E & Hl & Ho & Hof & Hsz & Hal & _ & _ & Hv'). rewrite Hv in Hv'. injection Hv' as Ev.
  assert (Z.of_nat (length v) = size x - off x) as Lv by (rewrite Ev; apply bytes_at_length; lia).
  unfold sshbuf_consume_end. apply wp_bind, (wp_sanity held w b x); [done|done|]. destruct (Z.eqb_spec len 0) as [->|H0].
  { apply wp_ret. split_and!; try done. left. split_and!; [lia|done|]. rewrite Hv, take_ge; [done|lia]. }
  rewrite Z.gtb_ltb. destruct (Z.ltb_spec (size x - off x) len) as [H1|H1].
  { apply wp_ret. split_and!; try done. right. split_and!; [lia|done|done]. }
  apply wp_bind, (wp_store b _ x); [done|]. apply wp_ret.
  split_and!; [apply WF_bounds; try done; lia|by apply others_bounds|done|done|]. left. split_and!; [lia|done|].
  unfold view, bytes_of. cbn [with_buf bufs mem]. rewrite lookup_insert_eq. cbn. rewrite E. cbn [fst snd]. rewrite Hl. cbn.
  rewrite Ev, bytes_at_length' by lia. f_equal. rewrite (bytes_at_take _ _ (size x - len - off x) (size x - off x)) by lia. f_equal. lia.
Qed.

Lemma byte_bytes_at s o n : Forall byte s -> Forall byte (bytes_at s o n).
Proof. intros H. unfold bytes_at. by apply Forall_take, Forall_drop. Qed.

Lemma view_bytes held w b v : WF held w -> view w b = Some v -> Forall byte v.
Proof.
  intros HW Hv. destruct (view_Some held w b v HW Hv) as [x Hb]. destruct (WF_see held w b x HW Hb) as (l & o & s & _ & Hl & _ & _ & _ & _ & _ & _ & Hv').
  rewrite Hv in Hv'. injection Hv' as ->. apply byte_bytes_at. by apply (wf_bytes held w HW l).
Qed.

(** Reading [n] bytes at an offset from the first byte of a buffer. *)
Lemma peek_view held w b x l o v w' k n Q :
  WF held w -> bufs w !! b = Some x -> cd x = Some (l, o) -> view w b = Some v -> mem w' = mem w ->
  0 <= k -> 0 <= n -> k + n <= Z.of_nat (length v) -> Q (take (Z.to_nat n) (drop (Z.to_nat k) v)) w' ->
  wp (peek_bytes (l, o + off x + k) n) w' Q.
Proof.
  intros HW Hb E Hv Hm Hk Hn Hlen HQ. destruct (WF_see held w b x HW Hb) as (l' & o' & s & E' & Hl & Ho & Hof & Hsz & Hal & _ & _ & Hv').
  rewrite E in E'. injection E' as <- <-. rewrite Hv in Hv'. injection Hv' as ->. rewrite bytes_at_length in Hlen by lia.
  apply (wp_peek _ _ s); cbn [fst snd]; [by rewrite Hm|apply in_block_true; lia|].
  rewrite <- bytes_at_drop, <- bytes_at_take in HQ by lia. exact HQ.
Qed.

Lemma get_wp held w b v len :
  WF held w -> view w b = Some v -> 0 <= len ->
  wp (sshbuf_get b len) w (fun r w' =>
    WF held w' /\ others b w w' /\ mem w' = mem w /\ script w' = script w /\
    (len <= Z.of_nat (length v) /\ r = (0, take (Z.to_nat len) v) /\ view w' b = Some (drop (Z.to_nat len) v) \/
     Z.of_nat (length v) < len /\ r = (SSH_ERR_MESSAGE_INCOMPLETE, []) /\ w' = w)).
Proof.
  intros HW Hv Hlen. destruct (view_Some held w b v HW Hv) as [x Hb].
  destruct (WF_see held w b x HW Hb) as (l & o & s & E & _). unfold sshbuf_get. apply wp_bind, (wp_ptr held w b x l o); [done..|].
  eapply wp_step; [by apply (consume_wp held)|]. intros r w' (HW' & Ho & Hm & Hsc & [(Hl & -> & Hv')|(Hl & -> & ->)]); cbn [Z.ltb Z.compare]; cbv iota.
  - assert (forall Q : list Z -> world -> Prop, Q (take (Z.to_nat len) v) w' -> wp (if negb (len =? 0) then peek_bytes (l, o + off x) len else mret []) w' Q) as Hp.
    { intros Q HQ. destruct (Z.eqb_spec len 0) as [->|]; [done|]. cbn [negb]. replace (o + off x) with (o + off x + 0) by lia.
      apply (peek_view held w b x l o v); try done; lia. }
    apply wp_bind, Hp, wp_ret. split_and!; try done. left. done.
  - apply wp_ret. split_and!; try done. right. done.
Qed.

Lemma get_uint_wp held w b v n peek :
  WF held w -> view w b = Some v -> 0 < n ->
  wp (get_uint n peek b) w (fun r w' =>
    WF held w' /\ others b w w' /\ mem w' = mem w /\ script w' = script w /\
    (n <= Z.of_nat (length v) /\ r = (0, peek (take (Z.to_nat n) v)) /\ view w' b = Some (drop (Z.to_nat n) v) \/
     Z.of_nat (length v) < n /\ r = (SSH_ERR_MESSAGE_INCOMPLETE, 0) /\ w' = w)).
Proof.
  intros HW Hv Hn. destruct (view_Some held w b v HW Hv) as [x Hb].
  destruct (WF_see held w b x HW Hb) as (l & o & s & E & _). unfold get_uint. apply wp_bind, (wp_ptr held w b x l o); [done..|].
  eapply wp_step; [apply (consume_wp held); [done|done|lia]|]. intros r w' (HW' & Ho & Hm & Hsc & [(Hl & -> & Hv')|(Hl & -> & ->)]); cbn [Z.ltb Z.compare]; cbv iota.
  - apply wp_bind. replace (o + off x) with (o + off x + 0) by lia. apply (peek_view held w b x l o v); try done; try lia.
    apply wp_ret. split_and!; try done. left. done.
  - apply wp_ret. split_and!; try done. right. done.
Qed.

(** Specification: the string at the front of some bytes, or an error. *)
Definition wire_string (v : list Z) : Z + list Z :=
  if Z.of_nat (length v) <? 4 then inl SSH_ERR_MESSAGE_INCOMPLETE
  else
    let len := PEEK_U32 (take 4 v) in
    if len >? SSHBUF_SIZE_MAX - 4 then inl SSH_ERR_STRING_TOO_LARGE
    else if Z.of_nat (length v) - 4 <? len then inl SSH_ERR_MESSAGE_INCOMPLETE
    else inr (take (Z.to_nat len) (drop 4 v)).

Lemma PEEK_U32_nonneg s : Forall byte s -> 0 <= PEEK_U32 s.
Proof.
  intros H. assert (forall i n, 0 <= at_ s i n) as Hn.
  { intros i n. unfold at_. apply Z.shiftl_nonneg. destruct (nth_in_or_default i s 0) as [Hin| ->]; [|done].
    rewrite List.Forall_forall in H. by apply H. }
  unfold PEEK_U32. rewrite !Z.lor_nonneg. auto.
Qed.

Lemma wire_string_inr v s :
  Forall byte v -> wire_string v = inr s ->
  4 + Z.of_nat (length s) <= Z.of_nat (length v) /\ PEEK_U32 (take 4 v) = Z.of_nat (length s) /\ s = take (length s) (drop 4 v) /\
  Z.of_nat (length s) <= SSHBUF_SIZE_MAX - 4.
Proof.
  intros Hby. unfold wire_string. pose proof (PEEK_U32_nonneg (take 4 v) (Forall_take _ _ _ Hby)) as Hn.
  destruct (Z.ltb_spec (Z.of_nat (length v)) 4); [done|]. rewrite Z.gtb_ltb. destruct (Z.ltb_spec (SSHBUF_SIZE_MAX - 4) (PEEK_U32 (take 4 v))); [done|].
  destruct (Z.ltb_spec (Z.of_nat (length v) - 4) (PEEK_U32 (take 4 v))); [done|]. intros [= <-].
  assert (length (take (Z.to_nat (PEEK_U32 (take 4 v))) (drop 4 v)) = Z.to_nat (PEEK_U32 (take 4 v))) as L by (rewrite length_take, length_drop; lia).
  rewrite L. split_and!; try lia. done.
Qed.

Lemma peek_string_wp held w b x l o v :
  WF held w -> bufs w !! b = Some x -> cd x = Some (l, o) -> view w b = Some v ->
  wp (sshbuf_peek_string_direct b) w (fun r w' =>
    w' = w /\ r = match wire_string v with inl e => (e, None) | inr s => (0, Some ((l, o + off x + 4), Z.of_nat (length s))) end).
Proof.
  intros HW Hb E Hv. unfold sshbuf_peek_string_direct. apply wp_bind, (wp_ptr held w b x l o); [done..|].
  apply wp_bind, (wp_len held w b v); [done..|]. pose proof (view_bytes held w b v HW Hv) as Hby.
  destruct (wire_string v) as [e|s] eqn:W.
  - unfold wire_string in W. destruct (Z.ltb_spec (Z.of_nat (length v)) 4); [apply wp_ret; split; [done|congruence]|].
    apply wp_bind. replace (o + off x) with (o + off x + 0) by lia. apply (peek_view held w b x l o v); try done; try lia. rewrite drop_0. cbv zeta.
    change (Z.to_nat 4) with 4%nat. destruct (PEEK_U32 (take 4 v) >? SSHBUF_SIZE_MAX - 4); [apply wp_ret; split; [done|congruence]|].
    destruct (Z.of_nat (length v) - 4 <? PEEK_U32 (take 4 v)); [apply wp_ret; split; [done|congruence]|done].
  - destruct (wire_string_inr v s Hby W) as (Hl & Hpk & _ & Hmx).
    rewrite (proj2 (Z.ltb_ge _ _)) by lia. apply wp_bind. replace (o + off x) with (o + off x + 0) by lia. apply (peek_view held w b x l o v); try done; try lia.
    rewrite drop_0. cbv zeta. change (Z.to_nat 4) with 4%nat. rewrite Hpk, Z.gtb_ltb, !(proj2 (Z.ltb_ge _ _)) by lia. apply wp_ret. split; [done|].
    unfold plus. cbn [fst snd]. by do 4 f_equal; lia.
Qed.

Lemma get_string_direct_wp held w b x l o v :
  WF held w -> bufs w !! b = Some x -> cd x = Some (l, o) -> view w b = Some v ->
  wp (sshbuf_get_string_direct b) w (fun r w' =>
    WF held w' /\ others b w w' /\ mem w' = mem w /\ script w' = script w /\
    match wire_string v with
    | inl e => r = (e, None) /\ w' = w
    | inr s => r = (0, Some ((l, o + off x + 4), Z.of_nat (length s))) /\ view w' b = Some (drop (4 + length s) v)
    end).
Proof.
  intros HW Hb E Hv. unfold sshbuf_get_string_direct. eapply wp_step; [by apply (peek_string_wp held w b x l o v)|].
  intros r w' [-> ->]. pose proof (view_bytes held w b v HW Hv) as Hby. destruct (wire_string v) as [e|s] eqn:W; cbv iota.
  - assert (e < 0) as He.
    { unfold wire_string in W. revert W. repeat case_match; intros [= <-]; done. }
    rewrite (proj2 (Z.ltb_lt e 0)) by lia. apply wp_ret. done.
  - cbn [Z.ltb Z.compare]. cbv iota. apply wp_bind, (wp_run _ ((l, o + off x + 4), Z.of_nat (length s))); [done|]. cbv iota.
    destruct (wire_string_inr v s Hby W) as (Hl & _). eapply wp_step; [apply (consume_wp held w b v); [done|done|lia]|].
    intros r w' (HW' & Ho & Hm & Hsc & [(_ & -> & Hv')|(Hl' & _)]); [|lia]. cbn [Z.eqb negb]. cbv iota. apply wp_ret. split_and!; try done.
    rewrite Hv'. do 2 f_equal. lia.
Qed.

Lemma copy_out_wp held w b x l o v w' k n Q :
  WF held w -> bufs w !! b = Some x -> cd x = Some (l, o) -> view w b = Some v -> mem w' = mem w ->
  0 <= k -> 0 <= n -> k + n <= Z.of_nat (length v) ->
  (forall w2, bufs w2 = bufs w' -> mem w2 = mem w' -> fresh w2 = fresh w' -> (plenty w' -> plenty w2) ->
     (~ plenty w' -> Q (SSH_ERR_ALLOC_FAIL, []) w2) /\ Q (0, take (Z.to_nat n) (drop (Z.to_nat k) v)) w2) ->
  wp (copy_out (l, o + off x + k) n) w' Q.
Proof.
  intros HW Hb E Hv Hm Hk Hn Hlen HQ. set (w2 := World (bufs w') (mem w') (fresh w') (tl (script w'))).
  destruct (HQ w2) as [HQ1 HQ2]; try done; [by apply plenty_tl|].
  unfold copy_out. apply wp_bind, wp_allocates; cbn [negb]; cbv iota; [by intros; apply wp_ret, HQ1|].
  apply wp_bind. destruct (Z.eqb_spec n 0) as [->|]; cbn [negb]; cbv iota; [done|]. by apply (peek_view held w b x l o v).
Qed.

(** ** Writing *)

Lemma byte_splice s o v : Forall byte s -> Forall byte v -> Forall byte (splice s o v).
Proof. intros. unfold splice. rewrite !Forall_app. split_and!; [by apply Forall_take|done|by apply Forall_drop]. Qed.

Lemma bytes_insert (m : gmap loc (list Z)) l s :
  (forall k u, m !! k = Some u -> Forall byte u) -> Forall byte s -> forall k u, <[l := s]> m !! k = Some u -> Forall byte u.
Proof. intros Hm Hs k u. rewrite lookup_insert_Some. intros [[<- <-]|[_ ?]]; eauto. Qed.

(** The block of a buffer that no other shares is replaced by one of the same length. *)
Lemma WF_rewrite held w b x l s s' n m :
  WF held w -> 1 <= held b -> bufs w !! b = Some x -> shared x = false -> cd x = Some (l, 0) -> mem w !! l = Some s ->
  length s' = length s -> Forall byte s' -> 0 <= n <= m -> m <= alloc x ->
  let w' := World (<[b := set_bounds x n m]> (bufs w)) (<[l := s']> (mem w)) (fresh w) (script w) in
  WF held w' /\ others b w w' /\ view w' b = Some (bytes_at s' n (m - n)).
Proof.
  intros HW Hh Hb Hs E Hl Hlen Hby Hn Hm w'.
  destruct (WF_own_block held w b x HW Hh Hb Hs) as (l' & s0 & E' & Ed & Hl' & Ha & Hr & Href & Hk & Hp & Hof & Hsz & Hmx & Ho).
  rewrite E in E'. injection E' as <-. rewrite Hl in Hl'. injection Hl' as <-.
  assert (forall c y k, bufs w !! c = Some y -> c <> b -> fst <$> cd y = Some k -> <[l := s']> (mem w) !! k = mem w !! k) as Hm'.
  { intros c y k Hc Hne Ek. rewrite lookup_insert_ne; [done|]. intros <-. by apply (Ho c y Hc Hne). }
  split_and!.
  - apply (WF_replace held w b x); try done.
    + apply sane_spec. destruct (wf_sane held w HW b x Hb) as [(? & ? & ? & ? & ? & ? & ? & ?)%sane_spec ?]. cbn. split_and!; try done; lia.
    + cbn. lia.
    + exists l, 0, s'. cbn. rewrite lookup_insert_eq, E. split_and!; try done; try lia.
    + by left.
    + intros k. destruct (decide (l = k)) as [->|]; [intros _; apply (wf_fresh_mem held w HW); eauto|].
      rewrite lookup_insert_ne by done. apply (wf_fresh_mem held w HW).
    + apply bytes_insert; [apply (wf_bytes held w HW)|done].
  - by apply (others_replace w b x).
  - unfold view, bytes_of. cbn [bufs mem w']. rewrite lookup_insert_eq. cbn. rewrite E. cbn [fst snd]. rewrite lookup_insert_eq. done.
Qed.

Lemma with_block_buf w b x l s : with_buf (with_block w l s) b x = World (<[b := x]> (bufs w)) (<[l := s]> (mem w)) (fresh w) (script w).
Proof. done. Qed.

Lemma set_bounds_same x : set_bounds x (off x) (size x) = x.
Proof. by destruct x. Qed.

Lemma pack_wp held w b x v force :
  WF held w -> 1 <= held b -> bufs w !! b = Some x -> shared x = false -> view w b = Some v ->
  wp (sshbuf_maybe_pack b force) w (fun _ w' =>
    WF held w' /\ others b w w' /\ view w' b = Some v /\ script w' = script w /\
    exists o n, bufs w' !! b = Some (set_bounds x o n) /\ n - o = size x - off x /\ n <= size x /\ 0 <= o /\ (force = true -> o = 0)).
Proof.
  intros HW Hh Hb Hs Hv. destruct (WF_own_block held w b x HW Hh Hb Hs) as (l & s & E & Ed & Hl & Ha & Hr & Href & _ & _ & Hof & Hsz & Hmx & _).
  unfold sshbuf_maybe_pack. apply wp_bind, (wp_load b x); [done|].
  assert (view w b = Some (bytes_at s (off x) (size x - off x))) as Hv'.
  { unfold view, bytes_of. rewrite Hb. cbn. rewrite E. cbn [fst snd]. by rewrite Hl. }
  rewrite Hv in Hv'. injection Hv' as ->.
  destruct (Z.eqb_spec (off x) 0) as [H0|H0]; cbn [orb]; cbv iota.
  { apply wp_ret. split_and!; try done. exists (off x), (size x). rewrite set_bounds_same. split_and!; try done; lia. }
  rewrite Hr, Href. cbn [orb]. change (1 >? 1) with false. cbv iota.
  destruct (force || (off x >=? SSHBUF_PACK_MIN) && (off x >=? size x / 2)) eqn:C.
  2: { apply orb_false_elim in C as [-> _]. apply wp_ret. split_and!; try done. exists (off x), (size x). rewrite set_bounds_same. split_and!; try done; lia. }
  apply wp_bind, (wp_run _ (l, 0)); [by rewrite Ed|]. unfold plus. cbn [fst snd]. rewrite Z.add_0_l.
  apply wp_bind, (wp_peek _ _ s); cbn [fst snd]; [done|apply in_block_true; lia|].
  pose proof (bytes_at_length s (off x) (size x - off x) ltac:(lia) ltac:(lia) ltac:(lia)) as L. set (u := bytes_at s (off x) (size x - off x)) in *.
  apply wp_bind, (wp_poke _ _ s); cbn [fst snd]; [done|apply in_block_true; lia|]. apply (wp_store b _ x); [done|]. rewrite with_block_buf.
  pose proof (wf_bytes held w HW l s Hl) as Hby.
  destruct (WF_rewrite held w b x l s (splice s 0 u) 0 (size x - off x)) as (? & ? & Hview); try done; try lia.
  - apply splice_length; lia.
  - apply byte_splice; [done|by apply byte_bytes_at].
  - split_and!; try done; [|exists 0, (size x - off x); cbn [bufs]; rewrite lookup_insert_eq; split_and!; try done; lia].
    rewrite Hview, Z.sub_0_r, <- L. f_equal. apply bytes_at_splice; lia.
Qed.

Lemma byte_zeros n : Forall byte (zeros n).
Proof. unfold zeros. apply Forall_replicate. unfold byte. lia. Qed.

Definition resized (s : list Z) (n : Z) : list Z := splice (zeros n) 0 (bytes_at s 0 (Z.min (Z.of_nat (length s)) n)).

Lemma resized_length s n : 0 <= n -> Z.of_nat (length (resized s n)) = n.
Proof.
  intros. unfold resized. rewrite splice_length; [by apply zeros_length|lia|]. rewrite bytes_at_length, zeros_length by lia. lia.
Qed.

Lemma resized_bytes s n a k :
  0 <= a -> 0 <= k -> a + k <= Z.of_nat (length s) -> a + k <= n -> bytes_at (resized s n) a k = bytes_at s a k.
Proof.
  intros. unfold resized. assert (0 <= n) as Hn by lia. pose proof (bytes_at_length' s 0 (Z.min (Z.of_nat (length s)) n) ltac:(lia) ltac:(lia) ltac:(lia)) as L.
  apply list_eq. intros i. rewrite !bytes_at_lookup. case_decide; [|done].
  rewrite splice_lookup by (rewrite ?L, ?zeros_length; lia). rewrite decide_False by lia. rewrite decide_True by lia.
  rewrite bytes_at_lookup, decide_True by lia. f_equal. lia.
Qed.

Lemma byte_resized s n : Forall byte s -> Forall byte (resized s n).
Proof. intros. apply byte_splice; [apply byte_zeros|by apply byte_bytes_at]. Qed.

(** The block moves to a new address, or memory runs out. *)
Lemma recallocarray_wp w l s n (Q : option loc -> world -> Prop) :
  mem w !! l = Some s -> (l < fresh w)%positive -> 0 <= n ->
  (~ plenty w -> Q None (World (bufs w) (mem w) (fresh w) (tl (script w)))) ->
  Q (Some (fresh w)) (World (bufs w) (delete l (<[fresh w := resized s n]> (mem w))) (Pos.succ (fresh w)) (tl (script w))) ->
  wp (recallocarray (l, 0) (Z.of_nat (length s)) n) w Q.
Proof.
  intros Hl Hf Hn HN HS. unfold recallocarray, calloc. apply wp_bind, wp_bind, wp_allocates; cbv iota; [done|].
  assert (fresh w <> l) as Hne by lia.
  apply wp_bind, wp_get, wp_bind, wp_put, wp_ret. cbv iota. cbn [bufs mem fresh script].
  set (w1 := World (bufs w) (<[fresh w := zeros n]> (mem w)) (Pos.succ (fresh w)) (tl (script w))).
  apply wp_bind, (wp_peek _ _ s); cbn [fst snd]; [cbn; by rewrite lookup_insert_ne|apply in_block_true; lia|].
  apply wp_bind, (wp_poke _ _ (zeros n)); cbn [fst snd]; [cbn; by rewrite lookup_insert_eq| |].
  { apply in_block_true; [lia|lia|]. rewrite bytes_at_length, zeros_length by lia. lia. }
  unfold wp, free_block, mbind, prog_bind, Prelude.get, run, Prelude.put. cbn [mem with_block w1]. rewrite insert_insert_eq, lookup_insert_ne, Hl by done. cbn.
  exact HS.
Qed.

(** The buffer has a new block with the same bytes. *)
Lemma WF_move held w b x l s n sc :
  WF held w -> 1 <= held b -> bufs w !! b = Some x -> shared x = false -> cd x = Some (l, 0) -> mem w !! l = Some s ->
  size x <= n <= max_size x ->
  let w' := World (<[b := set_block x (fresh w) n]> (bufs w)) (delete l (<[fresh w := resized s n]> (mem w))) (Pos.succ (fresh w)) sc in
  WF held w' /\ others b w w' /\ view w' b = view w b.
Proof.
  intros HW Hh Hb Hs E Hl Hn w'.
  destruct (WF_own_block held w b x HW Hh Hb Hs) as (l' & s0 & E' & Ed & Hl' & Ha & Hr & Href & Hk & Hp & Hof & Hsz & Hmx & Ho).
  rewrite E in E'. injection E' as <-. rewrite Hl in Hl'. injection Hl' as <-.
  pose proof (wf_fresh_mem held w HW l ltac:(eauto)) as Hlf. assert (l <> fresh w) as Hne by lia.
  assert (forall c y k, bufs w !! c = Some y -> fst <$> cd y = Some k -> k <> fresh w) as Hnf.
  { intros c y k Hc Ek ->. destruct (wf_block held w HW c y Hc) as (k & o & u & Ec & Hk' & _). rewrite Ec in Ek. cbn in Ek. injection Ek as ->.
    assert (is_Some (mem w !! fresh w)) as Hsome by eauto. apply (wf_fresh_mem held w HW) in Hsome. lia. }
  assert (forall c y k, bufs w !! c = Some y -> c <> b -> fst <$> cd y = Some k -> delete l (<[fresh w := resized s n]> (mem w)) !! k = mem w !! k) as Hm'.
  { intros c y k Hc Hcb Ek. rewrite lookup_delete_ne, lookup_insert_ne; [done|symmetry; by eapply Hnf|]. intros <-. by apply (Ho c y Hc Hcb). }
  assert (delete l (<[fresh w := resized s n]> (mem w)) !! fresh w = Some (resized s n)) as Hnew by (by rewrite lookup_delete_ne, lookup_insert_eq).
  split_and!.
  - apply (WF_replace held w b x); try done.
    + apply sane_spec. destruct (wf_sane held w HW b x Hb) as [(? & ? & ? & ? & ? & ? & ? & ?)%sane_spec ?]. cbn. split_and!; try done; lia.
    + cbn. lia.
    + exists (fresh w), 0, (resized s n). cbn. rewrite resized_length by lia. split_and!; try done; lia.
    + right. split_and!; try done. intros c y Hc Hcb Ek. cbn in Ek. by destruct (Hnf c y (fresh w) Hc Ek).
    + lia.
    + intros k [u Hu]. apply lookup_delete_Some in Hu as [_ Hu]. apply lookup_insert_Some in Hu as [[<- _]|[_ Hu]]; [lia|].
      pose proof (wf_fresh_mem held w HW k ltac:(eauto)). lia.
    + intros k u [_ Hu]%lookup_delete_Some. revert Hu. apply bytes_insert; [apply (wf_bytes held w HW)|]. apply byte_resized. by apply (wf_bytes held w HW l).
  - by apply (others_replace w b x).
  - unfold view, bytes_of. cbn [bufs mem w']. rewrite lookup_insert_eq, Hb. cbn. rewrite E. cbn [fst snd]. rewrite Hnew, Hl. cbn. f_equal.
    apply resized_bytes; lia.
Qed.

Lemma ROUNDUP_ge y : y <= ROUNDUP y SSHBUF_SIZE_INC.
Proof. unfold ROUNDUP, SSHBUF_SIZE_INC. pose proof (Z.div_mod (y + (256 - 1)) 256). pose proof (Z.mod_pos_bound (y + (256 - 1)) 256). lia. Qed.

(** Requests that the growth of a buffer allows for: for the buffers of channels, whose type
    is also that of every new buffer, those that need at most 4 MiB above the block. *)
Definition GROWTH : Z := 4 * 1024 * 1024.
Definition channel (type : Z) : bool := (type =? BUF_CHANNEL_OUTPUT) || (type =? BUF_CHANNEL_INPUT).

Definition modest (x : sshbuf) (len : Z) : Prop := channel (btype x) = true -> len <= GROWTH \/ len + size x <= alloc x + GROWTH.

Lemma modest_le x n m : modest x n -> m <= n -> modest x m.
Proof. intros Hn Hm Hc. destruct (Hn Hc); [left|right]; lia. Qed.

Lemma modest_small x n : n <= GROWTH -> modest x n.
Proof. intros Hn _. by left. Qed.

Lemma grown_fits x len :
  modest x len -> size x <= alloc x -> len + size x <= max_size x -> len + size x <= grown x len <= max_size x.
Proof.
  intros Hmod Hsz Hmx. unfold grown. replace (alloc x + (len + size x - alloc x)) with (len + size x) by lia.
  pose proof (ROUNDUP_ge (len + size x)). pose proof (ROUNDUP_ge (alloc x + 4 * 1024 * 1024)).
  assert (forall r, len + size x <= r -> len + size x <= (if r >? max_size x then max_size x else r) <= max_size x) as Hc.
  { intros r Hr. rewrite Z.gtb_ltb. destruct (Z.ltb_spec (max_size x) r); lia. }
  apply Hc. unfold modest, channel, GROWTH in Hmod. destruct ((btype x =? BUF_CHANNEL_OUTPUT) || (btype x =? BUF_CHANNEL_INPUT)) eqn:T.
  - specialize (Hmod eq_refl).
    destruct (ROUNDUP (len + size x) SSHBUF_SIZE_INC >? BUF_WATERSHED); cbn [andb]; lia.
  - rewrite andb_false_r. lia.
Qed.

Lemma wp_check_reserve held w b x len Q :
  WF held w -> bufs w !! b = Some x ->
  Q (if shared x then SSH_ERR_BUFFER_READ_ONLY
     else if (len >? max_size x) || (max_size x - len <? size x - off x) then SSH_ERR_NO_BUFFER_SPACE else 0) w ->
  wp (sshbuf_check_reserve b len) w Q.
Proof. intros HW Hb HQ. unfold sshbuf_check_reserve. apply wp_bind, (wp_sanity held w b x); [done|done|]. by apply wp_ret. Qed.

Lemma shared_bounds x o n : shared (set_bounds x o n) = shared x.
Proof. done. Qed.

(** Why an allocation fails: the buffer must not be written, it would be too large, or
    there is no memory. *)
Definition refused (w : world) (x : sshbuf) (v : list Z) (len r : Z) : Prop :=
  shared x = true /\ r = SSH_ERR_BUFFER_READ_ONLY \/
  shared x = false /\ max_size x < Z.of_nat (length v) + len /\ r = SSH_ERR_NO_BUFFER_SPACE \/
  shared x = false /\ Z.of_nat (length v) + len <= max_size x /\ ~ plenty w /\ r = SSH_ERR_ALLOC_FAIL.

(** What operations on the bytes leave as it is. *)
Definition like (x x' : sshbuf) : Prop := shared x' = shared x /\ max_size x' = max_size x /\ btype x' = btype x.

Lemma view_length held w b x v : WF held w -> bufs w !! b = Some x -> view w b = Some v -> Z.of_nat (length v) = size x - off x.
Proof.
  intros HW Hb Hv. destruct (WF_see held w b x HW Hb) as (l & o & s & _ & _ & ? & ? & ? & ? & _ & _ & Hv'). rewrite Hv in Hv'. injection Hv' as ->.
  apply bytes_at_length; lia.
Qed.

Lemma allocate_wp held w b x v len :
  WF held w -> 1 <= held b -> bufs w !! b = Some x -> view w b = Some v -> 0 <= len -> modest x len ->
  wp (sshbuf_allocate b len) w (fun r w' =>
    WF held w' /\ others b w w' /\ (plenty w -> plenty w') /\ view w' b = Some v /\
    exists x', bufs w' !! b = Some x' /\ like x x' /\
      (refused w x v len r \/
       shared x = false /\ Z.of_nat (length v) + len <= max_size x /\ r = 0 /\ size x' + len <= alloc x')).
Proof.
  intros HW Hh Hb Hv Hlen Hmod. pose proof (view_length held w b x v HW Hb Hv) as Lv. unfold sshbuf_allocate.
  apply wp_bind, (wp_check_reserve held w b x); [done|done|]. destruct (shared x) eqn:Hs.
  { apply wp_ret. split_and!; try done. exists x. split_and!; try done. left. by left. }
  destruct (WF_own_block held w b x HW Hh Hb Hs) as (l & s & E & Ed & Hl & Ha & Hr & Href & _ & _ & Hof & Hsz & Hmx & _).
  destruct ((len >? max_size x) || (max_size x - len <? size x - off x)) eqn:C.
  { apply wp_ret. split_and!; try done. exists x. split_and!; try done. left. right. left. rewrite Z.gtb_ltb, orb_true_iff, !Z.ltb_lt in C. split_and!; [done|lia|done]. }
  rewrite Z.gtb_ltb, orb_false_iff, !Z.ltb_ge in C. cbn [Z.eqb negb]. cbv iota. apply wp_bind, (wp_load b x); [done|].
  eapply wp_step; [by apply (pack_wp held w b x v)|]. intros _ w1 (HW1 & Ho1 & Hv1 & Hsc1 & o & n & Hb1 & Hno & Hn & Ho0 & Hforce).
  set (x1 := set_bounds x o n) in *. assert (shared x1 = false) as Hs1 by done.
  destruct (WF_own_block held w1 b x1 HW1 Hh Hb1 Hs1) as (l1 & s1 & E1 & Ed1 & Hl1 & Ha1 & _ & _ & _ & _ & Hof1 & Hsz1 & Hmx1 & _).
  assert (len + size x1 <= max_size x) as Hfit.
  { cbn [x1 set_bounds size]. destruct (Z.ltb_spec (max_size x) (size x + len)) as [H|H]; [rewrite Hforce in Hno by (by rewrite Z.gtb_ltb; apply Z.ltb_lt)|]; lia. }
  apply wp_bind, (wp_load b x1); [done|]. destruct (Z.leb_spec (len + size x1) (alloc x1)) as [Hroom|Hroom].
  { apply wp_ret. split_and!; try done; [unfold plenty; by rewrite Hsc1|]. exists x1. split_and!; try done. right. split_and!; [done|lia|done|lia]. }
  cbv zeta. apply wp_bind, (wp_run _ (l1, 0)); [by rewrite Ed1|]. rewrite Ha1.
  destruct (grown_fits x1 len) as [G1 G2]; [intros Hc; specialize (Hmod Hc); cbn in *; lia|lia|done|].
  apply wp_bind, (recallocarray_wp w1 l1 s1); [done|apply (wf_fresh_mem held w1 HW1); eauto|lia| |].
  { intros Hnp. apply wp_ret. split_and!; [by apply WF_script|done|apply plenty_tl'|done|]; [done|].
    exists x1. split_and!; try done. left. right. right. split_and!; [done|lia| |done]. unfold plenty in *. by rewrite <- Hsc1. }
  destruct (WF_move held w1 b x1 l1 s1 (grown x1 len) (tl (script w1))) as (HW2 & Ho2 & Hv2); try done; [lia|].
  apply wp_bind, (wp_store b _ x1); [done|].
  assert (bufs (World (<[b := set_block x1 (fresh w1) (grown x1 len)]> (bufs w1)) (delete l1 (<[fresh w1 := resized s1 (grown x1 len)]> (mem w1))) (Pos.succ (fresh w1)) (tl (script w1))) !! b = Some (set_block x1 (fresh w1) (grown x1 len))) as Hb2 by (cbn; apply lookup_insert_eq).
  apply wp_bind, (wp_check_reserve held _ b (set_block x1 (fresh w1) (grown x1 len))); [done|done|].
  change (shared (set_block x1 (fresh w1) (grown x1 len))) with (shared x1). rewrite Hs1. cbn [set_block max_size size off x1 set_bounds].
  rewrite (proj2 (orb_false_iff _ _)); [|rewrite Z.gtb_ltb, !Z.ltb_ge; lia]. cbn [Z.ltb Z.compare]. cbv iota. apply wp_ret.
  split_and!; [done|by eapply others_trans|by apply plenty_tl'|by etrans; [exact Hv2|]|].
  exists (set_block x1 (fresh w1) (grown x1 len)). split_and!; try done. right. split_and!; [done|lia|done|]. cbn [set_block alloc size]. lia.
Qed.

Lemma refused_neg w x v len r : refused w x v len r -> r < 0.
Proof. intros [[_ ->]|[(_ & _ & ->)|(_ & _ & _ & ->)]]; done. Qed.

(** The bytes that are reserved follow those of the buffer. *)
Lemma reserve_wp held w b x v len :
  WF held w -> 1 <= held b -> bufs w !! b = Some x -> view w b = Some v -> 0 <= len -> modest x len ->
  wp (sshbuf_reserve b len) w (fun r w' =>
    WF held w' /\ others b w w' /\ (plenty w -> plenty w') /\
    exists x', bufs w' !! b = Some x' /\ like x x' /\
    (refused w x v len r.1 /\ r.2 = None /\ view w' b = Some v \/
     shared x = false /\ Z.of_nat (length v) + len <= max_size x /\ exists l junk, r = (0, Some (l, off x' + Z.of_nat (length v))) /\
       cd x' = Some (l, 0) /\ view w' b = Some (v ++ junk) /\ Z.of_nat (length junk) = len)).
Proof.
  intros HW Hh Hb Hv Hlen Hmod. unfold sshbuf_reserve. eapply wp_step; [by apply (allocate_wp held w b x v)|].
  intros r w1 (HW1 & Ho1 & Hpl & Hv1 & x1 & Hb1 & Hlike & [Href|(Hs & Hmx & -> & Hroom)]).
  { pose proof (refused_neg _ _ _ _ _ Href). rewrite (proj2 (Z.eqb_neq r 0)) by lia. cbn [negb]. cbv iota. apply wp_ret. split_and!; try done.
    exists x1. split_and!; try done. by left. }
  assert (shared x1 = false) as Hs1 by (destruct Hlike; congruence).
  cbn [Z.eqb negb]. cbv iota. apply wp_bind, (wp_load b x1); [done|].
  destruct (WF_own_block held w1 b x1 HW1 Hh Hb1 Hs1) as (l & s & E & Ed & Hl & Ha & _ & _ & _ & _ & Hof & Hsz & Hmx' & _).
  pose proof (view_length held w1 b x1 v HW1 Hb1 Hv1) as Lv.
  apply wp_bind, (wp_run _ (l, 0)); [by rewrite Ed|]. apply wp_bind, (wp_store b _ x1); [done|]. apply wp_ret.
  split_and!; [apply WF_bounds; try done; lia|eapply others_trans; [done|by apply others_bounds]|done|].
  destruct (WF_see held w1 b x1 HW1 Hb1) as (l' & o & s' & E' & Hl' & _ & _ & _ & _ & _ & _ & Hv'). rewrite E in E'. injection E' as <- <-.
  rewrite Hl in Hl'. injection Hl' as <-. rewrite Hv1 in Hv'. injection Hv' as Ev.
  exists (set_bounds x1 (off x1) (size x1 + len)). cbn [with_buf bufs]. rewrite lookup_insert_eq. split_and!; try done.
  right. split_and!; [done|done|]. exists l, (bytes_at s (size x1) len). split_and!; try done.
  - unfold plus. cbn [fst snd set_bounds off]. do 3 f_equal. lia.
  - unfold view, bytes_of. cbn [with_buf bufs mem]. rewrite lookup_insert_eq. cbn. rewrite E. cbn [fst snd]. rewrite Hl. cbn. f_equal. rewrite Ev.
    replace (size x1 + len - off x1) with ((size x1 - off x1) + len) by lia. rewrite bytes_at_app by lia. do 2 f_equal. lia.
  - apply bytes_at_length; lia.
Qed.

(** Writing over bytes of a buffer that no other shares. *)
Lemma poke_wp held w b x l v k u Q :
  WF held w -> 1 <= held b -> bufs w !! b = Some x -> shared x = false -> cd x = Some (l, 0) -> view w b = Some v -> Forall byte u ->
  0 <= k -> k + Z.of_nat (length u) <= Z.of_nat (length v) ->
  (forall w', WF held w' -> others b w w' -> bufs w' !! b = Some x -> script w' = script w -> view w' b = Some (splice v k u) -> Q tt w') ->
  wp (poke_bytes (l, off x + k) u) w Q.
Proof.
  intros HW Hh Hb Hs E Hv Hu Hk Hlen HQ.
  destruct (WF_own_block held w b x HW Hh Hb Hs) as (l' & s & E' & Ed & Hl & Ha & _ & _ & _ & _ & Hof & Hsz & Hmx & _).
  rewrite E in E'. injection E' as <-. pose proof (view_length held w b x v HW Hb Hv) as Lv.
  apply (wp_poke _ _ s); cbn [fst snd]; [done|apply in_block_true; lia|].
  destruct (WF_rewrite held w b x l s (splice s (off x + k) u) (off x) (size x)) as (HW' & Ho' & Hv'); try done; try lia.
  - apply splice_length; lia.
  - apply byte_splice; [by apply (wf_bytes held w HW l)|done].
  - rewrite set_bounds_same, insert_id in HW', Ho', Hv' by done. apply HQ; try done. etrans; [exact Hv'|]. f_equal.
    destruct (WF_see held w b x HW Hb) as (l' & o & s' & E' & Hl' & _ & _ & _ & _ & _ & _ & Hv''). rewrite E in E'. injection E' as <- <-.
    rewrite Hl in Hl'. injection Hl' as <-. rewrite Hv in Hv''. injection Hv'' as ->. cbn [Z.add]. rewrite bytes_at_length in Hlen by lia.
    apply list_eq. intros i. rewrite bytes_at_lookup. rewrite (splice_lookup (bytes_at _ _ _)) by (rewrite ?bytes_at_length; lia). rewrite !bytes_at_lookup.
    rewrite splice_lookup by lia. repeat (case_decide; try lia); try done. f_equal. lia.
Qed.

Lemma splice_end v junk u : length junk = length u -> splice (v ++ junk) (Z.of_nat (length v)) u = v ++ u.
Proof.
  intros Hj. unfold splice. rewrite Nat2Z.id. rewrite take_app_length, drop_ge; [by rewrite app_nil_r|]. rewrite length_app. lia.
Qed.

(** ** Putting bytes *)

(** What putting [u] does: the bytes are appended, or the buffer is left alone. *)
Definition put_post (held : loc -> Z) (b : loc) (x : sshbuf) (v u : list Z) (w : world) (r : Z) (w' : world) : Prop :=
  WF held w' /\ others b w w' /\ (plenty w -> plenty w') /\ (exists x', bufs w' !! b = Some x' /\ like x x') /\
  (refused w x v (Z.of_nat (length u)) r /\ view w' b = Some v \/
   shared x = false /\ Z.of_nat (length v) + Z.of_nat (length u) <= max_size x /\ r = 0 /\ view w' b = Some (v ++ u)).

Lemma put_wp held w b x v u :
  WF held w -> 1 <= held b -> bufs w !! b = Some x -> view w b = Some v -> Forall byte u -> modest x (Z.of_nat (length u)) ->
  wp (sshbuf_put b u) w (put_post held b x v u w).
Proof.
  intros HW Hh Hb Hv Hu Hmod. unfold sshbuf_put, put_from. eapply wp_step; [apply (reserve_wp held w b x v); try done; lia|].
  intros [r p] w1 (HW1 & Ho1 & Hpl & x1 & Hb1 & Hlike & [(Href & _ & Hv1)|(Hs & Hmx & l & junk & [= -> ->] & E1 & Hv1 & Lj)]); cbn [fst snd] in *.
  { pose proof (refused_neg _ _ _ _ _ Href). rewrite (proj2 (Z.ltb_lt r 0)) by lia. apply wp_ret. split_and!; try done; [by exists x1|by left]. }
  assert (shared x1 = false) as Hs1 by (destruct Hlike; congruence).
  cbn [Z.ltb Z.compare]. cbv iota. destruct (Z.eqb_spec (Z.of_nat (length u)) 0) as [L0|L0]; cbn [negb]; cbv iota.
  - apply wp_bind, wp_ret, wp_ret. split_and!; try done; [by exists x1|]. right. split_and!; try done. destruct u; [|done]. destruct junk; [|done]. done.
  - apply wp_bind, wp_bind, wp_ret, wp_bind, (wp_run _ (l, off x1 + Z.of_nat (length v))); [done|].
    apply (poke_wp held w1 b x1 l (v ++ junk)); try done; [lia|rewrite length_app; lia|]. intros w2 HW2 Ho2 Hb2 Hsc2 Hv2. apply wp_ret.
    split_and!; [done|by eapply others_trans|unfold plenty in *; by rewrite Hsc2|by exists x1|]. right. split_and!; try done. rewrite Hv2, splice_end; [done|lia].
Qed.

(** ** Integers on the wire *)

Lemma byte_of_div v n : 0 <= n -> byte_of v n = v / 2 ^ n mod 256.
Proof. intros. unfold byte_of. change 255 with (Z.ones 8). by rewrite Z.land_ones, Z.shiftr_div_pow2. Qed.

Lemma byte_of_range v n : byte (byte_of v n).
Proof. unfold byte_of, byte. change 255 with (Z.ones 8). rewrite Z.land_ones by lia. by apply Z.mod_pos_bound. Qed.

Lemma digit v n m : 0 <= n -> m = n + 8 -> v / 2 ^ m * 256 + byte_of v n = v / 2 ^ n.
Proof.
  intros ? ->. rewrite byte_of_div by done. rewrite Z.pow_add_r, <- Z.div_div by lia. change (2 ^ 8) with 256.
  pose proof (Z.div_mod (v / 2 ^ n) 256). lia.
Qed.

Lemma lor_digit a b n m : 0 <= n -> m = n + 8 -> byte b -> Z.lor (Z.shiftl a m) (Z.shiftl b n) = Z.shiftl (a * 256 + b) n.
Proof.
  intros Hn -> Hb. rewrite Z.add_comm, <- Z.shiftl_shiftl, <- Z.shiftl_lor by lia. f_equal. change 256 with (2 ^ 8). rewrite <- Z.shiftl_mul_pow2 by lia.
  symmetry. apply Z.add_nocarry_lor. apply Z.bits_inj'. intros i Hi. rewrite Z.land_spec, Z.bits_0, Z.shiftl_spec by done.
  destruct (Z.ltb_spec i 8).
  - by rewrite Z.testbit_neg_r by lia.
  - rewrite andb_comm. rewrite <- (Z.mod_small b (2 ^ 8)) by (unfold byte in Hb; lia). by rewrite Z.mod_pow2_bits_high by lia.
Qed.

Lemma PEEK_U16_digits a b : byte b -> PEEK_U16 [a; b] = a * 256 + b.
Proof. intros. unfold PEEK_U16, at_. cbn [nth]. rewrite lor_digit by (done || lia). by rewrite Z.shiftl_0_r. Qed.

Lemma PEEK_U32_digits a b c e : byte b -> byte c -> byte e -> PEEK_U32 [a; b; c; e] = ((a * 256 + b) * 256 + c) * 256 + e.
Proof.
  intros. unfold PEEK_U32, at_. cbn [nth]. rewrite lor_digit by (done || lia). rewrite lor_digit by (done || lia).
  rewrite lor_digit by (done || lia). by rewrite Z.shiftl_0_r.
Qed.

Lemma PEEK_U64_digits a b c e f g h i :
  byte b -> byte c -> byte e -> byte f -> byte g -> byte h -> byte i ->
  PEEK_U64 [a; b; c; e; f; g; h; i] = ((((((a * 256 + b) * 256 + c) * 256 + e) * 256 + f) * 256 + g) * 256 + h) * 256 + i.
Proof.
  intros. unfold PEEK_U64, at_. cbn [nth]. rewrite lor_digit by (done || lia). rewrite lor_digit by (done || lia).
  rewrite lor_digit by (done || lia). rewrite lor_digit by (done || lia).
  rewrite lor_digit by (done || lia). rewrite lor_digit by (done || lia).
  rewrite lor_digit by (done || lia). by rewrite Z.shiftl_0_r.
Qed.

Lemma top_digit v n : 0 <= n -> 0 <= v < 2 ^ (n + 8) -> byte_of v n = v / 2 ^ n.
Proof.
  intros Hn Hv. rewrite byte_of_div by done. apply Z.mod_small. split; [apply Z.div_pos; lia|]. apply Z.div_lt_upper_bound; [lia|].
  rewrite Z.pow_add_r in Hv by lia. change (2 ^ 8) with 256 in Hv. lia.
Qed.

Lemma U16_roundtrip v : 0 <= v < 2 ^ 16 -> PEEK_U16 (POKE_U16 v) = v.
Proof.
  intros. unfold POKE_U16. rewrite PEEK_U16_digits by apply byte_of_range. rewrite (top_digit v 8) by (cbn; lia).
  rewrite (digit v 0 8) by lia. by rewrite Z.div_1_r.
Qed.

Lemma U32_roundtrip v : 0 <= v < 2 ^ 32 -> PEEK_U32 (POKE_U32 v) = v.
Proof.
  intros. unfold POKE_U32. rewrite PEEK_U32_digits by apply byte_of_range. rewrite (top_digit v 24) by (cbn; lia).
  rewrite (digit v 16 24), (digit v 8 16), (digit v 0 8) by lia. by rewrite Z.div_1_r.
Qed.

Lemma U64_roundtrip v : 0 <= v < 2 ^ 64 -> PEEK_U64 (POKE_U64 v) = v.
Proof.
  intros. unfold POKE_U64. rewrite PEEK_U64_digits by apply byte_of_range. rewrite (top_digit v 56) by (cbn; lia).
  rewrite (digit v 48 56), (digit v 40 48), (digit v 32 40), (digit v 24 32), (digit v 16 24), (digit v 8 16), (digit v 0 8) by lia. by rewrite Z.div_1_r.
Qed.

(** ** Putting integers, strings and numbers *)

Lemma splice_middle pre junk u :
  (length u <= length junk)%nat -> splice (pre ++ junk) (Z.of_nat (length pre)) u = (pre ++ u) ++ drop (length u) junk.
Proof.
  intros. unfold splice. rewrite Nat2Z.id, take_app_length, <- app_assoc. do 2 f_equal. rewrite drop_app_ge by lia. f_equal. lia.
Qed.

(** The next bytes of those that were reserved. *)
Lemma fill_wp held w b x l pre junk u k Q :
  WF held w -> 1 <= held b -> bufs w !! b = Some x -> shared x = false -> cd x = Some (l, 0) -> view w b = Some (pre ++ junk) -> Forall byte u ->
  (length u <= length junk)%nat -> k = off x + Z.of_nat (length pre) ->
  (forall w', WF held w' -> others b w w' -> bufs w' !! b = Some x -> script w' = script w -> view w' b = Some ((pre ++ u) ++ drop (length u) junk) -> Q tt w') ->
  wp (poke_bytes (l, k) u) w Q.
Proof.
  intros HW Hh Hb Hs E Hv Hu Hlen -> HQ. apply (poke_wp held w b x l (pre ++ junk)); try done; [lia|rewrite length_app; lia|].
  intros w' HW' Ho Hb' Hsc Hv'. apply HQ; try done. by rewrite Hv', splice_middle.
Qed.

Lemma put_uint_wp held w b x v n poke val :
  WF held w -> 1 <= held b -> bufs w !! b = Some x -> view w b = Some v -> Forall byte (poke val) -> Z.of_nat (length (poke val)) = n -> modest x n ->
  wp (put_uint poke n b val) w (put_post held b x v (poke val) w).
Proof.
  intros HW Hh Hb Hv Hu <- Hmod. unfold put_uint. eapply wp_step; [apply (reserve_wp held w b x v); try done; lia|].
  intros [r p] w1 (HW1 & Ho1 & Hpl & x1 & Hb1 & Hlike & [(Href & _ & Hv1)|(Hs & Hmx & l & junk & [= -> ->] & E1 & Hv1 & Lj)]); cbn [fst snd] in *.
  { pose proof (refused_neg _ _ _ _ _ Href). rewrite (proj2 (Z.ltb_lt r 0)) by lia. apply wp_ret. split_and!; try done; [by exists x1|by left]. }
  assert (shared x1 = false) as Hs1 by (destruct Hlike; congruence).
  cbn [Z.ltb Z.compare]. cbv iota. apply wp_bind, (wp_run _ (l, off x1 + Z.of_nat (length v))); [done|].
  apply wp_bind, (fill_wp held w1 b x1 l v junk); try done; [lia|]. intros w2 HW2 Ho2 Hb2 Hsc2 Hv2. apply wp_ret.
  split_and!; [done|by eapply others_trans|unfold plenty in *; by rewrite Hsc2|by exists x1|]. right. split_and!; try done.
  rewrite Hv2, drop_ge, app_nil_r; [done|lia].
Qed.

Definition wire (s : list Z) : list Z := POKE_U32 (Z.of_nat (length s)) ++ s.

Lemma POKE_U32_bytes v : Forall byte (POKE_U32 v).
Proof. repeat constructor; apply byte_of_range. Qed.

Lemma wire_length s : Z.of_nat (length (wire s)) = Z.of_nat (length s) + 4.
Proof. unfold wire. rewrite length_app. cbn [length POKE_U32]. lia. Qed.

Lemma put_string_wp held w b x v s :
  WF held w -> 1 <= held b -> bufs w !! b = Some x -> view w b = Some v -> Forall byte s ->
  Z.of_nat (length s) <= SSHBUF_SIZE_MAX - 4 -> modest x (Z.of_nat (length s) + 4) ->
  wp (sshbuf_put_string b s) w (put_post held b x v (wire s) w).
Proof.
  intros HW Hh Hb Hv Hu Hlen Hmod. unfold sshbuf_put_string, put_string_from. rewrite Z.gtb_ltb, (proj2 (Z.ltb_ge _ _)) by lia.
  eapply wp_step; [apply (reserve_wp held w b x v); try done; lia|]. rewrite <- wire_length.
  intros [r p] w1 (HW1 & Ho1 & Hpl & x1 & Hb1 & Hlike & [(Href & _ & Hv1)|(Hs & Hmx & l & junk & [= -> ->] & E1 & Hv1 & Lj)]); cbn [fst snd] in *.
  { pose proof (refused_neg _ _ _ _ _ Href). rewrite (proj2 (Z.ltb_lt r 0)) by lia. apply wp_ret. split_and!; try done; [by exists x1|by left]. }
  assert (shared x1 = false) as Hs1 by (destruct Hlike; congruence).
  cbn [Z.ltb Z.compare]. cbv iota. apply wp_bind, (wp_run _ (l, off x1 + Z.of_nat (length v))); [done|]. rewrite wire_length in Lj.
  assert (length (POKE_U32 (Z.of_nat (length s))) = 4%nat) as L4 by done.
  apply wp_bind, (fill_wp held w1 b x1 l v junk); try done; [apply POKE_U32_bytes|lia|]. rewrite L4. intros w2 HW2 Ho2 Hb2 Hsc2 Hv2.
  assert (forall w3, WF held w3 -> others b w w3 -> bufs w3 !! b = Some x1 -> script w3 = script w2 -> view w3 b = Some (v ++ wire s) -> put_post held b x v (wire s) w 0 w3) as Hdone.
  { intros w3 HW3 Ho3 Hb3 Hsc3 Hv3. split_and!; [done|done|unfold plenty in *; by rewrite Hsc3, Hsc2|by exists x1|]. right. done. }
  destruct (Z.eqb_spec (Z.of_nat (length s)) 0) as [L0|L0]; cbn [negb]; cbv iota.
  - apply wp_bind, wp_ret, wp_ret. apply Hdone; [done|by eapply others_trans|done|done|]. rewrite Hv2. destruct s; [|done].
    rewrite drop_ge by (cbn in *; lia). unfold wire. by rewrite !app_nil_r.
  - apply wp_bind, wp_bind, wp_ret. unfold plus. cbn [fst snd].
    apply (fill_wp held w2 b x1 l (v ++ POKE_U32 (Z.of_nat (length s))) (drop 4 junk)); try done; [rewrite length_drop; lia|rewrite length_app, L4; lia|].
    intros w3 HW3 Ho3 Hb3 Hsc3 Hv3. apply wp_ret, Hdone; [done|by eapply others_trans; [|eapply others_trans]|done|done|]. rewrite Hv3. unfold wire.
    rewrite drop_ge by (rewrite length_drop; lia). by rewrite app_nil_r, app_assoc.
Qed.

(** A number as it is put: without leading zeros, and with one zero when its first bit
    is set. *)
Definition bignum (v : list Z) : list Z := let s := strip_zeros v in if high_bit s then 0 :: s else s.

Lemma strip_zeros_le v : (length (strip_zeros v) <= length v)%nat.
Proof. induction v as [|c v IH]; [done|]. cbn. destruct (c =? 0); cbn; lia. Qed.

Lemma strip_zeros_byte v : Forall byte v -> Forall byte (strip_zeros v).
Proof. induction 1 as [|c v Hc Hv IH]; [done|]. cbn. destruct (c =? 0); [done|by constructor]. Qed.

Lemma bignum_length v : Z.of_nat (length (bignum v)) = Z.of_nat (length (strip_zeros v)) + (if high_bit (strip_zeros v) then 1 else 0).
Proof. unfold bignum. destruct (high_bit (strip_zeros v)); cbn [length]; lia. Qed.

Lemma put_bignum2_wp held w b x v s :
  WF held w -> 1 <= held b -> bufs w !! b = Some x -> view w b = Some v -> Forall byte s ->
  Z.of_nat (length s) <= SSHBUF_SIZE_MAX - 5 -> modest x (Z.of_nat (length s) + 5) ->
  wp (sshbuf_put_bignum2_bytes b s) w (put_post held b x v (wire (bignum s)) w).
Proof.
  intros HW Hh Hb Hv Hu Hlen Hmod. unfold sshbuf_put_bignum2_bytes. rewrite Z.gtb_ltb, (proj2 (Z.ltb_ge _ _)) by lia. cbv zeta.
  pose proof (strip_zeros_le s) as Hle. pose proof (bignum_length s) as Lb. pose proof (wire_length (bignum s)) as Lw.
  pose proof (strip_zeros_byte s Hu) as Hby. set (z := strip_zeros s) in *. set (pre := if high_bit z then 1 else 0) in *.
  assert (0 <= pre <= 1) as Hpre by (unfold pre; destruct (high_bit z); lia).
  replace (Z.of_nat (length z) + 4 + pre) with (Z.of_nat (length (wire (bignum s)))) by lia.
  eapply wp_step; [apply (reserve_wp held w b x v); try done; first [lia|eapply modest_le; [done|lia]]|].
  intros [r p] w1 (HW1 & Ho1 & Hpl & x1 & Hb1 & Hlike & [(Href & _ & Hv1)|(Hs & Hmx & l & junk & [= -> ->] & E1 & Hv1 & Lj)]); cbn [fst snd] in *.
  { pose proof (refused_neg _ _ _ _ _ Href). rewrite (proj2 (Z.ltb_lt r 0)) by lia. apply wp_ret. split_and!; try done; [by exists x1|by left]. }
  assert (shared x1 = false) as Hs1 by (destruct Hlike; congruence).
  cbn [Z.ltb Z.compare]. cbv iota. apply wp_bind, (wp_run _ (l, off x1 + Z.of_nat (length v))); [done|].
  set (h := POKE_U32 (Z.of_nat (length z) + pre)). assert (length h = 4%nat) as L4 by done.
  apply wp_bind, (fill_wp held w1 b x1 l v junk); try done; [apply POKE_U32_bytes|lia|]. rewrite L4. intros w2 HW2 Ho2 Hb2 Hsc2 Hv2.
  set (zero := if high_bit z then [0] else []). assert (Z.of_nat (length zero) = pre) as Lz by (unfold zero, pre; by destruct (high_bit z)).
  assert (wire (bignum s) = h ++ zero ++ z) as Ew.
  { unfold wire, h. rewrite Lb. f_equal. unfold bignum, zero. fold z. by destruct (high_bit z). }
  unfold plus. cbn [fst snd]. apply wp_bind.
  assert (forall (Q : unit -> world -> Prop),
    (forall w3, WF held w3 -> others b w w3 -> bufs w3 !! b = Some x1 -> script w3 = script w2 -> view w3 b = Some (((v ++ h) ++ zero) ++ drop (length zero) (drop 4 junk)) -> Q tt w3) ->
    wp (if pre =? 1 then poke_bytes (l, off x1 + Z.of_nat (length v) + 4) [0] else mret tt) w2 Q) as Hzero.
  { intros Q HQ. unfold pre, zero in *. destruct (high_bit z); cbn [Z.eqb Pos.eqb]; cbv iota.
    - apply (fill_wp held w2 b x1 l (v ++ h) (drop 4 junk)); try done; [repeat constructor; unfold byte; lia|rewrite length_drop; cbn [length] in *; lia|rewrite length_app, L4; lia|].
      intros w3 HW3 Ho3 Hb3 Hsc3 Hv3. apply HQ; try done. by eapply others_trans; [|eapply others_trans].
    - apply wp_ret, HQ; try done; [by eapply others_trans|]. cbn [length]. by rewrite drop_0, app_nil_r. }
  apply Hzero. intros w3 HW3 Ho3 Hb3 Hsc3 Hv3.
  assert (forall w4, WF held w4 -> others b w w4 -> bufs w4 !! b = Some x1 -> script w4 = script w2 -> view w4 b = Some (v ++ wire (bignum s)) -> put_post held b x v (wire (bignum s)) w 0 w4) as Hdone.
  { intros w4 HW4 Ho4 Hb4 Hsc4 Hv4. split_and!; [done|done|unfold plenty in *; by rewrite Hsc4, Hsc2|by exists x1|]. right. done. }
  destruct (Z.eqb_spec (Z.of_nat (length z)) 0) as [L0|L0]; cbn [negb]; cbv iota.
  - apply wp_bind, wp_ret, wp_ret, Hdone; try done. rewrite Hv3, Ew. destruct z; [|done]. rewrite drop_ge by (rewrite length_drop; lia).
    by rewrite ?app_nil_r, ?app_assoc.
  - apply wp_bind, (fill_wp held w3 b x1 l ((v ++ h) ++ zero) (drop (length zero) (drop 4 junk))); try done; [rewrite !length_drop; lia|rewrite !length_app, L4; lia|].
    intros w4 HW4 Ho4 Hb4 Hsc4 Hv4. apply wp_ret, Hdone; [done|by eapply others_trans|done|by rewrite Hsc4|]. rewrite Hv4, Ew, drop_ge by (rewrite !length_drop; lia).
    by rewrite app_nil_r, !app_assoc.
Qed.

(** ** Getting strings and numbers *)

Lemma wire_string_wire s rest : Forall byte s -> Z.of_nat (length s) <= SSHBUF_SIZE_MAX - 4 -> wire_string (wire s ++ rest) = inr s.
Proof.
  intros Hs Hl. unfold wire_string, wire. assert (length (POKE_U32 (Z.of_nat (length s))) = 4%nat) as L4 by done.
  rewrite (proj2 (Z.ltb_ge _ _)) by (rewrite !length_app, L4; lia). rewrite <- app_assoc, take_app_le, take_ge by lia. cbv zeta.
  rewrite U32_roundtrip by (unfold SSHBUF_SIZE_MAX in Hl; lia). rewrite Z.gtb_ltb, !(proj2 (Z.ltb_ge _ _)); [|rewrite !length_app, L4; lia|lia].
  rewrite drop_app_ge by lia. rewrite L4, Nat2Z.id, drop_0. by rewrite take_app_length.
Qed.

Lemma get_string_wp held w b v :
  WF held w -> view w b = Some v ->
  wp (sshbuf_get_string b) w (fun r w' =>
    WF held w' /\ others b w w' /\ (plenty w -> plenty w') /\
    match wire_string v with
    | inl e => r = (e, []) /\ w' = w
    | inr s => view w' b = Some (drop (4 + length s) v) /\ (r = (0, s) \/ ~ plenty w /\ r = (SSH_ERR_ALLOC_FAIL, []))
    end).
Proof.
  intros HW Hv. destruct (view_Some held w b v HW Hv) as [x Hb]. destruct (WF_see held w b x HW Hb) as (l & o & s0 & E & _).
  pose proof (view_bytes held w b v HW Hv) as Hby. unfold sshbuf_get_string. eapply wp_step; [by apply (get_string_direct_wp held w b x l o v)|].
  intros [r p] w1 (HW1 & Ho1 & Hm1 & Hsc1 & H). destruct (wire_string v) as [e|s] eqn:W.
  - destruct H as [[= -> ->] ->]. assert (e < 0) as He by (unfold wire_string in W; revert W; repeat case_match; intros [= <-]; done).
    rewrite (proj2 (Z.ltb_lt e 0)) by lia. by apply wp_ret.
  - destruct H as [[= -> ->] Hv1]. cbn [Z.ltb Z.compare]. cbv iota. apply wp_bind, (wp_run _ ((l, o + off x + 4), Z.of_nat (length s))); [done|]. cbv iota.
    destruct (wire_string_inr v s Hby W) as (Hl & _ & Es & _).
    apply (copy_out_wp held w b x l o v); try done; try lia. intros w2 Eb Em Ef Hpl.
    assert (w2 = World (bufs w1) (mem w1) (fresh w1) (script w2)) as -> by (destruct w2; cbn in *; congruence).
    split; [intros Hnp|]; (split_and!; [by apply WF_script|done|unfold plenty in *; rewrite <- Hsc1; exact Hpl|exact Hv1|]).
    + right. split; [|done]. unfold plenty in *. by rewrite <- Hsc1.
    + left. f_equal. change (Z.to_nat 4) with 4%nat. by rewrite Nat2Z.id, <- Es.
Qed.

Lemma high_bit_zero s : high_bit (0 :: s) = false.
Proof. done. Qed.

Lemma strip_zeros_idem v : strip_zeros (strip_zeros v) = strip_zeros v.
Proof. induction v as [|c v IH]; [done|]. cbn. destruct (c =? 0) eqn:E; [done|]. cbn. by rewrite E. Qed.

Lemma bignum_positive v : high_bit (bignum v) = false.
Proof. unfold bignum. by destruct (high_bit (strip_zeros v)) eqn:E. Qed.

Lemma strip_bignum v : strip_zeros (bignum v) = strip_zeros v.
Proof. unfold bignum. destruct (high_bit (strip_zeros v)); cbn [strip_zeros Z.eqb]; apply strip_zeros_idem. Qed.

Lemma bignum_byte v : Forall byte v -> Forall byte (bignum v).
Proof.
  intros H%strip_zeros_byte. unfold bignum. destruct (high_bit (strip_zeros v)); [|done]. constructor; [unfold byte; lia|done].
Qed.

Lemma get_bignum2_wp held w b n rest :
  WF held w -> view w b = Some (wire (bignum n) ++ rest) -> Forall byte n -> Z.of_nat (length (strip_zeros n)) <= SSHBUF_MAX_BIGNUM ->
  wp (sshbuf_get_bignum2_bytes_direct b) w (fun r w' =>
    WF held w' /\ others b w w' /\ (plenty w -> plenty w') /\ r = (0, strip_zeros n) /\ view w' b = Some rest).
Proof.
  intros HW Hv Hn Hlen. destruct (view_Some held w b _ HW Hv) as [x Hb]. destruct (WF_see held w b x HW Hb) as (l & o & s0 & E & _).
  pose proof (bignum_length n) as Lb. unfold sshbuf_get_bignum2_bytes_direct. eapply wp_step; [by apply (peek_string_wp held w b x l o (wire (bignum n) ++ rest))|].
  assert (Z.of_nat (length (bignum n)) <= SSHBUF_MAX_BIGNUM + 1) as Hb1 by (destruct (high_bit (strip_zeros n)); lia).
  rewrite wire_string_wire; [|by apply bignum_byte|change SSHBUF_MAX_BIGNUM with 2048 in *; unfold SSHBUF_SIZE_MAX; lia].
  intros r w' [-> ->]. cbn [Z.ltb Z.compare]. cbv iota. apply wp_bind, (wp_run _ ((l, o + off x + 4), Z.of_nat (length (bignum n)))); [done|]. cbv iota.
  assert (length (wire (bignum n) ++ rest) = 4 + length (bignum n) + length rest)%nat as Lv by (rewrite length_app; pose proof (wire_length (bignum n)); lia).
  apply wp_bind, (peek_view held w b x l o (wire (bignum n) ++ rest)); try done; try lia.
  assert (take (Z.to_nat (Z.of_nat (length (bignum n)))) (drop (Z.to_nat 4) (wire (bignum n) ++ rest)) = bignum n) as ->.
  { unfold wire. rewrite <- app_assoc, Nat2Z.id. change (drop (Z.to_nat 4) (POKE_U32 (Z.of_nat (length (bignum n))) ++ bignum n ++ rest)) with (bignum n ++ rest).
    apply take_app_length. }
  rewrite bignum_positive. rewrite (proj2 (orb_false_iff _ _)).
  - eapply wp_step; [apply (consume_wp held w b (wire (bignum n) ++ rest)); try done; lia|].
    intros r w' (HW' & Ho & Hm & Hsc & [(_ & -> & Hv')|(Hl' & _)]); [|lia]. cbn [Z.eqb negb]. cbv iota. apply wp_ret. rewrite strip_bignum.
    split_and!; try done; [unfold plenty; by rewrite Hsc|]. rewrite Hv'. f_equal. rewrite drop_app_ge by (pose proof (wire_length (bignum n)); lia).
    rewrite <- (drop_0 rest) at 2. f_equal. pose proof (wire_length (bignum n)). lia.
  - rewrite Z.gtb_ltb, Z.ltb_ge. split; [lia|]. destruct (Z.eqb_spec (Z.of_nat (length (bignum n))) (SSHBUF_MAX_BIGNUM + 1)) as [Hx|]; [|done].
    unfold bignum in *. destruct (high_bit (strip_zeros n)); [done|]. lia.
Qed.

(** ** Messages

    A message is a sequence of values, as the protocol writes and reads them. *)
Inductive item := U8 (v : Z) | U16 (v : Z) | U32 (v : Z) | U64 (v : Z) | Str (s : list Z) | Num (s : list Z).

Definition put_item (b : loc) (i : item) : M Z :=
  match i with
  | U8 v => sshbuf_put_u8 b v
  | U16 v => sshbuf_put_u16 b v
  | U32 v => sshbuf_put_u32 b v
  | U64 v => sshbuf_put_u64 b v
  | Str s => sshbuf_put_string b s
  | Num s => sshbuf_put_bignum2_bytes b s
  end.

(** Reading a value of the same kind. *)
Definition get_item (b : loc) (i : item) : M (Z * item) :=
  match i with
  | U8 _ => '(r, v) ← sshbuf_get_u8 b; mret (r, U8 v)
  | U16 _ => '(r, v) ← sshbuf_get_u16 b; mret (r, U16 v)
  | U32 _ => '(r, v) ← sshbuf_get_u32 b; mret (r, U32 v)
  | U64 _ => '(r, v) ← sshbuf_get_u64 b; mret (r, U64 v)
  | Str _ => '(r, s) ← sshbuf_get_string b; mret (r, Str s)
  | Num _ => '(r, s) ← sshbuf_get_bignum2_bytes_direct b; mret (r, Num s)
  end.

Definition encoding (i : item) : list Z :=
  match i with
  | U8 v => [v]
  | U16 v => POKE_U16 v
  | U32 v => POKE_U32 v
  | U64 v => POKE_U64 v
  | Str s => wire s
  | Num s => wire (bignum s)
  end.

(** The items that can be put into a buffer of a type: the strings for the buffer of a channel
    are at most 4 MiB with their length in front, as longer ones can be written past the end of
    the block (put_overflows). *)
Definition item_ok (type : Z) (i : item) : Prop :=
  match i with
  | U8 v => 0 <= v < 2 ^ 8
  | U16 v => 0 <= v < 2 ^ 16
  | U32 v => 0 <= v < 2 ^ 32
  | U64 v => 0 <= v < 2 ^ 64
  | Str s => Forall byte s /\ Z.of_nat (length s) + 4 <= SSHBUF_SIZE_MAX /\ (channel type = true -> Z.of_nat (length s) + 4 <= GROWTH)
  | Num s => Forall byte s /\ strip_zeros s = s /\ Z.of_nat (length s) <= SSHBUF_MAX_BIGNUM
  end.

Lemma put_item_wp held w b x v i :
  WF held w -> 1 <= held b -> bufs w !! b = Some x -> view w b = Some v -> item_ok (btype x) i ->
  wp (put_item b i) w (put_post held b x v (encoding i) w).
Proof.
  intros HW Hh Hb Hv Hi. destruct i as [n|n|n|n|s|s]; cbn [put_item encoding item_ok] in *.
  - apply (put_uint_wp held w b x v 1 (fun v => [v])); try done; [by constructor|by apply modest_small].
  - apply (put_uint_wp held w b x v 2 POKE_U16); try done; [repeat constructor; apply byte_of_range|by apply modest_small].
  - apply (put_uint_wp held w b x v 4 POKE_U32); try done; [repeat constructor; apply byte_of_range|by apply modest_small].
  - apply (put_uint_wp held w b x v 8 POKE_U64); try done; [repeat constructor; apply byte_of_range|by apply modest_small].
  - destruct Hi as (Hs & Hl & Hg). apply put_string_wp; try done; [lia|intros Hc; left; by apply Hg].
  - destruct Hi as (Hs & _ & Hl). change SSHBUF_MAX_BIGNUM with 2048 in Hl. apply put_bignum2_wp; try done; [unfold SSHBUF_SIZE_MAX; lia|apply modest_small; unfold GROWTH; lia].
Qed.

Lemma get_item_wp held w b type i rest :
  WF held w -> view w b = Some (encoding i ++ rest) -> item_ok type i -> plenty w ->
  wp (get_item b i) w (fun r w' => WF held w' /\ others b w w' /\ plenty w' /\ r = (0, i) /\ view w' b = Some rest).
Proof.
  intros HW Hv Hi Hp.
  assert (forall n peek poke val, Z.of_nat (length (poke val)) = n -> 0 < n -> peek (poke val) = val -> view w b = Some (poke val ++ rest) ->
    forall c : Z -> item, wp ('(r, v) ← get_uint n peek b; mret (r, c v)) w
      (fun r w' => WF held w' /\ others b w w' /\ plenty w' /\ r = (0, c val) /\ view w' b = Some rest)) as Huint.
  { intros n peek poke val <- Hpos Hrt Hv' c. eapply wp_step; [by apply (get_uint_wp held w b (poke val ++ rest))|].
    intros r w' (HW' & Ho & _ & Hsc & [(_ & -> & Hv2)|(Hl & _)]); [|rewrite length_app in Hl; lia]. apply wp_ret.
    rewrite Nat2Z.id, take_app_length, Hrt. split_and!; try done; [unfold plenty; by rewrite Hsc|]. by rewrite Hv2, Nat2Z.id, drop_app_length. }
  destruct i as [n|n|n|n|s|s]; cbn [get_item encoding item_ok] in *.
  - by apply (Huint 1 _ (fun v => [v])).
  - by apply (Huint 2 _ POKE_U16); [..|apply U16_roundtrip|].
  - by apply (Huint 4 _ POKE_U32); [..|apply U32_roundtrip|].
  - by apply (Huint 8 _ POKE_U64); [..|apply U64_roundtrip|].
  - destruct Hi as (Hs & Hl & _). eapply wp_step; [by apply (get_string_wp held)|]. rewrite wire_string_wire by (done || lia).
    intros r w' (HW' & Ho & Hpl & Hv' & [-> |[? _]]); [|done]. apply wp_ret. split_and!; try done; [by apply Hpl|]. rewrite Hv'. f_equal.
    rewrite drop_app_ge by (pose proof (wire_length s); lia). rewrite <- (drop_0 rest) at 2. f_equal. pose proof (wire_length s). lia.
  - destruct Hi as (Hs & Hc & Hl). eapply wp_step; [apply (get_bignum2_wp held w b s rest); try done; by rewrite Hc|].
    intros r w' (HW' & Ho & Hpl & -> & Hv'). rewrite Hc. apply wp_ret. split_and!; try done. by apply Hpl.
Qed.

(** Writing and reading a message; both stop at an error. *)
Fixpoint put_items (b : loc) (items : list item) : M Z :=
  match items with
  | [] => mret 0
  | i :: items => r ← put_item b i; if negb (r =? 0) then mret r else put_items b items
  end.

Fixpoint get_items (b : loc) (items : list item) : M (Z * list item) :=
  match items with
  | [] => mret (0, [])
  | i :: items =>
      '(r, j) ← get_item b i;
      if negb (r =? 0) then mret (r, [])
      else '(r, js) ← get_items b items; mret (r, j :: js)
  end.

Definition message (items : list item) : list Z := concat (encoding <$> items).

Lemma put_items_wp held w b x v items :
  WF held w -> 1 <= held b -> bufs w !! b = Some x -> shared x = false -> view w b = Some v -> Forall (item_ok (btype x)) items -> plenty w ->
  Z.of_nat (length v) + Z.of_nat (length (message items)) <= max_size x ->
  wp (put_items b items) w (fun r w' => WF held w' /\ others b w w' /\ plenty w' /\ r = 0 /\ view w' b = Some (v ++ message items)).
Proof.
  intros HW Hh Hb Hs Hv His. remember (btype x) as type eqn:Et. revert w x v HW Hb Hs Hv Et. induction His as [|i items Hi His IH]; intros w x v HW Hb Hs Hv Et Hp Hfit.
  { apply wp_ret. by rewrite app_nil_r. }
  unfold message in *. rewrite fmap_cons in *. cbn [concat put_items] in *. rewrite length_app in Hfit.
  eapply wp_step; [apply (put_item_wp held w b x v i); try done; by rewrite <- Et|].
  intros r w1 (HW1 & Ho1 & Hpl & (x1 & Hb1 & Hs1 & Hm1 & Ht1) & [(Href & _)|(_ & _ & -> & Hv1)]).
  { destruct Href as [[? _]|[(_ & ? & _)|(_ & _ & ? & _)]]; [congruence|lia|done]. }
  cbn [Z.eqb negb]. cbv iota. eapply wp_mono; [apply (IH w1 x1 (v ++ encoding i)); try done; [congruence..|by apply Hpl|rewrite length_app; lia]|].
  intros r w2 (HW2 & Ho2 & Hp2 & -> & Hv2). split_and!; try done; [by eapply others_trans|]. by rewrite Hv2, app_assoc.
Qed.

Lemma get_items_wp held w b type items rest :
  WF held w -> view w b = Some (message items ++ rest) -> Forall (item_ok type) items -> plenty w ->
  wp (get_items b items) w (fun r w' => WF held w' /\ others b w w' /\ plenty w' /\ r = (0, items) /\ view w' b = Some rest).
Proof.
  intros HW Hv His. revert w HW Hv. induction His as [|i items Hi His IH]; intros w HW Hv Hp; [by apply wp_ret|].
  unfold message in *. rewrite fmap_cons in *. cbn [concat get_items] in *. rewrite <- app_assoc in Hv.
  eapply wp_step; [by apply (get_item_wp held w b type)|]. intros r w1 (HW1 & Ho1 & Hp1 & -> & Hv1). cbn [Z.eqb negb]. cbv iota.
  eapply wp_step; [by apply IH|]. intros r w2 (HW2 & Ho2 & Hp2 & -> & Hv2). apply wp_ret. split_and!; try done. by eapply others_trans.
Qed.

(** ** Creating buffers *)

Definition hold (held : loc -> Z) (b : loc) (n : Z) : loc -> Z := fun c => if decide (c = b) then held c + n else held c.

Lemma kids_new w c x m f sc p :
  bufs w !! c = None -> kids (World (<[c := x]> (bufs w)) m f sc) p = kids w p + (if decide (parent x = Some p) then 1 else 0).
Proof.
  intros Hc. unfold kids. cbn [bufs]. rewrite map_filter_insert. cbn [snd].
  assert (filter (fun e : loc * sshbuf => parent e.2 = Some p) (bufs w) !! c = None) as Hn by (apply map_lookup_filter_None; by left).
  case_decide as D.
  - rewrite map_size_insert_None by done. lia.
  - rewrite map_filter_delete, delete_id by done. lia.
Qed.

Lemma WF_not_fresh held w c : WF held w -> (fresh w <= c)%positive -> bufs w !! c = None /\ mem w !! c = None /\ held c = 0.
Proof.
  intros HW Hc. split_and!.
  - destruct (bufs w !! c) eqn:E; [|done]. pose proof (wf_fresh_buf held w HW c ltac:(eauto)). lia.
  - destruct (mem w !! c) eqn:E; [|done]. pose proof (wf_fresh_mem held w HW c ltac:(eauto)). lia.
  - destruct (wf_held held w HW c) as [_ H]. destruct (decide (held c = 0)) as [|Hn]; [done|].
    pose proof (wf_fresh_buf held w HW c (H Hn)). lia.
Qed.

Lemma no_kids_fresh held w c : WF held w -> bufs w !! c = None -> kids w c = 0.
Proof.
  intros HW Hc. unfold kids. rewrite (proj2 (map_size_empty_iff _)); [done|]. apply map_empty. intros b. apply map_lookup_filter_None. right. intros x Hb P. cbn in P.
  destruct (wf_parent held w HW b x c Hb P) as (_ & y & Hy & _). congruence.
Qed.

(** A new buffer with a new block. *)
Lemma WF_new held w c l x s f sc :
  WF held w -> (fresh w <= c)%positive -> (fresh w <= l)%positive -> (c < f)%positive -> (l < f)%positive ->
  sane c x = true -> 0 <= off x -> cd x = Some (l, 0) -> alloc x = Z.of_nat (length s) -> readonly x = false -> parent x = None -> refcount x = 1 ->
  Forall byte s ->
  let w' := World (<[c := x]> (bufs w)) (<[l := s]> (mem w)) f sc in
  WF (hold held c 1) w' /\ others c w w'.
Proof.
  intros HW Hc Hl Hcf Hlf Hs Ho E Ha Hr Hp Href Hby w'. destruct (WF_not_fresh held w c HW Hc) as (Hcn & _ & Hh0). destruct (WF_not_fresh held w l HW Hl) as (_ & Hln & _).
  assert (forall b y k o, bufs w !! b = Some y -> cd y = Some (k, o) -> k <> l) as Hkl.
  { intros b y k o Hb Ek ->. destruct (wf_block held w HW b y Hb) as (k & o' & s' & Ek' & Hk & _). rewrite Ek in Ek'. injection Ek' as <- <-. congruence. }
  assert (forall b y, bufs w !! b = Some y -> fst <$> cd y <> Some l) as Hkl'.
  { intros b y Hb Ek. destruct (cd y) as [[k o]|] eqn:Ec; [|done]. cbn in Ek. injection Ek as ->. by eapply Hkl. }
  split.
  2: { intros b Hb. unfold view. cbn [bufs w']. rewrite lookup_insert_ne by done. split; [done|]. destruct (bufs w !! b) as [y|] eqn:Hy; [|done]. cbn. f_equal.
       unfold bytes_of. destruct (cd y) as [[k o]|] eqn:Ec; [|done]. cbn [fst snd mem w']. rewrite lookup_insert_ne; [done|]. symmetry. by eapply Hkl. }
  split; cbn [bufs mem fresh w'].
  - intros b y. rewrite lookup_insert_Some. intros [[<- <-]|[_ Hb]]; [done|by apply (wf_sane held w HW)].
  - intros b y. rewrite lookup_insert_Some. intros [[<- <-]|[Hne Hb]].
    + exists l, 0, s. rewrite lookup_insert_eq. split_and!; try done; lia.
    + destruct (wf_block held w HW b y Hb) as (k & o & s' & Ek & Hk & H). exists k, o, s'. rewrite lookup_insert_ne by (symmetry; by eapply Hkl). done.
  - intros a b u v. rewrite !lookup_insert_Some. intros [[<- <-]|[Ha' Hu]] [[<- <-]|[Hb Hv]] R Ek P; [done| | |by apply (wf_own held w HW a b u v)].
    + rewrite E in Ek. cbn in Ek. by destruct (Hkl' b v Hv).
    + rewrite E in Ek. cbn in Ek. by destruct (Hkl' a u Hu).
  - intros b y q. rewrite lookup_insert_Some. intros [[<- <-]|[Hne Hb]] P; [congruence|].
    destruct (wf_parent held w HW b y q Hb P) as (Hlt & z & Hz & Ez). split; [done|]. exists z. rewrite lookup_insert_ne by congruence. done.
  - intros b y. unfold w'. rewrite kids_new by done. rewrite (decide_False (P := parent x = Some b)) by congruence. unfold hold.
    rewrite lookup_insert_Some. intros [[<- <-]|[Hne Hb]].
    + rewrite decide_True, (no_kids_fresh held) by done. lia.
    + rewrite decide_False by done. rewrite (wf_refs held w HW b y Hb). lia.
  - intros b. unfold hold. destruct (wf_held held w HW b) as [H0 H1]. destruct (decide (b = c)) as [->|Hne].
    + split; [lia|]. intros _. rewrite lookup_insert_eq. eauto.
    + split; [done|]. by rewrite lookup_insert_ne by done.
  - intros b. destruct (decide (c = b)) as [->|]; [done|]. rewrite lookup_insert_ne by done. intros H%(wf_fresh_buf held w HW). lia.
  - intros k. destruct (decide (l = k)) as [->|]; [done|]. rewrite lookup_insert_ne by done. intros H%(wf_fresh_mem held w HW). lia.
  - apply bytes_insert; [apply (wf_bytes held w HW)|done].
Qed.

(** Only allocation attempts happened. *)
Definition untouched (w w' : world) : Prop := bufs w' = bufs w /\ mem w' = mem w /\ (fresh w <= fresh w')%positive.

Lemma WF_untouched held w w' : WF held w -> untouched w w' -> WF held w'.
Proof.
  intros [] (Eb & Em & Hf). assert (forall p, kids w' p = kids w p) as Hk by (intros p; unfold kids; by rewrite Eb).
  split; rewrite ?Eb, ?Em; try done.
  - intros b x Hb. rewrite Hk. auto.
  - intros b Hb. specialize (wf_fresh_buf0 b Hb). lia.
  - intros l Hl. specialize (wf_fresh_mem0 l Hl). lia.
Qed.

Lemma new_wp held w :
  WF held w ->
  wp sshbuf_new_label w (fun r w' =>
    (r = None /\ ~ plenty w /\ untouched w w') \/
    exists b x, r = Some b /\ bufs w !! b = None /\ WF (hold held b 1) w' /\ others b w w' /\ (plenty w -> plenty w') /\
      bufs w' !! b = Some x /\ shared x = false /\ max_size x = SSHBUF_SIZE_MAX /\ btype x = BUF_CHANNEL_OUTPUT /\
      alloc x = SSHBUF_SIZE_INIT /\ size x = 0 /\ off x = 0 /\ view w' b = Some []).
Proof.
  intros HW. unfold sshbuf_new_label, calloc_buf, calloc. apply wp_bind, wp_bind, wp_allocates; cbv iota.
  { intros Hnp. apply wp_ret, wp_ret. left. split_and!; try done. }
  apply wp_bind, wp_get, wp_bind, wp_put, wp_ret. cbv iota. cbn [bufs mem fresh script]. apply wp_bind, wp_bind, wp_allocates; cbv iota; cbn [bufs mem fresh script].
  { intros Hnp. apply wp_ret. destruct (WF_not_fresh held w (fresh w) HW ltac:(lia)) as (Hn & _).
    unfold wp, free_buf, mbind, prog_bind, Prelude.get, Prelude.put, run. cbn. rewrite lookup_insert_eq. cbn. left. split_and!; [done| |].
    - intros Hp. apply Hnp. unfold plenty in *. cbn. destruct (script w); [done|]. by apply Forall_cons in Hp as [_ ?].
    - split_and!; cbn; [by rewrite delete_insert_id|done|lia]. }
  apply wp_bind, wp_get, wp_bind, wp_put, wp_ret. cbv iota. cbn [bufs mem fresh script].
  apply wp_bind. eapply wp_load; [cbn; apply lookup_insert_eq|]. apply wp_bind. eapply wp_store; [cbn; apply lookup_insert_eq|]. apply wp_ret. right.
  unfold with_buf. cbn [bufs mem fresh script]. rewrite insert_insert_eq. set (x := set_block _ _ _).
  destruct (WF_new held w (fresh w) (Pos.succ (fresh w)) x (zeros SSHBUF_SIZE_INIT) (Pos.succ (Pos.succ (fresh w))) (tl (tl (script w)))) as [HW' Ho]; try done; try lia.
  { by apply sane_spec. }
  { apply byte_zeros. }
  exists (fresh w), x. split_and!; try done.
  - by apply (WF_not_fresh held w).
  - intros Hp. unfold plenty in *. cbn. destruct (script w) as [|? [|? ?]]; try done. by apply Forall_cons in Hp as [_ [_ ?]%Forall_cons].
  - cbn. apply lookup_insert_eq.
  - unfold view. cbn [bufs]. rewrite lookup_insert_eq. done.
Qed.

(** ** Children *)

Definition child_of (l : loc) (o n : Z) (p : option loc) : sshbuf := Sshbuf None (Some (l, o)) 0 n n n true 1 p 0.

(** A new child [c] of [b], which reads [n] bytes of its block. *)
Lemma WF_child held w b c y l o n oy s f sc :
  WF held w -> bufs w !! b = Some y -> refcount y < SSHBUF_REFS_MAX -> (fresh w <= c)%positive -> (c < f)%positive ->
  cd y = Some (l, oy) -> mem w !! l = Some s -> 0 <= o -> 0 <= n <= SSHBUF_SIZE_MAX -> o + n <= Z.of_nat (length s) ->
  let w' := World (<[b := set_refs y (refcount y + 1)]> (<[c := child_of l o n (Some b)]> (bufs w))) (mem w) f sc in
  WF (hold held c 1) w' /\ (forall a, a <> c -> view w' a = view w a) /\ view w' c = Some (bytes_at s o n).
Proof.
  intros HW Hb Hrf Hc Hcf E Hl Ho Hn Hlen w'. destruct (WF_not_fresh held w c HW Hc) as (Hcn & _ & Hh0).
  pose proof (wf_fresh_buf held w HW b ltac:(eauto)) as Hbf. assert (b <> c) as Hbc by lia.
  assert (forall a x, bufs w' !! a = Some x -> a = c /\ x = child_of l o n (Some b) \/ a = b /\ x = set_refs y (refcount y + 1) \/ a <> c /\ a <> b /\ bufs w !! a = Some x) as Hcase.
  { intros a x. cbn [bufs w']. rewrite !lookup_insert_Some. naive_solver. }
  assert (forall a, a <> c -> exists g, bufs w' !! a = g <$> bufs w !! a /\ forall x, cd (g x) = cd x /\ off (g x) = off x /\ size (g x) = size x /\
     parent (g x) = parent x /\ readonly (g x) = readonly x /\ alloc (g x) = alloc x) as Hsame.
  { intros a Ha. cbn [bufs w']. destruct (decide (a = b)) as [->|Hab].
    - exists (fun x => set_refs x (refcount y + 1)). rewrite lookup_insert_eq, Hb. by split.
    - exists id. rewrite !lookup_insert_ne by done. split; [by destruct (bufs w !! a)|done]. }
  assert (forall x, fst <$> cd (set_refs x (refcount y + 1)) = fst <$> cd x) as Hcd by done.
  split_and!.
  3: { unfold view. cbn [bufs w']. rewrite lookup_insert_ne, lookup_insert_eq by done. cbn. unfold bytes_of. cbn [cd child_of fst snd mem w']. rewrite Hl. cbn.
       by rewrite Z.add_0_r, Z.sub_0_r. }
  2: { intros a Ha. destruct (Hsame a Ha) as (g & Eg & Hg). unfold view. rewrite Eg. destruct (bufs w !! a) as [x|]; [|done]. cbn. f_equal. unfold bytes_of.
       destruct (Hg x) as (-> & -> & -> & _). done. }
  destruct (wf_sane held w HW b y Hb) as [Hsy Hoy]. pose proof Hsy as (? & ? & ? & ? & ? & ? & ? & ?)%sane_spec.
  split.
  - intros a x [[-> ->]|[[-> ->]|(_ & _ & Ha)]]%Hcase; [| |by apply (wf_sane held w HW)].
    + split; [|done]. apply sane_spec. cbn. split_and!; try done; try lia. congruence.
    + split; [|done]. apply sane_spec. cbn. split_and!; try done; lia.
  - intros a x [[-> ->]|[[-> ->]|(_ & _ & Ha)]]%Hcase; cbn [mem w'].
    + exists l, o, s. cbn. split_and!; try done; lia.
    + apply (wf_block held w HW b y Hb).
    + by apply (wf_block held w HW a x Ha).
  - assert (forall a x, bufs w' !! a = Some x -> a <> c -> exists x0, bufs w !! a = Some x0 /\ readonly x = readonly x0 /\ fst <$> cd x = fst <$> cd x0 /\ parent x = parent x0) as Hold.
    { intros a x Ha Hac. destruct (Hcase a x Ha) as [[-> _]|[[-> ->]|(_ & _ & Ha')]]; [done|by exists y|by exists x]. }
    intros a1 a2 x1 x2 G1 G2 R Ec P. destruct (decide (a2 = c)) as [->|Hn2].
    { destruct (Hcase c x2 G2) as [[_ ->]|[[? _]|(? & _)]]; done. }
    destruct (decide (a1 = c)) as [->|Hn1].
    { destruct (Hcase c x1 G1) as [[_ ->]|[[? _]|(? & _)]]; done. }
    destruct (Hold a1 x1 G1 Hn1) as (z1 & Z1 & R1 & C1 & _), (Hold a2 x2 G2 Hn2) as (z2 & Z2 & _ & C2 & P2).
    apply (wf_own held w HW a1 a2 z1 z2); try done; congruence.
  - assert (forall q z, bufs w !! q = Some z -> exists z', bufs w' !! q = Some z' /\ fst <$> cd z' = fst <$> cd z) as Hup.
    { intros q z Hq. assert (q <> c) as Hqc by congruence. destruct (Hsame q Hqc) as (g & Eg & Hg). exists (g z). rewrite Eg, Hq. split; [done|]. by destruct (Hg z) as (-> & _). }
    intros a x q Ha P. destruct (Hcase a x Ha) as [[-> ->]|[[-> ->]|(_ & _ & Ha')]].
    + cbn in P. injection P as <-. split; [lia|]. destruct (Hup b y Hb) as (z' & ? & Ez). exists z'. split; [done|]. rewrite Ez, E. done.
    + destruct (wf_parent held w HW b y q Hb P) as (Hlt & z & Hz & Ez). split; [done|]. destruct (Hup q z Hz) as (z' & ? & Ez'). exists z'. split; [done|]. rewrite Ez'. exact Ez.
    + destruct (wf_parent held w HW a x q Ha' P) as (Hlt & z & Hz & Ez). split; [done|]. destruct (Hup q z Hz) as (z' & ? & Ez'). exists z'. split; [done|]. by rewrite Ez', Ez.
  - assert (forall q, kids w' q = kids w q + (if decide (q = b) then 1 else 0)) as Hkids.
    { intros q. set (w1 := World (<[c := child_of l o n (Some b)]> (bufs w)) (mem w) f sc).
      assert (bufs w1 !! b = Some y) as Hb1 by (cbn; by rewrite lookup_insert_ne).
      change (kids w' q) with (kids (World (<[b := set_refs y (refcount y + 1)]> (bufs w1)) (mem w) f sc) q).
      rewrite (kids_replace w1 b y) by done. unfold w1. rewrite kids_new by done. cbn [parent child_of]. repeat case_decide; try done; congruence. }
    intros a x Ha. rewrite Hkids. unfold hold. destruct (Hcase a x Ha) as [[-> ->]|[[-> ->]|(Hac & Hab & Ha')]].
    + rewrite decide_True, decide_False, (no_kids_fresh held) by done. cbn. lia.
    + rewrite decide_False, decide_True by done. cbn. rewrite (wf_refs held w HW b y Hb). lia.
    + rewrite !decide_False by done. rewrite (wf_refs held w HW a x Ha'). lia.
  - intros a. unfold hold. destruct (wf_held held w HW a) as [G0 G1']. cbn [bufs w']. destruct (decide (a = c)) as [->|Hac].
    + split; [lia|]. intros _. rewrite lookup_insert_ne, lookup_insert_eq by done. eauto.
    + split; [done|]. intros Hne. destruct (decide (a = b)) as [->|]; [rewrite lookup_insert_eq; eauto|]. rewrite !lookup_insert_ne by done. auto.
  - intros a [x Hx]. cbn [fresh w']. destruct (Hcase a x Hx) as [[-> _]|[[-> _]|(_ & _ & Ha')]]; [done|lia|]. pose proof (wf_fresh_buf held w HW a ltac:(eauto)). lia.
  - intros k Hk. cbn [fresh w']. pose proof (wf_fresh_mem held w HW k Hk). lia.
  - apply (wf_bytes held w HW).
Qed.

Lemma wp_set_parent w b c x y Q :
  bufs w !! c = Some x -> bufs w !! b = Some y -> sane c x = true -> sane b y = true -> parent x = None -> c <> b ->
  Q 0 (with_buf (with_buf w c (set_parent_of x (Some b))) b (set_refs y (refcount y + 1))) -> wp (sshbuf_set_parent c b) w Q.
Proof.
  intros Hc Hb Sx Sy P Hne HQ. unfold sshbuf_set_parent, sshbuf_check_sanity.
  apply wp_bind, wp_bind, (wp_load c x); [done|]. rewrite Sx. apply wp_ret. apply wp_bind, wp_bind, (wp_load b y); [done|]. rewrite Sy. apply wp_ret.
  rewrite P, (bool_decide_false (c = b)) by done. rewrite bool_decide_true by done. cbn [negb andb orb]. cbv iota.
  apply wp_bind, (wp_store c _ x); [done|]. apply wp_bind, (wp_store b _ y); [cbn; by rewrite lookup_insert_ne|]. by apply wp_ret.
Qed.

Lemma sane_child c l o n : 0 <= n <= SSHBUF_SIZE_MAX -> sane c (child_of l o n None) = true.
Proof. intros. apply sane_spec. cbn. split_and!; try done; lia. Qed.

Lemma wp_from w p n (Q : option loc -> world -> Prop) :
  n <= SSHBUF_SIZE_MAX -> (~ plenty w -> Q None (World (bufs w) (mem w) (fresh w) (tl (script w)))) ->
  Q (Some (fresh w)) (World (<[fresh w := child_of p.1 p.2 n None]> (bufs w)) (mem w) (Pos.succ (fresh w)) (tl (script w))) ->
  wp (sshbuf_from (Some p) n) w Q.
Proof.
  intros Hn HN HS. unfold sshbuf_from. rewrite bool_decide_false, Z.gtb_ltb by done. rewrite (proj2 (Z.ltb_ge _ _)) by lia. cbn [orb]. cbv iota.
  unfold calloc_buf. apply wp_bind, wp_allocates; cbv iota; [by intros; apply wp_ret, HN|].
  apply wp_bind, wp_get, wp_bind, wp_put, wp_ret. destruct p. exact HS.
Qed.

(** A new buffer that reads the bytes of another one. *)
Definition born (held : loc -> Z) (w : world) (v : list Z) (c : loc) (w' : world) : Prop :=
  bufs w !! c = None /\ WF (hold held c 1) w' /\ view w' c = Some v /\ (plenty w -> plenty w').

Lemma fromb_wp held w b y v :
  WF held w -> bufs w !! b = Some y -> view w b = Some v -> refcount y < SSHBUF_REFS_MAX ->
  wp (sshbuf_fromb b) w (fun r w' =>
    (r = None /\ ~ plenty w /\ untouched w w') \/
    exists c, r = Some c /\ born held w v c w' /\ forall a, a <> c -> view w' a = view w a).
Proof.
  intros HW Hb Hv Hrf. destruct (WF_see held w b y HW Hb) as (l & o & s & E & Hl & Ho & Hof & Hsz & Hal & Hmx & Hs & Hv').
  rewrite Hv in Hv'. injection Hv' as Ev. pose proof (view_length held w b y v HW Hb Hv) as Lv.
  unfold sshbuf_fromb. apply wp_bind, (wp_sanity held w b y); [done|done|]. apply wp_bind, (wp_ptr held w b y l o); [done..|].
  apply wp_bind, (wp_len held w b v); [done..|]. apply wp_bind, wp_from; [lia| |].
  { intros Hnp. apply wp_ret. by left. }
  destruct (WF_not_fresh held w (fresh w) HW ltac:(lia)) as (Hcn & _). assert (fresh w <> b) as Hne by congruence. cbn [fst snd].
  apply wp_bind. eapply (wp_set_parent _ b (fresh w)); [cbn; apply lookup_insert_eq|cbn; by rewrite lookup_insert_ne|apply sane_child; lia|done|done|done|].
  cbn [Z.eqb negb]. cbv iota. apply wp_ret. right. exists (fresh w). split; [done|]. unfold with_buf. cbn [bufs mem fresh script]. rewrite insert_insert_eq.
  destruct (WF_child held w b (fresh w) y l (o + off y) (Z.of_nat (length v)) o s (Pos.succ (fresh w)) (tl (script w))) as (HW' & Hva & Hvc); try done; try lia.
  split; [|exact Hva]. split_and!; try done; [etrans; [exact Hvc|]; by rewrite Lv, Ev|]. by apply plenty_tl'.
Qed.

Definition consumed (x : sshbuf) (len : Z) : sshbuf :=
  if off x + len =? size x then set_bounds x 0 0 else set_bounds x (off x + len) (size x).

Lemma wp_consume w b x len Q :
  bufs w !! b = Some x -> sane b x = true -> 0 < len <= size x - off x -> Q 0 (with_buf w b (consumed x len)) -> wp (sshbuf_consume b len) w Q.
Proof.
  intros Hb Hs Hl HQ. unfold sshbuf_consume, sshbuf_check_sanity. apply wp_bind, wp_bind, (wp_load b x); [done|]. rewrite Hs. apply wp_ret.
  rewrite (proj2 (Z.eqb_neq len 0)), Z.gtb_ltb, (proj2 (Z.ltb_ge _ _)) by lia. apply wp_bind, (wp_store b _ x); [done|]. apply wp_ret. exact HQ.
Qed.

(** The string at the front becomes a buffer of its own. *)
Lemma froms_wp held w b y v :
  WF held w -> bufs w !! b = Some y -> view w b = Some v -> refcount y < SSHBUF_REFS_MAX ->
  wp (sshbuf_froms b) w (fun r w' =>
    match wire_string v with
    | inl e => r = (e, None) /\ w' = w
    | inr s =>
        (r = (SSH_ERR_ALLOC_FAIL, None) /\ ~ plenty w /\ untouched w w') \/
        exists c, r = (0, Some c) /\ born held w s c w' /\ view w' b = Some (drop (4 + length s) v) /\ forall a, a <> c -> a <> b -> view w' a = view w a
    end).
Proof.
  intros HW Hb Hv Hrf. destruct (WF_see held w b y HW Hb) as (l & o & s0 & E & Hl & Ho & Hof & Hsz & Hal & Hmx & Hs & Hv').
  rewrite Hv in Hv'. injection Hv' as Ev. pose proof (view_length held w b y v HW Hb Hv) as Lv. pose proof (view_bytes held w b v HW Hv) as Hby.
  unfold sshbuf_froms. eapply wp_step; [by apply (peek_string_wp held w b y l o v)|]. intros r w' [-> ->].
  destruct (wire_string v) as [e|s] eqn:W; cbv iota.
  { assert (e < 0) as He by (unfold wire_string in W; revert W; repeat case_match; intros [= <-]; done).
    rewrite (proj2 (Z.eqb_neq e 0)) by lia. by apply wp_ret. }
  destruct (wire_string_inr v s Hby W) as (Hls & _ & Es & Hmxs). cbn [Z.eqb negb]. cbv iota. apply wp_bind, (wp_run _ ((l, o + off y + 4), Z.of_nat (length s))); [done|]. cbv iota.
  apply wp_bind, wp_from; [lia| |].
  { intros Hnp. apply wp_ret. by left. }
  destruct (WF_not_fresh held w (fresh w) HW ltac:(lia)) as (Hcn & _). assert (fresh w <> b) as Hne by congruence. cbn [fst snd].
  set (n := Z.of_nat (length s)) in *.
  apply wp_bind, (wp_consume _ b y); [cbn; by rewrite lookup_insert_ne|done|lia|]. cbn [Z.eqb negb]. cbv iota.
  assert (WF held (with_buf w b (consumed y (n + 4))) /\ others b w (with_buf w b (consumed y (n + 4))) /\ view (with_buf w b (consumed y (n + 4))) b = Some (drop (4 + length s) v)) as (HW1 & Ho1 & Hv1).
  { assert (WF held w /\ view w b = Some v /\ 0 <= n + 4) as (? & ? & ?) by (split_and!; [done|done|lia]).
    pose proof (consume_wp held w b v (n + 4) HW Hv ltac:(lia)) as C. apply wp_Ok in C as (r & w' & Er & HW' & Ho' & _ & _ & [(_ & _ & Hv2)|(? & _)]); [|lia].
    assert (wp (sshbuf_consume b (n + 4)) w (fun _ w2 => w2 = with_buf w b (consumed y (n + 4)))) as C2 by (apply (wp_consume w b y); try done; lia).
    apply wp_Ok in C2 as (r2 & w2 & Er2 & ->). rewrite Er in Er2. injection Er2 as -> ->. split_and!; try done. rewrite Hv2. do 2 f_equal. lia. }
  set (y1 := consumed y (n + 4)) in *. assert (bufs (with_buf w b y1) !! b = Some y1) as Hb1 by (cbn; apply lookup_insert_eq).
  assert (refcount y1 = refcount y /\ cd y1 = cd y) as [Er1 Ec1] by (unfold y1, consumed; by destruct (_ =? _)).
  destruct (WF_see held _ b y1 HW1 Hb1) as (_ & _ & _ & _ & _ & _ & _ & _ & _ & _ & Hs1 & _).
  apply wp_bind. eapply (wp_set_parent _ b (fresh w)); [cbn; rewrite lookup_insert_ne, lookup_insert_eq by done; done|cbn; apply lookup_insert_eq|apply sane_child; lia|done|done|done|].
  cbn [Z.eqb negb]. cbv iota. apply wp_ret. right. exists (fresh w). split; [done|].
  destruct (WF_child held (with_buf w b y1) b (fresh w) y1 l (o + off y + 4) n o s0 (Pos.succ (fresh w)) (tl (script w))) as (HW' & Hva & Hvc); try done; try lia.
  { by rewrite Ec1. }
  assert (with_buf (with_buf (with_buf (World (<[fresh w := child_of l (o + off y + 4) n None]> (bufs w)) (mem w) (Pos.succ (fresh w)) (tl (script w))) b y1) (fresh w)
      (set_parent_of (child_of l (o + off y + 4) n None) (Some b))) b (set_refs y1 (refcount y1 + 1)) =
    World (<[b := set_refs y1 (refcount y1 + 1)]> (<[fresh w := child_of l (o + off y + 4) n (Some b)]> (bufs (with_buf w b y1)))) (mem (with_buf w b y1)) (Pos.succ (fresh w)) (tl (script w))) as ->.
  { unfold with_buf. cbn [bufs mem fresh script]. f_equal. f_equal. rewrite (insert_insert_ne _ b (fresh w)) by done. by rewrite insert_insert_eq. }
  split_and!.
  - split_and!; try done; [|by apply plenty_tl']. rewrite Hvc. f_equal. rewrite Es, Ev. unfold n.
    rewrite <- (Nat2Z.id (length s)) at 2. change 4%nat with (Z.to_nat 4). rewrite <- bytes_at_drop, <- bytes_at_take by lia. done.
  - rewrite Hva by done. exact Hv1.
  - intros a Hac Hab. rewrite Hva by done. by apply Ho1.
Qed.

(** ** Freeing *)

Lemma WF_ext held held' w : (forall c, held c = held' c) -> WF held w -> WF held' w.
Proof. intros E []. split; try done; [intros b x Hb; rewrite <- E; auto|intros b; rewrite <- E; auto]. Qed.

(** A reference more or less, while some are left. *)
Lemma WF_refs held w b x k :
  WF held w -> bufs w !! b = Some x -> 1 <= refcount x + k <= SSHBUF_REFS_MAX -> 0 <= held b + k ->
  WF (hold held b k) (with_buf w b (set_refs x (refcount x + k))).
Proof.
  intros HW Hb Hr Hh. pose proof (fun c => kids_replace w b x (set_refs x (refcount x + k)) (mem w) (fresh w) (script w) c Hb eq_refl) as Hk.
  assert (forall c y, bufs (with_buf w b (set_refs x (refcount x + k))) !! c = Some y -> exists z, bufs w !! c = Some z /\
    (y = z /\ c <> b \/ c = b /\ y = set_refs x (refcount x + k) /\ z = x)) as Hcase.
  { intros c y. cbn. rewrite lookup_insert_Some. intros [[<- <-]|[? ?]]; [exists x; auto 6|exists y; auto]. }
  assert (forall c z, bufs w !! c = Some z -> exists y, bufs (with_buf w b (set_refs x (refcount x + k))) !! c = Some y /\ fst <$> cd y = fst <$> cd z) as Hup.
  { intros c z Hc. cbn. destruct (decide (b = c)) as [->|]; [rewrite lookup_insert_eq; eexists; split; [done|]; by simplify_eq|rewrite lookup_insert_ne by done; eauto]. }
  split; cbn [mem fresh with_buf].
  - intros c y (z & Hz & [[-> _]|(-> & -> & ->)])%Hcase; [by apply (wf_sane held w HW)|].
    destruct (wf_sane held w HW b x Hb) as [(? & ? & ? & ? & ? & ? & ? & ?)%sane_spec ?]. split; [|done]. apply sane_spec. cbn. done.
  - intros c y (z & Hz & [[-> _]|(-> & -> & ->)])%Hcase; [by apply (wf_block held w HW c)|exact (wf_block held w HW b x Hb)].
  - intros a c u v (zu & Zu & Hu)%Hcase (zv & Zv & Hv)%Hcase R E P. apply (wf_own held w HW a c zu zv); try done.
    + destruct Hu as [[-> _]|(_ & -> & ->)]; done.
    + destruct Hu as [[-> _]|(_ & -> & ->)], Hv as [[-> _]|(_ & -> & ->)]; done.
    + destruct Hv as [[-> _]|(_ & -> & ->)]; done.
  - intros c y q (z & Hz & Hy)%Hcase P. destruct (wf_parent held w HW c z q Hz) as (Hlt & u & Hu & Eu).
    { destruct Hy as [[-> _]|(_ & -> & ->)]; done. }
    split; [done|]. destruct (Hup q u Hu) as (u' & Hu' & Eu'). exists u'. split; [done|]. rewrite Eu', <- Eu. destruct Hy as [[-> _]|(_ & -> & ->)]; done.
  - intros c y (z & Hz & Hy)%Hcase. unfold with_buf. rewrite Hk. unfold hold. pose proof (wf_refs held w HW c z Hz) as Hr0. destruct Hy as [[-> Hne]|(-> & -> & ->)].
    + by rewrite decide_False by done.
    + rewrite decide_True by done. cbn. lia.
  - intros c. destruct (wf_held held w HW c) as [H0 H1]. unfold hold. destruct (decide (c = b)) as [->|Hne].
    + split; [done|]. intros _. cbn. rewrite lookup_insert_eq. eauto.
    + split; [done|]. intros Hc. cbn. rewrite lookup_insert_ne by done. auto.
  - intros c [y Hy]. destruct (Hcase c y Hy) as (z & Hz & _). apply (wf_fresh_buf held w HW). eauto.
  - apply (wf_fresh_mem held w HW).
  - apply (wf_bytes held w HW).
Qed.

Lemma kids_delete w b x m f sc c :
  bufs w !! b = Some x -> kids (World (delete b (bufs w)) m f sc) c = kids w c - (if decide (parent x = Some c) then 1 else 0).
Proof.
  intros Hb. pose proof (kids_new (World (delete b (bufs w)) m f sc) b x m f sc c ltac:(cbn; apply lookup_delete_eq)) as H. cbn [bufs] in H.
  rewrite insert_delete_id in H by done. change (kids (World (bufs w) m f sc) c) with (kids w c) in H. lia.
Qed.

(** A buffer without children is removed; its parent is then held once more. *)
Lemma WF_remove held held' w b x m f sc :
  WF held w -> bufs w !! b = Some x -> kids w b = 0 ->
  (forall c, c <> b -> held' c = held c + (if decide (parent x = Some c) then 1 else 0)) -> held' b = 0 ->
  (forall c y l, bufs w !! c = Some y -> c <> b -> fst <$> cd y = Some l -> m !! l = mem w !! l) ->
  (forall l s, m !! l = Some s -> mem w !! l = Some s) -> (fresh w <= f)%positive ->
  WF held' (World (delete b (bufs w)) m f sc).
Proof.
  intros HW Hb Hk Hh Hhb Hm Hsub Hf.
  assert (parent x <> Some b) as Hpb.
  { destruct (wf_sane held w HW b x Hb) as [(_ & ? & _)%sane_spec _]. done. }
  split; cbn [bufs mem fresh].
  - intros c y [_ Hc]%lookup_delete_Some. by apply (wf_sane held w HW).
  - intros c y [Hne Hc]%lookup_delete_Some. destruct (wf_block held w HW c y Hc) as (l & o & s & E & Hl & H). exists l, o, s.
    rewrite (Hm c y l); [done|done|done|]. by rewrite E.
  - intros a c u v [_ Ha]%lookup_delete_Some [_ Hc]%lookup_delete_Some. by apply (wf_own held w HW a c u v).
  - intros c y q [Hne Hc]%lookup_delete_Some P. destruct (wf_parent held w HW c y q Hc P) as (Hlt & z & Hz & Ez). split; [done|].
    exists z. rewrite lookup_delete_ne; [done|]. intros <-. by apply (kids_0 w b c y Hk Hc).
  - intros c y [Hne Hc]%lookup_delete_Some. rewrite (kids_delete w b x) by done. rewrite Hh by done. rewrite (wf_refs held w HW c y Hc). lia.
  - intros c. destruct (decide (c = b)) as [->|Hne]; [rewrite Hhb; split; [done|lia]|]. rewrite Hh, lookup_delete_ne by done.
    destruct (wf_held held w HW c) as [H0 H1]. split; [case_decide; lia|]. intros Hc. case_decide as D; [|apply H1; lia].
    destruct (wf_parent held w HW b x c Hb D) as (_ & z & Hz & _). eauto.
  - intros c [y [_ Hc]%lookup_delete_Some]. pose proof (wf_fresh_buf held w HW c ltac:(eauto)). lia.
  - intros l [s Hs]. apply Hsub in Hs. pose proof (wf_fresh_mem held w HW l ltac:(eauto)). lia.
  - intros l s Hs. apply Hsub in Hs. by apply (wf_bytes held w HW l).
Qed.

(** The structures that are being freed, apart from the others. *)
Definition plus_dying (w : world) (D : gmap loc sshbuf) : world := World (bufs w ∪ D) (mem w) (fresh w) (script w).

Definition below (w : world) (b : loc) : nat := stdpp.base.size (filter (fun e => (e.1 <= b)%positive) (bufs w)).

Lemma below_parent w b p x m f sc : bufs w !! b = Some x -> (p < b)%positive -> (below (World (delete b (bufs w)) m f sc) p < below w b)%nat.
Proof.
  intros Hb Hp. unfold below. cbn [bufs].
  assert (<[b := x]> (filter (fun e : loc * sshbuf => (e.1 <= p)%positive) (delete b (bufs w))) ⊆ filter (fun e : loc * sshbuf => (e.1 <= b)%positive) (bufs w)) as Hsub.
  { apply insert_subseteq_l; [apply map_lookup_filter_Some; split; [done|cbn; lia]|]. apply map_subseteq_spec. intros c y.
    rewrite !map_lookup_filter_Some, lookup_delete_Some. cbn. intros [[_ ?] ?]. split; [done|lia]. }
  apply map_subseteq_size in Hsub. rewrite map_size_insert_None in Hsub; [lia|]. apply map_lookup_filter_None. left. apply lookup_delete_eq.
Qed.

(** What a release leaves of the other buffers. *)
Definition kept (w w' : world) : Prop := forall a, is_Some (bufs w' !! a) -> view w' a = view w a.

Lemma kept_trans w1 w2 w3 :
  kept w1 w2 -> kept w2 w3 -> (forall a, is_Some (bufs w3 !! a) -> is_Some (bufs w2 !! a)) -> kept w1 w3.
Proof. intros H12 H23 Hd a Ha. rewrite H23 by done. auto. Qed.

Definition released (held : loc -> Z) (w : world) (D : gmap loc sshbuf) (w' : world) : Prop :=
  exists w1, w' = plus_dying w1 D /\ script w1 = script w /\ WF held w1 /\ bufs w1 ##ₘ D /\ kept w w1 /\
    forall a, is_Some (bufs w1 !! a) -> is_Some (bufs w !! a).

Lemma union_dying (m D : gmap loc sshbuf) b x y :
  m !! b = Some x -> m ##ₘ D -> <[b := y]> (m ∪ D) = delete b m ∪ <[b := y]> D /\ delete b (delete b m ∪ <[b := y]> D) = delete b m ∪ D /\ delete b m ##ₘ <[b := y]> D.
Proof.
  intros Hb Hd. assert (D !! b = None) as HD by (by eapply map_disjoint_Some_l).
  assert (delete b m !! b = None) as Hn by apply lookup_delete_eq. split_and!.
  - rewrite <- insert_union_r by done. by rewrite (insert_union_l (delete b m)), insert_delete_eq, insert_union_l.
  - rewrite <- insert_union_r by done. rewrite delete_insert_id; [done|]. by apply lookup_union_None.
  - apply map_disjoint_insert_r. split; [done|]. by apply map_disjoint_delete_l.
Qed.

(** The last reference of a buffer without a parent is gone. *)
Lemma release_root held w D b x x0 :
  WF held w -> bufs w !! b = Some x -> kids w b = 0 -> held b = 1 -> parent x = None -> bufs w ##ₘ D ->
  wp (_ ← (if negb (readonly x) then p ← run (deref (d x)); free_block p.1 else mret tt); free_buf b) (with_buf (plus_dying w D) b x0)
    (fun _ => released (hold held b (-1)) w D).
Proof.
  intros HW Hx Hk Hh P Hd. destruct (union_dying (bufs w) D b x x0 Hx Hd) as (E1 & E2 & Hd2).
  assert (forall m, (forall c y l, bufs w !! c = Some y -> c <> b -> fst <$> cd y = Some l -> m !! l = mem w !! l) -> (forall l s, m !! l = Some s -> mem w !! l = Some s) ->
    wp (free_buf b) (World (<[b := x0]> (bufs w ∪ D)) m (fresh w) (script w)) (fun _ => released (hold held b (-1)) w D)) as Hfin.
  { intros m Hm Hsub. unfold wp, free_buf, mbind, prog_bind, Prelude.get, Prelude.put, run. cbn. rewrite lookup_insert_eq. cbn. rewrite E1, E2.
    exists (World (delete b (bufs w)) m (fresh w) (script w)). split_and!; try done.
    - apply (WF_remove held _ w b x); try done.
      + intros c Hc. unfold hold. rewrite P, decide_False by done. case_decide; [congruence|lia].
      + unfold hold. rewrite decide_True by done. lia.
    - cbn. by apply map_disjoint_delete_l.
    - intros a [y Hy]. cbn in Hy. apply lookup_delete_Some in Hy as [Hne Hy]. unfold view. cbn. rewrite lookup_delete_ne, Hy by done. cbn. f_equal. unfold bytes_of.
      destruct (cd y) as [[l o]|] eqn:C; [|done]. cbn [fst snd mem]. rewrite (Hm a y l); [done|done|done|]. by rewrite C.
    - intros a [y Hy]. cbn in Hy. apply lookup_delete_Some in Hy as [_ Hy]. eauto. }
  destruct (readonly x) eqn:R; cbn [negb]; cbv iota.
  - apply wp_bind, wp_ret. by apply Hfin.
  - destruct (wf_block held w HW b x Hx) as (l & o & s & E & Hl & _ & _ & Hw). destruct (Hw R) as (-> & _ & _).
    destruct (wf_sane held w HW b x Hx) as [(Hdc & _)%sane_spec _]. apply wp_bind, wp_bind, (wp_run _ (l, 0)); [by rewrite Hdc, E|].
    unfold wp at 1, free_block, mbind, prog_bind, Prelude.get, Prelude.put, run. cbn. rewrite Hl. cbn. apply Hfin.
    + intros c y k Hc Hne Ek. apply lookup_delete_ne. intros <-. apply Hne. symmetry. apply (WF_alone held w b c x y); try done. by rewrite E, Ek.
    + intros k u [_ ?]%lookup_delete_Some. done.
Qed.

Lemma free_chain_wp n held w D b :
  WF held w -> 1 <= held b -> bufs w ##ₘ D -> (below w b <= n)%nat ->
  wp (free_chain n (Some b)) (plus_dying w D) (fun _ => released (hold held b (-1)) w D).
Proof.
  revert held w D b. induction n as [|n IH]; intros held w D b HW Hh Hd Hn.
  { destruct (wf_held held w HW b) as [_ [x Hx]]; [lia|]. exfalso. unfold below in Hn.
    assert (filter (fun e : loc * sshbuf => (e.1 <= b)%positive) (bufs w) !! b = Some x) as F by (apply map_lookup_filter_Some; split; [done|cbn; lia]).
    rewrite (map_size_empty_inv (filter (fun e : loc * sshbuf => (e.1 <= b)%positive) (bufs w))) in F by lia. done. }
  destruct (wf_held held w HW b) as [_ [x Hx]]; [lia|].
  assert (bufs (plus_dying w D) !! b = Some x) as Hx' by (by apply lookup_union_Some_l).
  destruct (wf_sane held w HW b x Hx) as [Hs _]. pose proof Hs as (_ & Hpb & Hr & _)%sane_spec.
  pose proof (wf_refs held w HW b x Hx) as Href.
  cbn [free_chain]. unfold sshbuf_check_sanity. apply wp_bind, wp_bind, (wp_load b x); [done|]. rewrite Hs. apply wp_ret. cbv zeta.
  apply wp_bind, (wp_store b _ x); [done|]. cbn [set_refs refcount parent readonly d]. rewrite Z.gtb_ltb.
  destruct (Z.ltb_spec 0 (refcount x - 1)) as [Hlive|Hdead].
  - apply wp_ret. exists (with_buf w b (set_refs x (refcount x - 1))). split_and!.
    + unfold plus_dying, with_buf. cbn. by rewrite insert_union_l.
    + done.
    + apply (WF_refs held w b x (-1)); try done; lia.
    + cbn. apply map_disjoint_insert_l. split; [by eapply map_disjoint_Some_l|done].
    + intros a _. unfold view. cbn. destruct (decide (b = a)) as [->|]; [by rewrite lookup_insert_eq, Hx|by rewrite lookup_insert_ne].
    + intros a. cbn. destruct (decide (b = a)) as [->|]; [eauto|by rewrite lookup_insert_ne].
  - assert (refcount x = 1 /\ held b = 1 /\ kids w b = 0) as (Hr1 & Hh1 & Hk) by (unfold kids in *; lia).
    set (x0 := set_refs x (refcount x - 1)). destruct (union_dying (bufs w) D b x x0 Hx Hd) as (E1 & E2 & Hd2).
    destruct (parent x) as [q|] eqn:P.
    + destruct (wf_parent held w HW b x q Hx P) as (Hlt & z & Hz & _). assert (q <> b) as Hqb by lia.
      assert (readonly x = true) as Hro.
      { destruct (readonly x) eqn:R; [done|]. destruct (wf_block held w HW b x Hx) as (? & ? & ? & _ & _ & _ & _ & Hp). destruct (Hp R) as (_ & _ & ?). congruence. }
      set (w2 := World (delete b (bufs w)) (mem w) (fresh w) (script w)).
      assert (WF (hold (hold held b (-1)) q 1) w2) as HW2.
      { apply (WF_remove held _ w b x); try done.
        - intros c Hc. unfold hold. rewrite P. repeat case_decide; try lia; congruence.
        - unfold hold. rewrite decide_False, decide_True by done. lia. }
      unfold with_buf, plus_dying. cbn [bufs mem fresh script]. rewrite E1.
      eapply wp_step; [apply (IH (hold (hold held b (-1)) q 1) w2 (<[b := x0]> D) q); try done|].
      * unfold hold. rewrite decide_True, decide_False by done. destruct (wf_held held w HW q). lia.
      * pose proof (below_parent w b q x (mem w) (fresh w) (script w) Hx Hlt) as Hb. fold w2 in Hb. lia.
      * intros [] w3 (w1 & -> & Hsc & HW1 & Hd1 & Hk1 & Hdom). rewrite Hro. cbn [negb]. cbv iota. apply wp_bind, wp_ret.
        assert (bufs w1 !! b = None) as Hb1.
        { destruct (bufs w1 !! b) eqn:F; [|done]. destruct (Hdom b) as [? G]; [eauto|]. cbn in G. by rewrite lookup_delete_eq in G. }
        unfold wp, free_buf, mbind, prog_bind, Prelude.get, Prelude.put, run. cbn. rewrite lookup_union_r, lookup_insert_eq by done. cbn.
        exists w1. split_and!; try done.
        -- unfold plus_dying. f_equal. rewrite <- insert_union_r by done. rewrite delete_insert_id; [done|]. apply lookup_union_None. split; [done|]. by eapply map_disjoint_Some_l.
        -- eapply WF_ext; [|exact HW1]. intros c. unfold hold. repeat case_decide; try lia; congruence.
        -- by apply map_disjoint_insert_r in Hd1 as [_ ?].
        -- intros a Ha. rewrite Hk1 by done. unfold view. cbn. destruct (Hdom a Ha) as [y Hy]. cbn in Hy. apply lookup_delete_Some in Hy as [Hne Hy].
           by rewrite lookup_delete_ne.
        -- intros a Ha. destruct (Hdom a Ha) as [y Hy]. cbn in Hy. apply lookup_delete_Some in Hy as [_ ?]. eauto.
    + apply wp_bind. destruct n as [|n]; (apply wp_ret; by apply (release_root held w D b x x0)).
Qed.

(** Freeing a buffer that the program holds. *)
Lemma free_wp held w b :
  WF held w -> 1 <= held b ->
  wp (sshbuf_free (Some b)) w (fun _ w' => WF (hold held b (-1)) w' /\ script w' = script w /\ kept w w' /\ forall a, is_Some (bufs w' !! a) -> is_Some (bufs w !! a)).
Proof.
  intros HW Hh. unfold sshbuf_free. apply wp_bind, wp_get. assert (w = plus_dying w ∅) as Ew by (unfold plus_dying; rewrite map_union_empty; by destruct w).
  rewrite Ew at 2. eapply wp_mono; [apply (free_chain_wp _ held w ∅ b); try done; [apply map_disjoint_empty_r|]|].
  - unfold below. apply le_S, map_subseteq_size. apply map_filter_subseteq.
  - intros [] w' (w1 & -> & Hsc & HW1 & _ & Hk & Hdom). assert (plus_dying w1 ∅ = w1) as -> by (unfold plus_dying; rewrite map_union_empty; by destruct w1). done.
Qed.

(** ** Resetting, limiting and overwriting *)

(** An operation on one buffer that leaves it with the bytes [u]. *)
Definition leaves (held : loc -> Z) (b : loc) (w w' : world) (u : list Z) : Prop :=
  WF held w' /\ others b w w' /\ (plenty w -> plenty w') /\ view w' b = Some u.

Lemma view_empty w b x n : bufs w !! b = Some x -> off x = n -> size x = n -> view w b = Some [].
Proof.
  intros Hb Ho Hs. unfold view, bytes_of. rewrite Hb. cbn. destruct (cd x) as [p|]; [|done]. by rewrite bytes_at_0 by lia.
Qed.

(** Clearing the block of an empty buffer. *)
Lemma clear_wp held w b x l :
  WF held w -> 1 <= held b -> bufs w !! b = Some x -> shared x = false -> cd x = Some (l, 0) -> off x = 0 -> size x = 0 ->
  wp (poke_bytes (l, 0) (zeros (alloc x))) w (fun _ w' => leaves held b w w' [] /\ bufs w' !! b = Some x).
Proof.
  intros HW Hh Hb Hs E H0 H1. destruct (WF_own_block held w b x HW Hh Hb Hs) as (l' & s & E' & Ed & Hl & Ha & _ & _ & _ & _ & Hof & Hsz & Hmx & _).
  rewrite E in E'. injection E' as <-. pose proof (zeros_length (alloc x) ltac:(lia)) as Lz.
  apply (wp_poke _ _ s); cbn [fst snd]; [done|apply in_block_true; lia|].
  destruct (WF_rewrite held w b x l s (splice s 0 (zeros (alloc x))) (off x) (size x)) as (HW' & Ho' & Hv'); try done; try lia.
  - apply splice_length; lia.
  - apply byte_splice; [by apply (wf_bytes held w HW l)|apply byte_zeros].
  - rewrite set_bounds_same, insert_id in HW', Ho', Hv' by done. split; [|done]. split_and!; try done. etrans; [exact Hv'|]. by rewrite bytes_at_0 by lia.
Qed.

Lemma reset_wp held w b x :
  WF held w -> 1 <= held b -> bufs w !! b = Some x -> (shared x = false -> SSHBUF_SIZE_INIT <= max_size x) ->
  wp (sshbuf_reset b) w (fun _ w' => leaves held b w w' [] /\ exists x', bufs w' !! b = Some x' /\ like x x').
Proof.
  intros HW Hh Hb Hmax. unfold sshbuf_reset. apply wp_bind, (wp_load b x); [done|]. destruct (shared x) eqn:Hs.
  { destruct (WF_see held w b x HW Hb) as (l & o & s & _ & _ & _ & ? & ? & _). apply (wp_store b _ x); [done|].
    assert (bufs (with_buf w b (set_bounds x (size x) (size x))) !! b = Some (set_bounds x (size x) (size x))) as Hb' by (cbn; apply lookup_insert_eq).
    split; [|exists (set_bounds x (size x) (size x)); by split]. split_and!; [apply WF_bounds; try done; lia|by apply others_bounds|done|by eapply view_empty]. }
  specialize (Hmax eq_refl). destruct (WF_own_block held w b x HW Hh Hb Hs) as (l & s & E & Ed & Hl & Ha & Hr & Href & _ & _ & Hof & Hsz & Hmx & _).
  apply wp_bind, (wp_sanity held w b x); [done|done|]. cbv zeta. apply wp_bind, (wp_store b _ x); [done|]. set (x1 := set_bounds x 0 0). set (w1 := with_buf w b x1).
  assert (WF held w1) as HW1 by (apply WF_bounds; try done; lia). assert (others b w w1) as Ho1 by (by apply others_bounds).
  assert (bufs w1 !! b = Some x1) as Hb1 by (cbn; apply lookup_insert_eq). assert (mem w1 !! l = Some s) as Hl1 by done.
  apply wp_bind, (wp_run _ (l, 0)); [cbn; by rewrite Ed|].
  assert (forall w2 x2 k, WF held w2 -> others b w w2 -> (plenty w -> plenty w2) -> bufs w2 !! b = Some x2 -> like x x2 -> cd x2 = Some (k, 0) -> d x2 = Some (k, 0) -> off x2 = 0 -> size x2 = 0 ->
    wp (p ← run (deref (d x2)); poke_bytes p (zeros (alloc x2))) w2 (fun _ w' => leaves held b w w' [] /\ exists x', bufs w' !! b = Some x' /\ like x x')) as Hfin.
  { intros w2 x2 k HW2 Ho2 Hp2 Hb2 Hlk Ec2 Ed2 Hof2 Hsz2. apply wp_bind, (wp_run _ (k, 0)); [by rewrite Ed2|].
    eapply wp_mono; [apply (clear_wp held w2 b x2 k); try done; destruct Hlk; congruence|]. intros [] w3 [(HW3 & Ho3 & Hp3 & Hv3) Hb3].
    split; [|by exists x2]. split_and!; [done|by eapply others_trans|auto|done]. }
  assert (with_buf w1 b x1 = w1) as Esame by (unfold w1, with_buf; cbn; by rewrite insert_insert_eq).
  destruct (Z.eqb_spec (alloc x1) SSHBUF_SIZE_INIT) as [Hi|Hi]; cbn [negb]; cbv iota.
  { apply wp_bind, wp_ret. apply wp_bind, (wp_store b _ x1); [done|]. rewrite Esame. by apply (Hfin w1 x1 l). }
  change (alloc x1) with (alloc x). rewrite Ha. apply wp_bind, (recallocarray_wp w1 l s); [done|apply (wf_fresh_mem held w1 HW1); eauto|done| |].
  - intros Hnp. apply wp_bind, (wp_store b _ x1); [done|]. apply (Hfin _ x1 l); try done.
    + change (WF held (World (<[b := x1]> (bufs w1)) (mem w1) (fresh w1) (tl (script w1)))). rewrite insert_id by done. by apply WF_script.
    + unfold with_buf. cbn [bufs mem fresh script]. rewrite insert_id by done. done.
    + cbn. apply lookup_insert_eq.
  - destruct (WF_move held w1 b x1 l s SSHBUF_SIZE_INIT (tl (script w1))) as (HW2 & Ho2 & Hv2); try done.
    apply wp_bind, (wp_store b _ x1); [done|]. apply (Hfin _ (set_block x1 (fresh w1) SSHBUF_SIZE_INIT) (fresh w1)); try done.
    + by eapply others_trans.
    + intros Hp. by apply (plenty_tl' w1).
    + cbn. apply lookup_insert_eq.
Qed.

(** Shrinking the block to a new limit. *)
Lemma shrink_wp held w b x v n :
  WF held w -> 1 <= held b -> bufs w !! b = Some x -> shared x = false -> view w b = Some v -> 0 <= n ->
  wp (shrink b n) w (fun r w' => leaves held b w w' v /\ exists x', bufs w' !! b = Some x' /\ like x x' /\ (r = None -> ~ plenty w)).
Proof.
  intros HW Hh Hb Hs Hv Hn. destruct (WF_own_block held w b x HW Hh Hb Hs) as (l & s & E & Ed & Hl & Ha & _ & _ & _ & _ & Hof & Hsz & Hmx & _).
  unfold shrink. apply wp_bind, (wp_load b x); [done|]. destruct ((n <? alloc x) && (n >? size x)) eqn:C.
  2: { apply wp_ret. split; [done|]. by exists x. }
  apply andb_true_iff in C as [C1%Z.ltb_lt C2]. rewrite Z.gtb_ltb in C2. apply Z.ltb_lt in C2. cbv zeta.
  set (r0 := if size x <? SSHBUF_SIZE_INIT then SSHBUF_SIZE_INIT else ROUNDUP (size x) SSHBUF_SIZE_INC).
  assert (size x <= r0) as Hr0 by (unfold r0; destruct (Z.ltb_spec (size x) SSHBUF_SIZE_INIT); [lia|apply ROUNDUP_ge]).
  set (rlen := if r0 >? n then n else r0). assert (size x <= rlen <= n) as Hrl by (unfold rlen; rewrite Z.gtb_ltb; destruct (Z.ltb_spec n r0); lia).
  apply wp_bind, (wp_run _ (l, 0)); [by rewrite Ed|]. rewrite Ha. apply wp_bind, (recallocarray_wp w l s); [done|apply (wf_fresh_mem held w HW); eauto|lia| |].
  - intros Hnp. apply wp_ret. split; [|by exists x]. split_and!; try done. by apply WF_script.
  - destruct (WF_move held w b x l s rlen (tl (script w))) as (HW2 & Ho2 & Hv2); try done; [lia|].
    apply wp_bind, (wp_store b _ x); [done|]. apply wp_ret. split.
    + split_and!; try done; [by apply (plenty_tl' w)|]. etrans; [exact Hv2|done].
    + exists (set_block x (fresh w) rlen). split_and!; try done. cbn. apply lookup_insert_eq.
Qed.

Lemma WF_max held w b x n :
  WF held w -> bufs w !! b = Some x -> alloc x <= n <= SSHBUF_SIZE_MAX -> WF held (with_buf w b (set_max x n)).
Proof.
  intros HW Hb Hn. destruct (wf_sane held w HW b x Hb) as [(? & ? & ? & ? & ? & ? & ? & ?)%sane_spec ?].
  apply (WF_replace held w b x); try done.
  - apply sane_spec. cbn. split_and!; try done; lia.
  - destruct (wf_block held w HW b x Hb) as (l & o & s & E & Hl & Hblk). exists l, o, s. cbn. naive_solver.
  - by left.
  - by apply (wf_fresh_mem held w HW).
  - by apply (wf_bytes held w HW).
Qed.

Lemma WF_type held w b x t : WF held w -> bufs w !! b = Some x -> WF held (with_buf w b (set_type x t)).
Proof.
  intros HW Hb. destruct (wf_sane held w HW b x Hb) as [(? & ? & ? & ? & ? & ? & ? & ?)%sane_spec ?].
  apply (WF_replace held w b x); try done.
  - apply sane_spec. cbn. split_and!; try done; lia.
  - destruct (wf_block held w HW b x Hb) as (l & o & s & E & Hl & Hblk). exists l, o, s. cbn. naive_solver.
  - by left.
  - by apply (wf_fresh_mem held w HW).
  - by apply (wf_bytes held w HW).
Qed.

Lemma type_wp held w b x v t :
  WF held w -> bufs w !! b = Some x -> view w b = Some v ->
  wp (sshbuf_type b t) w (fun _ w' => leaves held b w w' v /\
    bufs w' !! b = Some (if t <? BUF_MAX_TYPE then set_type x t else x)).
Proof.
  intros HW Hb Hv. unfold sshbuf_type. apply wp_bind, (wp_load b x); [done|]. destruct (t <? BUF_MAX_TYPE); [|by apply wp_ret].
  apply (wp_store b _ x); [done|]. split; [|cbn; apply lookup_insert_eq].
  split_and!; [by apply WF_type|by apply (others_replace w b x)|done|]. rewrite <- Hv. unfold view. cbn. by rewrite lookup_insert_eq, Hb.
Qed.

Lemma set_max_size_wp held w b x v n :
  WF held w -> 1 <= held b -> bufs w !! b = Some x -> view w b = Some v -> 0 <= n ->
  wp (sshbuf_set_max_size b n) w (fun r w' => leaves held b w w' v /\
    exists x', bufs w' !! b = Some x' /\ shared x' = shared x /\ btype x' = btype x /\ max_size x' = if r =? 0 then n else max_size x).
Proof.
  intros HW Hh Hb Hv Hn. unfold sshbuf_set_max_size. apply wp_bind, (wp_sanity held w b x); [done|done|].
  assert (forall r, r <> 0 -> wp (mret r) w (fun r w' => leaves held b w w' v /\
    exists x', bufs w' !! b = Some x' /\ shared x' = shared x /\ btype x' = btype x /\ max_size x' = if r =? 0 then n else max_size x)) as Herr.
  { intros r Hr. apply wp_ret. split; [done|]. exists x. by rewrite (proj2 (Z.eqb_neq r 0)). }
  destruct (Z.eqb_spec n (max_size x)) as [->|Hne]; [apply wp_ret; split; [done|]; by exists x|].
  destruct (shared x) eqn:Hs; [by apply Herr|]. rewrite Z.gtb_ltb. destruct (Z.ltb_spec SSHBUF_SIZE_MAX n) as [H|H]; [by apply Herr|]. clear Herr.
  eapply wp_step; [by apply (pack_wp held w b x v)|]. intros [] w1 (HW1 & Ho1 & Hv1 & Hsc1 & o & m & Hb1 & _).
  eapply wp_step; [by apply (shrink_wp held w1 b (set_bounds x o m) v n)|]. intros r w2 ((HW2 & Ho2 & Hp2 & Hv2) & x2 & Hb2 & (Hs2 & Hm2 & Ht2) & _).
  assert (leaves held b w w2 v) as Hlv by (split_and!; [done|by eapply others_trans|unfold plenty in *; by rewrite Hsc1 in Hp2|done]).
  assert (shared x2 = false) as Hsx by (rewrite Hs2; exact Hs).
  destruct r as [[]|]; [|apply wp_ret; split; [done|]; by exists x2].
  apply wp_bind, (wp_load b x2); [done|]. destruct (Z.ltb_spec n (alloc x2)) as [Ha|Ha]; [apply wp_ret; split; [done|]; by exists x2|].
  apply wp_bind, (wp_store b _ x2); [done|]. apply wp_ret. destruct Hlv as (_ & Ho & Hp & _). split.
  - split_and!; [apply WF_max; try done; lia|eapply others_trans; [done|by apply (others_replace w2 b x2)]|done|].
    rewrite <- Hv2. unfold view. cbn. by rewrite lookup_insert_eq, Hb2.
  - exists (set_max x2 n). split_and!; try done. cbn. apply lookup_insert_eq.
Qed.

Lemma sshbuf_poke_wp held w b x v o u :
  WF held w -> 1 <= held b -> bufs w !! b = Some x -> view w b = Some v -> Forall byte u -> 0 <= o ->
  wp (sshbuf_poke b o u) w (fun r w' =>
    r < 0 /\ w' = w \/
    shared x = false /\ o + Z.of_nat (length u) <= Z.of_nat (length v) /\ r = 0 /\ leaves held b w w' (splice v o u) /\ bufs w' !! b = Some x).
Proof.
  intros HW Hh Hb Hv Hu Ho. destruct (WF_see held w b x HW Hb) as (l & o' & s & E & _). unfold sshbuf_poke, check_woffset, check_offset.
  apply wp_bind, wp_bind, wp_bind, (wp_ptr held w b x l o'); [done..|]. rewrite Z.geb_leb.
  destruct (Z.leb_spec (SIZE_MAX - Z.of_nat (length u)) o) as [H|H]; [by apply wp_ret, wp_ret, wp_ret; left|].
  apply wp_bind, (wp_len held w b v); [done..|]. apply wp_ret. rewrite Z.gtb_ltb.
  destruct (Z.ltb_spec (Z.of_nat (length v)) (o + Z.of_nat (length u))) as [H1|H1]; [by apply wp_ret, wp_ret; left|]. cbn [Z.eqb negb]. cbv iota.
  unfold sshbuf_mutable_ptr. apply wp_bind, wp_bind, (wp_sanity held w b x); [done|done|]. destruct (shared x) eqn:Hs; [by apply wp_ret, wp_ret, wp_ret; left|].
  destruct (WF_own_block held w b x HW Hh Hb Hs) as (k & s' & E' & Ed & _). rewrite E in E'. injection E' as -> ->.
  apply wp_bind, (wp_run _ (k, 0)); [by rewrite Ed|]. apply wp_ret, wp_ret. cbn [Z.eqb negb]. cbv iota. unfold plus. cbn [fst snd].
  apply wp_bind, (wp_run _ (k, off x + o)); [done|]. apply wp_bind, (poke_wp held w b x k v o u); try done. intros w' HW' Ho' Hb' Hsc Hv'. apply wp_ret. right.
  split_and!; try done. split_and!; try done. unfold plenty. by rewrite Hsc.
Qed.

(** ** Programs

    A program calls the operations on buffers that it holds. [allowed]: the conditions on a
    call that it has to meet. The limit on references is SSHBUF_REFS_MAX (sshbuf.h). Two
    conditions are not documented, and are where the code is not safe: an append to the buffer
    of a channel must need at most 4 MiB above its block (put_overflows is what happens
    otherwise), and a buffer is not reset while its limit is below the 256 bytes of a new block
    (reset_small_max). *)
Inductive op :=
| New | Fromb (b : loc) | Froms (b : loc) | Free (b : loc) | Reset (b : loc) | SetMax (b : loc) (n : Z) | SetType (b : loc) (n : Z)
| Put (b : loc) (u : list Z) | PutString (b : loc) (u : list Z) | Get (b : loc) (n : Z) | GetString (b : loc)
| Consume (b : loc) (n : Z) | ConsumeEnd (b : loc) (n : Z) | Poke (b : loc) (o : Z) (u : list Z).

Definition target (o : op) : option loc :=
  match o with
  | New => None
  | Fromb b | Froms b | Free b | Reset b | SetMax b _ | SetType b _ | Put b _ | PutString b _ | Get b _ | GetString b
  | Consume b _ | ConsumeEnd b _ | Poke b _ _ => Some b
  end.

Definition all_bytes (u : list Z) : bool := forallb (fun c => (0 <=? c) && (c <? 256)) u.

Definition modestb (x : sshbuf) (len : Z) : bool := negb (channel (btype x)) || (len <=? GROWTH) || (len + size x <=? alloc x + GROWTH).

Lemma modestb_spec x len : modestb x len = true -> modest x len.
Proof. unfold modestb, modest. intros H Hc. rewrite Hc in H. cbn [negb orb] in H. by rewrite orb_true_iff, !Z.leb_le in H. Qed.

Definition allowed (o : op) (x : sshbuf) : bool :=
  match o with
  | New | Free _ | GetString _ | SetType _ _ => true
  | Fromb _ | Froms _ => refcount x <? SSHBUF_REFS_MAX
  | Reset _ => shared x || (SSHBUF_SIZE_INIT <=? max_size x)
  | SetMax _ n | Get _ n | Consume _ n | ConsumeEnd _ n => 0 <=? n
  | Put _ u => all_bytes u && modestb x (Z.of_nat (length u))
  | PutString _ u => all_bytes u && modestb x (Z.of_nat (length u) + 4)
  | Poke _ n u => all_bytes u && (0 <=? n)
  end.

(** Runs an operation; what the program holds afterwards. *)
Definition exec (held : loc -> Z) (o : op) : M (loc -> Z) :=
  match o with
  | New => r ← sshbuf_new_label; mret match r with Some c => hold held c 1 | None => held end
  | Fromb b => r ← sshbuf_fromb b; mret match r with Some c => hold held c 1 | None => held end
  | Froms b => '(_, r) ← sshbuf_froms b; mret match r with Some c => hold held c 1 | None => held end
  | Free b => _ ← sshbuf_free (Some b); mret (hold held b (-1))
  | Reset b => _ ← sshbuf_reset b; mret held
  | SetMax b n => _ ← sshbuf_set_max_size b n; mret held
  | SetType b n => _ ← sshbuf_type b n; mret held
  | Put b u => _ ← sshbuf_put b u; mret held
  | PutString b u => _ ← sshbuf_put_string b u; mret held
  | Get b n => _ ← sshbuf_get b n; mret held
  | GetString b => _ ← sshbuf_get_string b; mret held
  | Consume b n => _ ← sshbuf_consume b n; mret held
  | ConsumeEnd b n => _ ← sshbuf_consume_end b n; mret held
  | Poke b o u => _ ← sshbuf_poke b o u; mret held
  end.

Definition may (held : loc -> Z) (w : world) (o : op) : bool :=
  match target o with
  | None => true
  | Some b => (1 <=? held b) && match bufs w !! b with Some x => allowed o x | None => false end
  end.

(** A program: operations it may not call at the time are left out. *)
Fixpoint session (held : loc -> Z) (ops : list op) : M (loc -> Z) :=
  match ops with
  | [] => mret held
  | o :: ops =>
      w ← Prelude.get;
      held ← (if may held w o then exec held o else mret held);
      session held ops
  end.

(** What an operation keeps: the invariant, and every other buffer that is held. *)
Definition keeps (held : loc -> Z) (w : world) (t : option loc) (held' : loc -> Z) (w' : world) : Prop :=
  WF held' w' /\ forall a, 1 <= held a -> t <> Some a -> held' a = held a /\ view w' a = view w a.

Lemma keeps_leaves held w b w' : WF held w' -> others b w w' -> keeps held w (Some b) held w'.
Proof. intros HW Ho. split; [done|]. intros a _ Ha. split; [done|]. apply Ho. congruence. Qed.

Lemma keeps_untouched held w w' t : WF held w -> untouched w w' -> keeps held w t held w'.
Proof.
  intros HW Hu. split; [by eapply WF_untouched|]. intros a _ _. split; [done|]. destruct Hu as (Eb & Em & _). unfold view. rewrite Eb.
  destruct (bufs w !! a); [|done]. cbn. f_equal. unfold bytes_of. by rewrite Em.
Qed.

Lemma keeps_born held w v c w' t :
  WF held w -> born held w v c w' -> (forall a, a <> c -> t <> Some a -> view w' a = view w a) -> keeps held w t (hold held c 1) w'.
Proof.
  intros HW (Hc & HW' & _) Hv. split; [done|]. intros a Ha Ht. assert (a <> c) as Hac.
  { intros ->. destruct (wf_held held w HW c) as [_ [? ?]]; [lia|]. congruence. }
  unfold hold. rewrite decide_False by done. auto.
Qed.

Lemma all_bytes_spec u : all_bytes u = true -> Forall byte u.
Proof.
  unfold all_bytes. rewrite forallb_forall, List.Forall_forall. intros H c Hc. specialize (H c Hc). unfold byte. lia.
Qed.

Lemma exec_wp held w o : WF held w -> may held w o = true -> wp (exec held o) w (keeps held w (target o)).
Proof.
  intros HW Hm. assert (forall b, target o = Some b -> 1 <= held b /\ exists x v, bufs w !! b = Some x /\ view w b = Some v /\ allowed o x = true) as Ht.
  { intros b E. unfold may in Hm. rewrite E in Hm. destruct (bufs w !! b) as [x|] eqn:Eb; [|by rewrite andb_false_r in Hm].
    apply andb_prop in Hm as [H1 H2]. split; [lia|]. exists x, (bytes_of w x). unfold view. by rewrite Eb. }
  destruct o; cbn [target exec] in *; [|destruct (Ht _ eq_refl) as (Hh & x & v & Hb & Hv & Ha); cbn [allowed] in Ha..]; clear Hm Ht.
  - eapply wp_step; [by apply new_wp|]. cbn. intros r w' [(-> & _ & Hu)|(c & x & -> & Hc & HW' & Ho & Hp & _ & _ & _ & _ & _ & _ & _ & Hv)]; apply wp_ret.
    + by apply keeps_untouched.
    + apply (keeps_born held w []); [done|by split_and!|]. intros a Hac _. by apply Ho.
  - eapply wp_step; [apply (fromb_wp held w b x v); try done; lia|]. cbn. intros r w' [(-> & _ & Hu)|(c & -> & Hc & Ho)]; apply wp_ret.
    + by apply keeps_untouched.
    + apply (keeps_born held w v); [done|done|]. auto.
  - eapply wp_step; [apply (froms_wp held w b x v); try done; lia|]. cbn. intros r w' H. destruct (wire_string v) as [e|u].
    { destruct H as [-> ->]. apply wp_ret. by apply keeps_untouched. }
    destruct H as [(-> & _ & Hu)|(c & -> & Hc & _ & Ho)]; apply wp_ret.
    + by apply keeps_untouched.
    + apply (keeps_born held w u); [done|done|]. intros a Hac Hab. apply Ho; congruence.
  - eapply wp_step; [by apply (free_wp held)|]. cbn. intros _ w' (HW' & _ & Hk & _). apply wp_ret. split; [done|].
    intros a Hha Hab. unfold hold. rewrite decide_False by congruence. split; [done|]. apply Hk.
    apply (wf_held _ _ HW'). unfold hold. rewrite decide_False by congruence. lia.
  - eapply wp_step; [apply (reset_wp held w b x); try done|]; [intros E; rewrite E in Ha; cbn in Ha; lia|].
    cbn. intros _ w' [(HW' & Ho & _) _]. apply wp_ret. by apply keeps_leaves.
  - eapply wp_step; [apply (set_max_size_wp held w b x v); try done; lia|]. cbn. intros _ w' [(HW' & Ho & _) _]. apply wp_ret. by apply keeps_leaves.
  - eapply wp_step; [by apply (type_wp held w b x v)|]. cbn. intros _ w' [(HW' & Ho & _) _]. apply wp_ret. by apply keeps_leaves.
  - apply andb_prop in Ha as [Hu Hl%modestb_spec].
    eapply wp_step; [apply (put_wp held w b x v); try done; by apply all_bytes_spec|]. cbn. intros _ w' (HW' & Ho & _). apply wp_ret. by apply keeps_leaves.
  - apply andb_prop in Ha as [Hu Hl%modestb_spec]. destruct (Z.le_gt_cases (Z.of_nat (length u)) (SSHBUF_SIZE_MAX - 4)).
    + eapply wp_step; [apply (put_string_wp held w b x v); try done; by apply all_bytes_spec|].
      cbn. intros _ w' (HW' & Ho & _). apply wp_ret. by apply keeps_leaves.
    + unfold sshbuf_put_string, put_string_from. rewrite Z.gtb_ltb, (proj2 (Z.ltb_lt _ _)) by lia.
      apply wp_bind, wp_ret, wp_ret. by apply keeps_untouched.
  - eapply wp_step; [apply (get_wp held w b v); try done; lia|]. cbn. intros _ w' (HW' & Ho & _). apply wp_ret. by apply keeps_leaves.
  - eapply wp_step; [by apply (get_string_wp held w b v)|]. cbn. intros _ w' (HW' & Ho & _). apply wp_ret. by apply keeps_leaves.
  - eapply wp_step; [apply (consume_wp held w b v); try done; lia|]. cbn. intros _ w' (HW' & Ho & _). apply wp_ret. by apply keeps_leaves.
  - eapply wp_step; [apply (consume_end_wp held w b v); try done; lia|]. cbn. intros _ w' (HW' & Ho & _). apply wp_ret. by apply keeps_leaves.
  - apply andb_prop in Ha as [Hu Hl].
    eapply wp_step; [apply (sshbuf_poke_wp held w b x v); try done; [by apply all_bytes_spec|lia]|]. cbn.
    intros _ w' [[_ ->]|(_ & _ & _ & (HW' & Ho & _) & _)]; apply wp_ret; [by apply keeps_untouched|by apply keeps_leaves].
Qed.

(** Every buffer is held, or has a child: what is not held by anybody is not there. *)
Lemma kids_pos w b : 0 < kids w b -> exists c x, bufs w !! c = Some x /\ parent x = Some b.
Proof.
  unfold kids. intros H. destruct (map_choose (filter (fun e : loc * sshbuf => parent e.2 = Some b) (bufs w))) as (c & x & Hc).
  { intros E. rewrite E, map_size_empty in H. lia. }
  apply map_lookup_filter_Some in Hc as [Hc Hp]. by exists c, x.
Qed.

Lemma nothing_held held w : WF held w -> (forall a, held a = 0) -> bufs w = ∅.
Proof.
  intros HW H0. apply map_empty. enough (forall n b, (Pos.to_nat (fresh w) - Pos.to_nat b < n)%nat -> bufs w !! b = None) as H by (intros b; eapply H; eauto).
  induction n as [|n IH]; [lia|]. intros b Hn. destruct (bufs w !! b) as [x|] eqn:Hb; [|done]. exfalso.
  pose proof (wf_refs held w HW b x Hb) as Hr. rewrite H0 in Hr. destruct (wf_sane held w HW b x Hb) as [Hs _].
  destruct (kids_pos w b) as (c & y & Hc & Hp). { apply sane_spec in Hs. lia. }
  destruct (wf_parent held w HW c y b Hc Hp) as [Hlt _]. pose proof (wf_fresh_buf held w HW c ltac:(by eexists)).
  rewrite (IH c) in Hc; [done|lia].
Qed.

(** C2: A program that calls the buffer operations (making buffers, children and slices of
    them, freeing them, appending, reading, consuming, overwriting, resetting and limiting
    them, and setting their type) in any order, on buffers that it holds and under the
    conditions of [allowed], never makes an access outside a block, never uses a freed buffer
    and never fails the sanity check, also when allocations fail on the way; the invariant on lengths, blocks and
    reference counts holds at the end; and a buffer that it does not call an operation on
    keeps its bytes, also when its parent, its children or their other parents are changed
    or freed; and once it holds nothing, no buffer is left. The conditions: references stay
    below SSHBUF_REFS_MAX, an append to the buffer of a channel needs at most 4 MiB above its
    block, and no buffer is reset while its limit is below 256 bytes; without the last two,
    which are not documented, the code is not safe. *)
Theorem sessions_safe ops held w :
  WF held w ->
  exists held' w', session held ops w = Ok (held', w') /\ WF held' w' /\ ((forall a, held' a = 0) -> bufs w' = ∅) /\
    forall a, 1 <= held a -> Forall (fun o => target o <> Some a) ops -> held' a = held a /\ view w' a = view w a.
Proof.
  revert held w. induction ops as [|o ops IH]; intros held w HW; [exists held, w; split_and!; try done; by apply nothing_held|]. cbn [session].
  assert (exists h1 w1, (if may held w o then exec held o else mret held) w = Ok (h1, w1) /\ keeps held w (target o) h1 w1) as (h1 & w1 & E & HW1 & Hk).
  { destruct (may held w o) eqn:Em; [by apply wp_Ok, exec_wp|]. exists held, w. split; [done|]. by apply keeps_untouched. }
  destruct (IH h1 w1 HW1) as (h2 & w2 & E2 & HW2 & H0 & Hk2). exists h2, w2. split.
  { unfold mbind, prog_bind at 1. cbn. unfold prog_bind. rewrite E. done. }
  split; [done|]. split; [done|]. intros a Ha Hf. inversion_clear Hf as [|? ? H1 H2]. destruct (Hk a Ha H1) as [E3 E4].
  destruct (Hk2 a) as [E5 E6]; [lia|done|]. split; congruence.
Qed.

(** Nothing allocated yet; which of the next allocations succeed. *)
Definition start (sc : list bool) : world := World ∅ ∅ 1%positive sc.

Definition nothing : loc -> Z := fun _ => 0.

Lemma WF_start sc : WF nothing (start sc).
Proof.
  split; cbn; try (intros *; rewrite lookup_empty; done); try (intros *; rewrite lookup_empty; intros [? ?]; done).
Qed.

(** A buffer and its child, made while the program runs out of memory for a while. *)
Definition some_ops : list op := [New; Put 1%positive [0; 0; 0; 1; 9]; New; Fromb 1%positive].

Definition more_ops : list op := [Free 1%positive; New; Put 4%positive [7]; Free 4%positive].

(** The child keeps the bytes after the program has released the buffer. *)
Lemma sessions_witness :
  match session nothing some_ops (start [true; true; false; true]) with
  | Ok (held, w) => exists held' w', session held more_ops w = Ok (held', w') /\ view w' 3%positive = Some [0; 0; 0; 1; 9]
  | Fault _ => False
  end.
Proof.
  destruct (sessions_safe some_ops nothing (start [true; true; false; true]) (WF_start _)) as (h1 & w1 & E1 & HW1 & _). rewrite E1.
  destruct (sessions_safe more_ops h1 w1 HW1) as (h2 & w2 & E2 & _ & _ & Hk). exists h2, w2. split; [exact E2|].
  clear HW1 E2. vm_compute in E1. injection E1 as <- <-.
  destruct (Hk 3%positive) as [_ ->]; [vm_compute; discriminate|repeat constructor; discriminate|]. reflexivity.
Defined.

(** A message is written into a new buffer of a type and read back by the receiver. *)
Definition send_receive (type : Z) (items : list item) : M (loc * (Z * Z * list item)) :=
  r ← sshbuf_new_label;
  b ← run (deref r);
  _ ← sshbuf_type b type;
  p ← put_items b items;
  '(q, js) ← get_items b items;
  mret (b, (p, q, js)).

(** C16: A message of any integers, strings and numbers that fits into a buffer (128 MB), written
    item by item with the put functions into a new buffer, is read back by the matching
    get functions: no call fails, every item comes back as it was written, nothing is left
    in the buffer, and no other buffer is changed. In a buffer of one of the two types of
    channels, which includes the type that a new buffer has when none is set, each string must
    be at most 4 MiB with its length in front. Numbers have no leading zeros and at most 2048
    bytes. *)
Theorem message_roundtrip held w type items :
  WF held w -> plenty w -> type < BUF_MAX_TYPE -> Forall (item_ok type) items -> Z.of_nat (length (message items)) <= SSHBUF_SIZE_MAX ->
  exists b w', send_receive type items w = Ok ((b, (0, 0, items)), w') /\ WF (hold held b 1) w' /\
    view w' b = Some [] /\ bufs w !! b = None /\ others b w w'.
Proof.
  intros HW Hp Ht Hi Hl. enough (wp (send_receive type items) w (fun r w' => exists b, r = (b, (0, 0, items)) /\ WF (hold held b 1) w' /\
    view w' b = Some [] /\ bufs w !! b = None /\ others b w w')) as ([] & w' & E & b & [= -> ->] & H)%wp_Ok by eauto.
  unfold send_receive. eapply wp_step; [by apply (new_wp held)|]. cbv beta.
  intros r w1 [(_ & [] & _)|(b & x & -> & Hn & HW1 & Ho1 & Hp1 & Hb & Hs & Hm & _ & _ & _ & _ & Hv)]; [done|].
  apply wp_bind, (wp_run _ b); [done|].
  assert (1 <= hold held b 1 b) as Hh. { unfold hold. rewrite decide_True by done. destruct (wf_held held w HW b). lia. }
  eapply wp_step; [by apply (type_wp (hold held b 1) w1 b x [])|]. cbv beta. rewrite (proj2 (Z.ltb_lt _ _) Ht). intros [] w1' ((HW1' & Ho1' & Hp1' & Hv') & Hb').
  eapply wp_step; [apply (put_items_wp (hold held b 1) w1' b (set_type x type) []); try done; [by apply Hp1', Hp1|cbn; lia]|]. cbv beta.
  intros p w2 (HW2 & Ho2 & Hp2 & -> & Hv2). cbn in Hv2.
  eapply wp_step; [apply (get_items_wp (hold held b 1) w2 b type items []); try done; by rewrite app_nil_r|]. cbv beta.
  intros q w3 (HW3 & Ho3 & Hp3 & -> & Hv3). apply wp_ret. exists b. split_and!; try done.
  do 2 (eapply others_trans; [done|]). by eapply others_trans.
Qed.

Lemma message_witness :
  exists b w', send_receive BUF_CHANNEL_OUTPUT [U32 2147483648; Str [115; 115; 104]; Num [200; 1]; U64 1; U8 255] (start []) = Ok ((b, (0, 0, [U32 2147483648; Str [115; 115; 104]; Num [200; 1]; U64 1; U8 255])), w') /\
    view w' b = Some [].
Proof.
  destruct (message_roundtrip nothing (start []) BUF_CHANNEL_OUTPUT [U32 2147483648; Str [115; 115; 104]; Num [200; 1]; U64 1; U8 255]) as (b & w' & E & _ & Hv & _).
  - apply WF_start.
  - constructor.
  - reflexivity.
  - repeat (apply Forall_cons; split); try apply Forall_nil_2; unfold item_ok, byte, SSHBUF_MAX_BIGNUM; try lia.
    + split; [|split; [|intros _]; vm_compute; discriminate]. repeat (apply Forall_cons; split); [lia..|apply Forall_nil_2].
    + split; [|split; [reflexivity|vm_compute; discriminate]]. repeat (apply Forall_cons; split); [lia..|apply Forall_nil_2].
  - vm_compute. discriminate.
  - exists b, w'. split; [exact E|exact Hv].
Defined.

(** ** Where the growth and the reset of a buffer go wrong *)

Lemma grown_short x len :
  btype x = BUF_CHANNEL_OUTPUT \/ btype x = BUF_CHANNEL_INPUT -> 0 <= size x <= alloc x ->
  alloc x + 4 * 1024 * 1024 + SSHBUF_SIZE_INC <= size x + len <= max_size x ->
  size x <= grown x len < size x + len /\ grown x len <= max_size x.
Proof.
  intros Ht Hs Hl. unfold grown. replace (alloc x + (len + size x - alloc x)) with (len + size x) by lia.
  pose proof (ROUNDUP_ge (len + size x)). pose proof (ROUNDUP_ge (alloc x + 4 * 1024 * 1024)).
  assert (ROUNDUP (alloc x + 4 * 1024 * 1024) SSHBUF_SIZE_INC < alloc x + 4 * 1024 * 1024 + SSHBUF_SIZE_INC).
  { unfold ROUNDUP, SSHBUF_SIZE_INC. pose proof (Z.div_mod (alloc x + 4 * 1024 * 1024 + (256 - 1)) 256). pose proof (Z.mod_pos_bound (alloc x + 4 * 1024 * 1024 + (256 - 1)) 256). lia. }
  assert ((btype x =? BUF_CHANNEL_OUTPUT) || (btype x =? BUF_CHANNEL_INPUT) = true) as -> by (destruct Ht as [-> | ->]; done).
  assert ((ROUNDUP (len + size x) SSHBUF_SIZE_INC >? BUF_WATERSHED) = true) as ->.
  { rewrite Z.gtb_ltb. apply Z.ltb_lt. unfold BUF_WATERSHED, SSHBUF_SIZE_INC in *. lia. }
  cbn [andb]. rewrite Z.gtb_ltb. rewrite (proj2 (Z.ltb_ge _ _)) by lia. lia.
Qed.

(** The reservation succeeds, and its block is too small. *)
Lemma reserve_short held w b x len :
  WF held w -> 1 <= held b -> bufs w !! b = Some x -> shared x = false -> plenty w -> off x = 0 ->
  btype x = BUF_CHANNEL_OUTPUT \/ btype x = BUF_CHANNEL_INPUT ->
  alloc x + 4 * 1024 * 1024 + SSHBUF_SIZE_INC <= size x + len <= max_size x ->
  wp (sshbuf_reserve b len) w (fun r w' => exists l s, r = (0, Some (l, size x)) /\ mem w' !! l = Some s /\ Z.of_nat (length s) < size x + len).
Proof.
  intros HW Hh Hb Hs Hp H0 Ht Hl. destruct (WF_own_block held w b x HW Hh Hb Hs) as (l & s & E & Ed & Hm & Ha & Hr & Href & _ & _ & Hof & Hsz & Hmx & _).
  destruct (grown_short x len) as [G1 G2]; [done|lia|done|]. unfold SSHBUF_SIZE_INC in Hl. unfold sshbuf_reserve, sshbuf_allocate.
  apply wp_bind, wp_bind, (wp_check_reserve held w b x); [done|done|]. rewrite Hs.
  assert ((len >? max_size x) || (max_size x - len <? size x - off x) = false) as C by (rewrite Z.gtb_ltb, orb_false_iff, !Z.ltb_ge; lia).
  rewrite C. cbn [Z.eqb negb]. cbv iota. apply wp_bind, (wp_load b x); [done|]. apply wp_bind. unfold sshbuf_maybe_pack.
  apply wp_bind, (wp_load b x); [done|]. rewrite H0. cbn [Z.eqb orb]. cbv iota. apply wp_ret. apply wp_bind, (wp_load b x); [done|].
  rewrite (proj2 (Z.leb_gt _ _)) by lia. cbv zeta. apply wp_bind, (wp_run _ (l, 0)); [by rewrite Ed|]. rewrite Ha.
  apply wp_bind, (recallocarray_wp w l s); [done|apply (wf_fresh_mem held w HW); eauto|lia|done|].
  destruct (WF_move held w b x l s (grown x len) (tl (script w))) as (HW2 & _ & _); try done; [lia|].
  apply wp_bind, (wp_store b _ x); [done|]. set (x2 := set_block x (fresh w) (grown x len)) in *.
  apply wp_bind, (wp_check_reserve held _ b x2); [done|cbn; apply lookup_insert_eq|]. change (shared x2) with (shared x). rewrite Hs.
  cbn [x2 set_block max_size size off]. rewrite C. cbn [Z.ltb Z.compare]. cbv iota. apply wp_ret. cbn [Z.eqb negb]. cbv iota.
  apply wp_bind, (wp_load b x2); [cbn; apply lookup_insert_eq|]. apply wp_bind, (wp_run _ (fresh w, 0)); [done|].
  apply wp_bind, (wp_store b _ x2); [cbn; apply lookup_insert_eq|]. apply wp_ret. exists (fresh w), (resized s (grown x len)).
  pose proof (wf_fresh_mem held w HW l ltac:(eauto)). split; [done|]. split; [|rewrite resized_length; lia].
  cbn. rewrite lookup_delete_ne by lia. apply lookup_insert_eq.
Qed.

(** C34: A defect. Appending to a buffer of a channel (the type of every new buffer, too)
    grows its block by 4 MiB however much is asked for: bytes that need a larger block,
    but are within the limit of the buffer, are accepted and written past the end of the
    block. *)
Theorem put_overflows held w b x u :
  WF held w -> 1 <= held b -> bufs w !! b = Some x -> shared x = false -> plenty w -> off x = 0 ->
  btype x = BUF_CHANNEL_OUTPUT \/ btype x = BUF_CHANNEL_INPUT ->
  alloc x + 4 * 1024 * 1024 + SSHBUF_SIZE_INC <= size x + Z.of_nat (length u) <= max_size x ->
  sshbuf_put b u w = Fault OutOfBounds.
Proof.
  intros HW Hh Hb Hs Hp H0 Ht Hl. destruct (WF_own_block held w b x HW Hh Hb Hs) as (_ & _ & _ & _ & _ & _ & _ & _ & _ & _ & Hof & Hsz & _ & _).
  pose proof (reserve_short held w b x (Z.of_nat (length u)) HW Hh Hb Hs Hp H0 Ht Hl) as ([r p] & w1 & E & l & s & [= -> ->] & Hm & Hlt)%wp_Ok.
  unfold sshbuf_put, put_from, mbind. unfold prog_bind at 1. rewrite E. cbn [Z.ltb Z.compare]. unfold SSHBUF_SIZE_INC in Hl.
  rewrite (proj2 (Z.eqb_neq _ _)) by lia. cbn [negb]. unfold prog_bind. cbn. unfold poke_bytes, read_block, mbind, prog_bind, Prelude.get, run. cbn.
  rewrite Hm. cbn. unfold in_block. rewrite (proj2 (Z.leb_gt (size x + _) _)) by lia. by rewrite andb_false_r.
Qed.

(** Five megabytes into a new buffer. *)
Lemma put_overflow_witness :
  match sshbuf_new_label (start []) with
  | Ok (Some b, w) => sshbuf_put b (zeros 5242880) w = Fault OutOfBounds
  | _ => False
  end.
Proof.
  pose proof (new_wp nothing (start []) (WF_start [])) as H. apply wp_Ok in H as (r & w & E & [(_ & [] & _)|(b & x & -> & _ & HW & _ & Hp & Hb & Hs & Hm & Ht & Ha & Hsz & H0 & _)]); [constructor|].
  rewrite E. apply (put_overflows (hold nothing b 1) w b x); [exact HW| |exact Hb|exact Hs| |exact H0|by left|].
  - unfold hold. by rewrite decide_True.
  - apply Hp. constructor.
  - rewrite zeros_length by lia. rewrite Ha, Hsz, Hm. unfold SSHBUF_SIZE_INIT, SSHBUF_SIZE_INC, SSHBUF_SIZE_MAX. lia.
Defined.

(** A defect: after its limit has been set below 256 bytes, a buffer that is reset has a
    block above its limit, and the next operation on it raises SIGSEGV. *)
Lemma reset_small_max :
  (r ← sshbuf_new_label; b ← run (deref r); p ← sshbuf_set_max_size b 100; _ ← sshbuf_reset b; sshbuf_len b) (start []) = Fault AssertFail /\
  (r ← sshbuf_new_label; b ← run (deref r); p ← sshbuf_set_max_size b 100; mret p) (start []) ≫= (fun r => Ok r.1) = Ok 0.
Proof. split; vm_compute; reflexivity. Qed.
End SshBuf.
