(* ===== verification/RwMutex.v ===== *)
(** * Reader-writer locks (globus_thread_rw_mutex.c, globus_thread_rw_mutex.h)

    A lock is a counter of readers, a flag for the writer, and a queue of waiters: cells
    that are linked by [pnext], with a pointer to the last link, and are kept in an idle
    list for reuse. The functions run under the mutex of the lock, from its acquisition to
    its release or to the wait on a condition variable, and are atomic at this grain.
    [globus_i_rw_mutex_wait] is two functions here, up to the wait and after it.

    The threads of a program, and what they do in any order, are a system on top of the
    lock. A queue with the sets of readers and writers is the specification: the system
    refines it, and exclusion, the absence of lost wake-ups and fairness are proved on it. *)
From S2P Require Import Prelude.

Module RwMutex.

Record waiter := Waiter { is_reader : bool; acquired : bool; pnext : ptr }.

(** [tail]: the address of [rw_lock->waiters], or of the [pnext] of a waiter. *)
Inductive tail_ptr := AtWaiters | AtPnext (w : loc).

Record rw_mutex := RwLock {
  waiters : ptr;
  tail : tail_ptr;
  idle : ptr;
  writing : bool;
  readers : Z;
  nodes : gmap loc waiter;
  fresh : loc }.

Abbreviation M := (prog rw_mutex) (only parsing).

Definition node (w : loc) : M waiter := s ← get; run (deref (nodes s !! w)).

Definition set_node (w : loc) (x : waiter) : M unit :=
  s ← get; _ ← node w; put (RwLock (waiters s) (tail s) (idle s) (writing s) (readers s) (<[w := x]> (nodes s)) (fresh s)).

Definition set_waiters (p : ptr) : M unit :=
  s ← get; put (RwLock p (tail s) (idle s) (writing s) (readers s) (nodes s) (fresh s)).
Definition set_tail (p : tail_ptr) : M unit :=
  s ← get; put (RwLock (waiters s) p (idle s) (writing s) (readers s) (nodes s) (fresh s)).
Definition set_idle (p : ptr) : M unit :=
  s ← get; put (RwLock (waiters s) (tail s) p (writing s) (readers s) (nodes s) (fresh s)).
Definition set_writing (b : bool) : M unit :=
  s ← get; put (RwLock (waiters s) (tail s) (idle s) b (readers s) (nodes s) (fresh s)).
Definition set_readers (n : Z) : M unit :=
  s ← get; put (RwLock (waiters s) (tail s) (idle s) (writing s) n (nodes s) (fresh s)).

(** [globus_malloc] and [globus_cond_init]; [ok]: they succeed. *)
Definition new_node (ok : bool) : M (option loc) :=
  if ok then
    s ← get;
    _ ← put (RwLock (waiters s) (tail s) (idle s) (writing s) (readers s) (<[fresh s := Waiter false false None]> (nodes s)) (Pos.succ (fresh s)));
    mret (Some (fresh s))
  else mret None.

Definition globus_rw_mutex_init : rw_mutex := RwLock None AtWaiters None false 0 ∅ 1%positive.

(** Initializes the waiter and puts it on the queue. *)
Definition enqueue (w : loc) (reader : bool) : M unit :=
  _ ← set_node w (Waiter reader false None);
  s ← get;
  _ ← match tail s with
      | AtWaiters => set_waiters (Some w)
      | AtPnext l => x ← node l; set_node l (Waiter (is_reader x) (acquired x) (Some w))
      end;
  set_tail (AtPnext w).

(** Up to the loop on the condition variable. *)
Definition globus_i_rw_mutex_wait (ok : bool) (reader : bool) : M (option loc) :=
  s ← get;
  r ← match idle s with
      | Some w => x ← node w; _ ← set_idle (pnext x); mret (Some w)
      | None => new_node ok
      end;
  match r with
  | None => mret None
  | Some w => _ ← enqueue w reader; mret (Some w)
  end.

(** After the loop. *)
Definition globus_i_rw_mutex_wait_end (w : loc) : M unit :=
  s ← get; x ← node w; _ ← set_node w (Waiter (is_reader x) (acquired x) (idle s)); set_idle (Some w).

Fixpoint signal_readers (n : nat) (w : loc) : M unit :=
  match n with
  | O => run (Fault OutOfFuel)
  | S n =>
      s ← get; _ ← set_readers (readers s + 1);
      x ← node w; _ ← set_node w (Waiter (is_reader x) true (pnext x));
      _ ← set_waiters (pnext x);
      match pnext x with
      | None => mret tt
      | Some w' => x' ← node w'; if is_reader x' then signal_readers n w' else mret tt
      end
  end.

Definition globus_i_rw_mutex_signal : M unit :=
  s ← get;
  match waiters s with
  | None => mret tt
  | Some w =>
      x ← node w;
      _ ← (if is_reader x then signal_readers (S (size (nodes s))) w
           else if readers s =? 0 then
             _ ← set_waiters (pnext x); _ ← set_writing true; set_node w (Waiter (is_reader x) true (pnext x))
           else mret tt);
      s ← get;
      match waiters s with None => set_tail AtWaiters | Some _ => mret tt end
  end.

Inductive outcome := Acquired | Waits (w : loc) | Failed.

Definition waits (r : option loc) : outcome := match r with Some w => Waits w | None => Failed end.

Definition globus_i_rw_mutex_readlock (ok : bool) : M outcome :=
  s ← get;
  if writing s || bool_decide (is_Some (waiters s)) then r ← globus_i_rw_mutex_wait ok true; mret (waits r)
  else _ ← set_readers (readers s + 1); mret Acquired.

Definition globus_i_rw_mutex_writelock (ok : bool) : M outcome :=
  s ← get;
  if (readers s >? 0) || writing s then r ← globus_i_rw_mutex_wait ok false; mret (waits r)
  else _ ← set_writing true; mret Acquired.

Definition globus_i_rw_mutex_readunlock : M unit :=
  s ← get; _ ← set_readers (readers s - 1); globus_i_rw_mutex_signal.

Definition globus_i_rw_mutex_writeunlock : M unit := _ ← set_writing false; globus_i_rw_mutex_signal.

(** [globus_rw_cond_wait] and [globus_rw_cond_timedwait], before and after the wait on the
    condition variable of the caller. *)
Definition globus_rw_cond_wait : M bool :=
  s ← get;
  let reading := readers s >? 0 in
  _ ← (if reading then globus_i_rw_mutex_readunlock else globus_i_rw_mutex_writeunlock);
  mret reading.

Definition globus_rw_cond_wait_end (ok reading : bool) : M outcome :=
  if reading then globus_i_rw_mutex_readlock ok else globus_i_rw_mutex_writelock ok.

Definition free_node (w : loc) : M unit :=
  s ← get; _ ← node w; put (RwLock (waiters s) (tail s) (idle s) (writing s) (readers s) (delete w (nodes s)) (fresh s)).

Fixpoint free_idle (n : nat) (p : ptr) : M unit :=
  match n, p with
  | _, None => mret tt
  | O, Some _ => run (Fault OutOfFuel)
  | S n, Some w => x ← node w; _ ← free_node w; free_idle n (pnext x)
  end.

(** The assertion before the return of -1 is only there in debug builds. *)
Definition globus_rw_mutex_destroy : M Z :=
  s ← get;
  if (readers s >? 0) || writing s then mret (-1)
  else _ ← free_idle (size (nodes s)) (idle s); mret 0.

(** ** Threads

    What a thread is doing: nothing with the lock, waiting in the queue, between a
    successful lock and the unlock, or waiting for a condition variable of its own in
    [globus_rw_cond_wait]. *)
Abbreviation tid := positive (only parsing).

Inductive thread := Out | Queued (w : loc) (reader : bool) | Holds (reader : bool) | Parked (reading : bool).

Record sys := Sys { lock : rw_mutex; threads : tid -> thread }.

Definition sets (t : tid) (x : thread) (f : tid -> thread) : tid -> thread := fun u => if decide (u = t) then x else f u.

(** [Wake]: the thread wakes up on the condition variable of its waiter, because it was
    signalled or for no reason; it waits again unless [acquired] is set. [CondWake]: the
    same on its own condition variable. [ok]: an allocation in the call would succeed. *)
Inductive action := ReadLock (ok : bool) | WriteLock (ok : bool) | Unlock | Wake | CondWait | CondWake (ok : bool).

Definition on {A} (m : prog rw_mutex A) : prog sys A := fun s =>
  '(a, l) ← m (lock s); Ok (a, Sys l (threads s)).

Definition becomes (t : tid) (x : thread) : prog sys unit := s ← get; put (Sys (lock s) (sets t x (threads s))).

(** [failed]: what the thread does when the lock could not be waited for. *)
Definition after (t : tid) (reader : bool) (r : outcome) (failed : thread) : prog sys unit :=
  becomes t match r with Acquired => Holds reader | Waits w => Queued w reader | Failed => failed end.

(** One action of a thread. What it cannot do at the time is left out. The result of the
    lock in [globus_rw_cond_wait] is not looked at: the caller goes on in any case. *)
Definition perform (t : tid) (a : action) : prog sys unit :=
  s ← get;
  match threads s t, a with
  | Out, ReadLock ok => r ← on (globus_i_rw_mutex_readlock ok); after t true r Out
  | Out, WriteLock ok => r ← on (globus_i_rw_mutex_writelock ok); after t false r Out
  | Queued w reader, Wake =>
      x ← on (node w);
      if acquired x then _ ← on (globus_i_rw_mutex_wait_end w); becomes t (Holds reader) else mret tt
  | Holds true, Unlock => _ ← on globus_i_rw_mutex_readunlock; becomes t Out
  | Holds false, Unlock => _ ← on globus_i_rw_mutex_writeunlock; becomes t Out
  | Holds _, CondWait => reading ← on globus_rw_cond_wait; becomes t (Parked reading)
  | Parked reading, CondWake ok => r ← on (globus_rw_cond_wait_end ok reading); after t reading r (Holds reading)
  | _, _ => mret tt
  end.

Fixpoint trace (l : list (tid * action)) : prog sys unit :=
  match l with [] => mret tt | (t, a) :: l => _ ← perform t a; trace l end.

Definition init : sys := Sys globus_rw_mutex_init (fun _ => Out).

(** No allocation fails in [globus_rw_cond_wait]. *)
Definition sound (a : action) : bool := match a with CondWake ok => ok | _ => true end.

(** ** The specification

    Who may read, who may write, and who waits for what, in the order of arrival. *)
Record spec := Spec { rd : gset tid; wr : option tid; queue : list (tid * bool) }.

Fixpoint first_readers (q : list (tid * bool)) : list tid * list (tid * bool) :=
  match q with
  | (t, true) :: q => let '(ts, rest) := first_readers q in (t :: ts, rest)
  | _ => ([], q)
  end.

(** The readers at the head of the queue, or the writer there if nobody reads. *)
Definition admit_next (a : spec) : spec :=
  match queue a with
  | (t, false) :: q => if decide (rd a = ∅) then Spec ∅ (Some t) q else a
  | _ => let '(ts, rest) := first_readers (queue a) in Spec (rd a ∪ list_to_set ts) (wr a) rest
  end.

Definition spec_lock (t : tid) (reader : bool) (a : spec) : spec :=
  if reader then
    if decide (wr a = None /\ queue a = []) then Spec ({[t]} ∪ rd a) (wr a) (queue a) else Spec (rd a) (wr a) (queue a ++ [(t, true)])
  else
    if decide (wr a = None /\ rd a = ∅) then Spec (rd a) (Some t) (queue a) else Spec (rd a) (wr a) (queue a ++ [(t, false)]).

Definition spec_unlock (t : tid) (reader : bool) (a : spec) : spec :=
  admit_next (if reader then Spec (rd a ∖ {[t]}) (wr a) (queue a) else Spec (rd a) None (queue a)).

Definition held (a : spec) (t : tid) (reader : bool) : Prop := if reader then t ∈ rd a else wr a = Some t.

(** Exclusion, and nobody waits without a reason. *)
Record good (a : spec) : Prop := {
  g_excl : is_Some (wr a) -> rd a = ∅;
  g_busy : queue a <> [] -> is_Some (wr a) \/ rd a <> ∅;
  g_head : forall t q, rd a <> ∅ -> queue a <> (t, true) :: q;
  g_nodup : NoDup (queue a).*1;
  g_apart : forall t, t ∈ (queue a).*1 -> t ∉ rd a /\ wr a <> Some t }.

(** ** The refinement *)

Definition links (s : rw_mutex) : gmap loc ptr := pnext <$> nodes s.

Definition last_link (q : list loc) : tail_ptr := match last q with Some l => AtPnext l | None => AtWaiters end.

(** A thread and what it is in the specification; [q]: the queue, [i]: the idle list. *)
Definition thread_ok (a : spec) (s : rw_mutex) (q i : list loc) (t : tid) (x : thread) : Prop :=
  match x with
  | Out | Parked _ => (forall b, ~ held a t b) /\ t ∉ (queue a).*1
  | Holds b => held a t b
  | Queued w b => exists n, nodes s !! w = Some n /\ is_reader n = b /\ w ∉ i /\
      if acquired n then w ∉ q /\ held a t b else (w, (t, b)) ∈ zip q (queue a)
  end.

Record Rep (s : sys) (a : spec) (q i : list loc) : Prop := {
  r_queue : chain (links (lock s)) (waiters (lock s)) q;
  r_idle : chain (links (lock s)) (idle (lock s)) i;
  r_nodup : NoDup (q ++ i);
  r_wait : Forall2 (fun w e => threads s e.1 = Queued w e.2) q (queue a);
  r_thread : forall t, thread_ok a (lock s) q i t (threads s t);
  r_inj : forall t u w b c, threads s t = Queued w b -> threads s u = Queued w c -> t = u;
  r_dom : forall w, is_Some (nodes (lock s) !! w) -> w ∈ q \/ w ∈ i \/ exists t b, threads s t = Queued w b;
  r_readers : readers (lock s) = Z.of_nat (size (rd a));
  r_writing : writing (lock s) = bool_decide (is_Some (wr a));
  r_fresh : forall w, is_Some (nodes (lock s) !! w) -> (w < fresh (lock s))%positive }.

Definition Full (s : sys) (a : spec) : Prop := good a /\ exists q i, Rep s a q i /\ tail (lock s) = last_link q.

(** *** The specification keeps [good] *)

Lemma first_readers_spec q :
  exists ts rest, first_readers q = (ts, rest) /\ q = ((fun t => (t, true)) <$> ts) ++ rest /\ (rest = [] \/ exists u r, rest = (u, false) :: r).
Proof.
  induction q as [|[t []] q IH]; cbn.
  - by exists [], []; eauto.
  - destruct IH as (ts & rest & -> & -> & H). by exists (t :: ts), rest.
  - exists [], ((t, false) :: q). eauto 6.
Qed.

Lemma admit_readers_eq R W ts rest :
  (rest = [] \/ exists u r, rest = (u, false) :: r) -> (ts <> [] \/ rest = []) ->
  admit_next (Spec R W (((fun t => (t, true)) <$> ts) ++ rest)) = Spec (R ∪ list_to_set ts) W rest.
Proof.
  intros Hr Ht. assert (first_readers (((fun t => (t, true)) <$> ts) ++ rest) = (ts, rest)) as E.
  { clear Ht. induction ts as [|t ts IH]; cbn; [|by rewrite IH]. by destruct Hr as [->|(u & r & ->)]. }
  unfold admit_next. cbn [queue]. rewrite E. destruct ts as [|t ts]; [|done]. destruct Ht as [|Ht]; [done|]. by rewrite Ht.
Qed.

Lemma fst_readers (ts : list tid) : ((fun t => (t, true)) <$> ts).*1 = ts.
Proof. induction ts as [|t ts IH]; [done|]. cbn. by f_equal. Qed.

Lemma good_no_queue R W : (is_Some W -> R = ∅) -> good (Spec R W []).
Proof. intros H. split; cbn; try done; [constructor|]. intros ? Hu. by apply not_elem_of_nil in Hu. Qed.

Lemma good_lock a t b : good a -> (forall b, ~ held a t b) -> t ∉ (queue a).*1 -> good (spec_lock t b a).
Proof.
  intros [Ge Gb Gh Gn Ga] Hn Hq. pose proof (Hn true) as Hr. pose proof (Hn false) as Hw. cbn in Hr, Hw. unfold spec_lock.
  assert (NoDup (queue a ++ [(t, b)]).*1) as Hnd. { rewrite fmap_app. apply NoDup_app. split_and!; [done|set_solver|apply NoDup_singleton]. }
  assert (forall u, u ∈ (queue a ++ [(t, b)]).*1 -> u ∉ rd a /\ wr a <> Some u) as Hap.
  { intros u. rewrite fmap_app, elem_of_app. intros [?| ->%list_elem_of_singleton]; auto. }
  destruct b; case_decide as D.
  - destruct D as [-> ->]. apply good_no_queue. by intros [? ?].
  - split; cbn; try done.
    + intros _. destruct (decide (queue a = [])) as [E|E]; [|auto]. left. destruct (wr a); [eauto|]. by destruct D.
    + intros u q HR Hc. destruct (queue a) as [|e q'] eqn:E; [|cbn in Hc; simplify_eq; by eapply Gh].
      destruct (wr a) eqn:Ew; [|by destruct D]. apply HR, Ge. eauto.
  - destruct D as [D1 D2]. assert (queue a = []) as Eq.
    { destruct (decide (queue a = [])) as [|E]; [done|]. destruct (Gb E) as [[? ?]|?]; congruence. }
    rewrite Eq. by apply good_no_queue.
  - split; cbn; try done.
    + intros _. destruct (wr a); [eauto|]. right. intros E. by apply D.
    + intros u q HR Hc. destruct (queue a) as [|e q'] eqn:E; cbn in Hc; simplify_eq. by eapply Gh.
Qed.

Lemma good_head_writer R W t q :
  (is_Some W -> R = ∅) -> is_Some W \/ R <> ∅ -> NoDup ((t, false) :: q).*1 ->
  (forall u, u ∈ ((t, false) :: q).*1 -> u ∉ R /\ W <> Some u) -> good (Spec R W ((t, false) :: q)).
Proof. intros He Hb Hn Ha. by split. Qed.

Lemma good_unlock a t b : good a -> held a t b -> good (spec_unlock t b a).
Proof.
  intros [Ge Gb Gh Gn Ga] Hh. unfold spec_unlock. destruct a as [R W Q]; cbn [rd wr queue] in *.
  destruct b; cbn in Hh.
  - assert (W = None) as ->. { destruct W; [|done]. assert (R = ∅) by (apply Ge; eauto). set_solver. }
    destruct Q as [|[u []] Q].
    + cbn. apply good_no_queue. by intros [? ?].
    + exfalso. eapply Gh; [|done]. set_solver.
    + cbn [admit_next queue rd]. inversion_clear Gn as [|? ? Hu Hnd]. case_decide as D.
      * split; cbn; try done; [eauto|]. intros v Hv. split; [set_solver|]. intros [= ->]. done.
      * apply good_head_writer; [by intros [? ?]|by right|by constructor|]. intros v Hv. destruct (Ga v Hv). split; [set_solver|done].
  - assert (R = ∅) as -> by (apply Ge; eauto). destruct (first_readers_spec Q) as (ts & rest & _ & -> & Hr).
    destruct ts as [|v ts].
    + cbn [fmap list_fmap app] in *. destruct Hr as [->|(u & r & ->)]; [by apply good_no_queue|].
      cbn [admit_next queue rd]. inversion_clear Gn as [|? ? Hu Hnd]. rewrite decide_True by done. split; cbn; try done; [eauto|].
      intros x Hx. split; [set_solver|]. intros [= ->]. done.
    + rewrite admit_readers_eq by (auto; by left). rewrite fmap_app, fst_readers in Gn. apply NoDup_app in Gn as (_ & Gn & Gr).
      split; cbn [rd wr queue]; try done.
      * intros _. right. set_solver.
      * intros u q _ E. by destruct Hr as [->|(? & ? & ->)].
      * intros x Hx. split; [|done]. intros Hc. apply (Gn x); set_solver.
Qed.

(** *** The functions on the lock *)

Lemma wp_node w n s Q : nodes s !! w = Some n -> Q n s -> wp (node w) s Q.
Proof. intros E HQ. unfold wp, node, mbind, prog_bind, get, run. by rewrite E. Qed.

Definition with_node (w : loc) (n : waiter) (s : rw_mutex) : rw_mutex :=
  RwLock (waiters s) (tail s) (idle s) (writing s) (readers s) (<[w := n]> (nodes s)) (fresh s).

Lemma wp_set_node w n x s Q : nodes s !! w = Some x -> Q tt (with_node w n s) -> wp (set_node w n) s Q.
Proof. intros E HQ. unfold set_node. apply wp_bind, wp_get, wp_bind, (wp_node _ x); [done|]. by apply wp_put. Qed.

Ltac wset := lazymatch goal with
  | |- wp (set_waiters _) _ _ => apply wp_bind, wp_get, wp_put
  | |- wp (set_tail _) _ _ => apply wp_bind, wp_get, wp_put
  | |- wp (set_idle _) _ _ => apply wp_bind, wp_get, wp_put
  | |- wp (set_writing _) _ _ => apply wp_bind, wp_get, wp_put
  | |- wp (set_readers _) _ _ => apply wp_bind, wp_get, wp_put
  end.

Lemma chain_None nx p ls : chain nx p ls -> p = None -> ls = [].
Proof. destruct ls; [done|]. intros [-> _]. done. Qed.

Lemma chain_Some nx w ls : chain nx (Some w) ls -> exists q r, ls = w :: r /\ nx !! w = Some q /\ chain nx q r.
Proof. destruct ls as [|l r]; [done|]. intros ([= ->] & q & Hq & Hc). eauto. Qed.

Lemma chain_head nx p ls : chain nx p ls -> p = head ls.
Proof. destruct ls; [done|]. by intros [-> _]. Qed.

Lemma chain_in nx p ls l : chain nx p ls -> l ∈ ls -> is_Some (nx !! l).
Proof.
  revert p. induction ls as [|x ls IH]; intros p; [by intros _ ?%not_elem_of_nil|]. intros (_ & q & Hq & Hc) [->|Hl]%elem_of_cons; eauto.
Qed.

Lemma chain_snoc nx p ls w l n :
  chain nx p ls -> last ls = Some l -> w ∉ ls -> NoDup ls -> nx !! l = Some n -> chain (<[l := Some w]> (<[w := None]> nx)) p (ls ++ [w]).
Proof.
  revert p. induction ls as [|x ls IH]; intros p; [done|]. intros (-> & q & Hq & Hc) Hl Hw Hnd Hn. split; [done|]. fold (ls ++ [w]).
  inversion_clear Hnd as [|? ? Hx Hnd']. destruct ls as [|y ls].
  - injection Hl as ->. exists (Some w). rewrite lookup_insert_eq. split; [done|]. cbn. split; [done|]. exists None.
    rewrite lookup_insert_ne, lookup_insert_eq by set_solver. done.
  - exists q. assert (l ∈ y :: ls) by (rewrite last_cons_cons in Hl; by apply last_Some_elem_of in Hl).
    rewrite !lookup_insert_ne by set_solver. split; [done|]. apply IH; try done; set_solver.
Qed.

Lemma links_node w n s : links (with_node w n s) = <[w := pnext n]> (links s).
Proof. unfold links, with_node. cbn. by rewrite fmap_insert. Qed.

Lemma links_Some s w p : links s !! w = Some p -> exists n, nodes s !! w = Some n /\ pnext n = p.
Proof. unfold links. rewrite lookup_fmap, fmap_Some. naive_solver. Qed.

Definition akin (n n' : waiter) : Prop := is_reader n' = is_reader n /\ acquired n' = acquired n.

(** Everything about the nodes but [w] that the threads rely on is the same. *)
Definition akin_but (w : loc) (l l' : rw_mutex) : Prop := forall u, u <> w -> option_Forall2 akin (nodes l !! u) (nodes l' !! u).

Lemma akin_lookup w l l' u n : akin_but w l l' -> u <> w -> nodes l !! u = Some n -> exists n', nodes l' !! u = Some n' /\ akin n n'.
Proof. intros H Hu E. specialize (H u Hu). rewrite E in H. inversion H; subst; eauto. Qed.

Lemma akin_back w l l' u : akin_but w l l' -> u <> w -> is_Some (nodes l' !! u) -> is_Some (nodes l !! u).
Proof. intros H Hu [n' E]. specialize (H u Hu). rewrite E in H. inversion H; eauto. Qed.

Definition away (x : thread) : Prop := x = Out \/ exists b, x = Parked b.

Lemma away_ok a s q i t x : thread_ok a s q i t x -> away x -> (forall b, ~ held a t b) /\ t ∉ (queue a).*1.
Proof. intros H [->|[b ->]]; done. Qed.

Lemma zip_snoc (q : list loc) (Q : list (tid * bool)) w e : length q = length Q -> zip (q ++ [w]) (Q ++ [e]) = zip q Q ++ [(w, e)].
Proof. intros. by rewrite zip_with_app. Qed.

Lemma sets_eq t x f : sets t x f t = x.
Proof. unfold sets. by rewrite decide_True. Qed.
Lemma sets_ne t u x f : u <> t -> sets t x f u = f u.
Proof. unfold sets. intros. by rewrite decide_False. Qed.

Lemma Rep_enqueue l th a q i i' w t b l' :
  Rep (Sys l th) a q i -> away (th t) -> w ∉ q -> (forall u c, th u <> Queued w c) -> (i = w :: i' \/ i = i' /\ w ∉ i) ->
  chain (links l') (waiters l') (q ++ [w]) -> chain (links l') (idle l') i' ->
  nodes l' !! w = Some (Waiter b false None) -> akin_but w l l' ->
  readers l' = readers l -> writing l' = writing l -> (w < fresh l')%positive -> (fresh l <= fresh l')%positive ->
  Rep (Sys l' (sets t (Queued w b) th)) (Spec (rd a) (wr a) (queue a ++ [(t, b)])) (q ++ [w]) i'.
Proof.
  intros [Rq Ri Rn Rw Rt Rj Rd Rr Rwr Rf] Haw Hwq Hth Hi Hq Hi' Hw Hk Hrd Hwr Hf1 Hf2. cbn [lock threads] in *.
  destruct (away_ok _ _ _ _ _ _ (Rt t) Haw) as [Hnh Hnq]. pose proof (Forall2_length _ _ _ Rw) as Hlen.
  assert (forall v, v ∈ i' -> v ∈ i) as Hsub by (destruct Hi as [->|[-> _]]; set_solver).
  assert (w ∉ i') as Hwi by (destruct Hi as [->|[-> ?]]; [|done]; apply NoDup_app in Rn as (_ & _ & Rn); by inversion Rn).
  assert (NoDup (q ++ i')) as Hnd by (destruct Hi as [->|[-> _]]; [|done]; apply NoDup_app in Rn as (N1 & N2 & N3); apply NoDup_app; inversion N3; split_and!; set_solver).
  split; cbn [lock threads rd wr queue]; try done.
  - apply NoDup_app in Hnd as (N1 & N2 & N3). apply NoDup_app. split_and!; [|set_solver|done]. apply NoDup_app. split_and!; [done|set_solver|apply NoDup_singleton].
  - apply Forall2_app; [|constructor; [|constructor]; by rewrite sets_eq]. eapply Forall2_impl; [apply Forall2_same_length_lookup; split; [done|]|].
    { intros k v e Hv He. pose proof (Forall2_lookup_lr _ _ _ _ _ _ Rw Hv He) as H. instantiate (1 := fun v e => th e.1 = Queued v e.2 /\ e ∈ queue a).
      split; [done|]. by eapply list_elem_of_lookup_2. }
    intros v [u c] [H Hin]. cbn in *. rewrite sets_ne; [done|]. intros ->. apply Hnq. apply list_elem_of_fmap. by exists (t, c).
  - intros u. destruct (decide (u = t)) as [->|Hu].
    { rewrite sets_eq. cbn. exists (Waiter b false None). split_and!; try done. rewrite zip_snoc by done. set_solver. }
    rewrite sets_ne by done. specialize (Rt u). destruct (th u) as [|v c|c|c] eqn:Eu; cbn in *.
    + destruct Rt as [Rt1 Rt2]. split; [done|]. rewrite fmap_app. set_solver.
    + destruct Rt as (n & Hn & Hr & Hvi & Hc). assert (v <> w) as Hvw by (intros ->; by eapply Hth).
      destruct (akin_lookup w l l' v n) as (n' & Hn' & Hk1 & Hk2); [done..|]. exists n'. split_and!; [done|congruence|auto|]. rewrite Hk2.
      destruct (acquired n); [destruct Hc; split; [set_solver|done]|]. rewrite zip_snoc by done. set_solver.
    + done.
    + destruct Rt as [Rt1 Rt2]. split; [done|]. rewrite fmap_app. set_solver.
  - intros u v x c d. destruct (decide (u = t)) as [->|Hu], (decide (v = t)) as [->|Hv]; rewrite ?sets_eq, ?sets_ne by done; try done.
    + intros [= -> ->] E. by destruct (Hth v d).
    + intros E [= -> ->]. by destruct (Hth u c).
    + apply Rj.
  - intros v Hv. destruct (decide (v = w)) as [->|Hvw]; [left; set_solver|]. destruct (Rd v) as [H|[H|(u & c & H)]]; [by eapply akin_back|left; set_solver| |].
    + right. left. destruct Hi as [->|[-> _]]; set_solver.
    + right. right. exists u, c. rewrite sets_ne; [done|]. intros ->. destruct Haw as [E|[? E]]; congruence.
  - congruence.
  - congruence.
  - intros v Hv. destruct (decide (v = w)) as [->|Hvw]; [done|]. assert (v < fresh l)%positive by (by eapply Rf, akin_back). lia.
Qed.

Lemma last_link_snoc q w : last_link (q ++ [w]) = AtPnext w.
Proof. unfold last_link. by rewrite last_snoc. Qed.

Lemma akin_refl n : akin n n.
Proof. done. Qed.

Lemma akin_with_node w l v n n' : nodes l !! v = Some n -> akin n n' -> akin_but w l (with_node v n' l).
Proof.
  intros Hv Hk u Hu. cbn. destruct (decide (u = v)) as [->|Hne]; [rewrite lookup_insert_eq, Hv; by constructor|].
  rewrite lookup_insert_ne by done. destruct (nodes l !! u); constructor. apply akin_refl.
Qed.

Lemma akin_with_same w l n : akin_but w l (with_node w n l).
Proof. intros u Hu. cbn. rewrite lookup_insert_ne by done. destruct (nodes l !! u); constructor. apply akin_refl. Qed.

Lemma akin_trans w l1 l2 l3 : akin_but w l1 l2 -> akin_but w l2 l3 -> akin_but w l1 l3.
Proof.
  intros H1 H2 u Hu. specialize (H1 u Hu). specialize (H2 u Hu). destruct H1 as [n1 n2 [E1 E2]|]; inversion_clear H2 as [? n3 [E3 E4]|]; constructor.
  split; congruence.
Qed.

Lemma enqueue_wp l w b x q (Q : unit -> rw_mutex -> Prop) :
  nodes l !! w = Some x -> tail l = last_link q -> chain (links l) (waiters l) q -> NoDup q -> w ∉ q ->
  (forall l', chain (links l') (waiters l') (q ++ [w]) -> idle l' = idle l -> nodes l' !! w = Some (Waiter b false None) -> akin_but w l l' ->
    (forall v, v ∉ q -> v <> w -> links l' !! v = links l !! v) -> readers l' = readers l -> writing l' = writing l -> fresh l' = fresh l ->
    tail l' = AtPnext w -> Q tt l') ->
  wp (enqueue w b) l Q.
Proof.
  intros Hx Ht Hc Hnd Hw HQ. unfold enqueue. apply wp_bind, (wp_set_node _ _ x); [done|]. apply wp_bind, wp_get, wp_bind. cbn [tail with_node]. rewrite Ht.
  destruct (last q) as [v|] eqn:El; unfold last_link; rewrite El.
  - pose proof (last_Some_elem_of _ _ El) as Hv. destruct (chain_in _ _ _ _ Hc Hv) as [p Hp]. destruct (links_Some _ _ _ Hp) as (n & Hn & Hpn).
    assert (v <> w) as Hne by (intros ->; done).
    assert (nodes (with_node w (Waiter b false None) l) !! v = Some n) as Hn' by (cbn; by rewrite lookup_insert_ne).
    apply wp_bind, (wp_node _ n); [done|]. apply (wp_set_node _ _ n); [done|]. wset. apply HQ; try done.
    + change (links _) with (links (with_node v (Waiter (is_reader n) (acquired n) (Some w)) (with_node w (Waiter b false None) l))).
      rewrite !links_node. cbn [pnext]. by eapply chain_snoc.
    + cbn. by rewrite lookup_insert_ne, lookup_insert_eq.
    + eapply akin_trans; [apply akin_with_same|]. by apply (akin_with_node w _ v n).
    + intros u Hu Huw. unfold links. cbn. rewrite !fmap_insert, !lookup_insert_ne; [done|congruence|]. intros ->. done.
  - apply last_None in El as ->. wset. wset. apply HQ; try done.
    + split; [done|]. exists None. split; [|done]. change (links _) with (links (with_node w (Waiter b false None) l)). by rewrite links_node, lookup_insert_eq.
    + cbn. by rewrite lookup_insert_eq.
    + apply akin_with_same.
    + intros u _ Hu. unfold links. cbn. by rewrite fmap_insert, lookup_insert_ne.
Qed.

Lemma wait_wp l th a q i t b ok :
  Rep (Sys l th) a q i -> tail l = last_link q -> away (th t) ->
  wp (globus_i_rw_mutex_wait ok b) l (fun r l' =>
    (r = None /\ l' = l /\ ok = false) \/
    exists w i', r = Some w /\ tail l' = last_link (q ++ [w]) /\ Rep (Sys l' (sets t (Queued w b) th)) (Spec (rd a) (wr a) (queue a ++ [(t, b)])) (q ++ [w]) i').
Proof.
  intros HR Ht Haw. pose proof HR as [Rq Ri Rn Rw Rt Rj Rd Rr Rwr Rf]. cbn [lock threads] in *. apply NoDup_app in Rn as (Nq & Nqi & Ni).
  unfold globus_i_rw_mutex_wait. apply wp_bind, wp_get. apply wp_bind. destruct (idle l) as [w|] eqn:Ei.
  - destruct (chain_Some _ _ _ Ri) as (p & i' & -> & Hp & Hi'). destruct (links_Some _ _ _ Hp) as (n & Hn & <-).
    apply wp_bind, (wp_node _ n); [done|]. apply wp_bind. wset. apply wp_ret. cbv iota. apply wp_bind.
    inversion_clear Ni as [|? ? Hwi Ni'].
    apply (enqueue_wp _ w b n q); try done; [set_solver|]. cbn [idle readers writing fresh]. intros l' Hc Hid Hnw Hk Hl Hr Hwr Hf Htl.
    apply wp_ret. right. exists w, i'. split; [done|]. split; [by rewrite last_link_snoc|].
    eapply Rep_enqueue; try done; [set_solver| |by left| | |].
    + intros u c Hu. specialize (Rt u). rewrite Hu in Rt. destruct Rt as (? & _ & _ & Hni & _). set_solver.
    + rewrite Hid. eapply chain_frame; [done|]. intros v Hv. apply Hl; [set_solver|]. intros ->. done.
    + rewrite Hf. apply Rf. eauto.
    + by rewrite Hf.
  - pose proof (chain_None _ _ _ Ri eq_refl) as ->. destruct ok; cbn [new_node].
    + assert (nodes l !! fresh l = None) as Hfr.
      { destruct (nodes l !! fresh l) eqn:E; [|done]. assert (fresh l < fresh l)%positive by (apply Rf; eauto). lia. }
      assert (fresh l ∉ q) as Hfq. { intros Hin. destruct (chain_in _ _ _ _ Rq Hin) as [? H]. destruct (links_Some _ _ _ H) as (? & ? & _). congruence. }
      apply wp_bind, wp_get, wp_bind, wp_put, wp_ret. cbv iota. apply wp_bind.
      apply (enqueue_wp _ (fresh l) b (Waiter false false None) q); try done; [cbn; by rewrite lookup_insert_eq| |].
      { eapply chain_frame; [done|]. intros v Hv. unfold links. cbn. rewrite fmap_insert, lookup_insert_ne; [done|]. intros <-. done. }
      cbn [idle readers writing fresh]. intros l' Hc Hid Hnw Hk Hl Hr Hwr Hf Htl.
      apply wp_ret. right. exists (fresh l), []. split; [done|]. split; [by rewrite last_link_snoc|].
      eapply Rep_enqueue; try done.
      * intros u c Hu. specialize (Rt u). rewrite Hu in Rt. destruct Rt as (? & ? & _). congruence.
      * right. split; [done|]. apply not_elem_of_nil.
      * cbn. by rewrite Hid.
      * eapply akin_trans; [|done]. intros u Hu. cbn. rewrite lookup_insert_ne by done. destruct (nodes l !! u); constructor. apply akin_refl.
      * lia.
      * lia.
    + apply wp_ret. cbv iota. apply wp_ret. by left.
Qed.

Lemma fmap_same_pnext (m : gmap loc waiter) w n : m !! w = Some n -> pnext <$> <[w := Waiter (is_reader n) true (pnext n)]> m = pnext <$> m.
Proof. intros Hn. rewrite fmap_insert. cbn. apply insert_id. by rewrite lookup_fmap, Hn. Qed.

(** The thread at the head of the queue gets the lock. *)
Lemma Rep_admit l th R W R' W' t b Q w q i n l' :
  Rep (Sys l th) (Spec R W ((t, b) :: Q)) (w :: q) i -> nodes l !! w = Some n -> t ∉ Q.*1 ->
  nodes l' = <[w := Waiter (is_reader n) true (pnext n)]> (nodes l) -> waiters l' = pnext n -> idle l' = idle l -> fresh l' = fresh l ->
  (if b then R' = ({[t]} ∪ R) /\ W' = W else R' = R /\ W = None /\ W' = Some t) ->
  readers l' = Z.of_nat (size R') -> writing l' = bool_decide (is_Some W') ->
  Rep (Sys l' th) (Spec R' W' Q) q i.
Proof.
  intros [Rq Ri Rn Rw Rt Rj Rd Rr Rwr Rf] Hn HtQ Hnodes Hwt Hid Hfr Hspec Hrd Hwr. cbn [lock threads rd wr queue] in *.
  assert (links l' = links l) as Hlinks by (unfold links; rewrite Hnodes; by apply fmap_same_pnext).
  destruct Rq as (_ & p & Hp & Hc). destruct (links_Some _ _ _ Hp) as (n' & Hn' & <-). assert (n' = n) as -> by congruence.
  apply Forall2_cons in Rw as [Ht Rw]. cbn in Ht. cbn [app] in Rn. inversion_clear Rn as [|? ? Hwq Nq]. rewrite elem_of_app in Hwq.
  assert (forall u c, held (Spec R W ((t, b) :: Q)) u c -> held (Spec R' W' Q) u c) as Hmono.
  { intros u c. destruct b, c; cbn in *; destruct Hspec as [-> Hs]; [set_solver|by rewrite Hs|done|]. destruct Hs as [-> ->]. done. }
  assert (forall u c, u <> t -> ~ held (Spec R W ((t, b) :: Q)) u c -> ~ held (Spec R' W' Q) u c) as Hanti.
  { intros u c Hu. destruct b, c; cbn in *; destruct Hspec as [-> Hs]; [set_solver|by rewrite Hs|done|]. destruct Hs as [-> ->]. congruence. }
  assert (held (Spec R' W' Q) t b) as Hheld. { destruct b; cbn in *; destruct Hspec as [-> Hs]; [set_solver|by destruct Hs]. }
  split; cbn [lock threads rd wr queue]; try done; rewrite ?Hlinks, ?Hwt, ?Hid; try done.
  - intros u. specialize (Rt u). destruct (th u) as [|v c|c|c] eqn:Eu; cbn in *; auto.
    + destruct Rt as [Rt1 Rt2]. apply not_elem_of_cons in Rt2 as [? ?]. auto.
    + destruct Rt as (m & Hm & Hr & Hvi & Hcase). destruct (decide (v = w)) as [->|Hvw].
      * assert (u = t /\ c = b) as [-> ->] by (assert (u = t) as -> by (by eapply Rj); split; congruence).
        assert (m = n) as -> by congruence. exists (Waiter (is_reader n) true (pnext n)). rewrite Hnodes, lookup_insert_eq. cbn. split_and!; naive_solver.
      * exists m. rewrite Hnodes, lookup_insert_ne by done. split_and!; try done. destruct (acquired m).
        -- destruct Hcase as [H1 H2]. split; [set_solver|]. by apply Hmono.
        -- apply elem_of_cons in Hcase as [Hc'|Hc']; [|done]. congruence.
    + destruct Rt as [Rt1 Rt2]. apply not_elem_of_cons in Rt2 as [? ?]. auto.
  - intros v. rewrite Hnodes. intros Hv. destruct (decide (v = w)) as [->|Hvw]; [right; right; eauto|]. rewrite lookup_insert_ne in Hv by done.
    destruct (Rd v Hv) as [H|[H|H]]; [left; set_solver|auto|auto].
  - intros v. rewrite Hnodes, Hfr. intros Hv. apply Rf. destruct (decide (v = w)) as [->|Hvw]; [eauto|]. by rewrite lookup_insert_ne in Hv.
Qed.

Lemma signal_readers_wp ts : forall n l th R W t rest w q i,
  Rep (Sys l th) (Spec R W (((fun t => (t, true)) <$> (t :: ts)) ++ rest)) (w :: q) i -> (length ts < n)%nat ->
  NoDup (((fun t => (t, true)) <$> (t :: ts)) ++ rest).*1 -> (forall u, u ∈ t :: ts -> u ∉ R) -> (rest = [] \/ exists u r, rest = (u, false) :: r) ->
  wp (signal_readers n w) l (fun _ l' => exists q1 q', w :: q = q1 ++ q' /\ tail l' = tail l /\ Rep (Sys l' th) (Spec (R ∪ list_to_set (t :: ts)) W rest) q' i).
Proof.
  induction ts as [|u ts IH]; intros [|n] l th R W t rest w q i HR Hn Hnd HR' Hrest; cbn [length] in Hn; try lia; cbn [signal_readers].
  all: pose proof HR as [Rq _ _ Rw Rt _ _ Rr Rwr _]; cbn [lock threads rd wr queue] in *; destruct Rq as (Ew & p & Hp & Hc);
    destruct (links_Some _ _ _ Hp) as (x & Hx & Hpx).
  all: apply wp_bind, wp_get, wp_bind; wset; apply wp_bind, (wp_node _ x); [done|]; apply wp_bind, (wp_set_node _ _ x); [done|]; apply wp_bind; wset; cbn [waiters tail idle writing readers nodes fresh with_node].
  all: match goal with |- wp _ ?l0 _ => set (l1 := l0) end.
  - assert (Rep (Sys l1 th) (Spec ({[t]} ∪ R) W rest) q i) as HR1.
    { eapply (Rep_admit _ _ _ _ _ _ t true); try done. - cbn in Hnd. by inversion Hnd.
      - cbn. rewrite Rr. rewrite size_union by set_solver. rewrite size_singleton. lia. }
    rewrite Hpx. assert (R ∪ list_to_set [t] = {[t]} ∪ R) as -> by set_solver.
    assert (wp (mret tt : prog rw_mutex unit) l1 (fun _ l' => exists q1 q', w :: q = q1 ++ q' /\ tail l' = tail l /\ Rep (Sys l' th) (Spec ({[t]} ∪ R) W rest) q' i)) as Hend.
    { apply wp_ret. by exists [w], q. }
    pose proof HR1 as [_ _ _ Rw1 Rt1 _ _ _ _ _]. cbn [lock threads queue] in *.
    destruct p as [w'|]; [|done]. destruct (chain_Some _ _ _ Hc) as (p' & r & -> & Hp' & Hc'). apply Forall2_cons_inv_l in Rw1 as ([v c] & Q & Hv & _ & EQ). cbn in Hv.
    specialize (Rt1 v). rewrite Hv in Rt1. destruct Rt1 as (m & Hm & Hmr & _). apply wp_bind, (wp_node _ m); [done|]. rewrite Hmr.
    destruct Hrest as [->|(? & ? & ->)]; [done|]. assert (c = false) as -> by congruence. exact Hend.
  - assert (Rep (Sys l1 th) (Spec ({[t]} ∪ R) W (((fun t => (t, true)) <$> (u :: ts)) ++ rest)) q i) as HR1.
    { eapply (Rep_admit _ _ _ _ _ _ t true); try done. - cbn in Hnd. by inversion Hnd.
      - cbn. rewrite Rr. rewrite size_union by set_solver. rewrite size_singleton. lia. }
    pose proof HR1 as [Rq1 _ _ Rw1 Rt1 _ _ _ _ _]. cbn [lock threads queue] in *.
    apply Forall2_cons_inv_r in Rw1 as (w' & q' & Hu & _ & ->). cbn in Hu.
    rewrite Hpx. destruct Hc as (-> & p' & Hp' & Hc').
    specialize (Rt1 u). rewrite Hu in Rt1. destruct Rt1 as (m & Hm & Hmr & _). apply wp_bind, (wp_node _ m); [done|]. rewrite Hmr.
    eapply wp_mono; [eapply IH; try done; [lia|cbn in Hnd; by inversion Hnd|]|].
    + intros v Hv. cbn [fmap list_fmap app] in Hnd. inversion_clear Hnd as [|? ? Ht _]. rewrite not_elem_of_union, not_elem_of_singleton. split; [|set_solver].
      intros ->. apply Ht. rewrite fmap_app, fst_readers. set_solver.
    + intros _ l' (q1 & q2 & E & Htl & HR2). exists (w :: q1), q2. rewrite E. split_and!; [done|done|].
      by replace (R ∪ list_to_set (t :: u :: ts)) with ({[t]} ∪ R ∪ list_to_set (u :: ts) : gset tid) by set_solver.
Qed.

Lemma NoDup_bound (q : list loc) (m : gmap loc waiter) : NoDup q -> (forall w, w ∈ q -> is_Some (m !! w)) -> (length q <= size m)%nat.
Proof.
  intros Hn Hm. rewrite <- size_dom, <- (size_list_to_set (C := gset loc) q) by done. apply subseteq_size. intros w Hw. apply elem_of_list_to_set in Hw. by apply elem_of_dom, Hm.
Qed.

Lemma last_link_suffix q1 w q : last_link (q1 ++ w :: q) = last_link (w :: q).
Proof. unfold last_link. by rewrite last_app_cons. Qed.

(** The tail pointer is reset when the queue has become empty. *)
Lemma reset_tail_wp l th a q q1 q' i :
  Rep (Sys l th) a q' i -> q = q1 ++ q' -> tail l = last_link q ->
  wp (s ← get; match waiters s with None => set_tail AtWaiters | Some _ => mret tt end) l (fun _ l' => exists q', Rep (Sys l' th) a q' i /\ tail l' = last_link q').
Proof.
  intros HR -> Ht. apply wp_bind, wp_get. pose proof HR as [Rq Ri Rn Rw Rt Rj Rd Rr Rwr Rf]; cbn [lock threads] in *.
  destruct (waiters l) as [w|] eqn:Ew.
  - apply wp_ret. exists q'. split; [done|]. destruct (chain_Some _ _ _ Rq) as (_ & r & -> & _). by rewrite Ht, last_link_suffix.
  - wset. pose proof (chain_None _ _ _ Rq eq_refl) as ->. exists []. split; [|done]. by split.
Qed.

Lemma signal_wp l th a q i :
  Rep (Sys l th) a q i -> tail l = last_link q -> wr a = None -> NoDup (queue a).*1 -> (forall t, t ∈ (queue a).*1 -> t ∉ rd a) ->
  wp globus_i_rw_mutex_signal l (fun _ l' => exists q', Rep (Sys l' th) (admit_next a) q' i /\ tail l' = last_link q').
Proof.
  intros HR Ht Hw Hnd Hap. pose proof HR as [Rq Ri Rn Rw Rt Rj Rd Rr Rwr Rf]; cbn [lock threads] in *. unfold globus_i_rw_mutex_signal. apply wp_bind, wp_get.
  destruct a as [R W Q]; cbn [rd wr queue] in *; subst W. destruct (waiters l) as [w|] eqn:Ew.
  2: { apply wp_ret. exists q. pose proof (chain_None _ _ _ Rq eq_refl) as ->. apply Forall2_nil_inv_l in Rw as ->. cbn.
       by replace (R ∪ ∅) with R by set_solver. }
  destruct (chain_Some _ _ _ Rq) as (p & r & -> & Hp & Hc). destruct (links_Some _ _ _ Hp) as (n & Hn & Hpn).
  apply Forall2_cons_inv_l in Rw as ([t b] & Q' & Ht1 & Rw & ->). cbn in Ht1. pose proof (Rt t) as Rtt. rewrite Ht1 in Rtt.
  destruct Rtt as (n' & Hn' & Hnr & _). assert (n' = n) as -> by congruence. apply wp_bind, (wp_node _ n); [done|]. apply wp_bind. rewrite Hnr. destruct b.
  - destruct (first_readers_spec Q') as (ts & rest & _ & -> & Hrest). rewrite app_comm_cons in *.
    change ((t, true) :: ((fun t => (t, true)) <$> ts)) with ((fun t => (t, true)) <$> (t :: ts)) in *. rewrite admit_readers_eq by (auto; by left).
    eapply wp_mono; [eapply signal_readers_wp; try done|].
    + pose proof (Forall2_length _ _ _ Rw) as Hl. rewrite length_app, length_fmap in Hl. apply NoDup_app in Rn as (Nq & _ & _).
      assert (length (w :: r) <= size (nodes l))%nat; [|cbn in *; lia]. apply NoDup_bound; [done|]. intros v Hv. destruct (chain_in _ _ _ _ Rq Hv) as [? H].
      destruct (links_Some _ _ _ H) as (? & ? & _). eauto.
    + intros u Hu. apply Hap. rewrite fmap_app, fst_readers. set_solver.
    + intros _ l' (q1 & q' & E & Htl & HR'). eapply reset_tail_wp; [done|exact E|congruence].
  - cbn [admit_next queue rd]. rewrite Rr. destruct (Z.eqb_spec (Z.of_nat (size R)) 0) as [H0|H0].
    + assert (R = ∅) as -> by (apply leibniz_equiv, size_empty_inv; lia). rewrite decide_True by done. apply wp_bind; wset. apply wp_bind; wset.
      apply (wp_set_node _ _ n); [done|]. eapply (reset_tail_wp _ _ _ (w :: r) [w] r); [|done|done].
      eapply (Rep_admit _ _ ∅ None ∅ (Some t) t false); try done; cbn.
      * by inversion Hnd.
      * by rewrite Hnr.
    + rewrite decide_False by (intros ->; by rewrite size_empty in H0). apply wp_ret. by eapply (reset_tail_wp _ _ _ (w :: r) []).
Qed.

(** A thread that held the lock gives it up. *)
Lemma Rep_release l th a q i t b x l' :
  Rep (Sys l th) a q i -> good a -> th t = Holds b -> away x ->
  nodes l' = nodes l -> waiters l' = waiters l -> idle l' = idle l -> fresh l' = fresh l ->
  readers l' = (if b then readers l - 1 else readers l) -> writing l' = (if b then writing l else false) ->
  Rep (Sys l' (sets t x th)) (if b then Spec (rd a ∖ {[t]}) (wr a) (queue a) else Spec (rd a) None (queue a)) q i.
Proof.
  intros [Rq Ri Rn Rw Rt Rj Rd Rr Rwr Rf] HG Hth Hx Hnodes Hwt Hid Hfr Hrd Hwr. cbn [lock threads] in *.
  pose proof (Rt t) as Hheld. rewrite Hth in Hheld. cbn in Hheld.
  set (a' := if b then Spec (rd a ∖ {[t]}) (wr a) (queue a) else Spec (rd a) None (queue a)).
  assert (queue a' = queue a) as Hqa by (by destruct b).
  assert (t ∉ (queue a).*1) as HtQ. { intros Hin. destruct (g_apart a HG t Hin). destruct b; cbn in Hheld; done. }
  assert (forall c, ~ held a' t c) as Hnot.
  { intros c. destruct b, c; cbn in *; [set_solver| |by intros ?; assert (rd a = ∅) by (apply (g_excl a HG); eauto); set_solver|done].
    intros E. assert (rd a = ∅) by (apply (g_excl a HG); eauto). set_solver. }
  assert (forall u c, u <> t -> held a u c -> held a' u c) as Hmono.
  { intros u c Hu. destruct b, c; cbn in *; try done; [set_solver|]. congruence. }
  assert (forall u c, held a' u c -> held a u c) as Hanti.
  { intros u c. destruct b, c; cbn in *; try done. set_solver. }
  assert (forall u, thread_ok a' l' q i u (sets t x th u)) as Htok.
  { intros u. destruct (decide (u = t)) as [->|Hu].
    - rewrite sets_eq. destruct Hx as [->|[c ->]]; cbn; rewrite Hqa; auto.
    - rewrite sets_ne by done. specialize (Rt u). destruct (th u) as [|v c|c|c]; cbn in *; rewrite ?Hqa, ?Hnodes; auto.
      + destruct Rt as [R1 R2]. split; [|done]. intros c Hc. by apply (R1 c), Hanti.
      + destruct Rt as (n & Hn & Hr & Hvi & Hcase). exists n. split_and!; try done. destruct (acquired n); [|done]. destruct Hcase. auto.
      + destruct Rt as [R1 R2]. split; [|done]. intros c' Hc. by apply (R1 c'), Hanti. }
  assert (forall u w c, sets t x th u = Queued w c -> th u = Queued w c) as Hsame.
  { intros u w c. destruct (decide (u = t)) as [->|Hu]; [rewrite sets_eq; by destruct Hx as [->|[? ->]]|by rewrite sets_ne]. }
  assert (links l' = links l) as Hlinks by (unfold links; by rewrite Hnodes).
  split; cbn [lock threads]; rewrite ?Hlinks, ?Hwt, ?Hid, ?Hnodes, ?Hqa, ?Hfr; try done.
  - eapply Forall2_impl; [done|]. intros w [u c] Hu. cbn in *. rewrite sets_ne; [done|]. intros ->. congruence.
  - intros u v w c d Hu Hv. eapply Rj; by apply Hsame.
  - intros w Hw. destruct (Rd w Hw) as [H|[H|(u & c & H)]]; auto. right. right. exists u, c. rewrite sets_ne; [done|]. intros ->. congruence.
  - rewrite Hrd. destruct b; cbn in *; [|done]. rewrite Rr, size_difference by set_solver. rewrite size_singleton.
    assert (size (rd a) <> 0)%nat by (intros E; apply size_empty_inv in E; set_solver). lia.
  - rewrite Hwr. by destruct b.
Qed.

(** A thread that was given the lock takes it. *)
Lemma wake_wp l th a q i t w b n :
  Rep (Sys l th) a q i -> th t = Queued w b -> nodes l !! w = Some n -> acquired n = true ->
  wp (globus_i_rw_mutex_wait_end w) l (fun _ l' => tail l' = tail l /\ exists i', Rep (Sys l' (sets t (Holds b) th)) a q i').
Proof.
  intros [Rq Ri Rn Rw Rt Rj Rd Rr Rwr Rf] Hth Hn Hacq. cbn [lock threads] in *.
  pose proof (Rt t) as Htt. rewrite Hth in Htt. destruct Htt as (n' & Hn' & Hr & Hwi & Hcase). assert (n' = n) as -> by congruence. rewrite Hacq in Hcase. destruct Hcase as [Hwq Hheld].
  unfold globus_i_rw_mutex_wait_end. apply wp_bind, wp_get, wp_bind, (wp_node _ n); [done|]. apply wp_bind, (wp_set_node _ _ n); [done|]. wset.
  split; [done|]. exists (w :: i). cbn [waiters tail idle writing readers nodes fresh with_node].
  set (l' := RwLock _ _ _ _ _ _ _). assert (links l' = <[w := idle l]> (links l)) as Hlinks by (unfold links, l'; cbn; by rewrite fmap_insert).
  assert (forall u v c, sets t (Holds b) th u = Queued v c -> u <> t /\ th u = Queued v c) as Hsame.
  { intros u v c. destruct (decide (u = t)) as [->|Hu]; [by rewrite sets_eq|by rewrite sets_ne]. }
  split; cbn [lock threads]; rewrite ?Hlinks; try done.
  - eapply chain_frame; [done|]. intros v Hv. rewrite lookup_insert_ne; [done|]. intros ->. done.
  - split; [done|]. exists (idle l). rewrite lookup_insert_eq. split; [done|]. eapply chain_frame; [done|]. intros v Hv. rewrite lookup_insert_ne; [done|]. intros ->. done.
  - apply NoDup_app in Rn as (N1 & N2 & N3). apply NoDup_app. split_and!; [done|set_solver|by constructor].
  - eapply Forall2_impl; [apply Forall2_same_length_lookup_2; [by eapply Forall2_length|]|].
    { intros k v e Hv He. pose proof (Forall2_lookup_lr _ _ _ _ _ _ Rw Hv He) as H. instantiate (1 := fun v e => th e.1 = Queued v e.2 /\ v ∈ q).
      split; [done|]. by eapply list_elem_of_lookup_2. }
    intros v [u c] [Hu Hv]. cbn in *. rewrite sets_ne; [done|]. intros ->. congruence.
  - intros u. destruct (decide (u = t)) as [->|Hu]; [by rewrite sets_eq|]. rewrite sets_ne by done. specialize (Rt u).
    destruct (th u) as [|v c|c|c] eqn:Eu; cbn in *; auto. destruct Rt as (m & Hm & Hmr & Hvi & Hc). assert (v <> w) as Hvw by (intros ->; apply Hu; by eapply Rj).
    exists m. cbn. rewrite lookup_insert_ne by done. split_and!; try done. set_solver.
  - intros u v x c d [_ Hu]%Hsame [_ Hv]%Hsame. by eapply Rj.
  - intros v Hv. cbn in Hv. destruct (decide (v = w)) as [->|Hvw]; [right; left; set_solver|]. rewrite lookup_insert_ne in Hv by done.
    destruct (Rd v Hv) as [H|[H|(u & c & H)]]; [auto|right; left; set_solver|]. right. right. exists u, c. rewrite sets_ne; [done|]. intros ->. congruence.
  - intros v Hv. cbn in *. apply Rf. destruct (decide (v = w)) as [->|Hvw]; [eauto|]. by rewrite lookup_insert_ne in Hv.
Qed.

(** A thread that finds the lock free takes it. *)
Lemma Rep_acquire l th R W R' W' Q q i t (b : bool) l' :
  Rep (Sys l th) (Spec R W Q) q i -> away (th t) ->
  nodes l' = nodes l -> waiters l' = waiters l -> idle l' = idle l -> fresh l' = fresh l ->
  (if b then R' = ({[t]} ∪ R) /\ W' = W else R' = R /\ W = None /\ W' = Some t) ->
  readers l' = Z.of_nat (size R') -> writing l' = bool_decide (is_Some W') ->
  Rep (Sys l' (sets t (Holds b) th)) (Spec R' W' Q) q i.
Proof.
  intros [Rq Ri Rn Rw Rt Rj Rd Rr Rwr Rf] Haw Hnodes Hwt Hid Hfr Hspec Hrd Hwr. cbn [lock threads rd wr queue] in *.
  destruct (away_ok _ _ _ _ _ _ (Rt t) Haw) as [Hnh Hnq]. cbn [queue] in Hnq.
  assert (forall u c, held (Spec R W Q) u c -> held (Spec R' W' Q) u c) as Hmono.
  { intros u c. destruct b, c; cbn in *; destruct Hspec as [-> Hs]; [set_solver|by rewrite Hs|done|]. destruct Hs as [-> ->]. done. }
  assert (forall u c, u <> t -> ~ held (Spec R W Q) u c -> ~ held (Spec R' W' Q) u c) as Hanti.
  { intros u c Hu. destruct b, c; cbn in *; destruct Hspec as [-> Hs]; [set_solver|by rewrite Hs|done|]. destruct Hs as [-> ->]. congruence. }
  assert (forall w c, th t <> Queued w c) as Hnt by (intros w c E; rewrite E in Haw; destruct Haw as [|[]]; congruence).
  assert (links l' = links l) as Hlinks by (unfold links; by rewrite Hnodes).
  split; cbn [lock threads rd wr queue]; rewrite ?Hlinks, ?Hwt, ?Hid, ?Hnodes, ?Hfr; try done.
  - eapply Forall2_impl; [done|]. intros w [u c] Hu. cbn in *. rewrite sets_ne; [done|]. intros ->. by eapply Hnt.
  - intros u. destruct (decide (u = t)) as [->|Hu].
    { rewrite sets_eq. cbn. destruct b; cbn in *; destruct Hspec as [-> Hs]; [set_solver|by destruct Hs]. }
    rewrite sets_ne by done. specialize (Rt u). destruct (th u) as [|v c|c|c]; cbn in *; rewrite ?Hnodes; auto.
    + destruct Rt as [R1 R2]. auto.
    + destruct Rt as (n & Hn & Hr & Hvi & Hcase). exists n. split_and!; try done. destruct (acquired n); [|done]. destruct Hcase. auto.
    + destruct Rt as [R1 R2]. auto.
  - intros u v w c d. destruct (decide (u = t)) as [->|Hu]; [by rewrite sets_eq|]. destruct (decide (v = t)) as [->|Hv]; [by rewrite sets_eq|].
    rewrite !sets_ne by done. apply Rj.
  - intros w Hw. destruct (Rd w Hw) as [H|[H|(u & c & H)]]; auto. right. right. exists u, c. rewrite sets_ne; [done|]. intros ->. by eapply Hnt.
Qed.

Definition lock_post (th : tid -> thread) (l : rw_mutex) (a : spec) (t : tid) (b ok : bool) (r : outcome) (l' : rw_mutex) : Prop :=
  match r with
  | Acquired => Full (Sys l' (sets t (Holds b) th)) (spec_lock t b a)
  | Waits w => Full (Sys l' (sets t (Queued w b) th)) (spec_lock t b a)
  | Failed => ok = false /\ l' = l
  end.

Lemma lock_queue_wp l th a q i t b ok :
  Rep (Sys l th) a q i -> good a -> tail l = last_link q -> away (th t) -> spec_lock t b a = Spec (rd a) (wr a) (queue a ++ [(t, b)]) ->
  wp (r ← globus_i_rw_mutex_wait ok b; mret (waits r)) l (lock_post th l a t b ok).
Proof.
  intros HR HG Ht Haw E. eapply wp_step; [by apply (wait_wp l th a q i t)|]. cbv beta. intros r l' [(-> & -> & ->)|(w & i' & -> & Ht' & HR')]; apply wp_ret; cbn; [done|].
  destruct (away_ok _ _ _ _ _ _ (r_thread _ _ _ _ HR t) Haw) as [Hnh Hnq]. split; [by apply good_lock|]. rewrite E. eauto.
Qed.

Lemma is_Some_waiters l th a q i : Rep (Sys l th) a q i -> bool_decide (is_Some (waiters l)) = negb (bool_decide (queue a = [])).
Proof.
  intros [Rq _ _ Rw _ _ _ _ _ _]. cbn [lock threads] in *. destruct (queue a) as [|e Q].
  - apply Forall2_nil_inv_r in Rw as ->. cbn in Rq. by rewrite Rq.
  - apply Forall2_cons_inv_r in Rw as (w & q' & _ & _ & ->). destruct Rq as [-> _]. done.
Qed.

Lemma lock_wp l th a q i t (b ok : bool) :
  Rep (Sys l th) a q i -> good a -> tail l = last_link q -> away (th t) ->
  wp (if b then globus_i_rw_mutex_readlock ok else globus_i_rw_mutex_writelock ok) l (lock_post th l a t b ok).
Proof.
  intros HR HG Ht Haw. pose proof (is_Some_waiters _ _ _ _ _ HR) as Hws. pose proof (r_readers _ _ _ _ HR) as Hrd. pose proof (r_writing _ _ _ _ HR) as Hwr. cbn [lock] in *.
  destruct (away_ok _ _ _ _ _ _ (r_thread _ _ _ _ HR t) Haw) as [Hnh Hnq].
  destruct b; apply wp_bind, wp_get.
  - rewrite Hws, Hwr. destruct (wr a) as [u|] eqn:Ew.
    { apply (lock_queue_wp l th a q i t true ok); try done. unfold spec_lock. rewrite decide_False; [done|]. by intros [? _]; congruence. }
    destruct (bool_decide_reflect (queue a = [])) as [EQ|EQ]; cbn [negb orb bool_decide]; cbv iota.
    2: { apply (lock_queue_wp l th a q i t true ok); try done. unfold spec_lock. rewrite decide_False; [done|]. by intros [_ ?]. }
    apply wp_bind. wset. apply wp_ret. split; [exact (good_lock a t true HG Hnh Hnq)|]. exists q, i. split; [|done]. destruct a as [R W Q]; cbn in Ew, EQ. subst. unfold spec_lock. rewrite decide_True by done.
    eapply Rep_acquire; try done. cbn [readers]. cbn [rd] in Hrd. rewrite Hrd, size_union, size_singleton by (specialize (Hnh true); set_solver).
    cbn [rd]. lia.
  - rewrite Hrd, Hwr. destruct (decide (wr a = None /\ rd a = ∅)) as [[Ew Er]|D].
    + rewrite Ew, Er, size_empty. cbn [Z.of_nat Z.gtb Z.compare orb bool_decide]. apply wp_bind. wset. apply wp_ret. split; [exact (good_lock a t false HG Hnh Hnq)|]. exists q, i. split; [|done]. destruct a as [R W Q]; cbn in Ew, Er. subst.
      unfold spec_lock. rewrite decide_True by done. by eapply Rep_acquire.
    + assert ((Z.of_nat (size (rd a)) >? 0) || bool_decide (is_Some (wr a)) = true) as ->.
      { destruct (wr a); [by rewrite orb_true_r|]. rewrite orb_true_iff. left. rewrite Z.gtb_ltb. apply Z.ltb_lt.
        assert (size (rd a) <> 0)%nat; [|lia]. intros E. apply D. split; [done|]. by apply leibniz_equiv, size_empty_inv. }
      apply (lock_queue_wp l th a q i t false ok); try done. unfold spec_lock. by rewrite decide_False.
Qed.

Lemma unlock_wp l th a q i t (b : bool) x :
  Rep (Sys l th) a q i -> good a -> tail l = last_link q -> th t = Holds b -> away x ->
  wp (if b then globus_i_rw_mutex_readunlock else globus_i_rw_mutex_writeunlock) l (fun _ l' => Full (Sys l' (sets t x th)) (spec_unlock t b a)).
Proof.
  intros HR HG Ht Hth Hx. pose proof (r_thread _ _ _ _ HR t) as Hheld. cbn [threads] in Hheld. rewrite Hth in Hheld. cbn in Hheld.
  assert (good (spec_unlock t b a)) as HG' by (by apply good_unlock).
  enough (forall l1, nodes l1 = nodes l -> waiters l1 = waiters l -> idle l1 = idle l -> fresh l1 = fresh l -> tail l1 = tail l ->
    readers l1 = (if b then readers l - 1 else readers l) -> writing l1 = (if b then writing l else false) ->
    wp globus_i_rw_mutex_signal l1 (fun _ l' => Full (Sys l' (sets t x th)) (spec_unlock t b a))) as H.
  { destruct b; [apply wp_bind, wp_get|]; apply wp_bind; wset; by apply H. }
  intros l1 H1 H2 H3 H4 H5 H6 H7. eapply wp_mono; [eapply signal_wp; [by eapply Rep_release| | | |]|].
  - congruence.
  - destruct b; cbn in *; [|done]. destruct (wr a) eqn:E; [|done]. assert (rd a = ∅) by (apply (g_excl a HG); eauto). set_solver.
  - destruct b; apply (g_nodup a HG).
  - intros u Hu. destruct b; cbn in *; apply (g_apart a HG) in Hu as [? _]; set_solver.
  - cbv beta. intros _ l' (q' & HR' & Ht'). split; [done|]. eauto.
Qed.

(** *** Steps of the system are steps of the specification *)

(** A step of the thread [t]; [n]: whether it gave up the lock. *)
Inductive moves (t : tid) : nat -> spec -> spec -> Prop :=
| moves_stay a : moves t 0 a a
| moves_lock a b : (forall b, ~ held a t b) -> t ∉ (queue a).*1 -> moves t 0 a (spec_lock t b a)
| moves_unlock a b : held a t b -> moves t 1 a (spec_unlock t b a).

Definition releases (s : sys) (t : tid) (x : action) : nat :=
  match threads s t, x with Holds _, Unlock | Holds _, CondWait => 1 | _, _ => 0 end.

Lemma wp_on {A} (m : prog rw_mutex A) s (Q : A -> sys -> Prop) : wp m (lock s) (fun a l => Q a (Sys l (threads s))) -> wp (on m) s Q.
Proof. unfold wp, on. by destruct (m (lock s)) as [[a l]|]. Qed.

Lemma wp_becomes t x s (Q : unit -> sys -> Prop) : Q tt (Sys (lock s) (sets t x (threads s))) -> wp (becomes t x) s Q.
Proof. intros H. by apply wp_bind, wp_get, wp_put. Qed.

Lemma lock_step l th a t (b ok : bool) failed (m : prog rw_mutex outcome) :
  Full (Sys l th) a -> away (th t) -> (ok = false -> failed = th t) -> m = (if b then globus_i_rw_mutex_readlock ok else globus_i_rw_mutex_writelock ok) ->
  wp (r ← on m; after t b r failed) (Sys l th) (fun _ s' => exists a', Full s' a' /\ moves t 0 a a').
Proof.
  intros [HG (q & i & HR & Ht)] Haw Hf ->. cbn [lock] in Ht. apply wp_bind, wp_on. eapply wp_mono; [by apply (lock_wp l th a q i t b ok)|].
  destruct (away_ok _ _ _ _ _ _ (r_thread _ _ _ _ HR t) Haw) as [Hnh Hnq].
  cbv beta. intros r l' Hr. apply wp_becomes. cbn [lock threads]. destruct r as [|w|]; cbn in Hr.
  - exists (spec_lock t b a). split; [done|]. by constructor.
  - exists (spec_lock t b a). split; [done|]. by constructor.
  - destruct Hr as [E ->]. rewrite (Hf E). exists a. split; [|constructor]. split; [done|]. exists q, i. split; [|done]. destruct HR as [Rq Ri Rn Rw Rt Rj Rd Rr Rwr Rf].
    assert (forall u, sets t (th t) th u = th u) as Hs. { intros u. destruct (decide (u = t)) as [->|Hu]; [by rewrite sets_eq|by rewrite sets_ne]. }
    split; cbn [lock threads] in *; try done.
    + eapply Forall2_impl; [done|]. intros w e. by rewrite Hs.
    + intros u. rewrite Hs. apply Rt.
    + intros u v w c d. rewrite !Hs. apply Rj.
    + intros w Hw. destruct (Rd w Hw) as [H|[H|(u & c & H)]]; auto. right. right. exists u, c. by rewrite Hs.
Qed.

Lemma unlock_step l th a t (b : bool) x (m : prog rw_mutex unit) :
  Full (Sys l th) a -> th t = Holds b -> away x -> m = (if b then globus_i_rw_mutex_readunlock else globus_i_rw_mutex_writeunlock) ->
  wp (_ ← on m; becomes t x) (Sys l th) (fun _ s' => exists a', Full s' a' /\ moves t 1 a a').
Proof.
  intros [HG (q & i & HR & Ht)] Hth Hx ->. cbn [lock] in Ht. apply wp_bind, wp_on. eapply wp_mono; [by apply (unlock_wp l th a q i t b x)|].
  cbv beta. intros _ l' HF. apply wp_becomes. exists (spec_unlock t b a). split; [done|]. constructor.
  pose proof (r_thread _ _ _ _ HR t) as Hheld. cbn [threads] in Hheld. by rewrite Hth in Hheld.
Qed.

Lemma perform_wp s a t x : Full s a -> sound x = true -> wp (perform t x) s (fun _ s' => exists a', Full s' a' /\ moves t (releases s t x) a a').
Proof.
  intros HF Hx. destruct s as [l th]. apply wp_bind, wp_get. unfold releases. cbn [threads].
  assert (wp (mret tt : prog sys unit) (Sys l th) (fun _ s' => exists a', Full s' a' /\ moves t 0 a a')) as Hstay by (apply wp_ret; exists a; split; [done|constructor]).
  destruct (th t) as [|w b|b|b] eqn:Eth; destruct x as [ok|ok| | | |ok]; try done; try (by destruct b).
  - apply (lock_step l th a t true ok Out); try done. by left.
  - apply (lock_step l th a t false ok Out); try done. by left.
  - destruct HF as [HG (q & i & HR & Ht)]. pose proof (r_thread _ _ _ _ HR t) as Htt. cbn [threads lock] in *. rewrite Eth in Htt. destruct Htt as (n & Hn & _).
    apply wp_bind, wp_on, (wp_node _ n); [done|]. destruct (acquired n) eqn:En; [|done]. apply wp_bind, wp_on. eapply wp_mono; [by apply (wake_wp l th a q i t w b n)|].
    cbv beta. intros _ l' [Ht' [i' HR']]. apply wp_becomes. exists a. split; [|constructor]. split; [done|]. exists q, i'. split; [done|]. cbn [lock] in *. congruence.
  - destruct b; [apply (unlock_step l th a t true Out)|apply (unlock_step l th a t false Out)]; try done; by left.
  - destruct HF as [HG (q & i & HR & Ht)] eqn:EF. pose proof (r_thread _ _ _ _ HR t) as Hheld. cbn [threads lock] in *. rewrite Eth in Hheld. cbn in Hheld.
    assert ((readers l >? 0) = b) as Eb.
    { pose proof (r_readers _ _ _ _ HR) as Hrd. cbn [lock] in Hrd. rewrite Hrd. destruct b; cbn in Hheld.
      - rewrite Z.gtb_ltb. apply Z.ltb_lt. assert (size (rd a) <> 0)%nat; [|lia]. intros E. apply size_empty_inv in E. set_solver.
      - assert (rd a = ∅) as -> by (apply (g_excl a HG); eauto). by rewrite size_empty. }
    pose proof (unlock_step l th a t b (Parked b) _ HF Eth ltac:(right; eauto) eq_refl) as H. clear EF.
    assert (wp (reading ← on globus_rw_cond_wait; becomes t (Parked reading)) (Sys l th) (fun _ s' => exists a', Full s' a' /\ moves t 1 a a')) as H'; [|by destruct b].
    apply wp_bind, wp_on. apply wp_bind, wp_get. cbv zeta. cbn [lock]. rewrite Eb. apply wp_bind.
    unfold wp, mbind, prog_bind, on in H. cbn [lock] in H. unfold wp at 1. cbn [lock].
    destruct ((if b then globus_i_rw_mutex_readunlock else globus_i_rw_mutex_writeunlock) l) as [[[] l']|]; done.
  - apply (lock_step l th a t b ok (Holds b)); try done; [by right; eauto|]. cbn in Hx. by intros ->.
Qed.

(** Whether a thread has the lock, possibly without having woken up yet, or waits for it. *)
Definition granted (s : sys) (t : tid) : bool :=
  match threads s t with
  | Holds _ => true
  | Queued w _ => match nodes (lock s) !! w with Some n => acquired n | None => false end
  | _ => false
  end.

Definition waiting (s : sys) (t : tid) : bool :=
  match threads s t with Queued _ _ => negb (granted s t) | _ => false end.

Lemma queued_waiting s a t : Full s a -> waiting s t = true <-> t ∈ (queue a).*1.
Proof.
  intros [HG (q & i & HR & _)]. pose proof (r_thread _ _ _ _ HR t) as Ht. unfold waiting, granted. split.
  - intros Hw. destruct (threads s t) as [|w b|b|b]; try done. destruct Ht as (n & Hn & _ & _ & Hc). rewrite Hn in Hw. destruct (acquired n); [done|].
    apply elem_of_zip_r in Hc. apply list_elem_of_fmap. by exists (t, b).
  - intros ([u b] & -> & Hin)%list_elem_of_fmap. cbn [fst] in *. pose proof (r_wait _ _ _ _ HR) as Rw. apply list_elem_of_lookup in Hin as [k Hk].
    destruct (Forall2_lookup_r _ _ _ _ _ Rw Hk) as (w & Hw & Hth). cbn in Hth. rewrite Hth in *. destruct Ht as (n & Hn & _ & _ & Hc). rewrite Hn.
    destruct (acquired n); [|done]. destruct Hc as [Hc _]. destruct Hc. by eapply list_elem_of_lookup_2.
Qed.

Lemma held_granted s a t b : Full s a -> held a t b -> granted s t = true.
Proof.
  intros HF Hh. assert (t ∉ (queue a).*1) as Hq. { intros Hin. destruct HF as [HG _]. destruct (g_apart a HG t Hin). by destruct b. }
  rewrite <- (queued_waiting s a t HF) in Hq. destruct HF as [_ (q & i & HR & _)]. pose proof (r_thread _ _ _ _ HR t) as Ht. unfold waiting in Hq.
  destruct (threads s t) as [|w c|c|c] eqn:E; cbn in Ht.
  - by destruct Ht as [Ht _], (Ht b).
  - by destruct (granted s t).
  - unfold granted. by rewrite E.
  - by destruct Ht as [Ht _], (Ht b).
Qed.

Lemma Full_init : Full init (Spec ∅ None []).
Proof. split; [by apply good_no_queue|]. exists [], []. split; [|done]. split; try done; cbn; try (intros w; rewrite lookup_empty; by intros [? ?]). - constructor. - intros t. split; [|apply not_elem_of_nil]. intros []; cbn; [set_solver|done]. Qed.

Definition all_sound (tr : list (tid * action)) : bool := forallb (fun e => sound e.2) tr.

Lemma trace_wp tr : forall s a, Full s a -> all_sound tr = true -> wp (trace tr) s (fun _ s' => exists a', Full s' a').
Proof.
  induction tr as [|[t x] tr IH]; intros s a HF Hs; [apply wp_ret; eauto|]. cbn in Hs. apply andb_prop in Hs as [Hx Hs].
  eapply wp_step; [by apply (perform_wp s a t x)|]. cbv beta. intros _ s' (a' & HF' & _). by apply (IH s' a').
Qed.

(** *** Destruction *)

Lemma free_idle_wp i : forall n l,
  (length i <= n)%nat -> NoDup i -> forall p, chain (links l) p i ->
  wp (free_idle n p) l (fun _ l' => forall w, nodes l' !! w = if decide (w ∈ i) then None else nodes l !! w).
Proof.
  induction i as [|w i IH]; intros n l Hn Hnd p Hc.
  - cbn in Hc. subst p. assert (free_idle n None = mret tt) as -> by (by destruct n). apply wp_ret. intros w. by rewrite decide_False by apply not_elem_of_nil.
  - destruct Hc as (-> & p' & Hp & Hc). cbn in Hn. destruct n as [|n]; [lia|]. inversion_clear Hnd as [|? ? Hw Hnd']. destruct (links_Some _ _ _ Hp) as (x & Hx & Hpx).
    cbn [free_idle]. apply wp_bind, (wp_node _ x); [done|]. apply wp_bind. apply wp_bind, wp_get, wp_bind, (wp_node _ x); [done|]. apply wp_put.
    eapply wp_mono; [apply IH; [lia|done|]|].
    + rewrite Hpx. eapply chain_frame; [done|]. intros v Hv. unfold links. cbn. rewrite fmap_delete, lookup_delete_ne; [done|]. intros ->. done.
    + cbn. intros _ l' H v. rewrite H. destruct (decide (v = w)) as [->|Hvw].
      * rewrite lookup_delete_eq. rewrite (decide_True (P := w ∈ w :: i)) by set_solver. by case_decide.
      * rewrite lookup_delete_ne by done. destruct (decide (v ∈ i)); [rewrite decide_True by set_solver|rewrite decide_False by set_solver]; done.
Qed.

Lemma destroy_wp s a : Full s a -> (forall t, away (threads s t)) -> wp globus_rw_mutex_destroy (lock s) (fun r l' => r = 0 /\ nodes l' = ∅).
Proof.
  intros [HG (q & i & HR & Ht)] Haw. pose proof HR as [Rq Ri Rn Rw Rt Rj Rd Rr Rwr Rf].
  assert (forall t b, ~ held a t b) as Hno by (intros t; apply (away_ok _ _ _ _ _ _ (Rt t) (Haw t))).
  assert (rd a = ∅) as Er by (apply leibniz_equiv, elem_of_equiv_empty; intros t; apply (Hno t true)).
  assert (wr a = None) as Ew by (destruct (wr a) as [t|] eqn:E; [by destruct (Hno t false)|done]).
  assert (q = []) as ->.
  { destruct q as [|w q]; [done|]. apply Forall2_cons_inv_l in Rw as ([t b] & Q & Hth & _). cbn in Hth. specialize (Haw t). rewrite Hth in Haw. destruct Haw as [|[]]; congruence. }
  apply wp_bind, wp_get. rewrite Rr, Rwr, Er, Ew, size_empty. cbn [Z.of_nat Z.gtb Z.compare orb bool_decide is_Some_dec]. cbv iota.
  apply wp_bind. eapply wp_mono; [apply (free_idle_wp i); [|done|done]|].
  - apply NoDup_bound; [done|]. intros v Hv. destruct (chain_in _ _ _ _ Ri Hv) as [? H]. destruct (links_Some _ _ _ H) as (? & ? & _). eauto.
  - cbv beta. intros _ l' H. apply wp_ret. split; [done|]. apply map_empty. intros w. rewrite H. case_decide as D; [done|].
    destruct (nodes (lock s) !! w) eqn:E; [|done]. destruct (Rd w) as [Hw|[Hw|(t & b & Hw)]]; [eauto|by apply not_elem_of_nil in Hw|done|].
    specialize (Haw t). rewrite Hw in Haw. destruct Haw as [|[]]; congruence.
Qed.

(** C4: However the threads of a program lock, unlock, wait for conditions and wake up, also
    for no reason, and whichever of their allocations outside [globus_rw_cond_wait] fail: no
    call goes wrong; while a thread holds the lock for writing no other holds it; a thread
    waits only while another has the lock or has been given it, so no wake-up is lost; and
    when no thread has to do with the lock any more, its destruction frees every waiter. *)
Theorem rw_mutex_exclusive tr :
  all_sound tr = true ->
  exists s, trace tr init = Ok (tt, s) /\
    (forall t u b, threads s t = Holds false -> threads s u = Holds b -> u = t) /\
    (forall t, waiting s t = true -> exists u, u <> t /\ granted s u = true) /\
    ((forall t, away (threads s t)) -> exists l, globus_rw_mutex_destroy (lock s) = Ok (0, l) /\ nodes l = ∅).
Proof.
  intros Hs. pose proof (trace_wp tr init _ Full_init Hs) as ([] & s & E & a & HF)%wp_Ok. exists s. split; [done|].
  pose proof HF as [HG (q & i & HR & _)]. pose proof (r_thread _ _ _ _ HR) as Rt. split_and!.
  - intros t u b Ht Hu. pose proof (Rt t) as H1. pose proof (Rt u) as H2. rewrite Ht in H1. rewrite Hu in H2. cbn in H1, H2.
    assert (rd a = ∅) by (apply (g_excl a HG); eauto). destruct b; cbn in H2; [set_solver|congruence].
  - intros t Ht. rewrite (queued_waiting s a t HF) in Ht.
    assert (exists u b, held a u b) as (u & b & Hu).
    { destruct (g_busy a HG) as [[u Hu]|Hu]; [by intros Eq; rewrite Eq in Ht; apply not_elem_of_nil in Ht|by exists u, false|].
      apply set_choose_L in Hu as [u Hu]. by exists u, true. }
    exists u. split; [|by eapply held_granted]. intros ->. destruct (g_apart a HG t Ht). by destruct b.
  - intros Haw. pose proof (destroy_wp s a HF Haw) as (r & l & Er & -> & Hl)%wp_Ok. eauto.
Qed.

(** Two writers and a reader; the second writer waits, is given the lock and waits for a
    condition. *)
Definition some_trace : list (tid * action) :=
  [(1, WriteLock true); (2, WriteLock true); (3, ReadLock false); (3, ReadLock true); (1, Unlock); (2, Wake); (2, CondWait);
   (3, Wake); (2, CondWake true); (3, Unlock); (2, Wake)]%positive.

Lemma rw_mutex_exclusive_witness :
  exists s, trace some_trace init = Ok (tt, s) /\ (forall u b, threads s u = Holds b -> u = 2%positive).
Proof.
  destruct (rw_mutex_exclusive some_trace) as (s & E & He & _); [reflexivity|]. exists s. split; [exact E|].
  intros u b. apply He. vm_compute in E. injection E as <-. reflexivity.
Defined.

(** *** Fairness *)

(** How many threads wait in front of the waiter [w]. *)
Fixpoint ahead (n : nat) (m : gmap loc waiter) (p : ptr) (w : loc) : nat :=
  match n, p with
  | S n, Some l => if decide (l = w) then 0 else S (match m !! l with Some x => ahead n m (pnext x) w | None => 0 end)
  | _, _ => 0
  end.

(** The threads that have the lock, and those in front of a waiting one. *)
Definition rank (s : sys) (t : tid) : nat :=
  Z.to_nat (readers (lock s)) + (if writing (lock s) then 1 else 0) +
  match threads s t with Queued w _ => ahead (size (nodes (lock s))) (nodes (lock s)) (waiters (lock s)) w | _ => 0 end.

(** How often the lock is given up in a trace. *)
Fixpoint released (tr : list (tid * action)) (s : sys) : nat :=
  match tr with
  | [] => 0
  | (t, x) :: tr => releases s t x + match perform t x s with Ok (_, s') => released tr s' | Fault _ => 0 end
  end.

Fixpoint index (t : tid) (Q : list (tid * bool)) : nat :=
  match Q with [] => 0 | (u, _) :: Q => if decide (u = t) then 0 else S (index t Q) end.

Definition spec_rank (a : spec) (t : tid) : nat := size (rd a) + (if decide (is_Some (wr a)) then 1 else 0) + index t (queue a).

Lemma index_app t Q e : t ∈ Q.*1 -> index t (Q ++ e) = index t Q.
Proof. induction Q as [|[u b] Q IH]; [by intros ?%not_elem_of_nil|]. cbn. intros [->|H]%elem_of_cons; [by rewrite !decide_True|]. case_decide; [done|]. by rewrite IH. Qed.

Lemma index_skip t ts Q : t ∉ ts -> index t (((fun t => (t, true)) <$> ts) ++ Q) = (length ts + index t Q)%nat.
Proof. induction ts as [|u ts IH]; [done|]. cbn. intros [Hu Ht]%not_elem_of_cons. rewrite decide_False by done. by rewrite IH. Qed.

Lemma rank_lock a t u b : good a -> t ∈ (queue a).*1 -> t ∈ (queue (spec_lock u b a)).*1 /\ spec_rank (spec_lock u b a) t = spec_rank a t.
Proof.
  intros HG Ht. assert (queue a <> []) as Hne by (intros E; rewrite E in Ht; by apply not_elem_of_nil in Ht).
  assert (spec_lock u b a = Spec (rd a) (wr a) (queue a ++ [(u, b)])) as ->.
  { unfold spec_lock. destruct b; rewrite decide_False; try done; [by intros [_ ?]|]. intros [E1 E2]. destruct (g_busy a HG Hne) as [[? ?]|?]; congruence. }
  unfold spec_rank. cbn. rewrite index_app by done. split; [|done]. rewrite fmap_app. set_solver.
Qed.

Lemma rank_unlock a t u b :
  good a -> held a u b -> t ∈ (queue a).*1 -> t ∈ (queue (spec_unlock u b a)).*1 -> (spec_rank (spec_unlock u b a) t + 1 = spec_rank a t)%nat.
Proof.
  intros [Ge Gb Gh Gn Ga] Hh Ht Ht'. unfold spec_unlock, spec_rank in *. destruct a as [R W Q]; cbn [rd wr queue] in *. destruct b; cbn in Hh.
  - assert (W = None) as ->. { destruct W; [|done]. assert (R = ∅) by (apply Ge; eauto). set_solver. }
    assert (size R = S (size (R ∖ {[u]}))) as HsR. { rewrite size_difference, size_singleton by set_solver. assert (size R <> 0)%nat by (intros E; apply size_empty_inv in E; set_solver). lia. }
    destruct Q as [|[v []] Q]; [by apply not_elem_of_nil in Ht|exfalso; eapply Gh; [|done]; set_solver|]. cbn [admit_next queue rd wr] in *. inversion_clear Gn as [|? ? Hv Hnd].
    case_decide as D; cbn [queue rd wr] in *.
    + rewrite HsR, D, size_empty. rewrite (decide_True (P := is_Some (Some v))) by eauto. rewrite (decide_False (P := is_Some None)) by (by intros [? ?]). cbn.
      rewrite decide_False by (intros ->; done). lia.
    + rewrite HsR. lia.
  - assert (R = ∅) as -> by (apply Ge; eauto). subst W. rewrite (decide_True (P := is_Some (Some u))) by eauto.
    destruct (first_readers_spec Q) as (ts & rest & _ & -> & Hr). rewrite fmap_app, fst_readers in Gn. apply NoDup_app in Gn as (N1 & N2 & N3).
    destruct Hr as [->|(v & r & ->)]; destruct ts as [|w ts].
    + by apply not_elem_of_nil in Ht.
    + rewrite admit_readers_eq in Ht' by (auto; by left). by apply not_elem_of_nil in Ht'.
    + cbn [fmap list_fmap app admit_next queue rd] in *. rewrite decide_True in * by done. cbn [queue rd wr] in *. rewrite (decide_True (P := is_Some (Some v))) by eauto.
      inversion_clear N3 as [|? ? Hv Hnd]. cbn. rewrite decide_False by (intros ->; done). lia.
    + rewrite admit_readers_eq in * by (eauto; by left). cbn [queue rd wr] in *. rewrite (decide_False (P := is_Some None)) by (by intros [? ?]).
      rewrite index_skip by (intros Hc; by eapply N2). rewrite union_empty_l_L, size_list_to_set, size_empty by done. lia.
Qed.

Lemma moves_rank u n a a' t :
  good a -> moves u n a a' -> t ∈ (queue a).*1 -> t ∈ (queue a').*1 -> (spec_rank a' t + n = spec_rank a t)%nat.
Proof.
  intros HG Hm Ht Ht'. inversion Hm; subst.
  - lia.
  - destruct (rank_lock a t u b HG Ht) as [_ ->]. lia.
  - by apply rank_unlock.
Qed.

Lemma admit_next_queue a t : t ∈ (queue (admit_next a)).*1 -> t ∈ (queue a).*1.
Proof.
  destruct a as [R W Q]. destruct Q as [|[u []] Q]; [done| |].
  - destruct (first_readers_spec ((u, true) :: Q)) as (ts & rest & E & EQ & _). unfold admit_next. cbn [queue rd wr]. rewrite E, EQ, fmap_app. cbn [queue]. set_solver.
  - cbn [admit_next queue rd]. case_decide; [|done]. cbn [queue]. set_solver.
Qed.

Lemma moves_queue u n a a' t : moves u n a a' -> u <> t -> t ∈ (queue a').*1 -> t ∈ (queue a).*1.
Proof.
  intros Hm Hu Ht. inversion Hm; subst; [done| |].
  - unfold spec_lock in Ht. destruct b; case_decide; cbn [queue] in Ht; try done; rewrite fmap_app in Ht; set_solver.
  - unfold spec_unlock in Ht. apply admit_next_queue in Ht. by destruct b.
Qed.

Lemma rank_pos a t : good a -> t ∈ (queue a).*1 -> (1 <= spec_rank a t)%nat.
Proof.
  intros HG Ht. unfold spec_rank. destruct (g_busy a HG) as [H|H]; [by intros E; rewrite E in Ht; apply not_elem_of_nil in Ht|by rewrite decide_True; [lia|]|].
  assert (size (rd a) <> 0)%nat; [|lia]. intros E. apply H. by apply leibniz_equiv, size_empty_inv.
Qed.

(** Other threads do not touch what a thread is doing. *)
Definition only {A} (u : tid) (m : prog sys A) : Prop := forall s a s' t, m s = Ok (a, s') -> u <> t -> threads s' t = threads s t.

Lemma only_ret {A} u (a : A) : only u (mret a).
Proof. by intros s b s' t [= -> ->]. Qed.

Lemma only_bind {A B} u (m : prog sys A) (k : A -> prog sys B) : only u m -> (forall a, only u (k a)) -> only u (m ≫= k).
Proof. intros Hm Hk s b s' t (a & s1 & E1 & E2)%prog_bind_Ok Hu. rewrite (Hk a s1 b s' t E2 Hu). by eapply Hm. Qed.

Lemma only_on {A} u (m : prog rw_mutex A) : only u (on m).
Proof. intros s a s' t. unfold on. destruct (m (lock s)) as [[x l]|]; [|done]. by intros [= -> <-]. Qed.

Lemma only_becomes u x : only u (becomes u x).
Proof. intros s a s' t E Hu. injection E as _ <-. cbn. by rewrite sets_ne by congruence. Qed.

Lemma only_get u : only u get.
Proof. by intros s a s' t [= -> ->]. Qed.

#[local] Hint Resolve only_ret only_bind only_on only_becomes only_get : gct.

Lemma perform_other u x t s s' : perform u x s = Ok (tt, s') -> u <> t -> threads s' t = threads s t.
Proof.
  enough (only u (perform u x)) as H by apply H. apply only_bind; [apply only_get|]. intros w.
  destruct (threads w u) as [|v b|[]|b], x; unfold after; auto with gct.
  apply only_bind; [apply only_on|]. intros n. destruct (acquired n); auto with gct.
Qed.

Lemma trace_out tr t : forall s a, Full s a -> all_sound tr = true -> Forall (fun e => e.1 <> t) tr -> t ∉ (queue a).*1 ->
  wp (trace tr) s (fun _ s' => threads s' t = threads s t /\ exists a', Full s' a' /\ t ∉ (queue a').*1).
Proof.
  induction tr as [|[u x] tr IH]; intros s a HF Hs Hne Hq; [apply wp_ret; eauto|]. cbn in Hs. apply andb_prop in Hs as [Hx Hs]. inversion_clear Hne as [|? ? Hu Hne'].
  pose proof (perform_wp s a u x HF Hx) as ([] & s1 & E & a1 & HF1 & Hm)%wp_Ok. apply wp_bind. unfold wp at 1. rewrite E.
  eapply wp_mono; [apply (IH s1 a1); try done; by contradict Hq; eapply moves_queue|]. cbv beta. intros _ s' [Ht H]. split; [|done]. rewrite Ht. by eapply perform_other.
Qed.

Lemma trace_fair tr t : forall s a, Full s a -> all_sound tr = true -> Forall (fun e => e.1 <> t) tr -> t ∈ (queue a).*1 ->
  (spec_rank a t <= released tr s)%nat ->
  wp (trace tr) s (fun _ s' => threads s' t = threads s t /\ exists a', Full s' a' /\ t ∉ (queue a').*1).
Proof.
  induction tr as [|[u x] tr IH]; intros s a HF Hs Hne Hq Hr; [pose proof (rank_pos a t (proj1 HF) Hq); cbn in Hr; lia|].
  cbn in Hs. apply andb_prop in Hs as [Hx Hs]. inversion_clear Hne as [|? ? Hu Hne'].
  pose proof (perform_wp s a u x HF Hx) as ([] & s1 & E & a1 & HF1 & Hm)%wp_Ok. apply wp_bind. unfold wp at 1. rewrite E. cbn [released] in Hr. rewrite E in Hr.
  assert (threads s1 t = threads s t) as Hth by (by eapply perform_other).
  eapply (wp_mono _ _ (fun _ s' => threads s' t = threads s1 t /\ exists a', Full s' a' /\ t ∉ (queue a').*1)); [|cbv beta; intros _ s' [H1 H2]; split; [congruence|done]].
  destruct (decide (t ∈ (queue a1).*1)) as [Hin|Hout]; [|by apply (trace_out tr t s1 a1)].
  apply (IH s1 a1); try done. pose proof (moves_rank u _ a a1 t (proj1 HF) Hm Hq Hin). lia.
Qed.

Lemma ahead_index m q : forall n p Q w t b, chain (pnext <$> m) p q -> NoDup q -> NoDup Q.*1 -> (length q <= n)%nat -> (w, (t, b)) ∈ zip q Q -> ahead n m p w = index t Q.
Proof.
  induction q as [|v q IH]; intros n p Q w t b; [by intros _ _ _ _ ?%not_elem_of_nil|]. intros (-> & p' & Hp & Hc) Hnd HQ Hn Hin.
  destruct Q as [|[u c] Q]; [by apply not_elem_of_nil in Hin|]. destruct n as [|n]; [cbn in Hn; lia|]. inversion_clear Hnd as [|? ? Hv Hnd']. inversion_clear HQ as [|? ? Hu HQ'].
  cbn in Hin. apply elem_of_cons in Hin as [E|Hin].
  - injection E as -> -> ->. cbn. by rewrite !decide_True.
  - assert (w ∈ q) by (by eapply elem_of_zip_l). assert (t ∈ Q.*1) by (apply elem_of_zip_r in Hin; apply list_elem_of_fmap; by exists (t, b)).
    cbn. rewrite !decide_False by (intros ->; done). rewrite lookup_fmap, fmap_Some in Hp. destruct Hp as (x & -> & ->). f_equal. cbn in Hn. eapply IH; try done. lia.
Qed.

Lemma rank_spec s a t : Full s a -> waiting s t = true -> rank s t = spec_rank a t.
Proof.
  intros [HG (q & i & HR & _)] Hw. pose proof HR as [Rq _ Rn Rw Rt _ _ Rr Rwr _]. specialize (Rt t). unfold rank, spec_rank, waiting, granted in *.
  destruct (threads s t) as [|w b|b|b]; try done. destruct Rt as (n & Hn & _ & _ & Hc). rewrite Hn in Hw. destruct (acquired n); [done|].
  rewrite Rr, Rwr, Nat2Z.id. f_equal.
  - f_equal. destruct (bool_decide_reflect (is_Some (wr a))); [by rewrite decide_True|by rewrite decide_False].
  - apply NoDup_app in Rn as (Nq & _ & _). eapply ahead_index; try done; [apply (g_nodup a HG)|]. apply NoDup_bound; [done|]. intros v Hv.
    destruct (chain_in _ _ _ _ Rq Hv) as [? H]. destruct (links_Some _ _ _ H) as (? & ? & _). eauto.
Qed.

Lemma wake_holds s a t : Full s a -> granted s t = true -> (forall b, threads s t <> Holds b) -> wp (perform t Wake) s (fun _ s' => exists b, threads s' t = Holds b).
Proof.
  intros [HG (q & i & HR & _)] Hg Hn. unfold granted in Hg. destruct s as [l th]. cbn [threads lock] in *. apply wp_bind, wp_get. cbn [threads]. destruct (th t) as [|w b|b|b] eqn:E; try done.
  - destruct (nodes l !! w) as [n|] eqn:En; [|done]. apply wp_bind, wp_on, (wp_node _ n); [done|]. rewrite Hg. apply wp_bind, wp_on.
    eapply wp_mono; [by apply (wake_wp l th a q i t w b n)|]. cbv beta. intros _ l' _. apply wp_becomes. exists b. cbn. by rewrite sets_eq.
  - by destruct (Hn b).
Qed.

(** C14: Waiting is bounded. Whatever the other threads do, a waiting thread has been given
    the lock after as many releases as there were threads that had the lock or were
    waiting in front of it, and takes it as soon as it wakes up: no thread that arrives
    later overtakes it. *)
Theorem rw_mutex_fair tr tr' s t :
  all_sound tr = true -> all_sound tr' = true -> trace tr init = Ok (tt, s) -> waiting s t = true ->
  Forall (fun e => e.1 <> t) tr' -> (rank s t <= released tr' s)%nat ->
  exists s1 s2 b, trace tr' s = Ok (tt, s1) /\ granted s1 t = true /\ perform t Wake s1 = Ok (tt, s2) /\ threads s2 t = Holds b.
Proof.
  intros Hs Hs' E Hw Hne Hr. pose proof (trace_wp tr init _ Full_init Hs) as ([] & s0 & E0 & a & HF)%wp_Ok. assert (s0 = s) as -> by congruence.
  rewrite (rank_spec s a t HF Hw) in Hr. pose proof (proj1 (queued_waiting s a t HF) Hw) as Hq.
  pose proof (trace_fair tr' t s a HF Hs' Hne Hq Hr) as ([] & s1 & E1 & Hth & a1 & HF1 & Hq1)%wp_Ok.
  assert (exists w b, threads s1 t = Queued w b) as (w & b & Ht). { rewrite Hth. unfold waiting in Hw. destruct (threads s t); eauto; done. }
  assert (granted s1 t = true) as Hg. { rewrite <- (queued_waiting s1 a1 t HF1) in Hq1. unfold waiting in Hq1. rewrite Ht in Hq1. by destruct (granted s1 t). }
  assert (forall c, threads s1 t <> Holds c) as Hn by (intros c; by rewrite Ht).
  pose proof (wake_holds s1 a1 t HF1 Hg Hn) as ([] & s2 & E2 & c & Hc)%wp_Ok. exists s1, s2, c. split_and!; done.
Qed.

(** A writer waits behind a reader and a writer: two releases later it has the lock. *)
Lemma rw_mutex_fair_witness :
  match trace [(1, ReadLock true); (2, WriteLock true); (3, WriteLock true)]%positive init with
  | Ok (_, s) => exists s1 s2 b, trace [(4, ReadLock true); (1, Unlock); (2, Wake); (2, Unlock)]%positive s = Ok (tt, s1) /\ granted s1 3%positive = true /\
      perform 3%positive Wake s1 = Ok (tt, s2) /\ threads s2 3%positive = Holds b
  | Fault _ => False
  end.
Proof.
  destruct (trace [(1, ReadLock true); (2, WriteLock true); (3, WriteLock true)]%positive init) as [[[] s]|] eqn:E; [|vm_compute in E; discriminate E].
  pose proof E as E'. vm_compute in E'. injection E' as Es.
  apply (rw_mutex_fair [(1, ReadLock true); (2, WriteLock true); (3, WriteLock true)]%positive [(4, ReadLock true); (1, Unlock); (2, Wake); (2, Unlock)]%positive s 3%positive);
    [reflexivity|reflexivity|exact E|subst s; reflexivity| |subst s; vm_compute; lia].
  repeat (apply Forall_cons; split; [done|]). apply Forall_nil_2.
Defined.

End RwMutex.
