(* ===== verification/RMutex.v ===== *)
(** * Recursive locks (globus_thread_rmutex.c, globus_thread_rmutex.h)

    A lock has a level (how often its owner has locked it), the owner, and the number of
    threads that wait for its condition variable. The functions are atomic between the
    acquisition of the mutex and its release or the wait on the condition variable;
    [globus_rmutex_lock] is the part before the wait and the part after a wake-up. Levels
    and numbers of threads are below 2^31. The assertions are those of debug builds and
    are left out.

    The threads of a program are a step relation on top of the lock, and the theorem is an
    invariant of its reachable states, by induction on the steps. *)
From stdpp Require Import functions.
From S2P Require Import Prelude.

Module RMutex.

Abbreviation tid := positive (only parsing).

Record rmutex := Rmutex { level : Z; thread_id : option tid; waiting : Z }.

Definition globus_rmutex_init : rmutex := Rmutex 0 None 0.

(** [true]: the lock is taken; [false]: the thread waits for the condition variable. *)
Definition globus_rmutex_lock (self : tid) (m : rmutex) : bool * rmutex :=
  if (level m >? 0) && negb (bool_decide (thread_id m = Some self)) then (false, Rmutex (level m) (thread_id m) (waiting m + 1))
  else (true, Rmutex (level m + 1) (Some self) (waiting m)).

(** After a wake-up. *)
Definition globus_rmutex_lock_woken (self : tid) (m : rmutex) : bool * rmutex :=
  if level m >? 0 then (false, m)
  else (true, Rmutex (level m + 1) (Some self) (waiting m - 1)).

(** [true]: the condition variable is signalled. *)
Definition globus_rmutex_unlock (m : rmutex) : bool * rmutex :=
  if level m >? 0 then
    if level m - 1 =? 0 then (negb (waiting m =? 0), Rmutex 0 None (waiting m))
    else (false, Rmutex (level m - 1) (thread_id m) (waiting m))
  else (false, m).

(** ** Threads

    A thread runs, having locked the lock [n] times more than it has unlocked it, sleeps
    on the condition variable, or has been woken up and not run yet. *)
Inductive thread := Running (n : nat) | Asleep | Woken.

Record sys := Sys { lock : rmutex; threads : tid -> thread }.

(** A signal wakes a sleeping thread if there is one; a thread may also wake up for no
    reason. A thread that does not have the lock may unlock it while nobody has it. *)
Inductive step : sys -> sys -> Prop :=
| step_lock t n m m' th : th t = Running n -> globus_rmutex_lock t m = (true, m') -> step (Sys m th) (Sys m' (<[t := (Running (S n))]> th))
| step_wait t n m m' th : th t = Running n -> globus_rmutex_lock t m = (false, m') -> step (Sys m th) (Sys m' (<[t := Asleep]> th))
| step_spurious t m th : th t = Asleep -> step (Sys m th) (Sys m (<[t := Woken]> th))
| step_woken t m m' th : th t = Woken -> globus_rmutex_lock_woken t m = (true, m') -> step (Sys m th) (Sys m' (<[t := (Running 1)]> th))
| step_again t m m' th : th t = Woken -> globus_rmutex_lock_woken t m = (false, m') -> step (Sys m th) (Sys m' (<[t := Asleep]> th))
| step_unlock t n m m' th : th t = Running (S n) -> globus_rmutex_unlock m = (false, m') -> step (Sys m th) (Sys m' (<[t := (Running n)]> th))
| step_unlock_wake t n u m m' th : th t = Running (S n) -> globus_rmutex_unlock m = (true, m') -> th u = Asleep ->
    step (Sys m th) (Sys m' (<[u := Woken]> (<[t := Running n]> th)))
| step_unlock_nobody t n m m' th : th t = Running (S n) -> globus_rmutex_unlock m = (true, m') -> (forall u, th u <> Asleep) ->
    step (Sys m th) (Sys m' (<[t := (Running n)]> th))
| step_unlock_free t b m m' th : th t = Running 0 -> level m = 0 -> globus_rmutex_unlock m = (b, m') -> step (Sys m th) (Sys m' th).

Definition init : sys := Sys globus_rmutex_init (fun _ => Running 0).

(** ** The invariant *)

Definition depth (x : thread) : nat := match x with Running n => n | _ => 0 end.

Definition waits (x : thread) : Prop := x = Asleep \/ x = Woken.

Record Core (s : sys) : Prop := {
  i_level : 0 <= level (lock s);
  i_owner : forall t, depth (threads s t) <> 0%nat -> thread_id (lock s) = Some t;
  i_depth : forall t, thread_id (lock s) = Some t -> Z.of_nat (depth (threads s t)) = level (lock s) /\ 0 < level (lock s);
  i_free : thread_id (lock s) = None -> level (lock s) = 0;
  i_waiting : exists X : gset tid, (forall t, t ∈ X <-> waits (threads s t)) /\ waiting (lock s) = Z.of_nat (size X) }.

(** Nobody sleeps through the release of the lock. *)
Definition signalled (s : sys) : Prop := level (lock s) = 0 -> forall t, threads s t = Asleep -> exists u, threads s u = Woken.

Definition Inv (s : sys) : Prop := Core s /\ signalled s.

(** The number of waiting threads when one thread changes. *)
Definition counted (n : Z) (f : tid -> thread) : Prop := exists X : gset tid, (forall t, t ∈ X <-> waits (f t)) /\ n = Z.of_nat (size X).

Lemma counted_same n f t x : counted n f -> (waits x <-> waits (f t)) -> counted n (<[t := x]> f).
Proof.
  intros (X & HX & ->) Hx. exists X. split; [|done]. intros u. destruct (decide (t = u)) as [<-|Hu]; [rewrite fn_lookup_insert; by rewrite HX|by rewrite fn_lookup_insert_ne].
Qed.

Lemma counted_more n f t x : counted n f -> waits x -> ~ waits (f t) -> counted (n + 1) (<[t := x]> f).
Proof.
  intros (X & HX & ->) Hx Ht. exists ({[t]} ∪ X). split.
  - intros u. destruct (decide (t = u)) as [<-|Hu]; [rewrite fn_lookup_insert; set_solver|]. rewrite fn_lookup_insert_ne by done. rewrite <- HX. set_solver.
  - rewrite size_union, size_singleton by (rewrite <- HX in Ht; set_solver). lia.
Qed.

Lemma counted_less n f t x : counted n f -> ~ waits x -> waits (f t) -> counted (n - 1) (<[t := x]> f).
Proof.
  intros (X & HX & ->) Hx Ht. exists (X ∖ {[t]}). rewrite <- HX in Ht. split.
  - intros u. destruct (decide (t = u)) as [<-|Hu]; [rewrite fn_lookup_insert; set_solver|]. rewrite fn_lookup_insert_ne by done. rewrite <- HX. set_solver.
  - rewrite size_difference, size_singleton by set_solver. assert (size X <> 0)%nat by (intros E; apply size_empty_inv in E; set_solver). lia.
Qed.

Lemma counted_none f t : counted 0 f -> ~ waits (f t).
Proof. intros (X & HX & E) Ht. assert (size X = 0)%nat as E' by lia. apply size_empty_inv in E'. rewrite <- HX in Ht. set_solver. Qed.

Lemma running_waits n : ~ waits (Running n).
Proof. by intros []. Qed.

#[local] Hint Resolve running_waits : gct.

Lemma unlock_cases m b m' :
  0 < level m -> globus_rmutex_unlock m = (b, m') ->
  waiting m' = waiting m /\
  ((level m = 1 /\ b = negb (waiting m =? 0) /\ level m' = 0 /\ thread_id m' = None) \/ (1 < level m /\ b = false /\ level m' = level m - 1 /\ thread_id m' = thread_id m)).
Proof.
  intros Hl. unfold globus_rmutex_unlock. rewrite Z.gtb_ltb, (proj2 (Z.ltb_lt _ _)) by lia. destruct (Z.eqb_spec (level m - 1) 0) as [E|E]; intros [= <- <-]; cbn; split; auto.
  - left. split_and!; try done; lia.
  - right. split_and!; try done; lia.
Qed.

(** Unlocking, before the signal. *)
Lemma unlock_inv t n m b m' th :
  Core (Sys m th) -> th t = Running (S n) -> globus_rmutex_unlock m = (b, m') ->
  Core (Sys m' (<[t := Running n]> th)) /\ (level m' = 0 -> b = negb (waiting m' =? 0)).
Proof.
  intros [Il Io Id If Iw] Ht E. cbn [lock threads] in *. assert (thread_id m = Some t) as Hid by (apply Io; by rewrite Ht).
  destruct (Id t Hid) as [Hd Hl]. rewrite Ht in Hd. cbn in Hd. destruct (unlock_cases m b m' Hl E) as [Hw Hc].
  assert (forall u, u <> t -> depth (th u) = 0%nat) as Hoth. { intros u Hu. destruct (decide (depth (th u) = 0%nat)) as [|D]; [done|]. apply Io in D. congruence. }
  assert (counted (waiting m') (<[t := Running n]> th)) as Hcount. { rewrite Hw. apply counted_same; [done|]. rewrite Ht. split; intros H; by destruct (running_waits _ H). }
  split; [|intros E0; rewrite Hw; destruct Hc as [(? & ? & _)|(? & ? & ? & _)]; [done|lia]].
  destruct Hc as [(H1 & Hb & H2 & H3)|(H1 & Hb & H2 & H3)]; split; cbn [lock threads]; rewrite ?H2, ?H3; try done; try lia.
  - intros u. destruct (decide (t = u)) as [<-|Hu]; [rewrite fn_lookup_insert; cbn; lia|]. rewrite fn_lookup_insert_ne by done. by rewrite Hoth by congruence.
  - intros u. destruct (decide (t = u)) as [<-|Hu]; [done|]. rewrite fn_lookup_insert_ne by done. by rewrite Hoth by congruence.
  - intros u Eu. assert (u = t) as -> by congruence. rewrite fn_lookup_insert. cbn. lia.
  - intros E1. congruence.
Qed.

(** A thread that neither runs before nor after changes nothing but who sleeps. *)
Lemma Core_sleeper m m' th t x :
  Core (Sys m th) -> waits x -> depth (th t) = 0%nat -> level m' = level m -> thread_id m' = thread_id m ->
  counted (waiting m') (<[t := x]> th) -> Core (Sys m' (<[t := x]> th)).
Proof.
  intros [Il Io Id If Iw] Hx Ht Hl Hid Hc. cbn [lock threads] in *. assert (depth x = 0%nat) as Hx0 by (by destruct Hx as [-> | ->]).
  assert (forall u, depth (<[t := x]> th u) = depth (th u)) as Hd.
  { intros u. destruct (decide (t = u)) as [<-|Hu]; [rewrite fn_lookup_insert; congruence|by rewrite fn_lookup_insert_ne]. }
  split; cbn [lock threads]; rewrite ?Hl, ?Hid; try done.
  - intros u. rewrite Hd. apply Io.
  - intros u. rewrite Hd. apply Id.
Qed.

(** A thread that takes the lock. *)
Lemma Inv_taken m th t k n w :
  Core (Sys m th) -> depth (th t) = n -> (level m = 0 /\ n = 0%nat \/ thread_id m = Some t) -> k = level m + 1 ->
  counted w (<[t := Running (S n)]> th) -> Inv (Sys (Rmutex k (Some t) w) (<[t := Running (S n)]> th)).
Proof.
  intros [Il Io Id If Iw] Ht Hcase -> Hc. cbn [lock threads] in *.
  assert (forall u, u <> t -> depth (th u) = 0%nat) as Hoth.
  { intros u Hu. destruct (decide (depth (th u) = 0%nat)) as [|D]; [done|]. apply Io in D. destruct Hcase as [[E _]|E]; [|congruence]. destruct (Id u D). lia. }
  assert (Z.of_nat n = level m) as Hn. { destruct Hcase as [[-> ->]|E]; [done|]. destruct (Id t E) as [E' _]. by rewrite Ht in E'. }
  split; [|unfold signalled; cbn; lia]. split; cbn [lock threads level thread_id waiting]; try done; try lia.
  - intros u. destruct (decide (t = u)) as [<-|Hu]; [done|]. rewrite fn_lookup_insert_ne by done. by rewrite Hoth by congruence.
  - intros u [= <-]. rewrite fn_lookup_insert. cbn. lia.
Qed.

Lemma woken_signalled m th t : signalled (Sys m (<[t := Woken]> th)).
Proof. intros _ u _. exists t. cbn. apply fn_lookup_insert. Qed.

Lemma busy_signalled m th : 0 < level m -> signalled (Sys m th).
Proof. unfold signalled. cbn. lia. Qed.

Lemma counted_running n f t k : counted n f -> f t = Running k -> forall j, counted n (<[t := Running j]> f).
Proof. intros Hc Ht j. apply counted_same; [done|]. rewrite Ht. split; intros H; by destruct (running_waits _ H). Qed.

Lemma lock_inv t n m b m' th :
  Inv (Sys m th) -> th t = Running n -> globus_rmutex_lock t m = (b, m') -> Inv (Sys m' (<[t := if b then Running (S n) else Asleep]> th)).
Proof.
  intros [HC _] Ht E. pose proof HC as [Il Io Id If Iw]. cbn [lock threads] in *. unfold globus_rmutex_lock in E.
  destruct ((level m >? 0) && _) eqn:C; injection E as <- <-; cbv iota.
  - rewrite Z.gtb_ltb, andb_true_iff, Z.ltb_lt, negb_true_iff, bool_decide_eq_false in C. destruct C as [C1 C2].
    split; [|by apply busy_signalled]. apply (Core_sleeper m); try done; [by left| |cbn; apply counted_more; [done|by left|rewrite Ht; apply running_waits]].
    destruct (decide (depth (th t) = 0%nat)) as [|D]; [done|]. by apply Io in D.
  - apply (Inv_taken m th t); try done; [by rewrite Ht| |by eapply counted_running].
    rewrite Z.gtb_ltb, andb_false_iff, Z.ltb_ge, negb_false_iff, bool_decide_eq_true in C. destruct C as [C|C]; [|by right]. left. split; [lia|].
    destruct n; [done|]. assert (thread_id m = Some t) as H by (apply Io; by rewrite Ht). destruct (Id t H). lia.
Qed.

Lemma woken_inv t m b m' th :
  Inv (Sys m th) -> th t = Woken -> globus_rmutex_lock_woken t m = (b, m') -> Inv (Sys m' (<[t := if b then Running 1 else Asleep]> th)).
Proof.
  intros [HC _] Ht E. pose proof HC as [Il Io Id If Iw]. cbn [lock threads] in *. unfold globus_rmutex_lock_woken in E.
  destruct (level m >? 0) eqn:C; injection E as <- <-; cbv iota; rewrite Z.gtb_ltb in C.
  - apply Z.ltb_lt in C. split; [|by apply busy_signalled]. apply (Core_sleeper m); try done; [by left|by rewrite Ht|].
    apply counted_same; [done|]. rewrite Ht. split; intros _; [by right|by left].
  - apply Z.ltb_ge in C. apply (Inv_taken m th t _ 0); try done; [by rewrite Ht|left; split; [lia|done]|].
    apply counted_less; [done|apply running_waits|]. rewrite Ht. by right.
Qed.

Lemma step_inv s s' : Inv s -> step s s' -> Inv s'.
Proof.
  intros HI Hst. destruct Hst as [t n m m' th Ht E|t n m m' th Ht E|t m th Ht|t m m' th Ht E|t m m' th Ht E|t n m m' th Ht E|t n u m m' th Ht E Hu|t n m m' th Ht E Hu|t b m m' th Ht Hl E].
  - by apply (lock_inv t n m true).
  - by apply (lock_inv t n m false).
  - destruct HI as [HC _]. split; [|apply woken_signalled]. apply (Core_sleeper m); try done; [by right|by rewrite Ht|]. destruct HC as [_ _ _ _ Hw].
    apply counted_same; [done|]. rewrite Ht. split; intros _; [by left|by right].
  - by apply (woken_inv t m true).
  - by apply (woken_inv t m false).
  - destruct (unlock_inv t n m false m' th (proj1 HI) Ht E) as [HC Hb]. split; [done|]. intros Hl u Hu. cbn [lock threads] in *. exfalso. destruct HC as [_ _ _ _ Hw].
    apply (counted_none (<[t := Running n]> th) u); [|by left]. specialize (Hb Hl). destruct (Z.eqb_spec (waiting m') 0) as [E0|]; [|done]. cbn [lock threads] in Hw. by rewrite E0 in Hw.
  - destruct (unlock_inv t n m true m' th (proj1 HI) Ht E) as [HC Hb]. split; [|apply woken_signalled]. assert (t <> u) as Hne by (intros ->; congruence).
    apply (Core_sleeper m'); try done; [by right|by rewrite fn_lookup_insert_ne, Hu|]. destruct HC as [_ _ _ _ Hw]. apply counted_same; [done|].
    rewrite fn_lookup_insert_ne, Hu by done. split; intros _; [by left|by right].
  - destruct (unlock_inv t n m true m' th (proj1 HI) Ht E) as [HC Hb]. split; [done|]. intros _ v Hv. cbn in Hv. exfalso.
    destruct (decide (t = v)) as [<-|Hne]; [by rewrite fn_lookup_insert in Hv|]. rewrite fn_lookup_insert_ne in Hv by done. by destruct (Hu v).
  - unfold globus_rmutex_unlock in E. rewrite Hl in E. cbn in E. by injection E as _ <-.
Qed.

Lemma init_inv : Inv init.
Proof.
  split; [|by intros _ t]. split; cbn; try done. exists ∅. split; [|done]. intros t. split; [set_solver|]. intros H. by destruct (running_waits _ H).
Qed.

Lemma reach_inv s s' : rtc step s s' -> Inv s -> Inv s'.
Proof. induction 1 as [|s1 s2 s3 H _ IH]; [done|]. intros HI. apply IH. by eapply step_inv. Qed.

(** C27: In every reachable state of a program whose threads lock and unlock a recursive lock
    in any order, any number of times and with spurious wake-ups: a thread that has locked
    it is its only holder, and the level is the number of its locks; when nobody holds the
    lock its level is 0; and when the lock is free while a thread sleeps on it, a thread
    has been woken up that will take it, so that no wake-up is lost. *)
Theorem rmutex_exclusive s :
  rtc step init s ->
  (forall t n, threads s t = Running (S n) -> level (lock s) = Z.of_nat (S n) /\ forall u k, threads s u = Running (S k) -> u = t) /\
  ((forall t n, threads s t <> Running (S n)) -> level (lock s) = 0) /\
  (level (lock s) = 0 -> forall t, threads s t = Asleep -> exists u m, threads s u = Woken /\ globus_rmutex_lock_woken u (lock s) = (true, m)).
Proof.
  intros Hr. assert (Inv s) as [[Il Io Id If Iw] Hs]. { by apply (reach_inv init), init_inv. }
  split_and!.
  - intros t n Ht. assert (thread_id (lock s) = Some t) as E by (apply Io; by rewrite Ht). destruct (Id t E) as [H _]. rewrite Ht in H. split; [done|].
    intros u k Hu. assert (thread_id (lock s) = Some u) by (apply Io; by rewrite Hu). congruence.
  - intros Hn. destruct (thread_id (lock s)) as [t|] eqn:E; [|by apply If]. destruct (Id t eq_refl) as [H1 H2]. specialize (Hn t). destruct (threads s t) as [[|n]| |]; cbn in H1; try lia. by destruct (Hn n).
  - intros E t Ht. destruct (Hs E t Ht) as [u Hu]. eexists u, _. split; [done|]. unfold globus_rmutex_lock_woken. by rewrite E.
Qed.

(** Thread 1 locks twice, thread 2 waits, thread 1 unlocks once. *)
Lemma rmutex_exclusive_witness :
  exists s, rtc step init s /\ threads s 2%positive = Asleep /\ level (lock s) = 1.
Proof.
  assert (exists s, rtc step init s /\ threads s 1%positive = Running 1 /\ threads s 2%positive = Asleep) as (s & Hr & H1 & H2).
  { eexists. split; [|split].
    - eapply rtc_l; [apply (step_lock 1%positive 0); reflexivity|]. eapply rtc_l; [apply (step_lock 1%positive 1); reflexivity|].
      eapply rtc_l; [apply (step_wait 2%positive 0); reflexivity|]. eapply rtc_l; [apply (step_unlock 1%positive 1); reflexivity|]. apply rtc_refl.
    - reflexivity.
    - reflexivity. }
  exists s. split; [exact Hr|]. split; [exact H2|]. destruct (rmutex_exclusive s Hr) as (He & _). destruct (He 1%positive 0%nat H1) as [-> _]. reflexivity.
Defined.
End RMutex.
