(* ===== verification/Symboltable.v ===== *)
(** * Symbol tables (common/source/library/globus_symboltable.c)

    A symbol table is a stack of scopes, each a hash table: a symbol is looked up from the
    innermost scope outwards, and inserted and removed in the innermost one. The list of
    scopes is owned by the table and is a list here; the hash tables are those of
    Hashtable.v. [supply] is what the next calls of [globus_memory_init] return.

    [SymbolTable] with [SymbolTableLaws] is what a symbol table promises to its users
    (Rsl.v): it behaves as a stack of association lists as long as there is room. The
    tables of this file are an instance. *)
From S2P Require Import Prelude.
From S2P Require Import Memory.
From S2P Require Import Hashtable.
Local Open Scope Z_scope.

(** ** The interface *)

(** A stack of association lists. *)
Section Env.
Context {K D : Type} (keyeq : K -> K -> bool).

Fixpoint env_find (env : list (list (K * D))) (k : K) : option D :=
  match env with
  | [] => None
  | al :: env => match Hashtable.find keyeq al k with Some d => Some d | None => env_find env k end
  end.

Definition env_insert (env : list (list (K * D))) (k : K) (d : D) : list (list (K * D)) :=
  match env with
  | [] => []
  | al :: env' => match Hashtable.find keyeq al k with Some _ => env | None => ((k, d) :: al) :: env' end
  end.
End Env.

Class SymbolTable (T K D : Type) := {
  st_lookup : T -> K -> result (option D);
  st_insert : T -> K -> D -> result (Z * T);
  st_create_scope : T -> result (Z * T);
  st_remove_scope : T -> result (Z * T);
  st_rep : T -> list (list (K * D)) -> Prop;
  st_room : nat -> T -> Prop }.

(** [st_room n t]: there is memory for [n] more symbols and scopes. *)
Class SymbolTableLaws {T K D : Type} `{SymbolTable T K D} (keyeq : K -> K -> bool) : Prop := {
  st_lookup_law n t env k : st_rep t env -> st_room n t -> st_lookup t k = Ok (env_find keyeq env k);
  st_insert_law n t env k d : st_rep t env -> st_room (S n) t ->
    exists rc t', st_insert t k d = Ok (rc, t') /\ st_rep t' (env_insert keyeq env k d) /\ st_room n t';
  st_create_law n t env : st_rep t env -> st_room (S n) t -> exists t', st_create_scope t = Ok (0, t') /\ st_rep t' ([] :: env) /\ st_room n t';
  st_remove_law n t al env : st_rep t (al :: env) -> st_room n t -> exists t', st_remove_scope t = Ok (0, t') /\ st_rep t' env /\ st_room n t';
  st_room_le n m t : (n <= m)%nat -> st_room m t -> st_room n t }.

Module Symboltable.

Section Defs.
Context {K D Pool : Type} `{NodePool Pool}.
Context (hash_func : K -> Z -> Z) (keyeq_func : K -> K -> bool).

Record symboltable := SymTab { scopes : list (Hashtable.hashtable K D Pool); supply : list Pool }.

Fixpoint lookup_scopes (scope_iter : list (Hashtable.hashtable K D Pool)) (symbol : K) : result (option D) :=
  match scope_iter with
  | [] => Ok None
  | h :: rest =>
      datum ← Hashtable.globus_hashtable_lookup hash_func keyeq_func h symbol;
      match datum with Some d => Ok (Some d) | None => lookup_scopes rest symbol end
  end.

Definition globus_symboltable_lookup (t : symboltable) (symbol : K) : result (option D) := lookup_scopes (scopes t) symbol.

Definition globus_symboltable_insert (t : symboltable) (symbol : K) (datum : D) : result (Z * symboltable) :=
  match scopes t with
  | [] => Ok (1, t)
  | h :: rest =>
      '(rc, h) ← Hashtable.globus_hashtable_insert hash_func keyeq_func h symbol datum;
      Ok (rc, SymTab (h :: rest) (supply t))
  end.

Definition globus_symboltable_remove (t : symboltable) (symbol : K) : result (option D * symboltable) :=
  match scopes t with
  | [] => Ok (None, t)
  | h :: rest =>
      '(d, h) ← Hashtable.globus_hashtable_remove hash_func keyeq_func h symbol;
      Ok (d, SymTab (h :: rest) (supply t))
  end.

(** An allocation that fails trips an assertion. *)
Definition globus_symboltable_create_scope (t : symboltable) : result (Z * symboltable) :=
  match supply t with
  | [] => Fault AssertFail
  | mem :: supply =>
      new_scope ← Hashtable.globus_hashtable_init true (Some mem) 16;
      Ok (0, SymTab (new_scope :: scopes t) supply)
  end.

Definition globus_symboltable_remove_scope (t : symboltable) : result (Z * symboltable) :=
  match scopes t with
  | [] => Ok (1, t)
  | old_scope :: rest =>
      '(err, _, _) ← Hashtable.globus_hashtable_destroy old_scope;
      _ ← c_assert (err =? 0);
      Ok (0, SymTab rest (supply t))
  end.

Definition globus_symboltable_init (supply : list Pool) : Z * symboltable := (0, SymTab [] supply).

Fixpoint destroy_scopes (l : list (Hashtable.hashtable K D Pool)) : result unit :=
  match l with
  | [] => Ok tt
  | old_scope :: rest =>
      '(err, _, _) ← Hashtable.globus_hashtable_destroy old_scope;
      _ ← c_assert (err =? 0);
      destroy_scopes rest
  end.

Definition globus_symboltable_destroy (t : symboltable) : result Z := _ ← destroy_scopes (scopes t); Ok 0.
End Defs.
Arguments symboltable : clear implicits.

(** ** The tables implement the interface *)

Section Laws.
Context {K D Pool : Type} `{NodePoolLaws Pool}.
Context (hash_func : K -> Z -> Z) (keyeq_func : K -> K -> bool) `{!Hashtable.HashKeys hash_func keyeq_func}.
Implicit Types (t : symboltable K D Pool).

(** The pool can provide [n] nodes. *)
Fixpoint pops (n : nat) (p : Pool) : Prop :=
  match n with O => True | S n => exists l p', np_pop p = Ok (Some l, p') /\ pops n p' end.

Lemma pops_le n : forall m p, (n <= m)%nat -> pops m p -> pops n p.
Proof. induction n as [|n IH]; intros [|m] p Hle; cbn; try done; try lia. intros (l & p' & E & Hp). exists l, p'. split; [done|]. apply (IH m); [lia|done]. Qed.

Definition room_in (n : nat) (h : Hashtable.hashtable K D Pool) : Prop :=
  Hashtable.load h + Z.of_nat n <= INT_MAX /\ pops n (Hashtable.memory h).

Definition fresh_pool (n : nat) (p : Pool) : Prop := np_ok p /\ np_live p = ∅ /\ pops n p.

Definition room (n : nat) t : Prop :=
  Z.of_nat n <= INT_MAX /\ Forall (room_in n) (scopes t) /\ (n <= length (supply t))%nat /\ Forall (fresh_pool n) (supply t).

Definition rep t (env : list (list (K * D))) : Prop := Forall2 (Hashtable.represents hash_func keyeq_func) (scopes t) env.

Lemma room_in_le n m h : (n <= m)%nat -> room_in m h -> room_in n h.
Proof. intros Hle [Hl Hp]. split; [lia|]. by apply (pops_le n m). Qed.

Lemma fresh_pool_le n m p : (n <= m)%nat -> fresh_pool m p -> fresh_pool n p.
Proof. intros Hle (Hok & Hlive & Hp). split_and!; try done. by apply (pops_le n m). Qed.

Lemma room_le n m t : (n <= m)%nat -> room m t -> room n t.
Proof.
  intros Hle (Hn & Hs & Hl & Hp). split_and!; [lia| |lia|]; (eapply Forall_impl; [done|]); intros x; [by apply room_in_le|by apply fresh_pool_le].
Qed.

(** An insertion takes at most one node. *)
Lemma insert_room n (h h' : Hashtable.hashtable K D Pool) k d rc :
  room_in (S n) h -> Hashtable.globus_hashtable_insert hash_func keyeq_func h k d = Ok (rc, h') -> room_in n h'.
Proof.
  intros [Hl (l & p & Hp & Hps)]. unfold Hashtable.globus_hashtable_insert. intros (b & _ & E)%result_bind_Ok.
  apply result_bind_Ok in E as ([e|] & _ & E); [injection E as _ <-; split; [lia|]; by apply (pops_le n (S n)); [lia|exists l, p]|].
  rewrite Hp in E. cbn in E. apply result_bind_Ok in E as ([[[es f] lst] blst] & _ & E). apply result_bind_Ok in E as (bs & _ & E).
  apply result_bind_Ok in E as (ld & Hld & E). injection E as _ <-. split; [|done]. cbn. unfold s32 in Hld. case_match; [|done]. injection Hld as <-. lia.
Qed.

Lemma lookup_scopes_spec n l env k :
  Forall2 (Hashtable.represents hash_func keyeq_func) l env -> Forall (room_in n) l -> lookup_scopes hash_func keyeq_func l k = Ok (env_find keyeq_func env k).
Proof.
  intros Hr. induction Hr as [|h al l env Hh _ IH]; intros Hroom; [done|]. inversion_clear Hroom as [|? ? [Hl _] Hroom'].
  destruct (Hashtable.hashtable_step hash_func keyeq_func h al (Hashtable.HLookup k) Hh) as (h' & E & _); [split; [lia|done]|].
  cbn [Hashtable.himpl Hashtable.hspec fst] in E. apply result_bind_Ok in E as (r & E & [= -> _]). cbn. rewrite E. cbn.
  destruct (Hashtable.find keyeq_func al k); [done|]. by apply IH.
Qed.

#[export] Instance symboltable_ops : SymbolTable (symboltable K D Pool) K D := {
  st_lookup := globus_symboltable_lookup hash_func keyeq_func;
  st_insert := globus_symboltable_insert hash_func keyeq_func;
  st_create_scope := globus_symboltable_create_scope;
  st_remove_scope := globus_symboltable_remove_scope;
  st_rep := rep;
  st_room := room }.

(** What [hashtable_destroy_correct] says of one table, as a fact on the status. *)
Lemma destroy_status (h : Hashtable.hashtable K D Pool) al :
  Hashtable.represents hash_func keyeq_func h al -> exists es mem, Hashtable.globus_hashtable_destroy h = Ok (GLOBUS_SUCCESS, es, mem).
Proof. intros Hh. destruct (Hashtable.hashtable_destroy_correct hash_func keyeq_func h al Hh) as (ds & mem & E & _). eauto. Qed.

#[export] Instance symboltable_laws : SymbolTableLaws (T := symboltable K D Pool) keyeq_func.
Proof.
  split.
  - intros n t env k Hr (_ & Hroom & _). by eapply lookup_scopes_spec.
  - intros n t env k d Hr (Hn & Hroom & Hlen & Hsup). cbn [st_insert st_rep st_room symboltable_ops] in *. unfold globus_symboltable_insert, rep, room in *.
    destruct (scopes t) as [|h l] eqn:Es.
    + apply Forall2_nil_inv_l in Hr as ->. exists 1, t. rewrite Es. split_and!; try done; try lia. eapply Forall_impl; [done|]. intros ?. apply fresh_pool_le. lia.
    + apply Forall2_cons_inv_l in Hr as (al & env' & Hh & Hr & ->). inversion_clear Hroom as [|? ? Hrh Hrl]. pose proof Hrh as [Hl (p & mem & Hp & _)].
      destruct (Hashtable.hashtable_step hash_func keyeq_func h al (Hashtable.HInsert k d) Hh) as (h' & E & Hh'); [split; [lia|]; split; [lia|eauto]|].
      cbn [Hashtable.himpl] in E. apply result_bind_Ok in E as ([rc h''] & E & [= Erc ->]). exists rc, (SymTab (h' :: l) (supply t)). rewrite E. split; [done|]. cbn. split.
      * destruct (Hashtable.find keyeq_func al k) eqn:Ef; cbn [Hashtable.hspec] in Hh'; rewrite Ef in Hh'; by constructor.
      * split_and!; [lia| |lia|eapply Forall_impl; [done|]; intros ?; apply fresh_pool_le; lia]. constructor; [by eapply insert_room|].
        eapply Forall_impl; [done|]. intros ?. apply room_in_le. lia.
  - intros n t env Hr (Hn & Hroom & Hlen & Hsup). cbn [st_create_scope st_rep st_room symboltable_ops] in *. unfold globus_symboltable_create_scope, rep, room in *.
    destruct (supply t) as [|p ps] eqn:Es; [cbn in Hlen; lia|]. inversion_clear Hsup as [|? ? (Hok & Hlive & Hps) Hsup'].
    destruct (Hashtable.empty_represents (D := D) hash_func keyeq_func p 16) as (h & E & Hh); [unfold INT_MAX; lia|done|done|].
    exists (SymTab (h :: scopes t) ps). rewrite E. split; [done|]. cbn. split; [by constructor|]. cbn in Hlen. injection E as <-. split_and!; [lia| |lia|].
    + constructor; [split; cbn; [lia|]; by apply (pops_le n (S n)); [lia|]|]. eapply Forall_impl; [done|]. intros ?. apply room_in_le. lia.
    + eapply Forall_impl; [done|]. intros ?. apply fresh_pool_le. lia.
  - intros n t al env Hr (Hn & Hroom & Hlen & Hsup). cbn [st_remove_scope st_rep st_room symboltable_ops] in *. unfold globus_symboltable_remove_scope, rep, room in *.
    apply Forall2_cons_inv_r in Hr as (h & l & Hh & Hr & El). rewrite El in *. destruct (destroy_status h al Hh) as (es & mem & E).
    exists (SymTab l (supply t)). rewrite E. cbn. split_and!; try done. by inversion Hroom.
  - intros n m t. apply room_le.
Qed.

(** Removal concerns the innermost scope only. *)
Lemma symboltable_remove_correct t al env k n :
  rep t (al :: env) -> room n t ->
  exists t', globus_symboltable_remove hash_func keyeq_func t k = Ok (Hashtable.find keyeq_func al k, t') /\ rep t' (Hashtable.without keyeq_func al k :: env).
Proof.
  intros Hr (_ & Hroom & _). unfold globus_symboltable_remove, rep in *. apply Forall2_cons_inv_r in Hr as (h & l & Hh & Hr & El). rewrite El in *.
  inversion_clear Hroom as [|? ? [Hl _] _].
  destruct (Hashtable.hashtable_step hash_func keyeq_func h al (Hashtable.HRemove k) Hh) as (h' & E & Hh'); [split; [lia|done]|].
  cbn [Hashtable.himpl Hashtable.hspec fst snd] in *. apply result_bind_Ok in E as ([r h''] & E & [= -> ->]). rewrite E. cbn. eexists. split; [done|]. by constructor.
Qed.

Lemma destroy_scopes_ok (l : list (Hashtable.hashtable K D Pool)) env : Forall2 (Hashtable.represents hash_func keyeq_func) l env -> destroy_scopes l = Ok tt.
Proof. induction 1 as [|h al l env Hh _ IH]; [done|]. cbn [destroy_scopes]. destruct (destroy_status h al Hh) as (es & mem & ->). exact IH. Qed.

Lemma symboltable_destroy_correct t env : rep t env -> globus_symboltable_destroy t = Ok 0.
Proof. unfold rep, globus_symboltable_destroy. intros Hr. by rewrite (destroy_scopes_ok _ _ Hr). Qed.
End Laws.
End Symboltable.
