(* ===== verification/Rsl.v ===== *)
(** * Job descriptions: syntax trees (gram/rsl/source/globus_rsl.c, globus_rsl.h,
    globus_rsl_assist.c)

    A description in the resource specification language is a tree of boolean nodes over
    relations, whose values are literals, sequences, references to variables, and
    concatenations. A value that is NULL is [None] where the code allows it. Evaluation
    changes the tree in place: here it returns the changed tree, also when it fails. It is
    proved against the interface of symbol tables (Symboltable.v). Nodes and strings are
    allocated without failures.

    [expand] and [substitute] say what evaluation means. Parsing is in RslScan.v, RslYacc.v and
    RslComplete.v, printing in RslUnparse.v, and the lookup of attributes in RslOps.v. *)
From S2P Require Import Prelude.
From S2P Require Import Chars.
From S2P Require Import Memory.
From S2P Require Import Hashtable.
From S2P Require Import Symboltable.
Local Open Scope Z_scope.

Module Rsl.

Abbreviation str := (list Z) (only parsing).

Inductive rsl_value :=
| VLiteral (string : option str)
| VSequence (value_list : list rsl_value)
| VVariable (sequence : rsl_value)
| VConcatenation (left_value right_value : option rsl_value).

Inductive rsl :=
| Boolean (my_operator : Z) (operand_list : list rsl)
| Relation (my_operator : Z) (attribute_name : str) (value_sequence : rsl_value).

Definition GLOBUS_RSL_EQ : Z := 1.
Definition GLOBUS_RSL_NEQ : Z := 2.
Definition GLOBUS_RSL_GT : Z := 3.
Definition GLOBUS_RSL_GTEQ : Z := 4.
Definition GLOBUS_RSL_LT : Z := 5.
Definition GLOBUS_RSL_LTEQ : Z := 6.
Definition GLOBUS_RSL_AND : Z := 8.
Definition GLOBUS_RSL_OR : Z := 9.
Definition GLOBUS_RSL_MULTIREQ : Z := 10.

(** ** Predicates and accessors *)

Definition globus_rsl_is_relation (ast : rsl) : bool := match ast with Relation _ _ _ => true | _ => false end.
Definition globus_rsl_is_boolean (ast : rsl) : bool := match ast with Boolean _ _ => true | _ => false end.
Definition globus_rsl_is_boolean_multi (ast : rsl) : bool :=
  match ast with Boolean op _ => op =? GLOBUS_RSL_MULTIREQ | _ => false end.
Definition globus_rsl_is_relation_attribute_equal (ast : rsl) (attribute : str) : bool :=
  match ast with Relation _ a _ => strcaseeq a attribute | _ => false end.

Definition globus_rsl_value_is_sequence (v : rsl_value) : bool := match v with VSequence _ => true | _ => false end.

Definition globus_rsl_value_sequence_get_value_list (v : rsl_value) : list rsl_value :=
  match v with VSequence l => l | _ => [] end.

Definition globus_rsl_value_literal_get_string (v : rsl_value) : option str := match v with VLiteral s => s | _ => None end.

Definition globus_rsl_value_variable_get_size (v : rsl_value) : Z :=
  match v with VVariable s => Z.of_nat (length (globus_rsl_value_sequence_get_value_list s)) | _ => -1 end.

(** [globus_list_first] asserts that there is a first element. *)
Definition globus_rsl_value_variable_get_name (v : rsl_value) : result (option str) :=
  match v with
  | VVariable s => x ← deref (head (globus_rsl_value_sequence_get_value_list s)); Ok (globus_rsl_value_literal_get_string x)
  | _ => Ok None
  end.

Definition globus_rsl_value_variable_get_default (v : rsl_value) : result (option str) :=
  match v with
  | VVariable s =>
      if globus_rsl_value_variable_get_size v >? 1 then
        x ← deref (head (tail (globus_rsl_value_sequence_get_value_list s))); Ok (globus_rsl_value_literal_get_string x)
      else Ok None
  | _ => Ok None
  end.

(** ** Evaluation *)

Section Eval.
Context {T : Type} `{SymbolTable T str str}.

(** The status, the node after the call, [*string_value], and the symbol table. *)
Abbreviation outcome := (result (Z * rsl_value * option str * T)) (only parsing).

Definition insert_symbol (name value : option str) (t : T) : result (Z * T) :=
  match name, value with
  | Some name, Some value => '(_, t) ← st_insert t name value; Ok (GLOBUS_SUCCESS, t)
  | _, _ => Ok (1, t)
  end.

Fixpoint globus_rsl_value_eval (ast_node : rsl_value) (t : T) (rsl_substitution_flag : bool) {struct ast_node} : outcome :=
  match ast_node with
  | VLiteral s => Ok (GLOBUS_SUCCESS, ast_node, s, t)
  | VSequence l =>
      if rsl_substitution_flag then
        match l with
        | [a; b] =>
            '(rc, a, symbol_name, t) ← globus_rsl_value_eval a t rsl_substitution_flag;
            if negb (rc =? 0) then Ok (1, VSequence [a; b], None, t)
            else
              '(rc, b, symbol_value, t) ← globus_rsl_value_eval b t rsl_substitution_flag;
              if negb (rc =? 0) then Ok (1, VSequence [VLiteral symbol_name; b], None, t)
              else
                '(rc, t) ← insert_symbol symbol_name symbol_value t;
                Ok (rc, VSequence [VLiteral symbol_name; VLiteral symbol_value], None, t)
        | _ => Ok (1, ast_node, None, t)
        end
      else
        '(rc, l, t) ←
          (fix loop (l : list rsl_value) (t : T) : result (Z * list rsl_value * T) :=
             match l with
             | [] => Ok (GLOBUS_SUCCESS, [], t)
             | v :: l =>
                 '(rc, v, s, t) ← globus_rsl_value_eval v t rsl_substitution_flag;
                 if rc =? GLOBUS_SUCCESS then
                   '(rc, l, t) ← loop l t;
                   Ok (rc, (if globus_rsl_value_is_sequence v then v else VLiteral s) :: l, t)
                 else Ok (1, v :: l, t)
             end) l t;
        Ok (rc, VSequence l, None, t)
  | VVariable _ =>
      if negb (globus_rsl_value_variable_get_size ast_node =? 1) then Ok (1, ast_node, None, t)
      else
        name ← globus_rsl_value_variable_get_name ast_node;
        match name with
        | None => Ok (1, ast_node, None, t)
        | Some name =>
            s ← st_lookup t name;
            match s with None => Ok (1, ast_node, None, t) | Some s => Ok (GLOBUS_SUCCESS, ast_node, Some s, t) end
        end
  | VConcatenation None r => Ok (1, ast_node, None, t)
  | VConcatenation (Some l) r =>
      '(rc, l, lstring, t) ← globus_rsl_value_eval l t rsl_substitution_flag;
      if negb (rc =? GLOBUS_SUCCESS) then Ok (1, VConcatenation (Some l) r, None, t)
      else
        match r with
        | None => Ok (1, VConcatenation (Some l) None, None, t)
        | Some r =>
            '(rc, r, rstring, t) ← globus_rsl_value_eval r t rsl_substitution_flag;
            if negb (rc =? GLOBUS_SUCCESS) then Ok (1, VConcatenation (Some l) (Some r), None, t)
            else
              match lstring, rstring with
              | Some ls, Some rs => Ok (GLOBUS_SUCCESS, VConcatenation None None, Some (ls ++ rs), t)
              | _, _ => Ok (1, VConcatenation (Some l) (Some r), None, t)
              end
        end
  end.

(** The loop over the values of a relation. *)
Fixpoint eval_values (l : list rsl_value) (t : T) (rsl_substitution_flag : bool) : result (Z * list rsl_value * T) :=
  match l with
  | [] => Ok (0, [], t)
  | v :: l =>
      if rsl_substitution_flag && negb (globus_rsl_value_is_sequence v) then Ok (1, v :: l, t)
      else
        '(rc, v, s, t) ← globus_rsl_value_eval v t rsl_substitution_flag;
        if rc =? GLOBUS_SUCCESS then
          '(rc, l, t) ← eval_values l t rsl_substitution_flag;
          Ok (rc, (match s with Some _ => VLiteral s | None => v end) :: l, t)
        else Ok (1, v :: l, t)
  end.

Definition set_value_list (v : rsl_value) (l : list rsl_value) : rsl_value := match v with VSequence _ => VSequence l | _ => v end.

Fixpoint globus_rsl_eval (ast_node : rsl) (t : T) {struct ast_node} : result (Z * rsl * T) :=
  match ast_node with
  | Boolean op l =>
      '(_, t) ← st_create_scope t;
      '(rc, l, t) ←
        (fix loop (l : list rsl) (t : T) : result (Z * list rsl * T) :=
           match l with
           | [] => Ok (0, [], t)
           | r :: l =>
               '(rc, r, t) ← globus_rsl_eval r t;
               if negb (rc =? GLOBUS_SUCCESS) then Ok (1, r :: l, t)
               else '(rc, l, t) ← loop l t; Ok (rc, r :: l, t)
           end) l t;
      if negb (rc =? 0) then Ok (1, Boolean op l, t)
      else '(_, t) ← st_remove_scope t; Ok (0, Boolean op l, t)
  | Relation op a v =>
      let flag := globus_rsl_is_relation_attribute_equal ast_node (codes "rsl_substitution") ||
                  globus_rsl_is_relation_attribute_equal ast_node (codes "rslsubstitution") in
      '(rc, l, t) ← eval_values (globus_rsl_value_sequence_get_value_list v) t flag;
      Ok (rc, Relation op a (set_value_list v l), t)
  end.
End Eval.

(** ** Induction over the trees *)

Section Induction.
Context (P : rsl_value -> Prop).
Context (P_lit : forall s, P (VLiteral s)) (P_seq : forall l, Forall P l -> P (VSequence l)) (P_var : forall v, P v -> P (VVariable v)).
Context (P_cat : forall l r, (forall v, l = Some v -> P v) -> (forall v, r = Some v -> P v) -> P (VConcatenation l r)).

Fixpoint value_ind (v : rsl_value) : P v :=
  match v with
  | VLiteral s => P_lit s
  | VSequence l => P_seq l ((fix go l : Forall P l := match l with [] => Forall_nil_2 P | x :: l => Forall_cons_2 P x l (value_ind x) (go l) end) l)
  | VVariable v => P_var v (value_ind v)
  | VConcatenation l r =>
      P_cat l r
        (match l as o return forall v, o = Some v -> P v with
         | Some x => fun v E => eq_ind x P (value_ind x) v (f_equal (default x) E)
         | None => fun v E => match eq_ind None (fun o => match o with Some _ => False | None => True end) I (Some v) E with end
         end)
        (match r as o return forall v, o = Some v -> P v with
         | Some x => fun v E => eq_ind x P (value_ind x) v (f_equal (default x) E)
         | None => fun v E => match eq_ind None (fun o => match o with Some _ => False | None => True end) I (Some v) E with end
         end)
  end.
End Induction.

Section InductionRsl.
Context (P : rsl -> Prop).
Context (P_bool : forall op l, Forall P l -> P (Boolean op l)) (P_rel : forall op a v, P (Relation op a v)).

Fixpoint tree_ind (r : rsl) : P r :=
  match r with
  | Boolean op l => P_bool op l ((fix go l : Forall P l := match l with [] => Forall_nil_2 P | x :: l => Forall_cons_2 P x l (tree_ind x) (go l) end) l)
  | Relation op a v => P_rel op a v
  end.
End InductionRsl.

(** ** What evaluation means

    An environment is a stack of scopes. [text]: the string of a value that is not a
    sequence; [expand]: a value with variables and concatenations replaced; [substitute]:
    a description, with the environment that its definitions leave. *)
Abbreviation env := (list (list (str * str))) (only parsing).
Abbreviation keyeq := Hashtable.globus_hashtable_string_keyeq (only parsing).

Fixpoint text (e : env) (v : rsl_value) : option str :=
  match v with
  | VLiteral s => s
  | VVariable (VSequence [VLiteral (Some name)]) => env_find keyeq e name
  | VConcatenation (Some l) (Some r) => a ← text e l; b ← text e r; Some (a ++ b)
  | _ => None
  end.

Fixpoint expand (e : env) (v : rsl_value) : option rsl_value :=
  match v with
  | VLiteral s => Some (VLiteral s)
  | VSequence l => VSequence <$> mapM (expand e) l
  | _ => (fun s => VLiteral (Some s)) <$> text e v
  end.

(** A definition: a pair of a name and a value. The first definition of a name in a scope
    counts. *)
Definition define (e : env) (v : rsl_value) : option (rsl_value * env) :=
  match v with
  | VSequence [a; b] =>
      name ← text e a; value ← text e b;
      Some (VSequence [VLiteral (Some name); VLiteral (Some value)], env_insert keyeq e name value)
  | _ => None
  end.

Fixpoint define_all (e : env) (l : list rsl_value) : option (list rsl_value * env) :=
  match l with
  | [] => Some ([], e)
  | v :: l => '(v, e) ← define e v; '(l, e) ← define_all e l; Some (v :: l, e)
  end.

Definition is_substitution (a : str) : bool := strcaseeq a (codes "rsl_substitution") || strcaseeq a (codes "rslsubstitution").

Fixpoint substitute (e : env) (r : rsl) {struct r} : option (rsl * env) :=
  match r with
  | Boolean op l =>
      l ← (fix all (e : env) (l : list rsl) {struct l} : option (list rsl) :=
             match l with
             | [] => Some []
             | r :: l => '(r, e) ← substitute e r; l ← all e l; Some (r :: l)
             end) ([] :: e) l;
      Some (Boolean op l, e)
  | Relation op a (VSequence l) =>
      if is_substitution a then '(l, e) ← define_all e l; Some (Relation op a (VSequence l), e)
      else l ← mapM (expand e) l; Some (Relation op a (VSequence l), e)
  | Relation op a v => Some (Relation op a v, e)
  end.

(** The number of sequences that may be definitions. *)
Fixpoint weight (v : rsl_value) : nat :=
  match v with
  | VLiteral _ => 0%nat
  | VSequence l => S (sum_list_with weight l)
  | VVariable _ => 0%nat
  | VConcatenation l r => (from_option weight 0 l + from_option weight 0 r)%nat
  end.

Fixpoint rsl_weight (r : rsl) : nat :=
  match r with
  | Boolean _ l => S (sum_list_with rsl_weight l)
  | Relation _ _ v => sum_list_with weight (globus_rsl_value_sequence_get_value_list v)
  end.

Fixpoint substitute_all (e : env) (l : list rsl) : option (list rsl) :=
  match l with
  | [] => Some []
  | r :: l => '(r, e) ← substitute e r; l ← substitute_all e l; Some (r :: l)
  end.

Lemma substitute_Boolean e op l : substitute e (Boolean op l) = (l ← substitute_all ([] :: e) l; Some (Boolean op l, e)).
Proof. done. Qed.

(** ** Evaluation is substitution *)

Section EvalCorrect.
Context {T : Type} `{SymbolTableLaws T str str (keyeq := Hashtable.globus_hashtable_string_keyeq)}.

(** The loops of the two functions, named. *)
Fixpoint eval_sequence (l : list rsl_value) (t : T) : result (Z * list rsl_value * T) :=
  match l with
  | [] => Ok (GLOBUS_SUCCESS, [], t)
  | v :: l =>
      '(rc, v, s, t) ← globus_rsl_value_eval v t false;
      if rc =? GLOBUS_SUCCESS then
        '(rc, l, t) ← eval_sequence l t;
        Ok (rc, (if globus_rsl_value_is_sequence v then v else VLiteral s) :: l, t)
      else Ok (1, v :: l, t)
  end.

Lemma value_eval_sequence l t : globus_rsl_value_eval (VSequence l) t false = ('(rc, l, t) ← eval_sequence l t; Ok (rc, VSequence l, None, t)).
Proof. done. Qed.

Fixpoint eval_operands (l : list rsl) (t : T) : result (Z * list rsl * T) :=
  match l with
  | [] => Ok (0, [], t)
  | r :: l =>
      '(rc, r, t) ← globus_rsl_eval r t;
      if negb (rc =? GLOBUS_SUCCESS) then Ok (1, r :: l, t)
      else '(rc, l, t) ← eval_operands l t; Ok (rc, r :: l, t)
  end.

Lemma eval_Boolean op l t :
  globus_rsl_eval (Boolean op l) t =
  ('(_, t) ← st_create_scope t; '(rc, l, t) ← eval_operands l t;
   if negb (rc =? 0) then Ok (1, Boolean op l, t) else '(_, t) ← st_remove_scope t; Ok (0, Boolean op l, t)).
Proof. done. Qed.

(** The string that the evaluation of a value gives. *)
Definition gives_text (e : env) (v : rsl_value) (rc : Z) (s : option str) : Prop :=
  match text e v with Some x => rc = 0 /\ s = Some x | None => (rc = 0 /\ s = None) \/ rc = 1 end.

(** What the evaluation of a value gives when no definitions are made. *)
Definition expands (e : env) (v : rsl_value) (rc : Z) (v' : rsl_value) (s : option str) : Prop :=
  match expand e v with
  | None => rc = 1
  | Some w => rc = 0 /\ globus_rsl_value_is_sequence v' = globus_rsl_value_is_sequence v /\
              if globus_rsl_value_is_sequence v then v' = w /\ s = None else w = VLiteral s /\ (s = None -> v' = w)
  end /\
  gives_text e v rc s.

Lemma eval_sequence_correct e t l :
  Forall (fun v => exists rc v' s, globus_rsl_value_eval v t false = Ok (rc, v', s, t) /\ expands e v rc v' s) l ->
  exists rc l', eval_sequence l t = Ok (rc, l', t) /\ match mapM (expand e) l with Some w => rc = 0 /\ l' = w | None => rc = 1 end.
Proof.
  induction 1 as [|v l (rc & v' & s & E & [He _]) _ (rc2 & l' & El & Hl)]; [by exists 0, []|].
  cbn [eval_sequence mapM]. rewrite E. cbn. destruct (expand e v) as [w|]; cbn in *; [|subst rc; by eexists _, _].
  destruct He as (-> & Hs & Hw). cbn. rewrite El. cbn. eexists _, _. split; [done|].
  destruct (mapM (expand e) l) as [ws|]; cbn; [|done]. destruct Hl as [-> ->]. split; [done|]. rewrite Hs. destruct (globus_rsl_value_is_sequence v); naive_solver.
Qed.

Lemma eval_variable n e t v flag :
  st_rep t e -> st_room n t ->
  globus_rsl_value_eval (VVariable v) t flag = Ok (match text e (VVariable v) with Some s => (0, VVariable v, Some s, t) | None => (1, VVariable v, None, t) end).
Proof.
  intros Hr Hn. destruct v as [s|l|v|l r]; try done. destruct l as [|x [|y l]]; [done| |].
  - cbn. destruct x as [[s|]| | |]; try done. cbn. rewrite (st_lookup_law n t e s Hr Hn). cbn. by destruct (env_find keyeq e s).
  - cbn -[Z.eqb Z.of_nat]. rewrite (proj2 (Z.eqb_neq _ 1)) by lia. by destruct x as [[s|]| | |].
Qed.


Lemma eval_concatenation e e1 l r t flag rc1 l' s1 t1 rc2 r' s2 t2 :
  globus_rsl_value_eval l t flag = Ok (rc1, l', s1, t1) -> gives_text e l rc1 s1 -> (text e l <> None -> e1 = e) ->
  globus_rsl_value_eval r t1 flag = Ok (rc2, r', s2, t2) -> gives_text e1 r rc2 s2 ->
  exists rc v' s t', globus_rsl_value_eval (VConcatenation (Some l) (Some r)) t flag = Ok (rc, v', s, t') /\
    (t' = t1 \/ t' = t2) /\ globus_rsl_value_is_sequence v' = false /\
    match text e (VConcatenation (Some l) (Some r)) with Some x => rc = 0 /\ s = Some x /\ t' = t2 | None => rc = 1 end.
Proof.
  intros El Hl He Er Hr. cbn. rewrite El. cbn. unfold gives_text in *. destruct (text e l) as [x|]; cbn.
  - rewrite He in Hr by done. destruct Hl as [-> ->]. cbn. rewrite Er. cbn. destruct (text e r) as [y|]; cbn.
    + destruct Hr as [-> ->]. cbn. (eexists _, _, _, _; split; [done|]; naive_solver).
    + destruct Hr as [[-> ->]| -> ]; cbn; (eexists _, _, _, _; split; [done|]; naive_solver).
  - destruct Hl as [[-> ->]| -> ]; cbn; [|(eexists _, _, _, _; split; [done|]; naive_solver)]. rewrite Er. cbn. destruct (negb (rc2 =? GLOBUS_SUCCESS)); cbn; (eexists _, _, _, _; split; [done|]; naive_solver).
Qed.

Lemma value_eval_expands n e t v :
  st_rep t e -> st_room n t -> exists rc v' s, globus_rsl_value_eval v t false = Ok (rc, v', s, t) /\ expands e v rc v' s.
Proof.
  intros Hr Hn. induction v as [s|l IH|v _|l r IHl IHr] using value_ind.
  - eexists _, _, _. split; [done|]. split; [done|]. destruct s; [done|by left].
  - destruct (eval_sequence_correct e t l IH) as (rc & l' & E & Hl). rewrite value_eval_sequence, E. cbn. eexists _, _, _. split; [done|].
    unfold expands, gives_text. cbn. destruct (mapM (expand e) l); naive_solver.
  - rewrite (eval_variable n e t v false Hr Hn). unfold expands, gives_text. cbn [expand]. destruct (text e (VVariable v)); eexists _, _, _; (split; [done|]); naive_solver.
  - destruct l as [l|]; [|eexists _, _, _; unfold expands, gives_text; cbn; naive_solver]. destruct (IHl l eq_refl) as (rc & l' & s & E & [_ Hl]).
    destruct r as [r|].
    2:{ cbn. rewrite E. cbn. unfold expands, gives_text. cbn. destruct (negb (rc =? GLOBUS_SUCCESS)); eexists _, _, _; (split; [done|]); naive_solver. }
    destruct (IHr r eq_refl) as (rc2 & r' & s2 & E2 & [_ H2]).
    destruct (eval_concatenation e e l r t false rc l' s t rc2 r' s2 t E Hl ltac:(done) E2 H2) as (rc3 & v' & s3 & t' & E3 & Ht & Hv & H3).
    replace t' with t in E3 by naive_solver. exists rc3, v', s3. split; [done|]. unfold expands, gives_text. cbn [expand]. destruct (text e _); naive_solver.
Qed.

(** What the evaluation of a value gives when definitions are made. *)
Definition defines (v : rsl_value) : Prop :=
  forall n e t, st_rep t e -> st_room (weight v + n) t ->
  exists rc v' s t' e', globus_rsl_value_eval v t true = Ok (rc, v', s, t') /\ st_rep t' e' /\ st_room n t' /\
    gives_text e v rc s /\ (text e v <> None -> e' = e) /\
    if globus_rsl_value_is_sequence v then match define e v with Some (w, e2) => rc = 0 /\ v' = w /\ s = None /\ e' = e2 | None => rc = 1 end else True.

Lemma defines_pair a b : defines a -> defines b -> defines (VSequence [a; b]).
Proof.
  intros Ha Hb n e t Hr Hn. destruct (Ha (weight b + S n)%nat e t Hr) as (rc & a' & s & t1 & e1 & E & Hr1 & Hn1 & Hs & He & _).
  { eapply st_room_le; [|done]. cbn. lia. }
  cbn. rewrite E. cbn. unfold gives_text. cbn. destruct (Hb (S n) e1 t1 Hr1 Hn1) as (rc2 & b' & s2 & t2 & e2 & E2 & Hr2 & Hn2 & Hs2 & He2 & _).
  assert (st_room n t1) by (eapply st_room_le; [|done]; lia). assert (st_room n t2) by (eapply st_room_le; [|done]; lia).
  unfold gives_text in *. destruct (text e a) as [x|]; cbn.
  - rewrite He in * by done. destruct Hs as [-> ->]. cbn. rewrite E2. cbn. destruct (text e b) as [y|]; cbn.
    + rewrite He2 in * by done. destruct Hs2 as [-> ->]. cbn. destruct (st_insert_law n t2 e x y Hr2 Hn2) as (rc3 & t3 & -> & Hr3 & Hn3). cbn.
      eexists _, _, _, _, _. split; [done|]. naive_solver.
    + destruct Hs2 as [[-> ->]| -> ]; cbn; eexists _, _, _, _, e2; (split; [done|]); naive_solver.
  - destruct Hs as [[-> ->]| -> ]; cbn; [|eexists _, _, _, _, e1; (split; [done|]); naive_solver]. rewrite E2. cbn.
    destruct (negb (rc2 =? 0)); cbn; eexists _, _, _, _, e2; (split; [done|]); naive_solver.
Qed.

Lemma value_eval_defines v : defines v.
Proof.
  induction v as [s|l IH|v _|l r IHl IHr] using value_ind.
  - intros n e t Hr Hn. eexists _, _, _, _, e. split; [done|]. unfold gives_text. cbn. destruct s; naive_solver.
  - destruct l as [|a [|b [|c l]]]; try (intros n e t Hr Hn; eexists _, _, _, _, e; split; [done|]; split; [done|];
      split; [eapply st_room_le; [|done]; lia|]; unfold gives_text; cbn; naive_solver). inversion_clear IH as [|? ? Ha IH']. inversion_clear IH'. by apply defines_pair.
  - intros n e t Hr Hn. rewrite (eval_variable _ e t v true Hr Hn). unfold gives_text. assert (st_room n t) by (eapply st_room_le; [|done]; lia).
    destruct (text e (VVariable v)); eexists _, _, _, _, e; (split; [done|]); naive_solver.
  - intros n e t Hr Hn. cbn [weight] in Hn. destruct l as [l|].
    2:{ assert (st_room n t) by (eapply st_room_le; [|done]; lia). unfold gives_text. eexists _, _, _, _, e. split; [done|]. naive_solver. }
    cbn [from_option] in Hn. destruct (IHl l eq_refl (from_option weight 0%nat r + n)%nat e t Hr) as (rc & l' & s & t1 & e1 & E & Hr1 & Hn1 & Hs & He & _).
    { eapply st_room_le; [|done]. lia. }
    destruct r as [r|].
    2:{ cbn. rewrite E. cbn. unfold gives_text. cbn. destruct (negb (rc =? GLOBUS_SUCCESS)); eexists _, _, _, _, e1; (split; [done|]); naive_solver. }
    destruct (IHr r eq_refl n e1 t1 Hr1 Hn1) as (rc2 & r' & s2 & t2 & e2 & E2 & Hr2 & Hn2 & Hs2 & He2 & _).
    assert (st_room n t1) by (eapply st_room_le; [|done]; lia).
    destruct (eval_concatenation e e1 l r t true rc l' s t1 rc2 r' s2 t2 E Hs He E2 Hs2) as (rc3 & v' & s3 & t' & E3 & Ht & Hv & H3).
    unfold gives_text. destruct (text e (VConcatenation (Some l) (Some r))) as [x|] eqn:Ex.
    + cbn in Ex. destruct (text e l) as [y|] eqn:El; [|done]. cbn in Ex. rewrite He in * by done. destruct (text e r) as [z|] eqn:Er; [|done].
      destruct H3 as (-> & -> & ->). eexists _, _, _, _, e2. split; [exact E3|]. rewrite He2 in * by done. naive_solver.
    + destruct Ht as [-> | ->]; [exists rc3, v', s3, t1, e1|exists rc3, v', s3, t2, e2]; naive_solver.
Qed.

Lemma eval_values_expand n e t l :
  st_rep t e -> st_room n t ->
  exists rc l', eval_values l t false = Ok (rc, l', t) /\ match mapM (expand e) l with Some w => rc = 0 /\ l' = w | None => rc = 1 end.
Proof.
  intros Hr Hn. induction l as [|v l (rc2 & l' & El & Hl)]; [by exists 0, []|]. cbn [eval_values mapM andb].
  destruct (value_eval_expands n e t v Hr Hn) as (rc & v' & s & -> & [He _]). cbn. destruct (expand e v) as [w|]; cbn in *; [|subst rc; by eexists _, _].
  destruct He as (-> & _ & Hw). cbn. rewrite El. cbn. eexists _, _. split; [done|].
  destruct (mapM (expand e) l) as [ws|]; cbn; [|done]. destruct Hl as [-> ->]. split; [done|]. f_equal. destruct (globus_rsl_value_is_sequence v); destruct s; naive_solver.
Qed.

Lemma eval_values_define l : forall n e t,
  st_rep t e -> st_room (sum_list_with weight l + n) t ->
  exists rc l' t' e', eval_values l t true = Ok (rc, l', t') /\ st_rep t' e' /\ st_room n t' /\
    match define_all e l with Some (w, e2) => rc = 0 /\ l' = w /\ e' = e2 | None => rc = 1 end.
Proof.
  induction l as [|v l IH]; intros n e t Hr Hn; [by exists 0, [], t, e|]. cbn [eval_values andb define_all]. cbn in Hn.
  destruct (globus_rsl_value_is_sequence v) eqn:Ev; cbn.
  2:{ exists 1, (v :: l), t, e. split_and!; try done; [eapply st_room_le; [|done]; lia|by destruct v]. }
  destruct (value_eval_defines v (sum_list_with weight l + n)%nat e t Hr) as (rc & v' & s & t1 & e1 & -> & Hr1 & Hn1 & _ & _ & Hd).
  { eapply st_room_le; [|done]. lia. }
  cbn. rewrite Ev in Hd. destruct (define e v) as [[w e2]|]; cbn.
  - destruct Hd as (-> & -> & -> & <-). cbn. destruct (IH n e1 t1 Hr1 Hn1) as (rc & l' & t' & e' & -> & Hr' & Hn' & Hl). cbn. eexists _, _, _, e'. split; [done|].
    destruct (define_all e1 l) as [[ws e3]|]; naive_solver.
  - subst rc. eexists _, _, _, e1. split; [done|]. split_and!; try done. eapply st_room_le; [|done]. lia.
Qed.

(** Definitions go to the innermost scope. *)
Lemma define_all_scope l : forall al e w e2, define_all (al :: e) l = Some (w, e2) -> exists al', e2 = al' :: e.
Proof.
  induction l as [|v l IH]; intros al e w e2; cbn; [naive_solver|]. destruct (define (al :: e) v) as [[v' e1]|] eqn:Ed; cbn; [|done].
  destruct (define_all e1 l) as [[ws e3]|] eqn:El; cbn; [|done]. intros [= _ <-].
  assert (exists al', e1 = al' :: e) as [al' ->]; [|by eapply IH].
  destruct v as [|[|a [|b [|]]]| |]; try done. cbn in Ed. destruct (text (al :: e) a) as [x|], (text (al :: e) b) as [y|]; try done. cbn in Ed. injection Ed as _ <-.
  destruct (Hashtable.find _ al x); eauto.
Qed.

Lemma substitute_scope r al e w e2 : substitute (al :: e) r = Some (w, e2) -> exists al', e2 = al' :: e.
Proof.
  destruct r as [op l|op a v]; [rewrite substitute_Boolean; destruct (substitute_all _ l); cbn; naive_solver|]. cbn. destruct v as [|l| |]; try naive_solver.
  destruct (is_substitution a).
  - destruct (define_all (al :: e) l) as [[ws e3]|] eqn:E; cbn; [|done]. intros [= _ <-]. by eapply define_all_scope.
  - destruct (mapM _ l); cbn; naive_solver.
Qed.

(** What the evaluation of a description gives. *)
Definition evaluates (r : rsl) : Prop :=
  forall n e t, st_rep t e -> st_room (rsl_weight r + n) t ->
  exists rc r' t', globus_rsl_eval r t = Ok (rc, r', t') /\
    match substitute e r with Some (w, e2) => rc = 0 /\ r' = w /\ st_rep t' e2 /\ st_room n t' | None => rc = 1 end.

Lemma eval_operands_correct l : Forall evaluates l -> forall n al e t,
  st_rep t (al :: e) -> st_room (sum_list_with rsl_weight l + n) t ->
  exists rc l' t', eval_operands l t = Ok (rc, l', t') /\
    match substitute_all (al :: e) l with Some w => rc = 0 /\ l' = w /\ exists al', st_rep t' (al' :: e) /\ st_room n t' | None => rc = 1 end.
Proof.
  induction 1 as [|r l Hr _ IH]; intros n al e t Ht Hn; [naive_solver|]. cbn [eval_operands substitute_all]. cbn in Hn.
  destruct (Hr (sum_list_with rsl_weight l + n)%nat (al :: e) t Ht) as (rc & r' & t1 & -> & H1); [eapply st_room_le; [|done]; lia|]. cbn.
  destruct (substitute (al :: e) r) as [[w e2]|] eqn:Es; cbn; [|subst rc; naive_solver]. destruct H1 as (-> & -> & Ht1 & Hn1). cbn.
  destruct (substitute_scope r al e w e2 Es) as [al' ->]. destruct (IH n al' e t1 Ht1 Hn1) as (rc & l' & t' & -> & Hl). cbn.
  eexists _, _, _. split; [done|]. destruct (substitute_all (al' :: e) l); naive_solver.
Qed.

Lemma eval_correct r : evaluates r.
Proof.
  induction r as [op l IH|op a v] using tree_ind; intros n e t Ht Hn.
  - rewrite eval_Boolean, substitute_Boolean. cbn in Hn. destruct (st_create_law _ t e Ht Hn) as (t1 & -> & Ht1 & Hn1). cbn.
    destruct (eval_operands_correct l IH n [] e t1 Ht1 Hn1) as (rc & l' & t2 & -> & Hl). cbn. destruct (substitute_all ([] :: e) l) as [w|]; cbn; [|subst rc; naive_solver].
    destruct Hl as (-> & -> & al & Ht2 & Hn2). cbn. destruct (st_remove_law n t2 al e Ht2 Hn2) as (t3 & -> & Ht3 & Hn3). cbn. eexists _, _, _. split; [done|]. naive_solver.
  - cbn [globus_rsl_eval substitute]. assert (st_room n t) by (eapply st_room_le; [|done]; lia). destruct v as [s|l|v|l r].
    1, 3, 4: destruct (_ || _); cbn; eexists _, _, _; (split; [done|]); naive_solver.
    cbn [globus_rsl_value_sequence_get_value_list globus_rsl_is_relation_attribute_equal]. fold (is_substitution a). destruct (is_substitution a).
    + destruct (eval_values_define l n e t Ht) as (rc & l' & t' & e' & -> & Ht' & Hn' & Hl); [eapply st_room_le; [|exact Hn]; cbn; lia|]. cbn.
      eexists _, _, _. split; [done|]. destruct (define_all e l) as [[w e2]|]; naive_solver.
    + destruct (eval_values_expand n e t l Ht) as (rc & l' & -> & Hl); [done|]. cbn. eexists _, _, _. split; [done|]. destruct (mapM (expand e) l); naive_solver.
Qed.
End EvalCorrect.

(** ** What is left after evaluation *)

(** The value of a relation is a sequence (the parser builds no other ones). *)
Fixpoint well_formed (r : rsl) : bool :=
  match r with
  | Boolean _ l => forallb well_formed l
  | Relation _ _ v => globus_rsl_value_is_sequence v
  end.

(** Literals and sequences only. *)
Fixpoint ground_value (v : rsl_value) : bool :=
  match v with VLiteral _ => true | VSequence l => forallb ground_value l | _ => false end.

Fixpoint ground (r : rsl) : bool :=
  match r with
  | Boolean _ l => forallb ground l
  | Relation _ _ v => globus_rsl_value_is_sequence v && ground_value v
  end.

Lemma expand_ground e v : forall w, expand e v = Some w -> ground_value w = true /\ expand e w = Some w.
Proof.
  assert (forall v w, (fun s => VLiteral (Some s)) <$> text e v = Some w -> ground_value w = true /\ expand e w = Some w) as Ht.
  { intros v' w. destruct (text e v'); cbn; naive_solver. }
  induction v as [s|l IH|v IH|l r IHl IHr] using value_ind; intros w; [by intros [= <-]| |by apply Ht|by apply Ht].
  cbn. destruct (mapM (expand e) l) as [ws|] eqn:E; cbn; [|done]. intros [= <-]. cbn.
  assert (forallb ground_value ws = true /\ mapM (expand e) ws = Some ws) as [-> ->]; [|done].
  revert ws E. induction IH as [|v l Hv _ IHl]; cbn; intros ws; [by intros [= <-]|]. destruct (expand e v) as [w|]; cbn; [|done]. destruct (mapM (expand e) l) as [ws'|]; cbn; [|done].
  intros [= <-]. cbn. destruct (Hv w eq_refl) as [-> ->], (IHl ws' eq_refl) as [-> ->]. done.
Qed.

Lemma mapM_expand_ground e l ws : mapM (expand e) l = Some ws -> ground_value (VSequence ws) = true /\ mapM (expand e) ws = Some ws.
Proof.
  intros E. destruct (expand_ground e (VSequence l) (VSequence ws)) as [Hg He]; [cbn; by rewrite E|]. split; [done|]. cbn in He. destruct (mapM (expand e) ws); cbn in He; congruence.
Qed.

Lemma define_all_ground l : forall e ws e2, define_all e l = Some (ws, e2) -> ground_value (VSequence ws) = true /\ define_all e ws = Some (ws, e2).
Proof.
  induction l as [|v l IH]; intros e ws e2; cbn; [by intros [= <- <-]|]. destruct (define e v) as [[w e1]|] eqn:Ed; cbn; [|done].
  destruct (define_all e1 l) as [[ws' e3]|] eqn:El; cbn; [|done]. intros [= <- <-]. destruct (IH _ _ _ El) as [Hg Hd]. cbn in *.
  destruct v as [|[|a [|b [|]]]| |]; try done. cbn in Ed. destruct (text e a), (text e b); try done. cbn in Ed. injection Ed as <- <-. cbn. rewrite Hg. cbn. by rewrite Hd.
Qed.

Lemma substitute_ground r : forall e w e2, substitute e r = Some (w, e2) -> (well_formed r = true -> ground w = true) /\ substitute e w = Some (w, e2).
Proof.
  induction r as [op l IH|op a v] using tree_ind; intros e w e2.
  - rewrite substitute_Boolean. destruct (substitute_all ([] :: e) l) as [ws|] eqn:E; cbn -[substitute]; [|done]. intros [= <- <-]. rewrite substitute_Boolean. cbn.
    assert ((forallb well_formed l = true -> forallb ground ws = true) /\ substitute_all ([] :: e) ws = Some ws) as [Hg ->]; [|done].
    revert ws E. generalize ([] :: e). induction IH as [|r l Hr _ IHl]; cbn; intros e' ws; [by intros [= <-]|]. destruct (substitute e' r) as [[w' e3]|] eqn:Er; cbn; [|done].
    destruct (substitute_all e3 l) as [ws'|] eqn:El; cbn; [|done]. intros [= <-]. cbn. destruct (Hr _ _ _ Er) as [Hg1 ->]. cbn. destruct (IHl _ _ El) as [Hg2 ->].
    split; [|done]. intros [H1 H2]%andb_prop. by rewrite Hg1, Hg2.
  - cbn. destruct v as [s|l|v|l r]; try (by intros [= <- <-]). destruct (is_substitution a) eqn:Ea.
    + destruct (define_all e l) as [[ws e3]|] eqn:E; cbn; [|done]. intros [= <- <-]. destruct (define_all_ground l e ws e3 E) as [Hg Hd]. cbn [substitute ground]. rewrite Ea, Hd. done.
    + destruct (mapM (expand e) l) as [ws|] eqn:E; cbn; [|done]. intros [= <- <-]. destruct (mapM_expand_ground e l ws E) as [Hg Hd]. cbn [substitute ground]. rewrite Ea, Hd. done.
Qed.

(** C8: evaluating a description with a symbol table that represents the scopes [e] and has
    room for its definitions always returns. When every reference has a
    definition and no default, and the definitions are well formed, the status
    is 0, the tree becomes the description with its references and concatenations replaced
    (no variable or concatenation is left, and evaluating it again changes nothing), and the
    table ends with the scopes of the definitions; otherwise the status is 1. *)
Theorem rsl_eval_correct `{SymbolTableLaws T str str (keyeq := Hashtable.globus_hashtable_string_keyeq)} (n : nat) e (t : T) (r : rsl) :
  well_formed r = true -> st_rep t e -> st_room (rsl_weight r + n) t ->
  exists rc r' t', globus_rsl_eval r t = Ok (rc, r', t') /\
    match substitute e r with
    | Some (w, e2) => rc = 0 /\ r' = w /\ st_rep t' e2 /\ ground w = true /\ substitute e w = Some (w, e2)
    | None => rc = 1
    end.
Proof.
  intros Hw Ht Hn. destruct (eval_correct r n e t Ht Hn) as (rc & r' & t' & E & Hs). exists rc, r', t'. split; [exact E|].
  destruct (substitute e r) as [[w e2]|] eqn:Es; [|exact Hs]. destruct (substitute_ground r e w e2 Es) as [Hg Hi]. naive_solver.
Qed.

(** [&(rsl_substitution=(HOME "/u"))(dir=$(HOME)#"/x")] with the tables of Symboltable.v. *)
Definition lit (s : string) : rsl_value := VLiteral (Some (codes s)).
Definition ref (s : string) : rsl_value := VVariable (VSequence [lit s]).
Definition example_rsl : rsl :=
  Boolean GLOBUS_RSL_AND
    [Relation GLOBUS_RSL_EQ (codes "rsl_substitution") (VSequence [VSequence [lit "HOME"; lit "/u"]]);
     Relation GLOBUS_RSL_EQ (codes "dir") (VSequence [VConcatenation (Some (ref "HOME")) (Some (lit "/x"))])].

#[local] Existing Instance Memory.memory_pool.
#[local] Existing Instance Memory.memory_pool_laws.
#[local] Existing Instance Hashtable.string_keys.
Definition example_symbols : Symboltable.symboltable str str Memory.memory := Symboltable.SymTab [] [Memory.example_pool; Memory.example_pool].

#[local] Instance example_ops : SymbolTable (Symboltable.symboltable str str Memory.memory) str str :=
  Symboltable.symboltable_ops Hashtable.globus_hashtable_string_hash Hashtable.globus_hashtable_string_keyeq.
#[local] Instance example_laws : SymbolTableLaws (T := Symboltable.symboltable str str Memory.memory) Hashtable.globus_hashtable_string_keyeq :=
  Symboltable.symboltable_laws Hashtable.globus_hashtable_string_hash Hashtable.globus_hashtable_string_keyeq.

Lemma example_symbols_room : Symboltable.room (K := str) (D := str) 2 example_symbols.
Proof.
  assert (Symboltable.fresh_pool 2 Memory.example_pool) as Hp.
  { split; [exact Memory.example_pool_ok|]. split; [by vm_compute|]. cbn [Symboltable.pops].
    eexists _, _. split; [vm_compute; reflexivity|]. eexists _, _. split; [vm_compute; reflexivity|exact I]. }
  split_and!; [unfold INT_MAX; lia|constructor|cbn; lia|]. constructor; [exact Hp|]. constructor; [exact Hp|constructor].
Qed.

Lemma rsl_eval_witness :
  exists t', globus_rsl_eval example_rsl example_symbols =
    Ok (0, Boolean GLOBUS_RSL_AND
             [Relation GLOBUS_RSL_EQ (codes "rsl_substitution") (VSequence [VSequence [lit "HOME"; lit "/u"]]);
              Relation GLOBUS_RSL_EQ (codes "dir") (VSequence [lit "/u/x"])], t').
Proof.
  destruct (rsl_eval_correct 0 [] example_symbols example_rsl) as (rc & r' & t' & E & Hs); [done|by constructor|exact example_symbols_room|].
  assert (substitute [] example_rsl = Some (Boolean GLOBUS_RSL_AND
    [Relation GLOBUS_RSL_EQ (codes "rsl_substitution") (VSequence [VSequence [lit "HOME"; lit "/u"]]);
     Relation GLOBUS_RSL_EQ (codes "dir") (VSequence [lit "/u/x"])], [])) as Ew by (vm_compute; reflexivity).
  rewrite Ew in Hs. destruct Hs as (-> & -> & _). exists t'. exact E.
Defined.
End Rsl.
