(* ===== verification/RslScan.v ===== *)
(** * Job descriptions: the scanner (gram/rsl/source/globus_rsl_scanner.l)

    The rules of the scanner, by start condition. In every condition the rule that matches
    the most characters applies (trailing context included), which the order of the tests
    of [scan1] gives; text that no other rule matches, and the end of the text, end the
    scan ([yyterminate]). [scan1] is one rule, [yylex] the rules up to the next token. The
    fuel of [yylex] is the number of characters left, twice, plus two: [yylex_total] shows
    that it is enough.

    Tokens and the characters of the text are numbers; the text has no NUL. Allocation does
    not fail. A parenthesis counter is an int. *)
From S2P Require Import Prelude.
From S2P Require Import Chars.
Local Open Scope Z_scope.

Module Scan.

Abbreviation str := (list Z) (only parsing).

(** ** Tokens (globus_rsl_parser.h) *)
Definition RSL_STRING : Z := 258.
Definition RSL_OP_AND : Z := 259.
Definition RSL_OP_OR : Z := 260.
Definition RSL_OP_MULTIREQ : Z := 261.
Definition RSL_OP_EQ : Z := 262.
Definition RSL_OP_NEQ : Z := 263.
Definition RSL_OP_LT : Z := 264.
Definition RSL_OP_LTEQ : Z := 265.
Definition RSL_OP_GT : Z := 266.
Definition RSL_OP_GTEQ : Z := 267.
Definition RSL_OP_CONCATENATE : Z := 268.
Definition RSL_LPAREN : Z := 269.
Definition RSL_RPAREN : Z := 270.
Definition RSL_VARIABLE_START : Z := 271.
Definition YYEOF : Z := 0.

(** ** The state of the scanner *)
Inductive condition := INITIAL | COMMENT | VARIABLE | QUOTE | QUOTE_HIT_DELIM | IMPLICIT_CONCATENATE.

(** What is left of the text, the condition, the fields of [globus_parse_state_t] that the
    rules use, and [yytext]. *)
Record scanner := Scanner {
  input : str;
  yy_start : condition;
  calling_state : condition;
  quote_delimiter : Z;
  quote_text_fifo : str;
  paren_count_stack : list Z;
  yytext : str }.

Definition scanner_init (buf : str) : scanner := Scanner buf INITIAL INITIAL 0 [] [] [].

(** ** Character classes *)
Definition one_of (c : Z) (l : list Z) : bool := existsb (Z.eqb c) l.

(** White space, the operators, parentheses, quotes, and the characters of no token. *)
Definition special : list Z := [9; 32; 10] ++ codes "=!<>()" ++ [34; 39] ++ codes "^*$#?~".

Definition UNQUOTED_LITERAL_CHAR (c : Z) : bool := negb (one_of c special || one_of c (codes "+&|")).
Definition UNQUOTED_LITERAL_REST (c : Z) : bool := negb (one_of c special).
Definition WHITESPACE (c : Z) : bool := one_of c [32; 9; 10].
Definition VARIABLE_START (c : Z) : bool := c =? 36.

(** The first character that is left, if any, is in a class. *)
Definition next_is (P : Z -> bool) (s : str) : bool := match s with c :: _ => P c | [] => false end.

(** ** The rules *)

(** After a rule: a token with its string, or on to the next rule. *)
Abbreviation scanned := (option (Z * option str) * scanner)%type (only parsing).

(** The rule has matched [text] and the text goes on with [rest]. *)
Definition matched (s : scanner) (text rest : str) (next : condition) : scanner :=
  Scanner rest next (calling_state s) (quote_delimiter s) (quote_text_fifo s) (paren_count_stack s) text.

Definition token (t : Z) (s : scanner) : result scanned := Ok (Some (t, None), s).
Definition skip (s : scanner) : result scanned := Ok (None, s).

(** <*>. and <*><<EOF>> *)
Definition yyterminate (s : scanner) : result scanned :=
  match input s with
  | [] => token YYEOF (matched s [] [] (yy_start s))
  | c :: rest => token YYEOF (matched s [c] rest (yy_start s))
  end.

Definition implicit_rule (s : scanner) : result scanned :=
  match input s with
  | [] => yyterminate s
  | c :: rest => token RSL_OP_CONCATENATE (matched s [] (c :: rest) (calling_state s))
  end.

Definition comment_rule (s : scanner) : result scanned :=
  match input s with
  | [] => yyterminate s
  | c :: rest =>
      if c =? 42 then
        match rest with
        | [] => yyterminate s
        | d :: rest' => if d =? 41 then skip (matched s [c; d] rest' (calling_state s)) else skip (matched s [c] rest COMMENT)
        end
      else
        let n := span (fun c => negb (c =? 42)) (input s) in
        skip (matched s (take n (input s)) (drop n (input s)) COMMENT)
  end.

Definition enqueue (c : Z) (s : scanner) : scanner :=
  Scanner (input s) (yy_start s) (calling_state s) (quote_delimiter s) (quote_text_fifo s ++ [c]) (paren_count_stack s) (yytext s).

Definition quote_rule (s : scanner) : result scanned :=
  match input s with
  | [] => yyterminate s
  | c :: rest =>
      if negb (c =? quote_delimiter s) then skip (enqueue c (matched s [c] rest QUOTE)) else skip (matched s [c] rest QUOTE_HIT_DELIM)
  end.

(** The fifo is emptied into the string. *)
Definition quote_hit_delim_rule (s : scanner) : result scanned :=
  match input s with
  | [] => yyterminate s
  | c :: rest =>
      if c =? quote_delimiter s then skip (enqueue c (matched s [c] rest QUOTE))
      else
        Ok (Some (RSL_STRING, Some (quote_text_fifo s)),
            Scanner (c :: rest) (calling_state s) (calling_state s) (quote_delimiter s) [] (paren_count_stack s) [])
  end.

(** An opening delimiter. *)
Definition open_quote (s : scanner) (text rest : str) (delimiter : Z) : result scanned :=
  skip (Scanner rest QUOTE (yy_start s) delimiter [] (paren_count_stack s) text).

Definition unquoted_literal (s : scanner) : result scanned :=
  let n := S (span UNQUOTED_LITERAL_REST (tail (input s))) in
  let text := take n (input s) in
  let rest := drop n (input s) in
  if next_is VARIABLE_START rest then
    Ok (Some (RSL_STRING, Some text),
        Scanner rest IMPLICIT_CONCATENATE (yy_start s) (quote_delimiter s) (quote_text_fifo s) (paren_count_stack s) text)
  else Ok (Some (RSL_STRING, Some text), matched s text rest (yy_start s)).

Definition set_counts (l : list Z) (s : scanner) : scanner :=
  Scanner (input s) (yy_start s) (calling_state s) (quote_delimiter s) (quote_text_fifo s) l (yytext s).

Definition lparen (s : scanner) (rest : str) : result scanned :=
  let s' := matched s [40] rest (yy_start s) in
  match yy_start s with
  | VARIABLE =>
      match paren_count_stack s with
      | [] => Fault AssertFail
      | n :: l => n ← s32 (n + 1); token RSL_LPAREN (set_counts (n :: l) s')
      end
  | _ => token RSL_LPAREN s'
  end.

(** The condition that the outermost, resp. an inner, variable reference returns to. *)
Definition after_variable (l : list Z) : condition := match l with [] => INITIAL | _ => VARIABLE end.

Definition rparen (s : scanner) (rest : str) : result scanned :=
  let s' := matched s [41] rest (yy_start s) in
  match yy_start s with
  | VARIABLE =>
      match paren_count_stack s with
      | [] => Fault AssertFail
      | n :: l =>
          n ← s32 (n - 1);
          if n =? 0 then
            if next_is (fun c => UNQUOTED_LITERAL_CHAR c || VARIABLE_START c) rest then
              token RSL_RPAREN (Scanner rest IMPLICIT_CONCATENATE (after_variable l) (quote_delimiter s) (quote_text_fifo s) l [41])
            else token RSL_RPAREN (set_counts l (matched s [41] rest (after_variable l)))
          else token RSL_RPAREN (set_counts (n :: l) s')
      end
  | _ => token RSL_RPAREN s'
  end.

Definition variable_start (s : scanner) (rest : str) : result scanned :=
  token RSL_VARIABLE_START (set_counts (0 :: paren_count_stack s) (matched s [36] rest VARIABLE)).

(** A one-character operator, or the two-character one that ends in an equals sign. *)
Definition operator (s : scanner) (c : Z) (rest : str) (short long : Z) : result scanned :=
  match rest with
  | d :: rest' => if d =? 61 then token long (matched s [c; d] rest' (yy_start s)) else token short (matched s [c] rest (yy_start s))
  | [] => token short (matched s [c] rest (yy_start s))
  end.

(** The rules of <INITIAL,VARIABLE>. *)
Definition main_rule (s : scanner) : result scanned :=
  match input s with
  | [] => yyterminate s
  | c :: rest =>
      let one t := token t (matched s [c] rest (yy_start s)) in
      if c =? 40 then
        if next_is (Z.eqb 42) rest then
          skip (Scanner (tail rest) COMMENT (yy_start s) (quote_delimiter s) (quote_text_fifo s) (paren_count_stack s) [40; 42])
        else lparen s rest
      else if c =? 41 then rparen s rest
      else if (c =? 34) || (c =? 39) then open_quote s [c] rest c
      else if c =? 94 then match rest with [] => yyterminate s | d :: rest' => open_quote s [c; d] rest' d end
      else if VARIABLE_START c then variable_start s rest
      else if c =? 61 then one RSL_OP_EQ
      else if c =? 33 then
        if next_is (Z.eqb 61) rest then token RSL_OP_NEQ (matched s [33; 61] (tail rest) (yy_start s)) else yyterminate s
      else if c =? 60 then operator s c rest RSL_OP_LT RSL_OP_LTEQ
      else if c =? 62 then operator s c rest RSL_OP_GT RSL_OP_GTEQ
      else if c =? 43 then one RSL_OP_MULTIREQ
      else if c =? 38 then one RSL_OP_AND
      else if c =? 124 then one RSL_OP_OR
      else if c =? 35 then one RSL_OP_CONCATENATE
      else if WHITESPACE c then
        let n := span WHITESPACE (input s) in skip (matched s (take n (input s)) (drop n (input s)) (yy_start s))
      else if UNQUOTED_LITERAL_CHAR c then unquoted_literal s
      else yyterminate s
  end.

Definition scan1 (s : scanner) : result scanned :=
  match yy_start s with
  | IMPLICIT_CONCATENATE => implicit_rule s
  | COMMENT => comment_rule s
  | QUOTE => quote_rule s
  | QUOTE_HIT_DELIM => quote_hit_delim_rule s
  | INITIAL | VARIABLE => main_rule s
  end.

Fixpoint yylex_loop (fuel : nat) (s : scanner) : result (Z * option str * scanner) :=
  match fuel with
  | O => Fault OutOfFuel
  | S fuel =>
      '(t, s) ← scan1 s;
      match t with Some (t, v) => Ok (t, v, s) | None => yylex_loop fuel s end
  end.

Definition yylex (s : scanner) : result (Z * option str * scanner) := yylex_loop (S (S (2 * length (input s)))) s.

(** ** The scanner returns *)

(** Characters left, counting a token that is returned without a character. *)
Definition left_over (s : scanner) : nat :=
  2 * length (input s) + match yy_start s with IMPLICIT_CONCATENATE | QUOTE_HIT_DELIM => 1 | _ => 0 end.

(** The counters exist where they are used, and fit. *)
Record scanner_ok (s : scanner) : Prop := {
  ok_variable : yy_start s = VARIABLE -> paren_count_stack s <> [];
  ok_calling : calling_state s = INITIAL \/ calling_state s = VARIABLE;
  ok_return : yy_start s <> INITIAL -> yy_start s <> VARIABLE -> calling_state s = VARIABLE -> paren_count_stack s <> [];
  ok_counts : Forall (fun n => Z.abs n + Z.of_nat (length (input s)) <= INT_MAX) (paren_count_stack s);
  ok_length : Z.of_nat (length (input s)) <= INT_MAX }.

(** A string token has its string. *)
Definition token_ok (t : Z) (v : option str) : Prop := (t = RSL_STRING /\ is_Some v) \/ (RSL_OP_AND <= t <= RSL_VARIABLE_START /\ v = None).

(** What a rule does to a scanner: it ends the scan, or leaves a scanner with less to do. *)
Definition advances (s : scanner) (t : option (Z * option str)) (s' : scanner) : Prop :=
  (length (yytext s') <= length (input s))%nat /\
  match t with
  | Some (t, v) => (t = YYEOF /\ v = None) \/ (token_ok t v /\ scanner_ok s' /\ (left_over s' < left_over s)%nat)
  | None => scanner_ok s' /\ (left_over s' < left_over s)%nat
  end.

Lemma counts_shrink n (m : nat) (l : list Z) : (m <= n)%nat ->
  Forall (fun c => Z.abs c + Z.of_nat n <= INT_MAX) l -> Forall (fun c => Z.abs c + Z.of_nat m <= INT_MAX) l.
Proof. intros Hm H. eapply Forall_impl; [exact H|]. intros c. cbn. lia. Qed.

Lemma span_pos P s : next_is P s = true -> (0 < span P s)%nat.
Proof. destruct s as [|c s]; cbn; [done|]. intros ->. lia. Qed.

Lemma terminate_advances s : exists t s', yyterminate s = Ok (t, s') /\ advances s t s'.
Proof. unfold yyterminate. destruct (input s) as [|c rest] eqn:E; eexists _, _; (split; [reflexivity|]); (split; [cbn; rewrite E; cbn; lia|by left]). Qed.

(** The text shrinks and the condition becomes one that was legal before. *)
Lemma matched_ok s text rest next :
  scanner_ok s -> (length rest <= length (input s))%nat ->
  (next = VARIABLE -> paren_count_stack s <> []) -> (next <> INITIAL -> next <> VARIABLE -> calling_state s = VARIABLE -> paren_count_stack s <> []) ->
  scanner_ok (matched s text rest next).
Proof. intros [H1 H2 H3 H4 H5] Hl Hv Hr. split; cbn; auto; [by eapply counts_shrink|lia]. Qed.

Ltac advance := eexists _, _; split; [reflexivity|]; split.
Ltac advance_tok := right; split; [first [left; split; [reflexivity|by eexists]|right; split; [unfold RSL_OP_AND, RSL_VARIABLE_START; cbv; split; congruence|reflexivity]]|split].

Lemma implicit_advances s : scanner_ok s -> yy_start s = IMPLICIT_CONCATENATE -> exists t s', implicit_rule s = Ok (t, s') /\ advances s t s'.
Proof.
  intros Hs Es. unfold implicit_rule. destruct (input s) as [|c rest] eqn:E; [apply terminate_advances|]. destruct Hs as [H1 H2 H3 H4 H5]. rewrite E in *.
  advance; [cbn; lia|]. advance_tok.
  - split; cbn; rewrite ?E; try done; intros; apply H3; congruence.
  - unfold left_over. cbn -[Nat.mul length]. rewrite Es, E. destruct H2 as [-> | ->]; lia.
Qed.

Lemma drop_span_length P c s : P c = true -> (length (drop (span P (c :: s)) (c :: s)) < length (c :: s))%nat.
Proof. intros Hc. rewrite length_drop. cbn. rewrite Hc. lia. Qed.

Lemma comment_advances s : scanner_ok s -> yy_start s = COMMENT -> exists t s', comment_rule s = Ok (t, s') /\ advances s t s'.
Proof.
  intros Hs Es. unfold comment_rule. destruct (input s) as [|c rest] eqn:E; [apply terminate_advances|].
  assert (forall next, left_over s = (2 * length (c :: rest))%nat /\ forall text rest', left_over (matched s text rest' next) <= 2 * length rest' + 1)%nat as Hl.
  { intros next. unfold left_over. rewrite E, Es. split; [lia|]. intros. cbn -[Nat.mul]. destruct next; lia. }
  destruct (c =? 42) eqn:Ec.
  - destruct rest as [|d rest]; [apply terminate_advances|]. destruct (d =? 41).
    + advance; [cbn; rewrite E; cbn; lia|]. split.
      * apply matched_ok; [done|rewrite E; cbn; lia| |]; intros; apply (ok_return s Hs); congruence.
      * destruct (Hl (calling_state s)) as [-> H]. specialize (H [c; d] rest). cbn [length] in *. lia.
    + advance; [cbn; rewrite E; cbn; lia|]. split.
      * apply matched_ok; [done|rewrite E; cbn; lia|done|]. intros _ _. apply Hs; congruence.
      * unfold left_over. rewrite E, Es. cbn. lia.
  - advance; [cbn; rewrite E, length_take; cbn; lia|].
    pose proof (drop_span_length (fun c => negb (c =? 42)) c rest) as Hd. cbv beta in Hd. rewrite Ec in Hd. specialize (Hd eq_refl). split.
    + apply matched_ok; [done|rewrite E; lia|done|]. intros _ _. apply Hs; congruence.
    + unfold left_over. rewrite E, Es. cbn [matched input yy_start]. lia.
Qed.

Lemma quote_advances s : scanner_ok s -> yy_start s = QUOTE -> exists t s', quote_rule s = Ok (t, s') /\ advances s t s'.
Proof.
  intros Hs Es. unfold quote_rule. destruct (input s) as [|c rest] eqn:E; [apply terminate_advances|]. destruct Hs as [H1 H2 H3 H4 H5]. rewrite E in *.
  destruct (negb (c =? quote_delimiter s)); (advance; [cbn; rewrite ?E; cbn; lia|]); (split; [split; cbn; try done; [intros; apply H3; congruence|eapply counts_shrink; [|done]; cbn; lia|cbn in H5; lia]|]);
    unfold left_over; rewrite E, Es; cbn; lia.
Qed.

Lemma quote_hit_delim_advances s : scanner_ok s -> yy_start s = QUOTE_HIT_DELIM -> exists t s', quote_hit_delim_rule s = Ok (t, s') /\ advances s t s'.
Proof.
  intros Hs Es. unfold quote_hit_delim_rule. destruct (input s) as [|c rest] eqn:E; [apply terminate_advances|]. destruct Hs as [H1 H2 H3 H4 H5]. rewrite E in *.
  destruct (c =? quote_delimiter s).
  - advance; [cbn; rewrite ?E; cbn; lia|]. split; [split; cbn; try done; [intros; apply H3; congruence|eapply counts_shrink; [|done]; cbn; lia|cbn in H5; lia]|].
    unfold left_over. rewrite E, Es. cbn. lia.
  - advance; [cbn; lia|]. advance_tok; [split; cbn; try done; intros; apply H3; congruence|]. unfold left_over. rewrite E, Es. cbn. destruct H2 as [-> | ->]; lia.
Qed.

Definition outer (c : condition) : Prop := c = INITIAL \/ c = VARIABLE.

Lemma outer_left s text rest : outer (yy_start s) -> (length rest < length (input s))%nat -> (left_over (matched s text rest (yy_start s)) < left_over s)%nat.
Proof. unfold left_over. intros [-> | ->]; cbn; lia. Qed.

(** A rule that keeps the condition. *)
Lemma kept_ok s text rest : scanner_ok s -> outer (yy_start s) -> (length rest < length (input s))%nat -> scanner_ok (matched s text rest (yy_start s)).
Proof. intros Hs Ho Hl. apply matched_ok; [done|lia|apply Hs|]. intros. destruct Ho; congruence. Qed.

Lemma token_advances s t text rest :
  scanner_ok s -> outer (yy_start s) -> RSL_OP_AND <= t <= RSL_VARIABLE_START -> (length rest < length (input s))%nat -> (length text <= length (input s))%nat ->
  exists t' s', token t (matched s text rest (yy_start s)) = Ok (t', s') /\ advances s t' s'.
Proof.
  intros Hs Ho Ht Hr Hx. advance; [exact Hx|]. right. split; [by right|]. split; [by apply kept_ok|by apply outer_left].
Qed.

Lemma lparen_advances s rest :
  scanner_ok s -> outer (yy_start s) -> (length rest < length (input s))%nat -> exists t s', lparen s rest = Ok (t, s') /\ advances s t s'.
Proof.
  intros Hs Ho Hr. assert (RSL_OP_AND <= RSL_LPAREN <= RSL_VARIABLE_START) as Ht by done. unfold lparen. destruct Ho as [Es|Es]; rewrite Es.
  - rewrite <- Es. apply token_advances; [done|by left|done|done|cbn; lia].
  - destruct (paren_count_stack s) as [|n l] eqn:El; [by destruct (ok_variable s Hs Es)|]. pose proof (ok_counts s Hs) as Hc. rewrite El in Hc. inversion_clear Hc as [|? ? Hn Hl].
    unfold s32, INT_MIN, INT_MAX in *. rewrite (proj2 (Z.leb_le _ _)), (proj2 (Z.leb_le _ _)) by lia. cbn [andb mbind result_bind]. advance; [cbn; lia|]. right. split; [by right|]. split.
    + split; cbn; try done; try apply Hs. 2:{ pose proof (ok_length s Hs). lia. } constructor; [unfold INT_MAX; lia|]. by eapply counts_shrink; [|exact Hl]; lia.
    + unfold left_over. rewrite Es. cbn. lia.
Qed.

Lemma rparen_advances s rest :
  scanner_ok s -> outer (yy_start s) -> (length rest < length (input s))%nat -> exists t s', rparen s rest = Ok (t, s') /\ advances s t s'.
Proof.
  intros Hs Ho Hr. assert (RSL_OP_AND <= RSL_RPAREN <= RSL_VARIABLE_START) as Ht by done. unfold rparen. destruct Ho as [Es|Es]; rewrite Es.
  - rewrite <- Es. apply token_advances; [done|by left|done|done|cbn; lia].
  - destruct (paren_count_stack s) as [|n l] eqn:El; [by destruct (ok_variable s Hs Es)|]. pose proof (ok_counts s Hs) as Hc. rewrite El in Hc. inversion_clear Hc as [|? ? Hn Hl].
    unfold s32, INT_MIN in *. rewrite (proj2 (Z.leb_le _ _)), (proj2 (Z.leb_le _ _)) by (unfold INT_MAX in *; lia). cbn [andb mbind result_bind].
    pose proof (ok_length s Hs). assert (Forall (fun c => Z.abs c + Z.of_nat (length rest) <= INT_MAX) l) by (eapply counts_shrink; [|exact Hl]; lia).
    destruct (n - 1 =? 0); [destruct (next_is _ rest)|]; (advance; [cbn; lia|]); (right; split; [by right|]);
      (split; [split; cbn; try done; try lia|unfold left_over; rewrite Es; cbn; try lia]).
    + destruct l; [by left|by right].
    + by destruct l.
    + by destruct l.
    + apply Hs.
    + by destruct l.
    + destruct l; cbn; lia.
    + apply Hs.
    + constructor; [lia|done].
Qed.

Lemma open_quote_advances s text rest d :
  scanner_ok s -> outer (yy_start s) -> (length rest < length (input s))%nat -> (length text <= length (input s))%nat ->
  exists t s', open_quote s text rest d = Ok (t, s') /\ advances s t s'.
Proof.
  intros Hs Ho Hr Hx. advance; [exact Hx|]. pose proof (ok_length s Hs). split.
  - split; cbn; try done; [intros; by apply (ok_variable s Hs)|eapply counts_shrink; [|apply Hs]; lia|lia].
  - unfold left_over. cbn. destruct (yy_start s); lia.
Qed.

Lemma unquoted_literal_advances s c rest :
  scanner_ok s -> outer (yy_start s) -> input s = c :: rest -> exists t s', unquoted_literal s = Ok (t, s') /\ advances s t s'.
Proof.
  intros Hs Ho E. unfold unquoted_literal. rewrite E. cbn [tail take drop]. set (n := span UNQUOTED_LITERAL_REST rest). pose proof (ok_length s Hs).
  assert (length (drop n rest) < length (input s))%nat by (rewrite E, length_drop; cbn; lia).
  assert (length (c :: take n rest) <= length (input s))%nat by (rewrite E; cbn; rewrite length_take; lia).
  destruct (next_is VARIABLE_START (drop n rest)); (advance; [done|]); right; (split; [left; split; [reflexivity|by eexists]|]).
  - split; [split; cbn; try done; [intros; apply (ok_variable s Hs); done|eapply counts_shrink; [|apply Hs]; lia|lia]|].
    unfold left_over. cbn. destruct (yy_start s); lia.
  - split; [by apply kept_ok|by apply outer_left].
Qed.

Lemma variable_start_advances s rest :
  scanner_ok s -> outer (yy_start s) -> (length rest < length (input s))%nat -> exists t s', variable_start s rest = Ok (t, s') /\ advances s t s'.
Proof.
  intros Hs Ho Hr. pose proof (ok_length s Hs). advance; [cbn; lia|]. right. split; [by right|]. split.
  - split; cbn; try done; [apply Hs|constructor; [cbn; lia|eapply counts_shrink; [|apply Hs]; lia]|lia].
  - unfold left_over. cbn. destruct (yy_start s); lia.
Qed.

Lemma operator_advances s c rest short long :
  scanner_ok s -> outer (yy_start s) -> input s = c :: rest -> RSL_OP_AND <= short <= RSL_VARIABLE_START -> RSL_OP_AND <= long <= RSL_VARIABLE_START ->
  exists t s', operator s c rest short long = Ok (t, s') /\ advances s t s'.
Proof.
  intros Hs Ho E Hsh Hlo. unfold operator. destruct rest as [|d rest]; [|destruct (d =? 61)]; (apply token_advances; [done|done|done|rewrite E; cbn; lia|rewrite E; cbn; lia]).
Qed.

Lemma main_advances s : scanner_ok s -> outer (yy_start s) -> exists t s', main_rule s = Ok (t, s') /\ advances s t s'.
Proof.
  intros Hs Ho. unfold main_rule. destruct (input s) as [|c rest] eqn:E; [apply terminate_advances|]. cbv zeta.
  assert (length rest < length (input s))%nat as Hr by (rewrite E; cbn; lia).
  assert (1 <= length (input s))%nat as H1 by (rewrite E; cbn; lia).
  assert (forall d, next_is (Z.eqb d) rest = true -> length (tail rest) < length (input s) /\ 2 <= length (input s))%nat as Hn by (intros d; rewrite E; destruct rest; cbn; [done|lia]).
  assert (forall t, RSL_OP_AND <= t <= RSL_VARIABLE_START -> exists t' s', token t (matched s [c] rest (yy_start s)) = Ok (t', s') /\ advances s t' s') as One.
  { intros t Ht. by apply token_advances. }
  destruct (c =? 40); [destruct (next_is (Z.eqb 42) rest) eqn:En; [|by apply lparen_advances]|].
  { destruct (Hn _ En) as [Ht H2]. pose proof (ok_length s Hs). advance; [done|]. split; [|unfold left_over; cbn; destruct (yy_start s); lia].
    split; cbn; try done; [intros; apply (ok_variable s Hs); done|eapply counts_shrink; [|apply Hs]; lia|lia]. }
  destruct (c =? 41); [by apply rparen_advances|]. destruct (_ || _); [by apply open_quote_advances|].
  destruct (c =? 94). { destruct rest as [|d rest]; [apply terminate_advances|]. apply open_quote_advances; try done; rewrite E; cbn; lia. }
  destruct (VARIABLE_START c); [by apply variable_start_advances|]. destruct (c =? 61); [by apply One|].
  destruct (c =? 33); [destruct (next_is (Z.eqb 61) rest) eqn:En; [|apply terminate_advances]; destruct (Hn _ En); by apply token_advances|].
  destruct (c =? 60); [by apply operator_advances|]. destruct (c =? 62); [by apply operator_advances|].
  destruct (c =? 43); [by apply One|]. destruct (c =? 38); [by apply One|]. destruct (c =? 124); [by apply One|]. destruct (c =? 35); [by apply One|].
  destruct (WHITESPACE c) eqn:Ew.
  { pose proof (drop_span_length WHITESPACE c rest Ew). advance; [cbn [matched yytext]; rewrite E, length_take; lia|]. split; [apply kept_ok|apply outer_left]; try done; rewrite E; lia. }
  destruct (UNQUOTED_LITERAL_CHAR c); [by eapply unquoted_literal_advances|apply terminate_advances].
Qed.

Lemma scan1_advances s : scanner_ok s -> exists t s', scan1 s = Ok (t, s') /\ advances s t s'.
Proof.
  intros Hs. unfold scan1. destruct (yy_start s) eqn:Es;
    [apply main_advances; [done|by left]|by apply comment_advances|apply main_advances; [done|by right]|by apply quote_advances|by apply quote_hit_delim_advances|by apply implicit_advances].
Qed.

(** A call of the scanner returns the end or a token, and leaves less to do. *)
Lemma yylex_loop_total fuel : forall s, scanner_ok s -> (left_over s < fuel)%nat ->
  exists t v s', yylex_loop fuel s = Ok (t, v, s') /\ (length (yytext s') <= length (input s))%nat /\
    ((t = YYEOF /\ v = None) \/ (token_ok t v /\ scanner_ok s' /\ (left_over s' < left_over s)%nat)).
Proof.
  induction fuel as [|fuel IH]; intros s Hs Hf; [lia|]. cbn [yylex_loop]. destruct (scan1_advances s Hs) as (t & s1 & -> & Hx & Ht). cbn [mbind result_bind]. destruct t as [[t v]|].
  - by exists t, v, s1.
  - destruct Ht as [Hs1 Hl]. destruct (IH s1 Hs1) as (t & v & s' & -> & Hx' & Ht); [lia|]. exists t, v, s'. split; [done|].
    assert (length (input s1) <= length (input s))%nat. { unfold left_over in Hl. destruct (yy_start s1), (yy_start s); lia. }
    split; [lia|]. destruct Ht as [Ht|(Ht & Hs' & Hl')]; [by left|right]. split_and!; [done|done|lia].
Qed.

Lemma yylex_total s : scanner_ok s ->
  exists t v s', yylex s = Ok (t, v, s') /\ (length (yytext s') <= length (input s))%nat /\
    ((t = YYEOF /\ v = None) \/ (token_ok t v /\ scanner_ok s' /\ (left_over s' < left_over s)%nat)).
Proof. intros Hs. apply yylex_loop_total; [done|]. unfold left_over. destruct (yy_start s); lia. Qed.

(** More fuel changes nothing. *)
Lemma yylex_loop_more s fuel fuel' r : yylex_loop fuel s = Ok r -> (fuel <= fuel')%nat -> yylex_loop fuel' s = Ok r.
Proof.
  revert s fuel'. induction fuel as [|fuel IH]; intros s [|fuel']; cbn; try done; [lia|]. destruct (scan1 s) as [[[t|] s']|]; cbn; try done. intros E Hf. apply IH; [done|lia].
Qed.

Lemma yylex_skip s s1 : scanner_ok s -> scan1 s = Ok (None, s1) -> yylex s = yylex s1 /\ scanner_ok s1.
Proof.
  intros Hs E. destruct (scan1_advances s Hs) as (t & s' & E' & _ & Ha). rewrite E in E'. injection E' as <- <-. destruct Ha as [Hs1 Hl]. split; [|done].
  destruct (yylex_loop_total (S (2 * length (input s))) s1 Hs1) as (t & v & s2 & E1 & _). { unfold left_over in *. destruct (yy_start s), (yy_start s1); lia. }
  destruct (yylex_total s1 Hs1) as (t' & v' & s2' & E2 & _). rewrite E2. unfold yylex in *.
  change (yylex_loop (S (S (2 * length (input s)))) s) with ('(t, s1) ← scan1 s; match t with Some (t, v) => Ok (t, v, s1) | None => yylex_loop (S (2 * length (input s))) s1 end).
  rewrite E. cbn [mbind result_bind]. rewrite E1.
  destruct (Nat.le_ge_cases (S (2 * length (input s))) (S (S (2 * length (input s1))))) as [Hle|Hle].
  - by rewrite (yylex_loop_more _ _ _ _ E1 Hle) in E2.
  - rewrite (yylex_loop_more _ _ _ _ E2 Hle) in E1. congruence.
Qed.

Lemma yylex_token s t v s1 : scan1 s = Ok (Some (t, v), s1) -> yylex s = Ok (t, v, s1).
Proof. intros E. unfold yylex. cbn [yylex_loop]. by rewrite E. Qed.
End Scan.
