(* ===== verification/RslYacc.v ===== *)
(** * Job descriptions: the parser (gram/rsl/source/globus_rsl_parser.c, from
    globus_rsl_parser.y)

    The tables and the driver of the parser as they are in the generated file: the stack of
    states and values, shifts and reductions chosen by the packed tables, the limit of the
    stack, the error message with the tokens that were expected, and [yyerror], which prints
    it behind the text of the token into an array of 1024 characters.

    A semantic value is tagged with the member of the union that was written. Reading a
    member of another type is a fault, except for a pointer that is read as another pointer
    and is only stored ([RSL_pointer]); an access outside a table is a fault, too. Locations and the debugging
    output are left out; the allocation of a larger stack, of nodes and of strings does not
    fail. *)
From S2P Require Import Prelude.
From S2P Require Import Chars.
From S2P Require Import Rsl.
From S2P Require Import RslScan.
Local Open Scope Z_scope.

Module Yacc.
Import Rsl Scan.

Abbreviation str := (list Z) (only parsing).

(** ** The tables *)
Definition YYFINAL : Z := 10.
Definition YYLAST : Z := 34.
Definition YYNTOKENS : Z := 17.
Definition YYUNDEFTOK : Z := 2.
Definition YYMAXUTOK : Z := 271.
Definition YYPACT_NINF : Z := -20.
Definition YYTABLE_NINF : Z := -1.
Definition YYEMPTY : Z := -2.
Definition YYTERROR : Z := 1.
Definition YYINITDEPTH : Z := 200.
Definition YYMAXDEPTH : Z := 10000.

Definition yytranslate : list Z := 0 :: replicate 255 2 ++ [1; 2; 3; 4; 5; 6; 7; 8; 9; 10; 11; 12; 13; 14; 15; 16].

Definition YYTRANSLATE (yyx : Z) : result Z := if (0 <=? yyx) && (yyx <=? YYMAXUTOK) then c_index yytranslate yyx else Ok YYUNDEFTOK.

Definition yytname : list str := codes <$>
  ["$end"; "error"; "$undefined"; "RSL_STRING"; "RSL_OP_AND"; "RSL_OP_OR";
   "RSL_OP_MULTIREQ"; "RSL_OP_EQ"; "RSL_OP_NEQ"; "RSL_OP_LT"; "RSL_OP_LTEQ";
   "RSL_OP_GT"; "RSL_OP_GTEQ"; "RSL_OP_CONCATENATE"; "RSL_LPAREN";
   "RSL_RPAREN"; "RSL_VARIABLE_START"; "$accept"; "start"; "specification";
   "prefix_operator"; "spec_list"; "request"; "infix_operator"; "sequence";
   "value_list"; "value"; "simple_value"; "variable"; "literal_string"].

Definition yyr1 : list Z :=
  [0; 17; 18; 19; 19; 20; 20; 20; 21; 21; 22; 23; 23; 23; 23; 23; 23; 24; 25; 25; 26; 26; 27; 27; 27; 28; 29].
Definition yyr2 : list Z :=
  [0; 2; 1; 2; 1; 1; 1; 1; 4; 3; 3; 1; 1; 1; 1; 1; 1; 1; 2; 1; 3; 1; 3; 1; 1; 4; 1].
Definition yydefact : list Z :=
  [0; 26; 6; 7; 5; 0; 2; 0; 4; 0; 1; 0; 3; 11; 12; 15; 16; 13; 14; 0; 0; 0; 0; 10; 17; 19; 21; 24; 23; 9; 0; 0; 18; 0; 8; 20; 0; 22; 25].
Definition yydefgoto : list Z := [-1; 5; 6; 7; 12; 8; 19; 23; 24; 25; 26; 27; 28].
Definition yypact : list Z :=
  [2; -20; -20; -20; -20; 3; -20; -5; -20; 9; -20; 2; -20; -20; -20; -20; -20; -20; -20; -3; 7; -3; -4; -20; -20; -3; 10; -20; -20; -5; 11; -3;
   -20; -2; -20; -20; 12; 10; -20].
Definition yypgoto : list Z := [-20; -20; 13; -20; -1; -20; -20; -19; 0; -20; 1; -20; 4].
Definition yytable : list Z :=
  [1; 1; 30; 10; 9; 1; 2; 3; 4; 11; 31; 21; 36; 22; 22; 9; 13; 14; 15; 16; 17; 18; 29; 33; 20; 32; 35; 38; 34; 0; 0; 0; 0; 0; 37].
Definition yycheck : list Z :=
  [3; 3; 21; 0; 0; 3; 4; 5; 6; 14; 14; 14; 31; 16; 16; 11; 7; 8; 9; 10; 11; 12; 15; 13; 11; 25; 15; 15; 29; -1; -1; -1; -1; -1; 33].
Definition yystos : list Z :=
  [0; 3; 4; 5; 6; 18; 19; 20; 22; 29; 0; 14; 21; 7; 8; 9; 10; 11; 12; 23; 19; 14; 16; 24; 25; 26; 27; 28; 29; 15; 24; 14; 25; 13; 21; 15; 24; 27; 15].

(** ** Values and the state of the parser *)

(** [YYSTYPE]; a list holds trees or values. *)
Inductive YYSTYPE :=
| Unset
| Int (n : Z)
| String_ (s : str)
| RSL (r : rsl)
| RSLval (v : rsl_value)
| List_RSL (l : list rsl)
| List_RSLval (l : list rsl_value).

(** The stacks [yyss] and [yyvs], with the top first, and the variables of [yyparse]. *)
Record parser := Parser {
  stacks : list (Z * YYSTYPE);
  yystacksize : Z;
  yyerrstatus : Z;
  yychar : Z;
  yylval : YYSTYPE;
  scan : scanner;
  rsl_spec : option rsl }.

Definition parser_init (buf : str) : parser := Parser [(0, Unset)] YYINITDEPTH 0 YYEMPTY Unset (scanner_init buf) None.

(** On with the next state, or the end of [yyparse] with its result. *)
Inductive outcome := Next (p : parser) | Done (yyresult : Z) (p : parser).

Definition set_spec (o : option rsl) (p : parser) : parser :=
  Parser (stacks p) (yystacksize p) (yyerrstatus p) (yychar p) (yylval p) (scan p) o.
Definition set_errstatus (n : Z) (p : parser) : parser :=
  Parser (stacks p) (yystacksize p) n (yychar p) (yylval p) (scan p) (rsl_spec p).
Definition set_char (c : Z) (p : parser) : parser :=
  Parser (stacks p) (yystacksize p) (yyerrstatus p) c (yylval p) (scan p) (rsl_spec p).
Definition set_stacks (l : list (Z * YYSTYPE)) (p : parser) : parser :=
  Parser l (yystacksize p) (yyerrstatus p) (yychar p) (yylval p) (scan p) (rsl_spec p).
Definition set_stacksize (n : Z) (p : parser) : parser :=
  Parser (stacks p) n (yyerrstatus p) (yychar p) (yylval p) (scan p) (rsl_spec p).

(** ** Errors *)

Definition GLOBUS_SPECIFICATION_PARSE_ERROR_MESSAGE_LENGTH : Z := 1024.

(** [sprintf(message, "%s: %s", yytext, yymsg)] *)
Definition yyerror (p : parser) (yymsg : str) : result parser :=
  if Z.of_nat (length (yytext (scan p) ++ codes ": " ++ yymsg)) <? GLOBUS_SPECIFICATION_PARSE_ERROR_MESSAGE_LENGTH
  then Ok (set_spec None p) else Fault OutOfBounds.

(** The tokens from [yyx] on, [n] of them, that the state with the table index [yyn] accepts. *)
Fixpoint expected (n : nat) (yyx yyn : Z) : result (list Z) :=
  match n with
  | O => Ok []
  | S n =>
      c ← c_index yycheck (yyx + yyn);
      l ← expected n (yyx + 1) yyn;
      Ok (if (c =? yyx) && negb (yyx =? YYTERROR) then yyx :: l else l)
  end.

Definition YYERROR_VERBOSE_ARGS_MAXIMUM : nat := 5.

(** The names after the first one are written with the prefix [yyprefix], then with [yyor]. *)
Fixpoint expecting (yyprefix : str) (l : list Z) : result str :=
  match l with
  | [] => Ok []
  | yyx :: l => name ← c_index yytname yyx; rest ← expecting (codes " or ") l; Ok (yyprefix ++ name ++ rest)
  end.

(** The message; [None] when an ordinary one will do. The buffer is made large enough. *)
Definition yysyntax_error (yystate token : Z) : result (option str) :=
  yyn ← c_index yypact yystate;
  if negb ((YYPACT_NINF <? yyn) && (yyn <=? YYLAST)) then Ok None
  else
    yytype ← YYTRANSLATE token;
    unexpected ← c_index yytname yytype;
    let yyxbegin := if yyn <? 0 then - yyn else 0 in
    let yychecklim := YYLAST - yyn + 1 in
    let yyxend := if yychecklim <? YYNTOKENS then yychecklim else YYNTOKENS in
    l ← expected (Z.to_nat (yyxend - yyxbegin)) yyxbegin yyn;
    more ← expecting (codes ", expecting ") (if (length l <? YYERROR_VERBOSE_ARGS_MAXIMUM)%nat then l else []);
    Ok (Some (codes "syntax error, unexpected " ++ unexpected ++ more)).

(** ** The driver *)

Definition yyexhaustedlab (p : parser) : result outcome := p ← yyerror p (codes "memory exhausted"); Ok (Done 2 p).

(** A state and a value are pushed; the stacks grow up to [YYMAXDEPTH]. *)
Definition yynewstate (p : parser) (yystate : Z) (v : YYSTYPE) : result outcome :=
  let p := set_stacks ((yystate, v) :: stacks p) p in
  let yysize := Z.of_nat (length (stacks p)) in
  if yystacksize p <=? yysize then
    if YYMAXDEPTH <=? yystacksize p then yyexhaustedlab p
    else
      let n := Z.min (yystacksize p * 2) YYMAXDEPTH in
      if n <=? yysize then Ok (Done 1 p) else Ok (Next (set_stacksize n p))
  else Ok (Next p).

(** States are popped until one shifts the error token. *)
Fixpoint pop_error (l : list (Z * YYSTYPE)) : result (option (Z * list (Z * YYSTYPE))) :=
  match l with
  | [] => Ok None
  | (yystate, _) :: l' =>
      yyn ← c_index yypact yystate;
      let i := yyn + YYTERROR in
      if negb (yyn =? YYPACT_NINF) && (0 <=? i) && (i <=? YYLAST) then
        c ← c_index yycheck i;
        yyn ← c_index yytable i;
        if (c =? YYTERROR) && (0 <? yyn) then Ok (Some (yyn, l)) else pop_error l'
      else pop_error l'
  end.

Definition yyerrlab1 (p : parser) : result outcome :=
  let p := set_errstatus 3 p in
  o ← pop_error (stacks p);
  match o with
  | None => Ok (Done 1 p)
  | Some (yyn, l) => if yyn =? YYFINAL then Ok (Done 0 p) else yynewstate (set_stacks l p) yyn (yylval p)
  end.

Definition yyerrlab (p : parser) (yystate : Z) : result outcome :=
  p ← (if yyerrstatus p =? 0 then
         m ← yysyntax_error yystate (yychar p);
         yyerror p (default (codes "syntax error") m)
       else Ok p);
  if yyerrstatus p =? 3 then
    if yychar p <=? YYEOF then if yychar p =? YYEOF then Ok (Done 1 p) else yyerrlab1 p
    else yyerrlab1 (set_char YYEMPTY p)
  else yyerrlab1 p.

(** What [(void * ) $<RSL>n] points to. The pointer members of the union have one
    representation: when the member that was written is [RSLval], reading [RSL] gives the
    pointer to the value, which the list keeps without its type. *)
Definition RSL_pointer (v : YYSTYPE) : option (rsl + rsl_value) :=
  match v with RSL r => Some (inl r) | RSLval x => Some (inr x) | _ => None end.

(** The actions of the rules: [$$] and, for the first rule, the result of the parse. The
    rules of spec_list (8, 9) and of value_list (18, 19) all read the member [RSL]. Reading a
    member that is no pointer, or using what is behind one as something else, is a fault. *)
Definition rule_action (yyn : Z) (rhs : list YYSTYPE) (p : parser) : result (YYSTYPE * parser) :=
  let ret v := Ok (v, p) in
  match yyn, rhs with
  | 2, [RSL r] => Ok (RSL r, set_spec (Some r) p)
  | 3, [Int op; List_RSL l] => ret (RSL (Boolean op l))
  | 4, [RSL r] => ret (RSL r)
  | 5, [_] => ret (Int GLOBUS_RSL_MULTIREQ)
  | 6, [_] => ret (Int GLOBUS_RSL_AND)
  | 7, [_] => ret (Int GLOBUS_RSL_OR)
  | 8, [_; x; _; List_RSL l] => match RSL_pointer x with Some (inl r) => ret (List_RSL (r :: l)) | _ => Fault NullDeref end
  | 9, [_; x; _] => match RSL_pointer x with Some (inl r) => ret (List_RSL [r]) | _ => Fault NullDeref end
  | 10, [String_ a; Int op; RSLval v] => ret (RSL (Relation op a v))
  | 11, [_] => ret (Int GLOBUS_RSL_EQ)
  | 12, [_] => ret (Int GLOBUS_RSL_NEQ)
  | 13, [_] => ret (Int GLOBUS_RSL_GT)
  | 14, [_] => ret (Int GLOBUS_RSL_GTEQ)
  | 15, [_] => ret (Int GLOBUS_RSL_LT)
  | 16, [_] => ret (Int GLOBUS_RSL_LTEQ)
  | 17, [List_RSLval l] => ret (RSLval (VSequence l))
  | 18, [x; List_RSLval l] => match RSL_pointer x with Some (inr v) => ret (List_RSLval (v :: l)) | _ => Fault NullDeref end
  | 19, [x] => match RSL_pointer x with Some (inr v) => ret (List_RSLval [v]) | _ => Fault NullDeref end
  | 20, [_; RSLval v; _] => ret (RSLval v)
  | 21, [RSLval v] => ret (RSLval v)
  | 22, [RSLval l; _; RSLval r] => ret (RSLval (VConcatenation (Some l) (Some r)))
  | 23, [String_ s] => ret (RSLval (VLiteral (Some s)))
  | 24, [RSLval v] => ret (RSLval v)
  | 25, [_; _; RSLval v; _] => ret (RSLval (VVariable v))
  | 26, [String_ s] => ret (String_ s)
  | _, v :: _ => if (2 <=? yyn) && (yyn <=? 26) then Fault NullDeref else ret v
  | _, [] => Fault NullDeref
  end.

(** The member of the union that was written, and the members that the action of a rule
    reads: [$<m>k] for the symbol k of its right side, [None] for a symbol it does not read. *)
Inductive member := MInt | MString | MRSL | MRSLval | MList.

#[export] Instance member_eq_dec : EqDecision member.
Proof. solve_decision. Defined.

Definition written (v : YYSTYPE) : option member :=
  match v with
  | Unset => None
  | Int _ => Some MInt
  | String_ _ => Some MString
  | RSL _ => Some MRSL
  | RSLval _ => Some MRSLval
  | List_RSL _ | List_RSLval _ => Some MList
  end.

Definition members_read (yyn : Z) : list (option member) :=
  match yyn with
  | 2 | 4 => [Some MRSL]
  | 3 => [Some MInt; Some MList]
  | 8 => [None; Some MRSL; None; Some MList]
  | 9 => [None; Some MRSL; None]
  | 10 => [Some MString; Some MInt; Some MRSLval]
  | 17 => [Some MList]
  | 18 => [Some MRSL; Some MList]
  | 19 => [Some MRSL]
  | 20 => [None; Some MRSLval; None]
  | 21 | 24 => [Some MRSLval]
  | 22 => [Some MRSLval; None; Some MRSLval]
  | 23 | 26 => [Some MString]
  | 25 => [None; None; Some MRSLval; None]
  | _ => [None]
  end.

(** The state after a reduction, from the state that the pops uncover. *)
Definition yygoto (top yyn : Z) : result Z :=
  sym ← c_index yyr1 yyn;
  base ← c_index yypgoto (sym - YYNTOKENS);
  let yystate := base + top in
  c ← (if (0 <=? yystate) && (yystate <=? YYLAST) then c_index yycheck yystate else Ok (-1));
  if c =? top then c_index yytable yystate else c_index yydefgoto (sym - YYNTOKENS).

Definition yyreduce (p : parser) (yyn : Z) : result outcome :=
  yylen ← c_index yyr2 yyn;
  '(yyval, p) ← rule_action yyn (rev (take (Z.to_nat yylen) (stacks p).*2)) p;
  let p := set_stacks (drop (Z.to_nat yylen) (stacks p)) p in
  '(top, _) ← deref (head (stacks p));
  yystate ← yygoto top yyn;
  yynewstate p yystate yyval.

Definition yydefault (p : parser) (yystate : Z) : result outcome :=
  yyn ← c_index yydefact yystate;
  if yyn =? 0 then yyerrlab p yystate else yyreduce p yyn.

(** [YYLEX], when there is no look-ahead token. *)
Definition yyread (p : parser) : result parser :=
  if yychar p =? YYEMPTY then
    '(c, v, s) ← yylex (scan p);
    Ok (Parser (stacks p) (yystacksize p) (yyerrstatus p) c (match v with Some v => String_ v | None => yylval p end) s (rsl_spec p))
  else Ok p.

Definition yybackup (p : parser) : result outcome :=
  '(yystate, _) ← deref (head (stacks p));
  yyn ← c_index yypact yystate;
  if yyn =? YYPACT_NINF then yydefault p yystate
  else
    p ← yyread p;
    let p := if yychar p <=? YYEOF then set_char YYEOF p else p in
    yytoken ← (if yychar p <=? YYEOF then Ok YYEOF else YYTRANSLATE (yychar p));
    let yyn := yyn + yytoken in
    c ← (if (yyn <? 0) || (YYLAST <? yyn) then Ok (-1) else c_index yycheck yyn);
    if negb (c =? yytoken) then yydefault p yystate
    else
      yyn ← c_index yytable yyn;
      if yyn <=? 0 then if (yyn =? 0) || (yyn =? YYTABLE_NINF) then yyerrlab p yystate else yyreduce p (- yyn)
      else if yyn =? YYFINAL then Ok (Done 0 p)
      else
        let p := if yyerrstatus p =? 0 then p else set_errstatus (yyerrstatus p - 1) p in
        let p := if yychar p =? YYEOF then p else set_char YYEMPTY p in
        yynewstate p yyn (yylval p).

Fixpoint yyparse (fuel : nat) (p : parser) : result (Z * parser) :=
  match fuel with
  | O => Fault OutOfFuel
  | S fuel => o ← yybackup p; match o with Next p => yyparse fuel p | Done rc p => Ok (rc, p) end
  end.

(** The fuel is enough for every text: [parse_total]. *)
Definition parse_fuel (buf : str) : nat := 20 * length buf + 1.

Definition globus_rsl_parse (buf : str) : result (option rsl) :=
  '(_, p) ← yyparse (parse_fuel buf) (parser_init buf);
  Ok (rsl_spec p).

(** ** The language: the tokens of a tree *)

Abbreviation tok := (Z * option str)%type (only parsing).
Definition sym (t : Z) : tok := (t, None).

Definition prefix_token (op : Z) : Z :=
  if op =? GLOBUS_RSL_MULTIREQ then RSL_OP_MULTIREQ else if op =? GLOBUS_RSL_AND then RSL_OP_AND else RSL_OP_OR.

Definition infix_token (op : Z) : Z :=
  if op =? GLOBUS_RSL_EQ then RSL_OP_EQ else if op =? GLOBUS_RSL_NEQ then RSL_OP_NEQ
  else if op =? GLOBUS_RSL_GT then RSL_OP_GT else if op =? GLOBUS_RSL_GTEQ then RSL_OP_GTEQ
  else if op =? GLOBUS_RSL_LT then RSL_OP_LT else RSL_OP_LTEQ.

Fixpoint value_tokens (v : rsl_value) : list tok :=
  match v with
  | VLiteral s => [(RSL_STRING, s)]
  | VSequence l => sym RSL_LPAREN :: mjoin (value_tokens <$> l) ++ [sym RSL_RPAREN]
  | VVariable s => sym RSL_VARIABLE_START :: value_tokens s
  | VConcatenation l r => from_option value_tokens [] l ++ sym RSL_OP_CONCATENATE :: from_option value_tokens [] r
  end.

Fixpoint rsl_tokens (r : rsl) : list tok :=
  match r with
  | Boolean op l => sym (prefix_token op) :: mjoin ((fun r => sym RSL_LPAREN :: rsl_tokens r ++ [sym RSL_RPAREN]) <$> l)
  | Relation op a v => (RSL_STRING, Some a) :: sym (infix_token op) :: mjoin (value_tokens <$> globus_rsl_value_sequence_get_value_list v)
  end.

(** The trees of the language: lists are not empty, the operands of a concatenation are
    literals, variables or, on the right, concatenations. *)
Definition atom (v : rsl_value) : bool := match v with VLiteral _ | VVariable _ => true | _ => false end.

Definition filled {A} (l : list A) : bool := match l with [] => false | _ => true end.

Fixpoint value_in (v : rsl_value) : bool :=
  match v with
  | VLiteral s => match s with Some _ => true | None => false end
  | VSequence l => filled l && forallb value_in l
  | VVariable s => globus_rsl_value_is_sequence s && value_in s
  | VConcatenation (Some l) (Some r) => atom l && negb (globus_rsl_value_is_sequence r) && value_in l && value_in r
  | _ => false
  end.

Definition prefix_op (op : Z) : bool := (op =? GLOBUS_RSL_MULTIREQ) || (op =? GLOBUS_RSL_AND) || (op =? GLOBUS_RSL_OR).
Definition infix_op (op : Z) : bool := (GLOBUS_RSL_EQ <=? op) && (op <=? GLOBUS_RSL_LTEQ).

Fixpoint rsl_in (r : rsl) : bool :=
  match r with
  | Boolean op l => prefix_op op && filled l && forallb rsl_in l
  | Relation op _ v => infix_op op && globus_rsl_value_is_sequence v && value_in v
  end.

(** ** The invariant of the parser *)

(** The states that can be below a state. *)
Definition below : list (list Z) :=
  [[]; [0; 11; 19; 21; 25; 31; 33]; [0; 11]; [0; 11]; [0; 11]; [0]; [0]; [0; 11]; [0; 11]; [0; 11];
   []; [7; 29]; [7]; [9]; [9]; [9]; [9]; [9]; [9]; [9];
   [11]; [19; 21; 25; 31]; [19; 21; 25; 31; 33]; [19]; [19; 21; 31]; [19; 21; 25; 31]; [19; 21; 25; 31]; [19; 21; 25; 31; 33]; [19; 21; 25; 31; 33]; [20];
   [21]; [22]; [25]; [26; 37]; [29]; [30]; [31]; [33]; [36]].

Definition below_of (q : Z) : list Z := nth (Z.to_nat q) below [].
Definition stos (q : Z) : Z := nth (Z.to_nat q) yystos 0.

Definition is_concat (v : YYSTYPE) : bool := match v with RSLval (VConcatenation _ _) => true | _ => false end.

(** The value of a symbol, and the tokens it stands for. *)
Definition slot (s : Z) (v : YYSTYPE) (ts : list tok) : Prop :=
  match s with
  | 3 | 29 => exists a, v = String_ a /\ ts = [(RSL_STRING, Some a)]
  | 18 | 19 | 22 => exists r, v = RSL r /\ rsl_in r = true /\ ts = rsl_tokens r
  | 20 => exists op, v = Int op /\ prefix_op op = true /\ ts = [sym (prefix_token op)]
  | 21 => exists l, v = List_RSL l /\ filled l && forallb rsl_in l = true /\ ts = mjoin ((fun r => sym RSL_LPAREN :: rsl_tokens r ++ [sym RSL_RPAREN]) <$> l)
  | 23 => exists op, v = Int op /\ infix_op op = true /\ ts = [sym (infix_token op)]
  | 24 => exists l, v = RSLval (VSequence l) /\ filled l && forallb value_in l = true /\ ts = mjoin (value_tokens <$> l)
  | 25 => exists l, v = List_RSLval l /\ filled l && forallb value_in l = true /\ ts = mjoin (value_tokens <$> l)
  | 26 => exists x, v = RSLval x /\ value_in x = true /\ ts = value_tokens x
  | 27 => exists x, v = RSLval x /\ value_in x = true /\ globus_rsl_value_is_sequence x = false /\ ts = value_tokens x
  | 28 => exists x, v = RSLval x /\ value_in x = true /\ atom x = true /\ ts = value_tokens x
  | _ => ts = [sym (s + 255)]
  end.

Inductive stack_inv : list (Z * YYSTYPE) -> list tok -> Prop :=
| stack_bottom v : stack_inv [(0, v)] []
| stack_push q v p w l ts ts' :
    stack_inv ((p, w) :: l) ts -> p ∈ below_of q -> slot (stos q) v ts' -> (q = 33 -> is_concat w = false) ->
    stack_inv ((q, v) :: (p, w) :: l) (ts ++ ts').

(** The tokens that the scanner has returned. *)
Inductive lexed : scanner -> list tok -> scanner -> Prop :=
| lexed_nil s : lexed s [] s
| lexed_snoc s ts s1 t v s2 : lexed s ts s1 -> yylex s1 = Ok (t, v, s2) -> t <> YYEOF -> lexed s (ts ++ [(t, v)]) s2.

(** All the tokens of a text, up to its end or to a character of no token. *)
Definition tokens_of (s : scanner) (ts : list tok) : Prop := exists s1 v s2, lexed s ts s1 /\ yylex s1 = Ok (YYEOF, v, s2).

(** The tokens [ts] have been shifted; then there is no look-ahead token, the end, or a token. *)
Inductive reads (s0 : scanner) (ts : list tok) (c : Z) (lval : YYSTYPE) (s : scanner) : Prop :=
| reads_empty : c = YYEMPTY -> lexed s0 ts s -> scanner_ok s -> reads s0 ts c lval s
| reads_end : c = YYEOF -> tokens_of s0 ts -> reads s0 ts c lval s
| reads_token v : token_ok c v -> lexed s0 (ts ++ [(c, v)]) s -> scanner_ok s -> (forall a, v = Some a -> lval = String_ a) -> reads s0 ts c lval s.

(** A concatenation is on top only when no other one follows. *)
Definition no_more (p : parser) : Prop :=
  forall q v l, stacks p = (q, v) :: l -> is_concat v = true -> yychar p <> YYEMPTY /\ yychar p <> RSL_OP_CONCATENATE.

(** The result is set by the reduction to the start symbol, which is the state 5. *)
Definition result_of (q : Z) (v : YYSTYPE) : option rsl := if q =? 5 then match v with RSL r => Some r | _ => None end else None.

Record inv (s0 : scanner) (ts : list tok) (p : parser) : Prop := {
  inv_stack : stack_inv (stacks p) ts;
  inv_reads : reads s0 ts (yychar p) (yylval p) (scan p);
  inv_top : no_more p;
  inv_size : Z.of_nat (length (stacks p)) < yystacksize p <= YYMAXDEPTH;
  inv_status : yyerrstatus p = 0;
  inv_spec : forall q v l, stacks p = (q, v) :: l -> rsl_spec p = result_of q v;
  inv_lval : is_concat (yylval p) = false;
  inv_text : (length (yytext (scan p)) <= length (input s0))%nat;
  inv_input : yychar p <> YYEOF -> (length (input (scan p)) <= length (input s0))%nat }.

(** ** Termination *)
Definition sym_weight (s : Z) : nat :=
  match s with 0 | 18 => 0 | 19 => 1 | 22 => 2 | 21 | 24 => 3 | 25 => 4 | 26 => 5 | 27 => 6 | 20 | 23 | 28 | 29 => 7 | _ => 8 end.

Definition measure (p : parser) : nat :=
  sum_list_with (fun x => sym_weight (stos x.1)) (stacks p) +
  (if (yychar p =? YYEOF)%Z then 0 else 10 * left_over (scan p) + (if (yychar p =? YYEMPTY)%Z then 0 else 9))%nat.

(** What a step promises. [too_long]: the message did not fit. *)
Definition too_long (s0 : scanner) : Prop := (800 < length (input s0))%nat.

Definition step_ok (s0 : scanner) (p : parser) (o : result outcome) : Prop :=
  match o with
  | Ok (Next p') => (exists ts, inv s0 ts p') /\ (measure p' < measure p)%nat
  | Ok (Done yyresult p') =>
      (yyresult = 0 /\ exists r, rsl_spec p' = Some r /\ rsl_in r = true /\ tokens_of s0 (rsl_tokens r)) \/ (yyresult <> 0 /\ rsl_spec p' = None)
  | Fault OutOfBounds => too_long s0
  | Fault _ => False
  end.

(** ** Facts of the tables *)
Definition states : list Z :=
  [0; 1; 2; 3; 4; 5; 6; 7; 8; 9; 10; 11; 12; 13; 14; 15; 16; 17; 18; 19; 20; 21; 22; 23; 24; 25; 26; 27; 28; 29; 30; 31; 32; 33; 34; 35; 36; 37; 38].
Definition tokens : list Z := [258; 259; 260; 261; 262; 263; 264; 265; 266; 267; 268; 269; 270; 271].

Lemma elem_of_states q : q ∈ states <-> 0 <= q < 39.
Proof. change states with (seqZ 0 39). rewrite elem_of_seqZ. lia. Qed.

Lemma elem_of_tokens t : t ∈ tokens <-> 258 <= t < 272.
Proof. change tokens with (seqZ 258 14). rewrite elem_of_seqZ. lia. Qed.

Lemma stack_top q v l ts : stack_inv ((q, v) :: l) ts -> q ∈ states.
Proof.
  inversion 1 as [|? ? ? ? ? ? ? _ Hb]; subst; [by apply elem_of_states|]. apply elem_of_states. unfold below_of in Hb.
  destruct (decide (0 <= q < 39)) as [|Hq]; [lia|]. exfalso. destruct (Z.le_gt_cases 0 q).
  - rewrite nth_overflow in Hb by (cbn; lia). by apply elem_of_nil in Hb.
  - destruct q; try lia. by apply elem_of_nil in Hb.
Qed.

Lemma stack_pop q v l ts :
  stack_inv ((q, v) :: l) ts -> q <> 0 ->
  exists p w l' ts0 ts1, l = (p, w) :: l' /\ ts = ts0 ++ ts1 /\ stack_inv ((p, w) :: l') ts0 /\ p ∈ below_of q /\ slot (stos q) v ts1 /\ (q = 33 -> is_concat w = false).
Proof. inversion 1; subst; [done|]. intros _. eexists _, _, _, _, _. eauto 10. Qed.

Lemma stack_states l ts : stack_inv l ts -> Forall (fun x => x.1 ∈ states) l.
Proof.
  induction 1 as [v|q v p w l ts ts' Hs IH Hb Hv Hw]; [constructor; [by apply elem_of_states|done]|]. constructor; [|done]. by eapply (stack_top q v), stack_push.
Qed.

(** No state shifts the error token. *)
Lemma pop_error_none l : Forall (fun x => x.1 ∈ states) l -> pop_error l = Ok None.
Proof.
  induction 1 as [|[q v] l Hq _ IH]; [done|]. cbn [pop_error]. rewrite IH. cbn in Hq.
  assert (forallb (fun q => bool_decide ((yyn ← c_index yypact q; let i := yyn + YYTERROR in
    if negb (yyn =? YYPACT_NINF) && (0 <=? i) && (i <=? YYLAST) then
      c ← c_index yycheck i; yyn ← c_index yytable i; Ok ((c =? YYTERROR) && (0 <? yyn)) else Ok false) = Ok false)) states = true) as Hc by (vm_compute; reflexivity).
  rewrite forallb_forall in Hc. specialize (Hc q (proj1 (list_elem_of_In _ _) Hq)). apply bool_decide_eq_true in Hc.
  destruct (c_index yypact q) as [yyn|]; [|done]. cbn [mbind result_bind] in *. destruct (_ && _); [|done].
  destruct (c_index yycheck _); [|done]. cbn [mbind result_bind] in *. destruct (c_index yytable _); [|done]. cbn [mbind result_bind] in *. by injection Hc as ->.
Qed.

Lemma syntax_error_short q t : q ∈ states -> t = YYEOF \/ t ∈ tokens ->
  exists m, yysyntax_error q t = Ok m /\ (length (default (codes "syntax error") m) <= 200)%nat.
Proof.
  intros Hq Ht.
  assert (forallb (fun q => forallb (fun t => match yysyntax_error q t with Ok m => (length (default (codes "syntax error") m) <=? 200)%nat | _ => false end) (YYEOF :: tokens)) states = true) as Hc
    by (vm_compute; reflexivity).
  rewrite forallb_forall in Hc. specialize (Hc q (proj1 (list_elem_of_In _ _) Hq)). rewrite forallb_forall in Hc. specialize (Hc t).
  assert (In t (YYEOF :: tokens)) as Hin by (destruct Ht as [->|Ht]; [by left|right; by apply list_elem_of_In]). specialize (Hc Hin).
  destruct (yysyntax_error q t) as [m|]; [|done]. exists m. split; [done|]. by apply Nat.leb_le.
Qed.

Lemma yyerror_ok s0 p msg :
  (length (yytext (scan p)) <= length (input s0))%nat -> (length msg <= 200)%nat ->
  yyerror p msg = Ok (set_spec None p) \/ (yyerror p msg = Fault OutOfBounds /\ too_long s0).
Proof.
  intros Ht Hm. unfold yyerror, too_long. rewrite !length_app. change (length (codes ": ")) with 2%nat.
  unfold GLOBUS_SPECIFICATION_PARSE_ERROR_MESSAGE_LENGTH. destruct (Z.ltb_spec (Z.of_nat (length (yytext (scan p)) + (2 + length msg))) 1024); [by left|right]. split; [done|lia].
Qed.

Lemma errlab_ok s0 ts p0 p q :
  inv s0 ts p -> q ∈ states -> yychar p = YYEOF \/ yychar p ∈ tokens -> step_ok s0 p0 (yyerrlab p q).
Proof.
  intros Hp Hq Ht. unfold yyerrlab. rewrite (inv_status _ _ _ Hp). cbn [Z.eqb]. destruct (syntax_error_short q (yychar p) Hq Ht) as (m & -> & Hm). cbn [mbind result_bind].
  destruct (yyerror_ok s0 p _ (inv_text _ _ _ Hp) Hm) as [-> | [-> Hl]]; [|exact Hl]. cbn [mbind result_bind set_spec yyerrstatus yychar].
  rewrite (inv_status _ _ _ Hp). cbn [Z.eqb]. unfold yyerrlab1. cbn [set_errstatus set_spec stacks]. rewrite (pop_error_none _ (stack_states _ _ (inv_stack _ _ _ Hp))). by right.
Qed.

(** Reading the look-ahead token. *)
Lemma token_range t v : token_ok t v -> t ∈ tokens.
Proof. rewrite elem_of_tokens. unfold token_ok, RSL_STRING, RSL_OP_AND, RSL_VARIABLE_START. lia. Qed.

Lemma reads_range s0 ts c lval s : reads s0 ts c lval s -> c <> YYEMPTY -> c = YYEOF \/ c ∈ tokens.
Proof. intros [|? _|v Hv _ _ _] Hne; [done|by left|right; by eapply token_range]. Qed.

Lemma yyread_ok s0 ts p :
  inv s0 ts p -> exists p1, yyread p = Ok p1 /\ inv s0 ts p1 /\ yychar p1 <> YYEMPTY /\ stacks p1 = stacks p /\ (measure p1 <= measure p)%nat.
Proof.
  intros Hp. unfold yyread. destruct (Z.eqb_spec (yychar p) YYEMPTY) as [E|E]; [|exists p; split_and!; done].
  destruct (inv_reads _ _ _ Hp) as [_ Hl Hs|E' _|v Hv _ _ _].
  2:{ rewrite E' in E. done. }
  2:{ apply token_range in Hv. rewrite E in Hv. rewrite elem_of_tokens in Hv. unfold YYEMPTY in Hv. lia. }
  destruct (yylex_total (scan p) Hs) as (t & v & s' & Ey & Hx & Ht). rewrite Ey. cbn [mbind result_bind]. eexists. split; [done|]. destruct Hp as [H1 H2 H3 H4 H5 H6 Hlval H7 H8]. rewrite E in H8. specialize (H8 ltac:(done)).
  assert (forall q w l, stacks p = (q, w) :: l -> is_concat w = true -> False) as Hno by (intros q w l Ew Hw; by destruct (H3 q w l Ew Hw)).
  assert (length (input s') <= length (input (scan p)) \/ (t = YYEOF /\ v = None))%nat as Hi.
  { destruct Ht as [Ht|(_ & _ & Hm)]; [by right|left]. unfold left_over in Hm. destruct (yy_start s'), (yy_start (scan p)); lia. }
  unfold measure. cbn [stacks yychar scan]. rewrite E. destruct Ht as [[-> ->]|(Ht & Hs' & Hm)].
  - split; [|split_and!; [done|done|cbn; lia]]. split; cbn; try done; [apply reads_end; [done|by eexists _, _, _]|lia].
  - pose proof (token_range _ _ Ht) as Hr. rewrite elem_of_tokens in Hr. split; [|split_and!; [cbn; unfold YYEMPTY; lia|done|]].
    + split; cbn; try done; [|intros ? ? ? Ew Hw; by destruct (Hno _ _ _ Ew Hw)|by destruct v|lia|].
      * eapply (reads_token _ _ _ _ _ v); cbn; [done| |done|]. { eapply lexed_snoc; [done|done|unfold YYEOF; lia]. } by intros a ->.
      * intros _. destruct Hi as [Hi|[Hi _]]; [lia|unfold YYEOF in Hi; lia].
    + rewrite (proj2 (Z.eqb_neq t YYEOF)), (proj2 (Z.eqb_neq t YYEMPTY)) by (unfold YYEOF, YYEMPTY; lia).
      change (YYEMPTY =? YYEOF) with false. change (YYEMPTY =? YYEMPTY) with true. cbv iota. lia.
Qed.

Lemma newstate_ok s0 ts p0 p q v :
  stack_inv ((q, v) :: stacks p) ts -> reads s0 ts (yychar p) (yylval p) (scan p) ->
  (is_concat v = true -> yychar p <> YYEMPTY /\ yychar p <> RSL_OP_CONCATENATE) ->
  Z.of_nat (length (stacks p)) < yystacksize p <= YYMAXDEPTH -> yyerrstatus p = 0 ->
  rsl_spec p = result_of q v -> is_concat (yylval p) = false ->
  (length (yytext (scan p)) <= length (input s0))%nat -> (yychar p <> YYEOF -> (length (input (scan p)) <= length (input s0))%nat) ->
  (measure (set_stacks ((q, v) :: stacks p) p) < measure p0)%nat ->
  step_ok s0 p0 (yynewstate p q v).
Proof.
  intros Hst Hre Hco Hsz Her Hsp Hlv Htx Hin Hme. unfold yynewstate, YYMAXDEPTH in *. cbn [set_stacks stacks yystacksize length]. rewrite Nat2Z.inj_succ.
  assert (forall n, Z.succ (Z.of_nat (length (stacks p))) < n <= YYMAXDEPTH -> inv s0 ts (set_stacksize n (set_stacks ((q, v) :: stacks p) p))) as Hinv.
  { intros n Hn. split; cbn; try done.
    - intros q' w l [= <- <- <-]. exact Hco.
    - lia.
    - by intros q' w l [= <- <- <-]. }
  destruct (Z.leb_spec (yystacksize p) (Z.succ (Z.of_nat (length (stacks p))))).
  - destruct (Z.leb_spec 10000 (yystacksize p)).
    + unfold yyexhaustedlab. destruct (yyerror_ok s0 (set_stacks ((q, v) :: stacks p) p) (codes "memory exhausted")) as [-> | [-> Hl]]; [done|vm_compute; lia|by right|exact Hl].
    + assert (0 < yystacksize p) by lia. destruct (Z.leb_spec (Z.min (yystacksize p * 2) 10000) (Z.succ (Z.of_nat (length (stacks p))))); [lia|].
      split; [|exact Hme]. exists ts. apply Hinv. unfold YYMAXDEPTH. lia.
  - split; [|exact Hme]. exists ts. specialize (Hinv (yystacksize p)). unfold YYMAXDEPTH in Hinv. destruct p. apply Hinv. lia.
Qed.

(** Evaluate the closed table lookups of a goal or hypothesis. *)
Ltac tab_term f := match f with
  | context [c_index ?t ?i] => let r := eval vm_compute in (c_index t i) in constr:((c_index t i, r))
  | context [yygoto ?q ?n] => let r := eval vm_compute in (yygoto q n) in constr:((yygoto q n, r))
  | context [Z.to_nat (Zpos ?k)] => let r := eval vm_compute in (Z.to_nat (Zpos k)) in constr:((Z.to_nat (Zpos k), r))
  | context [stos ?q] => let r := eval vm_compute in (stos q) in constr:((stos q, r))
  | context [below_of ?q] => let r := eval vm_compute in (below_of q) in constr:((below_of q, r)) end.
Ltac tab := repeat match goal with |- ?G => match tab_term G with (?a, ?b) => change a with b end; cbn [mbind result_bind] end.
Ltac tab_in H := repeat match type of H with ?G => match tab_term G with (?a, ?b) => change a with b in H end; cbn [mbind result_bind] in H end.

(** Take the top of the stack apart, with the states that can be below it. *)
Ltac pop H :=
  let Hb := fresh "Hb" in let Hs := fresh "Hs" in
  apply stack_pop in H as (? & ? & ? & ? & ? & -> & -> & H & Hb & Hs & ?); [|done];
  tab_in Hb; tab_in Hs; rewrite ?elem_of_cons, ?elem_of_nil in Hb;
  repeat match type of Hb with _ \/ _ => destruct Hb as [Hb|Hb] end; try (by destruct Hb); subst.

Ltac use_slots :=
  repeat match goal with
  | H : exists _, _ |- _ => destruct H
  | H : _ /\ _ |- _ => destruct H
  end; subst.

Lemma reduced_ok s0 ts ts' popped q0 w l q v size ch lval sc spec spec' :
  stack_inv ((q0, w) :: l) ts -> q0 ∈ below_of q -> slot (stos q) v ts' -> q <> 33 ->
  reads s0 (ts ++ ts') ch lval sc -> (is_concat v = true -> ch <> YYEMPTY /\ ch <> RSL_OP_CONCATENATE) ->
  Z.of_nat (length (popped ++ (q0, w) :: l)) < size <= YYMAXDEPTH -> (0 < length popped)%nat ->
  spec' = result_of q v -> is_concat lval = false ->
  (length (yytext sc) <= length (input s0))%nat -> (ch <> YYEOF -> (length (input sc) <= length (input s0))%nat) ->
  (sym_weight (stos q) < sum_list_with (fun x => sym_weight (stos x.1)) popped)%nat ->
  step_ok s0 (Parser (popped ++ (q0, w) :: l) size 0 ch lval sc spec) (yynewstate (Parser ((q0, w) :: l) size 0 ch lval sc spec') q v).
Proof.
  intros Hst Hb Hv Hq Hre Hco Hsz Hpo Hsp Hlv Htx Hin Hw. eapply (newstate_ok s0 (ts ++ ts')); try done.
  - by eapply stack_push.
  - rewrite length_app in Hsz. cbn [stacks yystacksize] in *. lia.
  - unfold measure. cbn -[sym_weight stos left_over Nat.mul]. rewrite sum_list_with_app. cbn -[sym_weight stos left_over Nat.mul]. lia.
Qed.

(** The symbols of the rules ([yyrhs]), from rule 2 on. *)
Definition yyrhs : list (list Z) :=
  [[]; []; [19]; [20; 21]; [22]; [6]; [4]; [5]; [14; 19; 15; 21]; [14; 19; 15]; [29; 23; 24]; [7]; [8]; [11]; [12]; [9]; [10]; [25]; [26; 25]; [26];
   [14; 24; 15]; [27]; [27; 13; 27]; [29]; [28]; [16; 14; 24; 15]; [3]].

Definition rhs_of (n : Z) : list Z := nth (Z.to_nat n) yyrhs [].
Definition lhs_of (n : Z) : Z := nth (Z.to_nat n) yyr1 0.

(** The action of a rule gives the left side its value. *)
Definition acts (n : Z) : Prop :=
  forall vs tss, Forall3 slot (rhs_of n) vs tss -> (n = 22 -> forall v, head vs = Some v -> is_concat v = false) ->
  exists v, (forall p, rule_action n vs p = Ok (v, p)) /\ slot (lhs_of n) v (mjoin tss) /\ (is_concat v = true -> n = 22 \/ vs = [v]).

Lemma slots_nil vs tss : Forall3 slot [] vs tss -> vs = [] /\ tss = [].
Proof. by inversion 1. Qed.

Ltac rule_vals H := cbv [rhs_of Z.to_nat Pos.to_nat Pos.iter_op Nat.add nth yyrhs] in H;
  repeat match type of H with Forall3 _ (_ :: _) _ _ => apply Forall3_cons_inv_l in H as (? & ? & ? & ? & -> & -> & ? & H) end;
  apply slots_nil in H as [-> ->].

Lemma acts_terminal n : n ∈ [5; 6; 7; 11; 12; 13; 14; 15; 16] -> acts n.
Proof.
  intros Hn%list_elem_of_In vs tss H _. cbn in Hn.
  repeat (destruct Hn as [<-|Hn]; [rule_vals H; cbn [slot] in *; subst; eexists; split_and!; [reflexivity|by eexists|done]|]). done.
Qed.

Lemma acts_unit n : n ∈ [4; 17; 19; 21; 23; 24; 26] -> acts n.
Proof.
  intros Hn%list_elem_of_In vs tss H _. cbn in Hn.
  repeat (destruct Hn as [<-|Hn]; [rule_vals H; cbn [slot] in *; use_slots; eexists; (split; [reflexivity|]); split; [|by auto]; cbn; rewrite ?app_nil_r; eexists; split_and!; try done|]); try done.
  - cbn. by rewrite H0.
  - cbn. by rewrite app_nil_r.
  - by destruct x0.
Qed.


Lemma acts_long n : n ∈ [3; 8; 9; 10; 18; 20; 22; 25] -> acts n.
Proof.
  intros Hn%list_elem_of_In vs tss H Hc. cbn in Hn.
  repeat (destruct Hn as [<-|Hn]; [rule_vals H; cbn [slot] in *; use_slots; eexists; (split; [reflexivity|]); split; [|by auto]; cbn; rewrite ?app_nil_r; eexists; split_and!; try done|]); try done.
  all: try (cbn; rewrite ?andb_true_iff in *; naive_solver). all: try (cbn; by rewrite <- ?app_assoc, ?app_nil_r).
  specialize (Hc eq_refl _ eq_refl). cbn. rewrite H3, H5, H2. by destruct x4.
Qed.

(** Every rule but the first, which sets the result. *)
Lemma action_ok n : 3 <= n <= 26 -> acts n.
Proof.
  intros Hn. assert (n ∈ [5; 6; 7; 11; 12; 13; 14; 15; 16] \/ n ∈ [4; 17; 19; 21; 23; 24; 26] \/ n ∈ [3; 8; 9; 10; 18; 20; 22; 25]) as [H|[H|H]].
  { rewrite !elem_of_cons, elem_of_nil. lia. }
  - by apply acts_terminal.
  - by apply acts_unit.
  - by apply acts_long.
Qed.

(** A reduction, from the slots of the right side. *)
Ltac reduction H1 H2 H3 H4 Hlval H7 H8 popped :=
  let v := fresh "v" in let Ha := fresh "Ha" in let Hv := fresh "Hv" in let Hc := fresh "Hc" in
  rewrite <- ?app_assoc in H2; cbn [stacks fmap list_fmap snd take rev app drop];
  match goal with |- context [rule_action ?n ?vs] =>
    edestruct (action_ok n ltac:(lia) vs) as (v & Ha & Hv & Hc);
    [repeat (apply Forall3_cons; [eassumption|]); apply Forall3_nil| |
     rewrite Ha; cbn [mbind result_bind stacks head deref set_stacks yystacksize yyerrstatus yychar yylval scan rsl_spec drop]; tab];
    [try done|let r := eval vm_compute in (lhs_of n) in change (lhs_of n) with r in Hv]
  end;
  [..|cbn [mjoin list_join] in Hv; rewrite ?app_nil_r in Hv;
   eapply (reduced_ok _ _ _ popped); [exact H1|apply (bool_decide_eq_true _); vm_compute; reflexivity|exact Hv|discriminate|exact H2| |exact H4|cbn; lia|reflexivity|exact Hlval|exact H7|exact H8|vm_compute; lia];
   intros Hcc; destruct (Hc Hcc) as [Hcn|Hcn]; [done || by auto|done || (injection Hcn as ->; eapply H3; [reflexivity|exact Hcc])]].

Lemma reduce_ok s0 ts p q v l n :
  inv s0 ts p -> stacks p = (q, v) :: l -> c_index yydefact q = Ok n -> n <> 0 ->
  (q = 37 -> yychar p <> YYEMPTY /\ yychar p <> RSL_OP_CONCATENATE) -> step_ok s0 p (yyreduce p n).
Proof.
  intros [H1 H2 H3 H4 H5 H6 Hlval H7 H8] E En Hn H37. destruct p as [stk size status ch lval sc spec]. cbn in H1, H3, H4, H5, H6, Hlval, H7, H8, E, H37. subst stk. specialize (H6 _ _ _ eq_refl).
  pose proof (stack_top _ _ _ _ H1) as Hq%list_elem_of_In. cbn in Hq.
  repeat (destruct Hq as [<-|Hq]; [tab_in En; injection En as <-; try done|]); [..|done].
  all: unfold yyreduce; tab; cbn [yychar yylval scan] in H2; unfold no_more in H3; cbn [stacks yychar] in H3.
  - pop H1; reduction H1 H2 H3 H4 Hlval H7 H8 open_constr:([_]).
  - pop H1; reduction H1 H2 H3 H4 Hlval H7 H8 open_constr:([_]).
  - pop H1; reduction H1 H2 H3 H4 Hlval H7 H8 open_constr:([_]).
  - pop H1; reduction H1 H2 H3 H4 Hlval H7 H8 open_constr:([_]).
  - pop H1. destruct Hs as (r & -> & Hr & ->). cbn [stacks fmap list_fmap snd take rev app drop rule_action set_spec mbind result_bind head deref set_stacks]. tab.
    eapply (reduced_ok _ _ _ [_]); [exact H1|apply (bool_decide_eq_true _); vm_compute; reflexivity|by exists r|discriminate|exact H2|done|exact H4|cbn; lia|reflexivity|exact Hlval|exact H7|exact H8|vm_compute; lia].
  - pop H1; reduction H1 H2 H3 H4 Hlval H7 H8 open_constr:([_]).
  - pop H1.
  - pop H1; pop H1; reduction H1 H2 H3 H4 Hlval H7 H8 open_constr:([_; _]).
  - pop H1; reduction H1 H2 H3 H4 Hlval H7 H8 open_constr:([_]).
  - pop H1; reduction H1 H2 H3 H4 Hlval H7 H8 open_constr:([_]).
  - pop H1; reduction H1 H2 H3 H4 Hlval H7 H8 open_constr:([_]).
  - pop H1; reduction H1 H2 H3 H4 Hlval H7 H8 open_constr:([_]).
  - pop H1; reduction H1 H2 H3 H4 Hlval H7 H8 open_constr:([_]).
  - pop H1; reduction H1 H2 H3 H4 Hlval H7 H8 open_constr:([_]).
  - pop H1; pop H1; pop H1; reduction H1 H2 H3 H4 Hlval H7 H8 open_constr:([_; _; _]).
  - pop H1; reduction H1 H2 H3 H4 Hlval H7 H8 open_constr:([_]).
  - pop H1; reduction H1 H2 H3 H4 Hlval H7 H8 open_constr:([_]).
  - pop H1; reduction H1 H2 H3 H4 Hlval H7 H8 open_constr:([_]).
  - pop H1; reduction H1 H2 H3 H4 Hlval H7 H8 open_constr:([_]).
  - pop H1; reduction H1 H2 H3 H4 Hlval H7 H8 open_constr:([_]).
  - pop H1; pop H1; pop H1; reduction H1 H2 H3 H4 Hlval H7 H8 open_constr:([_; _; _]).
  - pop H1; pop H1; reduction H1 H2 H3 H4 Hlval H7 H8 open_constr:([_; _]).
  - pop H1; pop H1; pop H1; pop H1; reduction H1 H2 H3 H4 Hlval H7 H8 open_constr:([_; _; _; _]).
  - pop H1; pop H1; pop H1; reduction H1 H2 H3 H4 Hlval H7 H8 open_constr:([_; _; _]).
  - pop H1; pop H1; pop H1; reduction H1 H2 H3 H4 Hlval H7 H8 open_constr:([_; _; _]). all: intros _ w [= <-]; auto.
  - pop H1; pop H1; pop H1; pop H1; reduction H1 H2 H3 H4 Hlval H7 H8 open_constr:([_; _; _; _]).
Qed.

(** What the tables say of a state with a look-ahead token: a shift goes to a state of that
    token, and only the state 5 accepts the end. *)
Definition lookup_ok (q t : Z) : bool :=
  match c_index yypact q with
  | Ok n =>
      (n =? YYPACT_NINF) ||
      let i := n + t in
      match (if (i <? 0) || (YYLAST <? i) then Ok (-1) else c_index yycheck i) with
      | Ok c =>
          if c =? t then
            match c_index yytable i with
            | Ok m =>
                (0 <? m) &&
                if m =? YYFINAL then (q =? 5) && (t =? 0)
                else negb (t =? 0) && negb (q =? 5) && bool_decide (q ∈ below_of m) && (stos m =? t) && Bool.eqb (m =? 33) (t =? 13) && negb (m =? 5)
            | _ => false
            end
          else negb (q =? 37) || negb (t =? 13)
      | _ => false
      end
  | _ => false
  end.

Lemma lookup_all q t : q ∈ states -> t = YYEOF \/ t ∈ tokens -> lookup_ok q (if t =? 0 then 0 else t - 255) = true.
Proof.
  assert (forallb (fun q => forallb (fun t => lookup_ok q (if t =? 0 then 0 else t - 255)) (YYEOF :: tokens)) states = true) as Hc by (vm_compute; reflexivity).
  intros Hq%list_elem_of_In Ht. rewrite forallb_forall in Hc. specialize (Hc q Hq). rewrite forallb_forall in Hc. apply Hc.
  destruct Ht as [->|Ht]; [by left|right; by apply list_elem_of_In].
Qed.

Lemma translate_ok t : t ∈ tokens -> YYTRANSLATE t = Ok (t - 255).
Proof.
  assert (forallb (fun t => bool_decide (YYTRANSLATE t = Ok (t - 255))) tokens = true) as Hc by (vm_compute; reflexivity).
  intros Ht%list_elem_of_In. rewrite forallb_forall in Hc. apply (bool_decide_eq_true _). by apply Hc.
Qed.

Lemma step_ok_mono s0 p p' o : (measure p' <= measure p)%nat -> step_ok s0 p' o -> step_ok s0 p o.
Proof. intros Hm. unfold step_ok. destruct o as [[p''|rc p'']|f]; [|done|done]. intros [Hi Hl]. split; [done|lia]. Qed.

Lemma default_ok s0 ts p q v l :
  inv s0 ts p -> stacks p = (q, v) :: l ->
  (exists n, c_index yydefact q = Ok n /\ (n = 0 -> yychar p = YYEOF \/ yychar p ∈ tokens)) ->
  (q = 37 -> yychar p <> YYEMPTY /\ yychar p <> RSL_OP_CONCATENATE) -> step_ok s0 p (yydefault p q).
Proof.
  intros Hp E (n & En & Hn) H37. unfold yydefault. rewrite En. cbn [mbind result_bind].
  pose proof (inv_stack _ _ _ Hp) as Hs. rewrite E in Hs. pose proof (stack_top _ _ _ _ Hs) as Hq.
  destruct (Z.eqb_spec n 0) as [->|Hn0]; [eapply errlab_ok; eauto|by eapply reduce_ok].
Qed.

Lemma defact_all q : q ∈ states -> exists n, c_index yydefact q = Ok n /\ (c_index yypact q = Ok YYPACT_NINF -> n <> 0).
Proof.
  assert (forallb (fun q => match c_index yydefact q with Ok n => bool_decide (c_index yypact q = Ok YYPACT_NINF -> n <> 0) | _ => false end) states = true) as Hc by (vm_compute; reflexivity).
  intros Hq%list_elem_of_In. rewrite forallb_forall in Hc. specialize (Hc q Hq). destruct (c_index yydefact q) as [n|]; [|done].
  exists n. split; [done|]. by apply bool_decide_eq_true in Hc.
Qed.

Lemma accept_ok s0 ts p q v l :
  inv s0 ts p -> stacks p = (q, v) :: l -> q = 5 -> yychar p = YYEOF -> step_ok s0 p (Ok (Done 0 p)).
Proof.
  intros [H1 H2 _ _ _ H6 _ _ _] E -> Hc. rewrite E in H1. specialize (H6 _ _ _ E). left. split; [done|].
  apply stack_pop in H1 as (q & w & l' & ts0 & ts1 & -> & -> & H1 & Hb & Hs & _); [|done]. tab_in Hb. tab_in Hs.
  apply list_elem_of_singleton in Hb as ->. destruct Hs as (r & -> & Hr & ->). inversion H1; subst; [|].
  - exists r. split_and!; [done|done|]. destruct H2 as [Hc2 _ _|_ Ht|v' Hv _ _ _]; [by rewrite Hc in Hc2|exact Ht|].
    apply token_range in Hv. rewrite Hc in Hv. apply elem_of_tokens in Hv. unfold YYEOF in Hv. lia.
  - match goal with H : _ ∈ below_of 0 |- _ => tab_in H; by apply elem_of_nil in H end.
Qed.

(** A shift. *)
Lemma shift_ok s0 ts p q v l m :
  inv s0 ts p -> stacks p = (q, v) :: l -> yychar p ∈ tokens -> q <> 5 -> q ∈ below_of m -> stos m = yychar p - 255 ->
  (m = 33 <-> yychar p = RSL_OP_CONCATENATE) -> m <> 5 -> step_ok s0 p (yynewstate (set_char YYEMPTY p) m (yylval p)).
Proof.
  intros [H1 H2 H3 H4 H5 H6 Hlval H7 H8] E Ht Hq Hb Hm H33 Hm5. rewrite elem_of_tokens in Ht.
  destruct H2 as [Hc _ _|Hc _|w Hw Hl Hsc Hlv]; [rewrite Hc in Ht; unfold YYEMPTY in Ht; lia|rewrite Hc in Ht; unfold YYEOF in Ht; lia|].
  assert (rsl_spec p = None) as Hsp. { rewrite (H6 _ _ _ E). unfold result_of. by rewrite (proj2 (Z.eqb_neq q 5)). }
  eapply (newstate_ok s0 (ts ++ [(yychar p, w)])); cbn [set_char stacks yychar yylval scan yystacksize yyerrstatus rsl_spec]; try done.
  - rewrite E in H1 |- *. eapply stack_push; [exact H1|exact Hb| |].
    + rewrite Hm. destruct Hw as [[Hc [a ->]]|[Hr ->]].
      * rewrite Hc. change (RSL_STRING - 255) with 3. exists a. split; [by apply Hlv|done].
      * assert (In (yychar p) (tail tokens)) as Hin. { apply list_elem_of_In. change (tail tokens) with (seqZ 259 13). apply elem_of_seqZ. unfold RSL_OP_AND, RSL_VARIABLE_START in Hr. lia. }
        cbn in Hin. repeat (destruct Hin as [<-|Hin]; [done|]). done.
    + intros Hm33%H33. destruct (is_concat v) eqn:Ev; [|done]. by destruct (H3 _ _ _ E Ev).
  - by apply reads_empty.
  - by rewrite Hlval.
  - unfold result_of. by rewrite (proj2 (Z.eqb_neq m 5)).
  - intros _. apply H8. unfold YYEOF. lia.
  - unfold measure. cbn [set_stacks set_char stacks yychar scan sum_list_with fst]. change (YYEMPTY =? YYEOF) with false. change (YYEMPTY =? YYEMPTY) with true. cbv iota.
    rewrite (proj2 (Z.eqb_neq (yychar p) YYEOF)), (proj2 (Z.eqb_neq (yychar p) YYEMPTY)) by (unfold YYEOF, YYEMPTY; lia).
    assert (sym_weight (stos m) <= 8)%nat; [|lia]. unfold sym_weight. repeat case_match; lia.
Qed.

(** ** One step of the parser *)
Lemma backup_ok s0 ts p : inv s0 ts p -> step_ok s0 p (yybackup p).
Proof.
  intros Hp. pose proof (inv_stack _ _ _ Hp) as Hst. unfold yybackup. destruct (stacks p) as [|[q v] l] eqn:E; [by inversion Hst|]. cbn [head deref mbind result_bind].
  pose proof (stack_top _ _ _ _ Hst) as Hq. destruct (defact_all q Hq) as (d & Ed & Hd).
  assert (c_index yypact q = Ok YYPACT_NINF -> q <> 37) as Hn37 by (by intros Hpa ->).
  pose proof (lookup_all q) as Hlook. unfold lookup_ok in Hlook. destruct (c_index yypact q) as [n|] eqn:Epa; [|by specialize (Hlook YYEOF Hq (or_introl eq_refl))].
  cbn [mbind result_bind]. destruct (Z.eqb_spec n YYPACT_NINF) as [->|Hn].
  { eapply default_ok; [done|done|exists d; split; [done|]; intros; exfalso; by apply Hd|]. intros ->. by destruct Hn37. }
  destruct (yyread_ok s0 ts p Hp) as (p1 & -> & Hp1 & Hc1 & Es & Hm). cbn [mbind result_bind]. apply (step_ok_mono s0 p p1); [done|]. rewrite E in Es.
  pose proof (reads_range _ _ _ _ _ (inv_reads _ _ _ Hp1) Hc1) as Hr. specialize (Hlook (yychar p1) Hq Hr). cbn [orb] in Hlook.
  assert ((if yychar p1 <=? YYEOF then set_char YYEOF p1 else p1) = p1) as ->.
  { destruct (Z.leb_spec (yychar p1) YYEOF) as [Hle|]; [|done]. destruct Hr as [Hr|Hr%elem_of_tokens]; [|unfold YYEOF in *; lia]. destruct p1. cbn in *. by rewrite Hr. }
  assert ((if yychar p1 <=? YYEOF then Ok YYEOF else YYTRANSLATE (yychar p1)) = Ok (if yychar p1 =? 0 then 0 else yychar p1 - 255)) as ->.
  { destruct Hr as [->|Hr]; [done|]. pose proof (translate_ok _ Hr) as ->. apply elem_of_tokens in Hr. unfold YYEOF. by rewrite (proj2 (Z.leb_gt _ _)), (proj2 (Z.eqb_neq _ _)) by lia. }
  cbn [mbind result_bind]. set (t := if yychar p1 =? 0 then 0 else yychar p1 - 255) in *.
  destruct (if (n + t <? 0) || (YYLAST <? n + t) then Ok (-1) else c_index yycheck (n + t)) as [c|]; [|done]. cbn [mbind result_bind].
  destruct (Z.eqb_spec c t) as [Hct|Hct]; cbn [negb].
  - destruct (c_index yytable (n + t)) as [m|]; [|done]. cbn [mbind result_bind]. apply andb_prop in Hlook as [Hm0 Hlook]. rewrite (proj2 (Z.leb_gt m 0)) by lia.
    destruct (Z.eqb_spec m YYFINAL) as [Hf|Hf].
    + apply andb_prop in Hlook as [H5%Z.eqb_eq H0%Z.eqb_eq]. eapply accept_ok; [done|done|done|]. destruct Hr as [Hr|Hr%elem_of_tokens]; [done|].
      unfold t in H0. rewrite (proj2 (Z.eqb_neq (yychar p1) 0)) in H0; lia.
    + rewrite !andb_true_iff, !negb_true_iff, !Z.eqb_neq, bool_decide_eq_true, Z.eqb_eq, eqb_true_iff in Hlook. destruct Hlook as [[[[[H0 H5] Hb] Hs] H33] Hm5].
      assert (yychar p1 ∈ tokens) as Ht. { destruct Hr as [Hr|Hr]; [|done]. unfold t in H0. by rewrite Hr in H0. }
      assert (yychar p1 <> YYEOF /\ t = yychar p1 - 255) as [He Et]. { apply elem_of_tokens in Ht. unfold t, YYEOF. rewrite (proj2 (Z.eqb_neq (yychar p1) 0)); lia. }
      rewrite (inv_status _ _ _ Hp1). cbn [Z.eqb]. rewrite (proj2 (Z.eqb_neq _ _) He).
      change (yylval (set_char YYEMPTY p1)) with (yylval p1). eapply shift_ok; try done; [by rewrite Hs|].
      unfold RSL_OP_CONCATENATE. rewrite <- Z.eqb_eq, H33, Z.eqb_eq. lia.
  - eapply default_ok; [done|done|exists d; split; [done|done]|]. intros ->. split; [done|]. intros Ec. unfold t in Hlook. rewrite Ec in Hlook. done.
Qed.

(** ** The parser returns *)
Definition parsed_ok (s0 : scanner) (o : result (Z * parser)) : Prop :=
  match o with
  | Ok (yyresult, p) =>
      (yyresult = 0 /\ exists r, rsl_spec p = Some r /\ rsl_in r = true /\ tokens_of s0 (rsl_tokens r)) \/ (yyresult <> 0 /\ rsl_spec p = None)
  | Fault OutOfBounds => too_long s0
  | Fault _ => False
  end.

Lemma yyparse_ok s0 fuel : forall p ts, inv s0 ts p -> (measure p < fuel)%nat -> parsed_ok s0 (yyparse fuel p).
Proof.
  induction fuel as [|fuel IH]; intros p ts Hp Hf; [lia|]. cbn [yyparse]. pose proof (backup_ok s0 ts p Hp) as Hs.
  destruct (yybackup p) as [[p'|rc p']|f]; cbn [mbind result_bind] in *; [|exact Hs|exact Hs].
  destruct Hs as [[ts' Hp'] Hm]. apply (IH p' ts'); [done|lia].
Qed.

Lemma scanner_init_ok buf : Z.of_nat (length buf) <= INT_MAX -> scanner_ok (scanner_init buf).
Proof. intros Hl. split; cbn; try done. by left. Qed.

Lemma parser_init_inv buf : Z.of_nat (length buf) <= INT_MAX -> inv (scanner_init buf) [] (parser_init buf).
Proof.
  intros Hl. split; cbn; try done; [constructor|apply reads_empty; [done|constructor|by apply scanner_init_ok]| | |lia].
  - by intros q v l [= <- <- <-].
  - by intros q v l [= <- <- <-].
Qed.

Lemma yyparse_init_ok buf : Z.of_nat (length buf) <= INT_MAX -> parsed_ok (scanner_init buf) (yyparse (parse_fuel buf) (parser_init buf)).
Proof.
  intros Hl. eapply yyparse_ok; [by apply parser_init_inv|]. change (measure (parser_init buf)) with (0 + (10 * (2 * length buf + 0) + 0))%nat. unfold parse_fuel. lia.
Qed.

Lemma parse_ok buf : Z.of_nat (length buf) <= INT_MAX ->
  match globus_rsl_parse buf with
  | Ok (Some r) => rsl_in r = true /\ tokens_of (scanner_init buf) (rsl_tokens r)
  | Ok None => True
  | Fault OutOfBounds => (800 < length buf)%nat
  | Fault _ => False
  end.
Proof.
  intros Hl. pose proof (yyparse_init_ok buf Hl) as H.
  unfold globus_rsl_parse. destruct (yyparse _ _) as [[rc p]|f]; cbn [mbind result_bind]; [|exact H].
  destruct H as [(_ & r & -> & Hr & Ht)|[_ ->]]; done.
Qed.
End Yacc.
