(* ===== verification/RslComplete.v ===== *)
(** * Job descriptions: every description in the language is parsed

    The parser of RslYacc.v, run on the tokens of a tree of the language, ends with that
    tree when the tree is not nested deeper than the stack of the parser. [reach] is the
    relation between a stack with the tokens that are still to come before and after some
    steps; the lemmas follow the shape of the tree. With [parse_ok] this characterizes
    [globus_rsl_parse]. *)
From S2P Require Import Prelude.
From S2P Require Import Chars.
From S2P Require Import Rsl.
From S2P Require Import RslScan.
From S2P Require Import RslYacc.
Local Open Scope Z_scope.

Module Complete.
Import Rsl Scan Yacc.

Abbreviation str := (list Z) (only parsing).
Abbreviation tok := (Z * option str)%type (only parsing).

(** ** The tokens that are to come *)
Inductive lexes : scanner -> list tok -> Prop :=
| lexes_end s v s' : yylex s = Ok (YYEOF, v, s') -> lexes s []
| lexes_cons s t v s' ts : yylex s = Ok (t, v, s') -> token_ok t v -> lexes s' ts -> lexes s ((t, v) :: ts).

Lemma lexed_lexes s ts s1 : lexed s ts s1 -> scanner_ok s -> scanner_ok s1 /\ forall ts', lexes s1 ts' -> lexes s (ts ++ ts').
Proof.
  induction 1 as [s|s ts s1 t v s2 Hl IH Hy Ht]; intros Hs; [done|]. destruct (IH Hs) as [Hs1 Hx].
  destruct (yylex_total s1 Hs1) as (t' & v' & s' & Hy' & _ & Hok). rewrite Hy in Hy'. injection Hy' as <- <- <-. destruct Hok as [[Heof _]|(Htok & Hs2 & _)]; [done|].
  split; [done|]. intros ts' Hts. rewrite <- app_assoc. apply Hx. by eapply lexes_cons.
Qed.

Lemma tokens_of_lexes s ts : scanner_ok s -> tokens_of s ts -> lexes s ts.
Proof.
  intros Hs (s1 & v & s2 & Hl & Hy). destruct (lexed_lexes _ _ _ Hl Hs) as [_ H]. specialize (H [] (lexes_end _ _ _ Hy)). by rewrite app_nil_r in H.
Qed.

Lemma lexes_tokens_of s ts : lexes s ts -> tokens_of s ts.
Proof.
  assert (forall s ts s1 ts', lexed s ts s1 -> lexes s1 ts' -> tokens_of s (ts ++ ts')) as H.
  { intros s0 ts0 s1 ts' Hl Hx. revert s0 ts0 Hl. induction Hx as [s1 v s2 Hy|s1 t v s2 ts' Hy Ht _ IH]; intros s0 ts0 Hl.
    - rewrite app_nil_r. by exists s1, v, s2.
    - replace (ts0 ++ (t, v) :: ts') with ((ts0 ++ [(t, v)]) ++ ts') by (by rewrite <- app_assoc). apply IH. eapply lexed_snoc; [done|done|].
      apply token_range, elem_of_tokens in Ht. unfold YYEOF. lia. }
  intros Hx. apply (H s [] s ts); [constructor|done].
Qed.

(** The look-ahead token and what follows. *)
Inductive ahead (c : Z) (lval : YYSTYPE) (s : scanner) : list tok -> Prop :=
| ahead_empty ts : c = YYEMPTY -> lexes s ts -> ahead c lval s ts
| ahead_end : c = YYEOF -> ahead c lval s []
| ahead_token v ts : token_ok c v -> (forall a, v = Some a -> lval = String_ a) -> lexes s ts -> ahead c lval s ((c, v) :: ts).

(** A stack up to the values that no action uses, which are [Unset] in the pattern. *)
Definition fits (a b : Z * YYSTYPE) : Prop := a.1 = b.1 /\ (b.2 = Unset \/ a.2 = b.2).

Lemma fits_cons l q v st : Forall2 fits l ((q, v) :: st) -> exists w l', l = (q, w) :: l' /\ (v = Unset \/ w = v) /\ Forall2 fits l' st.
Proof. intros ([q' w] & l' & [Hq Hv] & Hl & ->)%Forall2_cons_inv_r. cbn in *. subst. eauto. Qed.

Record conf (st : list (Z * YYSTYPE)) (ts : list tok) (p : parser) : Prop := {
  conf_stack : Forall2 fits (stacks p) st;
  conf_ahead : ahead (yychar p) (yylval p) (scan p) ts;
  conf_size : Z.of_nat (length (stacks p)) < yystacksize p <= YYMAXDEPTH;
  conf_status : yyerrstatus p = 0 }.

(** The code of the next token in the tables. *)
Definition next (ts : list tok) : Z := match ts with (t, _) :: _ => t - 255 | [] => 0 end.

(** What the tables say: a shift, or the rule to reduce with. *)
Definition act (q t : Z) : result (Z + Z) :=
  n ← c_index yypact q;
  d ← c_index yydefact q;
  if n =? YYPACT_NINF then Ok (inr d)
  else
    c ← (if (n + t <? 0) || (YYLAST <? n + t) then Ok (-1) else c_index yycheck (n + t));
    if c =? t then m ← c_index yytable (n + t); Ok (inl m) else Ok (inr d).

Definition steps : parser -> parser -> Prop := rtc (fun p p' => yybackup p = Ok (Next p')).

Definition reach (st : list (Z * YYSTYPE)) (ts : list tok) (st' : list (Z * YYSTYPE)) (ts' : list tok) : Prop :=
  forall p, conf st ts p -> exists p', steps p p' /\ conf st' ts' p'.

Lemma reach_refl st ts : reach st ts st ts.
Proof. intros p Hp. exists p. split; [apply rtc_refl|done]. Qed.

Lemma reach_trans st1 ts1 st2 ts2 st3 ts3 : reach st1 ts1 st2 ts2 -> reach st2 ts2 st3 ts3 -> reach st1 ts1 st3 ts3.
Proof. intros H1 H2 p Hp. destruct (H1 p Hp) as (p2 & Hs & Hp2), (H2 p2 Hp2) as (p3 & Hs' & Hp3). exists p3. split; [by etrans|done]. Qed.

(** The longest stack that the parser can have. *)
Definition limit : Z := 9999.

Lemma push_state p q v w st ts :
  Forall2 fits (stacks p) st -> v = Unset \/ w = v -> ahead (yychar p) (yylval p) (scan p) ts -> Z.of_nat (length st) < yystacksize p <= YYMAXDEPTH -> yyerrstatus p = 0 -> Z.of_nat (length st) < limit ->
  exists p', yynewstate p q w = Ok (Next p') /\ conf ((q, v) :: st) ts p' /\ rsl_spec p' = rsl_spec p.
Proof.
  intros E Hv Ha Hsz Her Hlim. pose proof (Forall2_length _ _ _ E) as El. unfold yynewstate, YYMAXDEPTH, limit in *. cbn [set_stacks stacks yystacksize length]. rewrite Nat2Z.inj_succ.
  rewrite <- El in *.
  assert (forall n, Z.succ (Z.of_nat (length (stacks p))) < n <= 10000 -> conf ((q, v) :: st) ts (set_stacksize n (set_stacks ((q, w) :: stacks p) p))) as Hc.
  { intros n Hn. split; cbn; [constructor; [done|done]|done|unfold YYMAXDEPTH; lia|done]. }
  destruct (Z.leb_spec (yystacksize p) (Z.succ (Z.of_nat (length (stacks p))))).
  - rewrite (proj2 (Z.leb_gt 10000 (yystacksize p))) by lia. rewrite (proj2 (Z.leb_gt _ _)) by lia. eexists. split; [done|]. split; [|done]. apply Hc. lia.
  - exists (set_stacksize (yystacksize p) (set_stacks ((q, w) :: stacks p) p)). split; [by destruct p|]. split; [|done]. apply Hc. lia.
Qed.

(** The look-ahead token is read when it is needed. *)
Lemma read_ok st ts p : conf st ts p ->
  exists p1, yyread p = Ok p1 /\ conf st ts p1 /\ rsl_spec p1 = rsl_spec p /\
    match ts with [] => yychar p1 = YYEOF | (t, v) :: ts => yychar p1 = t /\ token_ok t v /\ (forall a, v = Some a -> yylval p1 = String_ a) /\ lexes (scan p1) ts end.
Proof.
  intros [E Ha Hsz Her]. unfold yyread. destruct Ha as [ts Hc Hl|Hc|v ts Hv Hlv Hl].
  - rewrite Hc. cbn [Z.eqb]. rewrite Z.eqb_refl. destruct Hl as [s v s' Hy|s t v s' ts Hy Ht Hl]; rewrite Hy; cbn [mbind result_bind]; eexists; (split; [done|]).
    + split; [split; cbn; try done; by apply ahead_end|done].
    + split; [split; cbn; try done; apply ahead_token; try done; by intros a ->|]. cbn. split_and!; try done. by intros a ->.
  - rewrite Hc. exists p. split; [done|]. split; [split; try done; rewrite Hc; by apply ahead_end|done].
  - pose proof (token_range _ _ Hv) as Hr%elem_of_tokens. rewrite (proj2 (Z.eqb_neq _ _)) by (unfold YYEMPTY; lia).
    exists p. split; [done|]. split; [split; try done; by apply ahead_token|done].
Qed.

(** A state that needs no look-ahead token. *)
Lemma backup_default st ts p q v :
  conf ((q, v) :: st) ts p -> c_index yypact q = Ok YYPACT_NINF -> yybackup p = yydefault p q.
Proof. intros [E _ _ _] Hq. unfold yybackup. apply fits_cons in E as (w & l & -> & _). cbn [head deref mbind result_bind]. by rewrite Hq. Qed.

(** The driver does what the tables say. *)
Lemma backup_act st ts p q v a :
  conf ((q, v) :: st) ts p -> act q (next ts) = Ok a ->
  exists p1, conf ((q, v) :: st) ts p1 /\ rsl_spec p1 = rsl_spec p /\
    match a with
    | inr n => n <> 0 -> yybackup p = yyreduce p1 n
    | inl m =>
        0 < m ->
        (m = YYFINAL -> yybackup p = Ok (Done 0 p1)) /\
        (m <> YYFINAL -> ts <> [] -> yybackup p = yynewstate (set_char YYEMPTY p1) m (yylval p1) /\
          lexes (scan p1) (tail ts) /\ forall a, head ts = Some (RSL_STRING, Some a) -> yylval p1 = String_ a)
    end.
Proof.
  intros Hp. unfold act. destruct (c_index yypact q) as [n|] eqn:En; [|done]. cbn [mbind result_bind]. destruct (c_index yydefact q) as [d|] eqn:Ed; [|done]. cbn [mbind result_bind].
  destruct (Z.eqb_spec n YYPACT_NINF) as [->|Hn].
  { intros [= <-]. exists p. split_and!; [done|done|]. intros Hd. rewrite (backup_default _ _ _ _ _ Hp En). unfold yydefault. rewrite Ed. cbn [mbind result_bind]. by rewrite (proj2 (Z.eqb_neq d 0)). }
  destruct (read_ok _ _ _ Hp) as (p1 & Er & Hp1 & Hsp & Hts). unfold yybackup. destruct (fits_cons _ _ _ _ (conf_stack _ _ _ Hp)) as (w0 & l & -> & _). cbn [head deref mbind result_bind]. rewrite En. cbn [mbind result_bind].
  rewrite (proj2 (Z.eqb_neq n YYPACT_NINF)) by done. rewrite Er. cbn [mbind result_bind].
  assert ((if yychar p1 <=? YYEOF then set_char YYEOF p1 else p1) = p1 /\ (if yychar p1 <=? YYEOF then Ok YYEOF else YYTRANSLATE (yychar p1)) = Ok (next ts)) as [-> ->].
  { destruct ts as [|[t w] ts]; [rewrite Hts; split; [destruct p1; cbn in *; by rewrite Hts|done]|]. destruct Hts as (Ht & Htok & _). apply token_range in Htok. rewrite Ht.
    rewrite (translate_ok _ Htok). apply elem_of_tokens in Htok. unfold YYEOF. by rewrite (proj2 (Z.leb_gt _ _)) by lia. }
  cbn [mbind result_bind]. intros Hact. exists p1. split; [done|]. split; [done|].
  destruct (if (n + next ts <? 0) || (YYLAST <? n + next ts) then Ok (-1) else c_index yycheck (n + next ts)) as [c|]; [|done]. cbn [mbind result_bind] in *.
  destruct (c =? next ts); cbn [negb].
  - destruct (c_index yytable (n + next ts)) as [m|]; [|done]. cbn [mbind result_bind] in *. injection Hact as <-. intros Hm. rewrite (proj2 (Z.leb_gt m 0)) by lia.
    split; intros Hf; [by rewrite (proj2 (Z.eqb_eq m YYFINAL))|]. intros Hne. rewrite (proj2 (Z.eqb_neq m YYFINAL)) by done. destruct ts as [|[t w] ts]; [done|].
    destruct Hts as (Ht & Htok & Hlv & Hl). rewrite (conf_status _ _ _ Hp1). cbn [Z.eqb]. apply token_range, elem_of_tokens in Htok.
    rewrite (proj2 (Z.eqb_neq (yychar p1) YYEOF)) by (unfold YYEOF; lia). split; [by destruct p1|]. split; [done|]. intros a [= -> ->]. by apply Hlv.
  - injection Hact as <-. intros Hd. unfold yydefault. rewrite Ed. cbn [mbind result_bind]. by rewrite (proj2 (Z.eqb_neq d 0)).
Qed.

Lemma reach_shift q v st t w ts m :
  act q (t - 255) = Ok (inl m) -> 0 < m -> m <> YYFINAL -> Z.of_nat (S (length st)) < limit ->
  reach ((q, v) :: st) ((t, w) :: ts) ((m, if t =? RSL_STRING then from_option String_ Unset w else Unset) :: (q, v) :: st) ts.
Proof.
  intros Ha Hm Hf Hl p Hp. destruct (backup_act st ((t, w) :: ts) p q v _ Hp Ha) as (p1 & Hp1 & _ & H). destruct (H Hm) as [_ H2]. destruct (H2 Hf ltac:(done)) as (Hb & Hlex & Hlv).
  destruct Hp1 as [E _ Hsz Her].
  destruct (push_state (set_char YYEMPTY p1) m (if t =? RSL_STRING then from_option String_ Unset w else Unset) (yylval p1) ((q, v) :: st) ts) as (p' & En & Hc & _).
  - exact E.
  - destruct (Z.eqb_spec t RSL_STRING) as [->|]; [|by left]. destruct w as [a|]; [|by left]. right. by apply Hlv.
  - by apply ahead_empty.
  - by rewrite <- (Forall2_length _ _ _ E).
  - done.
  - done.
  - exists p'. split; [|done]. apply rtc_once. by rewrite Hb.
Qed.

Lemma reach_reduce n q v popped q0 w st ts x m :
  act q (next ts) = Ok (inr n) -> n <> 0 -> c_index yyr2 n = Ok (Z.of_nat (S (length popped))) ->
  (forall vs p, Forall2 (fun a b => b = Unset \/ a = b) vs (v :: popped.*2) -> rule_action n (rev vs) p = Ok (x, p)) ->
  yygoto q0 n = Ok m -> Z.of_nat (S (length st)) < limit ->
  reach ((q, v) :: popped ++ (q0, w) :: st) ts ((m, x) :: (q0, w) :: st) ts.
Proof.
  intros Ha Hn Hr Hact Hg Hl p Hp. destruct (backup_act _ ts p q v _ Hp Ha) as (p1 & Hp1 & _ & H). specialize (H Hn). destruct Hp1 as [E Hah Hsz Her].
  unfold yyreduce in H. rewrite Hr in H. cbn [mbind result_bind] in H. rewrite Nat2Z.id in H.
  apply (Forall2_app_inv_r _ _ ((q, v) :: popped) ((q0, w) :: st)) in E as (l1 & l2 & E1 & E2 & Es). pose proof (Forall2_length _ _ _ E1) as Hlen. cbn [length] in Hlen.
  rewrite Es in H. rewrite fmap_app, take_app_length' in H by (by rewrite length_fmap). rewrite Hact in H.
  2:{ change (v :: popped.*2) with ((q, v) :: popped).*2. apply Forall2_fmap. eapply Forall2_impl; [exact E1|]. by intros ? ? [_ ?]. }
  cbn [mbind result_bind] in H. rewrite Es in H. rewrite drop_app_length' in H by done.
  destruct (fits_cons _ _ _ _ E2) as (w' & l2' & -> & Hw & E2'). cbn [set_stacks stacks head deref mbind result_bind] in H. rewrite Hg in H. cbn [mbind result_bind] in H.
  destruct (push_state (set_stacks ((q0, w') :: l2') p1) m x x ((q0, w) :: st) ts) as (p' & En & Hc & _); cbn; try done; [by right| |].
  - pose proof (Forall2_length _ _ _ E2). rewrite Es, length_app in Hsz. cbn in *. lia.
  - exists p'. split; [|done]. apply rtc_once. by rewrite H.
Qed.

(** ** Values *)

(** The symbols on the stack that parsing a value takes. *)
Fixpoint value_need (v : rsl_value) : nat :=
  match v with
  | VLiteral _ => 1%nat
  | VSequence l => Nat.max 3 (S (foldr (fun x n => Nat.max (value_need x) (S n)) 0%nat l))
  | VVariable s => S (value_need s)
  | VConcatenation l r => Nat.max (from_option value_need 0%nat l) (2 + from_option value_need 0%nat r)
  end.

Definition list_need (l : list rsl_value) : nat := foldr (fun x n => Nat.max (value_need x) (S n)) 0%nat l.

Lemma need_pos v : value_in v = true -> (1 <= value_need v)%nat.
Proof.
  induction v as [s|l _|v IH|l r IHl _] using value_ind; cbn; lia.
Qed.

(** The states in which a simple value, resp. a value, begins, and where they lead. *)
Definition simple_states : list Z := [19; 21; 25; 31; 33].
Definition value_states : list Z := [19; 21; 25; 31].
Definition goto_simple (q : Z) : Z := if q =? 33 then 37 else 26.
Definition goto_list (q : Z) : Z := if q =? 25 then 32 else 24.

(** The tokens that can follow a value. *)
Definition follow (ts : list tok) : Prop := next ts ∈ [0; 3; 14; 15; 16].
Definition list_end (ts : list tok) : Prop := next ts ∈ [0; 15].

(** Case analysis on membership in a list of numbers. *)
Ltac cases H := apply list_elem_of_In in H; cbn [In] in H; repeat (destruct H as [H|H]; [first [rewrite <- H in * | idtac]; try subst|]); try done.

Ltac vals :=
  let vs := fresh "vs" in let p := fresh "p" in let H := fresh "H" in
  intros vs p H; cbn [fmap list_fmap snd] in H;
  repeat match goal with H : Forall2 _ _ (_ :: _) |- _ =>
    let Hv := fresh "Hv" in let H' := fresh "H" in apply Forall2_cons_inv_r in H as (? & ? & Hv & H' & ->); destruct Hv as [Hv|Hv]; [try discriminate Hv; clear Hv|subst] end;
  match goal with H : Forall2 _ _ [] |- _ => apply Forall2_nil_inv_r in H as -> end; reflexivity.

Ltac shift := eapply reach_trans; [apply reach_shift; [reflexivity|done|done|cbn [length] in *; lia]|cbn [Z.eqb Pos.eqb RSL_STRING from_option]].
Ltac reduce popped :=
  eapply reach_trans; [eapply (reach_reduce _ _ _ popped); [first [reflexivity|eassumption]|done|reflexivity|vals|reflexivity|cbn [length] in *; lia]|cbn [app]].

Lemma parse_literal q x st a ts :
  q ∈ simple_states -> Z.of_nat (length ((q, x) :: st)) < limit ->
  reach ((q, x) :: st) ((RSL_STRING, Some a) :: ts) ((goto_simple q, RSLval (VLiteral (Some a))) :: (q, x) :: st) ts.
Proof.
  intros Hq Hl. cases Hq; (shift; reduce (@nil (Z * YYSTYPE)); reduce (@nil (Z * YYSTYPE)); apply reach_refl).
Qed.

(** What is shown of a value by induction: a simple value, and the list of a sequence. *)
Definition parses_simple (v : rsl_value) : Prop :=
  forall q x st ts, q ∈ simple_states -> Z.of_nat (length ((q, x) :: st) + value_need v) <= limit -> atom v = true \/ follow ts ->
  reach ((q, x) :: st) (value_tokens v ++ ts) ((goto_simple q, RSLval v) :: (q, x) :: st) ts.

Definition parses_list (l : list rsl_value) : Prop :=
  forall q x st ts, q ∈ value_states -> Z.of_nat (length ((q, x) :: st) + list_need l) <= limit -> list_end ts ->
  reach ((q, x) :: st) (mjoin (value_tokens <$> l) ++ ts) ((goto_list q, List_RSLval l) :: (q, x) :: st) ts.

Definition parses (v : rsl_value) : Prop :=
  value_in v = true -> (globus_rsl_value_is_sequence v = false -> parses_simple v) /\ forall l, v = VSequence l -> parses_list l.

Lemma parse_variable l : filled l = true -> parses_list l -> parses_simple (VVariable (VSequence l)).
Proof.
  intros Hf Hl q x st ts Hq Hlim _. cbn [value_tokens value_need length] in *. fold (list_need l) in Hlim. rewrite <- app_comm_cons, <- app_comm_cons, <- app_assoc. cbn [app].
  cases Hq; (shift; shift; eapply reach_trans; [apply Hl; [set_solver|cbn [length]; lia|unfold list_end; cbn; set_solver]|]; cbn [goto_list Z.eqb Pos.eqb];
    reduce (@nil (Z * YYSTYPE)); shift; reduce [(36, RSLval (VSequence l)); (31, Unset); (22, Unset)]; reduce (@nil (Z * YYSTYPE)); apply reach_refl).
Qed.

Lemma parse_concatenation l r :
  atom l = true -> value_in l = true -> value_in r = true -> parses_simple l -> parses_simple r -> parses_simple (VConcatenation (Some l) (Some r)).
Proof.
  intros Ha Hil Hir Hl Hr q x st ts Hq Hlim [|Hts]; [done|]. pose proof (need_pos l Hil). pose proof (need_pos r Hir). cbn [value_tokens value_need from_option length] in *. rewrite <- app_assoc, <- app_comm_cons.
  eapply reach_trans; [apply Hl; [done|cbn [length]; lia|by left]|].
  assert (act (goto_simple 33) (next ts) = Ok (inr 22)) as Hact by (unfold follow in Hts; cases Hts; reflexivity).
  cases Hq; cbn [goto_simple Z.eqb Pos.eqb] in *; (shift; eapply reach_trans; [apply Hr; [set_solver|cbn [length]; lia|by right]|]; cbn [goto_simple Z.eqb Pos.eqb];
    reduce open_constr:([(33, Unset); (_, RSLval l)]); apply reach_refl).
Qed.

Lemma parse_value v q x st ts :
  value_in v = true -> parses v -> q ∈ value_states -> Z.of_nat (length ((q, x) :: st) + value_need v) <= limit -> follow ts ->
  reach ((q, x) :: st) (value_tokens v ++ ts) ((25, RSLval v) :: (q, x) :: st) ts.
Proof.
  intros Hv Hp Hq Hlim Hts. pose proof (need_pos v Hv). destruct (globus_rsl_value_is_sequence v) eqn:Es.
  - destruct v as [|l| |]; try done. destruct (Hp Hv) as [_ Hl]. specialize (Hl l eq_refl). cbn [value_tokens value_need length] in *. fold (list_need l) in *.
    rewrite <- app_comm_cons, <- app_assoc. cbn [app].
    cases Hq; (shift; eapply reach_trans; [apply Hl; [set_solver|cbn [length]; lia|unfold list_end; cbn; set_solver]|]; cbn [goto_list Z.eqb Pos.eqb];
      reduce (@nil (Z * YYSTYPE)); shift; reduce [(30, RSLval (VSequence l)); (21, Unset)]; apply reach_refl).
  - destruct (Hp Hv) as [Hsi _]. assert (act 26 (next ts) = Ok (inr 21)) as Hact by (unfold follow in Hts; cases Hts; reflexivity).
    assert (q ∈ simple_states) as Hq' by (unfold value_states, simple_states in *; set_solver).
    eapply reach_trans; [apply (Hsi Es); [done|done|by right]|]. cases Hq; cbn [goto_simple Z.eqb Pos.eqb]; (reduce (@nil (Z * YYSTYPE)); apply reach_refl).
Qed.

Lemma value_next v ts : value_in v = true -> follow (value_tokens v ++ ts).
Proof.
  revert ts. induction v as [s|l IH|v IH|l r IHl IHr] using value_ind; intros ts; unfold follow; cbn.
  - set_solver.
  - set_solver.
  - set_solver.
  - destruct l as [l|], r as [r|]; try done. rewrite !andb_true_iff. intros [[_ Hl] _]. cbn. rewrite <- app_assoc. by apply IHl.
Qed.

Lemma list_end_follow ts : list_end ts -> follow ts.
Proof. unfold list_end, follow. set_solver. Qed.

Lemma parse_list l : filled l = true -> Forall (fun v => value_in v = true /\ parses v) l -> parses_list l.
Proof.
  intros Hf Hl. induction Hl as [|v l [Hv Hp] Hl IH]; [done|]. intros q x st ts Hq Hlim Hts. pose proof (need_pos v Hv). cbn in Hlim. fold (list_need l) in Hlim.
  destruct l as [|w l].
  - cbn. rewrite app_nil_r. eapply reach_trans; [apply parse_value; try done; [cbn [length]; lia|by apply list_end_follow]|].
    assert (act 25 (next ts) = Ok (inr 19)) as Hact by (unfold list_end in Hts; cases Hts; reflexivity).
    cases Hq; cbn [goto_list Z.eqb Pos.eqb]; (reduce (@nil (Z * YYSTYPE)); apply reach_refl).
  - specialize (IH eq_refl). cbn [fmap list_fmap mjoin list_join] in *. rewrite <- app_assoc.
    eapply reach_trans; [apply parse_value; try done; [cbn [length]; lia|]|].
    { inversion_clear Hl as [|? ? [Hw _] _]. rewrite <- app_assoc. by apply value_next. }
    eapply reach_trans; [apply IH; [set_solver|cbn [length]; lia|done]|]. cbn [goto_list Z.eqb Pos.eqb].
    cases Hq; (reduce [(25, RSLval v)]; apply reach_refl).
Qed.

Lemma parses_all v : parses v.
Proof.
  induction v as [s|l IH|v IH|l r IHl IHr] using value_ind; intros Hv; (split; [intros Hs|intros l' E]); try done.
  - destruct s as [a|]; [|done]. intros q x st ts Hq Hlim _. cbn [value_tokens app]. apply parse_literal; [done|cbn [value_need] in Hlim; lia].
  - injection E as <-. cbn in Hv. apply andb_prop in Hv as [Hf Hv]. apply parse_list; [done|]. rewrite forallb_forall in Hv. apply Forall_forall. intros w Hw.
    split; [apply Hv; by apply list_elem_of_In|]. rewrite Forall_forall in IH. by apply IH.
  - cbn in Hv. apply andb_prop in Hv as [Hq Hv]. destruct v as [|l| |]; try done. apply parse_variable; [cbn in Hv; by apply andb_prop in Hv as [? _]|]. by apply (IH Hv).
  - destruct l as [l|], r as [r|]; try done. cbn in Hv. rewrite !andb_true_iff, negb_true_iff in Hv. destruct Hv as [[[Ha Hr] Hl] Hr'].
    apply parse_concatenation; try done; [apply (IHl l eq_refl Hl); by destruct l|by apply (IHr r eq_refl Hr')].
Qed.

(** ** Descriptions *)
Fixpoint rsl_need (r : rsl) : nat :=
  match r with
  | Boolean _ l => S (foldr (fun x n => Nat.max (S (rsl_need x)) (3 + n)) 0%nat l)
  | Relation _ _ v => 2 + list_need (globus_rsl_value_sequence_get_value_list v)
  end.

Definition spec_need (l : list rsl) : nat := foldr (fun x n => Nat.max (S (rsl_need x)) (3 + n)) 0%nat l.
Definition spec_tokens (l : list rsl) : list tok := mjoin ((fun r => sym RSL_LPAREN :: rsl_tokens r ++ [sym RSL_RPAREN]) <$> l).

Definition goto_spec (q : Z) : Z := if q =? 0 then 6 else 20.
Definition goto_spec_list (q : Z) : Z := if q =? 7 then 12 else 34.

Definition parses_rsl (r : rsl) : Prop :=
  forall q x st ts, q ∈ [0; 11] -> Z.of_nat (length ((q, x) :: st) + rsl_need r) <= limit -> list_end ts ->
  reach ((q, x) :: st) (rsl_tokens r ++ ts) ((goto_spec q, RSL r) :: (q, x) :: st) ts.

Lemma parse_relation op a l : infix_op op = true -> filled l = true -> forallb value_in l = true -> parses_rsl (Relation op a (VSequence l)).
Proof.
  intros Hop Hf Hv q x st ts Hq Hlim Hts. cbn [rsl_tokens rsl_need globus_rsl_value_sequence_get_value_list length app] in *.
  assert (parses_list l) as Hl. { apply (parses_all (VSequence l)); [|done]. cbn. by rewrite Hf. }
  assert (op ∈ [1; 2; 3; 4; 5; 6]) as Ho. { unfold infix_op, GLOBUS_RSL_EQ, GLOBUS_RSL_LTEQ in Hop. rewrite andb_true_iff, !Z.leb_le in Hop. rewrite !elem_of_cons, elem_of_nil. lia. }
  assert (1 <= list_need l)%nat by (destruct l; cbn; [done|lia]).
  assert (forall q' y, q' = 9 -> reach ((q', y) :: (q, x) :: st) (sym (infix_token op) :: mjoin (value_tokens <$> l) ++ ts) ((19, Int op) :: (q', y) :: (q, x) :: st) (mjoin (value_tokens <$> l) ++ ts)) as Hi.
  { intros q' y ->. cases Ho; (shift; reduce (@nil (Z * YYSTYPE)); apply reach_refl). }
  assert (reach ((19, Int op) :: (9, String_ a) :: (q, x) :: st) (mjoin (value_tokens <$> l) ++ ts) ((23, RSLval (VSequence l)) :: (19, Int op) :: (9, String_ a) :: (q, x) :: st) ts) as Hs.
  { eapply reach_trans; [apply Hl; [set_solver|cbn [length]; lia|done]|]. cbn [goto_list Z.eqb Pos.eqb]. reduce (@nil (Z * YYSTYPE)). apply reach_refl. }
  cases Hq; (shift; reduce (@nil (Z * YYSTYPE)); eapply reach_trans; [by apply Hi|]; eapply reach_trans; [exact Hs|];
    reduce [(19, Int op); (9, String_ a)]; reduce (@nil (Z * YYSTYPE)); apply reach_refl).
Qed.

Lemma parse_spec_list l : filled l = true -> Forall parses_rsl l -> forall q x st ts,
  q ∈ [7; 29] -> Z.of_nat (length ((q, x) :: st) + spec_need l) <= limit -> list_end ts ->
  reach ((q, x) :: st) (spec_tokens l ++ ts) ((goto_spec_list q, List_RSL l) :: (q, x) :: st) ts.
Proof.
  intros Hf Hl. induction Hl as [|r l Hr Hl IH]; [done|]. intros q x st ts Hq Hlim Hts. change (spec_need (r :: l)) with (Nat.max (S (rsl_need r)) (3 + spec_need l)) in Hlim. cbn [length] in Hlim.
  unfold spec_tokens in *. cbn [fmap list_fmap mjoin list_join]. rewrite <- !app_comm_cons, <- !app_assoc. cbn [app].
  assert (forall ts', reach ((q, x) :: st) (sym RSL_LPAREN :: rsl_tokens r ++ sym RSL_RPAREN :: ts') ((29, Unset) :: (20, RSL r) :: (11, Unset) :: (q, x) :: st) ts') as Hh.
  { intros ts'. cases Hq; (shift; eapply reach_trans; [apply Hr; [set_solver|cbn [length]; lia|unfold list_end; cbn; set_solver]|]; cbn [goto_spec Z.eqb Pos.eqb]; shift; apply reach_refl). }
  eapply reach_trans; [apply Hh|]. destruct l as [|r2 l].
  - cbn [fmap list_fmap mjoin list_join app]. assert (act 29 (next ts) = Ok (inr 9)) as Hact by (unfold list_end in Hts; cases Hts; reflexivity).
    cases Hq; (reduce [(20, RSL r); (11, Unset)]; apply reach_refl).
  - eapply reach_trans; [apply (IH eq_refl); [set_solver|cbn [length]; lia|done]|]. cbn [goto_spec_list Z.eqb Pos.eqb].
    cases Hq; (reduce [(29, Unset); (20, RSL r); (11, Unset)]; apply reach_refl).
Qed.

Lemma parses_rsl_all r : rsl_in r = true -> parses_rsl r.
Proof.
  induction r as [op l IH|op a v] using tree_ind; cbn [rsl_in]; intros Hr.
  - rewrite !andb_true_iff in Hr. destruct Hr as [[Hop Hf] Hl]. intros q x st ts Hq Hlim Hts. cbn [rsl_tokens rsl_need length] in *. fold (spec_need l) in Hlim. fold (spec_tokens l). cbn [app].
    assert (Forall parses_rsl l) as Hall. { rewrite forallb_forall in Hl. rewrite Forall_forall in *. intros r Hr. apply IH; [done|]. apply Hl. by apply list_elem_of_In. }
    assert (op ∈ [10; 8; 9]) as Ho. { unfold prefix_op in Hop. rewrite !orb_true_iff, !Z.eqb_eq in Hop. rewrite !elem_of_cons, elem_of_nil. unfold GLOBUS_RSL_MULTIREQ, GLOBUS_RSL_AND, GLOBUS_RSL_OR in Hop. tauto. }
    assert (3 <= spec_need l)%nat by (unfold spec_need; destruct l; [done|cbn [foldr]; lia]).
    assert (reach ((q, x) :: st) (sym (prefix_token op) :: spec_tokens l ++ ts) ((7, Int op) :: (q, x) :: st) (spec_tokens l ++ ts)) as Hi.
    { cases Hq; cases Ho; (shift; reduce (@nil (Z * YYSTYPE)); apply reach_refl). }
    eapply reach_trans; [exact Hi|]. eapply reach_trans; [apply (parse_spec_list l Hf Hall); [set_solver|cbn [length]; lia|done]|]. cbn [goto_spec_list Z.eqb Pos.eqb].
    cases Hq; (reduce [(7, Int op)]; apply reach_refl).
  - rewrite !andb_true_iff in Hr. destruct Hr as [[Hop Hs] Hv]. destruct v as [|l| |]; try done. cbn in Hv. apply andb_prop in Hv as [Hf Hv]. by apply parse_relation.
Qed.

(** ** The whole parse *)
Lemma yyparse_more fuel : forall fuel' p o, yyparse fuel p = o -> o <> Fault OutOfFuel -> (fuel <= fuel')%nat -> yyparse fuel' p = o.
Proof.
  induction fuel as [|fuel IH]; intros fuel' p o; cbn [yyparse]; [by intros <-|]. intros <- Hne Hle. destruct fuel' as [|fuel']; [lia|]. cbn [yyparse].
  destruct (yybackup p) as [[p'|rc p']|f]; cbn [mbind result_bind] in *; [|done|done]. apply IH; [done|done|lia].
Qed.

Lemma steps_yyparse p p' : steps p p' -> forall fuel o, yyparse fuel p' = o -> exists fuel', yyparse fuel' p = o.
Proof.
  induction 1 as [p|p p1 p' Hs _ IH]; intros fuel o Ho; [by exists fuel|]. destruct (IH fuel o Ho) as [fuel' Hf]. exists (S fuel'). cbn [yyparse]. rewrite Hs. exact Hf.
Qed.

Lemma conf_init buf ts : lexes (scanner_init buf) ts -> conf [(0, Unset)] ts (parser_init buf).
Proof. intros Hl. split; [by repeat constructor|by apply ahead_empty|done|done]. Qed.

(** From the description to the end. *)
Lemma accepts r p : conf [(6, RSL r); (0, Unset)] [] p -> exists p', yyparse 2 p = Ok (0, p') /\ rsl_spec p' = Some r.
Proof.
  intros Hp. cbn [yyparse]. destruct (backup_act _ [] p 6 (RSL r) (inr 2) Hp eq_refl) as (p1 & [E Ha Hsz Her] & _ & H). rewrite (H ltac:(done)). unfold yyreduce. tab.
  apply fits_cons in E as (w & l & E & [Hw|Hw] & E2); [done|]. subst w. apply fits_cons in E2 as (w & l2 & -> & _ & E3). apply Forall2_nil_inv_r in E3 as ->. rewrite E. cbn [fmap list_fmap snd take rev app drop rule_action mbind result_bind].
  cbn [set_spec stacks set_stacks]. rewrite E. cbn [drop head deref mbind result_bind]. tab. cbn [mbind result_bind].
  destruct (push_state (set_stacks [(0, w)] (set_spec (Some r) p1)) 5 (RSL r) (RSL r) [(0, Unset)] []) as (p2 & E2 & Hc & Hsp).
  - repeat constructor; by left.
  - by right.
  - exact Ha.
  - cbn. rewrite E in Hsz. cbn in Hsz. lia.
  - exact Her.
  - done.
  - unfold set_stacks, set_spec in E2 |- *. cbn [stacks yystacksize yyerrstatus yychar yylval scan rsl_spec] in E2 |- *. rewrite E2. cbn [mbind result_bind].
    destruct (backup_act _ [] p2 5 (RSL r) (inl 10) Hc eq_refl) as (p3 & _ & Hsp3 & H3). destruct (H3 ltac:(done)) as [Hf _]. rewrite (Hf eq_refl). cbn [mbind result_bind].
    exists p3. split; [done|]. rewrite Hsp3, Hsp. done.
Qed.

Lemma parse_complete buf r :
  Z.of_nat (length buf) <= INT_MAX -> rsl_in r = true -> Z.of_nat (rsl_need r) < limit -> tokens_of (scanner_init buf) (rsl_tokens r) -> globus_rsl_parse buf = Ok (Some r).
Proof.
  intros Hl Hr Hn Ht. apply tokens_of_lexes in Ht; [|by apply scanner_init_ok].
  destruct (parses_rsl_all r Hr 0 Unset [] [] ltac:(set_solver) ltac:(cbn; lia) ltac:(unfold list_end; cbn; set_solver) (parser_init buf)) as (p & Hs & Hp).
  { rewrite app_nil_r. by apply conf_init. }
  destruct (accepts r p Hp) as (p' & Ha & Hsp). destruct (steps_yyparse _ _ Hs _ _ Ha) as [fuel Hf].
  assert (parsed_ok (scanner_init buf) (yyparse (parse_fuel buf) (parser_init buf))) as Hok by (by apply yyparse_init_ok).
  unfold globus_rsl_parse. assert (yyparse (parse_fuel buf) (parser_init buf) = Ok (0, p')) as ->; [|cbn; by rewrite Hsp].
  destruct (Nat.le_ge_cases fuel (parse_fuel buf)) as [Hle|Hle]; [by apply (yyparse_more fuel)|].
  rewrite <- Hf. symmetry. apply (yyparse_more (parse_fuel buf)); [done| |done]. intros E. by rewrite E in Hok.
Qed.

(** A description needs no more of the stack than it has tokens. *)
Lemma list_need_tokens l : Forall (fun v => (value_need v <= length (value_tokens v))%nat /\ value_tokens v <> []) l -> (list_need l <= length (mjoin (value_tokens <$> l)))%nat.
Proof.
  induction 1 as [|v l [Hv Hne] _ IH]; [done|]. change (mjoin (value_tokens <$> v :: l)) with (value_tokens v ++ mjoin (value_tokens <$> l)). rewrite length_app. change (list_need (v :: l)) with (Nat.max (value_need v) (S (list_need l))).
  destruct (value_tokens v); [done|]. cbn [length] in *. lia.
Qed.

Lemma value_need_tokens v : value_in v = true -> (value_need v <= length (value_tokens v))%nat /\ value_tokens v <> [].
Proof.
  induction v as [s|l IH|v IH|l r IHl IHr] using value_ind; cbn [value_in]; intros Hv; [cbn; split; [lia|done]|..].
  - apply andb_prop in Hv as [Hf Hv]. rewrite forallb_forall in Hv. split; [|done].
    assert (Forall (fun v => (value_need v <= length (value_tokens v))%nat /\ value_tokens v <> []) l) as Hl.
    { rewrite Forall_forall in *. intros v Hin. apply IH; [done|]. apply Hv. by apply list_elem_of_In. }
    pose proof (list_need_tokens l Hl) as Hn. cbn [value_need value_tokens length]. fold (list_need l). rewrite length_app. cbn [length].
    destruct l as [|v l]; [done|]. change (list_need (v :: l)) with (Nat.max (value_need v) (S (list_need l))) in *. lia.
  - apply andb_prop in Hv as [_ Hv]. destruct (IH Hv) as [Hn _]. cbn. split; [lia|done].
  - destruct l as [l|], r as [r|]; try done. rewrite !andb_true_iff in Hv. destruct Hv as [[_ Hl] Hr]. destruct (IHl l eq_refl Hl) as [Hn1 _], (IHr r eq_refl Hr) as [Hn2 Hne].
    cbn [value_need value_tokens from_option]. rewrite length_app. cbn [length]. destruct (value_tokens l) eqn:E; cbn [app] in *; [|split; [cbn [length] in *; lia|done]].
    cbn [length] in Hn1. pose proof (need_pos l Hl). lia.
Qed.

Lemma rsl_need_tokens r : rsl_in r = true -> (rsl_need r <= length (rsl_tokens r))%nat.
Proof.
  induction r as [op l IH|op a v] using tree_ind; cbn [rsl_in]; intros Hr.
  - rewrite !andb_true_iff in Hr. destruct Hr as [[_ _] Hl]. cbn [rsl_need rsl_tokens length]. fold (spec_need l) (spec_tokens l). apply le_n_S.
    revert Hl. induction IH as [|r l Hr _ IHl]; [done|]. cbn [forallb]. intros [Hin Hl]%andb_prop. change (spec_need (r :: l)) with (Nat.max (S (rsl_need r)) (3 + spec_need l)).
    change (spec_tokens (r :: l)) with ((sym RSL_LPAREN :: rsl_tokens r ++ [sym RSL_RPAREN]) ++ spec_tokens l). rewrite length_app. cbn [length]. rewrite length_app. cbn [length]. specialize (Hr Hin). specialize (IHl Hl).
    assert (rsl_tokens r <> []) by (by destruct r). destruct (rsl_tokens r); [done|]. cbn [length] in *. lia.
  - rewrite !andb_true_iff in Hr. destruct Hr as [[_ Hs] Hv]. destruct v as [|l| |]; try done. cbn in Hv. apply andb_prop in Hv as [_ Hv]. rewrite forallb_forall in Hv.
    cbn [rsl_need rsl_tokens globus_rsl_value_sequence_get_value_list length]. apply le_n_S, le_n_S, list_need_tokens. apply Forall_forall. intros v Hin. apply value_need_tokens, Hv. by apply list_elem_of_In.
Qed.

(** C3: [globus_rsl_parse] accepts exactly the language of the grammar. For every text it
    returns: a tree of the language whose tokens are those of the text; or NULL, and then
    either the tokens of the text are those of no tree or the tree needs more than the 9998
    symbols that fit on the stack; or it writes past the end of the error message, which takes
    a text of more than 800 characters that has no such tree either. *)
Theorem rsl_parse_correct (buf : str) :
  Z.of_nat (length buf) <= INT_MAX ->
  let rejects := forall r, rsl_in r = true -> tokens_of (scanner_init buf) (rsl_tokens r) -> limit <= Z.of_nat (rsl_need r) in
  match globus_rsl_parse buf with
  | Ok (Some r) => rsl_in r = true /\ tokens_of (scanner_init buf) (rsl_tokens r)
  | Ok None => rejects
  | Fault OutOfBounds => (800 < length buf)%nat /\ rejects
  | Fault _ => False
  end.
Proof.
  intros Hl rejects. pose proof (parse_ok buf Hl) as H.
  assert ((forall r, globus_rsl_parse buf <> Ok (Some r)) -> rejects) as Hr.
  { intros Hne r Hr Ht. destruct (Z.lt_ge_cases (Z.of_nat (rsl_need r)) limit); [|done]. by destruct (Hne r (parse_complete buf r Hl Hr ltac:(done) Ht)). }
  destruct (globus_rsl_parse buf) as [[r|]|[]]; try done; [by apply Hr|split; [done|by apply Hr]].
Qed.

Lemma rsl_parse_correct_witness :
  exists r, globus_rsl_parse (codes "&(dir=$(HOME)/x y)(count>=1)") = Ok (Some r) /\
    rsl_tokens r = [sym RSL_OP_AND; sym RSL_LPAREN; (RSL_STRING, Some (codes "dir")); sym RSL_OP_EQ; sym RSL_VARIABLE_START; sym RSL_LPAREN;
      (RSL_STRING, Some (codes "HOME")); sym RSL_RPAREN; sym RSL_OP_CONCATENATE; (RSL_STRING, Some (codes "/x")); (RSL_STRING, Some (codes "y"));
      sym RSL_RPAREN; sym RSL_LPAREN; (RSL_STRING, Some (codes "count")); sym RSL_OP_GTEQ; (RSL_STRING, Some (codes "1")); sym RSL_RPAREN] /\
    tokens_of (scanner_init (codes "&(dir=$(HOME)/x y)(count>=1)")) (rsl_tokens r).
Proof.
  pose proof (rsl_parse_correct (codes "&(dir=$(HOME)/x y)(count>=1)") ltac:(vm_compute; discriminate)) as H. cbv zeta in H.
  destruct (globus_rsl_parse (codes "&(dir=$(HOME)/x y)(count>=1)")) as [[r|]|f] eqn:E; vm_compute in E; try discriminate.
  destruct H as [_ H]. exists r. split; [reflexivity|]. split; [|exact H]. injection E as <-. vm_compute. reflexivity.
Defined.

(** ** Types of semantic values *)
Lemma stack_slots st ts : stack_inv st ts -> Forall (fun x => x.1 = 0 \/ exists ts', slot (stos x.1) x.2 ts') st.
Proof. induction 1 as [v|q v p w l ts ts' _ IH _ Hs _]; constructor; [by left|constructor|right; by exists ts'|done]. Qed.

Lemma steps_inv s0 p p' ts : steps p p' -> inv s0 ts p -> exists ts', inv s0 ts' p'.
Proof.
  intros Hs. revert ts. induction Hs as [p|p p1 p' Hb _ IH]; intros ts Hp; [eauto|]. pose proof (backup_ok s0 ts p Hp) as Hok. rewrite Hb in Hok. destruct Hok as [[ts1 Hp1] _]. by apply (IH ts1).
Qed.

(** The member that was written where an action reads [m]: the same one, but for the two
    rules of value_list. *)
Definition read_as (n : Z) (m : option member) (v : YYSTYPE) : Prop :=
  match m with
  | None => True
  | Some m => written v = Some (if bool_decide (n ∈ [18; 19] /\ m = MRSL) then MRSLval else m)
  end.

(** The values of the right side of the rule, popped one by one. *)
Ltac reads_done := cbn [slot] in *; use_slots; cbn; repeat (apply Forall2_cons; split; [done|]); by apply Forall2_nil.
Ltac reads_pop H k := match k with
  | S ?k => pop H; first [reads_done | reads_pop H k]
  end.

Lemma reduction_reads q v l ts n :
  stack_inv ((q, v) :: l) ts -> c_index yydefact q = Ok n -> n <> 0 ->
  exists k, c_index yyr2 n = Ok k /\ Forall2 (read_as n) (members_read n) (rev (take (Z.to_nat k) (v :: l.*2))).
Proof.
  intros Hst Hn H0. pose proof (stack_top _ _ _ _ Hst) as Hq%list_elem_of_In. cbn in Hq.
  repeat (destruct Hq as [<-|Hq]; [vm_compute in Hn; injection Hn as <-; try done;
    eexists; (split; [vm_compute; reflexivity|]); reads_pop Hst 4%nat|]). done.
Qed.

(** C22: semantic values have the types of their symbols. In every state that the parser
    reaches on any text, the value on the stack for a symbol was written in the member of the
    union that the grammar declares for that symbol (a string for a literal, a tree for a
    specification, lists of trees or of values, an operator), and it is a well-formed part of
    the language. When the state has a rule to reduce by, the values of its right side were
    written in the members that its action reads, except in the two rules of value_list, which
    read the member [RSL] where [RSLval] was written: both are pointers, and the list takes it
    as the pointer to a value that it is. No step of the parser faults, other than by the
    overflow of the error message on a long text. *)
Theorem parser_values_typed (buf : str) (p : parser) :
  Z.of_nat (length buf) <= INT_MAX -> steps (parser_init buf) p ->
  Forall (fun x => x.1 = 0 \/ exists ts, slot (stos x.1) x.2 ts) (stacks p) /\
  (forall q v l n, stacks p = (q, v) :: l -> c_index yydefact q = Ok n -> n <> 0 ->
     exists yylen, c_index yyr2 n = Ok yylen /\ Forall2 (read_as n) (members_read n) (rev (take (Z.to_nat yylen) (stacks p).*2))) /\
  (yybackup p = Fault OutOfBounds -> (800 < length buf)%nat) /\ forall f, yybackup p = Fault f -> f = OutOfBounds.
Proof.
  intros Hl Hs. destruct (steps_inv (scanner_init buf) _ _ [] Hs (parser_init_inv buf Hl)) as [ts Hp]. pose proof (backup_ok _ _ _ Hp) as Hok. split; [by eapply stack_slots, Hp|].
  split. { intros q v l n E. rewrite E. apply (reduction_reads q v l ts). rewrite <- E. by apply Hp. }
  split; [intros E; by rewrite E in Hok|]. intros f E. rewrite E in Hok. by destruct f.
Qed.

(** The parser after at most [n] steps. *)
Fixpoint run_steps (n : nat) (p : parser) : parser :=
  match n with
  | O => p
  | S n => match yybackup p with Ok (Next p') => run_steps n p' | _ => p end
  end.

Lemma run_steps_steps n p : steps p (run_steps n p).
Proof.
  revert p. induction n as [|n IH]; intros p; [apply rtc_refl|]. cbn. destruct (yybackup p) as [[p'|rc p']|f] eqn:E; [|apply rtc_refl..]. exact (rtc_l _ _ _ _ E (IH p')).
Qed.

(** In "a=b", after eight steps, the value is reduced by rule 19. *)
Lemma parser_values_typed_witness :
  let p := run_steps 8 (parser_init (codes "a=b")) in let v := RSLval (VLiteral (Some [98])) in
  stacks p = [(25, v); (19, Int GLOBUS_RSL_EQ); (9, String_ [97]); (0, Unset)] /\ c_index yydefact 25 = Ok 19 /\
  Forall (fun x => x.1 = 0 \/ exists ts, slot (stos x.1) x.2 ts) (stacks p) /\ Forall2 (read_as 19) [Some MRSL] [v].
Proof.
  intros p v. assert (stacks p = [(25, v); (19, Int GLOBUS_RSL_EQ); (9, String_ [97]); (0, Unset)]) as E by (vm_compute; reflexivity).
  destruct (parser_values_typed (codes "a=b") p) as (Ht & Hr & _); [vm_compute; discriminate|apply run_steps_steps|].
  split; [exact E|]. split; [reflexivity|]. split; [exact Ht|].
  destruct (Hr _ _ _ 19 E) as (k & Ek & Hk); [reflexivity|discriminate|]. vm_compute in Ek. injection Ek as <-. rewrite E in Hk. exact Hk.
Defined.

(** ** The error message *)

Definition unquoted (a : str) : Prop := exists c rest, a = c :: rest /\ UNQUOTED_LITERAL_CHAR c = true /\ Forall (fun c => UNQUOTED_LITERAL_REST c = true) rest.

Lemma unquoted_main c : UNQUOTED_LITERAL_CHAR c = true -> WHITESPACE c = false /\ forall s rest, input s = c :: rest -> main_rule s = unquoted_literal s.
Proof.
  intros Hc. assert (forall d, one_of d special || one_of d (codes "+&|") = true -> c <> d) as Hne. { intros d Hd ->. unfold UNQUOTED_LITERAL_CHAR in Hc. by rewrite Hd in Hc. }
  assert (WHITESPACE c = false) as Hw.
  { unfold WHITESPACE, one_of. cbn [existsb]. rewrite (proj2 (Z.eqb_neq c 32)), (proj2 (Z.eqb_neq c 9)), (proj2 (Z.eqb_neq c 10)) by (by apply Hne). done. }
  split; [done|]. intros s rest Hi. unfold main_rule. rewrite Hi. cbv zeta. unfold VARIABLE_START.
  rewrite (proj2 (Z.eqb_neq c 40)), (proj2 (Z.eqb_neq c 41)), (proj2 (Z.eqb_neq c 34)), (proj2 (Z.eqb_neq c 39)), (proj2 (Z.eqb_neq c 94)), (proj2 (Z.eqb_neq c 36)), (proj2 (Z.eqb_neq c 61)),
    (proj2 (Z.eqb_neq c 33)), (proj2 (Z.eqb_neq c 60)), (proj2 (Z.eqb_neq c 62)), (proj2 (Z.eqb_neq c 43)), (proj2 (Z.eqb_neq c 38)), (proj2 (Z.eqb_neq c 124)), (proj2 (Z.eqb_neq c 35)) by (by apply Hne).
  cbn [orb]. by rewrite Hw, Hc.
Qed.

(** A literal at the end of the text, after a space. *)
Lemma yylex_last a s : unquoted a -> scanner_ok s -> yy_start s = INITIAL -> input s = 32 :: a -> exists s', yylex s = Ok (RSL_STRING, Some a, s') /\ yytext s' = a.
Proof.
  intros (c & rest & -> & Hc & Hr) Hok Hst Hi. destruct (unquoted_main c Hc) as [Hw Hmain].
  assert (scan1 s = Ok (None, matched s [32] (c :: rest) INITIAL)) as E.
  { unfold scan1. rewrite Hst. unfold main_rule. rewrite Hi. cbv zeta. assert (span WHITESPACE (32 :: c :: rest) = 1%nat) as -> by (cbn [span]; by rewrite Hw). rewrite Hst. reflexivity. }
  destruct (yylex_skip s _ Hok E) as [-> _]. assert (span UNQUOTED_LITERAL_REST rest = length rest) as Hsp. { rewrite <- (app_nil_r rest) at 1. apply span_app; [done|by right]. }
  set (s1 := matched s [32] (c :: rest) INITIAL). exists (matched s1 (c :: rest) [] INITIAL). split; [|done]. apply yylex_token. change (scan1 s1) with (main_rule s1).
  rewrite (Hmain s1 rest eq_refl). unfold unquoted_literal, s1. cbn [matched input tail]. rewrite Hsp. cbn [take drop]. rewrite firstn_all, drop_all. reflexivity.
Qed.

(** C35: the error message overflows. A text of an attribute followed by an unquoted literal of
    987 characters or more, instead of an operator, is a syntax error; [yyerror] then prints the
    literal and the message into the 1024 characters of [globus_rsl_parse_error_t], and writes
    past their end. *)
Theorem rsl_error_overflow (a : str) :
  unquoted a -> 987 <= Z.of_nat (length a) <= INT_MAX - 2 -> globus_rsl_parse (codes "a " ++ a) = Fault OutOfBounds.
Proof.
  intros Ha Hl. change (codes "a " ++ a) with (97 :: 32 :: a). unfold globus_rsl_parse, parse_fuel. set (buf := 97 :: 32 :: a).
  assert (Z.of_nat (length buf) <= INT_MAX) as Hlen by (unfold buf; cbn [length]; lia).
  assert (exists k, (20 * length buf + 1 = S (S (S k)))%nat) as [k ->] by (exists (20 * length buf - 2)%nat; unfold buf; cbn [length]; lia).
  set (s1 := matched (scanner_init buf) [97] (32 :: a) INITIAL).
  assert (yylex (scanner_init buf) = Ok (RSL_STRING, Some [97], s1)) as E0 by (by apply yylex_token).
  assert (scanner_ok s1) as Hok1.
  { destruct (yylex_total _ (scanner_init_ok buf Hlen)) as (t & v & s' & E & _ & H). rewrite E0 in E. injection E as <- <- <-. destruct H as [[H _]|(_ & H & _)]; done. }
  destruct (yylex_last a s1 Ha Hok1 eq_refl eq_refl) as (s2 & E1 & Htx).
  set (p1 := Parser [(1, String_ [97]); (0, Unset)] 200 0 YYEMPTY (String_ [97]) s1 None).
  set (p2 := Parser [(9, String_ [97]); (0, Unset)] 200 0 YYEMPTY (String_ [97]) s1 None).
  assert (yybackup (parser_init buf) = Ok (Next p1)) as B0.
  { unfold yybackup. cbn [parser_init stacks head deref mbind result_bind]. tab. unfold yyread. cbn [parser_init yychar scan]. rewrite E0. reflexivity. }
  assert (yybackup p1 = Ok (Next p2)) as B1 by reflexivity.
  assert (yybackup p2 = Fault OutOfBounds) as B2.
  { unfold yybackup, p2. cbn [stacks head deref mbind result_bind]. tab. unfold yyread. cbn [yychar scan]. rewrite E1.
    set (p3 := Parser [(9, String_ [97]); (0, Unset)] 200 0 RSL_STRING (String_ a) s2 None).
    transitivity (yyerrlab p3 9); [reflexivity|]. unfold yyerrlab. change (yyerrstatus p3) with 0. change (yychar p3) with RSL_STRING. cbn [Z.eqb].
    assert (yysyntax_error 9 RSL_STRING = Ok (Some (codes "syntax error, unexpected RSL_STRING"))) as -> by (vm_compute; reflexivity). cbn [mbind result_bind default].
    unfold yyerror. change (scan p3) with s2. rewrite Htx, !length_app. change (length (codes ": ")) with 2%nat. change (length (id (codes "syntax error, unexpected RSL_STRING"))) with 35%nat.
    unfold GLOBUS_SPECIFICATION_PARSE_ERROR_MESSAGE_LENGTH. rewrite (proj2 (Z.ltb_ge _ _)) by lia. reflexivity. }
  cbn [yyparse]. rewrite B0. cbn [mbind result_bind]. rewrite B1. cbn [mbind result_bind]. by rewrite B2.
Qed.

Lemma rsl_error_overflow_witness : unquoted (replicate 987 65) /\ globus_rsl_parse (codes "a " ++ replicate 987 65) = Fault OutOfBounds.
Proof.
  assert (unquoted (replicate 987 65)) as Hu.
  { exists 65, (replicate 986 65). split; [reflexivity|]. split; [reflexivity|]. apply Forall_replicate. reflexivity. }
  split; [exact Hu|]. apply rsl_error_overflow; [exact Hu|]. rewrite length_replicate. unfold INT_MAX. lia.
Defined.
End Complete.
