(* ===== verification/RslUnparse.v ===== *)
(** * Job descriptions: printing, and the round trip (gram/rsl/source/globus_rsl.c)

    [globus_rsl_unparse] and what it calls. The fifo that collects the characters is the
    list of what is in it (Fifo.v shows that it is a queue); allocation does not fail.

    The text that is printed for a tree has the tokens of the tree, so that parsing it
    gives the tree back, with concatenations grouped to the right. *)
From S2P Require Import Prelude.
From S2P Require Import Chars.
From S2P Require Import Memory.
From S2P Require Import Hashtable.
From S2P Require Import Symboltable.
From S2P Require Import Rsl.
From S2P Require Import RslScan.
From S2P Require Import RslYacc.
From S2P Require Import RslComplete.
Local Open Scope Z_scope.

Module Unparse.
Import Rsl Scan Yacc Complete.

Abbreviation str := (list Z) (only parsing).

(** ** Printing *)

(** The characters of a literal, with the quotes doubled. *)
Fixpoint escape (string : str) : str :=
  match string with
  | [] => []
  | c :: string => if c =? 34 then 34 :: 34 :: escape string else c :: escape string
  end.

Definition globus_i_rsl_unparse_string_literal_to_fifo (string : option str) (bufferp : str) : Z * str :=
  match string with
  | None => (1, bufferp)
  | Some string => (0, bufferp ++ 34 :: escape string ++ [34])
  end.

Definition globus_i_rsl_unparse_operator_to_fifo (operator : Z) (bufferp : str) : Z * str :=
  if operator =? GLOBUS_RSL_EQ then (0, bufferp ++ codes "=")
  else if operator =? GLOBUS_RSL_NEQ then (0, bufferp ++ codes "!=")
  else if operator =? GLOBUS_RSL_GT then (0, bufferp ++ codes ">")
  else if operator =? GLOBUS_RSL_GTEQ then (0, bufferp ++ codes ">=")
  else if operator =? GLOBUS_RSL_LT then (0, bufferp ++ codes "<")
  else if operator =? GLOBUS_RSL_LTEQ then (0, bufferp ++ codes "<=")
  else if operator =? GLOBUS_RSL_MULTIREQ then (0, bufferp ++ codes "+")
  else if operator =? GLOBUS_RSL_AND then (0, bufferp ++ codes "&")
  else if operator =? GLOBUS_RSL_OR then (0, bufferp ++ codes "|")
  else (1, bufferp).

(** The name of a variable, and its default when it has one. *)
Definition unparse_variable (ast : rsl_value) (bufferp : str) : result (Z * str) :=
  let bufferp := bufferp ++ codes "$(" in
  name ← globus_rsl_value_variable_get_name ast;
  let '(err, bufferp) := globus_i_rsl_unparse_string_literal_to_fifo name bufferp in
  if negb (err =? 0) then Ok (1, bufferp)
  else
    d ← globus_rsl_value_variable_get_default ast;
    match d with
    | None => Ok (0, bufferp ++ codes ")")
    | Some _ =>
        let '(err, bufferp) := globus_i_rsl_unparse_string_literal_to_fifo d (bufferp ++ codes " ") in
        if negb (err =? 0) then Ok (1, bufferp) else Ok (0, bufferp ++ codes ")")
    end.

Fixpoint globus_i_rsl_value_unparse_to_fifo (ast : rsl_value) (bufferp : str) {struct ast} : result (Z * str) :=
  match ast with
  | VLiteral s => let '(_, bufferp) := globus_i_rsl_unparse_string_literal_to_fifo s bufferp in Ok (0, bufferp)
  | VSequence values =>
      '(err, bufferp) ←
        (fix loop (values : list rsl_value) (bufferp : str) : result (Z * str) :=
           match values with
           | [] => Ok (0, bufferp)
           | v :: values =>
               '(err, bufferp) ← globus_i_rsl_value_unparse_to_fifo v bufferp;
               if negb (err =? 0) then Ok (1, bufferp) else loop values (bufferp ++ codes " ")
           end) values (bufferp ++ codes "(");
      if negb (err =? 0) then Ok (1, bufferp) else Ok (0, bufferp ++ codes ")")
  | VVariable _ => unparse_variable ast bufferp
  | VConcatenation l r =>
      match l with
      | None => Ok (1, bufferp)
      | Some l =>
          '(err, bufferp) ← globus_i_rsl_value_unparse_to_fifo l bufferp;
          if negb (err =? 0) then Ok (1, bufferp)
          else
            match r with
            | None => Ok (1, bufferp ++ codes " # ")
            | Some r =>
                '(err, bufferp) ← globus_i_rsl_value_unparse_to_fifo r (bufferp ++ codes " # ");
                if negb (err =? 0) then Ok (1, bufferp) else Ok (0, bufferp)
            end
      end
  end.

(** The loop over the values of a relation. *)
Fixpoint unparse_values (values : list rsl_value) (bufferp : str) : result (Z * str) :=
  match values with
  | [] => Ok (0, bufferp)
  | v :: values =>
      '(err, bufferp) ← globus_i_rsl_value_unparse_to_fifo v bufferp;
      if negb (err =? 0) then Ok (1, bufferp) else unparse_values values (bufferp ++ codes " ")
  end.

Fixpoint globus_i_rsl_unparse_to_fifo (ast : rsl) (bufferp : str) {struct ast} : result (Z * str) :=
  match ast with
  | Relation op attribute v =>
      let '(err, bufferp) := globus_i_rsl_unparse_string_literal_to_fifo (Some attribute) bufferp in
      if negb (err =? 0) then Ok (1, bufferp)
      else
        let '(_, bufferp) := globus_i_rsl_unparse_operator_to_fifo op (bufferp ++ codes " ") in
        unparse_values (globus_rsl_value_sequence_get_value_list v) (bufferp ++ codes " ")
  | Boolean op operands =>
      let '(_, bufferp) := globus_i_rsl_unparse_operator_to_fifo op bufferp in
      (fix loop (operands : list rsl) (bufferp : str) : result (Z * str) :=
         match operands with
         | [] => Ok (0, bufferp)
         | r :: operands =>
             '(err, bufferp) ← globus_i_rsl_unparse_to_fifo r (bufferp ++ codes "(");
             if negb (err =? 0) then Ok (1, bufferp) else loop operands (bufferp ++ codes ")")
         end) operands bufferp
  end.

(** The characters of the fifo, as a C string. *)
Definition globus_rsl_unparse (rsl_spec : rsl) : result (option str) :=
  '(err, buffer) ← globus_i_rsl_unparse_to_fifo rsl_spec [];
  Ok (if negb (err =? 0) then None else Some (cstring buffer)).

Definition globus_rsl_value_unparse (v : rsl_value) : result (option str) :=
  '(err, buffer) ← globus_i_rsl_value_unparse_to_fifo v [];
  Ok (if negb (err =? 0) then None else Some (cstring buffer)).

(** ** What is printed *)

(** The trees that have a text of their own: lists are not empty, variables are references
    by name with an optional default, operands of concatenations are not sequences, strings
    have no NUL. *)
Definition str_in (s : str) : bool := forallb (fun c => negb (c =? 0)) s.

Fixpoint printable_value (v : rsl_value) : bool :=
  match v with
  | VLiteral (Some s) => str_in s
  | VSequence l => filled l && forallb printable_value l
  | VVariable (VSequence [VLiteral (Some n)]) => str_in n
  | VVariable (VSequence [VLiteral (Some n); VLiteral (Some d)]) => str_in n && str_in d
  | VConcatenation (Some l) (Some r) =>
      negb (globus_rsl_value_is_sequence l) && negb (globus_rsl_value_is_sequence r) && printable_value l && printable_value r
  | _ => false
  end.

Fixpoint printable (r : rsl) : bool :=
  match r with
  | Boolean op l => prefix_op op && filled l && forallb printable l
  | Relation op a v => infix_op op && str_in a && globus_rsl_value_is_sequence v && printable_value v
  end.

(** The text of a value. *)
Definition quoted (s : str) : str := 34 :: escape s ++ [34].

Fixpoint value_text (v : rsl_value) : str :=
  match v with
  | VLiteral s => from_option quoted [] s
  | VSequence l => codes "(" ++ mjoin ((fun v => value_text v ++ codes " ") <$> l) ++ codes ")"
  | VVariable (VSequence [VLiteral (Some n)]) => codes "$(" ++ quoted n ++ codes ")"
  | VVariable (VSequence [VLiteral (Some n); VLiteral (Some d)]) => codes "$(" ++ quoted n ++ codes " " ++ quoted d ++ codes ")"
  | VConcatenation (Some l) (Some r) => value_text l ++ codes " # " ++ value_text r
  | _ => []
  end.

Definition operator_text (op : Z) : str := (globus_i_rsl_unparse_operator_to_fifo op []).2.

Definition list_text (l : list rsl_value) : str := mjoin ((fun v => value_text v ++ codes " ") <$> l).

Fixpoint rsl_text (r : rsl) : str :=
  match r with
  | Boolean op l => operator_text op ++ mjoin ((fun r => codes "(" ++ rsl_text r ++ codes ")") <$> l)
  | Relation op a v => quoted a ++ codes " " ++ operator_text op ++ codes " " ++ list_text (globus_rsl_value_sequence_get_value_list v)
  end.

Lemma unparse_operator op b : (globus_i_rsl_unparse_operator_to_fifo op b).2 = b ++ operator_text op.
Proof. unfold operator_text, globus_i_rsl_unparse_operator_to_fifo. repeat (destruct (op =? _); [done|]). cbn. by rewrite app_nil_r. Qed.

Lemma unparse_values_text l b :
  Forall (fun v => forall b, globus_i_rsl_value_unparse_to_fifo v b = Ok (0, b ++ value_text v)) l -> unparse_values l b = Ok (0, b ++ list_text l).
Proof.
  intros Hl. revert b. induction Hl as [|v l Hv _ IH]; intros b; cbn [unparse_values]; [by rewrite app_nil_r|]. rewrite Hv. cbn [mbind result_bind Z.eqb negb]. rewrite IH.
  unfold list_text. cbn. by rewrite <- !app_assoc.
Qed.

Lemma unparse_sequence l b :
  globus_i_rsl_value_unparse_to_fifo (VSequence l) b =
  ('(err, b) ← unparse_values l (b ++ codes "("); if negb (err =? 0) then Ok (1, b) else Ok (0, b ++ codes ")")).
Proof. done. Qed.

Lemma forallb_Forall {A} (f : A -> bool) l : forallb f l = true -> Forall (fun x => f x = true) l.
Proof. rewrite forallb_forall, Forall_forall. intros H x Hx. apply H. by apply list_elem_of_In. Qed.

(** The trees for which printing succeeds print their text. *)
Lemma value_unparse_text v : printable_value v = true -> forall b, globus_i_rsl_value_unparse_to_fifo v b = Ok (0, b ++ value_text v).
Proof.
  induction v as [s|l IH|v _|l r IHl IHr] using value_ind; intros Hv b.
  - destruct s as [s|]; [|done]. done.
  - rewrite unparse_sequence. cbn in Hv. apply andb_prop in Hv as [_ Hv%forallb_Forall]. rewrite unparse_values_text.
    + cbn [mbind result_bind Z.eqb negb]. cbn [value_text]. fold (list_text l). by rewrite <- !app_assoc.
    + rewrite Forall_forall in *. intros v Hin. apply IH; [done|]. by apply Hv.
  - destruct v as [|[|[[n|]| | |] [|[[d|]| | |] [|]]]| |]; try done; cbn [globus_i_rsl_value_unparse_to_fifo value_text]; unfold unparse_variable.
    + change (globus_rsl_value_variable_get_name _) with (Ok (Some n)). change (globus_rsl_value_variable_get_default _) with (@Ok (option str) None).
      cbn [mbind result_bind globus_i_rsl_unparse_string_literal_to_fifo Z.eqb negb]. fold (quoted n). by rewrite <- !app_assoc.
    + change (globus_rsl_value_variable_get_name _) with (Ok (Some n)). change (globus_rsl_value_variable_get_default _) with (Ok (Some d)).
      cbn [mbind result_bind globus_i_rsl_unparse_string_literal_to_fifo Z.eqb negb]. fold (quoted n). fold (quoted d). by rewrite <- !app_assoc.
  - destruct l as [l|], r as [r|]; try done. cbn in Hv. rewrite !andb_true_iff in Hv. destruct Hv as [[_ Hl] Hr]. cbn [globus_i_rsl_value_unparse_to_fifo].
    rewrite (IHl l eq_refl Hl). cbn [mbind result_bind Z.eqb negb]. rewrite (IHr r eq_refl Hr). cbn [mbind result_bind Z.eqb negb value_text]. by rewrite <- !app_assoc.
Qed.

Fixpoint unparse_operands (operands : list rsl) (bufferp : str) : result (Z * str) :=
  match operands with
  | [] => Ok (0, bufferp)
  | r :: operands =>
      '(err, bufferp) ← globus_i_rsl_unparse_to_fifo r (bufferp ++ codes "(");
      if negb (err =? 0) then Ok (1, bufferp) else unparse_operands operands (bufferp ++ codes ")")
  end.

Lemma unparse_Boolean op l b : globus_i_rsl_unparse_to_fifo (Boolean op l) b = unparse_operands l (globus_i_rsl_unparse_operator_to_fifo op b).2.
Proof. cbn. by destruct (globus_i_rsl_unparse_operator_to_fifo op b). Qed.

Definition spec_text (l : list rsl) : str := mjoin ((fun r => codes "(" ++ rsl_text r ++ codes ")") <$> l).

Lemma unparse_text r : printable r = true -> forall b, globus_i_rsl_unparse_to_fifo r b = Ok (0, b ++ rsl_text r).
Proof.
  induction r as [op l IH|op a v] using tree_ind; intros Hr b.
  - rewrite unparse_Boolean, unparse_operator. cbn in Hr. apply andb_prop in Hr as [_ Hl%forallb_Forall]. cbn [rsl_text]. fold (spec_text l). rewrite app_assoc. generalize (b ++ operator_text op). clear b.
    induction IH as [|r l Hr _ IHl]; intros b; cbn [unparse_operands]; [by rewrite app_nil_r|]. inversion_clear Hl as [|? ? Hpr Hl']. rewrite (Hr Hpr). cbn [mbind result_bind Z.eqb negb]. rewrite (IHl Hl').
    unfold spec_text. cbn. by rewrite <- !app_assoc.
  - cbn in Hr. rewrite !andb_true_iff in Hr. destruct Hr as [[_ Hs] Hv]. destruct v as [|l| |]; try done. cbn in Hv. apply andb_prop in Hv as [_ Hv%forallb_Forall].
    cbn [globus_i_rsl_unparse_to_fifo globus_i_rsl_unparse_string_literal_to_fifo Z.eqb negb globus_rsl_value_sequence_get_value_list].
    rewrite (surjective_pairing (globus_i_rsl_unparse_operator_to_fifo _ _)), unparse_operator. rewrite unparse_values_text.
    + cbn [rsl_text globus_rsl_value_sequence_get_value_list]. unfold quoted. by rewrite <- !app_assoc, <- !app_comm_cons, <- !app_assoc.
    + eapply Forall_impl; [exact Hv|]. apply value_unparse_text.
Qed.

(** No NUL is printed. *)
Lemma escape_nonzero s : str_in s = true -> nonzero (escape s).
Proof.
  unfold nonzero. induction s as [|c s IH]; cbn; [constructor|]. rewrite andb_true_iff, negb_true_iff, Z.eqb_neq. intros [Hc Hs]. destruct (Z.eqb_spec c 34); repeat constructor; try lia; by apply IH.
Qed.

Lemma quoted_nonzero s : str_in s = true -> nonzero (quoted s).
Proof. intros Hs. unfold nonzero, quoted. constructor; [done|]. apply Forall_app. split; [by apply escape_nonzero|by repeat constructor]. Qed.

Lemma join_nonzero (l : list str) : Forall nonzero l -> nonzero (mjoin l).
Proof. induction 1 as [|s l Hs _ IH]; [constructor|]. cbn. apply Forall_app. by split. Qed.

Lemma value_text_no_nul v : printable_value v = true -> nonzero (value_text v).
Proof.
  induction v as [s|l IH|v _|l r IHl IHr] using value_ind; intros Hv.
  - destruct s as [s|]; [|done]. by apply quoted_nonzero.
  - cbn in *. apply andb_prop in Hv as [_ Hv%forallb_Forall]. constructor; [done|]. apply Forall_app. split; [|by repeat constructor]. apply join_nonzero, Forall_fmap.
    rewrite Forall_forall in *. intros v Hin. apply Forall_app. split; [|by repeat constructor]. apply IH; [done|]. by apply Hv.
  - destruct v as [|[|[[n|]| | |] [|[[d|]| | |] [|]]]| |]; try done; cbn [value_text printable_value] in *; rewrite ?andb_true_iff in Hv;
      repeat (apply Forall_app; split); try (by apply quoted_nonzero); try (by repeat constructor); destruct Hv; by apply quoted_nonzero.
  - destruct l as [l|], r as [r|]; try done. cbn in Hv. rewrite !andb_true_iff in Hv. destruct Hv as [[_ Hl] Hr]. cbn [value_text].
    repeat (apply Forall_app; split); [by apply IHl|by repeat constructor|by apply IHr].
Qed.

Lemma operator_nonzero op : nonzero (operator_text op).
Proof. unfold operator_text, globus_i_rsl_unparse_operator_to_fifo. repeat (destruct (op =? _); [by repeat constructor|]). constructor. Qed.

Lemma rsl_text_nonzero r : printable r = true -> nonzero (rsl_text r).
Proof.
  induction r as [op l IH|op a v] using tree_ind; intros Hr; cbn in Hr.
  - apply andb_prop in Hr as [_ Hl%forallb_Forall]. cbn [rsl_text]. apply Forall_app. split; [apply operator_nonzero|]. apply join_nonzero, Forall_fmap.
    rewrite Forall_forall in *. intros r Hin. repeat (apply Forall_app; split); try (by repeat constructor). apply IH; [done|]. by apply Hl.
  - rewrite !andb_true_iff in Hr. destruct Hr as [[[_ Ha] Hs] Hv]. destruct v as [|l| |]; try done. cbn in Hv. apply andb_prop in Hv as [_ Hv%forallb_Forall]. cbn [rsl_text globus_rsl_value_sequence_get_value_list].
    repeat (apply Forall_app; split); try (by repeat constructor); [by apply quoted_nonzero|apply operator_nonzero|]. apply join_nonzero, Forall_fmap. eapply Forall_impl; [exact Hv|].
    intros v Hpv. apply Forall_app. split; [by apply value_text_no_nul|by repeat constructor].
Qed.

Lemma unparse_prints r : printable r = true -> globus_rsl_unparse r = Ok (Some (rsl_text r)).
Proof. intros Hr. unfold globus_rsl_unparse. rewrite (unparse_text r Hr). cbn. by rewrite cstring_id by (by apply rsl_text_nonzero). Qed.

(** ** Scanning what was printed *)

(** Between two tokens: the text that is left and the open variable references. *)
Record ready (s : scanner) (inp : str) (stk : list Z) : Prop := {
  ready_input : input s = inp;
  ready_start : yy_start s = after_variable stk;
  ready_counts : paren_count_stack s = stk;
  ready_ok : scanner_ok s }.

(** [ts] are the next tokens of [inp], with [inp'] left. *)
Definition scans (inp : str) (stk : list Z) (ts : list tok) (inp' : str) (stk' : list Z) : Prop :=
  forall ts', (forall s', ready s' inp' stk' -> lexes s' ts') -> forall s, ready s inp stk -> lexes s (ts ++ ts').

Lemma scans_trans inp stk ts1 inp1 stk1 ts2 inp2 stk2 : scans inp stk ts1 inp1 stk1 -> scans inp1 stk1 ts2 inp2 stk2 -> scans inp stk (ts1 ++ ts2) inp2 stk2.
Proof. intros H1 H2 ts' H s Hs. rewrite <- app_assoc. apply H1; [|done]. by apply H2. Qed.

(** A rule that returns a token. *)
Lemma scans_token inp stk t v inp' stk' :
  token_ok t v -> (forall s, ready s inp stk -> exists s', scan1 s = Ok (Some (t, v), s') /\ input s' = inp' /\ yy_start s' = after_variable stk' /\ paren_count_stack s' = stk') ->
  scans inp stk [(t, v)] inp' stk'.
Proof.
  intros Ht H ts' Hts s Hs. destruct (H s Hs) as (s' & E & Hi & Hst & Hc). cbn [app]. eapply lexes_cons; [by apply yylex_token|done|]. apply Hts. split; [done|done|done|].
  destruct (scan1_advances s (ready_ok _ _ _ Hs)) as (t2 & s2 & E2 & _ & Ha). rewrite E in E2. injection E2 as <- <-. destruct Ha as [[-> _]|(_ & Ha & _)]; [|done].
  apply token_range, elem_of_tokens in Ht. unfold YYEOF in Ht. lia.
Qed.

Lemma lexes_skip s s1 ts : yylex s = yylex s1 -> lexes s1 ts -> lexes s ts.
Proof. intros E Hl. destruct Hl as [s1 v s' Hy|s1 t v s' ts Hy Ht Hl]; [eapply lexes_end; by rewrite E|eapply lexes_cons; [by rewrite E|done|done]]. Qed.

Lemma scan1_outer s stk : yy_start s = after_variable stk -> scan1 s = main_rule s.
Proof. intros E. unfold scan1. rewrite E. by destruct stk. Qed.

Lemma scans_space inp stk : next_is WHITESPACE inp = false -> scans (32 :: inp) stk [] inp stk.
Proof.
  intros Hn ts' Hts s [Hi Hst Hc Hok]. assert (span WHITESPACE (32 :: inp) = 1%nat) as Hsp. { cbn. destruct inp as [|c inp]; [done|]. cbn in *. by rewrite Hn. }
  assert (scan1 s = Ok (None, matched s [32] inp (yy_start s))) as E. { rewrite (scan1_outer s stk Hst). unfold main_rule. rewrite Hi. cbv zeta. rewrite Hsp. reflexivity. }
  destruct (yylex_skip s _ Hok E) as [Ey Hok1]. apply (lexes_skip _ _ _ Ey). apply Hts. by split.
Qed.

(** The characters of a quoted literal. *)
Lemma yylex_quote a : forall s f d rest,
  scanner_ok s -> yy_start s = QUOTE -> quote_delimiter s = 34 -> quote_text_fifo s = f -> input s = escape a ++ 34 :: d :: rest -> d <> 34 ->
  exists s', yylex s = Ok (RSL_STRING, Some (f ++ a), s') /\ input s' = d :: rest /\ yy_start s' = calling_state s /\ paren_count_stack s' = paren_count_stack s.
Proof.
  induction a as [|c a IH]; intros s f d rest Hok Hst Hq Hf Hi Hd.
  - assert (scan1 s = Ok (None, matched s [34] (d :: rest) QUOTE_HIT_DELIM)) as E. { unfold scan1, quote_rule. rewrite Hst, Hi, Hq. reflexivity. }
    destruct (yylex_skip s _ Hok E) as [-> _]. exists (Scanner (d :: rest) (calling_state s) (calling_state s) (quote_delimiter s) [] (paren_count_stack s) []). split; [|done]. apply yylex_token.
    unfold scan1. cbn [matched yy_start]. unfold quote_hit_delim_rule. cbn [matched input quote_delimiter]. rewrite Hq, (proj2 (Z.eqb_neq d 34)) by done. cbn [matched quote_text_fifo]. by rewrite Hf, app_nil_r.
  - cbn [escape] in Hi. destruct (Z.eqb_spec c 34) as [->|Hc].
    + assert (scan1 s = Ok (None, matched s [34] (34 :: escape a ++ 34 :: d :: rest) QUOTE_HIT_DELIM)) as E. { unfold scan1, quote_rule. rewrite Hst, Hi, Hq. reflexivity. }
      destruct (yylex_skip s _ Hok E) as [-> Hok1]. set (s1 := matched s _ _ _) in *.
      assert (scan1 s1 = Ok (None, enqueue 34 (matched s1 [34] (escape a ++ 34 :: d :: rest) QUOTE))) as E1. { unfold scan1, s1. cbn [matched yy_start]. unfold quote_hit_delim_rule. cbn [matched input quote_delimiter]. by rewrite Hq. }
      destruct (yylex_skip s1 _ Hok1 E1) as [-> Hok2]. destruct (IH _ (f ++ [34]) d rest Hok2 eq_refl Hq) as (s' & Ey & H); [cbn; by rewrite Hf|done|done|].
      exists s'. split; [by rewrite Ey, <- app_assoc|]. exact H.
    + assert (scan1 s = Ok (None, enqueue c (matched s [c] (escape a ++ 34 :: d :: rest) QUOTE))) as E. { unfold scan1, quote_rule. rewrite Hst, Hi, Hq. cbn [app]. by rewrite (proj2 (Z.eqb_neq c 34)). }
      destruct (yylex_skip s _ Hok E) as [-> Hok2]. destruct (IH _ (f ++ [c]) d rest Hok2 eq_refl Hq) as (s' & Ey & H); [cbn; by rewrite Hf|done|done|].
      exists s'. split; [by rewrite Ey, <- app_assoc|]. exact H.
Qed.

Lemma scans_quoted a d rest stk : d <> 34 -> scans (quoted a ++ d :: rest) stk [(RSL_STRING, Some a)] (d :: rest) stk.
Proof.
  intros Hd ts' Hts s [Hi Hst Hc Hok]. unfold quoted in Hi. rewrite <- app_comm_cons, <- app_assoc in Hi. cbn [app] in Hi.
  assert (scan1 s = Ok (None, Scanner (escape a ++ 34 :: d :: rest) QUOTE (yy_start s) 34 [] (paren_count_stack s) [34])) as E.
  { rewrite (scan1_outer s stk Hst). unfold main_rule. rewrite Hi. reflexivity. }
  destruct (yylex_skip s _ Hok E) as [Ey Hok1].
  destruct (yylex_quote a _ [] d rest Hok1 eq_refl eq_refl eq_refl eq_refl Hd) as (s' & Ey' & Hi' & Hst' & Hc'). cbn in Hst', Hc'. rewrite Ey' in Ey.
  assert (token_ok RSL_STRING (Some ([] ++ a))) as Ht by (left; eauto).
  eapply lexes_cons; [exact Ey|done|]. apply Hts. split; [done|by rewrite Hst'|by rewrite Hc'|].
  destruct (yylex_total s Hok) as (t2 & v2 & s2 & E2 & _ & Ha). rewrite Ey in E2. injection E2 as <- <- <-. destruct Ha as [[Ha _]|(_ & Ha & _)]; [done|done].
Qed.

(** The other tokens that are printed. *)
Ltac char_token s Hst Hc :=
  let Hi := fresh "Hi" in apply scans_token; [right; done|]; intros s [Hi Hst Hc _]; rewrite (scan1_outer s _ Hst); unfold main_rule; rewrite Hi; cbv zeta.
Ltac plain := let s := fresh "s" in let Hst := fresh "Hst" in let Hc := fresh "Hc" in char_token s Hst Hc; eexists; split; [reflexivity|]; cbn; split_and!; [done|exact Hst|exact Hc].

Lemma scans_lparen d rest : d <> 42 -> scans (40 :: d :: rest) [] [sym RSL_LPAREN] (d :: rest) [].
Proof.
  intros Hd. assert (next_is (Z.eqb 42) (d :: rest) = false) as En by (by apply Z.eqb_neq). char_token s Hst Hc. change (40 =? 40) with true. cbv iota. rewrite En. unfold lparen. rewrite Hst. cbn [after_variable]. eexists. split; [reflexivity|]. done.
Qed.

Lemma scans_rparen rest : scans (41 :: rest) [] [sym RSL_RPAREN] rest [].
Proof. char_token s Hst Hc. cbn [Z.eqb Pos.eqb]. unfold rparen. rewrite Hst. cbn [after_variable]. eexists. split; [reflexivity|]. done. Qed.

Lemma scans_hash rest : scans (35 :: rest) [] [sym RSL_OP_CONCATENATE] rest [].
Proof. plain. Qed.

Lemma scans_prefix op rest : prefix_op op = true -> scans (operator_text op ++ rest) [] [sym (prefix_token op)] rest [].
Proof.
  unfold prefix_op. rewrite !orb_true_iff, !Z.eqb_eq. intros [[->| ->]| ->]; [change (operator_text _) with [43]|change (operator_text _) with [38]|change (operator_text _) with [124]]; plain.
Qed.

Lemma scans_infix op rest : infix_op op = true -> scans (operator_text op ++ 32 :: rest) [] [sym (infix_token op)] (32 :: rest) [].
Proof.
  unfold infix_op. rewrite andb_true_iff, !Z.leb_le. unfold GLOBUS_RSL_EQ, GLOBUS_RSL_LTEQ. intros Hop.
  assert (op = 1 \/ op = 2 \/ op = 3 \/ op = 4 \/ op = 5 \/ op = 6) as [->|[->|[->|[->|[->| ->]]]]] by lia; 
    [change (operator_text _) with [61]|change (operator_text _) with [33; 61]|change (operator_text _) with [62]
    |change (operator_text _) with [62; 61]|change (operator_text _) with [60]|change (operator_text _) with [60; 61]]; plain.
Qed.

(** [$("n")] and [$("n" "d")]. *)
Lemma scans_variable_open rest : scans (36 :: 40 :: 34 :: rest) [] [sym RSL_VARIABLE_START; sym RSL_LPAREN] (34 :: rest) [1].
Proof.
  apply (scans_trans _ _ [sym RSL_VARIABLE_START] (40 :: 34 :: rest) [0]).
  - char_token s Hst Hc. eexists. split; [reflexivity|]. cbn. by rewrite Hc.
  - char_token s Hst Hc. cbn [Z.eqb Pos.eqb next_is]. unfold lparen. rewrite Hst. cbn [after_variable]. rewrite Hc. eexists. split; [reflexivity|]. done.
Qed.

Lemma scans_variable_close rest : scans (41 :: 32 :: rest) [1] [sym RSL_RPAREN] (32 :: rest) [].
Proof. char_token s Hst Hc. cbn [Z.eqb Pos.eqb]. unfold rparen. rewrite Hst. cbn [after_variable]. rewrite Hc. eexists. split; [reflexivity|]. done. Qed.

(** The text of a value begins with a quote, a parenthesis or a dollar sign. *)
Definition opens (s : str) : Prop := exists c rest, s = c :: rest /\ (c = 34 \/ c = 36 \/ c = 40).

Lemma opens_app s rest : opens s -> opens (s ++ rest).
Proof. intros (c & r & -> & Hc). exists c, (r ++ rest). done. Qed.

Lemma value_text_opens v : printable_value v = true -> opens (value_text v).
Proof.
  induction v as [s|l _|v _|l r IHl _] using value_ind; intros Hv.
  - destruct s as [s|]; [|done]. eexists _, _. split; [reflexivity|by left].
  - eexists _, _. split; [reflexivity|]. by right; right.
  - destruct v as [|[|[[n|]| | |] [|[[d|]| | |] [|]]]| |]; try done; (eexists _, _; split; [reflexivity|]; by right; left).
  - destruct l as [l|], r as [r|]; try done. cbn in Hv. rewrite !andb_true_iff in Hv. destruct Hv as [[_ Hl] _]. cbn [value_text]. apply opens_app. by apply IHl.
Qed.

Lemma opens_nonspace s : opens s -> next_is WHITESPACE s = false.
Proof. by intros (c & r & -> & [->|[->| ->]]). Qed.

Definition scans_value (v : rsl_value) : Prop := forall rest, scans (value_text v ++ 32 :: rest) [] (value_tokens v) (32 :: rest) [].

Lemma scans_list l rest :
  Forall (fun v => printable_value v = true /\ scans_value v) l -> next_is WHITESPACE rest = false -> scans (list_text l ++ rest) [] (mjoin (value_tokens <$> l)) rest [].
Proof.
  intros Hl Hr. induction Hl as [|v l [Hp Hv] Hl IH]; [by intros ts' Hts|]. unfold list_text. cbn [fmap list_fmap mjoin list_join]. fold (list_text l).
  rewrite <- !app_assoc. eapply scans_trans; [apply Hv|]. change (mjoin (value_tokens <$> l)) with ([] ++ mjoin (value_tokens <$> l)). eapply scans_trans; [|exact IH]. apply scans_space.
  destruct Hl as [|w l [Hw _] _]; [done|]. apply opens_nonspace. unfold list_text. cbn [fmap list_fmap mjoin list_join]. rewrite <- !app_assoc. by apply opens_app, value_text_opens.
Qed.

Lemma scans_sequence l rest :
  filled l = true -> Forall (fun v => printable_value v = true /\ scans_value v) l -> scans (value_text (VSequence l) ++ rest) [] (value_tokens (VSequence l)) rest [].
Proof.
  intros Hf Hl. cbn [value_text value_tokens]. fold (list_text l). rewrite <- !app_assoc. change (sym RSL_LPAREN :: ?x) with ([sym RSL_LPAREN] ++ x).
  assert (opens (list_text l ++ codes ")" ++ rest)) as (c & r & E & Hc).
  { destruct Hl as [|v l [Hv _] _]; [done|]. unfold list_text. cbn [fmap list_fmap mjoin list_join]. rewrite <- !app_assoc. by apply opens_app, value_text_opens. }
  apply (scans_trans _ _ _ (list_text l ++ codes ")" ++ rest) []).
  - rewrite E. apply scans_lparen. lia.
  - eapply scans_trans; [by apply scans_list|]. apply scans_rparen.
Qed.

Lemma scans_values v : printable_value v = true -> scans_value v.
Proof.
  induction v as [s|l IH|v _|l r IHl IHr] using value_ind; intros Hv rest.
  - destruct s as [s|]; [|done]. by apply scans_quoted.
  - cbn in Hv. apply andb_prop in Hv as [Hf Hv%forallb_Forall]. apply scans_sequence; [done|]. rewrite Forall_forall in *. intros v Hin. split; [by apply Hv|]. apply IH; [done|]. by apply Hv.
  - destruct v as [|[|[[n|]| | |] [|[[d|]| | |] [|]]]| |]; try done; cbn [value_text value_tokens]; rewrite <- !app_assoc; cbn [fmap list_fmap value_tokens mjoin list_join app];
      change (codes "$(" ++ ?x) with (36 :: 40 :: x); unfold quoted at 1; cbn [app];
      change (sym RSL_VARIABLE_START :: sym RSL_LPAREN :: ?x) with ([sym RSL_VARIABLE_START; sym RSL_LPAREN] ++ x).
    + eapply scans_trans; [apply scans_variable_open|]. change (34 :: (escape n ++ [34]) ++ ?x) with (quoted n ++ x). change ((RSL_STRING, Some n) :: ?x) with ([(RSL_STRING, Some n)] ++ x).
      eapply scans_trans; [apply (scans_quoted n 41); lia|]. apply scans_variable_close.
    + eapply scans_trans; [apply scans_variable_open|]. change (34 :: (escape n ++ [34]) ++ ?x) with (quoted n ++ x). change ((RSL_STRING, Some n) :: ?x) with ([(RSL_STRING, Some n)] ++ [] ++ x).
      eapply scans_trans; [apply (scans_quoted n 32); lia|]. eapply scans_trans; [by apply scans_space|]. change ((RSL_STRING, Some d) :: ?x) with ([(RSL_STRING, Some d)] ++ x).
      eapply scans_trans; [apply (scans_quoted d 41); lia|]. apply scans_variable_close.
  - destruct l as [l|], r as [r|]; try done. cbn in Hv. rewrite !andb_true_iff in Hv. destruct Hv as [[_ Hl] Hr]. cbn [value_text value_tokens from_option]. rewrite <- !app_assoc.
    eapply scans_trans; [apply (IHl l eq_refl Hl)|]. change (sym RSL_OP_CONCATENATE :: ?x) with ([] ++ [sym RSL_OP_CONCATENATE] ++ [] ++ x).
    eapply scans_trans; [by apply scans_space|]. eapply scans_trans; [apply scans_hash|]. eapply scans_trans; [apply scans_space|apply (IHr r eq_refl Hr)].
    apply opens_nonspace, opens_app. by apply value_text_opens.
Qed.

Lemma rsl_text_next r : printable r = true -> exists c rest, rsl_text r = c :: rest /\ c <> 42.
Proof.
  destruct r as [op l|op a v]; cbn [printable rsl_text]; intros Hr; [|by eexists _, _].
  rewrite !andb_true_iff in Hr. destruct Hr as [[Hop _] _]. unfold prefix_op in Hop. rewrite !orb_true_iff, !Z.eqb_eq in Hop. destruct Hop as [[->| ->]| ->]; by eexists _, _.
Qed.

Lemma scans_rsl r : printable r = true -> forall rest, next_is WHITESPACE rest = false -> scans (rsl_text r ++ rest) [] (rsl_tokens r) rest [].
Proof.
  induction r as [op l IH|op a v] using tree_ind; intros Hr rest Hrest.
  - cbn in Hr. rewrite !andb_true_iff in Hr. destruct Hr as [[Hop _] Hl%forallb_Forall]. cbn [rsl_text rsl_tokens]. fold (spec_text l). rewrite <- app_assoc.
    change (sym (prefix_token op) :: ?x) with ([sym (prefix_token op)] ++ x). eapply scans_trans; [by apply scans_prefix|]. clear Hop op.
    induction IH as [|r l Hr _ IHl]; [by intros ts' Hts|]. inversion_clear Hl as [|? ? Hpr Hl']. destruct (rsl_text_next r Hpr) as (c & tl & Ec & Hc).
    unfold spec_text. cbn [fmap list_fmap mjoin list_join]. fold (spec_text l). rewrite <- !app_assoc.
    change ((sym RSL_LPAREN :: rsl_tokens r ++ [sym RSL_RPAREN]) ++ ?x) with ([sym RSL_LPAREN] ++ (rsl_tokens r ++ [sym RSL_RPAREN]) ++ x). rewrite <- app_assoc.
    apply (scans_trans _ _ _ (rsl_text r ++ codes ")" ++ spec_text l ++ rest) []); [rewrite Ec; by apply scans_lparen|].
    eapply scans_trans; [by apply (Hr Hpr)|]. eapply scans_trans; [apply scans_rparen|]. by apply IHl.
  - cbn in Hr. rewrite !andb_true_iff in Hr. destruct Hr as [[[Hop _] Hs] Hv]. destruct v as [|l| |]; try done. cbn in Hv. apply andb_prop in Hv as [Hf Hv%forallb_Forall].
    cbn [rsl_text rsl_tokens globus_rsl_value_sequence_get_value_list]. rewrite <- !app_assoc. change (codes " " ++ ?x) with (32 :: x).
    change ((RSL_STRING, Some a) :: sym (infix_token op) :: ?x) with ([(RSL_STRING, Some a)] ++ [] ++ [sym (infix_token op)] ++ [] ++ x).
    eapply scans_trans; [by apply scans_quoted|]. eapply scans_trans; [apply scans_space|].
    { unfold infix_op, GLOBUS_RSL_EQ, GLOBUS_RSL_LTEQ in Hop. rewrite andb_true_iff, !Z.leb_le in Hop. assert (op = 1 \/ op = 2 \/ op = 3 \/ op = 4 \/ op = 5 \/ op = 6) as [->|[->|[->|[->|[->| ->]]]]] by lia; done. }
    assert (Forall (fun v => printable_value v = true /\ scans_value v) l) as Hall. { eapply Forall_impl; [exact Hv|]. intros v Hp. split; [done|by apply scans_values]. }
    eapply scans_trans; [by apply scans_infix|]. eapply scans_trans; [apply scans_space|by apply scans_list].
    destruct Hv as [|v l Hp _]; [done|]. apply opens_nonspace. unfold list_text. cbn [fmap list_fmap mjoin list_join]. rewrite <- !app_assoc. by apply opens_app, value_text_opens.
Qed.

(** What follows ends the scan: nothing, or a character of no token. *)
Definition stops (rest : str) : bool := match rest with [] => true | c :: _ => (c =? 42) || (c =? 63) || (c =? 126) end.

Lemma stops_end s rest : ready s rest [] -> stops rest = true -> lexes s [].
Proof.
  intros [Hi Hst _ _] Hr. destruct rest as [|c rest]; eapply lexes_end; apply yylex_token; rewrite (scan1_outer s _ Hst); unfold main_rule; rewrite Hi; unfold yyterminate; rewrite Hi; [reflexivity|].
  cbn in Hr. rewrite !orb_true_iff, !Z.eqb_eq in Hr. destruct Hr as [[->| ->]| ->]; reflexivity.
Qed.

(** The text of a tree has the tokens of the tree. *)
Lemma text_tokens r rest :
  printable r = true -> stops rest = true -> Z.of_nat (length (rsl_text r ++ rest)) <= INT_MAX -> tokens_of (scanner_init (rsl_text r ++ rest)) (rsl_tokens r).
Proof.
  intros Hr Hs Hl. apply lexes_tokens_of. rewrite <- (app_nil_r (rsl_tokens r)). eapply (scans_rsl r Hr rest).
  - destruct rest as [|c rest]; [done|]. cbn in Hs |- *. rewrite !orb_true_iff, !Z.eqb_eq in Hs. by destruct Hs as [[->| ->]| ->].
  - intros s' Hs'. by apply (stops_end s' rest).
  - split; [done|done|done|]. by apply scanner_init_ok.
Qed.

(** ** The round trip *)

(** Concatenations grouped to the right. *)
Fixpoint cat (l r : rsl_value) : rsl_value :=
  match l with
  | VConcatenation (Some a) (Some b) => VConcatenation (Some a) (Some (cat b r))
  | _ => VConcatenation (Some l) (Some r)
  end.

Fixpoint group_value (v : rsl_value) : rsl_value :=
  match v with
  | VSequence l => VSequence (group_value <$> l)
  | VConcatenation (Some l) (Some r) => cat (group_value l) (group_value r)
  | _ => v
  end.

Fixpoint group (r : rsl) : rsl :=
  match r with
  | Boolean op l => Boolean op (group <$> l)
  | Relation op a v => Relation op a (group_value v)
  end.

Lemma cat_tokens l r : value_tokens (cat l r) = value_tokens l ++ sym RSL_OP_CONCATENATE :: value_tokens r.
Proof.
  induction l as [s|l _|v _|a b _ IHb] using value_ind; try done. destruct a as [a|], b as [b|]; try done. cbn [cat value_tokens from_option]. rewrite (IHb b eq_refl). by rewrite <- app_assoc.
Qed.

Lemma cat_simple l r : globus_rsl_value_is_sequence (cat l r) = false.
Proof. destruct l as [| | |[a|] [b|]]; done. Qed.

Lemma cat_in l r :
  value_in l = true -> value_in r = true -> globus_rsl_value_is_sequence l = false -> globus_rsl_value_is_sequence r = false -> value_in (cat l r) = true.
Proof.
  intros Hl Hr Hsl Hsr. induction l as [s|l _|v _|a b _ IHb] using value_ind; try done.
  - cbn [cat value_in atom]. cbn in Hl. by rewrite Hsr, Hl, Hr.
  - cbn [cat value_in atom]. cbn in Hl. by rewrite Hsr, Hl, Hr.
  - destruct a as [a|], b as [b|]; try done. cbn in Hl. rewrite !andb_true_iff, negb_true_iff in Hl. destruct Hl as [[[Ha Hsb] Hla] Hlb].
    cbn [cat value_in]. rewrite Ha, cat_simple, Hla, (IHb b eq_refl Hlb Hsb). done.
Qed.

Lemma group_sequence v : globus_rsl_value_is_sequence (group_value v) = globus_rsl_value_is_sequence v.
Proof. destruct v as [| | |[l|] [r|]]; try done. cbn [group_value]. by rewrite cat_simple. Qed.

Lemma join_map_ext {A B C} (f : B -> list C) (g : A -> B) (h : A -> list C) l : Forall (fun x => f (g x) = h x) l -> mjoin (f <$> (g <$> l)) = mjoin (h <$> l).
Proof. induction 1 as [|x l Hx _ IH]; [done|]. cbn. rewrite Hx. by f_equal. Qed.

Lemma group_value_ok v : printable_value v = true -> value_tokens (group_value v) = value_tokens v /\ value_in (group_value v) = true.
Proof.
  induction v as [s|l IH|v _|l r IHl IHr] using value_ind; intros Hv.
  - by destruct s.
  - cbn in Hv. apply andb_prop in Hv as [Hf Hv%forallb_Forall].
    assert (Forall (fun v => value_tokens (group_value v) = value_tokens v /\ value_in (group_value v) = true) l) as Hl. { rewrite Forall_forall in *. intros v Hin. apply IH; [done|]. by apply Hv. }
    cbn [group_value value_tokens value_in]. split.
    + f_equal. f_equal. apply join_map_ext. eapply Forall_impl; [exact Hl|]. by intros v [Ht _].
    + destruct l as [|v l]; [done|]. cbn [filled fmap list_fmap andb]. rewrite forallb_forall. intros x Hx%list_elem_of_In. change (group_value v :: (group_value <$> l)) with (group_value <$> (v :: l)) in Hx.
      apply list_elem_of_fmap in Hx as (y & -> & Hy). rewrite Forall_forall in Hl. by apply Hl.
  - destruct v as [|[|[[n|]| | |] [|[[d|]| | |] [|]]]| |]; done.
  - destruct l as [l|], r as [r|]; try done. cbn in Hv. rewrite !andb_true_iff, !negb_true_iff in Hv. destruct Hv as [[[Hsl Hsr] Hl] Hr].
    destruct (IHl l eq_refl Hl) as [Ht1 Hi1], (IHr r eq_refl Hr) as [Ht2 Hi2]. cbn [group_value]. split.
    + by rewrite cat_tokens, Ht1, Ht2.
    + apply cat_in; try done; by rewrite group_sequence.
Qed.

Lemma group_ok r : printable r = true -> rsl_tokens (group r) = rsl_tokens r /\ rsl_in (group r) = true.
Proof.
  induction r as [op l IH|op a v] using tree_ind; intros Hr; cbn in Hr; rewrite !andb_true_iff in Hr.
  - destruct Hr as [[Hop Hf] Hl%forallb_Forall]. cbn [group rsl_tokens rsl_in].
    assert (Forall (fun r => rsl_tokens (group r) = rsl_tokens r /\ rsl_in (group r) = true) l) as Hall. { rewrite Forall_forall in *. intros r Hin. apply IH; [done|]. by apply Hl. }
    split.
    + f_equal. apply (join_map_ext (fun r => sym RSL_LPAREN :: rsl_tokens r ++ [sym RSL_RPAREN])). eapply Forall_impl; [exact Hall|]. by intros r [-> _].
    + rewrite Hop. destruct l as [|r l]; [done|]. cbn [filled fmap list_fmap andb]. rewrite forallb_forall. intros x Hx%list_elem_of_In. change (group r :: (group <$> l)) with (group <$> (r :: l)) in Hx.
      apply list_elem_of_fmap in Hx as (y & -> & Hy). rewrite Forall_forall in Hall. by apply Hall.
  - destruct Hr as [[[Hop _] Hs] Hv]. destruct v as [|l| |]; try done. destruct (group_value_ok _ Hv) as [Ht Hi]. cbn [group rsl_tokens rsl_in]. split.
    + cbn [group_value globus_rsl_value_sequence_get_value_list] in *. cbn [value_tokens] in Ht. do 2 f_equal. injection Ht as Ht. by apply app_inv_tail in Ht.
    + by rewrite Hop, group_sequence, Hi.
Qed.

(** Grouping does not change what a description means. *)
Lemma text_cat e l r : text e (cat l r) = (a ← text e l; b ← text e r; Some (a ++ b)).
Proof.
  induction l as [s|l _|v _|x y _ IHy] using value_ind; try done. destruct x as [x|], y as [y|]; try done. cbn [cat text]. rewrite (IHy y eq_refl).
  destruct (text e x), (text e y), (text e r); cbn; try done. by rewrite app_assoc.
Qed.

Lemma text_group e v : text e (group_value v) = text e v.
Proof.
  induction v as [s|l _|v _|l r IHl IHr] using value_ind; try done. destruct l as [l|], r as [r|]; try done. cbn [group_value]. rewrite text_cat, (IHl l eq_refl), (IHr r eq_refl). done.
Qed.

Lemma mapM_group (f : rsl_value -> option rsl_value) l : Forall (fun v => f (group_value v) = f v) l -> mapM f (group_value <$> l) = mapM f l.
Proof. induction 1 as [|v l Hv _ IH]; [done|]. cbn. rewrite Hv. destruct (f v); cbn; [|done]. by rewrite IH. Qed.

Lemma expand_group e v : expand e (group_value v) = expand e v.
Proof.
  induction v as [s|l IH|v _|l r _ _] using value_ind; try done; [cbn; by rewrite mapM_group|]. destruct l as [l|], r as [r|]; try done.
  pose proof (text_group e (VConcatenation (Some l) (Some r))) as Ht. pose proof (group_sequence (VConcatenation (Some l) (Some r))) as Hs. cbn [group_value] in *.
  assert (exists a b, cat (group_value l) (group_value r) = VConcatenation a b) as (a & b & E) by (destruct (group_value l) as [| | |[|] [|]]; eauto). rewrite E in *. cbn [expand]. by rewrite Ht.
Qed.

Lemma define_group e v : define e (group_value v) = define e v.
Proof. destruct v as [|[|a [|b [|]]]| |[l|] [r|]]; try done; [cbn; by rewrite !text_group|]. cbn [group_value]. by destruct (group_value l) as [| | |[|] [|]]. Qed.

Lemma define_all_group l : forall e, define_all e (group_value <$> l) = define_all e l.
Proof. induction l as [|v l IH]; intros e; [done|]. cbn. rewrite define_group. destruct (define e v) as [[w e1]|]; cbn; [|done]. by rewrite IH. Qed.

Lemma substitute_group r : well_formed r = true -> forall e, substitute e (group r) = substitute e r.
Proof.
  induction r as [op l IH|op a v] using tree_ind; intros Hw e.
  - cbn [group]. rewrite !substitute_Boolean. cbn in Hw. apply forallb_Forall in Hw.
    assert (forall e, substitute_all e (group <$> l) = substitute_all e l) as H; [|by rewrite H].
    induction IH as [|r l Hr _ IHl]; intros e'; [done|]. inversion_clear Hw as [|? ? Hwr Hwl]. cbn. rewrite (Hr Hwr). destruct (substitute e' r) as [[w e1]|]; cbn; [|done]. by rewrite (IHl Hwl).
  - destruct v as [|l| |]; try done. cbn [group group_value substitute]. rewrite define_all_group, mapM_group; [done|]. apply Forall_forall. intros v _. apply expand_group.
Qed.

Lemma printable_well_formed r : printable r = true -> well_formed r = true.
Proof.
  induction r as [op l IH|op a v] using tree_ind; cbn; rewrite !andb_true_iff; intros Hr; [|tauto]. destruct Hr as [_ Hl%forallb_Forall].
  apply forallb_forall. intros r Hin%list_elem_of_In. rewrite Forall_forall in *. apply IH; [done|]. by apply Hl.
Qed.

(** Parsing the text of a tree, with what ends the scan behind it. *)
Lemma parse_text r rest :
  printable r = true -> stops rest = true -> Z.of_nat (length (rsl_text r ++ rest)) <= INT_MAX -> Z.of_nat (length (rsl_tokens r)) < limit ->
  globus_rsl_parse (rsl_text r ++ rest) = Ok (Some (group r)).
Proof.
  intros Hr Hs Hl Hn. destruct (group_ok r Hr) as [Ht Hi]. apply parse_complete; [done|done| |rewrite Ht; by apply text_tokens]. pose proof (rsl_need_tokens _ Hi) as H. rewrite Ht in H. lia.
Qed.

(** C6: parsing what was printed gives the description back. [globus_rsl_unparse] prints a
    printable description, and [globus_rsl_parse] of that text returns the same tree with its
    concatenations grouped to the right (which is how the grammar reads them), provided that it
    has fewer tokens than fit on the stack of the parser. The tree that comes back evaluates to
    the same result as the one that was printed, in every environment. *)
Theorem rsl_unparse_parse (r : rsl) :
  printable r = true -> Z.of_nat (length (rsl_text r)) <= INT_MAX -> Z.of_nat (length (rsl_tokens r)) < limit ->
  exists t, globus_rsl_unparse r = Ok (Some t) /\ globus_rsl_parse t = Ok (Some (group r)) /\ forall e, substitute e (group r) = substitute e r.
Proof.
  intros Hr Hl Hn. exists (rsl_text r). split_and!; [by apply unparse_prints| |].
  - rewrite <- (app_nil_r (rsl_text r)). apply parse_text; [done|done|by rewrite app_nil_r|done].
  - apply substitute_group. by apply printable_well_formed.
Qed.

(** [+(&("dir" = "a" # $("H" "d") # "q"))], grouped to the left. *)
Definition example_print : rsl :=
  Boolean GLOBUS_RSL_MULTIREQ [Boolean GLOBUS_RSL_AND [Relation GLOBUS_RSL_EQ (codes "dir")
    (VSequence [VConcatenation (Some (VConcatenation (Some (lit "a")) (Some (VVariable (VSequence [lit "H"; lit "d"]))))) (Some (VLiteral (Some [34; 113])));
                VSequence [lit "x"]])]].

Lemma rsl_unparse_parse_witness : exists t, globus_rsl_unparse example_print = Ok (Some t) /\ globus_rsl_parse t = Ok (Some (group example_print)).
Proof.
  destruct (rsl_unparse_parse example_print) as (t & Hu & Hp & _); [vm_compute; reflexivity|vm_compute; discriminate|vm_compute; reflexivity|]. exists t. split; [exact Hu|exact Hp].
Defined.

(** C38: what follows a character of no token is ignored. The scanner ends the text at a [*],
    [?] or [~] that no token begins with, so that a description with one of them and any text
    behind it is accepted as the description in front of it. *)
Theorem rsl_parse_ignores_rest (r : rsl) (c : Z) (rest : str) :
  printable r = true -> c ∈ codes "*?~" -> Z.of_nat (length (rsl_text r ++ c :: rest)) <= INT_MAX -> Z.of_nat (length (rsl_tokens r)) < limit ->
  globus_rsl_parse (rsl_text r ++ c :: rest) = Ok (Some (group r)).
Proof.
  intros Hr Hc Hl Hn. apply parse_text; [done| |done|done]. change (codes "*?~") with [42; 63; 126] in Hc. rewrite !elem_of_cons, elem_of_nil in Hc. cbn.
  destruct Hc as [->|[->|[->|[]]]]; done.
Qed.

Lemma rsl_parse_ignores_rest_witness : globus_rsl_parse (rsl_text example_print ++ codes "~)(count=2)") = Ok (Some (group example_print)).
Proof.
  apply (rsl_parse_ignores_rest example_print 126 (codes ")(count=2)")); [vm_compute; reflexivity|vm_compute; set_solver|vm_compute; discriminate|vm_compute; reflexivity].
Defined.

(** A quoted literal at the very end of the text is lost: the scanner waits for the character
    after the closing quote. *)
Lemma quoted_at_end_lost : globus_rsl_parse (codes "a=" ++ quoted (codes "b")) = Ok None /\ globus_rsl_parse (codes "a=" ++ quoted (codes "b") ++ codes " ") <> Ok None.
Proof. split; vm_compute; [reflexivity|discriminate]. Qed.
End Unparse.
