(* ===== verification/RslOps.v ===== *)
(** * Job descriptions: the values of attributes (gram/rsl/source/globus_rsl.c,
    globus_rsl_assist.c)

    Looking up the strings of an attribute in a description, deep copies, and canonical
    attribute names. The array that [globus_rsl_param_get] fills is a list of cells, where
    [None] is a cell that has not been written: reading it, or an access outside the array,
    is a fault. Allocation does not fail. *)
From S2P Require Import Prelude.
From S2P Require Import Chars.
From S2P Require Import Symboltable.
From S2P Require Import Rsl.
From S2P Require Import RslScan.
From S2P Require Import RslYacc.
Local Open Scope Z_scope.

Module Ops.
Import Rsl Scan Yacc.

Abbreviation str := (list Z) (only parsing).
Abbreviation cell := (option (option str)) (only parsing).

Definition GLOBUS_RSL_VALUE_LITERAL : Z := 1.
Definition GLOBUS_RSL_VALUE_SEQUENCE : Z := 2.
Definition GLOBUS_RSL_PARAM_SINGLE_LITERAL : Z := 1.
Definition GLOBUS_RSL_PARAM_MULTI_LITERAL : Z := 2.
Definition GLOBUS_RSL_PARAM_SEQUENCE : Z := 3.

(** ** Further predicates and accessors *)
Definition globus_rsl_is_relation_eq (ast : rsl) : bool := match ast with Relation op _ _ => op =? GLOBUS_RSL_EQ | _ => false end.
Definition globus_rsl_is_relation_lessthan (ast : rsl) : bool := match ast with Relation op _ _ => op =? GLOBUS_RSL_LT | _ => false end.
Definition globus_rsl_is_boolean_and (ast : rsl) : bool := match ast with Boolean op _ => op =? GLOBUS_RSL_AND | _ => false end.
Definition globus_rsl_is_boolean_or (ast : rsl) : bool := match ast with Boolean op _ => op =? GLOBUS_RSL_OR | _ => false end.
Definition globus_rsl_value_is_literal (v : rsl_value) : bool := match v with VLiteral _ => true | _ => false end.

Definition globus_rsl_relation_get_single_value (ast : rsl) : option rsl_value :=
  match ast with
  | Relation _ _ v => match globus_rsl_value_sequence_get_value_list v with [x] => Some x | _ => None end
  | _ => None
  end.

(** ** Copies *)
Definition globus_list_copy_reverse {A} (orig : list A) : list A := fold_left (fun new_list x => x :: new_list) orig [].

Fixpoint globus_rsl_value_copy_recursive (v : rsl_value) : rsl_value :=
  match v with
  | VLiteral s => VLiteral s
  | VSequence l =>
      let new_value_list :=
        (fix loop (l new_value_list : list rsl_value) : list rsl_value :=
           match l with [] => new_value_list | x :: l => loop l (globus_rsl_value_copy_recursive x :: new_value_list) end) l [] in
      VSequence (globus_list_copy_reverse new_value_list)
  | VVariable s => VVariable (globus_rsl_value_copy_recursive s)
  | VConcatenation l r =>
      VConcatenation (match l with Some l => Some (globus_rsl_value_copy_recursive l) | None => None end)
                     (match r with Some r => Some (globus_rsl_value_copy_recursive r) | None => None end)
  end.

Fixpoint globus_rsl_copy_recursive (ast_node : rsl) : rsl :=
  match ast_node with
  | Boolean op l =>
      let new_rsl_list :=
        (fix loop (l new_rsl_list : list rsl) : list rsl :=
           match l with [] => new_rsl_list | x :: l => loop l (globus_rsl_copy_recursive x :: new_rsl_list) end) l [] in
      Boolean op (globus_list_copy_reverse new_rsl_list)
  | Relation op a v =>
      let new_value_list :=
        (fix loop (l new_value_list : list rsl_value) : list rsl_value :=
           match l with [] => new_value_list | x :: l => loop l (globus_rsl_value_copy_recursive x :: new_value_list) end)
          (globus_rsl_value_sequence_get_value_list v) [] in
      Relation op a (VSequence (globus_list_copy_reverse new_value_list))
  end.

(** ** The values of an attribute *)

(** A pair is read with [required_type] a literal, so that it cannot hold another pair. *)
Fixpoint literals_get (l : list rsl_value) (value : list cell) (value_ctr : Z) : result (Z * list cell * Z) :=
  match l with
  | [] => Ok (0, value, value_ctr)
  | VLiteral s :: l => value ← c_update value value_ctr (Some s); ctr ← s32 (value_ctr + 1); literals_get l value ctr
  | _ :: _ => Ok (1, value, value_ctr)
  end.

Fixpoint sequences_get (l : list rsl_value) (value : list cell) (value_ctr : Z) : result (Z * list cell * Z) :=
  match l with
  | [] => Ok (0, value, value_ctr)
  | VSequence tmp_value_list :: l =>
      if negb (Z.of_nat (length tmp_value_list) =? 2) then Ok (1, value, value_ctr)
      else
        '(rc, value, value_ctr) ← literals_get tmp_value_list value value_ctr;
        if negb (rc =? 0) then Ok (1, value, value_ctr) else sequences_get l value value_ctr
  | _ :: _ => Ok (1, value, value_ctr)
  end.

Definition globus_rsl_value_list_param_get (ast_node_list : list rsl_value) (required_type : Z) (value : list cell) (value_ctr : Z) : result (Z * list cell * Z) :=
  if required_type =? GLOBUS_RSL_VALUE_LITERAL then literals_get ast_node_list value value_ctr
  else if required_type =? GLOBUS_RSL_VALUE_SEQUENCE then sequences_get ast_node_list value value_ctr
  else match ast_node_list with [] => Ok (0, value, value_ctr) | _ => Ok (1, value, value_ctr) end.

Fixpoint globus_rsl_param_get_values (ast_node : rsl) (param : str) : list rsl_value :=
  match ast_node with
  | Boolean _ l =>
      (fix loop (l : list rsl) : list rsl_value :=
         match l with
         | [] => []
         | x :: l => match globus_rsl_param_get_values x param with [] => loop l | values => values end
         end) l
  | Relation _ _ v => if globus_rsl_is_relation_attribute_equal ast_node param then globus_rsl_value_sequence_get_value_list v else []
  end.

(** [*values] is [None] when it has not been set. *)
Definition relation_param_get (ast_node : rsl) (param_type : Z) (param : str) (values : option (list cell)) : result (Z * option (list cell)) :=
  match ast_node with
  | Relation _ _ v =>
      if negb (globus_rsl_is_relation_attribute_equal ast_node param) then Ok (0, values)
      else
        let tmp_value_list := globus_rsl_value_sequence_get_value_list v in
        let n := Z.of_nat (length tmp_value_list) in
        let get required_type :=
          let arr := replicate (Z.to_nat (n * 2 + 1)) None in
          '(rc, arr, value_ctr) ← globus_rsl_value_list_param_get tmp_value_list required_type arr 0;
          if negb (rc =? 0) then Ok (1, Some arr)
          else arr ← c_update arr value_ctr (Some None); Ok (0, Some arr) in
        if param_type =? GLOBUS_RSL_PARAM_SINGLE_LITERAL then if negb (n =? 1) then Ok (1, values) else get GLOBUS_RSL_VALUE_LITERAL
        else if param_type =? GLOBUS_RSL_PARAM_MULTI_LITERAL then get GLOBUS_RSL_VALUE_LITERAL
        else if param_type =? GLOBUS_RSL_PARAM_SEQUENCE then get GLOBUS_RSL_VALUE_SEQUENCE
        else Ok (1, values)
  | _ => Ok (1, values)
  end.

(** The first cell of the array. *)
Definition first_value (values : option (list cell)) : result (option str) :=
  arr ← deref values; c ← c_index arr 0; deref c.

Fixpoint globus_rsl_param_get (ast_node : rsl) (param_type : Z) (param : str) (values : option (list cell)) {struct ast_node} : result (Z * option (list cell)) :=
  match ast_node with
  | Boolean _ l =>
      (fix loop (l : list rsl) (values : option (list cell)) : result (Z * option (list cell)) :=
         match l with
         | [] => Ok (0, values)
         | x :: l =>
             '(rc, values) ← globus_rsl_param_get x param_type param values;
             if negb (rc =? 0) then Ok (1, values)
             else
               v ← first_value values;
               match v with Some _ => Ok (0, values) | None => loop l values end
         end) l (Some [Some None])
  | Relation _ _ _ => relation_param_get ast_node param_type param values
  end.

(** ** Canonical names *)

(** [ptr] and [tmp_p] are indices into the string with its NUL. *)
Fixpoint canonicalize_loop (fuel : nat) (buf : list Z) (ptr tmp_p : Z) : result (list Z) :=
  match fuel with
  | O => Fault OutOfFuel
  | S fuel =>
      c ← c_index buf ptr;
      if c =? 0 then c_update buf tmp_p 0
      else if c =? 95 then canonicalize_loop fuel buf (ptr + 1) tmp_p
      else buf ← c_update buf tmp_p (tolower c); canonicalize_loop fuel buf (ptr + 1) (tmp_p + 1)
  end.

Definition globus_rsl_assist_string_canonicalize (s : str) : result str :=
  buf ← canonicalize_loop (S (length s)) (s ++ [0]) 0 0;
  Ok (cstring buf).

Definition canonicalize_relation (r : rsl) : result rsl :=
  match r with
  | Relation op a v => a ← globus_rsl_assist_string_canonicalize a; Ok (Relation op a v)
  | _ => Ok r
  end.

Fixpoint globus_rsl_assist_attributes_canonicalize (r : rsl) : result (Z * rsl) :=
  match r with
  | Boolean op l =>
      '(rc, l) ←
        (fix loop (l : list rsl) : result (Z * list rsl) :=
           match l with
           | [] => Ok (GLOBUS_SUCCESS, [])
           | an_rsl :: l =>
               '(rc, an_rsl) ←
                 (if globus_rsl_is_boolean_multi r || globus_rsl_is_boolean an_rsl then globus_rsl_assist_attributes_canonicalize an_rsl
                  else x ← canonicalize_relation an_rsl; Ok (GLOBUS_SUCCESS, x));
               if negb (rc =? GLOBUS_SUCCESS) then Ok (GLOBUS_FAILURE, an_rsl :: l) else '(rc, l) ← loop l; Ok (rc, an_rsl :: l)
           end) l;
      Ok (rc, Boolean op l)
  | Relation _ _ _ => r ← canonicalize_relation r; Ok (GLOBUS_SUCCESS, r)
  end.

(** ** Copies are equal *)
Lemma copy_reverse_rev {A} (l : list A) : globus_list_copy_reverse l = rev l.
Proof.
  unfold globus_list_copy_reverse. assert (forall acc, fold_left (fun n x => x :: n) l acc = rev l ++ acc) as H; [|by rewrite H, app_nil_r].
  induction l as [|x l IH]; intros acc; [done|]. cbn. by rewrite IH, <- app_assoc.
Qed.

(** The copying loop, with the reversal that follows it. *)
Lemma copy_loop {A} (f : A -> A) (l acc : list A) :
  Forall (fun x => f x = x) l -> (fix loop (l acc : list A) : list A := match l with [] => acc | x :: l => loop l (f x :: acc) end) l acc = rev l ++ acc.
Proof. intros Hl. revert acc. induction Hl as [|x l Hx _ IH]; intros acc; [done|]. cbn. by rewrite IH, Hx, <- app_assoc. Qed.

Lemma value_copy_equal v : globus_rsl_value_copy_recursive v = v.
Proof.
  induction v as [s|l IH|v IH|l r IHl IHr] using value_ind; cbn; [done| |by rewrite IH|].
  - by rewrite (copy_loop _ _ _ IH), copy_reverse_rev, app_nil_r, rev_involutive.
  - destruct l as [l|], r as [r|]; rewrite ?(IHl _ eq_refl), ?(IHr _ eq_refl); done.
Qed.

Lemma rsl_copy_equal r : well_formed r = true -> globus_rsl_copy_recursive r = r.
Proof.
  induction r as [op l IH|op a v] using tree_ind; cbn; intros Hw.
  - rewrite forallb_forall in Hw. rewrite (copy_loop globus_rsl_copy_recursive l []); [by rewrite copy_reverse_rev, app_nil_r, rev_involutive|].
    rewrite Forall_forall in *. intros r Hr. apply IH; [done|]. apply Hw. by apply list_elem_of_In.
  - destruct v as [|l| |]; try done. cbn [globus_rsl_value_sequence_get_value_list]. rewrite (copy_loop globus_rsl_value_copy_recursive l []); [by rewrite copy_reverse_rev, app_nil_r, rev_involutive|].
    apply Forall_forall. intros v _. apply value_copy_equal.
Qed.

(** ** Canonical names *)

(** Lower case, without underscores. *)
Definition canonical (s : str) : str := lower (filter (fun c => c <> 95) s).

Lemma canonicalize_loop_ok rest : forall fuel done gap,
  nonzero rest -> (length rest < fuel)%nat ->
  exists junk, canonicalize_loop fuel (done ++ gap ++ rest ++ [0]) (Z.of_nat (length done + length gap)) (Z.of_nat (length done)) = Ok (done ++ canonical rest ++ 0 :: junk).
Proof.
  induction rest as [|c rest IH]; intros fuel dn gap Hnz Hf; (destruct fuel as [|fuel]; [cbn in Hf; lia|]); cbn [canonicalize_loop].
  - rewrite app_nil_l, (app_assoc dn gap [0]), (c_index_app (dn ++ gap) 0 []) by (by rewrite length_app). cbn [mbind result_bind Z.eqb]. rewrite <- app_assoc.
    destruct (gap ++ [0]) as [|x suf] eqn:E; [by destruct gap|]. exists suf. by rewrite c_update_app.
  - inversion_clear Hnz as [|? ? Hc Hr]. cbn in Hf. change ((c :: rest) ++ [0]) with (c :: rest ++ [0]).
    rewrite (app_assoc dn gap), (c_index_app (dn ++ gap) c) by (by rewrite length_app). cbn [mbind result_bind]. rewrite (proj2 (Z.eqb_neq c 0)) by done. rewrite <- app_assoc.
    unfold canonical. rewrite filter_cons. destruct (Z.eqb_spec c 95) as [->|H95].
    + rewrite decide_False by naive_solver. destruct (IH fuel dn (gap ++ [95]) Hr) as [junk E]; [lia|]. exists junk. rewrite length_app in E. cbn [length] in E. rewrite <- app_assoc in E. cbn [app] in E.
      unfold canonical in E. rewrite <- E. f_equal. lia.
    + rewrite decide_True by done. assert (exists gap', c_update (dn ++ gap ++ c :: rest ++ [0]) (Z.of_nat (length dn)) (tolower c) = Ok ((dn ++ [tolower c]) ++ gap' ++ rest ++ [0]) /\ length gap' = length gap) as (gap' & -> & Hg).
      { destruct gap as [|g gap]; [exists []; cbn [app]; rewrite c_update_app by done; by rewrite <- app_assoc|].
        exists (gap ++ [c]). cbn [app]. rewrite c_update_app by done. rewrite length_app. cbn [length]. split; [by rewrite <- !app_assoc|lia]. }
      cbn [mbind result_bind]. destruct (IH fuel (dn ++ [tolower c]) gap' Hr) as [junk E]; [lia|]. exists junk. rewrite length_app, Hg in E. cbn [length] in E.
      etrans; [|etrans; [exact E|]]; [f_equal; lia|]. by rewrite <- app_assoc.
Qed.

Lemma tolower_nonzero c : c <> 0 -> tolower c <> 0.
Proof. unfold tolower, isupper. intros Hc. destruct (65 <=? c) eqn:E; cbn; [|done]. apply Z.leb_le in E. destruct (c <=? 90); lia. Qed.

Lemma canonical_nonzero s : nonzero s -> nonzero (canonical s).
Proof.
  intros Hs. unfold nonzero, canonical, lower. apply Forall_fmap. apply Forall_forall. intros c [_ Hc]%list_elem_of_filter. unfold nonzero in Hs. rewrite Forall_forall in Hs. by apply tolower_nonzero, Hs.
Qed.

Lemma string_canonicalize_ok s : nonzero s -> globus_rsl_assist_string_canonicalize s = Ok (canonical s).
Proof.
  intros Hs. unfold globus_rsl_assist_string_canonicalize. destruct (canonicalize_loop_ok s (S (length s)) [] [] Hs) as [junk E]; [lia|].
  cbn [app length Nat.add] in E. change (Z.of_nat 0) with 0 in E. rewrite E. cbn [mbind result_bind]. by rewrite cstring_app by (by apply canonical_nonzero).
Qed.

Fixpoint canonical_rsl (r : rsl) : rsl :=
  match r with
  | Boolean op l => Boolean op (canonical_rsl <$> l)
  | Relation op a v => Relation op (canonical a) v
  end.

(** The attribute names of a description. *)
Fixpoint attributes (r : rsl) : list str :=
  match r with
  | Boolean _ l => mjoin (attributes <$> l)
  | Relation _ a _ => [a]
  end.

Lemma attributes_canonicalize_ok r : Forall nonzero (attributes r) -> globus_rsl_assist_attributes_canonicalize r = Ok (GLOBUS_SUCCESS, canonical_rsl r).
Proof.
  induction r as [op l IH|op a v] using tree_ind; intros Ha.
  - cbn [globus_rsl_assist_attributes_canonicalize canonical_rsl]. generalize (globus_rsl_is_boolean_multi (Boolean op l)) as multi. intros multi.
    set (loop := fix loop (l : list rsl) : result (Z * list rsl) := _). assert (loop l = Ok (GLOBUS_SUCCESS, canonical_rsl <$> l)) as ->; [|done].
    cbn [attributes] in Ha. clear op. induction IH as [|r l Hr _ IHl]; [done|]. cbn [fmap list_fmap mjoin list_join] in Ha. apply Forall_app in Ha as [Ha1 Ha2]. specialize (Hr Ha1). specialize (IHl Ha2).
    assert ((if multi || globus_rsl_is_boolean r then globus_rsl_assist_attributes_canonicalize r else x ← canonicalize_relation r; Ok (GLOBUS_SUCCESS, x)) = Ok (GLOBUS_SUCCESS, canonical_rsl r)) as E.
    { destruct (multi || globus_rsl_is_boolean r) eqn:Eb; [done|]. destruct r as [|op a v]; [by rewrite orb_true_r in Eb|]. exact Hr. }
    cbn [loop]. rewrite E. cbn [mbind result_bind]. rewrite IHl. done.
  - cbn [globus_rsl_assist_attributes_canonicalize canonicalize_relation canonical_rsl]. inversion_clear Ha as [|? ? Hz _]. by rewrite (string_canonicalize_ok a Hz).
Qed.

(** ** Looking up an attribute *)

(** The values of the first relation with an attribute, in the order of the text. *)
Fixpoint attribute_values (r : rsl) (param : str) : option (list rsl_value) :=
  match r with
  | Boolean _ l =>
      (fix first (l : list rsl) : option (list rsl_value) :=
         match l with [] => None | x :: l => match attribute_values x param with Some vs => Some vs | None => first l end end) l
  | Relation _ a v => if strcaseeq a param then Some (globus_rsl_value_sequence_get_value_list v) else None
  end.

(** The strings of values of a kind: literals, or pairs of literals. *)
Definition literals (vs : list rsl_value) : option (list str) := mapM globus_rsl_value_literal_get_string vs.
Definition pair (v : rsl_value) : option (list str) :=
  match v with VSequence l => if Z.of_nat (length l) =? 2 then literals l else None | _ => None end.
Definition strings_of (param_type : Z) (vs : list rsl_value) : option (list str) :=
  if param_type =? GLOBUS_RSL_PARAM_SINGLE_LITERAL then if Z.of_nat (length vs) =? 1 then literals vs else None
  else if param_type =? GLOBUS_RSL_PARAM_MULTI_LITERAL then literals vs
  else if param_type =? GLOBUS_RSL_PARAM_SEQUENCE then mjoin <$> mapM pair vs
  else None.

(** An array with the strings [ss] and [k] cells that have not been written. *)
Definition cells (ss : list str) (k : nat) : list cell := ((fun s => Some (Some s)) <$> ss) ++ replicate k None.

(** An array with the strings [ss] and a NULL behind them. *)
Definition holds (values : option (list cell)) (ss : list str) : Prop :=
  exists k, values = Some (((fun s => Some (Some s)) <$> ss) ++ Some None :: replicate k None).

Lemma cells_write ss k x : c_update (cells ss (S k)) (Z.of_nat (length ss)) x = Ok (((fun s => Some (Some s)) <$> ss) ++ x :: replicate k None).
Proof. unfold cells. cbn [replicate]. apply c_update_app. by rewrite length_fmap. Qed.

Lemma literals_get_ok l : forallb value_in l = true -> forall ss k,
  (length l <= k)%nat -> Z.of_nat (length ss + k) <= INT_MAX ->
  match literals l with
  | Some ts => literals_get l (cells ss k) (Z.of_nat (length ss)) = Ok (0, cells (ss ++ ts) (k - length l), Z.of_nat (length (ss ++ ts))) /\ length ts = length l
  | None => exists arr c, literals_get l (cells ss k) (Z.of_nat (length ss)) = Ok (1, arr, c)
  end.
Proof.
  unfold literals. induction l as [|v l IH]; intros Hv ss k Hk Hmax; [cbn; by rewrite app_nil_r, Nat.sub_0_r|]. cbn in Hv. apply andb_prop in Hv as [Hv Hl].
  destruct v as [[s|]| | |]; try done; [|cbn; eauto..]. destruct k as [|k]; [cbn in Hk; lia|]. cbn [literals_get mapM globus_rsl_value_literal_get_string mbind option_bind].
  rewrite cells_write. cbn [mbind result_bind]. rewrite s32_ok by (unfold INT_MIN; lia). cbn [mbind result_bind].
  replace (((fun s => Some (Some s)) <$> ss) ++ Some (Some s) :: replicate k None) with (cells (ss ++ [s]) k) by (unfold cells; by rewrite fmap_app, <- app_assoc).
  replace (Z.of_nat (length ss) + 1) with (Z.of_nat (length (ss ++ [s]))) by (rewrite length_app; cbn; lia).
  assert (length (ss ++ [s]) = S (length ss)) as Hs by (rewrite length_app; cbn; lia). cbn in Hk. specialize (IH Hl (ss ++ [s]) k ltac:(lia) ltac:(lia)).
  destruct (mapM globus_rsl_value_literal_get_string l) as [ts|]; cbn [mbind option_bind mret option_ret]; [|exact IH].
  destruct IH as [IH IHl]. rewrite IH, <- app_assoc. split; [done|]. cbn. by rewrite IHl.
Qed.

Lemma sequences_get_ok l : forallb value_in l = true -> forall ss k,
  (2 * length l <= k)%nat -> Z.of_nat (length ss + k) <= INT_MAX ->
  match mapM pair l with
  | Some tss => sequences_get l (cells ss k) (Z.of_nat (length ss)) = Ok (0, cells (ss ++ mjoin tss) (k - 2 * length l), Z.of_nat (length (ss ++ mjoin tss))) /\ length (mjoin tss) = (2 * length l)%nat
  | None => exists arr c, sequences_get l (cells ss k) (Z.of_nat (length ss)) = Ok (1, arr, c)
  end.
Proof.
  induction l as [|v l IH]; intros Hv ss k Hk Hmax; [cbn; by rewrite app_nil_r, Nat.sub_0_r|]. cbn in Hv. apply andb_prop in Hv as [Hv Hl].
  destruct v as [[s|]|vs| |]; try done; [cbn; eauto| |cbn; eauto..]. cbn [sequences_get mapM pair]. destruct (Z.eqb_spec (Z.of_nat (length vs)) 2) as [E2|]; cbn [negb]; [|cbn; eauto].
  cbn in Hv. apply andb_prop in Hv as [_ Hv]. cbn [length] in Hk. pose proof (literals_get_ok vs Hv ss k ltac:(lia) Hmax) as Hg.
  destruct (literals vs) as [ts|]; cbn [mbind option_bind].
  - destruct Hg as [-> Hlt]. cbn [mbind result_bind Z.eqb negb]. assert (length (ss ++ ts) = (length ss + length vs)%nat) as Hs by (by rewrite length_app, Hlt).
    specialize (IH Hl (ss ++ ts) (k - length vs)%nat ltac:(lia) ltac:(lia)).
    destruct (mapM pair l) as [tss|]; cbn [mbind option_bind mret option_ret]; [|exact IH]. destruct IH as [IH IHl]. change (mjoin (ts :: tss)) with (ts ++ mjoin tss). rewrite IH, <- app_assoc. split; [|rewrite length_app; cbn [length]; lia].
    do 3 f_equal. f_equal. cbn [length]. lia.
  - destruct Hg as (arr & c & ->). cbn [mbind result_bind Z.eqb negb]. eauto.
Qed.

(** The array is large enough, and is filled when the values have the right shape. *)
Lemma relation_param_get_ok op a l param_type param values :
  value_in (VSequence l) = true -> 2 * Z.of_nat (length l) + 1 <= INT_MAX -> strcaseeq a param = true ->
  exists rc values', relation_param_get (Relation op a (VSequence l)) param_type param values = Ok (rc, values') /\
    match strings_of param_type l with Some ss => rc = 0 /\ holds values' ss /\ ss <> [] | None => rc = 1 end.
Proof.
  intros Hv Hn Ha. cbn in Hv. apply andb_prop in Hv as [Hf Hv]. unfold relation_param_get. cbn [globus_rsl_is_relation_attribute_equal]. rewrite Ha. cbn [negb globus_rsl_value_sequence_get_value_list].
  assert (Z.to_nat (Z.of_nat (length l) * 2 + 1) = S (2 * length l)) as -> by lia. unfold strings_of, globus_rsl_value_list_param_get. change (replicate (S (2 * length l)) None) with (cells [] (S (2 * length l))).
  assert (length l <> 0)%nat as Hl0 by (by destruct l).
  pose proof (literals_get_ok l Hv [] (S (2 * length l)) ltac:(lia) ltac:(cbn [length]; lia)) as Hlit. pose proof (sequences_get_ok l Hv [] (S (2 * length l)) ltac:(lia) ltac:(cbn [length]; lia)) as Hseq.
  cbn [app length] in Hlit, Hseq. change (Z.of_nat 0) with 0 in Hlit, Hseq.
  assert (exists rc values', ('(rc, arr, value_ctr) ← literals_get l (cells [] (S (2 * length l))) 0; if negb (rc =? 0) then Ok (1, Some arr) else arr ← c_update arr value_ctr (Some None); Ok (0, Some arr)) = Ok (rc, values') /\
    match literals l with Some ss => rc = 0 /\ holds values' ss /\ ss <> [] | None => rc = 1 end) as Hl.
  { destruct (literals l) as [ss|]; [|destruct Hlit as (arr & c & ->); cbn; eauto]. destruct Hlit as [-> Hlen]. cbn [mbind result_bind Z.eqb negb]. replace (S (2 * length l) - length l)%nat with (S (length l)) by lia.
    rewrite cells_write. cbn [mbind result_bind]. eexists _, _. split; [done|]. split_and!; [done|by eexists|]. by intros ->. }
  destruct (param_type =? GLOBUS_RSL_PARAM_SINGLE_LITERAL); [destruct (Z.of_nat (length l) =? 1); cbn [negb]; [exact Hl|eauto]|].
  destruct (param_type =? GLOBUS_RSL_PARAM_MULTI_LITERAL); [exact Hl|]. destruct (param_type =? GLOBUS_RSL_PARAM_SEQUENCE); [|eauto]. cbn [Z.eqb Pos.eqb GLOBUS_RSL_VALUE_SEQUENCE GLOBUS_RSL_VALUE_LITERAL].
  destruct (mapM pair l) as [tss|]; cbn [fmap option_fmap option_map]; [|destruct Hseq as (arr & c & ->); cbn; eauto]. destruct Hseq as [-> Hlen]. cbn [mbind result_bind Z.eqb negb].
  replace (S (2 * length l) - 2 * length l)%nat with 1%nat by lia. rewrite cells_write. cbn [mbind result_bind]. eexists _, _. split; [done|]. split_and!; [done|by exists 0%nat|].
  intros E. rewrite E in Hlen. cbn in Hlen. lia.
Qed.

(** What a lookup in a part of a description does. *)
Definition looks_up (param_type : Z) (param : str) (r : rsl) (values : option (list cell)) (o : result (Z * option (list cell))) : Prop :=
  exists rc values', o = Ok (rc, values') /\
    match attribute_values r param with
    | None => rc = 0 /\ holds values' []
    | Some vs => match strings_of param_type vs with Some ss => rc = 0 /\ holds values' ss /\ ss <> [] | None => rc = 1 end
    end.

Lemma holds_first values ss : holds values ss -> first_value values = Ok (head ss).
Proof. intros [k ->]. unfold first_value. cbn [deref mbind result_bind]. destruct ss as [|s ss]; done. Qed.

Lemma param_get_ok param_type param r : rsl_in r = true -> (forall vs, attribute_values r param = Some vs -> 2 * Z.of_nat (length vs) + 1 <= INT_MAX) ->
  forall values, holds values [] \/ globus_rsl_is_boolean r = true -> looks_up param_type param r values (globus_rsl_param_get r param_type param values).
Proof.
  induction r as [op l IH|op a v] using tree_ind; intros Hr Hn values Hvals.
  - cbn in Hr. rewrite !andb_true_iff in Hr. destruct Hr as [_ Hl]. cbn [globus_rsl_param_get]. unfold looks_up. cbn [attribute_values] in *.
    assert (holds (Some [Some None]) []) as Hh by (by exists 0%nat). revert Hh. generalize (Some [@Some (option str) None]) as vals. clear Hvals values op.
    induction IH as [|r l Hr _ IHl]; intros vals Hh; [eauto|]. cbn in Hl. apply andb_prop in Hl as [Hir Hil].
    destruct (Hr Hir) with (values := vals) as (rc & vals' & E & H); [intros vs Hvs; apply Hn; by rewrite Hvs|by left|]. rewrite E. cbn [mbind result_bind].
    destruct (attribute_values r param) as [vs|] eqn:Ea.
    + destruct (strings_of param_type vs) as [ss|] eqn:Es; [|subst rc; cbn; eexists _, _; split; [done|]; done]. destruct H as (-> & Hh' & Hne). cbn [Z.eqb negb]. rewrite (holds_first _ _ Hh'). cbn [mbind result_bind].
      destruct ss as [|s ss]; [done|]. cbn [head]. eexists _, _. split; [done|]. done.
    + destruct H as (-> & Hh'). cbn [Z.eqb negb]. rewrite (holds_first _ _ Hh'). cbn [mbind result_bind head]. apply (IHl Hil); [|done]. intros vs Hvs. by apply Hn.
  - cbn in Hr. rewrite !andb_true_iff in Hr. destruct Hr as [[_ Hs] Hv]. destruct v as [|l| |]; try done. cbn [globus_rsl_param_get]. unfold looks_up. cbn [attribute_values globus_rsl_value_sequence_get_value_list] in *.
    destruct (strcaseeq a param) eqn:Ea; [apply relation_param_get_ok; [done|by apply Hn|done]|]. destruct Hvals as [Hh|]; [|done].
    unfold relation_param_get. cbn [globus_rsl_is_relation_attribute_equal]. rewrite Ea. cbn [negb]. eauto.
Qed.

(** C26: looking up an attribute in a description of the language, boolean or a relation,
    returns for every kind of value. When no relation has the attribute (compared without
    case), the status is 0, and the array has NULL as its first string for a boolean and is
    the one that was passed in, unchanged, for a relation. Otherwise the first such relation in
    the order of the text decides: status 0 and an array that holds exactly its strings and a
    NULL behind them when all of its values have the kind that was asked for, and status 1
    when one has not; references and concatenations have none of the kinds, so that they are
    an error and are not ignored. No access is outside the array, whose size is two cells for
    each value and one more. *)
Theorem rsl_param_get_correct (r : rsl) (param_type : Z) (param : str) (values : option (list cell)) :
  rsl_in r = true -> (forall vs, attribute_values r param = Some vs -> 2 * Z.of_nat (length vs) + 1 <= INT_MAX) ->
  exists rc values', globus_rsl_param_get r param_type param values = Ok (rc, values') /\
    match attribute_values r param with
    | None => rc = 0 /\ (if globus_rsl_is_boolean r then holds values' [] else values' = values)
    | Some vs => match strings_of param_type vs with Some ss => rc = 0 /\ holds values' ss /\ ss <> [] | None => rc = 1 end
    end.
Proof.
  intros Hr Hn. destruct r as [op l|op a v].
  - apply (param_get_ok param_type param (Boolean op l) Hr Hn). by right.
  - cbn in Hr. rewrite !andb_true_iff in Hr. destruct Hr as [[_ Hs] Hv]. destruct v as [|l| |]; try done.
    cbn [globus_rsl_param_get globus_rsl_is_boolean attribute_values globus_rsl_value_sequence_get_value_list] in *.
    destruct (strcaseeq a param) eqn:Ea; [apply relation_param_get_ok; [done|by apply Hn|done]|].
    unfold relation_param_get. cbn [globus_rsl_is_relation_attribute_equal]. rewrite Ea. cbn [negb]. eauto.
Qed.

(** [&(count=1)(environment=(HOME /u)(PATH /b))] *)
Definition example_params : list rsl :=
  [Relation GLOBUS_RSL_EQ (codes "count") (VSequence [lit "1"]);
   Relation GLOBUS_RSL_EQ (codes "environment") (VSequence [VSequence [lit "HOME"; lit "/u"]; VSequence [lit "PATH"; lit "/b"]])].

Lemma rsl_param_get_correct_witness :
  exists values', globus_rsl_param_get (Boolean GLOBUS_RSL_AND example_params) GLOBUS_RSL_PARAM_SEQUENCE (codes "Environment") None = Ok (0, values') /\
    holds values' (codes <$> ["HOME"; "/u"; "PATH"; "/b"]).
Proof.
  destruct (rsl_param_get_correct (Boolean GLOBUS_RSL_AND example_params) GLOBUS_RSL_PARAM_SEQUENCE (codes "Environment") None) as (rc & values' & E & H); [vm_compute; reflexivity| |].
  - intros vs Hvs. vm_compute in Hvs. injection Hvs as <-. vm_compute. discriminate.
  - vm_compute in H. destruct H as (-> & Hh & _). exists values'. split; [exact E|exact Hh].
Defined.

(** Canonical names are canonical, and looking one up ignores underscores. *)
Lemma canonical_idempotent s : canonical (canonical s) = canonical s.
Proof.
  unfold canonical, lower. induction s as [|c s IH]; [done|]. rewrite filter_cons. destruct (decide (c <> 95)) as [Hc|]; [|done]. cbn [fmap list_fmap]. rewrite filter_cons.
  assert (tolower c <> 95 /\ tolower (tolower c) = tolower c) as [H95 Htt].
  { unfold tolower, isupper. destruct (Z.leb_spec 65 c); cbn; [|split; [done|]; rewrite (proj2 (Z.leb_gt 65 c)) by lia; done]. destruct (Z.leb_spec c 90); cbn.
    - split; [lia|]. rewrite (proj2 (Z.leb_le 65 (c + 32))), (proj2 (Z.leb_gt (c + 32) 90)) by lia. done.
    - split; [done|]. rewrite (proj2 (Z.leb_le 65 c)), (proj2 (Z.leb_gt c 90)) by lia. done. }
  rewrite decide_True by done. cbn [fmap list_fmap]. rewrite Htt. by f_equal.
Qed.
End Ops.
